(* ===== verification/_CoqProject ===== *)
-Q . S2P
Prelude.v
Streams.v
Memory.v
MemoryPool.v
Blocks.v
K2Tree.v
Scanners.v
Fetcher.v
Hashing.v
Replacement.v
CachedSource.v
NodeIds.v
BGPOps.v
BGPIterator.v
BGPProcessor.v
UpdatesLog.v
PredicatesIndex.v
Fic.v
Manager.v
ParallelWorker.v
PriorityQueue.v
TripleSort.v
ExternalSort.v
Builder.v
Session.v
Streaming.v
BgpStreamer.v
Channels.v
Server.v
Serving.v
Connection.v
ServerWorker.v
SearchPaths.v
Ingest.v
RandomData.v
Startup.v
Accept.v
Tools.v
SyncClient.v
Validate.v
