(* ===== verification/Prelude.v ===== *)
(** * RDFCacheK2: a verification development

    RDFCacheK2 is a cache of RDF triples. A triple (s, p, o) is a point (s, o) of
    the k2-tree of its predicate p; the trees live in an index file and in
    memory, updates go to a log, and queries (basic graph patterns) are joins
    over the points. This library models the C++ code under src/ by hand as
    executable Rocq definitions, one file per component, and proves what makes
    each component correct.

    ** The files

    - Prelude.v: machine integers, outcomes ([Ret], [Throw], [UB]), state-passing
      computations and their effects ([does]), ordered maps, tactics.
    - Streams.v: std::istream and std::ostream, and the big-endian codecs of
      utils/serialization_util.cpp; [parses] and [emits] specify readers and
      writers.
    - Memory.v: memory/MemorySegment.cpp and MemoryManager.cpp.
    - Blocks.v: core/k2tree/block_serialization.cpp, the trees of blocks of the
      k2tree library.
    - K2Tree.v: core/k2tree/K2TreeMixed.cpp; [K2Lib] is the k2tree library (a git
      submodule), [K2LibLaws] its documented behaviour and [Toy] an instance.
    - Scanners.v: the scanners of a tree, the bulk operations and the RDF terms.
    - Fetcher.v: the interface K2TreeFetcher, with its laws.
    - Replacement.v: core/replacement, the cache of keys and its strategies; a call of
      [hit_key] whole, and as the steps between which clients lock keys ([hit_step]).
    - CachedSource.v: core/fic/FullyIndexedPredicate.cpp and the scanners of
      network/streaming over it.
    - NodeIds.v: core/nodeids, the translation between external and internal ids.
    - BGPOps.v, BGPIterator.v, BGPProcessor.v: query_engine, from one join
      operator to a whole query.
    - UpdatesLog.v: core/updating, the log of updates, its recovery and its
      compaction.
    - Hashing.v: utils/hashing.cpp, over OpenSSL's digests.
    - PredicatesIndex.v: PredicatesCacheMetadata.cpp and PredicatesIndexCacheMD.cpp
      of core/manager, the index file and the trees in memory; the log is reached
      through the interface [UpdatesLogHost].
    - Fic.v: the rest of core/fic, the cache of indexed predicates
      ([FullyIndexedCache], with its laws and two implementations).
    - Manager.v: PredicatesCacheManagerImpl.cpp and PCMFactory.cpp, the manager
      that ties index, log and cache together; it implements [DataMerger] for
      the log and [UpdatesLogHost] for the index.
    - ParallelWorker.v: algorithms/ParallelWorker.hpp, the pool of threads, as a
      transition system.
    - PriorityQueue.v: the heap behind std::priority_queue, push and pop, for comparators
      that need not be strict, as the one of the external sort is not.
    - TripleSort.v and ExternalSort.v: algorithms/triple_external_sort.hpp, the
      sort of a vector by the pool and of a file by parts and merges.
    - Builder.v: core/builder, the index file of a sorted file of triples.
    - Session.v: network/server/session, the update sessions of the clients, over
      the interface [NodeIdsManager] of NodeIds.v and the manager.
    - Streaming.v: the three streamers of network/streaming that answer a pattern,
      behind the interface [I_TRMatchingStreamer], and what a client gets from one
      ([stream_all]).
    - BgpStreamer.v: network/streaming/BgpStreamer.cpp, the batches of a query.
    - Channels.v: cache/, the state all clients share, over any manager
      ([PredicatesCacheManager], which the manager of Manager.v implements) and any
      ids; and TripleMatchesPartStreamer.cpp, the channels clients open on it.
    - Server.v: network/server/tasks and network/server/replacement, the messages,
      a handler per request, the registries behind them ([CacheServerTaskProcessor]),
      the worker of the replacement tasks step by step ([replacement_step]; alone it
      does what [hit_key] says, [task_hits]), and the server as a step relation of
      requests and steps of that worker in any order ([server_step]).
    - Serving.v: what a client gets from handlers one after the other.
    - Connection.v: the reading of requests from a socket, and a whole connection.
    - ServerWorker.v: network/server/ServerWorker.cpp, the threads that serve
      connections and replacement tasks, as a transition system.
    - SearchPaths.v: core/algorithms, the search for paths in the graph of the
      triples, over the index.
    - Ingest.v: the programs of scripts/ and utils/sort that turn a text of triples
      into the files of a server.
    - Startup.v: the options of those programs, and scripts/cache_server.cpp, the start
      of the server from its options and files.
    - RandomData.v: core/util_algorithms, random datasets.
    - Accept.v: network/server/conn and CacheServer.cpp, the loop that accepts
      connections, over the workers of ServerWorker.v.
    - Tools.v: the programs of scripts/ that print what a server holds, search for paths
      or make files for tests.
    - SyncClient.v: scripts/trigger_logs_sync.cpp, a client of the server.
    - Validate.v: experiments/validate_k2tree_correctness.cpp, the check of random trees.
    - MemoryPool.v: memory/MemoryPool.hpp, which nothing uses.

    ** Reading the definitions

    Objects are records, and a method that changes its object returns the new
    one. A method that may throw, or that the standard leaves undefined on some
    input, returns an [outcome]; a null pointer that is dereferenced, an index
    out of range, an indeterminate value that is read and a signed overflow are
    [UB]. Unsigned arithmetic is modulo the width ([u16], [u32], [u64]). A
    std::map is a [gmap] visited in key order ([entries]); the order of an
    unordered_map is never relied on. Files are byte lists; renaming a file over
    another is atomic.

    Code outside src/ is a class parameter: [BlockLib] and [K2Lib] (the k2tree
    library), [Clock] (system time),
    [OpenSSL] (digests), [Heap] (the addresses the allocator chooses),
    [Host] (mkstemp, and the files that can be written or renamed),
    [Socket] (recv), [SendSocket], [Network] and [Listening] (the other calls on
    sockets), [ExternalSortLib] (the library that sorts ids),
    [TempDir] (mkdtemp), [RandomSource] and [RandomReal] (random numbers), [BufferAllocator] (where a
    buffer lies), and
    [Protobuf], [ProtobufParser] and [ClientProtobuf] (the bytes of messages);
    those a theorem relies on have laws, and a concrete instance on which the witnesses are
    evaluated.

    Loops that the kernel cannot see terminate take [fuel] and return [None]
    when it runs out; every theorem about them gives a bound that is enough
    ([iterator_correct]: twice the branches of the join plus two per operator;
    [while_scan]: one more than the points of the tree).

    ** What is proved

    - Queries. A query yields each of its solutions exactly once and ends
      ([BGPProcessor.execute_it_correct]); the iterator implements the nested
      loops join ([BGPIterator.iterator_correct]).
    - Trees. The operations of a tree refine a set of points
      ([K2Tree.tree_is_point_set]), its two readers invert its writer, its copy
      is equal to it, and its scanners deliver its points. The experiment that checks
      trees reports what their scanners have wrong ([Validate.validate_correct]).
    - Updates. What is logged is what the next process recovers
      ([UpdatesLog.logged_updates_recovered]), and compaction keeps the effect of
      the updates when the first of them has both trees, and otherwise what the trees
      it has can express of it ([UpdatesLog.compaction_keeps_effect]).
    - Ids, caches and memory. Ids are assigned once, and the bisection finds the
      ids there are; the replacement keeps the cache within its limit; segments
      hand out disjoint ranges, or throw when a request passes the end.
    - The manager. A fetch finds a tree in memory, in the file or in the log
      ([PredicatesIndex.fetch_k2tree_correct]); writing the index file keeps every
      predicate ([PredicatesIndex.sync_keeps_points]); merging a tree changes one
      predicate and keeps the cached indexes fresh ([Manager.merge_tree_correct]);
      and the manager with its log refines a map from predicates to sets of points
      ([Manager.log_refines_map]). Together with the laws of [K2TreeFetcher], which
      the index satisfies ([index_fetcher_laws]), queries see the updates. A
      session of a client reaches the manager through them
      ([Session.session_correct]).
    - Sorting. Every run of the pool that ends has run each task once
      ([ParallelWorker.pool_runs_every_task]), although one may not end
      ([ParallelWorker.pool_can_hang]); a vector is sorted whatever order its
      segments' tasks run in ([TripleSort.parallel_sort_correct]); and, when the runs of
      the pool end, a file of triples is cut, sorted and merged into a sorted file
      ([ExternalSort.external_sort_correct]), from which the builder makes an index
      with the points of each predicate ([Builder.build_correct]).
    - Serving. Whatever requests a server has served since it was created, and however
      the steps of the replacement worker came in between, its registries are
      consistent, its answers carry the right ids, and the predicates in use are those
      of the open channels ([Server.registries_ok]). The worker evicts only what it has
      found free, though not what is still free ([Server.locked_not_evicted]). A pattern is served
      in parts that hold each match once ([Serving.served_pattern], on
      [Streaming.stream_correct] and [Streaming.cached_stream_correct]), a query in
      batches ([BgpStreamer.bgp_stream_correct], for the value the member that is not
      initialised may hold), and an update session adds its triples, and
      deletes of the diagonal only ([Serving.served_update]). However the bytes of a
      connection arrive, it is served as the list of its requests
      ([Connection.connection_served]), each answered by a response of its type up to the
      first whose handler fails ([Server.replies_typed]), and the client can read
      the responses back ([Server.frames_roundtrip]).
    - Paths. The search for paths ends and finds what it is asked for
      ([SearchPaths.find_n_paths_correct]); the fuel it needs is more than the edges
      of a path and the points of a predicate together.
    - The client. A session of the client that triggers a synchronisation runs to its
      end at both ends of the connection ([SyncClient.sync_session]).
    - Preparation. From a text of triples the programs make files that the server
      opens, with exactly the triples of the text ([Ingest.ingest_correct]), and it serves them once
      started ([Startup.text_served]); what is
      printed of an index that was built is what it was built of
      ([Tools.index_roundtrip]); text and
      binary files convert into each other ([Ingest.text_roundtrip]). A random
      dataset is one too ([RandomData.generate_random_dataset_correct]), provided
      the generator does not repeat itself for ever ([finds_new]).
    - Shortfalls. Where the code does not do what it means to, a theorem says
      what it does: a timed-out or exhausted iterator, a pattern with one
      variable twice, ids reused after a restart, the LRU order, the log
      truncated by the next process, insertions lost by compaction, a manager
      that cannot start on a log with updates, a sorted answer that never ends, a
      query that repeats its last row, a query with an answer (its first row reads a
      member that is not initialised), deletions that miss their triple, a predicate
      evicted while a client holds it ([Server.locked_in_between_evicted]), a request
      for memory that wraps around, requests that crash the server
      ([Serving.lock_undefined], [Serving.unknown_ids]), a worker that misses a
      notification or cannot be stopped.

    ** What is not modelled

    The locks of the server's objects: a handler runs alone, between two steps of the
    worker of the replacement tasks. The threads modelled are that worker, those of the
    pool of workers and those of the server's workers. The positions of the LRU order
    are numbers, which the code keeps in a [long]: it takes 2^63 hits to tell. The protobuf encoding of messages, the parsing of N-Triples files,
    logging and statistics, and the memory behind pointers: freeing and double
    freeing are out of scope, and a tree is a value.
    The programs that measure time or print statistics of trees
    (dataset_stats, measure_serialization_time, traverse_k2tree_band), directories,
    benchmarks, and the timeout messages that nothing sends are left
    out too. *)
From Stdlib Require Export ZArith Lia.
From stdpp Require Export base tactics numbers option sets gmap sorting list.

Local Open Scope Z_scope.

(** ** Machine integers

    A C++ value of an unsigned type of [w] bits is a [Z] in [0, 2^w); the
    conversions the code performs (implicit or [static_cast]) are [uwrap]. A
    signed 64-bit value is read back from its bits by [to_signed]. *)
Definition uwrap (w x : Z) : Z := x mod 2 ^ w.
Definition u8 : Z → Z := uwrap 8.
Definition u16 : Z → Z := uwrap 16.
Definition u32 : Z → Z := uwrap 32.
Definition u64 : Z → Z := uwrap 64.
Definition to_signed (w x : Z) : Z :=
  let y := uwrap w x in if decide (y < 2 ^ (w - 1)) then y else y - 2 ^ w.
Definition s64 : Z → Z := to_signed 64.
Definition s32 : Z → Z := to_signed 32.

(** [in_u w x]: the value [x] is representable in [w] unsigned bits. *)
Definition in_u (w x : Z) : Prop := 0 ≤ x < 2 ^ w.
#[export] Instance in_u_dec w x : Decision (in_u w x).
Proof. unfold in_u. apply _. Defined.

(** [(uint64_t)-1], the value the code uses for "not found". *)
Definition u64_max : Z := 2 ^ 64 - 1.

(** ** Outcomes

    A call of the code returns a value, throws a C++ exception, or reaches a
    point where the C++ standard gives no meaning (a null or out-of-range
    access, an indeterminate value, a signed overflow). *)
Inductive exn : Type :=
  | RuntimeError
  | OutOfMemoryException (required capacity : Z)
  | InvalidStringSizeForNodeId (given : Z)
  | NoRefException
  | StdOutOfRange
  | StdLengthError
  | StdInvalidArgument
  | FilesystemError.

Inductive outcome (A : Type) : Type :=
  | Ret (a : A)
  | Throw (e : exn)
  | UB.
Arguments Ret {A} a.
Arguments Throw {A} e.
Arguments UB {A}.

#[export] Instance exn_eq_dec : EqDecision exn.
Proof. solve_decision. Defined.
#[export] Instance outcome_eq_dec `{EqDecision A} : EqDecision (outcome A).
Proof. solve_decision. Defined.

#[export] Instance outcome_ret : MRet outcome := λ A a, Ret a.
#[export] Instance outcome_bind : MBind outcome := λ A B f m,
  match m with Ret a => f a | Throw e => Throw e | UB => UB end.
#[export] Instance outcome_fmap : FMap outcome := λ A B f m,
  match m with Ret a => Ret (f a) | Throw e => Throw e | UB => UB end.

(** A read of an array cell or of a pointer: undefined when it is absent. *)
Definition deref {A} (o : option A) : outcome A :=
  match o with Some a => Ret a | None => UB end.

Lemma bind_inv {A B} (m : outcome A) (k : A → outcome B) b : (m ≫= k) = Ret b → ∃ a, m = Ret a ∧ k a = Ret b.
Proof. destruct m as [a| |]; simpl; [by eexists|done..]. Qed.
Lemma fmap_Ret {A B} (f : A → B) (m : outcome A) b : f <$> m = Ret b → ∃ a, m = Ret a ∧ b = f a.
Proof. destruct m as [a| |]; simpl; [intros [= <-]; by eexists|done..]. Qed.
(** Runs through the steps of a computation that returned. *)
Ltac unbind :=
  repeat match goal with
  | H : (_ ≫= _) = Ret _ |- _ => apply bind_inv in H as (? & ? & H)
  | H : (let '(_, _) := ?x in _) = Ret _ |- _ => destruct x eqn:?
  | H : match ?x with _ => _ end = Ret _ |- _ => destruct x eqn:?; try discriminate H
  | H : Ret _ = Ret _ |- _ => progress simplify_eq
  end.

(** A signed [int] computation: undefined when it leaves the 32-bit range. *)
Definition int_chk (x : Z) : outcome Z :=
  if decide (- 2 ^ 31 ≤ x < 2 ^ 31) then Ret x else UB.
Lemma int_chk_inv x y : int_chk x = Ret y → y = x.
Proof. unfold int_chk. case_decide; by intros [= ->]. Qed.

(** A [for] loop over items in [outcome]. *)
Fixpoint foldM {A B} (body : A → B → outcome A) (acc : A) (l : list B) : outcome A :=
  match l with
  | [] => Ret acc
  | x :: l => acc ← body acc x; foldM body acc l
  end.

(** ** State-passing computations

    [st S A] threads a state [S] through calls that may throw: input streams,
    output streams and memory segments are used this way. *)
Definition st (S A : Type) : Type := S → outcome (A * S).

#[export] Instance st_ret S : MRet (st S) := λ A a s, Ret (a, s).
#[export] Instance st_bind S : MBind (st S) := λ A B f m s,
  match m s with Ret (a, s') => f a s' | Throw e => Throw e | UB => UB end.
#[export] Instance st_fmap S : FMap (st S) := λ A B f m s,
  match m s with Ret (a, s') => Ret (f a, s') | Throw e => Throw e | UB => UB end.

(** A stateless call inside a state-passing one. *)
Definition lift {S A} (m : outcome A) : st S A := λ s, (λ a, (a, s)) <$> m.

(** A [for] loop over a list of indices or items, carrying an accumulator. *)
Fixpoint loop {S A B} (f : A → B → st S A) (a : A) (l : list B) : st S A :=
  match l with
  | [] => mret a
  | x :: l => a' ← f a x; loop f a' l
  end.

(** A counted loop whose body does not use the counter. *)
Fixpoint repeat_n {S A} (n : nat) (g : A → st S A) (a : A) : st S A :=
  match n with
  | O => mret a
  | S n => a' ← g a; repeat_n n g a'
  end.

(** A write of an array cell: undefined out of range. *)
Definition arr_set {A} (l : list A) (i : nat) (x : A) : outcome (list A) :=
  if decide (i < length l)%nat then Ret (<[i:=x]> l) else UB.

(** ** Effects

    An effect of a stateful computation is described by an element [w] of a
    monoid (the bytes consumed, the bytes appended, the memory used): [eff w]
    relates the states before and after. [does m w a] states that [m] always
    has the effect [w] and returns [a]; it composes along [bind] and loops,
    for every kind of state the code threads. *)
Class Effect (S W : Type) := {
  eff_unit : W;
  eff_app : W → W → W;
  eff : W → S → S → Prop;
  eff_app_assoc w w' w'' : eff_app w (eff_app w' w'') = eff_app (eff_app w w') w'';
  eff_unit_l w : eff_app eff_unit w = w;
  eff_unit_r w : eff_app w eff_unit = w;
  eff_unit_inv s s' : eff eff_unit s s' → s = s';
  eff_app_inv w w' s s'' :
    eff (eff_app w w') s s'' → ∃ s', eff w s s' ∧ eff w' s' s''
}.

Definition does {S W : Type} `{Effect S W} {A} (m : st S A) (w : W) (a : A) : Prop :=
  ∀ s s', eff w s s' → m s = Ret (a, s').

Definition eff_concat {S W : Type} `{Effect S W} (ws : list W) : W :=
  foldr eff_app eff_unit ws.

Section does.
Context {S W : Type} `{Effect S W}.

Lemma does_eq {A} (m : st S A) w w' a a' :
  does m w a → w = w' → a = a' → does m w' a'.
Proof. by intros ? <- <-. Qed.

Lemma eff_concat_app (ws ws' : list W) :
  eff_concat (ws ++ ws') = eff_app (eff_concat ws) (eff_concat ws').
Proof.
  induction ws as [|w ws IH]; simpl; [by rewrite eff_unit_l|].
  by rewrite <-eff_app_assoc, <-IH.
Qed.

Lemma does_ret {A} (a : A) : does (mret a) eff_unit a.
Proof. by intros s s' ->%eff_unit_inv. Qed.

Lemma does_lift {A} (m : outcome A) a : m = Ret a → does (lift m) eff_unit a.
Proof. by intros -> s s' ->%eff_unit_inv. Qed.

Lemma does_bind {A B} (m : st S A) (k : A → st S B) w w' a b :
  does m w a → does (k a) w' b → does (m ≫= k) (eff_app w w') b.
Proof.
  intros Hm Hk s s'' (s' & Hs & Hs')%eff_app_inv. unfold mbind, st_bind.
  by rewrite (Hm _ _ Hs), (Hk _ _ Hs').
Qed.

(** A bind one side of which has no effect. *)
Lemma does_bind_l {A B} (m : st S A) (k : A → st S B) w a b :
  does m w a → does (k a) eff_unit b → does (m ≫= k) w b.
Proof. intros. eapply does_eq; [by eapply does_bind|apply eff_unit_r|done]. Qed.
Lemma does_bind_r {A B} (m : st S A) (k : A → st S B) w a b :
  does m eff_unit a → does (k a) w b → does (m ≫= k) w b.
Proof. intros. eapply does_eq; [by eapply does_bind|apply eff_unit_l|done]. Qed.

Lemma does_loop {A B} (f : A → B → st S A) (bytes : B → W)
    (step : A → B → A) (l : list B) a :
  (∀ a x, x ∈ l → does (f a x) (bytes x) (step a x)) →
  does (loop f a l) (eff_concat (bytes <$> l)) (fold_left step l a).
Proof.
  revert a. induction l as [|x l IH]; intros a Hf; [apply does_ret|].
  eapply does_bind; [apply Hf; by left|].
  apply IH. intros ???. apply Hf. by right.
Qed.

Lemma does_repeat_n_add {A} n m (g : A → st S A) a b c w w' :
  does (repeat_n n g a) w b → does (repeat_n m g b) w' c →
  does (repeat_n (n + m) g a) (eff_app w w') c.
Proof.
  intros Hn Hm s s'' (s' & Hs & Hs')%eff_app_inv. specialize (Hn _ _ Hs).
  specialize (Hm _ _ Hs'). clear Hs Hs'.
  revert a s Hn. induction n as [|n IH]; intros a s Hn; simpl in *.
  { by injection Hn as -> ->. }
  unfold mbind, st_bind in *. destruct (g a s) as [[a' s1]| |]; [|done..].
  by apply IH.
Qed.
End does.

(** ** Tactics *)

(** Closes range goals by unfolding the width predicates. *)
Ltac width := unfold u8, u16, u32, u64, in_u, u64_max, uwrap in *; lia.

(** Proves a [Forall] from the [Forall] hypothesis [H]. *)
Ltac weaken H := eapply Forall_impl; [exact H|]; cbn beta; intros ?.

(** Splits a decided condition and cleans up. *)
Ltac cases := repeat (case_decide || case_bool_decide || case_match); simplify_eq/=.

(** Discharges a closed hypothesis of a witness by evaluation. *)
Ltac computed := vm_compute; intuition (reflexivity || discriminate).

(** ** Lemmas on machine integers *)

Lemma uwrap_small w x : in_u w x → uwrap w x = x.
Proof. unfold uwrap, in_u. intros. by apply Z.mod_small. Qed.

Lemma u16_id x : in_u 16 x → u16 x = x.
Proof. apply uwrap_small. Qed.
Lemma u32_id x : in_u 32 x → u32 x = x.
Proof. apply uwrap_small. Qed.
Lemma u64_id x : in_u 64 x → u64 x = x.
Proof. apply uwrap_small. Qed.

Lemma uwrap_range w x : 0 ≤ w → in_u w (uwrap w x).
Proof. intros. unfold uwrap, in_u. apply Z.mod_pos_bound, Z.pow_pos_nonneg; lia. Qed.

Lemma u64_add_l a b : u64 (u64 a + b) = u64 (a + b).
Proof. unfold u64, uwrap. apply Z.add_mod_idemp_l. lia. Qed.
Lemma u64_add_r a b : u64 (a + u64 b) = u64 (a + b).
Proof. unfold u64, uwrap. apply Z.add_mod_idemp_r. lia. Qed.
Lemma u32_add_l a b : u32 (u32 a + b) = u32 (a + b).
Proof. unfold u32, uwrap. apply Z.add_mod_idemp_l. lia. Qed.

Lemma u32_add_r a b : u32 (a + u32 b) = u32 (a + b).
Proof. unfold u32, uwrap. apply Z.add_mod_idemp_r. lia. Qed.

Lemma u64_range x : in_u 64 (u64 x).
Proof. apply uwrap_range; lia. Qed.
Lemma u32_range x : in_u 32 (u32 x).
Proof. apply uwrap_range; lia. Qed.
Lemma u16_range x : in_u 16 (u16 x).
Proof. apply uwrap_range; lia. Qed.

Lemma in_u_mono w w' x : 0 ≤ w ≤ w' → in_u w x → in_u w' x.
Proof.
  unfold in_u. intros ? [??]. split; [done|].
  eapply Z.lt_le_trans; [done|]. apply Z.pow_le_mono_r; lia.
Qed.

(** A small non-negative value keeps its value as a signed one. *)
Lemma to_signed_nonneg w n : 0 < w → 0 ≤ n < 2 ^ (w - 1) → to_signed w n = n.
Proof.
  intros Hw Hn. unfold to_signed.
  assert (2 ^ w = 2 * 2 ^ (w - 1)) by (rewrite <-Z.pow_succ_r by lia; f_equal; lia).
  rewrite uwrap_small by (unfold in_u; lia). by rewrite decide_True by lia.
Qed.
Lemma to_signed_count w n : 0 < w → Z.of_nat n < 2 ^ (w - 1) →
  Z.to_nat (to_signed w (Z.of_nat n)) = n.
Proof.
  intros Hw Hn. rewrite to_signed_nonneg by lia. lia.
Qed.
Lemma s64_u64 o : 0 ≤ o < 2 ^ 63 → s64 (u64 o) = o.
Proof.
  intros Ho. unfold u64. rewrite uwrap_small by (unfold in_u; lia).
  by apply to_signed_nonneg.
Qed.

(** Sums of integers. *)
Definition sumZ (l : list Z) : Z := foldr Z.add 0 l.

Lemma sumZ_cons x l : sumZ (x :: l) = x + sumZ l.
Proof. done. Qed.

Lemma sumZ_app l k : sumZ (l ++ k) = sumZ l + sumZ k.
Proof. induction l; simpl; lia. Qed.

Lemma sumZ_perm (l k : list Z) : l ≡ₚ k → sumZ l = sumZ k.
Proof. induction 1; simpl in *; lia. Qed.
Lemma sumZ_nonneg l : Forall (λ x, 0 ≤ x) l → 0 ≤ sumZ l.
Proof. induction 1; simpl; lia. Qed.

(** Collecting the items of a traversal. *)
Lemma fold_left_snoc {A} (l acc : list A) :
  fold_left (λ acc x, acc ++ [x]) l acc = acc ++ l.
Proof.
  revert acc. induction l as [|x l IH]; intros acc; simpl; [by rewrite app_nil_r|].
  by rewrite IH, <-(assoc_L (++)).
Qed.

(** ** Ordered maps

    A std::map is a [gmap] whose iteration visits the entries by increasing
    key: [entries m] is that sequence. *)
Definition key_le {V} (x y : Z * V) : Prop := x.1 ≤ y.1.
#[export] Instance key_le_dec {V} : RelDecision (@key_le V).
Proof. unfold key_le. intros ??. apply _. Defined.
#[export] Instance key_le_total {V} : Total (@key_le V).
Proof. intros ??. unfold key_le. lia. Qed.
#[export] Instance key_le_trans {V} : Transitive (@key_le V).
Proof. intros ???. unfold key_le. lia. Qed.

Definition entries {V} (m : gmap Z V) : list (Z * V) :=
  merge_sort key_le (map_to_list m).

Lemma entries_perm {V} (m : gmap Z V) : entries m ≡ₚ map_to_list m.
Proof. apply merge_sort_Permutation. Qed.

Lemma elem_of_entries {V} (m : gmap Z V) k v :
  (k, v) ∈ entries m ↔ m !! k = Some v.
Proof. by rewrite entries_perm, elem_of_map_to_list. Qed.

Lemma entries_sorted {V} (m : gmap Z V) : StronglySorted key_le (entries m).
Proof. apply StronglySorted_merge_sort; apply _. Qed.

Lemma NoDup_fst_entries {V} (m : gmap Z V) : NoDup (entries m).*1.
Proof. rewrite entries_perm. apply NoDup_fst_map_to_list. Qed.

Lemma list_to_map_entries {V} (m : gmap Z V) : list_to_map (entries m) = m.
Proof.
  rewrite <-(list_to_map_to_list m) at 2.
  apply list_to_map_proper; [apply NoDup_fst_entries|apply entries_perm].
Qed.

Create HintDb width.
#[export] Hint Resolve u64_range u32_range u16_range : width.
Create HintDb parses.
Create HintDb emits.

(** The entry of a key. *)
Lemma filter_key_list {V} (l : list (Z * V)) p : NoDup l.*1 → filter (λ kv, kv.1 = p) l =
  match (list_to_map l : gmap Z V) !! p with Some x => [(p, x)] | None => [] end.
Proof.
  induction l as [|[k x] l IH]; intros Hnd; [done|].
  inversion Hnd as [|? ? Hk Hnd']; subst. rewrite filter_cons. simpl. case_decide as E.
  - subst k. by rewrite lookup_insert_eq, IH, not_elem_of_list_to_map_1 by done.
  - by rewrite lookup_insert_ne, IH.
Qed.
Lemma filter_entries {V} (m : gmap Z V) p :
  filter (λ kv, kv.1 = p) (entries m) = match m !! p with Some x => [(p, x)] | None => [] end.
Proof. by rewrite filter_key_list, list_to_map_entries by apply NoDup_fst_entries. Qed.
