(* ===== verification/Streams.v ===== *)
(** * Byte streams and the integer codecs of utils/serialization_util.cpp

    [istream]/[ostream] model the part of std::istream/std::ostream the code
    uses: a byte buffer, a position and, for input, the fail bit that a short
    read sets and that makes later reads extract nothing. [parses] and [emits]
    are the specifications of a reader and of a writer on a stream whose other
    bytes are arbitrary; their composition lemmas carry every codec proof. *)
From S2P Require Import Prelude.

Local Open Scope Z_scope.

(** ** Streams of the standard library *)

Record istream := IStream { is_data : list Z; is_pos : nat; is_fail : bool }.
Record ostream := OStream { os_data : list Z; os_pos : nat }.

Definition rd (A : Type) : Type := st istream A.
Definition wr (A : Type) : Type := st ostream A.

(** [is.read(buf, n)]: the bytes extracted; fewer than [n] set the fail bit. *)
Definition is_read (n : nat) (s : istream) : list Z * istream :=
  if is_fail s then ([], s)
  else
    let got := take n (drop (is_pos s) (is_data s)) in
    (got, IStream (is_data s) (is_pos s + length got)
            (bool_decide (length got < n)%nat)).

(** [is.seekg(pos)] has no effect on a failed stream. *)
Definition seekg (pos : nat) (s : istream) : istream :=
  if is_fail s then s else IStream (is_data s) pos false.

(** [os.write(buf, n)] overwrites from the position, and grows the buffer
    (a gap left by a seek past the end reads back as zeros). *)
Definition os_write (bs : list Z) : wr () := λ s,
  let padded := os_data s ++ replicate (os_pos s - length (os_data s)) 0 in
  Ret ((), OStream (take (os_pos s) padded ++ bs ++
                    drop (os_pos s + length bs) padded)
                   (os_pos s + length bs)).
Definition tellp : wr nat := λ s, Ret (os_pos s, s).
Definition seekp (pos : nat) : wr () := λ s, Ret ((), OStream (os_data s) pos).

(** ** utils/FileRWHandler.cpp *)

(** A file that is there is read from its start; one that is not gives a stream
    whose reads fail (FileRWHandler::get_reader). *)
Definition get_reader (file : option (list Z)) : istream :=
  match file with Some d => IStream d 0 false | None => IStream [] 0 true end.
(** [get_writer]: opening for output truncates, unless in append mode. *)
Definition get_writer (append : bool) (file : option (list Z)) : list Z :=
  if append then default [] file else [].

(** The bytes a writer puts into an empty file or string stream. *)
Definition file_of {A} (w : wr A) : outcome (A * list Z) :=
  '(a, o) ← w (OStream [] 0); Ret (a, os_data o).

(** ** Big-endian conversion: htons/htonl/htobe64 followed by a byte copy *)

Fixpoint be_encode (n : nat) (x : Z) : list Z :=
  match n with
  | O => []
  | S n => u8 (Z.shiftr x (8 * Z.of_nat n)) :: be_encode n x
  end.

Definition be_decode (bs : list Z) : Z :=
  fold_left (λ acc b, 256 * acc + u8 b) bs 0.

(** ** utils/serialization_util.cpp *)

Definition write_u16 (value : Z) : wr () := os_write (be_encode 2 value).
Definition write_u32 (value : Z) : wr () := os_write (be_encode 4 value).
Definition write_u64 (value : Z) : wr () := os_write (be_encode 8 value).

(** [read_u16] leaves [result] uninitialised, so a short read returns an
    indeterminate value; [read_u32] and [read_u64] zero it first, so a short
    read returns the bytes it got, in the leading positions. *)
Definition read_u16 : rd Z := λ s,
  let '(bs, s') := is_read 2 s in
  if decide (length bs = 2%nat) then Ret (be_decode bs, s') else UB.
Definition read_zeroed (n : nat) : rd Z := λ s,
  let '(bs, s') := is_read n s in
  Ret (be_decode (bs ++ replicate (n - length bs) 0), s').
Definition read_u32 : rd Z := read_zeroed 4.
Definition read_u64 : rd Z := read_zeroed 8.

Definition write_u32_array (array : list Z) (array_size : Z) : wr () :=
  write_u32 array_size;;
  loop (λ _ i, x ← lift (deref (array !! i)); write_u32 x)
    () (seq 0 (Z.to_nat array_size)).
Definition read_u32_array : rd (Z * list Z) :=
  array_size ← read_u32;
  out ← loop (λ acc _, x ← read_u32; mret (acc ++ [x]))
          [] (seq 0 (Z.to_nat array_size));
  mret (array_size, out).

(** ** Specifications of readers and writers *)

(** A live input stream that has consumed [pre] and still holds [rest]. *)
Definition stream_at (pre rest : list Z) : istream :=
  IStream (pre ++ rest) (length pre) false.
(** An output stream positioned at its end. *)
Definition os_end (d : list Z) : ostream := OStream d (length d).

#[export] Program Instance read_effect : Effect istream (list Z) := {|
  eff_unit := [];
  eff_app := app;
  eff w s s' := ∃ pre post, s = stream_at pre (w ++ post) ∧
                            s' = stream_at (pre ++ w) post
|}.
Next Obligation. intros. apply (assoc_L (++)). Qed.
Next Obligation. done. Qed.
Next Obligation. intros. apply app_nil_r. Qed.
Next Obligation. intros s s' (pre & post & -> & ->). by rewrite app_nil_r. Qed.
Next Obligation.
  intros w w' s s'' (pre & post & -> & ->). exists (stream_at (pre ++ w) (w' ++ post)).
  split; [exists pre, (w' ++ post)|exists (pre ++ w), post];
    by rewrite ?(assoc_L (++)).
Qed.

#[export] Program Instance write_effect : Effect ostream (list Z) := {|
  eff_unit := [];
  eff_app := app;
  eff w s s' := ∃ d, s = os_end d ∧ s' = os_end (d ++ w)
|}.
Next Obligation. intros. apply (assoc_L (++)). Qed.
Next Obligation. done. Qed.
Next Obligation. intros. apply app_nil_r. Qed.
Next Obligation. intros s s' (d & -> & ->). by rewrite app_nil_r. Qed.
Next Obligation.
  intros w w' s s'' (d & -> & ->). exists (os_end (d ++ w)).
  split; [exists d|exists (d ++ w)]; by rewrite ?(assoc_L (++)).
Qed.

(** [parses r w a]: on any live stream whose next bytes are [w], the reader [r]
    consumes exactly [w] and returns [a]. [emits m w a]: at the end of any
    stream the writer [m] appends exactly [w] and returns [a]. *)
Abbreviation parses r w a := (does (H := read_effect) r w a).
Abbreviation emits m w a := (does (H := write_effect) m w a).

Lemma parses_at {A} (r : rd A) w a pre post :
  parses r w a → r (stream_at pre (w ++ post)) = Ret (a, stream_at (pre ++ w) post).
Proof. intros Hr. apply Hr. by exists pre, post. Qed.

Lemma emits_at {A} (m : wr A) w a d :
  emits m w a → m (os_end d) = Ret (a, os_end (d ++ w)).
Proof. intros Hm. apply Hm. by exists d. Qed.

Lemma file_of_emits {A} (m : wr A) w a : emits m w a → file_of m = Ret (a, w).
Proof.
  intros Hm. unfold file_of. change (OStream [] 0) with (os_end []).
  by rewrite (emits_at _ _ _ _ Hm).
Qed.

Lemma emits_intro {A} (m : wr A) w a :
  (∀ d, m (os_end d) = Ret (a, os_end (d ++ w))) → emits m w a.
Proof. intros Hm s s' (d & -> & ->). apply Hm. Qed.

Lemma parses_intro {A} (r : rd A) w a :
  (∀ pre post, r (stream_at pre (w ++ post)) = Ret (a, stream_at (pre ++ w) post)) →
  parses r w a.
Proof. intros Hr s s' (pre & post & -> & ->). apply Hr. Qed.

Lemma eff_concat_bytes {B} (f : B → list Z) (l : list B) :
  eff_concat (H := read_effect) (f <$> l) = l ≫= f.
Proof. induction l as [|x l IH]; [done|]. simpl. by f_equal. Qed.

(** The same two facts for writers, whose effects are the same lists. *)
Lemma parses_eq {A} (r : rd A) w w' a a' :
  parses r w a → w = w' → a = a' → parses r w' a'.
Proof. by intros ? <- <-. Qed.
Lemma emits_eq {A} (m : wr A) w w' a a' :
  emits m w a → w = w' → a = a' → emits m w' a'.
Proof. by intros ? <- <-. Qed.

(** Composition, with the effects written as byte strings. *)
Lemma parses_bind {A B} (m : rd A) (k : A → rd B) w w' a b :
  parses m w a → parses (k a) w' b → parses (m ≫= k) (w ++ w') b.
Proof. apply (does_bind (H := read_effect)). Qed.
Lemma emits_bind {A B} (m : wr A) (k : A → wr B) w w' a b :
  emits m w a → emits (k a) w' b → emits (m ≫= k) (w ++ w') b.
Proof. apply (does_bind (H := write_effect)). Qed.
Lemma parses_bind_ret {A B} (m : rd A) (f : A → B) w a :
  parses m w a → parses (x ← m; mret (f x)) w (f a).
Proof. intros Hm. eapply (does_bind_l (H := read_effect)); [exact Hm|apply does_ret]. Qed.
Lemma parses_ret {A} (a : A) : parses (mret a) [] a.
Proof. apply (does_ret (H := read_effect)). Qed.
Lemma emits_ret {A} (a : A) : emits (mret a) [] a.
Proof. apply (does_ret (H := write_effect)). Qed.

(** An overwrite in the middle of the buffer, as a seek back to patch does. *)
Lemma os_write_patch pre old bs post :
  length old = length bs →
  os_write bs (OStream (pre ++ old ++ post) (length pre)) =
  Ret ((), OStream (pre ++ bs ++ post) (length pre + length bs)).
Proof.
  intros Hlen. unfold os_write. simpl.
  replace (length pre - length (pre ++ old ++ post))%nat with 0%nat
    by (rewrite !length_app; lia).
  rewrite app_nil_r, take_app_length. do 3 f_equal.
  by rewrite <-drop_drop, drop_app_length, <-Hlen, drop_app_length.
Qed.

Lemma emits_write bs : emits (os_write bs) bs ().
Proof.
  apply emits_intro. intros d. unfold os_write, os_end. simpl.
  rewrite Nat.sub_diag, app_nil_r. rewrite take_ge by lia.
  by rewrite drop_ge, app_nil_r, length_app by lia.
Qed.

(** [overwrites m w a]: anywhere in a buffer the writer [m] replaces as many bytes
    as [w] has by [w]. *)
Definition overwrites {A} (m : wr A) (w : list Z) (a : A) : Prop :=
  ∀ pre old post, length old = length w →
    m (OStream (pre ++ old ++ post) (length pre)) =
    Ret (a, OStream (pre ++ w ++ post) (length pre + length w)).

Lemma overwrites_ret {A} (a : A) : overwrites (mret a) [] a.
Proof. intros pre [|] post Hl; [|done]. by rewrite Nat.add_0_r. Qed.

Lemma overwrites_bind {A B} (m : wr A) (k : A → wr B) w w' a b :
  overwrites m w a → overwrites (k a) w' b → overwrites (m ≫= k) (w ++ w') b.
Proof.
  intros Hm Hk pre old post Hl. rewrite length_app in Hl. unfold mbind, st_bind.
  rewrite <-(take_drop (length w) old), <-(assoc_L (++)).
  rewrite Hm by (rewrite length_take; lia).
  rewrite (assoc_L (++) pre), <-length_app. rewrite Hk by (rewrite length_drop; lia).
  do 3 f_equal; [by rewrite <-!(assoc_L (++))|]. rewrite !length_app. lia.
Qed.

Lemma overwrites_write bs : overwrites (os_write bs) bs ().
Proof. intros pre old post Hl. by apply os_write_patch. Qed.

Lemma overwrites_loop {B} (f : B → wr ()) (bytes : B → list Z) (l : list B) :
  (∀ x, x ∈ l → overwrites (f x) (bytes x) ()) →
  overwrites (loop (λ _ x, f x) () l) (l ≫= bytes) ().
Proof.
  induction l as [|x l IH]; intros Hf; [apply overwrites_ret|]. simpl loop.
  change ((x :: l) ≫= bytes) with (bytes x ++ (l ≫= bytes)).
  eapply overwrites_bind; [apply Hf; by left|]. apply IH. intros y Hy. apply Hf. by right.
Qed.

(** Loops of writers and of readers over a list of items. *)
Lemma emits_loop_unit {B} (f : B → wr ()) (bytes : B → list Z) l :
  (∀ x, x ∈ l → emits (f x) (bytes x) ()) → emits (loop (λ _ x, f x) () l) (l ≫= bytes) ().
Proof.
  induction l as [|x l IH]; intros Hf; [apply emits_ret|].
  simpl loop. change ((x :: l) ≫= bytes) with (bytes x ++ (l ≫= bytes)).
  eapply emits_bind; [apply Hf; by left|]. apply IH. intros y Hy. apply Hf. by right.
Qed.

Lemma parses_count {A B} (f : A → rd A) (bytes : B → list Z) (step : A → B → A) l a k :
  (∀ x a, x ∈ l → parses (f a) (bytes x) (step a x)) →
  parses (loop (λ a (_ : nat), f a) a (seq k (length l))) (l ≫= bytes) (fold_left step l a).
Proof.
  revert a k. induction l as [|x l IH]; intros a k Hf; [apply parses_ret|].
  simpl loop. change ((x :: l) ≫= bytes) with (bytes x ++ (l ≫= bytes)). simpl fold_left.
  eapply parses_bind; [apply Hf; by left|]. apply IH. intros. apply Hf. by right.
Qed.

(** ** The big-endian codec *)

Lemma length_be_encode n x : length (be_encode n x) = n.
Proof. induction n; simpl; auto. Qed.

Lemma be_encode_bytes n x : Forall (in_u 8) (be_encode n x).
Proof. induction n; constructor; [apply uwrap_range; lia|done]. Qed.

Lemma be_decode_acc n x acc :
  fold_left (λ acc b, 256 * acc + u8 b) (be_encode n x) acc =
  acc * 2 ^ (8 * Z.of_nat n) + x mod 2 ^ (8 * Z.of_nat n).
Proof.
  revert acc. induction n as [|n IH]; intros acc; simpl be_encode.
  { simpl. rewrite Z.mod_1_r. lia. }
  simpl fold_left. rewrite IH. unfold u8 at 1.
  rewrite (uwrap_small 8) by (apply uwrap_range; lia).
  replace (8 * Z.of_nat (S n)) with (8 * Z.of_nat n + 8) by lia.
  rewrite Z.pow_add_r by lia. change (2 ^ 8) with 256.
  assert (0 < 2 ^ (8 * Z.of_nat n)) by (apply Z.pow_pos_nonneg; lia).
  rewrite Z.rem_mul_r by lia. unfold u8, uwrap.
  rewrite Z.shiftr_div_pow2 by lia. change (2 ^ 8) with 256. lia.
Qed.

Lemma be_decode_encode n x :
  in_u (8 * Z.of_nat n) x → be_decode (be_encode n x) = x.
Proof.
  intros Hx. unfold be_decode. rewrite be_decode_acc.
  rewrite Z.mod_small by done. lia.
Qed.

Lemma is_read_at n pre w post :
  length w = n →
  is_read n (stream_at pre (w ++ post)) = (w, stream_at (pre ++ w) post).
Proof.
  intros <-. unfold is_read, stream_at. simpl.
  rewrite drop_app_length, take_app_length, length_app, (assoc_L (++)).
  by rewrite bool_decide_false by lia.
Qed.

Lemma parses_read_zeroed n x :
  in_u (8 * Z.of_nat n) x → parses (read_zeroed n) (be_encode n x) x.
Proof.
  intros Hx. apply parses_intro. intros pre post. unfold read_zeroed.
  rewrite is_read_at by apply length_be_encode.
  rewrite length_be_encode, Nat.sub_diag, app_nil_r.
  by rewrite be_decode_encode.
Qed.

Lemma parses_u16 x : in_u 16 x → parses read_u16 (be_encode 2 x) x.
Proof.
  intros Hx. apply parses_intro. intros pre post. unfold read_u16.
  rewrite is_read_at by apply length_be_encode.
  rewrite decide_True by apply length_be_encode. by rewrite be_decode_encode.
Qed.
Lemma parses_u32 x : in_u 32 x → parses read_u32 (be_encode 4 x) x.
Proof. apply (parses_read_zeroed 4). Qed.
Lemma parses_u64 x : in_u 64 x → parses read_u64 (be_encode 8 x) x.
Proof. apply (parses_read_zeroed 8). Qed.

Lemma emits_u16 x : emits (write_u16 x) (be_encode 2 x) ().
Proof. apply emits_write. Qed.
Lemma emits_u32 x : emits (write_u32 x) (be_encode 4 x) ().
Proof. apply emits_write. Qed.
Lemma emits_u64 x : emits (write_u64 x) (be_encode 8 x) ().
Proof. apply emits_write. Qed.

#[export] Hint Resolve parses_u16 parses_u32 parses_u64 : parses.
#[export] Hint Resolve emits_u16 emits_u32 emits_u64 emits_write : emits.

(** Proves a [parses]/[emits] goal for a sequence of calls whose own facts are
    hints, leaving the equation between the bytes. *)
Ltac codec_step :=
  first [ eapply does_bind; [solve [eauto with parses emits]|]
        | apply does_ret | solve [eauto with parses emits] ].
Ltac codec := repeat codec_step.

#[global] Opaque be_encode.
