(* ===== verification/Memory.v ===== *)
(** * memory/: bump segments and the registry that tells them from the heap

    [MemorySegment] (memory/MemorySegment.cpp) hands out consecutive ranges of
    one buffer and frees nothing; [MemoryManager] (memory/MemoryManager.cpp)
    finds the segment a pointer belongs to, which decides whether the
    [k2tree_free_*] callbacks release a pointer to the heap. Addresses are
    integers; the bytes behind them are not modelled. *)
From S2P Require Import Prelude.

Local Open Scope Z_scope.

(** ** memory/MemorySegment.hpp *)
Record MemorySegment := mkSegment {
  data : Z;            (* address of the buffer *)
  size_bytes : Z;
  byte_position : Z
}.

Definition new_segment (addr size : Z) : MemorySegment := mkSegment addr size 0.

(** [require_bytes]: [None] is the null pointer it returns for zero bytes. The
    bound is computed in [size_t]. *)
Definition require_bytes (needed_bytes : Z) : st MemorySegment (option Z) := λ s,
  if decide (needed_bytes = 0) then Ret (None, s)
  else if decide (u64 (needed_bytes + byte_position s) > size_bytes s)
  then Throw (OutOfMemoryException needed_bytes (size_bytes s))
  else Ret (Some (data s + byte_position s),
            mkSegment (data s) (size_bytes s) (u64 (byte_position s + needed_bytes))).

Definition has (ptr : Z) (s : MemorySegment) : bool :=
  bool_decide (data s ≤ ptr) && bool_decide (ptr < data s + size_bytes s).
Definition free_memory (ptr : Z) (s : MemorySegment) : MemorySegment := s.
Definition get_first_address (s : MemorySegment) : Z := data s.

(** ** memory/MemoryManager.hpp

    [memory_segments] is ordered by decreasing address ([Comp] is [>]); a
    segment object is identified by its own address. *)
Record MemoryManager := mkManager {
  memory_segments : gmap Z (Z * MemorySegment);
  reverse_mem_segments_map : gmap Z Z
}.

Definition empty_manager : MemoryManager := mkManager ∅ ∅.

(** [new_memory_segment]: the heap gives the object address [ptr] and the
    buffer address [addr]. *)
Definition new_memory_segment (size ptr addr : Z) (m : MemoryManager) : Z * MemoryManager :=
  let first_address := get_first_address (new_segment addr size) in
  (ptr, mkManager
     (<[first_address := (ptr, new_segment addr size)]> (memory_segments m))
     (<[ptr := first_address]> (reverse_mem_segments_map m))).

(** [lower_bound(ptr)] under [>]: walking the addresses downwards, the first
    one that is not greater than [ptr]. *)
Definition lower_bound {V} (m : gmap Z V) (ptr : Z) : option (Z * V) :=
  head (filter (λ e, ¬ (e.1 > ptr)) (reverse (entries m))).

Definition exists_ (ptr : Z) (m : MemoryManager) : bool :=
  bool_decide (is_Some (lower_bound (memory_segments m) ptr)).

Definition find_segment (ptr : Z) (m : MemoryManager) : option Z :=
  match lower_bound (memory_segments m) ptr with
  | None => None
  | Some (_, (id, mem_segment)) =>
      if has ptr mem_segment then Some id else None
  end.

Definition free_segment (ptr : Z) (m : MemoryManager) : MemoryManager :=
  match reverse_mem_segments_map m !! ptr with
  | None => m
  | Some first_address =>
      mkManager (delete first_address (memory_segments m))
                (delete ptr (reverse_mem_segments_map m))
  end.

(** The memory callbacks of the k2tree library: a pointer inside a segment is
    left to the segment, any other is released to the heap. *)
Inductive release := LeftToSegment (id : Z) | HeapDelete (ptr : Z).
Definition k2tree_free (ptr : Z) (m : MemoryManager) : release :=
  match find_segment ptr m with
  | Some id => LeftToSegment id
  | None => HeapDelete ptr
  end.

(** ** Allocation from a segment *)

Definition seg_ok (s : MemorySegment) : Prop :=
  in_u 64 (size_bytes s) ∧ 0 ≤ byte_position s ≤ size_bytes s.

Definition available (s : MemorySegment) : Z := size_bytes s - byte_position s.

(** The segment after [n] more bytes were handed out. *)
Definition advance (n : Z) (s : MemorySegment) : MemorySegment :=
  mkSegment (data s) (size_bytes s) (byte_position s + n).

Lemma advance_0 s : advance 0 s = s.
Proof. destruct s. unfold advance. simpl. f_equal. lia. Qed.
Lemma advance_advance a b s : advance b (advance a s) = advance (a + b) s.
Proof. unfold advance. simpl. f_equal. lia. Qed.
Lemma available_advance n s : available (advance n s) = available s - n.
Proof. unfold available, advance. simpl. lia. Qed.

Lemma require_bytes_fits n s :
  seg_ok s → 0 ≤ n ≤ available s →
  ∃ p, require_bytes n s = Ret (p, advance n s) ∧
       p = (if decide (n = 0) then None else Some (data s + byte_position s)) ∧
       seg_ok (advance n s).
Proof.
  unfold seg_ok, available, require_bytes. intros [Hs Hp] Hn.
  eexists. split_and!; [|done|done|simpl; lia..].
  case_decide as E0; [subst; by rewrite advance_0|].
  unfold u64. rewrite !uwrap_small by width.
  rewrite decide_False by lia. done.
Qed.

Lemma require_bytes_oom n s :
  seg_ok s → in_u 64 (n + byte_position s) → available s < n → 0 < n →
  require_bytes n s = Throw (OutOfMemoryException n (size_bytes s)).
Proof.
  unfold available, require_bytes. intros [Hs Hp] Hw Hn ?.
  rewrite decide_False by lia. unfold u64. rewrite uwrap_small by done.
  by rewrite decide_True by lia.
Qed.

(** A sequence of requests, with the ranges granted. *)
Definition require_all (sizes : list Z) : st MemorySegment (list (Z * Z)) :=
  loop (λ acc n, p ← require_bytes n;
                 mret (match p with None => acc | Some a => acc ++ [(a, n)] end))
       [] sizes.

(** The ranges a bump allocator grants from address [a]. *)
Fixpoint bump_ranges (a : Z) (sizes : list Z) : list (Z * Z) :=
  match sizes with
  | [] => []
  | n :: sizes =>
      (if decide (n = 0) then [] else [(a, n)]) ++ bump_ranges (a + n) sizes
  end.

Definition disjoint_ranges (x y : Z * Z) : Prop := x.1 + x.2 ≤ y.1.

Lemma bump_ranges_spec a sizes :
  Forall (λ n, 0 ≤ n) sizes →
  StronglySorted disjoint_ranges (bump_ranges a sizes) ∧
  Forall (λ r, a ≤ r.1 ∧ 0 < r.2 ∧ r.1 + r.2 ≤ a + sumZ sizes) (bump_ranges a sizes).
Proof.
  intros Hs. revert a. induction Hs as [|n sizes Hn Hs IH]; intros a; simpl.
  { split; constructor. }
  destruct (IH (a + n)) as [Hsort Hin]. case_decide; simpl.
  - split; [done|]. weaken Hin. lia.
  - split.
    + constructor; [done|]. weaken Hin. unfold disjoint_ranges. simpl. lia.
    + assert (0 ≤ sumZ sizes) by (clear -Hs; induction Hs; simpl; lia).
      constructor; [simpl; lia|].
      weaken Hin. lia.
Qed.

Lemma require_loop sizes s acc :
  seg_ok s → Forall (λ n, 0 ≤ n) sizes → sumZ sizes ≤ available s →
  loop (λ acc n, p ← require_bytes n;
                 mret (match p with None => acc | Some a => acc ++ [(a, n)] end))
       acc sizes s
  = Ret (acc ++ bump_ranges (data s + byte_position s) sizes, advance (sumZ sizes) s).
Proof.
  intros Hok Hs. revert s acc Hok. induction Hs as [|n sizes Hn Hs IH]; intros s acc Hok Hav.
  { simpl. by rewrite app_nil_r, advance_0. }
  simpl in *. assert (0 ≤ sumZ sizes) by (clear -Hs; induction Hs; simpl; lia).
  destruct (require_bytes_fits n s) as (p & Hr & -> & Hok'); [done|lia|].
  unfold mbind, st_bind at 1. unfold mbind, st_bind at 1. rewrite Hr. simpl.
  rewrite IH; [|done|rewrite available_advance; lia].
  rewrite advance_advance. simpl. rewrite Z.add_assoc.
  case_decide; simpl; [done|]. by rewrite <-(assoc_L (++)).
Qed.

(** Requests that do not fit: the first one that passes the end is refused. *)
Lemma require_loop_oom sizes acc : ∀ s,
  seg_ok s → Forall (λ n, 0 ≤ n ∧ in_u 64 (n + size_bytes s)) sizes → available s < sumZ sizes →
  ∃ before n after, sizes = before ++ n :: after ∧ sumZ before ≤ available s < sumZ before + n ∧
    loop (λ acc n, p ← require_bytes n;
                   mret (match p with None => acc | Some a => acc ++ [(a, n)] end))
         acc sizes s = Throw (OutOfMemoryException n (size_bytes s)).
Proof.
  revert acc. induction sizes as [|n sizes IH]; intros acc s Hok Hs Hav.
  { unfold seg_ok, available in *. simpl in Hav. lia. }
  apply Forall_cons in Hs as [[Hn Hw] Hs]. cbn [loop foldr] in *. simpl in Hav.
  destruct (decide (n ≤ available s)) as [Hle|Hgt].
  - destruct (require_bytes_fits n s) as (p & Hr & -> & Hok'); [done|lia|].
    edestruct (IH (match (if decide (n = 0) then None else Some (data s + byte_position s)) with
      | None => acc | Some a => acc ++ [(a, n)] end) (advance n s)) as (before & m & after & -> & Hb & Hl);
      [done|done|rewrite available_advance; lia|].
    exists (n :: before), m, after. rewrite available_advance in Hb. split; [done|]. split; [simpl; lia|].
    unfold mbind, st_bind at 1. unfold mbind, st_bind at 1. rewrite Hr. exact Hl.
  - exists [], n, sizes. unfold seg_ok, available in *. split; [done|]. split; [simpl; lia|].
    unfold mbind, st_bind at 1. unfold mbind, st_bind at 1.
    rewrite (require_bytes_oom n s) by (unfold seg_ok, available, in_u in *; lia). done.
Qed.

Lemma bump_ranges_sizes a sizes : (bump_ranges a sizes).*2 = filter (λ n, n ≠ 0) sizes.
Proof.
  revert a. induction sizes as [|n l IH]; intros a; [done|]. simpl.
  rewrite fmap_app, IH, filter_cons. by repeat case_decide.
Qed.

(** C32: Whatever sizes are asked of a segment, none so large that the bound wraps around,
    either they fit, and are granted pairwise disjoint ranges of their sizes inside the buffer; or
    the first request that passes the end of the buffer throws, and the ones before it fit. *)
Theorem require_all_disjoint sizes s :
  seg_ok s → Forall (λ n, 0 ≤ n ∧ in_u 64 (n + size_bytes s)) sizes →
  (sumZ sizes ≤ available s ∧
   ∃ granted, require_all sizes s = Ret (granted, advance (sumZ sizes) s) ∧
     granted.*2 = filter (λ n, n ≠ 0) sizes ∧
     StronglySorted disjoint_ranges granted ∧
     Forall (λ r, data s ≤ r.1 ∧ r.1 + r.2 ≤ data s + size_bytes s) granted) ∨
  (∃ before n after, sizes = before ++ n :: after ∧ sumZ before ≤ available s < sumZ before + n ∧
     require_all sizes s = Throw (OutOfMemoryException n (size_bytes s))).
Proof.
  intros Hok Hs. destruct (decide (sumZ sizes ≤ available s)) as [Hav|Hav];
    [left|right; apply require_loop_oom; [done..|lia]].
  assert (Hpos : Forall (λ n, 0 ≤ n) sizes) by (weaken Hs; tauto).
  split; [done|]. eexists. split; [by apply require_loop|]. simpl.
  destruct (bump_ranges_spec (data s + byte_position s) sizes Hpos) as [Hd Hb].
  split_and!; [apply bump_ranges_sizes|done|].
  weaken Hb. unfold seg_ok, available in *. simpl. lia.
Qed.

(** A request so large that the bound wraps around is granted: the range starts in the
    buffer and passes its end, and the position moves back, into what was granted before. *)
Theorem wrapped_request_granted n s : seg_ok s → in_u 64 n →
  2 ^ 64 ≤ n + byte_position s → n + byte_position s - 2 ^ 64 ≤ size_bytes s →
  require_bytes n s = Ret (Some (data s + byte_position s), advance (n - 2 ^ 64) s) ∧
  data s + size_bytes s < data s + byte_position s + n.
Proof.
  intros [Hs Hp] Hn Hw Hle. unfold require_bytes. split; [|unfold in_u in *; lia].
  rewrite decide_False by (unfold in_u in *; lia).
  rewrite (Z.add_comm (byte_position s) n). assert (u64 (n + byte_position s) = n + byte_position s - 2 ^ 64) as ->.
  { unfold u64. rewrite <-(uwrap_small 64 (n + byte_position s - 2 ^ 64)) by (unfold in_u in *; lia).
    unfold uwrap. rewrite <-(Z_mod_plus_full _ (-1)). f_equal. }
  rewrite decide_False by lia. unfold advance. do 3 f_equal. lia.
Qed.

(** ** Finding the segment of a pointer *)

(** Every segment is filed under its first address, with distinct objects, and
    two segments do not overlap (the heap keeps live buffers apart). *)
Record mm_ok (m : MemoryManager) : Prop := {
  mm_filed a id s : memory_segments m !! a = Some (id, s) →
    data s = a ∧ 0 ≤ size_bytes s ∧ reverse_mem_segments_map m !! id = Some a;
  mm_reverse id a : reverse_mem_segments_map m !! id = Some a →
    ∃ s, memory_segments m !! a = Some (id, s);
  mm_apart a b x y : memory_segments m !! a = Some x →
    memory_segments m !! b = Some y → a < b → a + size_bytes x.2 ≤ b
}.

(** What the heap guarantees of a new buffer and a new object. *)
Definition heap_fresh (m : MemoryManager) (size ptr addr : Z) : Prop :=
  0 ≤ size ∧ reverse_mem_segments_map m !! ptr = None ∧
  memory_segments m !! addr = None ∧
  ∀ a x, memory_segments m !! a = Some x →
    (a < addr → a + size_bytes x.2 ≤ addr) ∧ (addr < a → addr + size ≤ a).

Lemma new_memory_segment_ok size ptr addr m :
  mm_ok m → heap_fresh m size ptr addr →
  mm_ok (new_memory_segment size ptr addr m).2.
Proof.
  intros [Hf Hr Ha] (Hsz & Hp & Had & Hfr). split; simpl.
  - intros a id s. rewrite !lookup_insert.
    case_decide; [intros [= <- <-]; subst; simpl; by rewrite decide_True|].
    intros H1. destruct (Hf _ _ _ H1) as (?&?&Hid).
    rewrite decide_False by congruence. done.
  - intros id a. rewrite !lookup_insert. case_decide.
    + intros [= <-]. rewrite decide_True by done. subst. eauto.
    + intros H1. destruct (Hr _ _ H1) as [s Hs].
      rewrite decide_False by congruence. eauto.
  - intros a b x y. rewrite !lookup_insert.
    case_decide as Ea; case_decide as Eb; intros H1 H2 Hlt; simplify_eq/=; [lia| | |].
    + by apply (Hfr b y H2).
    + by apply (Hfr a x H1).
    + by apply (Ha a b x y).
Qed.

Lemma free_segment_ok ptr m : mm_ok m → mm_ok (free_segment ptr m).
Proof.
  intros [Hf Hr Ha]. unfold free_segment.
  destruct (reverse_mem_segments_map m !! ptr) as [fa|] eqn:E; [|by split].
  destruct (Hr _ _ E) as [s0 Hs0]. split; simpl.
  - intros a id s. rewrite !lookup_delete. case_decide; [done|]. intros H1.
    destruct (Hf _ _ _ H1) as (?&?&Hid). split_and!; [done..|].
    rewrite decide_False; congruence.
  - intros id a. rewrite !lookup_delete. case_decide; [done|]. intros H1.
    destruct (Hr _ _ H1) as [s Hs]. rewrite decide_False; [eauto|congruence].
  - intros a b x y. rewrite !lookup_delete. repeat case_decide; [done..|]. apply Ha.
Qed.

Lemma head_filter_sorted {V} (P : Z * V → Prop) `{!∀ x, Decision (P x)}
    (R : relation (Z * V)) (l : list (Z * V)) e :
  StronglySorted R l → head (filter P l) = Some e →
  e ∈ l ∧ P e ∧ ∀ e', e' ∈ l → P e' → e' = e ∨ R e e'.
Proof.
  induction 1 as [|x l Hl IH Hx]; [done|].
  rewrite filter_cons. case_decide as HP; simpl.
  - intros [= ->]. split_and!; [by left|done|].
    rewrite Forall_forall in Hx. intros e' [->|Hin]%elem_of_cons ?; auto.
  - intros (Hin & ? & Hle)%IH. split_and!; [by right|done|].
    intros e' [->|?]%elem_of_cons ?; [done|auto].
Qed.

Lemma StronglySorted_reverse {A} (R : relation A) (l : list A) :
  StronglySorted R l → StronglySorted (flip R) (reverse l).
Proof.
  induction 1 as [|x l Hl IH Hx]; [constructor|]. rewrite reverse_cons.
  apply StronglySorted_app. split_and!; [|done|repeat constructor].
  intros y z Hy ->%list_elem_of_singleton. rewrite elem_of_reverse in Hy.
  rewrite Forall_forall in Hx. exact (Hx _ Hy).
Qed.

Lemma lower_bound_Some {V} (m : gmap Z V) ptr a v :
  lower_bound m ptr = Some (a, v) ↔
  m !! a = Some v ∧ a ≤ ptr ∧ ∀ b w, m !! b = Some w → b ≤ ptr → b ≤ a.
Proof.
  unfold lower_bound. split.
  - intros H. eapply head_filter_sorted in H;
      [|apply StronglySorted_reverse, entries_sorted].
    destruct H as (Hin & Hle & Hmax). rewrite elem_of_reverse, elem_of_entries in Hin.
    simpl in Hle. split_and!; [done|lia|]. intros b w Hb Hbp.
    assert (Hb' : (b, w) ∈ reverse (entries m))
      by by rewrite elem_of_reverse, elem_of_entries.
    destruct (Hmax _ Hb' ltac:(simpl; lia)) as [[= -> ->]|Hk]; [lia|exact Hk].
  - intros (Ha & Hle & Hmax).
    assert (Hin : (a, v) ∈ filter (λ e, ¬ (e.1 > ptr)) (reverse (entries m))).
    { rewrite list_elem_of_filter, elem_of_reverse, elem_of_entries. simpl. split; [lia|done]. }
    destruct (head _) as [[b w]|] eqn:E.
    + eapply head_filter_sorted in E as E';
        [|apply StronglySorted_reverse, entries_sorted].
      destruct E' as (Hb & Hbp & Hk).
      rewrite elem_of_reverse, elem_of_entries in Hb.
      rewrite list_elem_of_filter in Hin. destruct Hin as [Hp Hin].
      destruct (Hk (a, v) Hin Hp) as [[= -> ->]|Hab]; [done|].
      unfold key_le in Hab. simpl in *. specialize (Hmax b w Hb ltac:(lia)).
      assert (a = b) by lia. subst. congruence.
    + destruct (filter _ _); [by inversion Hin|done].
Qed.

(** the registry finds exactly the segment whose range holds the pointer. *)
Theorem find_segment_correct m ptr id :
  mm_ok m →
  find_segment ptr m = Some id ↔
  ∃ a s, memory_segments m !! a = Some (id, s) ∧ a ≤ ptr < a + size_bytes s.
Proof.
  intros [Hf Hr Ha]. unfold find_segment, has. split.
  - destruct (lower_bound _ _) as [[a [id' s]]|] eqn:E; [|done].
    apply lower_bound_Some in E as (Hl & Hle & _).
    destruct (Hf _ _ _ Hl) as (<- & _ & _).
    destruct (_ && _) eqn:Eb; [|done]. intros [= ->].
    apply andb_prop in Eb as [?%bool_decide_eq_true ?%bool_decide_eq_true].
    eexists _, _. split; [done|lia].
  - intros (a & s & Hl & Hin). destruct (Hf _ _ _ Hl) as (Hd & _ & _).
    assert (lower_bound (memory_segments m) ptr = Some (a, (id, s))) as ->.
    { apply lower_bound_Some. split_and!; [done|lia|]. intros b w Hb Hbp.
      destruct (decide (b ≤ a)); [done|].
      pose proof (Ha a b _ _ Hl Hb ltac:(lia)). simpl in *. lia. }
    rewrite !bool_decide_true by lia. done.
Qed.

(** ** Instances of the theorems *)

Lemma require_all_disjoint_witness :
  (∃ granted, require_all [100; 0; 16; 8] (new_segment 4096 124) =
     Ret (granted, advance 124 (new_segment 4096 124)) ∧
     StronglySorted disjoint_ranges granted) ∧
  (∃ n, require_all [100; 16; 40] (new_segment 4096 124) = Throw (OutOfMemoryException n 124)).
Proof.
  split.
  - destruct (require_all_disjoint [100; 0; 16; 8] (new_segment 4096 124))
      as [[_ (granted & Hg & _ & Hs & _)]|(before & n & after & _ & _ & E)];
      [computed|repeat constructor; vm_compute; intuition discriminate|by exists granted|].
    vm_compute in E. discriminate E.
  - destruct (require_all_disjoint [100; 16; 40] (new_segment 4096 124))
      as [[Hle _]|(before & n & after & _ & _ & E)];
      [computed|repeat constructor; vm_compute; intuition discriminate| |by exists n].
    vm_compute in Hle. by contradiction Hle.
Defined.

Lemma wrapped_request_granted_witness :
  require_bytes (2 ^ 64 - 4) (advance 8 (new_segment 4096 124)) =
    Ret (Some 4104, advance (- 4) (advance 8 (new_segment 4096 124))) ∧
  4096 + 124 < 4104 + (2 ^ 64 - 4).
Proof.
  apply (wrapped_request_granted (2 ^ 64 - 4) (advance 8 (new_segment 4096 124)));
    [computed|computed|vm_compute; discriminate|vm_compute; discriminate].
Defined.

Lemma find_segment_correct_witness :
  find_segment 4100 (new_memory_segment 124 7 4096 empty_manager).2 = Some 7 ↔
  ∃ a s, memory_segments (new_memory_segment 124 7 4096 empty_manager).2 !! a = Some (7, s) ∧
         a ≤ 4100 < a + size_bytes s.
Proof.
  apply find_segment_correct, new_memory_segment_ok.
  - split; [done|done|]. intros a b x y. cbn [memory_segments empty_manager].
    by rewrite lookup_empty.
  - split_and!; [lia|done|done|]. intros a x. cbn [memory_segments empty_manager].
    by rewrite lookup_empty.
Defined.
