(* ===== verification/MemoryPool.v ===== *)
(** * memory/MemoryPool.hpp: a pool of items

    A pool hands out the positions of its buffers, the smallest free one first. Its
    queue of free positions is a list in increasing order, and a pointer is an address
    counted in items; where a new buffer lies is a parameter. Nothing in the program
    uses a pool: as written, one cannot serve a request. *)
From S2P Require Import Prelude.

Local Open Scope Z_scope.

(** Where the allocator puts a buffer, given the others and the capacity. *)
Class BufferAllocator := new_buffer : list Z → Z → Z.

Section pool.
Context `{BufferAllocator}.
Variable sizeof_T : Z.

Record MemoryPool := mkPool {
  buffers : list Z;
  item_queue : list Z;
  pool_block_capacity : Z;
  items_occupied : Z;
  allocation_times : Z
}.

(** The priority queue, with [std::greater]; [top] and [pop] of an empty one are
    undefined. *)
Fixpoint queue_push (x : Z) (q : list Z) : list Z :=
  match q with
  | [] => [x]
  | y :: q' => if decide (x ≤ y) then x :: q else y :: queue_push x q'
  end.
Definition queue_top (q : list Z) : outcome Z := deref (head q).
Definition queue_pop (q : list Z) : outcome (list Z) :=
  match q with [] => UB | _ :: q => Ret q end.

Definition new_MemoryPool (pool_block_capacity : Z) : MemoryPool :=
  mkPool [new_buffer [] pool_block_capacity] (queue_push 0 []) pool_block_capacity 0 0.

Definition ensure_enough_capacity (p : MemoryPool) : outcome MemoryPool :=
  t ← queue_top (item_queue p);
  Ret (if decide (u64 (pool_block_capacity p * Z.of_nat (length (buffers p))) < u64 (t + 1))
       then mkPool (buffers p ++ [new_buffer (buffers p) (pool_block_capacity p)]) (item_queue p)
              (pool_block_capacity p) (items_occupied p) (u64 (allocation_times p + 1))
       else p).

Definition request_memory (p : MemoryPool) : outcome (Z * MemoryPool) :=
  p ← ensure_enough_capacity p;
  next_item_pos ← queue_top (item_queue p);
  q ← queue_pop (item_queue p);
  if decide (pool_block_capacity p = 0) then UB
  else
    let buffer_index := next_item_pos / pool_block_capacity p in
    let buffer_offset := next_item_pos mod pool_block_capacity p in
    buffer ← deref (buffers p !! Z.to_nat buffer_index);
    t ← queue_top q;
    let q := if decide (t < u64 (next_item_pos + 1)) then queue_push (u64 (next_item_pos + 1)) q else q in
    Ret (buffer + buffer_offset,
         mkPool (buffers p) q (pool_block_capacity p) (u64 (items_occupied p + 1)) (allocation_times p)).

(** The first buffer with the pointer in it. *)
Fixpoint find_owner_from (capacity ptr : Z) (buffers : list Z) (i : Z) : outcome Z :=
  match buffers with
  | [] => Throw RuntimeError
  | b :: buffers =>
      if bool_decide (b ≤ ptr) && bool_decide (ptr ≤ b + (capacity - 1)) then Ret i
      else find_owner_from capacity ptr buffers (i + 1)
  end.
Definition find_owner_buffer (ptr : Z) (p : MemoryPool) : outcome Z :=
  find_owner_from (pool_block_capacity p) ptr (buffers p) 0.
Definition free_memory (ptr : Z) (p : MemoryPool) : outcome MemoryPool :=
  buffer_index ← find_owner_buffer ptr p;
  buffer ← deref (buffers p !! Z.to_nat buffer_index);
  let offset := ptr - buffer in
  let item_index := u64 (offset + buffer_index * pool_block_capacity p) in
  Ret (mkPool (buffers p) (queue_push item_index (item_queue p)) (pool_block_capacity p)
         (u64 (items_occupied p - 1)) (allocation_times p)).
(** The queue stays. *)
Definition free_all_memory (p : MemoryPool) : MemoryPool :=
  mkPool [] (item_queue p) (pool_block_capacity p) 0 0.

Definition get_bytes_occupied (p : MemoryPool) : Z := u64 (sizeof_T * items_occupied p).
Definition get_items_occupied (p : MemoryPool) : Z := items_occupied p.
Definition get_bytes_allocated (p : MemoryPool) : Z :=
  u64 (sizeof_T * Z.of_nat (length (buffers p)) * pool_block_capacity p).
Definition get_items_allocated (p : MemoryPool) : Z :=
  u64 (Z.of_nat (length (buffers p)) * pool_block_capacity p).
Definition get_times_allocated (p : MemoryPool) : Z := allocation_times p.
(** The rates lock, under the lock, a mutex that is not recursive. *)
Definition get_usage_rate (p : MemoryPool) : outcome Z := UB.
Definition get_bytes_usage_rate (p : MemoryPool) : outcome Z := UB.

(** What a client does with a pool; it frees what it has. *)
Inductive pool_op := Request | Free (k : nat) | FreeAll.
Definition pool_step (s : MemoryPool * list Z) (op : pool_op) : outcome (MemoryPool * list Z) :=
  let '(p, given) := s in
  match op with
  | Request => '(ptr, p) ← request_memory p; Ret (p, ptr :: given)
  | Free k =>
      match given !! k with
      | Some ptr => p ← free_memory ptr p; Ret (p, delete k given)
      | None => Ret s
      end
  | FreeAll => Ret (free_all_memory p, [])
  end.
Fixpoint pool_run (s : MemoryPool * list Z) (ops : list pool_op) : outcome (MemoryPool * list Z) :=
  match ops with [] => Ret s | op :: ops => s ← pool_step s op; pool_run s ops end.

Lemma request_last p x : item_queue p = [x] → request_memory p = UB.
Proof.
  intros Hq. unfold request_memory, ensure_enough_capacity. rewrite Hq. cbn [queue_top deref head mbind outcome_bind].
  set (p' := if decide _ then _ else _). assert (Hq' : item_queue p' = [x]) by (unfold p'; by case_decide).
  rewrite Hq'. cbn [queue_top queue_pop deref head mbind outcome_bind]. case_decide; [done|].
  by destruct (buffers p' !! _).
Qed.

(** A client that frees only what it was given is never given anything: its first request
    is undefined, whatever comes before it. *)
Theorem pool_never_serves capacity ops : Request ∈ ops → pool_run (new_MemoryPool capacity, []) ops = UB.
Proof.
  enough (∀ p, item_queue p = [0] → Request ∈ ops → pool_run (p, []) ops = UB) by auto.
  induction ops as [|op ops IH]; intros p Hq Hin; [by apply not_elem_of_nil in Hin|]. cbn [pool_run].
  destruct op as [|k|]; cbn [pool_step mbind outcome_bind].
  - by rewrite (request_last p 0).
  - apply IH; [done|]. by apply elem_of_cons in Hin as [|].
  - apply IH; [done|]. by apply elem_of_cons in Hin as [|].
Qed.
End pool.

#[local] Instance far_apart : BufferAllocator := λ bs capacity, Z.of_nat (length bs) * (capacity + 1).
(** A pointer that was not handed out can be freed, and is then handed out twice. *)
Example handed_out_twice :
  (p ← free_memory 0 (new_MemoryPool 4); '(a, p) ← request_memory p; '(b, p) ← request_memory p; Ret (a, b)) =
  Ret (0, 0).
Proof. reflexivity. Qed.
