(* ===== verification/Blocks.v ===== *)
(** * core/k2tree/block_serialization.cpp: blocks of a k2-tree on a stream

    A tree of [struct block]s is written in postorder, each block after its
    children, and read back with a stack of finished subtrees. Two readers
    exist: one takes its arrays from the heap, the other from a
    [MemorySegment] of Memory.v. [struct block] itself and the sizes of the
    library's types belong to the c-k2tree-dyn library and are parameters. *)
From S2P Require Import Prelude Streams Memory.

Local Open Scope Z_scope.

(** ** struct block

    The three counts are the fields the code reads; the arrays are what the
    pointer fields point to. *)
Inductive block := Block {
  nodes_count : Z;
  container_size : Z;
  children : Z;
  container : list Z;
  preorders : list Z;
  children_blocks : list block
}.

Definition set_children_blocks (b : block) (l : list block) : block :=
  Block (nodes_count b) (container_size b) (children b)
        (container b) (preorders b) l.

(** A value-initialised block, as [new struct block[n]()] leaves it. *)
Definition zero_block : block := Block 0 0 0 [] [] [].

(** What the code uses of the library: the initialisation of a block frontier
    and the sizes of its types. *)
Class BlockLib := {
  init_block_frontier_with_capacity : Z → list Z * list block;
  init_block_frontier : list Z * list block;
  sizeof_NODES_BV_T : nat;
  sizeof_block : nat;
  sizeof_k2node : nat
}.

(** A frontier of capacity [n] has [n] cells in both arrays. *)
Class BlockLibLaws `{BlockLib} := {
  frontier_capacity n : 0 < n →
    length (init_block_frontier_with_capacity n).1 = Z.to_nat n ∧
    length (init_block_frontier_with_capacity n).2 = Z.to_nat n;
  sizeof_pos : (0 < sizeof_NODES_BV_T ∧ 0 < sizeof_block ∧ 0 < sizeof_k2node)%nat
}.

Record k2tree_data := K2TreeData {
  ktd_root : block;
  ktd_treedepth : Z;
  ktd_max_node_count : Z
}.

(** ** Writing *)

(** [write_block_to_ostream]; the three counts are first narrowed to
    [uint16_t], and the loops run up to the narrowed values. *)
Definition write_block_to_ostream (b : block) : wr Z :=
  let nodes_count := u16 (nodes_count b) in
  let children := u16 (children b) in
  let container_size := u16 (container_size b) in
  write_u16 nodes_count;;
  write_u16 children;;
  write_u16 container_size;;
  bytes_written ← loop (λ bw i,
      p ← lift (deref (preorders b !! i));
      write_u16 (u16 p);; mret (u64 (bw + 2)))
    6 (seq 0 (Z.to_nat children));
  loop (λ bw i,
      x ← lift (deref (container b !! i));
      write_u32 x;; mret (u64 (bw + 4)))
    bytes_written (seq 0 (Z.to_nat container_size)).

(** [traverse_tree_write_to_ostream(b, os, bytes_written)]: the number of
    blocks written, and the by-reference byte counter. *)
Fixpoint traverse_tree_write_to_ostream (b : block) (bytes_written : Z) {struct b} : wr (Z * Z) :=
  '(counted, bytes_written) ←
    (fix go (n : nat) (l : list block) (acc : Z * Z) {struct l} : wr (Z * Z) :=
       match n, l with
       | O, _ => mret acc
       | S _, [] => lift UB
       | S n, c :: l =>
           '(k, bw) ← traverse_tree_write_to_ostream c acc.2;
           go n l (u32 (acc.1 + k), bw)
       end)
      (Z.to_nat (children b)) (children_blocks b) (1, bytes_written);
  written ← write_block_to_ostream b;
  mret (counted, u64 (bytes_written + written)).

(** [write_tree_to_ostream]: the block count is not known before the
    traversal, so a placeholder is patched afterwards. *)
Definition write_tree_to_ostream (d : k2tree_data) : wr Z :=
  write_u16 (u16 (ktd_max_node_count d));;
  write_u16 (u16 (ktd_treedepth d));;
  start_pos ← tellp;
  write_u32 0;;
  '(blocks_count, bytes_written) ← traverse_tree_write_to_ostream (ktd_root d) 8;
  curr_pos ← tellp;
  seekp start_pos;;
  write_u32 blocks_count;;
  seekp curr_pos;;
  mret bytes_written.

(** ** Reading *)

(** The loops that fill an array from the stream. *)
Definition fill {S} (r : st S Z) (arr : list Z) (n : nat) : st S (list Z) :=
  loop (λ a j, x ← r; lift (arr_set a j x)) arr (seq 0 n).

(** [adjust_blocks]: the last block of the list takes its children from the
    blocks before it, the nearest being the last child. The list is kept back
    first, so [push_back] is a cons; writing through the array pointer of the
    block is seen by every copy of the block. *)
Fixpoint adjust_loop (i : nat) (pointer : list block) (current_block : block)
    : outcome (list block * block) :=
  match i with
  | O => Ret (pointer, current_block)
  | S i =>
      match pointer with
      | [] => UB
      | current_child :: pointer =>
          chb ← arr_set (children_blocks current_block) i current_child;
          adjust_loop i pointer (set_children_blocks current_block chb)
      end
  end.

Definition adjust_blocks (blocks : list block) : outcome (list block) :=
  match blocks with
  | [] => UB
  | current_block :: pointer =>
      '(rest, b) ← adjust_loop (Z.to_nat (children current_block)) pointer current_block;
      Ret (b :: rest)
  end.

(** [read_tree_from_istream], over the reader of one block. *)
Definition read_tree_with {S} (r16 r32 : st S Z) (read_block : st S block)
    : st S k2tree_data :=
  max_node_count ← r16;
  treedepth ← r16;
  blocks_count ← r32;
  if decide (blocks_count = 0) then lift (Throw RuntimeError)
  else
    blocks_to_adjust ← repeat_n (Z.to_nat blocks_count)
      (λ blocks, current_block ← read_block;
                 lift (adjust_blocks (current_block :: blocks))) [];
    root ← lift (deref (head blocks_to_adjust));
    mret (K2TreeData root treedepth max_node_count).

(** A stream read beside a memory segment. *)
Definition on_is {A} (r : rd A) : st (istream * MemorySegment) A := λ s,
  '(a, i) ← r s.1; Ret (a, (i, s.2)).
Definition on_seg {A} (m : st MemorySegment A) : st (istream * MemorySegment) A := λ s,
  '(a, g) ← m s.2; Ret (a, (s.1, g)).

Section readers.
Context `{BlockLib}.

Definition read_block_from_istream : rd block :=
  nodes_count ← read_u16;
  children ← read_u16;
  container_size ← read_u16;
  let frontier := if decide (children > 0)
                  then init_block_frontier_with_capacity children
                  else init_block_frontier in
  preorders ← fill read_u16 frontier.1 (Z.to_nat children);
  container ← fill read_u32 (replicate (Z.to_nat container_size) 0)
                (Z.to_nat container_size);
  mret (Block nodes_count container_size children container preorders frontier.2).

Definition read_tree_from_istream : rd k2tree_data :=
  read_tree_with read_u16 read_u32 read_block_from_istream.

(** [require_bytes(size * cells)], the product computed in [size_t]. *)
Definition require_array (cells : Z) (size : nat)
    : st (istream * MemorySegment) (option Z) :=
  on_seg (require_bytes (u64 (Z.of_nat size * cells))).
(** [if (cells > 0 && !ptr) throw]. *)
Definition check_array (cells : Z) (ptr : option Z)
    : st (istream * MemorySegment) () :=
  if decide (cells > 0 ∧ ptr = None) then lift (Throw RuntimeError) else mret ().

Definition read_block_from_istream_seg : st (istream * MemorySegment) block :=
  nodes_count ← on_is read_u16;
  children ← on_is read_u16;
  container_size ← on_is read_u16;
  preorders_ptr ← require_array children sizeof_NODES_BV_T;
  blocks_ptr ← require_array children sizeof_block;
  check_array children preorders_ptr;;
  check_array children blocks_ptr;;
  preorders ← fill (on_is read_u16) (replicate (Z.to_nat children) 0)
                (Z.to_nat children);
  container_ptr ← require_array container_size 4;
  check_array container_size container_ptr;;
  container ← fill (on_is read_u32) (replicate (Z.to_nat container_size) 0)
                (Z.to_nat container_size);
  mret (Block nodes_count container_size children container preorders
          (replicate (Z.to_nat children) zero_block)).

Definition read_tree_from_istream_seg : st (istream * MemorySegment) k2tree_data :=
  read_tree_with (on_is read_u16) (on_is read_u32) read_block_from_istream_seg.
End readers.

(** ** Comparing block trees *)

Definition same_bvs (lhs rhs : block) : outcome bool :=
  if negb (bool_decide (container_size lhs = container_size rhs) &&
           bool_decide (nodes_count lhs = nodes_count rhs)) then Ret false
  else
    (fix go (is_ : list nat) : outcome bool :=
       match is_ with
       | [] => Ret true
       | i :: is_ =>
           x ← deref (container lhs !! i);
           y ← deref (container rhs !! i);
           if bool_decide (x ≠ y) then Ret false else go is_
       end) (seq 0 (Z.to_nat (container_size lhs))).

Definition same_block_topologies (lhs rhs : block) : outcome bool :=
  if bool_decide (nodes_count lhs = nodes_count rhs) then same_bvs lhs rhs
  else Ret false.

(** The loop of [same_block_frontiers] over the preorders. *)
Fixpoint same_preorders (n : nat) (l k : list Z) : outcome bool :=
  match n, l, k with
  | O, _, _ => Ret true
  | S n, x :: l, y :: k => if bool_decide (x ≠ y) then Ret false else same_preorders n l k
  | S _, _, _ => UB
  end.

(** [same_blocks]: frontiers first (recursively), then topologies; both are
    computed before they are combined. *)
Fixpoint same_blocks (lhs rhs : block) {struct lhs} : outcome bool :=
  bf_result ←
    (if bool_decide (children lhs ≠ children rhs) then Ret false
     else
       p ← same_preorders (Z.to_nat (children lhs)) (preorders lhs) (preorders rhs);
       if negb p then Ret false
       else (fix go (n : nat) (l k : list block) {struct l} : outcome bool :=
               match n, l, k with
               | O, _, _ => Ret true
               | S n, x :: l, y :: k =>
                   s ← same_blocks x y;
                   if negb s then Ret false else go n l k
               | S _, _, _ => UB
               end) (Z.to_nat (children lhs)) (children_blocks lhs) (children_blocks rhs));
  bt_result ← same_block_topologies lhs rhs;
  Ret (bf_result && bt_result).

(** ** Well-formed block trees and their bytes *)

Lemma block_ind' (P : block → Prop) :
  (∀ nc cs ch co pr chb, Forall P chb → P (Block nc cs ch co pr chb)) →
  ∀ b, P b.
Proof.
  intros HP. fix IH 1. intros [nc cs ch co pr chb]. apply HP.
  induction chb as [|c chb IHc]; constructor; [apply IH|exact IHc].
Qed.

(** The counts fit their fields and are the lengths of the arrays. *)
Inductive block_wf : block → Prop :=
  | Block_wf nc co pr chb :
      in_u 16 nc →
      in_u 16 (Z.of_nat (length co)) → Forall (in_u 32) co →
      in_u 16 (Z.of_nat (length pr)) → Forall (in_u 16) pr →
      length chb = length pr → Forall block_wf chb →
      block_wf (Block nc (Z.of_nat (length co)) (Z.of_nat (length pr)) co pr chb).

Definition block_bytes (b : block) : list Z :=
  be_encode 2 (nodes_count b) ++ be_encode 2 (children b) ++
  be_encode 2 (container_size b) ++
  (preorders b ≫= be_encode 2) ++ (container b ≫= be_encode 4).

Fixpoint postorder (b : block) : list block :=
  (children_blocks b ≫= postorder) ++ [b].

Definition tree_bytes (b : block) : list Z := postorder b ≫= block_bytes.

Definition data_bytes (d : k2tree_data) : list Z :=
  be_encode 2 (u16 (ktd_max_node_count d)) ++ be_encode 2 (u16 (ktd_treedepth d)) ++
  be_encode 4 (Z.of_nat (length (postorder (ktd_root d)))) ++ tree_bytes (ktd_root d).

(** The count of blocks must fit the [uint32_t] it is written as. *)
Definition data_wf (d : k2tree_data) : Prop :=
  block_wf (ktd_root d) ∧ in_u 32 (Z.of_nat (length (postorder (ktd_root d)))).

Lemma postorder_nonempty b : (0 < length (postorder b))%nat.
Proof. destruct b. simpl. rewrite length_app. simpl. lia. Qed.

Lemma length_bind_be n (l : list Z) :
  length (l ≫= be_encode n) = (n * length l)%nat.
Proof.
  induction l as [|x l IH]; simpl; [lia|].
  rewrite length_app, length_be_encode. unfold mbind in IH. lia.
Qed.

(** ** The writer *)

(** A loop that writes the cells of an array and counts the bytes. *)
Lemma emits_array_loop (w : Z → wr ()) (bytes : Z → list Z) (k : Z) arr pre l bw :
  (∀ x, x ∈ l → emits (w x) (bytes x) ()) → arr = pre ++ l →
  emits (loop (λ bw i, x ← lift (deref (arr !! i)); w x;; mret (u64 (bw + k)))
           (u64 bw) (seq (length pre) (length l)))
        (l ≫= bytes) (u64 (bw + k * Z.of_nat (length l))).
Proof.
  revert pre bw. induction l as [|x l IH]; intros pre bw Hw ->; simpl seq; simpl loop.
  { eapply emits_eq; [apply does_ret|done|f_equal; simpl; lia]. }
  eapply emits_eq.
  - eapply does_bind.
    { eapply does_bind; [apply does_lift; by rewrite list_lookup_middle|].
      eapply does_bind; [apply Hw; by left|apply does_ret]. }
    rewrite u64_add_l. replace (S (length pre)) with (length (pre ++ [x]))
      by (rewrite length_app; simpl; lia).
    apply IH; [intros; apply Hw; by right|by rewrite <-(assoc_L (++))].
  - simpl. by rewrite app_nil_r.
  - f_equal. simpl length. lia.
Qed.

Lemma length_block_bytes b :
  Z.of_nat (length (block_bytes b)) =
  6 + 2 * Z.of_nat (length (preorders b)) + 4 * Z.of_nat (length (container b)).
Proof.
  unfold block_bytes. rewrite !length_app, !length_be_encode, !length_bind_be. lia.
Qed.

Lemma write_block_emits b :
  block_wf b →
  emits (write_block_to_ostream b) (block_bytes b)
        (u64 (Z.of_nat (length (block_bytes b)))).
Proof.
  intros Hwf. rewrite length_block_bytes. inversion Hwf as [nc co pr chb Hnc Hco Fco Hpr Fpr Hl Fb]; subst.
  unfold write_block_to_ostream, block_bytes. simpl.
  rewrite !u16_id, !Nat2Z.id by done.
  eapply emits_eq.
  - do 3 (eapply does_bind; [apply emits_u16|]).
    change 6 with (u64 6) at 1. eapply does_bind.
    + apply (emits_array_loop (λ p, write_u16 (u16 p)) (be_encode 2) 2 pr [] pr);
        [|done]. intros x Hx. rewrite Forall_forall in Fpr.
      rewrite u16_id by auto. apply emits_u16.
    + apply (emits_array_loop write_u32 (be_encode 4) 4 co [] co); [|done].
      intros. apply emits_u32.
  - done.
  - f_equal; lia.
Qed.

Lemma tree_bytes_unfold b :
  tree_bytes b = (children_blocks b ≫= tree_bytes) ++ block_bytes b.
Proof.
  unfold tree_bytes. destruct b as [nc cs ch co pr chb]. simpl postorder.
  rewrite bind_app. simpl. rewrite app_nil_r. f_equal.
  induction chb as [|c chb IH]; [done|]. by rewrite !bind_cons, bind_app, IH.
Qed.

(** The recursive traversal emits the postorder bytes and counts blocks. *)
Lemma traverse_emits b bw :
  block_wf b →
  emits (traverse_tree_write_to_ostream b (u64 bw)) (tree_bytes b)
        (u32 (Z.of_nat (length (postorder b))),
         u64 (bw + Z.of_nat (length (tree_bytes b)))).
Proof.
  revert bw. induction b as [nc cs ch co pr chb IH] using block_ind'. intros bw Hwf.
  pose proof (write_block_emits _ Hwf) as Hself. rewrite tree_bytes_unfold.
  simpl traverse_tree_write_to_ostream. eapply emits_eq.
  - eapply does_bind.
    + inversion Hwf as [?????????? Fwf]; subst. rewrite Nat2Z.id.
      replace (length pr) with (length chb) by done.
      match goal with |- emits (?go _ _ _) _ _ => set (f := go) end.
      assert (Hgo : ∀ l k bw, Forall block_wf l → Forall (λ b, ∀ bw, block_wf b →
          emits (traverse_tree_write_to_ostream b (u64 bw)) (tree_bytes b)
            (u32 (Z.of_nat (length (postorder b))),
             u64 (bw + Z.of_nat (length (tree_bytes b))))) l →
        emits (f (length l) l (u32 k, u64 bw)) (l ≫= tree_bytes)
          (u32 (k + Z.of_nat (length (l ≫= postorder))),
           u64 (bw + Z.of_nat (length (l ≫= tree_bytes))))).
      { clear. induction l as [|b l IHl]; intros k bw Hw Hb.
        { eapply emits_eq; [apply does_ret|done|]. simpl. by rewrite !Z.add_0_r. }
        inversion Hw; inversion Hb; subst.
        rewrite !bind_cons, !length_app, !Nat2Z.inj_add. simpl. eapply emits_eq.
        - eapply does_bind; [eauto|]. simpl. rewrite u32_add_l, u32_add_r. by apply IHl.
        - done.
        - f_equal; f_equal; lia. }
      change 1 with (u32 1). by apply Hgo.
    + simpl. eapply does_bind; [exact Hself|apply does_ret].
  - simpl. by rewrite app_nil_r.
  - rewrite u64_add_r, u64_add_l, !length_app, !Nat2Z.inj_add. simpl length.
    f_equal; f_equal; [rewrite length_app; simpl; lia|lia].
Qed.

Lemma write_tree_emits d :
  data_wf d →
  emits (write_tree_to_ostream d) (data_bytes d)
        (u64 (8 + Z.of_nat (length (tree_bytes (ktd_root d))))).
Proof.
  intros [Hwf Hn]. apply emits_intro. intros o. unfold write_tree_to_ostream, data_bytes.
  set (a := be_encode 2 (u16 (ktd_max_node_count d))).
  set (c := be_encode 2 (u16 (ktd_treedepth d))).
  unfold mbind, st_bind. rewrite (emits_at _ _ _ _ (emits_u16 _)).
  rewrite (emits_at _ _ _ _ (emits_u16 _)). fold a c. unfold tellp at 1. cbv beta iota.
  rewrite (emits_at _ _ _ _ (emits_u32 0)).
  change 8 with (u64 8) at 1. rewrite (emits_at _ _ _ _ (traverse_emits _ 8 Hwf)).
  unfold tellp, seekp, write_u32, os_end at 1. cbv beta iota. cbn [os_data os_pos os_end].
  rewrite <-(assoc_L (++) _ (be_encode 4 0)).
  rewrite os_write_patch by (by rewrite !length_be_encode).
  rewrite u32_id by done. unfold os_end, mret, st_ret. do 3 f_equal.
  - by rewrite !(assoc_L (++)).
  - rewrite !length_app, !length_be_encode. lia.
Qed.

(** ** The readers *)

(** The cells in use: what the counts make visible of the arrays. *)
Fixpoint trim (b : block) : block :=
  Block (nodes_count b) (container_size b) (children b)
    (take (Z.to_nat (container_size b)) (container b))
    (take (Z.to_nat (children b)) (preorders b))
    (take (Z.to_nat (children b)) (trim <$> children_blocks b)).

Lemma trim_wf b : block_wf b → trim b = b.
Proof.
  induction b as [nc cs ch co pr chb IH] using block_ind'.
  inversion 1 as [????????? Hl Fw]; subst. simpl. rewrite !Nat2Z.id, !take_ge by done.
  f_equal. rewrite take_ge by (rewrite length_fmap; lia). clear Hl H.
  induction IH as [|b l Hb IH IHl]; [done|]. inversion Fw; subst. simpl. f_equal; auto.
Qed.

Section reading.
Context {S W : Type} `{Effect S W}.

(** An array filled from a reader keeps its cells past the last one read. *)
Lemma does_fill (r : st S Z) (bytes : Z → W) pre l old :
  (∀ x, x ∈ l → does r (bytes x) x) → (length l ≤ length old)%nat →
  does (loop (λ a j, x ← r; lift (arr_set a j x)) (pre ++ old)
          (seq (length pre) (length l)))
    (eff_concat (bytes <$> l)) (pre ++ l ++ drop (length l) old).
Proof.
  revert pre old. induction l as [|x l IH]; intros pre old Hr Hl; [apply does_ret|].
  destruct old as [|o old]; [simpl in Hl; lia|]. simpl.
  eapply does_bind.
  - eapply does_bind_l; [apply Hr; by left|]. apply does_lift. unfold arr_set.
    by rewrite decide_True by (rewrite length_app; simpl; lia).
  - replace (<[length pre:=x]> (pre ++ o :: old)) with ((pre ++ [x]) ++ old)
      by (rewrite insert_app_r_alt, Nat.sub_diag by done; by rewrite <-(assoc_L (++))).
    replace (Datatypes.S (length pre)) with (length (pre ++ [x]))
      by (rewrite length_app; simpl; lia).
    eapply does_eq; [apply IH|done|by rewrite <-(assoc_L (++))];
      [intros; apply Hr; by right|simpl in Hl; lia].
Qed.

Lemma adjust_loop_spec cs stack cur :
  (length cs ≤ length (children_blocks cur))%nat →
  adjust_loop (length cs) (reverse cs ++ stack) cur =
  Ret (stack, set_children_blocks cur (cs ++ drop (length cs) (children_blocks cur))).
Proof.
  revert cur. induction cs as [|c cs IH] using rev_ind; intros cur Hl.
  { by destruct cur. }
  rewrite length_app in *. simpl in Hl.
  replace (length cs + length [c])%nat with (Datatypes.S (length cs)) by (simpl; lia).
  rewrite reverse_app. simpl. unfold arr_set. rewrite decide_True by lia. simpl.
  rewrite IH by (simpl; rewrite length_insert; lia). do 2 f_equal.
  destruct cur as [nc sz ch co pr chb]. unfold set_children_blocks. simpl in *. f_equal.
  rewrite (insert_take_drop _ _ c) by lia.
  rewrite <-(assoc_L (++)). f_equal.
  replace (length cs) with (length (take (length cs) chb)) at 1
    by (rewrite length_take; lia).
  by rewrite drop_app_length.
Qed.

(** A block reader that consumes [E b] and returns [shell b], a block without
    its children, in a position to receive them. *)
Variables (read_block : st S block) (E : block → W) (shell : block → block).
Hypothesis reads : ∀ b, block_wf b → does read_block (E b) (shell b).
Hypothesis shell_children : ∀ b, block_wf b →
  children (shell b) = children b ∧
  (length (children_blocks b) ≤ length (children_blocks (shell b)))%nat.

Fixpoint loaded (b : block) : block :=
  set_children_blocks (shell b)
    ((loaded <$> children_blocks b) ++
     drop (length (children_blocks b)) (children_blocks (shell b))).

Definition read_step (blocks : list block) : st S (list block) :=
  current_block ← read_block; lift (adjust_blocks (current_block :: blocks)).

Lemma does_read_postorder b stack :
  block_wf b →
  does (repeat_n (length (postorder b)) read_step stack)
       (eff_concat (E <$> postorder b)) (loaded b :: stack).
Proof using reads shell_children.
  revert stack. induction b as [nc cs ch co pr chb IH] using block_ind'.
  intros stack Hwf. destruct (shell_children _ Hwf) as [Hch Hlen].
  pose proof (reads _ Hwf) as Hread.
  assert (Hlist : ∀ l stack, Forall block_wf l →
    Forall (λ b, ∀ stack, block_wf b →
      does (repeat_n (length (postorder b)) read_step stack)
       (eff_concat (E <$> postorder b)) (loaded b :: stack)) l →
    does (repeat_n (length (l ≫= postorder)) read_step stack)
      (eff_concat (E <$> (l ≫= postorder))) (reverse (loaded <$> l) ++ stack)).
  { clear. induction l as [|b l IHl]; intros stack Hw Hb; [apply does_ret|].
    inversion Hw; inversion Hb; subst.
    rewrite bind_cons, length_app, fmap_app, eff_concat_app.
    eapply does_eq; [|done|].
    - eapply does_repeat_n_add; [auto|by apply IHl].
    - by rewrite fmap_cons, reverse_cons, <-(assoc_L (++)). }
  inversion Hwf as [????????? Hl Fw]; subst. simpl postorder.
  rewrite length_app, fmap_app, eff_concat_app.
  eapply does_repeat_n_add; [by apply Hlist|]. simpl repeat_n.
  simpl. rewrite eff_unit_r. eapply does_bind_l; [|apply does_ret].
  eapply does_bind_l; [exact Hread|]. apply does_lift. simpl adjust_blocks.
  rewrite Hch. simpl children. rewrite Nat2Z.id. simpl in Hlen.
  set (cur := shell _) in *. clearbody cur. rewrite <-Hl, <-(length_fmap loaded).
  rewrite adjust_loop_spec by (rewrite length_fmap; lia). simpl.
  by rewrite length_fmap.
Qed.

(** The reader of a whole tree, given readers of the three header fields. *)
Lemma does_read_tree (r16 r32 : st S Z) (e16 e32 : Z → W) d :
  (∀ x, in_u 16 x → does r16 (e16 x) x) → (∀ x, in_u 32 x → does r32 (e32 x) x) →
  data_wf d →
  does (read_tree_with r16 r32 read_block)
    (eff_app (e16 (u16 (ktd_max_node_count d)))
      (eff_app (e16 (u16 (ktd_treedepth d)))
        (eff_app (e32 (Z.of_nat (length (postorder (ktd_root d)))))
          (eff_concat (E <$> postorder (ktd_root d))))))
    (K2TreeData (loaded (ktd_root d)) (u16 (ktd_treedepth d))
       (u16 (ktd_max_node_count d))).
Proof using reads shell_children.
  intros H16 H32 [Hwf Hn]. unfold read_tree_with.
  eapply does_bind; [apply H16, u16_range|].
  eapply does_bind; [apply H16, u16_range|].
  eapply does_bind; [by apply H32|].
  pose proof (postorder_nonempty (ktd_root d)).
  rewrite decide_False by lia. rewrite Nat2Z.id.
  eapply does_bind_l; [by apply does_read_postorder|].
  eapply does_bind_l; [by apply does_lift|apply does_ret].
Qed.
End reading.

(** The effect of reading beside a segment: bytes consumed and memory used. *)
#[export] Program Instance mem_effect : Effect (istream * MemorySegment) (list Z * nat) := {|
  eff_unit := ([], 0%nat);
  eff_app x y := (x.1 ++ y.1, (x.2 + y.2)%nat);
  eff w s s' := eff w.1 s.1 s'.1 ∧ seg_ok s.2 ∧ Z.of_nat w.2 ≤ available s.2 ∧
                s'.2 = advance (Z.of_nat w.2) s.2
|}.
Next Obligation. intros. simpl. f_equal; [apply (assoc_L (++))|lia]. Qed.
Next Obligation. by intros []. Qed.
Next Obligation. intros [w n]. simpl. f_equal; [apply app_nil_r|lia]. Qed.
Next Obligation.
  intros [i s] [i' s'] (Hi & _ & _ & Hs). simpl in *. rewrite advance_0 in Hs. subst s'.
  f_equal. by apply (eff_unit_inv (Effect := read_effect)).
Qed.
Next Obligation.
  intros [w n] [w' n'] [i s] [i2 s2] (Hi & Hok & Hav & Hs). simpl in *.
  apply (eff_app_inv (Effect := read_effect)) in Hi as (i1 & Hi1 & Hi2).
  destruct (require_bytes_fits (Z.of_nat n) s Hok ltac:(lia)) as (_ & _ & _ & Hok').
  exists (i1, advance (Z.of_nat n) s). simpl. rewrite available_advance, advance_advance.
  split_and!; try done; [lia..|]. rewrite Hs. f_equal. lia.
Qed.

Lemma does_on_is {A} (r : rd A) w a :
  parses r w a → does (on_is r) (w, 0%nat) a.
Proof.
  intros Hr [i s] [i' s'] (Hi & Hok & _ & Hs). simpl in *. rewrite advance_0 in Hs. subst.
  unfold on_is. simpl. by rewrite (Hr _ _ Hi).
Qed.

Section implementations.
Context `{BlockLib, !BlockLibLaws}.

(** The heap reader returns every block with its own arrays, except that a
    childless block keeps those of [init_block_frontier]. *)
Definition heap_shell (b : block) : block :=
  Block (nodes_count b) (container_size b) (children b) (container b)
    (if decide (children b > 0) then preorders b else (init_block_frontier).1)
    (if decide (children b > 0) then init_block_frontier_with_capacity (children b)
     else init_block_frontier).2.

Lemma fill_fresh {S W} `{Effect S W} (r : st S Z) (bytes : Z → W) l old n :
  (∀ x, x ∈ l → does r (bytes x) x) → length old = length l → n = Z.of_nat (length l) →
  does (fill r old (Z.to_nat n)) (eff_concat (bytes <$> l)) l.
Proof.
  intros Hr Hl ->. rewrite Nat2Z.id.
  eapply does_eq; [by apply (does_fill r bytes [] l old); [done|lia]|done|].
  by rewrite drop_ge, app_nil_r by lia.
Qed.

Lemma parses_cells n (r : rd Z) w l :
  (∀ x, in_u w x → parses r (be_encode n x) x) → Forall (in_u w) l →
  ∀ x, x ∈ l → parses r (be_encode n x) x.
Proof. intros Hr Hl x Hx. rewrite Forall_forall in Hl. auto. Qed.

Lemma read_block_parses b :
  block_wf b → parses read_block_from_istream (block_bytes b) (heap_shell b).
Proof.
  destruct 1 as [nc co pr chb Hnc Hco Fco Hpr Fpr Hl Fw].
  unfold read_block_from_istream, block_bytes, heap_shell. simpl.
  eapply does_eq.
  - eapply does_bind; [apply (parses_u16 nc Hnc)|].
    eapply does_bind; [apply (parses_u16 _ Hpr)|].
    eapply does_bind; [apply (parses_u16 _ Hco)|].
    eapply does_bind; [|eapply does_bind_l; [|apply does_ret]].
    + instantiate (1 := if decide (Z.of_nat (length pr) > 0) then pr else init_block_frontier.1).
      instantiate (1 := pr ≫= be_encode 2).
      rewrite <-(eff_concat_bytes (be_encode 2)). case_decide.
      * apply fill_fresh; [|destruct (frontier_capacity (Z.of_nat (length pr))) as [-> _]; lia|done].
        eapply parses_cells; [apply parses_u16|done].
      * destruct pr; [|simpl in *; lia]. apply does_ret.
    + instantiate (1 := co). instantiate (1 := co ≫= be_encode 4).
      rewrite <-(eff_concat_bytes (be_encode 4)).
      apply fill_fresh; [|rewrite length_replicate; lia|done].
      eapply parses_cells; [apply parses_u32|done].
  - done.
  - done.
Qed.

Lemma heap_shell_children b :
  block_wf b → children (heap_shell b) = children b ∧
  (length (children_blocks b) ≤ length (children_blocks (heap_shell b)))%nat.
Proof.
  destruct 1 as [nc co pr chb Hnc Hco Fco Hpr Fpr Hl Fw]. split; [done|]. simpl.
  case_decide; [|lia].
  destruct (frontier_capacity (Z.of_nat (length pr))) as [_ ->]; lia.
Qed.

Lemma seg_shell_children b :
  block_wf b → children (set_children_blocks b (replicate (Z.to_nat (children b)) zero_block)) =
    children b ∧
  (length (children_blocks b) ≤
   length (replicate (Z.to_nat (children b)) zero_block))%nat.
Proof using.
  destruct 1 as [nc co pr chb Hnc Hco Fco Hpr Fpr Hl Fw]. split; [done|].
  simpl. rewrite length_replicate. lia.
Qed.

(** The memory one block takes from a segment. *)
Definition block_mem (b : block) : nat :=
  sizeof_NODES_BV_T * length (preorders b) + sizeof_block * length (preorders b) +
  4 * length (container b).
Definition tree_mem (b : block) : nat := sum_list_with block_mem (postorder b).

Definition seg_shell (b : block) : block :=
  set_children_blocks b (replicate (Z.to_nat (children b)) zero_block).

Lemma does_require {A} cells size (k : option Z → st (istream * MemorySegment) A) w a :
  (0 < size)%nat →
  (∀ p, (0 < cells → p ≠ None)%nat → does (k p) w a) →
  does (require_array (Z.of_nat cells) size ≫= k)
    (eff_app ([], (size * cells)%nat) w) a.
Proof.
  intros Hsz Hk s s2 (s1 & Hs1 & Hs2)%eff_app_inv.
  destruct s as [i g], s1 as [i1 g1].
  destruct Hs1 as (Hi & Hok & Hav & Hg). simpl in *.
  apply (eff_unit_inv (Effect := read_effect)) in Hi. subst i1 g1.
  destruct (require_bytes_fits (Z.of_nat (size * cells)) g) as (p & Hr & Hp & _);
    [done|lia|].
  unfold require_array, on_seg. unfold mbind, st_bind. simpl.
  assert (u64 (Z.of_nat size * Z.of_nat cells) = Z.of_nat (size * cells)) as ->.
  { rewrite u64_id; [lia|]. unfold seg_ok, available in *. width. }
  rewrite Hr. simpl. apply (Hk p); [|done]. intros Hc. rewrite Hp.
  rewrite decide_False by nia. done.
Qed.

Lemma does_check cells p :
  (0 < cells → p ≠ None)%nat → does (check_array (Z.of_nat cells) p) eff_unit ().
Proof.
  intros Hp. unfold check_array. rewrite decide_False; [apply does_ret|].
  intros [Hc ->]. apply Hp; [lia|done].
Qed.

Lemma eff_concat_mem {B} (f : B → list Z) (g : B → nat) (l : list B) :
  eff_concat (H := mem_effect) ((λ x, (f x, g x)) <$> l) = (l ≫= f, sum_list_with g l).
Proof.
  induction l as [|x l IH]; [done|]. rewrite fmap_cons, bind_cons.
  change (eff_app (f x, g x) (eff_concat ((λ x, (f x, g x)) <$> l)) =
          (f x ++ (l ≫= f), (g x + sum_list_with g l)%nat)). by rewrite IH.
Qed.

Lemma does_fill_seg (r : rd Z) n l m :
  (∀ x, x ∈ l → parses r (be_encode n x) x) → m = Z.of_nat (length l) →
  does (fill (on_is r) (replicate (Z.to_nat m) 0) (Z.to_nat m))
    (l ≫= be_encode n, 0%nat) l.
Proof.
  intros Hr ->. eapply does_eq; [apply (fill_fresh _ (λ x, (be_encode n x, 0%nat)))| |done].
  - intros. apply does_on_is. auto.
  - rewrite length_replicate. lia.
  - done.
  - rewrite eff_concat_mem. f_equal. induction l; [done|]. simpl. apply IHl.
    intros. apply Hr. by right.
Qed.

Lemma read_block_seg b :
  block_wf b →
  does read_block_from_istream_seg (block_bytes b, block_mem b) (seg_shell b).
Proof.
  destruct 1 as [nc co pr chb Hnc Hco Fco Hpr Fpr Hl Fw]. destruct sizeof_pos as (?&?&?).
  unfold read_block_from_istream_seg, block_mem, seg_shell, block_bytes. simpl.
  eapply does_eq.
  - eapply does_bind; [apply does_on_is, (parses_u16 nc Hnc)|].
    eapply does_bind; [apply does_on_is, (parses_u16 _ Hpr)|].
    eapply does_bind; [apply does_on_is, (parses_u16 _ Hco)|].
    apply does_require; [done|]. intros p Hp. apply does_require; [done|]. intros q Hq.
    eapply does_bind_r; [by apply does_check|].
    eapply does_bind_r; [by apply does_check|].
    eapply does_bind.
    { apply (does_fill_seg _ 2 pr); [|done]. eapply parses_cells; [apply parses_u16|done]. }
    apply does_require; [lia|]. intros c Hc.
    eapply does_bind_r; [by apply does_check|].
    eapply does_bind_l; [|apply does_ret].
    apply (does_fill_seg _ 4 co); [|done]. by eapply parses_cells; [apply parses_u32|].
  - simpl. f_equal. lia.
  - done.
Qed.

(** Whatever shell is read, the children slots are filled and the result is
    the tree that was written, up to the unused cells. *)
Lemma loaded_trim shell b :
  (∀ b, block_wf b →
     nodes_count (shell b) = nodes_count b ∧ container_size (shell b) = container_size b ∧
     children (shell b) = children b ∧ container (shell b) = container b ∧
     take (Z.to_nat (children b)) (preorders (shell b)) = preorders b) →
  block_wf b → trim (loaded shell b) = b.
Proof.
  intros Hs. induction b as [nc cs ch co pr chb IH] using block_ind'. intros Hwf.
  destruct (Hs _ Hwf) as (H1 & H2 & H3 & H4 & H5).
  inversion Hwf as [????????? Hl Fw]; subst. simpl in *.
  rewrite H1, H2, H3, H4, H5, !Nat2Z.id. rewrite (take_ge co) by done. f_equal.
  rewrite fmap_app, take_app_le by (rewrite !length_fmap; lia).
  rewrite take_ge by (rewrite !length_fmap; lia).
  clear -IH Fw. induction IH as [|b l Hb IH IHl]; [done|]. inversion Fw; subst.
  simpl. f_equal; auto.
Qed.
End implementations.

(** ** Comparison *)

(** The arrays hold at least the cells the counts announce. *)
Inductive block_ok : block → Prop :=
  | Block_ok nc cs ch co pr chb :
      0 ≤ cs ≤ Z.of_nat (length co) → 0 ≤ ch ≤ Z.of_nat (length pr) →
      ch ≤ Z.of_nat (length chb) → Forall block_ok chb →
      block_ok (Block nc cs ch co pr chb).

Lemma block_wf_ok b : block_wf b → block_ok b.
Proof.
  induction b as [nc cs ch co pr chb IH] using block_ind'.
  inversion 1 as [????????? Hl Fw]; subst. constructor; [lia..|]. clear H Hl.
  induction IH as [|b l Hb IH IHl]; [done|]. inversion Fw; subst. auto.
Qed.

Lemma same_preorders_spec n l k :
  (n ≤ length l)%nat → (n ≤ length k)%nat →
  same_preorders n l k = Ret (bool_decide (take n l = take n k)).
Proof.
  revert l k. induction n as [|n IH]; intros l k Hl Hk; [by destruct l|].
  destruct l as [|x l], k as [|y k]; [simpl in *; lia..|]. simpl in *.
  rewrite IH by lia. case_bool_decide as E;
    [|subst; f_equal; apply bool_decide_ext; split; [by intros ->|by intros [=]]].
  rewrite bool_decide_false; [done|]. by intros [= ?].
Qed.

Lemma same_bvs_spec a b :
  0 ≤ container_size a ≤ Z.of_nat (length (container a)) →
  0 ≤ container_size b ≤ Z.of_nat (length (container b)) →
  ∃ r, same_bvs a b = Ret r ∧
    (r = true ↔ container_size a = container_size b ∧ nodes_count a = nodes_count b ∧
       take (Z.to_nat (container_size a)) (container a) =
       take (Z.to_nat (container_size b)) (container b)).
Proof.
  intros Ha Hb. unfold same_bvs.
  destruct (decide (container_size a = container_size b)) as [E|];
    [|rewrite bool_decide_false by done; naive_solver].
  destruct (decide (nodes_count a = nodes_count b)) as [E'|];
    [|rewrite (bool_decide_false (nodes_count a = _)) by done;
      rewrite andb_false_r; naive_solver].
  rewrite !bool_decide_true by done. simpl.
  match goal with |- context [?g (seq 0 _)] => set (go := g) end.
  assert (Hgo : ∀ n pre, (length pre + n ≤ length (container a))%nat →
      (length pre + n ≤ length (container b))%nat →
      take (length pre) (container a) = pre → take (length pre) (container b) = pre →
      go (seq (length pre) n) =
      Ret (bool_decide (take (length pre + n) (container a) =
                        take (length pre + n) (container b)))).
  { clear. induction n as [|n IH]; intros pre H1 H2 P1 P2.
    { rewrite Nat.add_0_r, P1, P2, bool_decide_true; done. }
    simpl seq. simpl go. fold go.
    destruct (lookup_lt_is_Some_2 (container a) (length pre)) as [x Hx]; [lia|].
    destruct (lookup_lt_is_Some_2 (container b) (length pre)) as [y Hy]; [lia|].
    rewrite Hx, Hy. simpl. case_bool_decide as Exy.
    - rewrite bool_decide_false; [done|]. intros Ht.
      apply (f_equal (.!! length pre)) in Ht. rewrite !lookup_take_lt in Ht by lia. congruence.
    - subst y.
      replace (length pre + S n)%nat with (length (pre ++ [x]) + n)%nat
        by (rewrite length_app; simpl; lia).
      replace (S (length pre)) with (length (pre ++ [x])) by (rewrite length_app; simpl; lia).
      apply IH; rewrite length_app; simpl; [lia..| |];
        rewrite Nat.add_1_r; by erewrite take_S_r, ?P1, ?P2. }
  specialize (Hgo (Z.to_nat (container_size a)) []). simpl in Hgo.
  rewrite Hgo by (done || lia). eexists. split; [done|].
  rewrite bool_decide_eq_true, <-E. naive_solver.
Qed.

Lemma same_block_topologies_eq a b :
  same_block_topologies a b = same_bvs a b.
Proof.
  unfold same_block_topologies, same_bvs.
  destruct (decide (nodes_count a = nodes_count b));
    [by rewrite (bool_decide_true (nodes_count a = _))|].
  by rewrite !(bool_decide_false (nodes_count a = _)), andb_false_r by done.
Qed.

(** [same_blocks] never reads out of the arrays and decides whether two
    block trees have the same contents in use. *)
Theorem same_blocks_correct a b :
  block_ok a → block_ok b →
  ∃ r, same_blocks a b = Ret r ∧ (r = true ↔ trim a = trim b).
Proof.
  revert b. induction a as [nc cs ch co pr chb IH] using block_ind'. intros b Ha Hb.
  destruct b as [nc' cs' ch' co' pr' chb'].
  inversion Ha as [?????? A1 A2 A3 A4]; subst. inversion Hb as [?????? B1 B2 B3 B4]; subst.
  destruct (same_bvs_spec (Block nc cs ch co pr chb) (Block nc' cs' ch' co' pr' chb'))
    as (rt & Hrt & Ert); [done..|]. simpl in Ert.
  assert (Hf : ∃ rf, (if bool_decide (ch ≠ ch') then Ret false
     else
       p ← same_preorders (Z.to_nat ch) pr pr';
       if negb p then Ret false
       else (fix go (n : nat) (l k : list block) {struct l} : outcome bool :=
               match n, l, k with
               | O, _, _ => Ret true
               | S n, x :: l, y :: k =>
                   s ← same_blocks x y;
                   if negb s then Ret false else go n l k
               | S _, _, _ => UB
               end) (Z.to_nat ch) chb chb') = Ret rf ∧
     (rf = true ↔ ch = ch' ∧ take (Z.to_nat ch) pr = take (Z.to_nat ch') pr' ∧
        take (Z.to_nat ch) (trim <$> chb) = take (Z.to_nat ch') (trim <$> chb'))).
  { case_bool_decide as Ech; [naive_solver|]. subst ch'.
    rewrite same_preorders_spec by lia. simpl. case_bool_decide as Ep; simpl; [|naive_solver].
    assert (Hn1 : (Z.to_nat ch ≤ length chb)%nat) by lia.
    assert (Hn2 : (Z.to_nat ch ≤ length chb')%nat) by lia.
    revert A4 B4 Hn1 Hn2 Ep. clear -IH. intros A4 B4 Hn1 Hn2 Ep.
    match goal with |- context [?g (Z.to_nat ch) chb chb'] => set (go := g) end.
    cut (∃ rf, go (Z.to_nat ch) chb chb' = Ret rf ∧ (rf = true ↔
        take (Z.to_nat ch) (trim <$> chb) = take (Z.to_nat ch) (trim <$> chb'))).
    { intros (rf & ? & ?). exists rf. naive_solver. }
    clear Ep. revert A4 B4 Hn1 Hn2. generalize (Z.to_nat ch) as n. revert chb'.
    induction IH as [|x l Hx IH IHl]; intros chb' n A4 B4 Hn1 Hn2;
      (destruct n as [|n]; [exists true; split; [done|by rewrite !take_0]|]); [simpl in *; lia|].
    destruct chb' as [|y k]; [simpl in *; lia|]. inversion A4; inversion B4; subst.
    destruct (Hx y) as (r & Hr & Er); [done..|]. simpl. rewrite Hr. simpl.
    destruct r; simpl.
    - destruct (IHl k n) as (rf & Hrf & Erf); [done..|simpl in *; lia|simpl in *; lia|].
      exists rf. split; [done|]. rewrite Erf. destruct Er as [Er _]. rewrite Er by done.
      split; [intros Ht; simpl; f_equal; exact Ht|intros [= Ht]; exact Ht].
    - exists false. split; [done|]. split; [done|]. intros [= Exy _]. by apply Er. }
  destruct Hf as (rf & Hrf & Erf). exists (rf && rt).
  simpl same_blocks. rewrite Hrf. simpl. rewrite same_block_topologies_eq, Hrt. simpl.
  split; [done|]. rewrite andb_true_iff, Erf, Ert. split; [|intros [=]; naive_solver].
  intros [(<-&E1&E2) (<-&<-&E3)]. by rewrite E1, E2, E3.
Qed.

(** ** Round trips *)

Section roundtrip.
Context `{BlockLib, !BlockLibLaws}.

Lemma data_bytes_eff d :
  data_bytes d = be_encode 2 (u16 (ktd_max_node_count d)) ++
    be_encode 2 (u16 (ktd_treedepth d)) ++
    be_encode 4 (Z.of_nat (length (postorder (ktd_root d)))) ++
    (postorder (ktd_root d) ≫= block_bytes).
Proof. done. Qed.

Lemma heap_loaded_trim b : block_wf b → trim (loaded heap_shell b) = b.
Proof.
  apply loaded_trim. destruct 1 as [nc co pr chb Hnc Hco Fco Hpr Fpr Hl Fw].
  split_and!; [done..|]. simpl. rewrite Nat2Z.id. case_decide; [by rewrite take_ge|].
  by destruct pr; [|simpl in *; lia].
Qed.

Lemma seg_loaded_trim b : block_wf b → trim (loaded seg_shell b) = b.
Proof.
  apply loaded_trim. destruct 1 as [nc co pr chb Hnc Hco Fco Hpr Fpr Hl Fw].
  split_and!; [done..|]. simpl. by rewrite Nat2Z.id, take_ge.
Qed.

(** a tree written anywhere in a stream is read back, by the reader that
    uses the heap, as the same tree, consuming exactly the bytes written. *)
Theorem tree_roundtrip d pre post :
  data_wf d →
  ∃ bytes d',
    write_tree_to_ostream d (os_end pre) =
      Ret (u64 (Z.of_nat (length bytes)), os_end (pre ++ bytes)) ∧
    read_tree_from_istream (stream_at pre (bytes ++ post)) =
      Ret (d', stream_at (pre ++ bytes) post) ∧
    trim (ktd_root d') = ktd_root d ∧
    ktd_treedepth d' = u16 (ktd_treedepth d) ∧
    ktd_max_node_count d' = u16 (ktd_max_node_count d).
Proof.
  intros Hwf. exists (data_bytes d), (K2TreeData (loaded heap_shell (ktd_root d))
    (u16 (ktd_treedepth d)) (u16 (ktd_max_node_count d))).
  split_and!; [| |by apply heap_loaded_trim, Hwf|done..].
  - rewrite (emits_at _ _ _ _ (write_tree_emits _ Hwf)). do 3 f_equal.
    unfold data_bytes. rewrite !length_app, !length_be_encode. lia.
  - apply parses_at. rewrite data_bytes_eff, <-(eff_concat_bytes block_bytes).
    apply (does_read_tree read_block_from_istream block_bytes heap_shell
             read_block_parses heap_shell_children
             read_u16 read_u32 (be_encode 2) (be_encode 4));
      [apply parses_u16|apply parses_u32|done].
Qed.

(** the reader that takes its memory from a segment returns the same tree
    and uses exactly the sum of what its blocks need. *)
Theorem tree_roundtrip_seg d pre post seg :
  data_wf d → seg_ok seg → Z.of_nat (tree_mem (ktd_root d)) ≤ available seg →
  ∃ d',
    read_tree_from_istream_seg (stream_at pre (data_bytes d ++ post), seg) =
      Ret (d', (stream_at (pre ++ data_bytes d) post,
                advance (Z.of_nat (tree_mem (ktd_root d))) seg)) ∧
    trim (ktd_root d') = ktd_root d ∧
    ktd_treedepth d' = u16 (ktd_treedepth d) ∧
    ktd_max_node_count d' = u16 (ktd_max_node_count d).
Proof.
  intros Hwf Hok Hav. exists (K2TreeData (loaded seg_shell (ktd_root d))
    (u16 (ktd_treedepth d)) (u16 (ktd_max_node_count d))).
  split_and!; [|by apply seg_loaded_trim, Hwf|done..].
  apply (does_read_tree read_block_from_istream_seg
           (λ b, (block_bytes b, block_mem b)) seg_shell)
    with (e16 := λ x, (be_encode 2 x, 0%nat)) (e32 := λ x, (be_encode 4 x, 0%nat)).
  - apply read_block_seg.
  - apply seg_shell_children.
  - intros. by apply does_on_is, parses_u16.
  - intros. by apply does_on_is, parses_u32.
  - done.
  - rewrite eff_concat_mem. split_and!; [|done..].
    exists pre, post. by rewrite data_bytes_eff.
Qed.
End roundtrip.

(** ** A concrete library and tree *)

Definition toy_block_lib : BlockLib := {|
  init_block_frontier_with_capacity n :=
    (replicate (Z.to_nat n) 0, replicate (Z.to_nat n) zero_block);
  init_block_frontier := ([0], [zero_block]);
  sizeof_NODES_BV_T := 2; sizeof_block := 40; sizeof_k2node := 40
|}.
Lemma toy_block_laws : @BlockLibLaws toy_block_lib.
Proof. split; simpl; [|lia]. intros. by rewrite !length_replicate. Qed.

Definition toy_data : k2tree_data :=
  K2TreeData (Block 9 2 1 [305419896; 77] [3] [Block 4 1 0 [5] [] []]) 6 256.
Lemma toy_data_wf : data_wf toy_data.
Proof.
  assert (Hleaf : block_wf (Block 4 1 0 [5] [] [])).
  { apply (Block_wf 4 [5] [] []); repeat constructor; simpl; unfold in_u; lia. }
  split; [|vm_compute; split; discriminate || done].
  apply (Block_wf 9 [305419896; 77] [3] [Block 4 1 0 [5] [] []]);
    repeat (constructor || done).
Qed.

Lemma tree_roundtrip_witness :
  data_wf toy_data ∧
  ∃ bytes d',
    write_tree_to_ostream toy_data (os_end [1]) =
      Ret (u64 (Z.of_nat (length bytes)), os_end ([1] ++ bytes)) ∧
    @read_tree_from_istream toy_block_lib (stream_at [1] (bytes ++ [2])) =
      Ret (d', stream_at ([1] ++ bytes) [2]) ∧
    trim (ktd_root d') = ktd_root toy_data ∧
    ktd_treedepth d' = u16 (ktd_treedepth toy_data) ∧
    ktd_max_node_count d' = u16 (ktd_max_node_count toy_data).
Proof.
  split; [exact toy_data_wf|].
  exact (@tree_roundtrip toy_block_lib toy_block_laws toy_data [1] [2] toy_data_wf).
Defined.

Lemma tree_roundtrip_seg_witness :
  ∃ d', @read_tree_from_istream_seg toy_block_lib
          (stream_at [] (data_bytes toy_data ++ []), new_segment 4096 1000) =
        Ret (d', (stream_at ([] ++ data_bytes toy_data) [],
                  advance (Z.of_nat (@tree_mem toy_block_lib (ktd_root toy_data)))
                    (new_segment 4096 1000))) ∧
      trim (ktd_root d') = ktd_root toy_data ∧
      ktd_treedepth d' = u16 (ktd_treedepth toy_data) ∧
      ktd_max_node_count d' = u16 (ktd_max_node_count toy_data).
Proof.
  apply (@tree_roundtrip_seg toy_block_lib toy_block_laws toy_data [] []
           (new_segment 4096 1000)).
  - exact toy_data_wf.
  - computed.
  - vm_compute. discriminate.
Defined.

Lemma same_blocks_correct_witness :
  ∃ r, same_blocks (ktd_root toy_data) (Block 4 1 0 [5] [7] []) = Ret r ∧
       (r = true ↔ trim (ktd_root toy_data) = trim (Block 4 1 0 [5] [7] [])).
Proof.
  apply same_blocks_correct.
  - apply block_wf_ok, toy_data_wf.
  - constructor; [simpl; lia..|constructor].
Defined.
