(* ===== verification/K2Tree.v ===== *)
(** * core/k2tree/K2TreeMixed.cpp: the tree that holds one predicate

    A [K2TreeMixed] owns a tree of [struct k2node]s: above the cut depth a node
    has four children, at the cut depth it owns a tree of blocks. The point
    operations belong to the c-k2tree-dyn library and are the parameters
    [K2Lib], with their documented behaviour in [K2LibLaws]; the counting of the
    points, the copy, the comparison and the stream format are the code's. *)
From S2P Require Import Prelude Streams Memory Blocks.

Local Open Scope Z_scope.

(** ** struct k2node

    [k2subtree] is a union of four child pointers and one block pointer. A
    zeroed node has null pointers in both readings; reading the variant that
    was not written is undefined. *)
Inductive k2node :=
  | K2Null
  | K2Node (children : list (option k2node))
  | K2Leaf (block_child : block).

(** [node->k2subtree.children] and [node->k2subtree.block_child]. *)
Definition node_children (n : k2node) : outcome (list (option k2node)) :=
  match n with
  | K2Null => Ret (replicate 4 None) | K2Node cs => Ret cs | K2Leaf _ => UB
  end.
Definition node_block (n : k2node) : outcome (option block) :=
  match n with
  | K2Null => Ret None | K2Leaf b => Ret (Some b) | K2Node _ => UB
  end.

(** [node->k2subtree.children[i] = c]. *)
Definition set_child (n : k2node) (i : nat) (c : k2node) : outcome k2node :=
  cs ← node_children n; cs ← arr_set cs i (Some c); Ret (K2Node cs).

Definition has_child (cs : list (option k2node)) (i : nat) : bool :=
  match cs !! i with Some (Some _) => true | _ => false end.

(** ** The query state (K2QStateWrapper.cpp) and the library *)

Record K2QStateWrapper := mkst {
  st_tree_depth : Z; st_cut_depth : Z; st_max_nodes_count : Z
}.

Class K2Lib := {
  create_k2node : k2node;
  k2node_insert_point : K2QStateWrapper → k2node → Z → Z → k2node * bool;
  k2node_delete_point : K2QStateWrapper → k2node → Z → Z → k2node * bool;
  k2node_has_point : K2QStateWrapper → k2node → Z → Z → bool;
  k2node_naive_scan_points : K2QStateWrapper → k2node → list (Z * Z);
  (* the points reported to the callback, and the error code *)
  k2node_scan_points_interactively : K2QStateWrapper → k2node → list (Z * Z) * Z;
  k2node_report_row_interactively : K2QStateWrapper → k2node → Z → list (Z * Z) * Z;
  k2node_report_column_interactively : K2QStateWrapper → k2node → Z → list (Z * Z) * Z;
  debug_validate_k2node_rec : K2QStateWrapper → k2node → Z;
  k2node_measure_tree_size : k2node → Z → Z;
  (* lazy enumeration of all points, and of the points of a band *)
  lazy_scan : Type;
  k2node_naive_scan_points_lazy_init : K2QStateWrapper → k2node → lazy_scan;
  scan_has_next : lazy_scan → bool;
  k2node_naive_scan_points_lazy_next : lazy_scan → (Z * Z) * lazy_scan;
  k2node_naive_scan_points_lazy_reset : lazy_scan → lazy_scan;
  lazy_band : Type;
  k2node_report_column_lazy_init : K2QStateWrapper → k2node → Z → lazy_band;
  k2node_report_row_lazy_init : K2QStateWrapper → k2node → Z → lazy_band;
  band_has_next : lazy_band → bool;
  k2node_report_band_next : lazy_band → Z * lazy_band;
  k2node_report_band_reset : lazy_band → lazy_band
}.

(** [enumerates has_next next reset h l]: from [h] the enumeration delivers [l]
    and ends; wherever it stands, a reset restarts it at [all]. *)
Inductive enumerates {H A : Type} (has_next : H → bool) (next : H → A * H)
    (reset : H → H) (all : H) : H → list A → Prop :=
  | enum_nil h : has_next h = false → reset h = all →
      enumerates has_next next reset all h []
  | enum_cons h h' x l : has_next h = true → reset h = all → next h = (x, h') →
      enumerates has_next next reset all h' l →
      enumerates has_next next reset all h (x :: l).

(** ** K2TreeMixed *)

Record K2TreeConfig := mkConfig {
  treedepth : Z; max_node_count : Z; cfg_cut_depth : Z
}.

Record K2TreeMixed := mkTree {
  root : k2node;
  points_count : Z;
  tree_depth : Z;
  cut_depth : Z;
  max_nodes_count : Z
}.

Definition config_write_to_ostream (c : K2TreeConfig) : wr () :=
  write_u32 (treedepth c);; write_u32 (max_node_count c);; write_u32 (cfg_cut_depth c).
Definition config_read_from_istream : rd K2TreeConfig :=
  treedepth ← read_u32; max_node_count ← read_u32; cut_depth ← read_u32;
  mret (mkConfig treedepth max_node_count cut_depth).

Definition set_root (t : K2TreeMixed) (r : k2node) (pc : Z) : K2TreeMixed :=
  mkTree r pc (tree_depth t) (cut_depth t) (max_nodes_count t).

Definition create_k2qw (t : K2TreeMixed) : K2QStateWrapper :=
  mkst (tree_depth t) (cut_depth t) (max_nodes_count t).

Section operations.
Context `{K2Lib}.

Definition new_K2TreeMixed (config : K2TreeConfig) : K2TreeMixed :=
  mkTree create_k2node 0 (treedepth config) (cfg_cut_depth config)
         (max_node_count config).

Definition insert_was_inserted_with (stw : K2QStateWrapper) (col row : Z)
    (t : K2TreeMixed) : bool * K2TreeMixed :=
  let '(r, already_exists) := k2node_insert_point stw (root t) col row in
  (negb already_exists,
   set_root t r (if already_exists then points_count t else u64 (points_count t + 1))).
Definition insert_was_inserted (col row : Z) (t : K2TreeMixed) : bool * K2TreeMixed :=
  insert_was_inserted_with (create_k2qw t) col row t.
Definition insert_with (stw : K2QStateWrapper) (col row : Z) (t : K2TreeMixed)
    : K2TreeMixed := (insert_was_inserted_with stw col row t).2.
Definition insert (col row : Z) (t : K2TreeMixed) : K2TreeMixed :=
  insert_with (create_k2qw t) col row t.

Definition remove_with (stw : K2QStateWrapper) (col row : Z) (t : K2TreeMixed)
    : K2TreeMixed :=
  let '(r, already_not_exists) := k2node_delete_point stw (root t) col row in
  set_root t r (if already_not_exists then points_count t else u64 (points_count t - 1)).
Definition remove (col row : Z) (t : K2TreeMixed) : K2TreeMixed :=
  remove_with (create_k2qw t) col row t.

Definition has_with (stw : K2QStateWrapper) (col row : Z) (t : K2TreeMixed) : bool :=
  k2node_has_point stw (root t) col row.
Definition has (col row : Z) (t : K2TreeMixed) : bool :=
  has_with (create_k2qw t) col row t.

Definition size (t : K2TreeMixed) : Z := points_count t.
Definition get_all_points (t : K2TreeMixed) : list (Z * Z) :=
  k2node_naive_scan_points (create_k2qw t) (root t).

(** The three traversals call [fun_reporter] on every reported point. *)
Definition report {S} (r : list (Z * Z) * Z) (fun_reporter : S → Z * Z → S)
    (report_state : S) : outcome S :=
  if decide (r.2 ≠ 0) then Throw RuntimeError
  else Ret (fold_left fun_reporter r.1 report_state).
Definition scan_points {S} (t : K2TreeMixed) : (S → Z * Z → S) → S → outcome S :=
  report (k2node_scan_points_interactively (create_k2qw t) (root t)).
Definition traverse_row {S} (t : K2TreeMixed) (row : Z) : (S → Z * Z → S) → S → outcome S :=
  report (k2node_report_row_interactively (create_k2qw t) (root t) row).
Definition traverse_column {S} (t : K2TreeMixed) (column : Z)
    : (S → Z * Z → S) → S → outcome S :=
  report (k2node_report_column_interactively (create_k2qw t) (root t) column).

Definition has_valid_structure (t : K2TreeMixed) : bool :=
  bool_decide (debug_validate_k2node_rec (create_k2qw t) (root t) = 0).
Definition measure_in_memory_size (t : K2TreeMixed) : Z :=
  k2node_measure_tree_size (root t) (cut_depth t).
End operations.

(** ** Comparison and copy *)

Fixpoint same_k2node (lhs rhs : k2node) (current_depth cut_depth : Z) {struct lhs}
    : outcome bool :=
  if decide (current_depth < cut_depth) then
    match lhs with
    | K2Leaf _ => UB
    | K2Null =>
        rs ← node_children rhs;
        Ret (forallb (λ i, negb (has_child rs i)) (seq 0 4))
    | K2Node ls =>
        rs ← node_children rhs;
        if negb (forallb (λ i, Bool.eqb (has_child ls i) (has_child rs i)) (seq 0 4))
        then Ret false
        else
          (fix go (l r : list (option k2node)) {struct l} : outcome bool :=
             match l, r with
             | [], [] => Ret true
             | Some x :: l, Some y :: r =>
                 s ← same_k2node x y (u32 (current_depth + 1)) cut_depth;
                 if negb s then Ret false else go l r
             | None :: l, None :: r => go l r
             | _, _ => Ret false
             end) ls rs
    end
  else
    lb ← node_block lhs; rb ← node_block rhs;
    match lb, rb with
    | Some lb, Some rb => same_blocks lb rb
    | _, _ => UB
    end.

Definition identical_structure_as (t other : K2TreeMixed) : outcome bool :=
  same_k2node (root t) (root other) 0 (cut_depth t).

(** [std::copy(original, original + size, copy)]. *)
Definition copy_cells {A} (l : list A) (n : Z) : outcome (list A) :=
  if decide (n ≤ Z.of_nat (length l)) then Ret (take (Z.to_nat n) l) else UB.

Fixpoint copy_block_tree (original : block) : outcome block :=
  preorders ← copy_cells (preorders original) (children original);
  container ← copy_cells (container original) (container_size original);
  children_blocks ←
    (fix go (n : nat) (l : list block) {struct l} : outcome (list block) :=
       match n, l with
       | O, _ => Ret []
       | S _, [] => UB
       | S n, b :: l => c ← copy_block_tree b; cs ← go n l; Ret (c :: cs)
       end) (Z.to_nat (children original)) (children_blocks original);
  Ret (Block (nodes_count original) (container_size original) (children original)
         container preorders children_blocks).

(** [copy_tree(root, cut_depth, tree_depth, current_depth)]. *)
Fixpoint copy_tree (n : k2node) (cut_depth current_depth : Z) : outcome k2node :=
  if decide (current_depth < cut_depth) then
    match n with
    | K2Leaf _ => UB
    | K2Null => Ret (K2Node (replicate 4 None))
    | K2Node cs =>
        cs' ← (fix go (l : list (option k2node)) : outcome (list (option k2node)) :=
                 match l with
                 | [] => Ret []
                 | None :: l => r ← go l; Ret (None :: r)
                 | Some c :: l =>
                     c' ← copy_tree c cut_depth (current_depth + 1);
                     r ← go l; Ret (Some c' :: r)
                 end) cs;
        Ret (K2Node cs')
    end
  else
    b ← node_block n;
    match b with
    | None => Ret K2Null
    | Some b => b' ← copy_block_tree b; Ret (K2Leaf b')
    end.

(** The copy constructor, which passes its [uint32_t] depth as an [int]; copy assignment assigns the same fields (without
    releasing the tree held before). *)
Definition copy_K2TreeMixed (other : K2TreeMixed) : outcome K2TreeMixed :=
  r ← copy_tree (root other) (s32 (cut_depth other)) 0;
  Ret (mkTree r (points_count other) (tree_depth other) (cut_depth other)
         (max_nodes_count other)).

(** ** Writing *)

Fixpoint count_k2nodes_wchildren (node : k2node) (current_depth cut_depth : Z)
    : outcome Z :=
  if decide (current_depth < cut_depth) then
    match node with
    | K2Leaf _ => UB
    | K2Null => Ret 1
    | K2Node cs =>
        sum ← (fix go (l : list (option k2node)) (sum : Z) : outcome Z :=
                 match l with
                 | [] => Ret sum
                 | None :: l => go l sum
                 | Some c :: l =>
                     k ← count_k2nodes_wchildren c (u32 (current_depth + 1)) cut_depth;
                     sum ← int_chk (sum + k);
                     go l sum
                 end) cs 0;
        int_chk (sum + 1)
    end
  else Ret 0.

(** The bits of one node: [container |= 1U << (31 - (subpos + i))] for every
    child present. *)
Definition set_bits (cs : list (option k2node)) (subpos_bits_start container : Z) : Z :=
  fold_left (λ c i, if has_child cs i
                    then Z.lor c (Z.shiftl 1 (31 - (subpos_bits_start + Z.of_nat i)))
                    else c) (seq 0 4) container.

Definition serialize_node (cs : list (option k2node)) (data : list Z) (loc : Z)
    : outcome (list Z) :=
  let container_pos := Z.to_nat (u32 (4 * loc) / 32) in
  let subpos_bits_start := u32 (4 * loc) mod 32 in
  container ← deref (data !! container_pos);
  arr_set data container_pos (set_bits cs subpos_bits_start container).

Fixpoint serialize_to_vec_with_k2node_ptrs (node : k2node) (current_depth cut_depth : Z)
    (data : list Z) (current_node_location : Z) {struct node} : outcome (list Z * Z) :=
  if decide (current_depth < cut_depth) then
    match node with
    | K2Leaf _ => UB
    | K2Null =>
        data ← serialize_node (replicate 4 None) data current_node_location;
        Ret (data, u32 (current_node_location + 1))
    | K2Node cs =>
        data ← serialize_node cs data current_node_location;
        (fix go (l : list (option k2node)) (data : list Z) (loc : Z)
           : outcome (list Z * Z) :=
           match l with
           | [] => Ret (data, loc)
           | None :: l => go l data loc
           | Some c :: l =>
               '(data, loc) ← serialize_to_vec_with_k2node_ptrs c
                                (u32 (current_depth + 1)) cut_depth data loc;
               go l data loc
           end) cs data (u32 (current_node_location + 1))
    end
  else Ret (data, current_node_location).

(** A leaf without a block is dereferenced here: undefined. *)
Fixpoint write_blocks_from_k2nodes (node : k2node)
    (current_depth cut_depth max_nodes_count tree_depth : Z) {struct node} : wr Z :=
  if decide (current_depth < cut_depth) then
    match node with
    | K2Leaf _ => lift UB
    | K2Null => mret 0
    | K2Node cs =>
        (fix go (l : list (option k2node)) (bytes_written : Z) : wr Z :=
           match l with
           | [] => mret bytes_written
           | None :: l => go l bytes_written
           | Some c :: l =>
               w ← write_blocks_from_k2nodes c (u32 (current_depth + 1)) cut_depth
                     max_nodes_count tree_depth;
               go l (u64 (bytes_written + w))
           end) cs 0
    end
  else
    b ← lift (node_block node);
    b ← lift (deref b);
    w ← write_tree_to_ostream (K2TreeData b tree_depth max_nodes_count);
    mret (u64 (0 + w)).

Definition write_to_ostream (t : K2TreeMixed) : wr Z :=
  k2nodes_count_wchildren ← lift (count_k2nodes_wchildren (root t) 0 (cut_depth t));
  bits_count ← lift (int_chk (k2nodes_count_wchildren * 4));
  let containers_count :=
    bits_count / 32 + (if decide (bits_count mod 32 = 0) then 0 else 1) in
  '(containers, _) ← lift (serialize_to_vec_with_k2node_ptrs (root t) 0 (cut_depth t)
                             (replicate (Z.to_nat containers_count) 0) 0);
  write_u64 (points_count t);;
  write_u32 (tree_depth t);;
  write_u32 (cut_depth t);;
  write_u32 (max_nodes_count t);;
  write_u32 containers_count;;
  bytes_written ← loop (λ bw i,
      c ← lift (deref (containers !! i));
      write_u32 c;; mret (u64 (bw + 4)))
    24 (seq 0 (Z.to_nat containers_count));
  w ← write_blocks_from_k2nodes (root t) 0 (cut_depth t) (max_nodes_count t)
        (tree_depth t);
  mret (u64 (bytes_written + w)).

(** ** Reading *)

(** [deserialize_k2node_tree], over the two ways of allocating a node and a
    block and of reading a block tree; [levels] is [cut_depth - current_depth]. *)
Section deserialize.
Context {T : Type} (new_node : st T k2node) (read_tree : st T k2tree_data)
        (new_block : st T ()).

(** One iteration of the loop over [i]. *)
Definition deserialize_child (rec : Z → st T (k2node * Z))
    (container subpos_bits_start : Z) (acc : k2node * Z) (i : nat) : st T (k2node * Z) :=
  if Z.testbit container (31 - (subpos_bits_start + Z.of_nat i)) then
    '(c, loc) ← rec acc.2;
    node ← lift (set_child acc.1 i c);
    mret (node, loc)
  else mret acc.

Fixpoint deserialize_with (levels : nat) (containers : list Z)
    (current_node_location : Z) : st T (k2node * Z) :=
  node ← new_node;
  match levels with
  | S levels =>
      loc4 ← lift (int_chk (4 * s32 current_node_location));
      container ← lift (if decide (0 ≤ loc4)
                        then deref (containers !! Z.to_nat (loc4 / 32)) else UB);
      loop (deserialize_child (deserialize_with levels containers) container (loc4 mod 32))
        (node, u32 (current_node_location + 1)) (seq 0 4)
  | O =>
      subtree_deserialized ← read_tree;
      new_block;;
      mret (K2Leaf (ktd_root subtree_deserialized), current_node_location)
  end.

(** [read_from_istream], over the readers of the header fields. *)
Definition read_tree_mixed (r32 r64 : st T Z) : st T K2TreeMixed :=
  points_count ← r64;
  k2tree_depth ← r32;
  cut_depth ← r32;
  max_nodes_count ← r32;
  containers_count ← r32;
  containers ← fill r32 (replicate (Z.to_nat containers_count) 0)
                 (Z.to_nat containers_count);
  '(root, _) ← deserialize_with (Z.to_nat cut_depth) containers 0;
  mret (mkTree root points_count k2tree_depth cut_depth max_nodes_count).
End deserialize.

Section readers.
Context `{BlockLib, K2Lib}.

Definition deserialize_k2node_tree : nat → list Z → Z → rd (k2node * Z) :=
  deserialize_with (mret create_k2node) read_tree_from_istream (mret ()).
Definition read_from_istream : rd K2TreeMixed :=
  read_tree_mixed (mret create_k2node) read_tree_from_istream (mret ())
    read_u32 read_u64.

(** Placement [new] in the bytes a segment grants: a zeroed node. *)
Definition deserialize_k2node_tree_seg
    : nat → list Z → Z → st (istream * MemorySegment) (k2node * Z) :=
  deserialize_with (on_seg (require_bytes (Z.of_nat sizeof_k2node));; mret K2Null)
    read_tree_from_istream_seg
    (on_seg (require_bytes (Z.of_nat sizeof_block));; mret ()).
Definition read_from_istream_seg : st (istream * MemorySegment) K2TreeMixed :=
  read_tree_mixed (on_seg (require_bytes (Z.of_nat sizeof_k2node));; mret K2Null)
    read_tree_from_istream_seg
    (on_seg (require_bytes (Z.of_nat sizeof_block));; mret ())
    (on_is read_u32) (on_is read_u64).
End readers.

(** ** The shape of a tree: its nodes, its child bits and its blocks *)

Definition kids (n : k2node) : list (option k2node) :=
  match n with K2Null => replicate 4 None | K2Node cs => cs | K2Leaf _ => [] end.

Definition on_child {A} (f : k2node → A) (dflt : A) (c : option k2node) : A :=
  match c with Some c => f c | None => dflt end.

(** A tree with [levels] levels of nodes above its blocks. *)
Fixpoint k2_wf (levels : nat) (n : k2node) : Prop :=
  match levels with
  | O => match n with
         | K2Leaf b => block_wf b ∧ in_u 32 (Z.of_nat (length (postorder b)))
         | _ => False
         end
  | S l => match n with K2Leaf _ => False | _ => True end ∧
           length (kids n) = 4%nat ∧ Forall (on_child (k2_wf l) True) (kids n)
  end.

Fixpoint nodes (levels : nat) (n : k2node) : Z :=
  match levels with
  | O => 0
  | S l => 1 + sumZ (on_child (nodes l) 0 <$> kids n)
  end.

Definition present (cs : list (option k2node)) : list bool :=
  (λ c, bool_decide (is_Some c)) <$> cs.

(** The child bits in the order the nodes are visited. *)
Fixpoint flags (levels : nat) (n : k2node) : list bool :=
  match levels with
  | O => []
  | S l => present (kids n) ++ (kids n ≫= on_child (flags l) [])
  end.

(** The blocks at the cut depth, from left to right. *)
Fixpoint leaves (levels : nat) (n : k2node) : list block :=
  match levels with
  | O => match n with K2Leaf b => [b] | _ => [] end
  | S l => kids n ≫= on_child (leaves l) []
  end.

Lemma nodes_nonneg levels n : 0 ≤ nodes levels n.
Proof.
  revert n. induction levels as [|l IH]; intros n; simpl; [lia|].
  enough (0 ≤ sumZ (on_child (nodes l) 0 <$> kids n)) by lia.
  apply sumZ_nonneg, Forall_fmap, Forall_forall. intros [c|] _; simpl; [apply IH|lia].
Qed.

Lemma sum_kids_nonneg levels cs : 0 ≤ sumZ (on_child (nodes levels) 0 <$> cs).
Proof.
  apply sumZ_nonneg, Forall_fmap, Forall_forall.
  intros [c|] _; simpl; [apply nodes_nonneg|lia].
Qed.

Lemma length_flags levels n :
  k2_wf levels n → Z.of_nat (length (flags levels n)) = 4 * nodes levels n.
Proof.
  revert n. induction levels as [|l IH]; intros n; simpl; [lia|].
  intros (_ & Hlen & Hk). rewrite length_app. unfold present.
  rewrite length_fmap, Hlen, Nat2Z.inj_add.
  enough (Z.of_nat (length (kids n ≫= on_child (flags l) [])) =
          4 * sumZ (on_child (nodes l) 0 <$> kids n)) by lia.
  clear Hlen. induction Hk as [|c cs Hc Hk IHk]; [done|].
  rewrite bind_cons, length_app, fmap_cons. simpl.
  destruct c as [c|]; simpl in *; [pose proof (IH c Hc)|]; lia.
Qed.

(** Unfolds a well-formed node above the cut into its four children. *)
Lemma k2_wf_S l n :
  k2_wf (S l) n → (n = K2Null ∨ n = K2Node (kids n)) ∧
  node_children n = Ret (kids n) ∧
  length (kids n) = 4%nat ∧ Forall (on_child (k2_wf l) True) (kids n).
Proof. destruct n; simpl; intros (? & ? & ?); [auto|auto|done]. Qed.

(** ** The packed child bits *)

(** Bit [p] of a vector of 32-bit words, the first being the top bit. *)
Definition bit (data : list Z) (p : Z) : bool :=
  Z.testbit (default 0 (data !! Z.to_nat (p / 32))) (31 - p mod 32).

Definition flag_at (fs : list bool) (k : Z) : bool :=
  if decide (0 ≤ k) then default false (fs !! Z.to_nat k) else false.

Lemma flag_at_app fs gs k :
  flag_at (fs ++ gs) k = flag_at fs k || flag_at gs (k - Z.of_nat (length fs)).
Proof.
  unfold flag_at. case_decide; [|by rewrite decide_False by lia].
  case_decide.
  - rewrite lookup_app_r by lia. rewrite (lookup_ge_None_2 fs) by lia. simpl.
    do 2 f_equal. lia.
  - rewrite lookup_app_l by lia. by rewrite orb_false_r.
Qed.

(** [stamped data data' p fs]: [data'] is [data] with the bits [fs] set from
    position [p] on. *)
Definition stamped (data data' : list Z) (p : Z) (fs : list bool) : Prop :=
  length data' = length data ∧ (Forall (in_u 32) data → Forall (in_u 32) data') ∧
  ∀ q, 0 ≤ q → bit data' q = bit data q || flag_at fs (q - p).

Lemma stamped_nil data p : stamped data data p [].
Proof.
  split_and!; [done..|]. intros q _. unfold flag_at.
  case_decide; by rewrite orb_false_r.
Qed.

Lemma stamped_app d d1 d2 p f1 f2 :
  stamped d d1 p f1 → stamped d1 d2 (p + Z.of_nat (length f1)) f2 →
  stamped d d2 p (f1 ++ f2).
Proof.
  intros (L1 & U1 & B1) (L2 & U2 & B2). split_and!; [congruence|auto|].
  intros q Hq. rewrite B2, B1, flag_at_app by done. rewrite orb_assoc. do 2 f_equal. lia.
Qed.

Lemma has_child_present cs i :
  (i < length cs)%nat → has_child cs i = default false (present cs !! i).
Proof.
  intros Hi. unfold has_child, present. rewrite list_lookup_fmap.
  destruct (lookup_lt_is_Some_2 _ _ Hi) as [[c|] ->]; done.
Qed.

Lemma testbit_set_bits cs sub c q :
  length cs = 4%nat → 0 ≤ sub ≤ 28 → 0 ≤ q ≤ 31 →
  Z.testbit (set_bits cs sub c) (31 - q) =
  Z.testbit c (31 - q) || flag_at (present cs) (q - sub).
Proof.
  intros Hlen Hsub Hq. unfold set_bits. simpl seq. simpl fold_left.
  rewrite !has_child_present by lia.
  assert (length (present cs) = 4%nat) as Hp by (unfold present; by rewrite length_fmap).
  destruct (present cs) as [|f0 [|f1 [|f2 [|f3 []]]]]; try discriminate. clear Hp Hlen.
  assert (Hone : ∀ i x, 0 ≤ i ≤ 3 →
    Z.testbit (Z.lor x (Z.shiftl 1 (31 - (sub + i)))) (31 - q) =
    Z.testbit x (31 - q) || bool_decide (q - sub = i)).
  { intros i x Hi. rewrite Z.lor_spec. f_equal. rewrite Z.shiftl_1_l.
    rewrite Z.pow2_bits_eqb by lia.
    apply eq_bool_prop_intro; rewrite !Is_true_true, Z.eqb_eq, bool_decide_eq_true; lia. }
  unfold flag_at. simpl default.
  change (Z.of_nat 0) with 0. change (Z.of_nat 1) with 1.
  change (Z.of_nat 2) with 2. change (Z.of_nat 3) with 3.
  assert (Hstep : ∀ (f : bool) i x, 0 ≤ i ≤ 3 →
    Z.testbit (if f then Z.lor x (Z.shiftl 1 (31 - (sub + i))) else x) (31 - q) =
    Z.testbit x (31 - q) || (f && bool_decide (q - sub = i))).
  { intros [] i x Hi; [by apply Hone|by rewrite orb_false_r]. }
  rewrite !Hstep by lia. rewrite <-!orb_assoc. f_equal.
  destruct (decide (0 ≤ q - sub)) as [H0|H0].
  - destruct (decide (q - sub ≤ 3)).
    + assert (q - sub = 0 ∨ q - sub = 1 ∨ q - sub = 2 ∨ q - sub = 3) as E by lia.
      destruct E as [->|[->|[->| ->]]]; simpl; by destruct f0, f1, f2, f3.
    + rewrite !bool_decide_false by lia. rewrite !andb_false_r. simpl.
      by rewrite lookup_ge_None_2 by (simpl; lia).
  - rewrite !bool_decide_false by lia. by rewrite !andb_false_r.
Qed.

Lemma lor_bit_range c k :
  0 ≤ k < 32 → in_u 32 c → in_u 32 (Z.lor c (Z.shiftl 1 k)).
Proof.
  intros Hk Hc. unfold in_u in *. rewrite Z.shiftl_1_l.
  assert (0 ≤ 2 ^ k) by (apply Z.pow_nonneg; lia).
  assert (0 ≤ Z.lor c (2 ^ k)) by (apply Z.lor_nonneg; lia). split; [done|].
  destruct (decide (Z.lor c (2 ^ k) = 0)) as [->|]; [done|].
  apply Z.log2_lt_pow2; [lia|]. rewrite Z.log2_lor, Z.log2_pow2 by lia.
  apply Z.max_lub_lt; [|lia].
  destruct (decide (c = 0)) as [->|]; [done|]. apply Z.log2_lt_pow2; lia.
Qed.

Lemma set_bits_range cs sub c :
  0 ≤ sub ≤ 28 → in_u 32 c → in_u 32 (set_bits cs sub c).
Proof.
  intros Hsub Hc. unfold set_bits. simpl.
  repeat (case_match; [apply lor_bit_range; [lia|]|]); done.
Qed.

(** The bits of one node, at the four positions of location [loc]. *)
Lemma serialize_node_stamped cs data loc :
  length cs = 4%nat → 0 ≤ loc → 4 * (loc + 1) ≤ 32 * Z.of_nat (length data) →
  4 * (loc + 1) < 2 ^ 32 →
  ∃ data', serialize_node cs data loc = Ret data' ∧
           stamped data data' (4 * loc) (present cs).
Proof.
  intros Hcs Hloc Hlen Hw. unfold serialize_node. rewrite u32_id by (unfold in_u; lia).
  set (k := 4 * loc / 32).
  assert (Hdiv : 4 * loc = 32 * k + 4 * loc mod 32) by (apply Z.div_mod; lia).
  pose proof (Z.mod_pos_bound (4 * loc) 32 ltac:(lia)) as Hmod.
  assert (Hmod4 : 4 * loc mod 32 ≤ 28) by lia.
  destruct (lookup_lt_is_Some_2 data (Z.to_nat k)) as [c Hc]; [lia|].
  rewrite Hc. simpl. unfold arr_set. rewrite decide_True by lia.
  eexists. split; [done|]. split_and!.
  - by rewrite length_insert.
  - intros Hd. apply Forall_insert; [done|]. apply set_bits_range; [lia|].
    by eapply Forall_lookup_1.
  - intros q Hq. unfold bit. pose proof (Z.mod_pos_bound q 32 ltac:(lia)).
    pose proof (Z.div_mod q 32 ltac:(lia)).
    destruct (decide (q / 32 = k)) as [E|E].
    + rewrite E, list_lookup_insert_eq, Hc by lia. simpl default.
      rewrite testbit_set_bits by lia. do 2 f_equal. lia.
    + rewrite list_lookup_insert_ne by lia.
      assert (flag_at (present cs) (q - 4 * loc) = false) as ->; [|by rewrite orb_false_r].
      unfold flag_at. case_decide; [|done]. rewrite lookup_ge_None_2; [done|].
      unfold present. rewrite length_fmap, Hcs. lia.
Qed.

(** [list_of_kids]: the loops over the children of a node. *)
Section kids_loops.
Variables (cut cd : Z) (levels : nat).
Hypothesis Hcd : u32 (cd + 1) + Z.of_nat levels = cut.

(** The running total of nodes stays in range when the whole does. *)
Lemma count_kids cs sum :
  (∀ n, k2_wf levels n → nodes levels n < 2 ^ 31 →
     count_k2nodes_wchildren n (u32 (cd + 1)) cut = Ret (nodes levels n)) →
  Forall (on_child (k2_wf levels) True) cs → 0 ≤ sum →
  sum + sumZ (on_child (nodes levels) 0 <$> cs) < 2 ^ 31 →
  (fix go (l : list (option k2node)) (sum : Z) : outcome Z :=
     match l with
     | [] => Ret sum
     | None :: l => go l sum
     | Some c :: l =>
         k ← count_k2nodes_wchildren c (u32 (cd + 1)) cut;
         sum ← int_chk (sum + k);
         go l sum
     end) cs sum = Ret (sum + sumZ (on_child (nodes levels) 0 <$> cs)).
Proof using.
  intros IH Hw. revert sum. induction Hw as [|[c|] cs Hc Hw IHw]; intros sum Hs Hb.
  - simpl. f_equal. lia.
  - rewrite fmap_cons in *. simpl in Hb, Hc |- *.
    pose proof (nodes_nonneg levels c). pose proof (sum_kids_nonneg levels cs).
    rewrite IH by (done || lia). simpl. unfold int_chk.
    rewrite decide_True by lia. simpl. rewrite IHw by lia. f_equal. lia.
  - rewrite fmap_cons in *. simpl in *. by apply IHw.
Qed.

Lemma serialize_kids cs data loc :
  (∀ n data loc, k2_wf levels n → 0 ≤ loc →
     4 * (loc + nodes levels n) ≤ 32 * Z.of_nat (length data) →
     4 * (loc + nodes levels n) < 2 ^ 32 →
     ∃ data', serialize_to_vec_with_k2node_ptrs n (u32 (cd + 1)) cut data loc =
                Ret (data', loc + nodes levels n) ∧
              stamped data data' (4 * loc) (flags levels n)) →
  Forall (on_child (k2_wf levels) True) cs → 0 ≤ loc →
  4 * (loc + sumZ (on_child (nodes levels) 0 <$> cs)) ≤ 32 * Z.of_nat (length data) →
  4 * (loc + sumZ (on_child (nodes levels) 0 <$> cs)) < 2 ^ 32 →
  ∃ data', (fix go (l : list (option k2node)) (data : list Z) (loc : Z)
     : outcome (list Z * Z) :=
     match l with
     | [] => Ret (data, loc)
     | None :: l => go l data loc
     | Some c :: l =>
         '(data, loc) ← serialize_to_vec_with_k2node_ptrs c (u32 (cd + 1)) cut data loc;
         go l data loc
     end) cs data loc =
       Ret (data', loc + sumZ (on_child (nodes levels) 0 <$> cs)) ∧
    stamped data data' (4 * loc) (cs ≫= on_child (flags levels) []).
Proof using.
  intros IH Hw. revert data loc.
  induction Hw as [|[c|] cs Hc Hw IHw]; intros data loc Hloc Hl Hb.
  - exists data. split; [simpl; do 2 f_equal; lia|apply stamped_nil].
  - rewrite fmap_cons, bind_cons in *. simpl in Hl, Hb, Hc |- *.
    pose proof (nodes_nonneg levels c). pose proof (sum_kids_nonneg levels cs).
    destruct (IH c data loc) as (d1 & H1 & S1); [done|lia..|]. rewrite H1. simpl.
    pose proof S1 as (L1 & _ & _).
    destruct (IHw d1 (loc + nodes levels c)) as (d2 & H2 & S2); [lia|lia|lia|].
    exists d2. rewrite H2. split; [do 2 f_equal; lia|].
    eapply stamped_app; [done|]. rewrite length_flags by done.
    replace (4 * loc + 4 * nodes levels c) with (4 * (loc + nodes levels c)) by lia. done.
  - rewrite fmap_cons, bind_cons in *. simpl in *. by apply IHw.
Qed.
End kids_loops.

Lemma count_spec levels n cd cut :
  k2_wf levels n → 0 ≤ cd → in_u 32 cut → cd + Z.of_nat levels = cut →
  nodes levels n < 2 ^ 31 →
  count_k2nodes_wchildren n cd cut = Ret (nodes levels n).
Proof.
  revert n cd. induction levels as [|l IH]; intros n cd Hw H0 Hcut Hcd Hn.
  { destruct n; try done. simpl. by rewrite decide_False by lia. }
  apply k2_wf_S in Hw as (Hn' & _ & Hlen & Hk). destruct Hn' as [->| Hn'].
  { simpl. rewrite decide_True by lia. done. }
  rewrite Hn' in *. revert Hn Hlen Hk. generalize (kids n) as cs. clear Hn' n.
  intros cs Hn Hlen Hk. simpl in *. rewrite decide_True by lia.
  pose proof (sum_kids_nonneg l cs).
  assert (u32 (cd + 1) = cd + 1) as Hu by (apply u32_id; unfold in_u in *; lia).
  rewrite (count_kids cut cd l); [|intros; apply IH; try done; lia|done..|lia].
  simpl. unfold int_chk. rewrite decide_True by lia. f_equal. lia.
Qed.

Lemma serialize_spec levels n cd cut data loc :
  k2_wf levels n → 0 ≤ cd → in_u 32 cut → cd + Z.of_nat levels = cut → 0 ≤ loc →
  4 * (loc + nodes levels n) ≤ 32 * Z.of_nat (length data) →
  4 * (loc + nodes levels n) < 2 ^ 32 →
  ∃ data', serialize_to_vec_with_k2node_ptrs n cd cut data loc =
             Ret (data', loc + nodes levels n) ∧
           stamped data data' (4 * loc) (flags levels n).
Proof.
  revert n cd data loc. induction levels as [|l IH]; intros n cd data loc Hw H0 Hcut Hcd Hloc Hl Hb.
  { exists data. destruct n; try done. simpl. rewrite decide_False by lia.
    split; [do 2 f_equal; lia|apply stamped_nil]. }
  apply k2_wf_S in Hw as (Hn' & _ & Hlen & Hk). simpl nodes in *.
  pose proof (sum_kids_nonneg l (kids n)).
  destruct (serialize_node_stamped (kids n) data loc) as (d1 & H1 & S1); [done|lia..|].
  pose proof S1 as (L1 & _ & _).
  assert (u32 (cd + 1) = cd + 1) as Hu by (apply u32_id; unfold in_u in *; lia).
  assert (u32 (loc + 1) = loc + 1) as Hl1 by (apply u32_id; unfold in_u in *; lia).
  destruct (serialize_kids cut cd l (kids n) d1 (loc + 1)) as (d2 & H2 & S2);
    [intros; apply IH; try done; lia|done|lia..|].
  exists d2. split.
  - destruct Hn' as [->| Hn'].
    + simpl. rewrite decide_True by lia. simpl in H1. rewrite H1. simpl. rewrite Hl1. simpl in H2. by injection H2 as ->.
    + remember (kids n) as cs eqn:E. clear E. subst n.
      simpl. rewrite decide_True by lia. rewrite H1. simpl. rewrite Hl1, H2.
      do 2 f_equal. lia.
  - simpl flags. eapply stamped_app; [done|]. unfold present. rewrite length_fmap, Hlen.
    replace (4 * loc + Z.of_nat 4) with (4 * (loc + 1)) by lia. done.
Qed.

(** The trees of blocks, one after the other. *)
Definition leaf_data (td mx : Z) (b : block) : k2tree_data := K2TreeData b td mx.
Definition leaves_bytes (td mx : Z) (bs : list block) : list Z :=
  bs ≫= (data_bytes ∘ leaf_data td mx).

Lemma leaves_bytes_app td mx bs cs :
  leaves_bytes td mx (bs ++ cs) = leaves_bytes td mx bs ++ leaves_bytes td mx cs.
Proof. apply bind_app. Qed.

Lemma write_leaf_emits b td mx :
  block_wf b → in_u 32 (Z.of_nat (length (postorder b))) →
  emits (write_tree_to_ostream (K2TreeData b td mx)) (data_bytes (leaf_data td mx b))
        (u64 (Z.of_nat (length (data_bytes (leaf_data td mx b))))).
Proof.
  intros Hb Hc. eapply emits_eq; [apply write_tree_emits; by split|done|].
  unfold data_bytes. rewrite !length_app, !length_be_encode. f_equal. simpl. lia.
Qed.

Lemma write_blocks_emits levels n cd cut mx td :
  k2_wf levels n → 0 ≤ cd → in_u 32 cut → cd + Z.of_nat levels = cut →
  emits (write_blocks_from_k2nodes n cd cut mx td)
        (leaves_bytes td mx (leaves levels n))
        (u64 (Z.of_nat (length (leaves_bytes td mx (leaves levels n))))).
Proof.
  revert n cd. induction levels as [|l IH]; intros n cd Hw H0 Hcut Hcd.
  { destruct n as [| |b]; try done. destruct Hw as [Hb Hc]. simpl.
    rewrite decide_False by lia. unfold leaves_bytes. simpl. rewrite app_nil_r.
    eapply does_bind_r; [by apply does_lift|]. eapply does_bind_r; [by apply does_lift|].
    eapply does_bind_l; [by apply write_leaf_emits|].
    rewrite u64_add_r. apply does_ret. }
  apply k2_wf_S in Hw as (Hn' & _ & Hlen & Hk). simpl leaves.
  destruct Hn' as [->| Hn'].
  { simpl. rewrite decide_True by lia. eapply emits_eq; [apply does_ret|done|done]. }
  remember (kids n) as cs eqn:E. clear E. subst n. clear Hlen. simpl.
  rewrite decide_True by lia.
  assert (u32 (cd + 1) = cd + 1) as Hu by (apply u32_id; unfold in_u in *; lia).
  rewrite Hu. match goal with |- emits (?go _ _) _ _ => set (f := go) end.
  cut (∀ bw, emits (f cs (u64 bw)) (leaves_bytes td mx (cs ≫= on_child (leaves l) []))
         (u64 (bw + Z.of_nat (length (leaves_bytes td mx (cs ≫= on_child (leaves l) [])))))).
  { intros Hf. apply (Hf 0). }
  induction Hk as [|[c|] cs Hc Hk IHk]; intros bw.
  - eapply emits_eq; [apply does_ret|done|]. simpl. by rewrite Z.add_0_r.
  - rewrite bind_cons, leaves_bytes_app, length_app, Nat2Z.inj_add. simpl. eapply emits_eq.
    + eapply does_bind; [apply (IH c); [done|lia|done|lia]|]. cbv beta.
      rewrite u64_add_r, u64_add_l. apply IHk.
    + done.
    + f_equal. lia.
  - rewrite bind_cons. apply IHk.
Qed.

(** A tree the code can write: the shape announced by the cut depth, every
    field in its width, and a node count whose bits an [int] can number. *)
Definition tm_wf (t : K2TreeMixed) : Prop :=
  k2_wf (Z.to_nat (cut_depth t)) (root t) ∧ in_u 64 (points_count t) ∧
  in_u 32 (tree_depth t) ∧ in_u 32 (cut_depth t) ∧ in_u 32 (max_nodes_count t) ∧
  4 * nodes (Z.to_nat (cut_depth t)) (root t) < 2 ^ 31.

Definition tm_leaves (t : K2TreeMixed) : list block :=
  leaves (Z.to_nat (cut_depth t)) (root t).

(** The vector of packed child bits, and the bytes of a tree that has it. *)
Definition packs (t : K2TreeMixed) (containers : list Z) : Prop :=
  let l := Z.to_nat (cut_depth t) in
  Forall (in_u 32) containers ∧
  4 * nodes l (root t) ≤ 32 * Z.of_nat (length containers) < 4 * nodes l (root t) + 32 ∧
  ∀ q, 0 ≤ q → bit containers q = flag_at (flags l (root t)) q.

Definition tm_bytes (t : K2TreeMixed) (containers : list Z) : list Z :=
  be_encode 8 (points_count t) ++ be_encode 4 (tree_depth t) ++
  be_encode 4 (cut_depth t) ++ be_encode 4 (max_nodes_count t) ++
  be_encode 4 (Z.of_nat (length containers)) ++ (containers ≫= be_encode 4) ++
  leaves_bytes (tree_depth t) (max_nodes_count t) (tm_leaves t).

Lemma bit_zeros n q : bit (replicate n 0) q = false.
Proof.
  unfold bit. destruct (replicate n 0 !! _) as [x|] eqn:E; simpl.
  - apply lookup_replicate in E as [-> _]. apply Z.testbit_0_l.
  - apply Z.testbit_0_l.
Qed.

Lemma write_emits t :
  tm_wf t → ∃ containers, packs t containers ∧
    emits (write_to_ostream t) (tm_bytes t containers)
          (u64 (Z.of_nat (length (tm_bytes t containers)))).
Proof.
  intros (Hw & Hpc & Htd & Hcut & Hmx & Hn).
  set (l := Z.to_nat (cut_depth t)) in *. set (k := nodes l (root t)) in *.
  assert (Hk0 : 0 ≤ k) by apply nodes_nonneg.
  assert (Hl : Z.of_nat l = cut_depth t) by (unfold l, in_u in *; lia).
  set (cc := 4 * k / 32 + (if decide (4 * k mod 32 = 0) then 0 else 1)).
  assert (Hcc : 4 * k ≤ 32 * cc < 4 * k + 32).
  { pose proof (Z.div_mod (4 * k) 32 ltac:(lia)).
    pose proof (Z.mod_pos_bound (4 * k) 32 ltac:(lia)). unfold cc. case_decide; lia. }
  destruct (serialize_spec l (root t) 0 (cut_depth t) (replicate (Z.to_nat cc) 0) 0)
    as (cs & Hs & Lcs & Ucs & Bcs);
    [done|lia|done|lia|lia|rewrite length_replicate; lia|unfold k in *; lia|].
  rewrite length_replicate in Lcs. fold k in Hs.
  assert (Hcs : Forall (in_u 32) cs) by (apply Ucs, Forall_replicate; unfold in_u; lia).
  assert (HL : Z.of_nat (length cs) = cc) by lia.
  exists cs. split.
  { split_and!; [done|fold l k; lia..|]. intros q Hq. rewrite Bcs by done.
    rewrite bit_zeros. simpl. f_equal. lia. }
  unfold write_to_ostream, tm_bytes, tm_leaves. fold l.
  eapply emits_eq.
  - eapply does_bind; [apply does_lift, (count_spec l); try done; lia|]. fold k.
    eapply does_bind; [apply does_lift; unfold int_chk; by rewrite decide_True by lia|].
    cbv beta zeta. replace (k * 4) with (4 * k) by lia. fold cc.
    eapply does_bind; [by apply does_lift|]. cbv beta iota.
    do 5 (eapply does_bind; [solve [eauto with emits]|]).
    eapply does_bind.
    { change 24 with (u64 24) at 1. replace (Z.to_nat cc) with (length cs) by lia.
      apply (emits_array_loop write_u32 (be_encode 4) 4 cs [] cs); [|done].
      intros. apply emits_u32. }
    eapply does_bind; [apply (write_blocks_emits l); [done|lia|done|lia]|].
    rewrite u64_add_r, u64_add_l. apply does_ret.
  - simpl. rewrite app_nil_r. by rewrite HL.
  - f_equal. rewrite !length_app, !length_be_encode, length_bind_be. lia.
Qed.

(** ** The readers *)

(** The node the reader builds from its four children: a node none of whose
    children was set is still zeroed. *)
Definition mk_node (cs : list (option k2node)) : k2node :=
  if decide (Forall (λ c, c = None) cs) then K2Null else K2Node cs.

Lemma node_children_mk cs : length cs = 4%nat → node_children (mk_node cs) = Ret cs.
Proof.
  intros Hl. unfold mk_node. case_decide as Hn; [|done].
  cbn [node_children]. f_equal. rewrite <-Hl.
  clear Hl. induction Hn as [|c cs -> Hn IH]; [done|]. simpl. by rewrite IH.
Qed.

Lemma set_child_mk pre c old post :
  length (pre ++ old :: post) = 4%nat →
  set_child (mk_node (pre ++ old :: post)) (length pre) c =
  Ret (mk_node (pre ++ Some c :: post)).
Proof.
  intros Hl. unfold set_child. rewrite node_children_mk by done. simpl.
  unfold arr_set. rewrite decide_True by (rewrite length_app; simpl; lia). simpl.
  rewrite insert_app_r_alt, Nat.sub_diag by done. simpl. unfold mk_node.
  rewrite decide_False; [done|]. rewrite Forall_app, Forall_cons. naive_solver.
Qed.

(** The containers hold the bits [fs] from position [p] on. *)
Definition holds (containers : list Z) (p : Z) (fs : list bool) : Prop :=
  ∀ k, 0 ≤ k < Z.of_nat (length fs) → bit containers (p + k) = flag_at fs k.

Lemma flag_at_range fs k : Z.of_nat (length fs) ≤ k → flag_at fs k = false.
Proof.
  intros. unfold flag_at. case_decide; [|done]. by rewrite lookup_ge_None_2 by lia.
Qed.

Lemma holds_app cs p f1 f2 :
  holds cs p (f1 ++ f2) → holds cs p f1 ∧ holds cs (p + Z.of_nat (length f1)) f2.
Proof.
  intros H. unfold holds in *. rewrite length_app in H. split; intros k Hk.
  - rewrite H, flag_at_app by lia. unfold flag_at at 2.
    rewrite decide_False by lia. by rewrite orb_false_r.
  - rewrite <-Z.add_assoc, H, flag_at_app by lia.
    rewrite flag_at_range by lia. simpl. f_equal. lia.
Qed.

Section reading.
Context {T W : Type} `{Effect T W}.
Variables (new_node : st T k2node) (read_tree : st T k2tree_data) (new_block : st T ()).
(** The effects of the three operations, and the block that a tree is read
    back as. *)
Variables (eN eB : W) (eT : block → W) (ld : block → block).
Hypothesis new_node_does : does new_node eN K2Null.
Hypothesis new_block_does : does new_block eB ().
Hypothesis read_tree_does : ∀ b, block_wf b →
  in_u 32 (Z.of_nat (length (postorder b))) →
  ∃ td mx, does read_tree (eT b) (K2TreeData (ld b) td mx).

Fixpoint node_eff (levels : nat) (n : k2node) : W :=
  eff_app eN
    match levels with
    | O => match n with K2Leaf b => eff_app (eT b) eB | _ => eff_unit end
    | S l => eff_concat (on_child (node_eff l) eff_unit <$> kids n)
    end.

Fixpoint node_out (levels : nat) (n : k2node) : k2node :=
  match levels with
  | O => match n with K2Leaf b => K2Leaf (ld b) | _ => n end
  | S l => mk_node ((λ c, option_map (node_out l) c) <$> kids n)
  end.

Lemma does_child rec l ctn sub pre o post loc :
  Z.testbit ctn (31 - (sub + Z.of_nat (length pre))) = bool_decide (is_Some o) →
  (∀ n, o = Some n → does (rec loc) (node_eff l n) (node_out l n, loc + nodes l n)) →
  length (pre ++ None :: post) = 4%nat →
  does (deserialize_child rec ctn sub (mk_node (pre ++ None :: post), loc) (length pre))
    (on_child (node_eff l) eff_unit o)
    (mk_node (pre ++ option_map (node_out l) o :: post), loc + on_child (nodes l) 0 o).
Proof using.
  intros Hbit Hrec Hlen. unfold deserialize_child. rewrite Hbit. simpl fst. simpl snd.
  destruct o as [n|]; simpl.
  - eapply does_bind_l; [by apply Hrec|].
    eapply does_bind_l; [|apply does_ret]. by apply does_lift, set_child_mk.
  - rewrite Z.add_0_r. apply does_ret.
Qed.

Lemma does_children M rec l c ctn sub cs pre loc :
  (∀ n loc, Some n ∈ cs → 0 ≤ loc →
     holds c (4 * loc) (flags l n) → 4 * (loc + nodes l n) < M →
     does (rec loc) (node_eff l n) (node_out l n, loc + nodes l n)) →
  Forall (on_child (k2_wf l) True) cs → 0 ≤ loc →
  (length pre + length cs = 4)%nat →
  holds c (4 * loc) (cs ≫= on_child (flags l) []) →
  4 * (loc + sumZ (on_child (nodes l) 0 <$> cs)) < M →
  (∀ i, (i < length cs)%nat →
     Z.testbit ctn (31 - (sub + Z.of_nat (length pre + i))) =
     default false (present cs !! i)) →
  does (loop (deserialize_child rec ctn sub) (mk_node (pre ++ replicate (length cs) None), loc)
          (seq (length pre) (length cs)))
    (eff_concat (on_child (node_eff l) eff_unit <$> cs))
    (mk_node (pre ++ ((λ c, option_map (node_out l) c) <$> cs)),
     loc + sumZ (on_child (nodes l) 0 <$> cs)).
Proof using.
  intros Hrec Hw. revert pre loc Hrec.
  induction Hw as [|o cs Ho Hw IHw]; intros pre loc Hrec Hloc Hlen Hh Hb Hbits.
  { eapply does_eq; [apply does_ret|done|]. simpl. f_equal. lia. }
  rewrite bind_cons in Hh. rewrite fmap_cons, sumZ_cons in Hb. rewrite !fmap_cons, sumZ_cons. cbn [length] in *.
  pose proof (sum_kids_nonneg l cs) as Hnn.
  apply holds_app in Hh as [Hh1 Hh2].
  assert (Ho' : 0 ≤ on_child (nodes l) 0 o ∧
    Z.of_nat (length (on_child (flags l) [] o)) = 4 * on_child (nodes l) 0 o).
  { destruct o; simpl in *; [|lia]. split; [apply nodes_nonneg|by apply length_flags]. }
  destruct Ho' as [Ho0 Hfl]. simpl seq. simpl loop. eapply does_bind.
  - apply does_child.
    + pose proof (Hbits 0%nat ltac:(lia)) as Hb0. rewrite Nat.add_0_r in Hb0.
      rewrite Hb0. by destruct o.
    + intros n ->. cbn [on_child] in *. apply Hrec; [by left|done|done|]. lia.
    + rewrite length_app. simpl. rewrite length_replicate. lia.
  - cbv beta. set (x := option_map (node_out l) o).
    replace (pre ++ x :: replicate (length cs) None) with
      ((pre ++ [x]) ++ replicate (length cs) None) by (by rewrite <-(assoc_L (++))).
    replace (S (length pre)) with (length (pre ++ [x])) by (rewrite length_app; simpl; lia).
    eapply does_eq; [apply IHw|done|].
    + intros. apply Hrec; [by right|done..].
    + lia.
    + rewrite length_app. simpl. lia.
    + rewrite Hfl in Hh2. by rewrite Z.mul_add_distr_l.
    + lia.
    + intros i Hi. rewrite length_app. simpl length.
      specialize (Hbits (S i) ltac:(lia)). rewrite <-Nat.add_assoc. exact Hbits.
    + rewrite <-(assoc_L (++)). simpl. f_equal. lia.
Qed.

(** The four flags of a node are in one container. *)
Lemma node_flags containers loc cs ctn : 0 ≤ loc → length cs = 4%nat →
  holds containers (4 * loc) (present cs) → containers !! Z.to_nat (4 * loc / 32) = Some ctn →
  ∀ i, (i < 4)%nat →
    Z.testbit ctn (31 - (4 * loc mod 32 + Z.of_nat i)) = default false (present cs !! i).
Proof using.
  intros H0 Hlen Hh Hctn i Hi. set (k := 4 * loc / 32) in *.
  assert (Hdiv : 4 * loc = 32 * k + 4 * loc mod 32) by (apply Z.div_mod; lia).
  pose proof (Z.mod_pos_bound (4 * loc) 32 ltac:(lia)) as Hmod.
  assert (Hmod4 : 4 * loc mod 32 ≤ 28) by lia.
  specialize (Hh (Z.of_nat i)). unfold present in Hh at 1. rewrite length_fmap in Hh. specialize (Hh ltac:(lia)).
  unfold flag_at in Hh. rewrite decide_True, Nat2Z.id in Hh by lia. rewrite <-Hh. unfold bit.
  replace ((4 * loc + Z.of_nat i) / 32) with k
    by (apply (Z.div_unique_pos _ _ _ (4 * loc mod 32 + Z.of_nat i)); lia).
  replace ((4 * loc + Z.of_nat i) mod 32) with (4 * loc mod 32 + Z.of_nat i)
    by (apply (Z.mod_unique_pos _ _ k); lia).
  by rewrite Hctn.
Qed.

Lemma does_deserialize levels n containers loc :
  k2_wf levels n → 0 ≤ loc → holds containers (4 * loc) (flags levels n) →
  4 * (loc + nodes levels n) < 2 ^ 31 →
  4 * (loc + nodes levels n) ≤ 32 * Z.of_nat (length containers) →
  ∃ n', does (deserialize_with new_node read_tree new_block levels containers loc)
    (node_eff levels n) (n', loc + nodes levels n) ∧ n' = node_out levels n.
Proof using new_node_does new_block_does read_tree_does.
  intros Hw H0 Hh Hb Hl. eexists. split; [|done]. revert n loc Hw H0 Hh Hb Hl.
  induction levels as [|l IH]; intros n loc Hw H0 Hh Hb Hl.
  { destruct n as [| |b]; try done. destruct Hw as [Hwb Hc]. simpl.
    destruct (read_tree_does b Hwb Hc) as (td & mx & Ht).
    eapply does_bind; [done|]. eapply does_bind; [done|].
    eapply does_bind_l; [done|]. eapply does_eq; [apply does_ret|done|].
    simpl. f_equal. lia. }
  apply k2_wf_S in Hw as (_ & _ & Hlen & Hk). cbn [flags nodes] in Hh, Hb, Hl.
  cbn [deserialize_with node_eff node_out nodes].
  pose proof (sum_kids_nonneg l (kids n)) as Hnn.
  eapply does_bind; [done|].
  assert (Hnull : K2Null = mk_node ([] ++ replicate (length (kids n)) None))
    by (by rewrite Hlen).
  rewrite Hnull. replace (seq 0 4) with (seq (length (@nil (option k2node))) (length (kids n)))
    by (by rewrite Hlen).
  assert (E : s32 loc = loc).
  { unfold s32, to_signed. rewrite uwrap_small by (unfold in_u; lia).
    by rewrite decide_True by lia. }
  rewrite E. eapply does_bind_r.
  { apply does_lift. unfold int_chk. by rewrite decide_True by lia. }
  set (k := 4 * loc / 32).
  assert (Hdiv : 4 * loc = 32 * k + 4 * loc mod 32) by (apply Z.div_mod; lia).
  pose proof (Z.mod_pos_bound (4 * loc) 32 ltac:(lia)) as Hmod.
  destruct (lookup_lt_is_Some_2 containers (Z.to_nat k)) as [ctn Hctn]; [lia|].
  eapply does_bind_r.
  { apply does_lift. rewrite decide_True by lia. fold k. by rewrite Hctn. }
  rewrite u32_id by (unfold in_u; lia). apply holds_app in Hh as [Hh1 Hh2].
  eapply does_eq; [apply (does_children (2 ^ 31 `min` (32 * Z.of_nat (length containers) + 1)) _ l containers ctn _ (kids n) [])| |].
  - intros m loc' Hin. intros. apply IH; [|done|done|lia..].
    rewrite Forall_forall in Hk. exact (Hk _ Hin).
  - done.
  - lia.
  - done.
  - unfold present in Hh2. rewrite length_fmap, Hlen in Hh2.
    replace (4 * (loc + 1)) with (4 * loc + Z.of_nat 4) by lia. done.
  - lia.
  - intros i Hi. simpl length. rewrite Nat.add_0_l. apply (node_flags containers loc (kids n)); (done || lia).
  - done.
  - f_equal. lia.
Qed.
End reading.

(** The contents of a tree of nodes: the cells of its blocks in use; a zeroed
    node and a node without children are the same. *)
Definition view : nat → k2node → k2node := node_out trim.

Lemma kids_mk_node cs : length cs = 4%nat → kids (mk_node cs) = cs.
Proof.
  intros Hl. pose proof (node_children_mk cs Hl) as Hm.
  destruct (mk_node cs); simpl in *; congruence.
Qed.

Lemma view_node_out ld levels n :
  (∀ b, block_wf b → trim (ld b) = trim b) → k2_wf levels n →
  view levels (node_out ld levels n) = view levels n.
Proof.
  intros Hld. unfold view. revert n. induction levels as [|l IH]; intros n Hw.
  { destruct n as [| |b]; try done. simpl. f_equal. apply Hld, Hw. }
  apply k2_wf_S in Hw as (_ & _ & Hlen & Hk). cbn [node_out].
  rewrite kids_mk_node by (by rewrite length_fmap). f_equal. rewrite <-list_fmap_compose.
  clear Hlen. induction Hk as [|c cs Hc Hk IHk]; [done|]. rewrite !fmap_cons. f_equal; [|done].
  destruct c as [c|]; [|done]. simpl in *. f_equal. by apply IH.
Qed.

Lemma packs_holds t containers : packs t containers →
  holds containers 0 (flags (Z.to_nat (cut_depth t)) (root t)).
Proof. intros (_ & _ & Hb) k Hk. rewrite Hb by lia. by rewrite Z.add_0_l. Qed.

Section read_mixed.
Context {T W : Type} `{Effect T W}.
Variables (new_node : st T k2node) (read_tree : st T k2tree_data) (new_block : st T ()).
Variables (eN eB : W) (eT : block → W) (ld : block → block).
Hypothesis new_node_does : does new_node eN K2Null.
Hypothesis new_block_does : does new_block eB ().
Hypothesis read_tree_does : ∀ b, block_wf b →
  in_u 32 (Z.of_nat (length (postorder b))) →
  ∃ td mx, does read_tree (eT b) (K2TreeData (ld b) td mx).

Lemma does_read_mixed (r32 r64 : st T Z) (e32 e64 : Z → W) t containers :
  (∀ x, in_u 32 x → does r32 (e32 x) x) → (∀ x, in_u 64 x → does r64 (e64 x) x) →
  tm_wf t → packs t containers →
  does (read_tree_mixed new_node read_tree new_block r32 r64)
    (eff_app (e64 (points_count t)) (eff_app (e32 (tree_depth t))
      (eff_app (e32 (cut_depth t)) (eff_app (e32 (max_nodes_count t))
        (eff_app (e32 (Z.of_nat (length containers)))
          (eff_app (eff_concat (e32 <$> containers))
             (node_eff eN eB eT (Z.to_nat (cut_depth t)) (root t))))))))
    (set_root t (node_out ld (Z.to_nat (cut_depth t)) (root t)) (points_count t)).
Proof using new_node_does new_block_does read_tree_does.
  intros H32 H64 (Hw & Hpc & Htd & Hcut & Hmx & Hn) Hp.
  pose proof (packs_holds _ _ Hp) as Hh. destruct Hp as (Hcs & Hlen & _).
  unfold read_tree_mixed.
  eapply does_bind; [by apply H64|]. eapply does_bind; [by apply H32|].
  eapply does_bind; [by apply H32|]. eapply does_bind; [by apply H32|].
  eapply does_bind; [apply H32; unfold in_u in *; lia|].
  eapply does_bind.
  { apply fill_fresh; [|rewrite length_replicate; lia|done].
    intros x Hx. apply H32. rewrite Forall_forall in Hcs. auto. }
  cbv beta. destruct (does_deserialize new_node read_tree new_block eN eB eT ld
    new_node_does new_block_does read_tree_does (Z.to_nat (cut_depth t)) (root t)
    containers 0 Hw) as (n' & Hd & ->); [lia|done|lia|lia|].
  eapply does_bind_l; [exact Hd|]. apply does_ret.
Qed.
End read_mixed.

Section k2tree_roundtrip.
Context `{BlockLib, !BlockLibLaws, K2Lib}.
(** [create_k2node] returns a zeroed node. *)
Hypothesis create_null : create_k2node = K2Null.

Lemma node_eff_bytes td mx levels n :
  k2_wf levels n →
  node_eff (H := read_effect) [] [] (data_bytes ∘ leaf_data td mx) levels n =
  leaves_bytes td mx (leaves levels n).
Proof using.
  revert n. induction levels as [|l IH]; intros n Hw.
  { by destruct n. }
  apply k2_wf_S in Hw as (_ & _ & _ & Hk). cbn [node_eff leaves].
  induction Hk as [|c cs Hc Hk IHk]; [done|].
  rewrite bind_cons, leaves_bytes_app, <-IHk, fmap_cons.
  destruct c as [c|]; [|done]. simpl in Hc |- *. by rewrite IH.
Qed.

Lemma does_heap_tree td mx b :
  block_wf b → in_u 32 (Z.of_nat (length (postorder b))) →
  parses read_tree_from_istream ((data_bytes ∘ leaf_data td mx) b)
    (K2TreeData (loaded heap_shell b) (u16 td) (u16 mx)).
Proof.
  intros Hb Hc. unfold compose. rewrite data_bytes_eff, <-(eff_concat_bytes block_bytes).
  apply (does_read_tree read_block_from_istream block_bytes heap_shell
           read_block_parses heap_shell_children
           read_u16 read_u32 (be_encode 2) (be_encode 4) (leaf_data td mx b));
    [apply parses_u16|apply parses_u32|done].
Qed.

(** A tree the code can write has an encoding that the reader accepts anywhere. *)
Lemma tree_codec t :
  tm_wf t →
  ∃ bytes t', emits (write_to_ostream t) bytes (u64 (Z.of_nat (length bytes))) ∧
    parses read_from_istream bytes t' ∧
    points_count t' = points_count t ∧ create_k2qw t' = create_k2qw t ∧
    view (Z.to_nat (cut_depth t)) (root t') = view (Z.to_nat (cut_depth t)) (root t).
Proof.
  intros Hwf. destruct (write_emits t Hwf) as (containers & Hp & He).
  exists (tm_bytes t containers),
    (set_root t (node_out (loaded heap_shell) (Z.to_nat (cut_depth t)) (root t))
       (points_count t)).
  split_and!; [done| |done|done|].
  - unfold tm_bytes, tm_leaves. rewrite <-(eff_concat_bytes (be_encode 4)).
    rewrite <-node_eff_bytes by apply Hwf.
    apply (does_read_mixed (H := read_effect) _ _ _ [] [] _ (loaded heap_shell))
      with (e32 := be_encode 4) (e64 := be_encode 8);
      [rewrite create_null; apply (does_ret (H := read_effect))
      |apply (does_ret (H := read_effect))| | | |done|done].
    + intros b Hb Hc. eexists _, _. by apply does_heap_tree.
    + apply parses_u32.
    + apply parses_u64.
  - apply view_node_out; [|apply Hwf]. intros b Hb.
    by rewrite heap_loaded_trim, trim_wf.
Qed.

(** C12: writing a tree and reading it back yields the same header fields and
    the same tree of nodes and blocks, and consumes exactly its bytes. *)
Theorem k2tree_roundtrip t pre post :
  tm_wf t →
  ∃ bytes t',
    write_to_ostream t (os_end pre) =
      Ret (u64 (Z.of_nat (length bytes)), os_end (pre ++ bytes)) ∧
    read_from_istream (stream_at pre (bytes ++ post)) =
      Ret (t', stream_at (pre ++ bytes) post) ∧
    points_count t' = points_count t ∧ create_k2qw t' = create_k2qw t ∧
    view (Z.to_nat (cut_depth t)) (root t') = view (Z.to_nat (cut_depth t)) (root t).
Proof.
  intros Hwf. destruct (tree_codec t Hwf) as (bytes & t' & He & Hp & E1 & E2 & E3).
  exists bytes, t'. split; [by apply emits_at|]. split; [by apply parses_at|done].
Qed.

(** The memory a tree takes from a segment. *)
Fixpoint node_mem (levels : nat) (n : k2node) : nat :=
  sizeof_k2node +
  match levels with
  | O => match n with K2Leaf b => tree_mem b + sizeof_block | _ => 0 end
  | S l => sum_list_with (on_child (node_mem l) 0%nat) (kids n)
  end.
Definition tm_mem (t : K2TreeMixed) : nat := node_mem (Z.to_nat (cut_depth t)) (root t).

Lemma node_eff_mem td mx levels n :
  k2_wf levels n →
  node_eff (H := mem_effect) ([], sizeof_k2node) ([], sizeof_block)
    (λ b, (data_bytes (leaf_data td mx b), tree_mem b)) levels n =
  (leaves_bytes td mx (leaves levels n), node_mem levels n).
Proof using.
  revert n. induction levels as [|l IH]; intros n Hw.
  { by destruct n. }
  apply k2_wf_S in Hw as (_ & _ & _ & Hk). cbn [node_eff leaves node_mem].
  cut (eff_concat (on_child (node_eff (H := mem_effect) ([], sizeof_k2node)
         ([], sizeof_block) (λ b, (data_bytes (leaf_data td mx b), tree_mem b)) l)
         eff_unit <$> kids n) =
       (leaves_bytes td mx (kids n ≫= on_child (leaves l) []),
        sum_list_with (on_child (node_mem l) 0%nat) (kids n))).
  { intros ->. done. }
  induction Hk as [|c cs Hc Hk IHk]; [done|].
  rewrite bind_cons, leaves_bytes_app, fmap_cons.
  change (sum_list_with ?f (?x :: ?l)) with (f x + sum_list_with f l)%nat.
  change (eff_concat (?x :: ?l)) with (eff_app x (eff_concat l)). rewrite IHk.
  destruct c as [c|]; [|done]. cbn [on_child] in Hc |- *. by rewrite (IH c Hc).
Qed.

Lemma does_require_object n :
  (0 < n)%nat →
  does (H := mem_effect) (on_seg (require_bytes (Z.of_nat n));; mret ()) ([], n) ().
Proof using.
  intros Hn [i g] [i' g'] (Hi & Hok & Hav & Hg). simpl in *.
  apply (eff_unit_inv (Effect := read_effect)) in Hi. subst i' g'.
  destruct (require_bytes_fits (Z.of_nat n) g) as (p & Hr & _); [done|lia|].
  unfold on_seg, mbind, st_bind, outcome_bind. simpl. by rewrite Hr.
Qed.

Lemma does_seg_tree td mx b :
  block_wf b → in_u 32 (Z.of_nat (length (postorder b))) →
  does (H := mem_effect) read_tree_from_istream_seg
    (data_bytes (leaf_data td mx b), tree_mem b)
    (K2TreeData (loaded seg_shell b) (u16 td) (u16 mx)).
Proof.
  intros Hb Hc. eapply does_eq.
  - apply (does_read_tree read_block_from_istream_seg
           (λ b, (block_bytes b, block_mem b)) seg_shell)
    with (e16 := λ x, (be_encode 2 x, 0%nat)) (e32 := λ x, (be_encode 4 x, 0%nat))
         (d := leaf_data td mx b).
    + apply read_block_seg.
    + apply seg_shell_children.
    + intros. by apply does_on_is, parses_u16.
    + intros. by apply does_on_is, parses_u32.
    + done.
  - rewrite eff_concat_mem. done.
  - done.
Qed.

(** The same for the reader that allocates from a segment: it needs the memory of
    the nodes and blocks of the tree. *)
Lemma tree_codec_seg t :
  tm_wf t →
  ∃ bytes t', emits (write_to_ostream t) bytes (u64 (Z.of_nat (length bytes))) ∧
    does (H := mem_effect) read_from_istream_seg (bytes, tm_mem t) t' ∧
    points_count t' = points_count t ∧ create_k2qw t' = create_k2qw t ∧
    view (Z.to_nat (cut_depth t)) (root t') = view (Z.to_nat (cut_depth t)) (root t).
Proof.
  intros Hwf. destruct (write_emits t Hwf) as (containers & Hp & He).
  destruct sizeof_pos as (_ & Hsb & Hsn).
  exists (tm_bytes t containers),
    (set_root t (node_out (loaded seg_shell) (Z.to_nat (cut_depth t)) (root t))
       (points_count t)).
  split_and!; [done| |done|done|].
  - eapply does_eq; [eapply (does_read_mixed (H := mem_effect)
      _ _ _ ([], sizeof_k2node) ([], sizeof_block)
      (λ b, (data_bytes (leaf_data (tree_depth t) (max_nodes_count t) b), tree_mem b))
      (loaded seg_shell))
      with (e32 := λ x, (be_encode 4 x, 0%nat)) (e64 := λ x, (be_encode 8 x, 0%nat))| |done].
    + intros s s' Hs. pose proof (does_require_object sizeof_k2node Hsn s s' Hs) as Hr.
      unfold mbind, st_bind in *.
      destruct (on_seg _ s) as [[? ?]| |]; [|done..]. by injection Hr as ->.
    + by apply does_require_object.
    + intros b Hb Hc. eexists _, _. by apply does_seg_tree.
    + intros. by apply does_on_is, parses_u32.
    + intros. by apply does_on_is, parses_u64.
    + done.
    + done.
    + rewrite node_eff_mem by apply Hwf.
      rewrite (eff_concat_mem (be_encode 4) (λ _, 0%nat)).
      assert (sum_list_with (λ _ : Z, 0%nat) containers = 0%nat) as ->
        by (clear; by induction containers).
      done.
  - apply view_node_out; [|apply Hwf]. intros b Hb.
    by rewrite seg_loaded_trim, trim_wf.
Qed.

(** the reader that takes its memory from a segment reads the same tree,
    and uses exactly the memory its nodes and blocks need. *)
Theorem k2tree_roundtrip_seg t pre post seg :
  tm_wf t → seg_ok seg → Z.of_nat (tm_mem t) ≤ available seg →
  ∃ bytes t',
    write_to_ostream t (os_end pre) =
      Ret (u64 (Z.of_nat (length bytes)), os_end (pre ++ bytes)) ∧
    read_from_istream_seg (stream_at pre (bytes ++ post), seg) =
      Ret (t', (stream_at (pre ++ bytes) post, advance (Z.of_nat (tm_mem t)) seg)) ∧
    points_count t' = points_count t ∧ create_k2qw t' = create_k2qw t ∧
    view (Z.to_nat (cut_depth t)) (root t') = view (Z.to_nat (cut_depth t)) (root t).
Proof.
  intros Hwf Hok Hav. destruct (tree_codec_seg t Hwf) as (bytes & t' & He & Hd & Hsame).
  exists bytes, t'. split; [by apply emits_at|]. split; [|exact Hsame].
  apply Hd. split; [by exists pre, post|]. split; [exact Hok|]. split; [exact Hav|done].
Qed.
End k2tree_roundtrip.

(** ** Comparison and copy *)

Lemma mk_node_inj cs ds :
  length cs = 4%nat → length ds = 4%nat → mk_node cs = mk_node ds → cs = ds.
Proof. intros Hc Hd E. by rewrite <-(kids_mk_node cs), <-(kids_mk_node ds), E. Qed.

Lemma view_S_eq l n m :
  k2_wf (S l) n → k2_wf (S l) m →
  view (S l) n = view (S l) m ↔
  ((λ c, option_map (view l) c) <$> kids n) = ((λ c, option_map (view l) c) <$> kids m).
Proof.
  intros (_ & _ & Hn & _)%k2_wf_S (_ & _ & Hm & _)%k2_wf_S. split.
  - intros E. by apply mk_node_inj; rewrite ?length_fmap.
  - intros E. unfold view. cbn [node_out]. unfold view in E. by rewrite E.
Qed.

(** The presence test of the four children. *)
Lemma same_presence cs ds :
  length cs = 4%nat → length ds = 4%nat →
  forallb (λ i, Bool.eqb (has_child cs i) (has_child ds i)) (seq 0 4) =
  bool_decide (present cs = present ds).
Proof.
  intros Hc Hd. simpl. rewrite !has_child_present by lia.
  assert (length (present cs) = 4%nat) as Hp by (unfold present; by rewrite length_fmap).
  assert (length (present ds) = 4%nat) as Hq by (unfold present; by rewrite length_fmap).
  destruct (present cs) as [|a0 [|a1 [|a2 [|a3 []]]]]; try discriminate.
  destruct (present ds) as [|b0 [|b1 [|b2 [|b3 []]]]]; try discriminate. simpl.
  destruct a0, b0, a1, b1, a2, b2, a3, b3; reflexivity.
Qed.

Lemma present_map {f : k2node → k2node} cs :
  present ((λ c, option_map f c) <$> cs) = present cs.
Proof.
  unfold present. rewrite <-list_fmap_compose. apply list_fmap_ext.
  intros i c _. by destruct c.
Qed.

Section same_kids.
Variables (l : nat) (cd cut : Z).
Lemma same_kids_spec cs ds :
  (∀ n m, k2_wf l n → k2_wf l m →
     ∃ r, same_k2node n m cd cut = Ret r ∧ (r = true ↔ view l n = view l m)) →
  Forall (on_child (k2_wf l) True) cs → Forall (on_child (k2_wf l) True) ds →
  present cs = present ds →
  ∃ r, (fix go (l r : list (option k2node)) {struct l} : outcome bool :=
           match l, r with
           | [], [] => Ret true
           | Some x :: l, Some y :: r =>
               s ← same_k2node x y cd cut;
               if negb s then Ret false else go l r
           | None :: l, None :: r => go l r
           | _, _ => Ret false
           end) cs ds = Ret r ∧
    (r = true ↔ ((λ c, option_map (view l) c) <$> cs) =
                ((λ c, option_map (view l) c) <$> ds)).
Proof.
  intros IH Hc. revert ds. induction Hc as [|c cs Hc Hcs IHcs]; intros ds Hd Hp.
  { destruct ds; [|done]. by exists true. }
  destruct ds as [|d ds]; [done|]. inversion Hd as [|?? Hd1 Hds]; subst.
  injection Hp as Hp1 Hp. destruct (IHcs ds Hds Hp) as (r & Hr & Er).
  rewrite !fmap_cons. destruct c as [c|], d as [d|]; try discriminate; simpl in *.
  - destruct (IH c d) as (s & -> & Es); [done..|]. simpl. destruct s; simpl.
    + exists r. split; [done|]. rewrite Er. destruct Es as [Es _]. rewrite (Es eq_refl).
      split; [by intros ->|by intros [= ?]].
    + exists false. split; [done|]. split; [done|]. intros [= E _]. by apply Es.
  - exists r. split; [done|]. rewrite Er. split; [by intros ->|by intros [= ?]].
Qed.
End same_kids.

Lemma same_k2node_spec levels n m cd cut :
  k2_wf levels n → k2_wf levels m → 0 ≤ cd → in_u 32 cut → cd + Z.of_nat levels = cut →
  ∃ r, same_k2node n m cd cut = Ret r ∧ (r = true ↔ view levels n = view levels m).
Proof.
  revert n m cd. induction levels as [|l IH]; intros n m cd Hn Hm H0 Hcut Hcd.
  { destruct n as [| |b], m as [| |b']; try done. destruct Hn as [Hb _], Hm as [Hb' _].
    simpl. rewrite decide_False by lia. simpl.
    destruct (same_blocks_correct b b') as (r & Hr & Er); [by apply block_wf_ok..|].
    exists r. split; [done|]. rewrite Er. split; [by intros ->|by intros [= ?]]. }
  pose proof (view_S_eq _ _ _ Hn Hm) as Hv.
  pose proof (k2_wf_S _ _ Hn) as (En & _ & Ln & Fn).
  pose proof (k2_wf_S _ _ Hm) as (_ & Em & Lm & Fm).
  assert (u32 (cd + 1) = cd + 1) as Hu by (apply u32_id; unfold in_u in *; lia).
  pose proof (same_presence _ _ Ln Lm) as Hsame.
  assert (Hdiff : present (kids n) ≠ present (kids m) →
    (λ c, option_map (view l) c) <$> kids n ≠ (λ c, option_map (view l) c) <$> kids m).
  { intros Hp E. apply Hp. by rewrite <-(@present_map (view l)), E, present_map. }
  destruct En as [->|En].
  - simpl same_k2node. rewrite decide_True by lia. rewrite Em. simpl mbind.
    eexists. split; [done|]. rewrite Hv.
    transitivity (bool_decide (present (kids K2Null) = present (kids m)) = true);
      [by rewrite <-Hsame|].
    rewrite bool_decide_eq_true. split; [|intros E; by apply dec_stable; intros ?%Hdiff].
    clear -Lm. simpl. intros E. destruct (kids m) as [|a0 [|a1 [|a2 [|a3 []]]]]; try discriminate.
    by destruct a0, a1, a2, a3.
  - remember (kids n) as cs eqn:Ecs. clear Ecs. subst n. simpl same_k2node.
    rewrite decide_True by lia. rewrite Em. simpl mbind. simpl in Hsame. rewrite Hsame.
    case_bool_decide as Hp; simpl negb; cbv iota.
    + rewrite Hu. destruct (same_kids_spec l (cd + 1) cut cs (kids m)) as (r & Hr & Er);
        [intros; apply IH; try done; lia|done..|].
      exists r. split; [exact Hr|]. by rewrite Hv.
    + exists false. split; [done|]. split; [done|]. intros ?%Hv. by destruct (Hdiff Hp).
Qed.

(** on trees of the same shape parameters [identical_structure_as] decides
    whether they hold the same nodes and the same blocks. *)
Theorem identical_structure_as_correct t t' :
  tm_wf t → tm_wf t' → cut_depth t' = cut_depth t →
  ∃ r, identical_structure_as t t' = Ret r ∧
    (r = true ↔ view (Z.to_nat (cut_depth t)) (root t) = view (Z.to_nat (cut_depth t)) (root t')).
Proof.
  intros (Hw & _ & _ & Hc & _) (Hw' & _) E. rewrite E in Hw'.
  apply same_k2node_spec; try done. unfold in_u in *. lia.
Qed.

Lemma copy_block_wf b : block_wf b → copy_block_tree b = Ret b.
Proof.
  induction b as [nc cs ch co pr chb IH] using block_ind'.
  inversion 1 as [????????? Hl Fw]; subst. simpl. unfold copy_cells.
  rewrite !decide_True, !Nat2Z.id, !take_ge by done. simpl. rewrite <-Hl.
  match goal with |- context [?g (length chb) chb] => set (go := g) end.
  assert (go (length chb) chb = Ret chb) as ->; [|done].
  clear H Hl. induction IH as [|b k Hb IH IHk]; [done|]. inversion Fw; subst.
  simpl. rewrite Hb by done. simpl. by rewrite IHk.
Qed.

Lemma copy_tree_spec levels n cd cut :
  k2_wf levels n → cd + Z.of_nat levels = cut →
  ∃ n', copy_tree n cut cd = Ret n' ∧ k2_wf levels n' ∧
        view levels n' = view levels n ∧ nodes levels n' = nodes levels n.
Proof.
  revert n cd. induction levels as [|l IH]; intros n cd Hw Hcd.
  { destruct n as [| |b]; try done. exists (K2Leaf b). simpl.
    rewrite decide_False by lia. simpl. by rewrite (copy_block_wf b (proj1 Hw)). }
  pose proof (k2_wf_S _ _ Hw) as (En & _ & Ln & Fn). destruct En as [->|En].
  { exists (K2Node (replicate 4 None)). simpl. rewrite decide_True by lia.
    split_and!; [done..| |done|done]. repeat constructor. }
  remember (kids n) as cs eqn:Ecs. clear Ecs. subst n. simpl copy_tree.
  rewrite decide_True by lia.
  match goal with |- context [?g cs] => set (go := g) end.
  assert (Hgo : ∃ ds, go cs = Ret ds ∧ length ds = length cs ∧
    Forall (on_child (k2_wf l) True) ds ∧
    ((λ c, option_map (view l) c) <$> ds) = ((λ c, option_map (view l) c) <$> cs) ∧
    sumZ (on_child (nodes l) 0 <$> ds) = sumZ (on_child (nodes l) 0 <$> cs)).
  { clear Ln Hw. induction Fn as [|c cs Hc Hk IHk]; [by exists []|].
    destruct IHk as (ds & Hds & Lds & Fds & Vds & Nds). destruct c as [c|]; simpl.
    - destruct (IH c (cd + 1) Hc) as (c' & -> & Wc & Vc & Nc); [lia|]. simpl.
      rewrite Hds. simpl. exists (Some c' :: ds). rewrite !fmap_cons, !sumZ_cons. simpl.
      rewrite Vc, Vds, Nc, Nds, Lds. split_and!; [done..|by constructor|done|done].
    - rewrite Hds. simpl. exists (None :: ds). rewrite !fmap_cons, !sumZ_cons. simpl.
      rewrite Vds, Nds, Lds. split_and!; [done..|by constructor|done|done]. }
  destruct Hgo as (ds & -> & Lds & Fds & Vds & Nds). exists (K2Node ds). simpl.
  split_and!; [done..|congruence|done| |by rewrite Nds].
  unfold view in *. cbn [node_out kids]. by rewrite Vds.
Qed.

(** a copied tree has the same fields, and [identical_structure_as] tells it
    from its original in nothing. *)
Theorem copy_identical t :
  tm_wf t → cut_depth t < 2 ^ 31 →
  ∃ t', copy_K2TreeMixed t = Ret t' ∧ tm_wf t' ∧
    points_count t' = points_count t ∧ create_k2qw t' = create_k2qw t ∧
    identical_structure_as t t' = Ret true.
Proof.
  intros Hwf H31. pose proof Hwf as (Hw & Hpc & Htd & Hcut & Hmx & Hn).
  destruct (copy_tree_spec (Z.to_nat (cut_depth t)) (root t) 0 (cut_depth t) Hw)
    as (n' & Hc & Hw' & Hv & Hn'); [unfold in_u in *; lia|].
  exists (mkTree n' (points_count t) (tree_depth t) (cut_depth t) (max_nodes_count t)).
  assert (E : s32 (cut_depth t) = cut_depth t) by (apply to_signed_nonneg; unfold in_u in *; lia).
  unfold copy_K2TreeMixed. rewrite E, Hc. split_and!; [done| |done|done|].
  - split_and!; simpl; try done. lia.
  - destruct (identical_structure_as_correct t (mkTree n' (points_count t) (tree_depth t)
      (cut_depth t) (max_nodes_count t))) as (r & -> & Er); [done| |done|].
    { split_and!; simpl; try done. lia. }
    f_equal. by apply Er.
Qed.

(** ** The points of a tree *)

Definition in_coords (st : K2QStateWrapper) (p : Z * Z) : Prop :=
  0 ≤ p.1 < 2 ^ st_tree_depth st ∧ 0 ≤ p.2 < 2 ^ st_tree_depth st.
#[export] Instance in_coords_dec st p : Decision (in_coords st p).
Proof. unfold in_coords. apply _. Defined.

(** The documented behaviour of the library, on trees its own operations
    built ([k2_valid]) and coordinates below two to the tree depth. *)
Class K2LibLaws `{K2Lib} := {
  k2_valid : K2QStateWrapper → k2node → Prop;
  create_null : create_k2node = K2Null;
  valid_null st : k2_valid st K2Null;
  scan_null st : k2node_naive_scan_points st K2Null = [];
  scan_NoDup st n : k2_valid st n → NoDup (k2node_naive_scan_points st n);
  scan_range st n : k2_valid st n → Forall (in_coords st) (k2node_naive_scan_points st n);
  insert_law st n c r : k2_valid st n → in_coords st (c, r) →
    ∃ n', k2node_insert_point st n c r =
            (n', bool_decide ((c, r) ∈ k2node_naive_scan_points st n)) ∧ k2_valid st n' ∧
          ∀ p, p ∈ k2node_naive_scan_points st n' ↔
               p = (c, r) ∨ p ∈ k2node_naive_scan_points st n;
  delete_law st n c r : k2_valid st n → in_coords st (c, r) →
    ∃ n', k2node_delete_point st n c r =
            (n', bool_decide ((c, r) ∉ k2node_naive_scan_points st n)) ∧ k2_valid st n' ∧
          ∀ p, p ∈ k2node_naive_scan_points st n' ↔
               p ≠ (c, r) ∧ p ∈ k2node_naive_scan_points st n;
  has_law st n c r : k2_valid st n → in_coords st (c, r) →
    k2node_has_point st n c r = bool_decide ((c, r) ∈ k2node_naive_scan_points st n);
  interactive_law st n : k2_valid st n →
    ∃ l, k2node_scan_points_interactively st n = (l, 0) ∧
         l ≡ₚ k2node_naive_scan_points st n;
  row_law st n r : k2_valid st n → 0 ≤ r < 2 ^ st_tree_depth st →
    ∃ l, k2node_report_row_interactively st n r = (l, 0) ∧
         l ≡ₚ filter (λ p, p.2 = r) (k2node_naive_scan_points st n);
  column_law st n c : k2_valid st n → 0 ≤ c < 2 ^ st_tree_depth st →
    ∃ l, k2node_report_column_interactively st n c = (l, 0) ∧
         l ≡ₚ filter (λ p, p.1 = c) (k2node_naive_scan_points st n);
  lazy_scan_law st n : k2_valid st n →
    let h := k2node_naive_scan_points_lazy_init st n in
    ∃ l, enumerates scan_has_next k2node_naive_scan_points_lazy_next
           k2node_naive_scan_points_lazy_reset h h l ∧
         l ≡ₚ k2node_naive_scan_points st n;
  lazy_row_law st n r : k2_valid st n → 0 ≤ r < 2 ^ st_tree_depth st →
    let h := k2node_report_row_lazy_init st n r in
    ∃ l, enumerates band_has_next k2node_report_band_next k2node_report_band_reset h h l ∧
         ((λ c, (c, r)) <$> l) ≡ₚ filter (λ p, p.2 = r) (k2node_naive_scan_points st n);
  lazy_column_law st n c : k2_valid st n → 0 ≤ c < 2 ^ st_tree_depth st →
    let h := k2node_report_column_lazy_init st n c in
    ∃ l, enumerates band_has_next k2node_report_band_next k2node_report_band_reset h h l ∧
         ((λ r, (c, r)) <$> l) ≡ₚ filter (λ p, p.1 = c) (k2node_naive_scan_points st n);
  (* only the cells in use matter *)
  view_law st n n' : k2_valid st n →
    view (Z.to_nat (st_cut_depth st)) n = view (Z.to_nat (st_cut_depth st)) n' →
    k2_valid st n' ∧ k2node_naive_scan_points st n' = k2node_naive_scan_points st n
}.

Section points.
Context `{K2LibLaws}.

Definition pts (t : K2TreeMixed) : gset (Z * Z) := list_to_set (get_all_points t).

(** The tree is one the library built, and the counter counts its points. *)
Definition tm_ok (t : K2TreeMixed) : Prop :=
  k2_valid (create_k2qw t) (root t) ∧ points_count t = u64 (Z.of_nat (base.size (pts t))).

Lemma elem_of_pts t p : p ∈ pts t ↔ p ∈ get_all_points t.
Proof. apply elem_of_list_to_set. Qed.

Lemma get_all_points_perm t : tm_ok t → get_all_points t ≡ₚ elements (pts t).
Proof.
  intros [Hv _]. symmetry. apply elements_list_to_set, scan_NoDup, Hv.
Qed.

Lemma new_tree_ok config :
  tm_ok (new_K2TreeMixed config) ∧ pts (new_K2TreeMixed config) = ∅.
Proof.
  unfold tm_ok, pts, get_all_points, new_K2TreeMixed. simpl.
  rewrite create_null, scan_null. split; [split; [apply valid_null|done]|done].
Qed.

(** What an insertion and a removal do to the set of points and the counter. *)
Lemma insert_spec col row t :
  tm_ok t → in_coords (create_k2qw t) (col, row) →
  let '(was_inserted, t') := insert_was_inserted col row t in
  tm_ok t' ∧ create_k2qw t' = create_k2qw t ∧
  was_inserted = bool_decide ((col, row) ∉ pts t) ∧ pts t' = {[ (col, row) ]} ∪ pts t.
Proof.
  intros [Hv Hc] Hr. unfold insert_was_inserted, insert_was_inserted_with.
  destruct (insert_law _ _ _ _ Hv Hr) as (n' & -> & Hv' & Hp).
  set (t' := set_root t n' _).
  assert (Hpts : pts t' = {[ (col, row) ]} ∪ pts t).
  { apply set_eq. intros p. rewrite elem_of_union, elem_of_singleton, !elem_of_pts.
    apply Hp. }
  split_and!; [split; [exact Hv'|]|done| |exact Hpts].
  - rewrite Hpts. simpl. rewrite Hc. case_bool_decide as E.
    + apply elem_of_pts in E. do 3 f_equal. set_solver.
    + assert (E' : (col, row) ∉ pts t) by (rewrite elem_of_pts; exact E).
      rewrite u64_add_l. f_equal. rewrite size_union, size_singleton; [lia|set_solver].
  - rewrite <-bool_decide_not. apply bool_decide_ext. by rewrite elem_of_pts.
Qed.

Lemma remove_spec col row t :
  tm_ok t → in_coords (create_k2qw t) (col, row) →
  let t' := remove col row t in
  tm_ok t' ∧ create_k2qw t' = create_k2qw t ∧ pts t' = pts t ∖ {[ (col, row) ]}.
Proof.
  intros [Hv Hc] Hr. unfold remove, remove_with.
  destruct (delete_law _ _ _ _ Hv Hr) as (n' & -> & Hv' & Hp). cbv zeta.
  set (t' := set_root t n' _).
  assert (Hpts : pts t' = pts t ∖ {[ (col, row) ]}).
  { apply set_eq. intros p. rewrite elem_of_difference, elem_of_singleton, !elem_of_pts.
    specialize (Hp p).
    change (p ∈ get_all_points t' ↔ p ≠ (col, row) ∧ p ∈ get_all_points t) in Hp. tauto. }
  split_and!; [split; [exact Hv'|]|done|exact Hpts].
  rewrite Hpts. simpl. rewrite Hc. case_bool_decide as E.
  - assert (E' : (col, row) ∉ pts t) by (rewrite elem_of_pts; exact E).
    do 3 f_equal. set_solver.
  - assert (E' : (col, row) ∈ pts t) by (apply elem_of_pts, E).
    unfold Z.sub. rewrite u64_add_l. f_equal. rewrite size_difference, size_singleton by set_solver.
    assert (base.size (pts t) ≠ 0%nat); [|lia]. intros Hz%size_empty_inv. set_solver.
Qed.

Lemma has_spec col row t :
  tm_ok t → in_coords (create_k2qw t) (col, row) →
  has col row t = bool_decide ((col, row) ∈ pts t).
Proof.
  intros [Hv _] Hr. unfold has, has_with. rewrite has_law by done.
  apply bool_decide_ext. by rewrite elem_of_pts.
Qed.

(** The traversals call the reporter once per point (of the row, of the
    column), in some order, and do not throw. *)
Lemma scan_points_spec {S} t (f : S → Z * Z → S) s :
  tm_ok t → ∃ l, l ≡ₚ elements (pts t) ∧ scan_points t f s = Ret (fold_left f l s).
Proof.
  intros Hok. destruct (interactive_law _ _ (proj1 Hok)) as (l & Hl & Hp).
  exists l. split; [by rewrite Hp, <-get_all_points_perm|].
  unfold scan_points, report. by rewrite Hl.
Qed.
Lemma traverse_row_spec {S} t row (f : S → Z * Z → S) s :
  tm_ok t → 0 ≤ row < 2 ^ tree_depth t →
  ∃ l, l ≡ₚ filter (λ p, p.2 = row) (elements (pts t)) ∧
       traverse_row t row f s = Ret (fold_left f l s).
Proof.
  intros Hok Hr. destruct (row_law (create_k2qw t) _ row (proj1 Hok) Hr) as (l & Hl & Hp).
  exists l. split; [by rewrite Hp, <-get_all_points_perm|].
  unfold traverse_row, report. by rewrite Hl.
Qed.
Lemma traverse_column_spec {S} t column (f : S → Z * Z → S) s :
  tm_ok t → 0 ≤ column < 2 ^ tree_depth t →
  ∃ l, l ≡ₚ filter (λ p, p.1 = column) (elements (pts t)) ∧
       traverse_column t column f s = Ret (fold_left f l s).
Proof.
  intros Hok Hr. destruct (column_law (create_k2qw t) _ column (proj1 Hok) Hr) as (l & Hl & Hp).
  exists l. split; [by rewrite Hp, <-get_all_points_perm|].
  unfold traverse_column, report. by rewrite Hl.
Qed.

(** A client's view of a tree: a set of points. *)
Inductive tree_op := OpInsert (col row : Z) | OpRemove (col row : Z).
Definition op_point (o : tree_op) : Z * Z :=
  match o with OpInsert c r | OpRemove c r => (c, r) end.
Definition run_op (t : K2TreeMixed) (o : tree_op) : K2TreeMixed :=
  match o with OpInsert c r => insert c r t | OpRemove c r => remove c r t end.
Definition spec_op (s : gset (Z * Z)) (o : tree_op) : gset (Z * Z) :=
  match o with OpInsert c r => {[ (c, r) ]} ∪ s | OpRemove c r => s ∖ {[ (c, r) ]} end.

Lemma run_ops_spec ops t :
  tm_ok t → Forall (λ o, in_coords (create_k2qw t) (op_point o)) ops →
  let t' := fold_left run_op ops t in
  tm_ok t' ∧ create_k2qw t' = create_k2qw t ∧ pts t' = fold_left spec_op ops (pts t).
Proof.
  intros Hok Hops. revert t Hok Hops. induction ops as [|o ops IH]; intros t Hok Hops; [done|].
  inversion Hops as [|?? Ho Hops']; subst. simpl.
  assert (tm_ok (run_op t o) ∧ create_k2qw (run_op t o) = create_k2qw t ∧
          pts (run_op t o) = spec_op (pts t) o) as (H1 & H2 & H3).
  { destruct o as [c r|c r]; simpl in *.
    - unfold insert, insert_with. pose proof (insert_spec c r t Hok Ho) as Hi.
      unfold insert_was_inserted in Hi. by destruct (insert_was_inserted_with _ _ _ _);
        destruct Hi as (? & ? & _ & ?).
    - by apply remove_spec. }
  destruct (IH (run_op t o) H1) as (? & ? & ?); [by rewrite H2|].
  split_and!; [done|congruence|congruence].
Qed.

Lemma spec_removes (l : list (Z * Z)) s :
  fold_left spec_op ((λ p, OpRemove p.1 p.2) <$> l) s = s ∖ list_to_set l.
Proof.
  revert s. induction l as [|[c r] l IH]; intros s; simpl; [set_solver|]. rewrite IH. set_solver.
Qed.
Lemma spec_inserts (l : list (Z * Z)) s :
  fold_left spec_op ((λ p, OpInsert p.1 p.2) <$> l) s = s ∪ list_to_set l.
Proof.
  revert s. induction l as [|[c r] l IH]; intros s; simpl; [set_solver|]. rewrite IH. set_solver.
Qed.

(** Two trees with the same contents have the same points. *)
Lemma tm_ok_view t t' :
  tm_ok t → points_count t' = points_count t → create_k2qw t' = create_k2qw t →
  view (Z.to_nat (cut_depth t)) (root t') = view (Z.to_nat (cut_depth t)) (root t) →
  tm_ok t' ∧ pts t' = pts t.
Proof.
  intros [Hv Hc] Hpc Hq Hw.
  destruct (view_law (create_k2qw t) (root t) (root t')) as [Hv' Hs]; [done|by simpl; rewrite Hw|].
  assert (Hp : pts t' = pts t)
    by (unfold pts, get_all_points; by rewrite Hq, Hs).
  split; [|done]. split; [by rewrite Hq|]. by rewrite Hp, Hpc.
Qed.
End points.

(** ** A concrete library

    The points of a tree are kept in one block, below as many levels of first
    children as the cut depth asks. *)
Module Toy.
Fixpoint wrap (levels : nat) (n : k2node) : k2node :=
  match levels with
  | O => n
  | S l => K2Node [Some (wrap l n); None; None; None]
  end.
Definition pack (l : list (Z * Z)) : k2node :=
  K2Leaf (Block 0 (2 * Z.of_nat (length l)) 0 (l ≫= λ p, [p.1; p.2]) [] []).
Fixpoint pairs (l : list Z) : list (Z * Z) :=
  match l with c :: r :: l => (c, r) :: pairs l | _ => [] end.
Definition unpack (n : k2node) : list (Z * Z) :=
  match n with
  | K2Leaf b => pairs (take (Z.to_nat (container_size b)) (container b))
  | _ => []
  end.
Fixpoint unwrap (levels : nat) (n : k2node) : list (Z * Z) :=
  match levels with
  | O => unpack n
  | S l => match kids n with Some c :: _ => unwrap l c | _ => [] end
  end.

Definition levels (st : K2QStateWrapper) : nat := Z.to_nat (st_cut_depth st).
Definition points (st : K2QStateWrapper) (n : k2node) : list (Z * Z) :=
  unwrap (levels st) n.
Definition store (st : K2QStateWrapper) (l : list (Z * Z)) : k2node :=
  wrap (levels st) (pack l).

Definition toy_k2_lib : K2Lib := {|
  create_k2node := K2Null;
  k2node_insert_point st n c r :=
    if decide ((c, r) ∈ points st n) then (n, true)
    else (store st (points st n ++ [(c, r)]), false);
  k2node_delete_point st n c r :=
    if decide ((c, r) ∈ points st n)
    then (store st (filter (λ p, p ≠ (c, r)) (points st n)), false) else (n, true);
  k2node_has_point st n c r := bool_decide ((c, r) ∈ points st n);
  k2node_naive_scan_points := points;
  k2node_scan_points_interactively st n := (points st n, 0);
  k2node_report_row_interactively st n r := (filter (λ p, p.2 = r) (points st n), 0);
  k2node_report_column_interactively st n c := (filter (λ p, p.1 = c) (points st n), 0);
  debug_validate_k2node_rec st n := 0;
  k2node_measure_tree_size n d := Z.of_nat (@node_mem toy_block_lib (Z.to_nat d) n);
  lazy_scan := list (Z * Z) * list (Z * Z);
  k2node_naive_scan_points_lazy_init st n := (points st n, points st n);
  scan_has_next h := bool_decide (h.2 ≠ []);
  k2node_naive_scan_points_lazy_next h := (hd (0, 0) h.2, (h.1, tl h.2));
  k2node_naive_scan_points_lazy_reset h := (h.1, h.1);
  lazy_band := list Z * list Z;
  k2node_report_column_lazy_init st n c :=
    let l := (filter (λ p, p.1 = c) (points st n)).*2 in (l, l);
  k2node_report_row_lazy_init st n r :=
    let l := (filter (λ p, p.2 = r) (points st n)).*1 in (l, l);
  band_has_next h := bool_decide (h.2 ≠ []);
  k2node_report_band_next h := (hd 0 h.2, (h.1, tl h.2));
  k2node_report_band_reset h := (h.1, h.1)
|}.

Lemma pairs_pack l : pairs (l ≫= λ p, [p.1; p.2]) = l.
Proof. induction l as [|[c r] l IH]; [done|]. rewrite bind_cons. simpl. by rewrite IH. Qed.

Lemma points_store st l : points st (store st l) = l.
Proof.
  unfold points, store. induction (levels st) as [|k IH]; [|done]. simpl.
  rewrite take_ge; [apply pairs_pack|].
  rewrite Nat2Z.inj_le, Z2Nat.id by lia.
  induction l as [|p l IH]; [done|]. rewrite bind_cons, length_app.
  change (length (p :: l)) with (S (length l)). simpl length at 1. lia.
Qed.

Lemma enumerates_list {A} (d : A) (all : list A) rest :
  enumerates (λ h : list A * list A, bool_decide (h.2 ≠ []))
    (λ h, (hd d h.2, (h.1, tl h.2))) (λ h, (h.1, h.1)) (all, all) (all, rest) rest.
Proof. induction rest; econstructor; done. Qed.

Lemma take_length_take {A} k (l : list A) : take (length (take k l)) l = take k l.
Proof.
  rewrite length_take. destruct (decide (k ≤ length l)%nat).
  - by rewrite Nat.min_l by lia.
  - by rewrite Nat.min_r, !take_ge by lia.
Qed.

Lemma view_points l n n' : view l n = view l n' → unwrap l n = unwrap l n'.
Proof.
  revert n n'. induction l as [|l IH]; intros n n' Hv; cbn [unwrap view].
  - unfold view in Hv. cbn [node_out] in Hv.
    destruct n as [|cs|b], n' as [|cs'|b']; try done.
    injection Hv as Hb. destruct b, b'. simpl in *. injection Hb as _ -> _ -> _ _. done.
  - assert (Hk : ∀ m, (∃ c ds, kids (view (S l) m) = Some (view l c) :: ds ∧
               unwrap (S l) m = unwrap l c) ∨
             (∀ c ds, kids (view (S l) m) ≠ Some c :: ds) ∧ unwrap (S l) m = []).
    { intros m. unfold view. cbn [node_out unwrap].
      destruct (kids m) as [|[c|] cs] eqn:Ek.
      - right. split; [|done]. unfold mk_node. by rewrite decide_True.
      - left. exists c. eexists. unfold mk_node. rewrite decide_False; [done|].
        rewrite fmap_cons, Forall_cons. simpl. naive_solver.
      - right. split; [|done]. intros c ds. unfold mk_node. case_decide; simpl; done. }
    pose proof (Hk n) as H1. pose proof (Hk n') as H2. rewrite Hv in H1.
    cbn [unwrap] in H1, H2.
    destruct H1 as [(c & ds & E1 & ->)|[N1 ->]], H2 as [(c' & ds' & E2 & ->)|[N2 ->]].
    + rewrite E1 in E2. injection E2 as E2 _. by apply IH.
    + by destruct (N2 _ _ E1).
    + by destruct (N1 _ _ E2).
    + done.
Qed.

Definition valid (st : K2QStateWrapper) (n : k2node) : Prop :=
  NoDup (points st n) ∧ Forall (in_coords st) (points st n).

Lemma points_null st : points st K2Null = [].
Proof. unfold points. by destruct (levels st). Qed.

Lemma band_pairs {A B C} (f : A → B) (g : B → C) (h : A → C) (P : A → Prop)
    `{!∀ x, Decision (P x)} (l : list A) :
  (∀ x, P x → g (f x) = h x) → (g <$> (f <$> filter P l)) = h <$> filter P l.
Proof.
  intros Hg. rewrite <-list_fmap_compose. apply list_fmap_ext.
  intros i x Hx. apply Hg. apply list_elem_of_lookup_2, list_elem_of_filter in Hx. tauto.
Qed.

#[refine, global] Instance toy_k2_laws : @K2LibLaws toy_k2_lib := {| k2_valid := valid |}.
Proof.
  - done.
  - intros st. unfold valid. rewrite points_null. split; constructor.
  - intros st. apply points_null.
  - by intros st n [? _].
  - by intros st n [_ ?].
  - intros st n c r [Hn Hf] Hr. simpl. case_decide as E.
    + exists n. rewrite bool_decide_true by done. split_and!; [done..|]. naive_solver.
    + eexists. rewrite bool_decide_false by done. split; [done|]. unfold valid.
      rewrite points_store. split.
      * split; [|by apply Forall_app_2; [|constructor]].
        apply NoDup_app. split_and!; [done| |apply NoDup_singleton]. set_solver.
      * intros p. set_solver.
  - intros st n c r [Hn Hf] Hr. simpl. case_decide as E.
    + eexists. rewrite bool_decide_false by tauto. split; [done|]. unfold valid.
      rewrite points_store. split.
      * split; [by apply NoDup_filter|]. apply Forall_forall.
        intros p [_ Hp]%list_elem_of_filter. rewrite Forall_forall in Hf. by apply Hf.
      * intros p. rewrite list_elem_of_filter. done.
    + exists n. rewrite bool_decide_true by done. split_and!; [done..|].
      intros p. split; [|tauto]. intros Hp. split; [|done]. by intros ->.
  - done.
  - intros st n _. by eexists.
  - intros st n r _ _. by eexists.
  - intros st n r _ _. by eexists.
  - intros st n _. eexists. split; [apply (enumerates_list (0, 0))|done].
  - intros st n r _ _. eexists. split; [apply (enumerates_list 0)|].
    simpl. rewrite (band_pairs _ _ id); [by rewrite list_fmap_id|].
    by intros [c r'] ?; simpl in *; subst.
  - intros st n r _ _. eexists. split; [apply (enumerates_list 0)|].
    simpl. rewrite (band_pairs _ _ id); [by rewrite list_fmap_id|].
    by intros [c r'] ?; simpl in *; subst.
  - intros st n n' Hv Hw. assert (points st n' = points st n) as E
      by (symmetry; by apply view_points).
    unfold valid. simpl. by rewrite E.
Defined.
End Toy.

Section refinement.
Context `{K2LibLaws}.

(** C6: whatever points are inserted into and removed from a new tree, its
    queries, its scan and its counter answer as the set of points does. *)
Theorem tree_is_point_set config ops :
  Forall (λ o, in_coords (create_k2qw (new_K2TreeMixed config)) (op_point o)) ops →
  let t := fold_left run_op ops (new_K2TreeMixed config) in
  let s := fold_left spec_op ops ∅ in
  size t = u64 (Z.of_nat (base.size s)) ∧
  get_all_points t ≡ₚ elements s ∧
  (∀ c r, in_coords (create_k2qw t) (c, r) → has c r t = bool_decide ((c, r) ∈ s)) ∧
  (∃ l, l ≡ₚ elements s ∧ scan_points t (λ acc p, acc ++ [p]) [] = Ret l).
Proof.
  intros Hops. cbv zeta. destruct (new_tree_ok config) as [Hok Hp0].
  destruct (run_ops_spec ops _ Hok Hops) as (Hok' & Hq & Hp). rewrite Hp0 in Hp.
  rewrite <-Hp. split_and!.
  - apply Hok'.
  - by apply get_all_points_perm.
  - intros c r Hr. by apply has_spec.
  - destruct (scan_points_spec (fold_left run_op ops (new_K2TreeMixed config))
      (λ acc p, acc ++ [p]) [] Hok') as (l & Hl & Hs).
    exists l. split; [done|]. rewrite Hs. f_equal. clear.
    apply (fold_left_snoc l []).
Qed.
End refinement.

(** ** Instances of the theorems on a concrete tree *)
Section witnesses.
#[local] Existing Instance toy_block_lib.
#[local] Existing Instance toy_block_laws.
#[local] Existing Instance Toy.toy_k2_lib.

Definition toy_tree : K2TreeMixed :=
  mkTree (Toy.wrap 1 (Toy.pack [(3, 5); (7, 2)])) 2 8 1 256.

Lemma toy_pack_wf : k2_wf 0 (Toy.pack [(3, 5); (7, 2)]).
Proof.
  split; [|computed].
  apply (Block_wf 0 [3; 5; 7; 2] [] []);
    repeat constructor; unfold in_u; simpl; lia.
Qed.
Lemma toy_tree_wf : tm_wf toy_tree.
Proof.
  unfold tm_wf. split.
  { split; [done|]. split; [done|]. apply Forall_cons. split; [exact toy_pack_wf|].
    repeat constructor. }
  computed.
Qed.

Lemma k2tree_roundtrip_witness :
  ∃ bytes t',
    write_to_ostream toy_tree (os_end [9]) =
      Ret (u64 (Z.of_nat (length bytes)), os_end ([9] ++ bytes)) ∧
    read_from_istream (stream_at [9] (bytes ++ [1])) =
      Ret (t', stream_at ([9] ++ bytes) [1]) ∧
    points_count t' = points_count toy_tree ∧ create_k2qw t' = create_k2qw toy_tree ∧
    view (Z.to_nat (cut_depth toy_tree)) (root t') =
      view (Z.to_nat (cut_depth toy_tree)) (root toy_tree).
Proof.
  apply (@k2tree_roundtrip toy_block_lib toy_block_laws Toy.toy_k2_lib);
    [reflexivity|exact toy_tree_wf].
Defined.

Lemma k2tree_roundtrip_seg_witness :
  ∃ bytes t',
    write_to_ostream toy_tree (os_end []) =
      Ret (u64 (Z.of_nat (length bytes)), os_end ([] ++ bytes)) ∧
    read_from_istream_seg (stream_at [] (bytes ++ []), new_segment 4096 1000) =
      Ret (t', (stream_at ([] ++ bytes) [],
                advance (Z.of_nat (tm_mem toy_tree)) (new_segment 4096 1000))) ∧
    points_count t' = points_count toy_tree ∧ create_k2qw t' = create_k2qw toy_tree ∧
    view (Z.to_nat (cut_depth toy_tree)) (root t') =
      view (Z.to_nat (cut_depth toy_tree)) (root toy_tree).
Proof.
  apply k2tree_roundtrip_seg.
  - exact toy_tree_wf.
  - computed.
  - vm_compute. discriminate.
Defined.

Lemma identical_structure_as_correct_witness :
  ∃ r, identical_structure_as toy_tree toy_tree = Ret r ∧
    (r = true ↔ view 1 (root toy_tree) = view 1 (root toy_tree)).
Proof. apply (identical_structure_as_correct toy_tree toy_tree);
  [exact toy_tree_wf..|reflexivity]. Defined.

Lemma copy_identical_witness :
  ∃ t', copy_K2TreeMixed toy_tree = Ret t' ∧ tm_wf t' ∧
    points_count t' = points_count toy_tree ∧
    create_k2qw t' = create_k2qw toy_tree ∧
    identical_structure_as toy_tree t' = Ret true.
Proof. apply copy_identical; [exact toy_tree_wf|reflexivity]. Defined.

Lemma tree_is_point_set_witness :
  let t := fold_left run_op [OpInsert 3 5; OpInsert 3 5; OpInsert 7 2; OpRemove 3 5]
             (new_K2TreeMixed (mkConfig 8 256 1)) in
  let s := fold_left spec_op [OpInsert 3 5; OpInsert 3 5; OpInsert 7 2; OpRemove 3 5] ∅ in
  size t = u64 (Z.of_nat (base.size s)) ∧
  get_all_points t ≡ₚ elements s ∧
  (∀ c r, in_coords (create_k2qw t) (c, r) → has c r t = bool_decide ((c, r) ∈ s)) ∧
  (∃ l, l ≡ₚ elements s ∧ scan_points t (λ acc p, acc ++ [p]) [] = Ret l).
Proof.
  apply (tree_is_point_set (mkConfig 8 256 1)).
  repeat (apply Forall_cons; split; [computed|]).
  by apply Forall_nil.
Defined.
End witnesses.
