(* ===== verification/Scanners.v ===== *)
(** * core/k2tree: triples, tree scanners and bulk operations

    A [K2TreeScanner] enumerates the points of a tree lazily: all of them
    (FullScanner), those of a row or a column (BandScanner), none (EmptyScanner),
    or it stands for a predicate without a tree (NullScanner). [Scanner] is the
    interface clients use, here and in the caches of Fic.v, with its contract
    [delivers]. *)
From S2P Require Import Prelude Streams Memory Blocks K2Tree.

Local Open Scope Z_scope.

(** ** core/k2tree/RDFTriple.hpp *)

Record RDFTriple := mkTriple { subject : Z; predicate : Z; object : Z }.
#[export] Instance RDFTriple_eq_dec : EqDecision RDFTriple.
Proof. solve_decision. Defined.

(** [operator==], [operator<] and the hash. *)
Definition triple_eqb (x y : RDFTriple) : bool :=
  bool_decide (subject x = subject y) && bool_decide (predicate x = predicate y) &&
  bool_decide (object x = object y).
Definition triple_ltb (x y : RDFTriple) : bool :=
  if decide (subject x ≠ subject y) then subject x <? subject y
  else if decide (predicate x ≠ predicate y) then predicate x <? predicate y
  else object x <? object y.
Definition get_hash (k : RDFTriple) : Z :=
  Z.lxor (Z.lxor (subject k) (predicate k)) (object k).

(** The kinds of RDF terms, here and in the protocol messages. *)
Inductive RDFResourceType :=
  | RDF_TYPE_IRI | RDF_TYPE_BLANK | RDF_TYPE_LITERAL | NULL_RESOURCE_TYPE.
#[export] Instance RDFResourceType_eq_dec : EqDecision RDFResourceType.
Proof. solve_decision. Defined.
Inductive TermType :=
  | T_IRI | T_BLANK_NODE | T_LITERAL | T_UNKNOWN_TERM_TYPE | T_other (n : Z).

Definition select_type_from_proto (t : TermType) : outcome RDFResourceType :=
  match t with
  | T_BLANK_NODE => Ret RDF_TYPE_BLANK
  | T_IRI => Ret RDF_TYPE_IRI
  | T_LITERAL => Ret RDF_TYPE_LITERAL
  | _ => Throw RuntimeError
  end.
Definition get_proto_type (r : RDFResourceType) : TermType :=
  match r with
  | RDF_TYPE_IRI => T_IRI
  | RDF_TYPE_BLANK => T_BLANK_NODE
  | RDF_TYPE_LITERAL => T_LITERAL
  | NULL_RESOURCE_TYPE => T_UNKNOWN_TERM_TYPE
  end.

(** Strings are the bytes of a [std::string]. *)
Record RDFResource := mkResource { value : list Z; resource_type : RDFResourceType }.
#[export] Instance RDFResource_eq_dec : EqDecision RDFResource.
Proof. solve_decision. Defined.
Definition null_resource : RDFResource := mkResource [] NULL_RESOURCE_TYPE.
Definition is_null (r : RDFResource) : bool :=
  bool_decide (resource_type r = NULL_RESOURCE_TYPE).

Record RDFTripleResource := mkTripleResource {
  r_subject : RDFResource; r_predicate : RDFResource; r_object : RDFResource
}.

(** ** The scanner interface *)

(** [has_next] may move the scanner (CachedSubjectObjectScanner does). *)
Class Scanner (T : Type) := {
  sc_has_next : T → outcome (bool * T);
  sc_next : T → outcome ((Z * Z) * T)
}.

(** The contract: the sequence of points a scanner hands out. *)
Inductive delivers `{Scanner T} : T → list (Z * Z) → Prop :=
  | delivers_nil s s' : sc_has_next s = Ret (false, s') → delivers s []
  | delivers_cons s s1 s2 p l :
      sc_has_next s = Ret (true, s1) → sc_next s1 = Ret (p, s2) →
      delivers s2 l → delivers s (p :: l).

(** [while (scanner.has_next()) body(scanner.next())]. *)
Fixpoint while_scan `{Scanner T} {A} (fuel : nat) (body : A → Z * Z → outcome A)
    (acc : A) (s : T) : outcome (option A) :=
  match fuel with
  | O => Ret None
  | S fuel =>
      '(b, s) ← sc_has_next s;
      if (b : bool) then
        '(p, s) ← sc_next s;
        acc ← body acc p;
        while_scan fuel body acc s
      else Ret (Some acc)
  end.

Section scanner.
Context `{Scanner T}.

(** The loop terminates, and folds its body over what is delivered. *)
Lemma while_scan_delivers {A} (body : A → Z * Z → outcome A) acc s l fuel :
  delivers s l → (length l < fuel)%nat →
  while_scan fuel body acc s = Some <$> foldM body acc l.
Proof.
  intros Hd. revert acc fuel.
  induction Hd as [s s' Hn|s s1 s2 p l Hn Hx Hd IH]; intros acc fuel Hf;
    (destruct fuel as [|fuel]; [simpl in Hf; lia|]); simpl; rewrite Hn; simpl; [done|].
  rewrite Hx. simpl. destruct (body acc p); simpl; [|done..]. apply IH. simpl in Hf. lia.
Qed.

Lemma delivers_functional s l l' : delivers s l → delivers s l' → l = l'.
Proof.
  intros Hd. revert l'. induction Hd as [s s' Hn|s s1 s2 p l Hn Hx Hd IH];
    inversion 1; subst; try congruence. f_equal; [congruence|].
  apply IH. congruence.
Qed.
End scanner.

Lemma foldM_ret {A B} (f : A → B → A) acc l :
  foldM (λ a x, Ret (f a x)) acc l = Ret (fold_left f l acc).
Proof. revert acc. induction l as [|x l IH]; intros acc; simpl; [done|]. apply IH. Qed.

(** ** The scanners of a tree *)

Inductive BandType := COLUMN_BAND_TYPE | ROW_BAND_TYPE.
#[export] Instance BandType_eq_dec : EqDecision BandType.
Proof. solve_decision. Defined.

Section tree_scanners.
Context `{K2Lib}.

(** A scanner refers to its tree, which must not change while it scans. *)
Inductive K2TreeScanner :=
  | FullScanner (k2tree : K2TreeMixed) (lazy_handler : lazy_scan)
  | BandScanner (k2tree : K2TreeMixed) (band : Z) (band_type : BandType)
      (lazy_handler : lazy_band)
  | EmptyScanner (k2tree : K2TreeMixed)
  | NullScanner.

Definition create_full_scanner (t : K2TreeMixed) : K2TreeScanner :=
  FullScanner t (k2node_naive_scan_points_lazy_init (create_k2qw t) (root t)).
Definition create_band_scanner (band : Z) (band_type : BandType) (t : K2TreeMixed)
    : K2TreeScanner :=
  BandScanner t band band_type
    (if decide (band_type = COLUMN_BAND_TYPE)
     then k2node_report_column_lazy_init (create_k2qw t) (root t) band
     else k2node_report_row_lazy_init (create_k2qw t) (root t) band).
Definition create_empty_scanner (t : K2TreeMixed) : K2TreeScanner := EmptyScanner t.

Definition has_next (s : K2TreeScanner) : bool :=
  match s with
  | FullScanner _ h => scan_has_next h
  | BandScanner _ _ _ h => band_has_next h
  | EmptyScanner _ | NullScanner => false
  end.

Definition next (s : K2TreeScanner) : outcome ((Z * Z) * K2TreeScanner) :=
  match s with
  | FullScanner t h =>
      let '(p, h) := k2node_naive_scan_points_lazy_next h in Ret (p, FullScanner t h)
  | BandScanner t band ty h =>
      let '(result, h) := k2node_report_band_next h in
      Ret (if decide (ty = COLUMN_BAND_TYPE) then (band, result) else (result, band),
           BandScanner t band ty h)
  | EmptyScanner _ | NullScanner => Throw RuntimeError
  end.

Definition reset_scan (s : K2TreeScanner) : outcome K2TreeScanner :=
  match s with
  | FullScanner t h => Ret (FullScanner t (k2node_naive_scan_points_lazy_reset h))
  | BandScanner t band ty h => Ret (BandScanner t band ty (k2node_report_band_reset h))
  | EmptyScanner t => Ret (EmptyScanner t)
  | NullScanner => Throw RuntimeError
  end.

Definition get_band_value (s : K2TreeScanner) : outcome Z :=
  match s with BandScanner _ band _ _ => Ret band | _ => Throw RuntimeError end.
Definition get_tree (s : K2TreeScanner) : outcome K2TreeMixed :=
  match s with
  | FullScanner t _ | BandScanner t _ _ _ | EmptyScanner t => Ret t
  | NullScanner => Throw RuntimeError
  end.

#[global] Instance tree_scanner : Scanner K2TreeScanner := {|
  sc_has_next s := Ret (has_next s, s);
  sc_next := next
|}.
End tree_scanners.

(** ** core/k2tree/K2TreeBulkOp.cpp: operations sharing one query state *)

Section bulk.
Context `{K2Lib}.

Record K2TreeBulkOp := mkBulk { bulk_tree : K2TreeMixed; bulk_stw : K2QStateWrapper }.
Definition new_bulk (t : K2TreeMixed) : K2TreeBulkOp := mkBulk t (create_k2qw t).
Definition bulk_insert (col row : Z) (b : K2TreeBulkOp) : K2TreeBulkOp :=
  mkBulk (insert_with (bulk_stw b) col row (bulk_tree b)) (bulk_stw b).
Definition bulk_remove (col row : Z) (b : K2TreeBulkOp) : K2TreeBulkOp :=
  mkBulk (remove_with (bulk_stw b) col row (bulk_tree b)) (bulk_stw b).
Definition bulk_has (col row : Z) (b : K2TreeBulkOp) : bool :=
  has_with (bulk_stw b) col row (bulk_tree b).
Definition bulk_insert_was_inserted (col row : Z) (b : K2TreeBulkOp)
    : bool * K2TreeBulkOp :=
  let '(r, t) := insert_was_inserted col row (bulk_tree b) in (r, mkBulk t (bulk_stw b)).
End bulk.

(** ** What the scanners deliver *)

Section scanner_specs.
Context `{K2LibLaws}.

Lemma bulk_insert_new s o t : bulk_insert s o (new_bulk t) = new_bulk (run_op t (OpInsert s o)).
Proof.
  unfold bulk_insert, new_bulk. simpl. unfold insert, insert_with, insert_was_inserted_with.
  by destruct (k2node_insert_point _ _ _ _).
Qed.

Lemma full_delivers t h0 h l :
  enumerates scan_has_next k2node_naive_scan_points_lazy_next
    k2node_naive_scan_points_lazy_reset h0 h l → delivers (FullScanner t h) l.
Proof.
  induction 1 as [h Hn _|h h' p l Hn _ Hx He IH].
  - apply (delivers_nil _ (FullScanner t h)). simpl. by rewrite Hn.
  - eapply (delivers_cons _ (FullScanner t h)); [simpl; by rewrite Hn| |exact IH].
    simpl. by rewrite Hx.
Qed.

Lemma band_delivers t band ty h0 h l :
  enumerates band_has_next k2node_report_band_next k2node_report_band_reset h0 h l →
  delivers (BandScanner t band ty h)
    ((λ x, if decide (ty = COLUMN_BAND_TYPE) then (band, x) else (x, band)) <$> l).
Proof.
  induction 1 as [h Hn _|h h' p l Hn _ Hx He IH].
  - apply (delivers_nil _ (BandScanner t band ty h)). simpl. by rewrite Hn.
  - rewrite fmap_cons.
    eapply (delivers_cons _ (BandScanner t band ty h)); [simpl; by rewrite Hn| |exact IH].
    simpl. by rewrite Hx.
Qed.

Definition in_band (ty : BandType) (band : Z) (p : Z * Z) : Prop :=
  match ty with COLUMN_BAND_TYPE => p.1 = band | ROW_BAND_TYPE => p.2 = band end.
#[global] Instance in_band_dec ty band p : Decision (in_band ty band p).
Proof. destruct ty; simpl; apply _. Defined.

Lemma full_scanner_spec t :
  tm_ok t → ∃ l, delivers (create_full_scanner t) l ∧ l ≡ₚ elements (pts t).
Proof.
  intros Hok. destruct (lazy_scan_law _ _ (proj1 Hok)) as (l & He & Hp).
  exists l. split; [by eapply full_delivers|].
  by rewrite Hp, <-get_all_points_perm.
Qed.

Lemma band_enumerates t band ty : tm_ok t → 0 ≤ band < 2 ^ tree_depth t →
  ∃ h l, create_band_scanner band ty t = BandScanner t band ty h ∧
    enumerates band_has_next k2node_report_band_next k2node_report_band_reset h h l ∧
    delivers (create_band_scanner band ty t)
      ((λ x, if decide (ty = COLUMN_BAND_TYPE) then (band, x) else (x, band)) <$> l) ∧
    ((λ x, if decide (ty = COLUMN_BAND_TYPE) then (band, x) else (x, band)) <$> l) ≡ₚ
      filter (in_band ty band) (elements (pts t)).
Proof.
  intros Hok Hb.
  assert (Hp : filter (in_band ty band) (get_all_points t) ≡ₚ filter (in_band ty band) (elements (pts t)))
    by by rewrite <-get_all_points_perm.
  assert (Hl : ∃ l, let h := if decide (ty = COLUMN_BAND_TYPE)
       then k2node_report_column_lazy_init (create_k2qw t) (root t) band
       else k2node_report_row_lazy_init (create_k2qw t) (root t) band in
    enumerates band_has_next k2node_report_band_next k2node_report_band_reset h h l ∧
    ((λ x, if decide (ty = COLUMN_BAND_TYPE) then (band, x) else (x, band)) <$> l) ≡ₚ
    filter (in_band ty band) (get_all_points t)).
  { destruct ty; [exact (lazy_column_law _ _ band (proj1 Hok) Hb)
                 |exact (lazy_row_law _ _ band (proj1 Hok) Hb)]. }
  destruct Hl as (l & He & Hperm). eexists _, l. split; [done|]. split; [exact He|].
  split; [by eapply band_delivers|by rewrite Hperm].
Qed.

(** a band scanner delivers exactly the points of its row or column, each
    once, and can be run again after a reset at any moment. *)
Theorem band_scanner_correct t band ty :
  tm_ok t → 0 ≤ band < 2 ^ tree_depth t →
  ∃ l, delivers (create_band_scanner band ty t) l ∧
       l ≡ₚ filter (in_band ty band) (elements (pts t)) ∧
       ∀ s p s', create_band_scanner band ty t = s → has_next s = true →
         next s = Ret (p, s') → reset_scan s' = Ret s.
Proof.
  intros Hok Hb. destruct (band_enumerates t band ty Hok Hb) as (h & l & E & He & Hd & Hp).
  eexists. split; [exact Hd|]. split; [exact Hp|]. intros s p s' <- Hn Hx. rewrite E in *. simpl in *.
  inversion He as [|h1 h2 x k H1 H2 H3 H4]; subst; [congruence|].
  rewrite H3 in Hx. injection Hx as _ <-. simpl. do 2 f_equal. by inversion H4.
Qed.
End scanner_specs.

(** Terms keep their kind through the protocol and back, and an unknown kind is
    refused. *)
Lemma term_type_roundtrip r t :
  (r ≠ NULL_RESOURCE_TYPE → select_type_from_proto (get_proto_type r) = Ret r) ∧
  (select_type_from_proto t = Ret r → get_proto_type r = t).
Proof. split; [by destruct r|by destruct t; intros [= <-]]. Qed.

(** [operator<] is a strict total order compatible with [operator==]. *)
Lemma triple_ltb_spec x y :
  triple_ltb x y = true ↔
  subject x < subject y ∨ (subject x = subject y ∧
    (predicate x < predicate y ∨ (predicate x = predicate y ∧ object x < object y))).
Proof.
  unfold triple_ltb. repeat case_decide; rewrite Z.ltb_lt; lia.
Qed.

(** ** Instances of the theorems *)
Section witnesses.
#[local] Existing Instance Toy.toy_k2_lib.

Definition toy_points_tree : K2TreeMixed :=
  fold_left run_op [OpInsert 3 5; OpInsert 3 6; OpInsert 7 2]
    (new_K2TreeMixed (mkConfig 8 256 1)).

Lemma toy_points_tree_ok :
  tm_ok toy_points_tree ∧ create_k2qw toy_points_tree = mkst 8 1 256.
Proof.
  destruct (run_ops_spec [OpInsert 3 5; OpInsert 3 6; OpInsert 7 2]
    (new_K2TreeMixed (mkConfig 8 256 1))) as (H1 & H2 & _); [apply new_tree_ok| |done].
  repeat (apply Forall_cons; split; [computed|]). by apply Forall_nil.
Qed.

Lemma band_scanner_correct_witness :
  ∃ l, delivers (create_band_scanner 3 COLUMN_BAND_TYPE toy_points_tree) l ∧
       l ≡ₚ filter (in_band COLUMN_BAND_TYPE 3) (elements (pts toy_points_tree)) ∧
       ∀ s p s', create_band_scanner 3 COLUMN_BAND_TYPE toy_points_tree = s →
         has_next s = true → next s = Ret (p, s') → reset_scan s' = Ret s.
Proof.
  apply band_scanner_correct; [apply toy_points_tree_ok|by vm_compute].
Defined.
End witnesses.
