(* ===== verification/Fetcher.v ===== *)
(** * core/manager/K2TreeFetcher.hpp: where trees come from

    The query engine and the cache of indexed predicates obtain the tree of a
    predicate through one interface. [K2TreeFetcherLaws] is what they rely on;
    PredicatesIndex.v implements it. *)
From S2P Require Import Prelude Streams Memory Blocks K2Tree.

Local Open Scope Z_scope.

(** PredicateFetchResult.cpp: whether the predicate exists, and its tree, which
    is the null pointer when it is not in memory. *)
Record PredicateFetchResult := mkFetch { does_exist : bool; fetch_result : option K2TreeMixed }.
Definition exists_tree (r : PredicateFetchResult) : bool := does_exist r.
Definition fetch_get (r : PredicateFetchResult) : outcome K2TreeMixed := deref (fetch_result r).
Definition loaded (r : PredicateFetchResult) : bool :=
  does_exist r && bool_decide (is_Some (fetch_result r)).

(** A fetch may load a tree, so it changes the fetcher. *)
Class K2TreeFetcher (F : Type) := {
  fetch_k2tree : Z → F → outcome (PredicateFetchResult * F);
  fetch_k2tree_if_loaded : Z → F → outcome (PredicateFetchResult * F)
}.

(** [points_of f p]: the points of predicate [p], if it exists. Fetching a tree
    that is in memory changes nothing. *)
Class K2TreeFetcherLaws (F : Type) `{K2LibLaws, K2TreeFetcher F} := {
  fetcher_ok : F → Prop;
  points_of : F → Z → option (gset (Z * Z));
  fetcher_qw : F → K2QStateWrapper;
  in_memory : F → Z → Prop;
  fetch_law f p : fetcher_ok f →
    ∃ r f', fetch_k2tree p f = Ret (r, f') ∧ fetcher_ok f' ∧
      (∀ q, points_of f' q = points_of f q) ∧ fetcher_qw f' = fetcher_qw f ∧
      match points_of f p with
      | None => does_exist r = false ∧ fetch_result r = None
      | Some P => does_exist r = true ∧ ∃ t, fetch_result r = Some t ∧ tm_ok t ∧
                  pts t = P ∧ create_k2qw t = fetcher_qw f
      end;
  fetch_in_memory_law f p : fetcher_ok f → in_memory f p →
    ∃ r, fetch_k2tree p f = Ret (r, f);
  fetch_if_loaded_law f p : fetcher_ok f →
    ∃ r, fetch_k2tree_if_loaded p f = Ret (r, f) ∧ ∀ t, fetch_result r = Some t →
      points_of f p = Some (pts t) ∧ tm_ok t ∧ create_k2qw t = fetcher_qw f
}.

(** ** Trees held in memory: a concrete fetcher *)
Record TreeMap := mkTreeMap { tree_map : gmap Z K2TreeMixed; tree_map_qw : K2QStateWrapper }.

#[export] Instance tree_map_fetcher : K2TreeFetcher TreeMap := {|
  fetch_k2tree p m :=
    Ret (mkFetch (bool_decide (is_Some (tree_map m !! p))) (tree_map m !! p), m);
  fetch_k2tree_if_loaded p m :=
    Ret (mkFetch (bool_decide (is_Some (tree_map m !! p))) (tree_map m !! p), m)
|}.

Section tree_map.
Context `{K2LibLaws}.

#[export, refine] Instance tree_map_laws : K2TreeFetcherLaws TreeMap := {|
  fetcher_ok m := ∀ p t, tree_map m !! p = Some t → tm_ok t ∧ create_k2qw t = tree_map_qw m;
  points_of m p := pts <$> tree_map m !! p;
  fetcher_qw := tree_map_qw;
  in_memory _ _ := True
|}.
Proof.
- intros m p Hm. simpl. eexists _, m. do 2 (split; [done|]). split; [done|]. split; [done|].
  destruct (tree_map m !! p) as [t|] eqn:E; simpl; [|done].
  split; [done|]. exists t. destruct (Hm p t E). done.
- intros m p _ _. by eexists.
- intros m p Hm. eexists. split; [done|]. simpl. intros t Ht. rewrite Ht. simpl.
  split; [done|]. by apply (Hm p).
Defined.
End tree_map.
