(* ===== verification/Hashing.v ===== *)
(** * utils/hashing.cpp: digests and their hexadecimal form

    The digests themselves are OpenSSL's, a parameter; what this file computes
    is their form in hexadecimal digits. Characters are their codes, and a
    digest is the bytes of its std::array. *)
From S2P Require Import Prelude.

Local Open Scope Z_scope.

(** OpenSSL: each function fills a digest of its length. *)
Class OpenSSL := {
  MD5 : list Z → list Z;
  SHA1 : list Z → list Z;
  SHA224 : list Z → list Z;
  SHA256 : list Z → list Z;
  SHA384 : list Z → list Z;
  SHA512 : list Z → list Z
}.
Definition digest_of (n : nat) (bs : list Z) : Prop := length bs = n ∧ Forall (in_u 8) bs.
Class OpenSSLLaws `{OpenSSL} := {
  MD5_digest s : digest_of 16 (MD5 s);
  SHA1_digest s : digest_of 20 (SHA1 s);
  SHA224_digest s : digest_of 28 (SHA224 s);
  SHA256_digest s : digest_of 32 (SHA256 s);
  SHA384_digest s : digest_of 48 (SHA384 s);
  SHA512_digest s : digest_of 64 (SHA512 s)
}.

(** ** The hexadecimal form *)

(** The digits "0123456789abcdef". *)
Definition hexchars : list Z :=
  [48; 49; 50; 51; 52; 53; 54; 55; 56; 57; 97; 98; 99; 100; 101; 102].
Definition hexchar (i : Z) : Z := default 0 (hexchars !! Z.to_nat i).

(** The body of the six [*_human_readable_common]: the digits of each byte. *)
Definition hex_byte (b : Z) : list Z :=
  [hexchar (Z.shiftr (u8 b) 4); hexchar (Z.land (u8 b) 15)].
Definition human_readable_common (digest : list Z) : list Z := digest ≫= hex_byte.
#[global] Arguments human_readable_common : simpl never.

(** toupper and tolower of the C locale. *)
Definition toupper (c : Z) : Z := if decide (97 ≤ c ≤ 122) then c - 32 else c.
Definition tolower (c : Z) : Z := if decide (65 ≤ c ≤ 90) then c + 32 else c.

Section hashing.
Context `{OpenSSL}.

Definition md5calc (input : list Z) : list Z := MD5 input.
Definition sha1calc (input : list Z) : list Z := SHA1 input.
Definition sha224calc (input : list Z) : list Z := SHA224 input.
Definition sha256calc (input : list Z) : list Z := SHA256 input.
Definition sha384calc (input : list Z) : list Z := SHA384 input.
Definition sha512calc (input : list Z) : list Z := SHA512 input.

Definition human_readable (digest : list Z) : list Z :=
  toupper <$> human_readable_common digest.
Definition human_readable_lowercase (digest : list Z) : list Z :=
  tolower <$> human_readable_common digest.

(** The functions of each digest; their bodies are copies of one another. *)
Definition md5_human_readable_common (digest : list Z) : list Z := human_readable_common digest.
Definition md5_human_readable (digest : list Z) : list Z := human_readable digest.
Definition md5_digest_lowercase (digest : list Z) : list Z := human_readable_lowercase digest.
Definition md5_human_readable_lowercase (input : list Z) : list Z :=
  md5_digest_lowercase (md5calc input).
Definition sha1_human_readable_common (digest : list Z) : list Z := human_readable_common digest.
Definition sha1_human_readable (digest : list Z) : list Z := human_readable digest.
Definition sha1_digest_lowercase (digest : list Z) : list Z := human_readable_lowercase digest.
Definition sha1_human_readable_lowercase (input : list Z) : list Z :=
  sha1_digest_lowercase (sha1calc input).
Definition sha224_human_readable_common (digest : list Z) : list Z := human_readable_common digest.
Definition sha224_human_readable (digest : list Z) : list Z := human_readable digest.
Definition sha224_digest_lowercase (digest : list Z) : list Z := human_readable_lowercase digest.
Definition sha224_human_readable_lowercase (input : list Z) : list Z :=
  sha224_digest_lowercase (sha224calc input).
Definition sha256_human_readable_common (digest : list Z) : list Z := human_readable_common digest.
Definition sha256_human_readable (digest : list Z) : list Z := human_readable digest.
Definition sha256_digest_lowercase (digest : list Z) : list Z := human_readable_lowercase digest.
Definition sha256_human_readable_lowercase (input : list Z) : list Z :=
  sha256_digest_lowercase (sha256calc input).
Definition sha384_human_readable_common (digest : list Z) : list Z := human_readable_common digest.
Definition sha384_human_readable (digest : list Z) : list Z := human_readable digest.
Definition sha384_digest_lowercase (digest : list Z) : list Z := human_readable_lowercase digest.
Definition sha384_human_readable_lowercase (input : list Z) : list Z :=
  sha384_digest_lowercase (sha384calc input).
Definition sha512_human_readable_common (digest : list Z) : list Z := human_readable_common digest.
Definition sha512_human_readable (digest : list Z) : list Z := human_readable digest.
Definition sha512_digest_lowercase (digest : list Z) : list Z := human_readable_lowercase digest.
Definition sha512_human_readable_lowercase (input : list Z) : list Z :=
  sha512_digest_lowercase (sha512calc input).
End hashing.

(** ** Reading the digits back *)

Definition digit_value (c : Z) : Z :=
  if decide (48 ≤ c ≤ 57) then c - 48
  else if decide (65 ≤ c ≤ 70) then c - 55
  else c - 87.
Fixpoint from_hex (cs : list Z) : list Z :=
  match cs with
  | hi :: lo :: cs => 16 * digit_value hi + digit_value lo :: from_hex cs
  | _ => []
  end.

Lemma digit_value_hexchar f d : f = toupper ∨ f = tolower → 0 ≤ d < 16 →
  digit_value (f (hexchar d)) = d.
Proof.
  intros Hf Hd.
  assert (Forall (λ n, digit_value (f (hexchar (Z.of_nat n))) = Z.of_nat n) (seq 0 16)) as Hall
    by (destruct Hf as [-> | ->]; repeat constructor).
  rewrite Forall_forall in Hall. specialize (Hall (Z.to_nat d)). rewrite Z2Nat.id in Hall by lia.
  apply Hall, elem_of_seq. lia.
Qed.

(** Lower case leaves the digits as they are. *)
Lemma tolower_hexchar d : 0 ≤ d < 16 → tolower (hexchar d) = hexchar d.
Proof.
  intros Hd.
  assert (Forall (λ n, tolower (hexchar (Z.of_nat n)) = hexchar (Z.of_nat n)) (seq 0 16)) as Hall
    by repeat constructor.
  rewrite Forall_forall in Hall. specialize (Hall (Z.to_nat d)). rewrite Z2Nat.id in Hall by lia.
  apply Hall, elem_of_seq. lia.
Qed.

(** The two digits of a byte. *)
Lemma hex_byte_digits b : ∃ hi lo, hex_byte b = [hexchar hi; hexchar lo] ∧
  0 ≤ hi < 16 ∧ 0 ≤ lo < 16 ∧ u8 b = 16 * hi + lo.
Proof.
  eexists _, _. split; [done|]. assert (Hb : in_u 8 (u8 b)) by (apply uwrap_range; lia).
  unfold in_u in Hb. rewrite Z.shiftr_div_pow2 by lia. change 15 with (Z.ones 4).
  rewrite Z.land_ones by lia.
  change (2 ^ 4) with 16. change (2 ^ 8) with 256 in Hb. Z.div_mod_to_equations. lia.
Qed.

Lemma from_hex_bytes f bs : f = toupper ∨ f = tolower → Forall (in_u 8) bs →
  from_hex (f <$> human_readable_common bs) = bs.
Proof.
  intros Hf. induction 1 as [|b bs Hb Hbs IH]; [done|].
  destruct (hex_byte_digits b) as (hi & lo & E & Hhi & Hlo & Hv).
  change (human_readable_common (b :: bs)) with (hex_byte b ++ human_readable_common bs).
  rewrite E, fmap_app. cbn [fmap list_fmap app from_hex].
  rewrite !digit_value_hexchar by done. f_equal; [|exact IH].
  rewrite <-Hv. by apply uwrap_small.
Qed.

(** The hexadecimal form of a digest, in either case, has two characters per
    byte and identifies the digest: reading its digits back gives the bytes. *)
Theorem hex_identifies digest : Forall (in_u 8) digest →
  from_hex (human_readable digest) = digest ∧
  from_hex (human_readable_lowercase digest) = digest ∧
  length (human_readable digest) = (2 * length digest)%nat ∧
  human_readable_lowercase digest = human_readable_common digest.
Proof.
  intros Hd. split_and!; [apply from_hex_bytes; [by left|done]|apply from_hex_bytes; [by right|done]| |].
  - unfold human_readable. rewrite length_fmap. clear.
    induction digest as [|b bs IH]; [done|].
    change (human_readable_common (b :: bs)) with (hex_byte b ++ human_readable_common bs).
    rewrite length_app, IH. simpl. lia.
  - unfold human_readable_lowercase. clear.
    induction digest as [|b bs IH]; [done|].
    destruct (hex_byte_digits b) as (hi & lo & E & Hhi & Hlo & _).
    change (human_readable_common (b :: bs)) with (hex_byte b ++ human_readable_common bs).
    rewrite E, fmap_app. cbn [fmap list_fmap app].
    rewrite !tolower_hexchar by done. by do 2 f_equal.
Qed.

(** ** Instances of the theorems *)
Section witnesses.
Lemma hex_identifies_witness :
  from_hex (human_readable [0; 171; 255]) = [0; 171; 255] ∧
  from_hex (human_readable_lowercase [0; 171; 255]) = [0; 171; 255] ∧
  length (human_readable [0; 171; 255]) = (2 * length [0; 171; 255])%nat ∧
  human_readable_lowercase [0; 171; 255] = human_readable_common [0; 171; 255].
Proof. apply hex_identifies. by repeat constructor. Defined.
End witnesses.
