(* ===== verification/Replacement.v ===== *)
(** * core/replacement: which keys stay in a cache of bounded size

    [CacheReplacement<CRStrategy>] keeps the cached keys in a std::set ordered
    by the cost a strategy gives them, and drops the cheapest keys that nobody
    is using when a new key needs room. The strategies are LRU and frequency;
    what the container needs of a strategy is the interface [CRStrategy] with
    its laws, and what it needs of the owner of the data is [DataManager]. *)
From S2P Require Import Prelude Streams Memory.

Local Open Scope Z_scope.

(** ** Interfaces *)

(** The keys by increasing cost, and their sizes: what a strategy is shown
    (I_ReplacementPriorityQueue); [get_key_size] is [space_map[key]], which
    creates a zero entry for an unknown key. *)
Record PQ := mkPQ { pq_keys : list Z; pq_space : gmap Z Z }.
Definition get_key_size (key : Z) (pq : PQ) : Z * PQ :=
  match pq_space pq !! key with
  | Some s => (s, pq)
  | None => (0, mkPQ (pq_keys pq) (<[key := 0]> (pq_space pq)))
  end.

Class CRStrategy (S : Type) := {
  new_strategy : S;
  cost_function : Z → S → Z;
  s_hit_key : Z → S → S;
  s_remove_key : Z → S → S;
  should_discard_others_for_key : Z → PQ → S → bool * PQ;
  should_hit_without_retrieval : Z → S → bool
}.

(** [StrategyWrapper::operator()]: by cost, then by key. *)
Definition less {Str} `{CRStrategy Str} (s : Str) (lhs rhs : Z) : bool :=
  let left := cost_function lhs s in
  let right := cost_function rhs s in
  if left =? right then lhs <? rhs else left <? right.

(** The keys a strategy has an opinion on keep their order when another key is
    hit or removed: the condition under which the std::set stays ordered. *)
Class CRStrategyLaws (Str : Type) `{CRStrategy Str} := {
  tracks : Str → Z → Prop;
  hit_tracks s k : tracks (s_hit_key k s) k;
  hit_keeps s k a : tracks s a → a ≠ k → tracks (s_hit_key k s) a;
  remove_keeps s k a : tracks s a → a ≠ k → tracks (s_remove_key k s) a;
  hit_less s k a b : tracks s a → tracks s b → a ≠ k → b ≠ k →
    less (s_hit_key k s) a b = less s a b;
  remove_less s k a b : tracks s a → tracks s b → a ≠ k → b ≠ k →
    less (s_remove_key k s) a b = less s a b;
  discard_space s k pq : ∀ b pq', should_discard_others_for_key k pq s = (b, pq') →
    pq_keys pq' = pq_keys pq ∧
    ∀ x, default 0 (pq_space pq' !! x) = default 0 (pq_space pq !! x)
}.

(** The owner of the cached data (DataManager.hpp). *)
Class DataManager (D : Type) := {
  dm_remove_key : Z → D → outcome D;
  dm_retrieve_key : Z → D → outcome D
}.

(** ** LRUReplacementStrategy.cpp *)

Record LRUReplacementStrategy := mkLRU {
  low : Z; high : Z; key_mapping_to_lru_value : gmap Z Z
}.

(** [std::next] on a std::map: the entry with the next larger key. *)
Definition next_entry (m : gmap Z Z) (key : Z) : option (Z * Z) :=
  head (filter (λ e, key < e.1) (entries m)).

Definition lru_remove_key (key : Z) (s : LRUReplacementStrategy) : LRUReplacementStrategy :=
  match key_mapping_to_lru_value s !! key with
  | None => s
  | Some lru_value =>
      let '(low', high') :=
        if decide (lru_value = low s) then
          match next_entry (key_mapping_to_lru_value s) key with
          | Some (_, v) => (v, high s)
          | None => (0, 0)
          end
        else (low s, high s) in
      mkLRU low' high' (delete key (key_mapping_to_lru_value s))
  end.

Definition lru_hit_key (key : Z) (s : LRUReplacementStrategy) : LRUReplacementStrategy :=
  let next_key_value := high s in
  let s := mkLRU (low s) (high s + 1) (key_mapping_to_lru_value s) in
  let s := lru_remove_key key s in
  mkLRU (low s) (high s) (<[key := next_key_value]> (key_mapping_to_lru_value s)).

Definition lru_cost_function (key : Z) (s : LRUReplacementStrategy) : Z :=
  default (high s) (key_mapping_to_lru_value s !! key) - low s.

#[export] Instance lru_strategy : CRStrategy LRUReplacementStrategy := {|
  new_strategy := mkLRU 0 0 ∅;
  cost_function := lru_cost_function;
  s_hit_key := lru_hit_key;
  s_remove_key := lru_remove_key;
  should_discard_others_for_key _ pq _ := (true, pq);
  should_hit_without_retrieval _ _ := false
|}.

(** ** FrequencyReplacementStrategy.cpp *)

Record FrequencyReplacementStrategy := mkFrequency { frequency_map : gmap Z Z }.

Definition freq_hit_key (key : Z) (s : FrequencyReplacementStrategy)
    : FrequencyReplacementStrategy :=
  mkFrequency
    (match frequency_map s !! key with
     | None => <[key := 1]> (frequency_map s)
     | Some f => <[key := f + 1]> (frequency_map s)
     end).
Definition freq_cost_function (key : Z) (s : FrequencyReplacementStrategy) : Z :=
  default 0 (frequency_map s !! key).

(** The traversal of the queue, cheapest key first. *)
Fixpoint freq_discard_loop (keys : list Z) (required_size accumulated key_cost : Z)
    (s : FrequencyReplacementStrategy) (pq : PQ) : bool * PQ :=
  match keys with
  | [] => (false, pq)
  | current_key :: keys =>
      let '(current_key_size, pq) := get_key_size current_key pq in
      let accumulated := u64 (accumulated + current_key_size) in
      if decide (key_cost < freq_cost_function current_key s) then (false, pq)
      else if decide (required_size ≤ accumulated) then (true, pq)
      else freq_discard_loop keys required_size accumulated key_cost s pq
  end.

Definition freq_should_discard (key : Z) (pq : PQ) (s : FrequencyReplacementStrategy)
    : bool * PQ :=
  match pq_keys pq with
  | [] => (false, pq)
  | keys =>
      let '(required_size, pq) := get_key_size key pq in
      freq_discard_loop keys required_size 0 (freq_cost_function key s) s pq
  end.

#[export] Instance frequency_strategy : CRStrategy FrequencyReplacementStrategy := {|
  new_strategy := mkFrequency ∅;
  cost_function := freq_cost_function;
  s_hit_key := freq_hit_key;
  s_remove_key _ s := s;
  should_discard_others_for_key := freq_should_discard;
  should_hit_without_retrieval _ _ := true
|}.

(** ** CacheReplacement.cpp *)

Record CacheReplacement (Str : Type) := mkCR {
  strategy : Str;
  priority_set : list Z;          (* in the order of the std::set *)
  space_map : gmap Z Z;
  max_size_allowed : Z;
  size_used : Z;
  in_use : gmap Z Z
}.
Arguments mkCR {Str}. Arguments strategy {Str}. Arguments priority_set {Str}.
Arguments space_map {Str}. Arguments max_size_allowed {Str}.
Arguments size_used {Str}. Arguments in_use {Str}.

Section replacement.
Context {Str D : Type} `{CRStrategy Str, DataManager D}.
Notation CR := (CacheReplacement Str).

Definition new_CacheReplacement (max_size_allowed : Z) : CR :=
  mkCR new_strategy [] ∅ max_size_allowed 0 ∅.

(** [priority_set.insert(key)]: before the first key that is not less. *)
Fixpoint set_insert (s : Str) (key : Z) (l : list Z) : list Z :=
  match l with
  | [] => [key]
  | x :: l' =>
      if less s x key then x :: set_insert s key l'
      else if less s key x then key :: l else l
  end.
Definition set_erase (key : Z) (l : list Z) : list Z := filter (λ x, x ≠ key) l.

Definition is_using (key : Z) (c : CR) : bool := bool_decide (is_Some (in_use c !! key)).

Definition set_in_use (m : gmap Z Z) (c : CR) : CR :=
  mkCR (strategy c) (priority_set c) (space_map c) (max_size_allowed c) (size_used c) m.
(** The uses of a key are an [int]. *)
Definition mark_using (key : Z) (c : CR) : outcome CR :=
  match in_use c !! key with
  | None => Ret (set_in_use (<[key := 1]> (in_use c)) c)
  | Some n => n ← int_chk (n + 1); Ret (set_in_use (<[key := n]> (in_use c)) c)
  end.
Definition mark_ready (key : Z) (c : CR) : CR :=
  match in_use c !! key with
  | None => c
  | Some n =>
      let n := if decide (n > 0) then n - 1 else 0 in
      set_in_use (if decide (n ≤ 0) then delete key (in_use c) else <[key := n]> (in_use c)) c
  end.

(** The eviction loop; [l] is the rest of the set from the iterator on, and
    the result says whether enough was freed. *)
Fixpoint evict (l : list Z) (c : CR) (d : D) (next_size size_erased : Z)
    : outcome (bool * CR * D * Z * Z) :=
  if decide (next_size > max_size_allowed c) then
    match l with
    | [] => Ret (false, c, d, next_size, size_erased)
    | current_key :: l =>
        if is_using current_key c then evict l c d next_size size_erased
        else
          let erasing_sz := default 0 (space_map c !! current_key) in
          d ← dm_remove_key current_key d;
          evict l
            (mkCR (s_remove_key current_key (strategy c))
               (set_erase current_key (priority_set c))
               (delete current_key (space_map c)) (max_size_allowed c) (size_used c)
               (in_use c))
            d (u64 (next_size - erasing_sz)) (u64 (size_erased + erasing_sz))
    end
  else Ret (true, c, d, next_size, size_erased).

Definition set_strategy (c : CR) (s : Str) : CR :=
  mkCR s (priority_set c) (space_map c) (max_size_allowed c) (size_used c) (in_use c).

Definition hit_key (key space_required : Z) (c : CR) (d : D) : outcome (bool * CR * D) :=
  if decide (space_required > max_size_allowed c) then Ret (false, c, d)
  else if decide (key ∈ priority_set c) then
    let s := s_hit_key key (strategy c) in
    Ret (true, mkCR s (set_insert s key (set_erase key (priority_set c))) (space_map c)
                 (max_size_allowed c) (size_used c) (in_use c), d)
  else
    let next_size := u64 (space_required + size_used c) in
    let '(reject, c) :=
      if decide (next_size > max_size_allowed c) then
        let '(b, pq) := should_discard_others_for_key key
                          (mkPQ (priority_set c) (space_map c)) (strategy c) in
        (negb b, mkCR (strategy c) (priority_set c) (pq_space pq) (max_size_allowed c)
                   (size_used c) (in_use c))
      else (false, c) in
    if (reject : bool) then
      Ret (false,
           if should_hit_without_retrieval key (strategy c)
           then set_strategy c (s_hit_key key (strategy c)) else c, d)
    else
      '(found, c, d, next_size, size_erased) ← evict (priority_set c) c d next_size 0;
      if (found : bool) then
        d ← dm_retrieve_key key d;
        let s := s_hit_key key (strategy c) in
        Ret (true, mkCR s (set_insert s key (priority_set c))
                     (<[key := space_required]> (space_map c)) (max_size_allowed c)
                     next_size (in_use c), d)
      else
        Ret (false, mkCR (strategy c) (priority_set c) (space_map c) (max_size_allowed c)
                      (u64 (size_used c - size_erased)) (in_use c), d).

(** ** A call of [hit_key], step by step

    The worker of the replacement tasks runs [hit_key] while clients lock and release
    keys. The mutex is held by [is_using] only, and by whoever locks or releases a key:
    a key can be locked after [is_using] has said that it is free, and before it is
    dropped. A step here touches what others touch ([in_use] and the data) once. *)
Inductive hit_state :=
  | Called                                                                       (* on entry *)
  | Scanning (it : list Z) (next_size size_erased : Z)                           (* at the head of the loop *)
  | Dropping (current_key : Z) (it : list Z) (next_size size_erased : Z)         (* [is_using] has said no *)
  | Loading (next_size : Z)                                                      (* past the loop *)
  | Finished (b : bool).
Definition hit_step (key space_required : Z) (h : hit_state) (c : CR) (d : D)
    : outcome (hit_state * CR * D) :=
  match h with
  | Called =>
      if decide (space_required > max_size_allowed c) then Ret (Finished false, c, d)
      else if decide (key ∈ priority_set c) then
        let s := s_hit_key key (strategy c) in
        Ret (Finished true, mkCR s (set_insert s key (set_erase key (priority_set c))) (space_map c)
                     (max_size_allowed c) (size_used c) (in_use c), d)
      else
        let next_size := u64 (space_required + size_used c) in
        let '(reject, c) :=
          if decide (next_size > max_size_allowed c) then
            let '(b, pq) := should_discard_others_for_key key
                              (mkPQ (priority_set c) (space_map c)) (strategy c) in
            (negb b, mkCR (strategy c) (priority_set c) (pq_space pq) (max_size_allowed c)
                       (size_used c) (in_use c))
          else (false, c) in
        if (reject : bool) then
          Ret (Finished false,
               if should_hit_without_retrieval key (strategy c)
               then set_strategy c (s_hit_key key (strategy c)) else c, d)
        else Ret (Scanning (priority_set c) next_size 0, c, d)
  | Scanning it next_size size_erased =>
      if decide (next_size > max_size_allowed c) then
        match it with
        | [] => Ret (Finished false, mkCR (strategy c) (priority_set c) (space_map c) (max_size_allowed c)
                      (u64 (size_used c - size_erased)) (in_use c), d)
        | current_key :: it =>
            Ret (if is_using current_key c then Scanning it next_size size_erased
                 else Dropping current_key it next_size size_erased, c, d)
        end
      else Ret (Loading next_size, c, d)
  | Dropping current_key it next_size size_erased =>
      let erasing_sz := default 0 (space_map c !! current_key) in
      d ← dm_remove_key current_key d;
      Ret (Scanning it (u64 (next_size - erasing_sz)) (u64 (size_erased + erasing_sz)),
           mkCR (s_remove_key current_key (strategy c)) (set_erase current_key (priority_set c))
             (delete current_key (space_map c)) (max_size_allowed c) (size_used c) (in_use c), d)
  | Loading next_size =>
      d ← dm_retrieve_key key d;
      let s := s_hit_key key (strategy c) in
      Ret (Finished true, mkCR s (set_insert s key (priority_set c))
                   (<[key := space_required]> (space_map c)) (max_size_allowed c)
                   next_size (in_use c), d)
  | Finished _ => Ret (h, c, d)
  end.
End replacement.

(** The steps of a call that nothing interrupts, up to its result; [None] is for the lack
    of fuel. *)
Fixpoint run_steps {C D} (step : hit_state → C → D → outcome (hit_state * C * D)) (fuel : nat)
    (h : hit_state) (c : C) (d : D) : outcome (option (bool * C * D)) :=
  match h, fuel with
  | Finished b, _ => Ret (Some (b, c, d))
  | _, O => Ret None
  | _, S fuel => '(h, c, d) ← step h c d; run_steps step fuel h c d
  end.

(** NoCachingReplacement.cpp: every key is accepted, nothing is kept. *)
Record NoCachingReplacement := mkNoCaching {}.
Definition nc_hit_key (key space_required : Z) (c : NoCachingReplacement)
    : bool * NoCachingReplacement := (true, c).

(** CacheReplacementFactory.cpp. *)
Inductive REPLACEMENT_STRATEGY := NO_CACHING | LRU | FREQUENCY.
#[export] Instance REPLACEMENT_STRATEGY_eq_dec : EqDecision REPLACEMENT_STRATEGY.
Proof. solve_decision. Defined.
Inductive AnyReplacement :=
  | AnyLRU (c : CacheReplacement LRUReplacementStrategy)
  | AnyFrequency (c : CacheReplacement FrequencyReplacementStrategy)
  | AnyNoCaching (c : NoCachingReplacement).
Definition create_cache_replacement (max_size_bytes : Z) (s : REPLACEMENT_STRATEGY)
    : AnyReplacement :=
  match s with
  | LRU => AnyLRU (new_CacheReplacement max_size_bytes)
  | FREQUENCY => AnyFrequency (new_CacheReplacement max_size_bytes)
  | NO_CACHING => AnyNoCaching mkNoCaching
  end.

(** [I_CacheReplacement]'s operations, dispatched. *)
Section dispatch.
Context {D : Type} `{DataManager D}.
Definition any_hit_key (key space_required : Z) (c : AnyReplacement) (d : D)
    : outcome (bool * AnyReplacement * D) :=
  match c with
  | AnyLRU c => '(b, c, d) ← hit_key key space_required c d; Ret (b, AnyLRU c, d)
  | AnyFrequency c =>
      '(b, c, d) ← hit_key key space_required c d; Ret (b, AnyFrequency c, d)
  | AnyNoCaching c =>
      let '(b, c) := nc_hit_key key space_required c in Ret (b, AnyNoCaching c, d)
  end.
Definition any_hit_step (key space_required : Z) (h : hit_state) (c : AnyReplacement) (d : D)
    : outcome (hit_state * AnyReplacement * D) :=
  match c with
  | AnyLRU c => '(h, c, d) ← hit_step key space_required h c d; Ret (h, AnyLRU c, d)
  | AnyFrequency c => '(h, c, d) ← hit_step key space_required h c d; Ret (h, AnyFrequency c, d)
  | AnyNoCaching c => let '(b, c) := nc_hit_key key space_required c in Ret (Finished b, AnyNoCaching c, d)
  end.
Definition any_mark_using (key : Z) (c : AnyReplacement) : outcome AnyReplacement :=
  match c with
  | AnyLRU c => AnyLRU <$> mark_using key c
  | AnyFrequency c => AnyFrequency <$> mark_using key c
  | AnyNoCaching c => Ret (AnyNoCaching c)
  end.
Definition any_mark_ready (key : Z) (c : AnyReplacement) : AnyReplacement :=
  match c with
  | AnyLRU c => AnyLRU (mark_ready key c)
  | AnyFrequency c => AnyFrequency (mark_ready key c)
  | AnyNoCaching c => AnyNoCaching c
  end.
End dispatch.

(** ** The strategies satisfy the laws *)

Lemma less_shift {Str} `{CRStrategy Str} (s s' : Str) a b k :
  cost_function a s' = cost_function a s + k → cost_function b s' = cost_function b s + k →
  less s' a b = less s a b.
Proof.
  intros Ha Hb. unfold less. rewrite Ha, Hb.
  destruct (Z.eqb_spec (cost_function a s + k) (cost_function b s + k)),
    (Z.eqb_spec (cost_function a s) (cost_function b s)); lia.
Qed.

(** Removing or hitting another key shifts the costs of the tracked keys by a
    common amount. *)
Lemma lru_remove_cost s k a v :
  key_mapping_to_lru_value s !! a = Some v → a ≠ k →
  key_mapping_to_lru_value (lru_remove_key k s) !! a = Some v.
Proof.
  intros Ha Hk. unfold lru_remove_key. destruct (_ !! k); [|done].
  destruct (if decide _ then _ else _) as [l h]. simpl. by rewrite lookup_delete_ne.
Qed.

Lemma lru_hit_cost s k a v :
  key_mapping_to_lru_value s !! a = Some v → a ≠ k →
  key_mapping_to_lru_value (lru_hit_key k s) !! a = Some v.
Proof.
  intros Ha Hk. unfold lru_hit_key. cbn -[lru_remove_key].
  rewrite lookup_insert_ne by done. by apply lru_remove_cost.
Qed.

Lemma lru_less_kept s s' a b va vb :
  key_mapping_to_lru_value s !! a = Some va → key_mapping_to_lru_value s !! b = Some vb →
  key_mapping_to_lru_value s' !! a = Some va → key_mapping_to_lru_value s' !! b = Some vb →
  less s' a b = less s a b.
Proof.
  intros H1 H2 H3 H4. apply (less_shift _ _ _ _ (low s - low s')); simpl;
    unfold lru_cost_function; rewrite ?H1, ?H2, ?H3, ?H4; simpl; lia.
Qed.

#[export] Program Instance lru_laws : CRStrategyLaws LRUReplacementStrategy := {|
  tracks s k := is_Some (key_mapping_to_lru_value s !! k)
|}.
Next Obligation. intros. unfold lru_hit_key; simpl. rewrite lookup_insert_eq. eauto. Qed.
Next Obligation. intros s k a [v Hv] Hk. exists v. by apply lru_hit_cost. Qed.
Next Obligation. intros s k a [v Hv] Hk. exists v. by apply lru_remove_cost. Qed.
Next Obligation.
  intros s k a b [va Ha] [vb Hb] Hka Hkb.
  apply (lru_less_kept _ _ _ _ va vb); [done..| |]; by apply lru_hit_cost.
Qed.
Next Obligation.
  intros s k a b [va Ha] [vb Hb] Hka Hkb.
  apply (lru_less_kept _ _ _ _ va vb); [done..| |]; by apply lru_remove_cost.
Qed.
Next Obligation. by intros s k pq b pq' [= <- <-]. Qed.

Lemma get_key_size_spec k pq :
  ∃ pq', get_key_size k pq = (default 0 (pq_space pq !! k), pq') ∧
    pq_keys pq' = pq_keys pq ∧
    ∀ x, default 0 (pq_space pq' !! x) = default 0 (pq_space pq !! x).
Proof.
  unfold get_key_size. destruct (pq_space pq !! k) eqn:E; eexists; (split; [done|]);
    simpl; split; try done.
  intros x. rewrite lookup_insert. case_decide; [by subst; rewrite E|done].
Qed.

Lemma freq_loop_space keys req acc kc s pq b pq' :
  freq_discard_loop keys req acc kc s pq = (b, pq') →
  pq_keys pq' = pq_keys pq ∧
  ∀ x, default 0 (pq_space pq' !! x) = default 0 (pq_space pq !! x).
Proof.
  revert acc pq. induction keys as [|k keys IH]; intros acc pq; simpl; [by intros [= <- <-]|].
  destruct (get_key_size_spec k pq) as (pq1 & -> & Hk & Hs).
  repeat case_decide; [by intros [= <- <-]..|].
  intros (Hk' & Hs')%IH. split; [congruence|]. intros x. by rewrite Hs', Hs.
Qed.

#[refine, export] Instance frequency_laws : CRStrategyLaws FrequencyReplacementStrategy := {|
  tracks s k := True
|}.
Proof.
  1-3, 5: done.
  - intros s k a b _ _ Ha Hb.
    apply (less_shift _ _ _ _ 0); simpl; unfold freq_cost_function, freq_hit_key;
      destruct (frequency_map s !! k); simpl; rewrite lookup_insert_ne by done; lia.
  - intros s k pq b pq'. simpl. unfold freq_should_discard.
    destruct (pq_keys pq) as [|k0 keys] eqn:E; [intros [= <- <-]; by rewrite E|].
    destruct (get_key_size_spec k pq) as (pq1 & -> & Hk & Hs).
    intros (Hk' & Hs')%freq_loop_space. split; [congruence|].
    intros x. by rewrite Hs', Hs.
Defined.

(** ** The order of the set *)

Section order.
Context {Str : Type} `{CRStrategyLaws Str}.

Lemma less_irrefl s a : less s a a = false.
Proof. unfold less. by rewrite Z.eqb_refl, Z.ltb_irrefl. Qed.
Lemma less_trans s a b c : less s a b = true → less s b c = true → less s a c = true.
Proof. unfold less. repeat case_match; lia. Qed.
Lemma less_total s a b : a ≠ b → less s a b = false → less s b a = true.
Proof. unfold less. repeat case_match; lia. Qed.

Definition ordered (s : Str) (l : list Z) : Prop :=
  StronglySorted (λ a b, less s a b = true) l.

Lemma ordered_NoDup s l : ordered s l → NoDup l.
Proof.
  induction 1 as [|x l Hl IH Hx]; constructor; [|done].
  intros Hin. rewrite Forall_forall in Hx. specialize (Hx _ Hin).
  cbn beta in Hx. by rewrite less_irrefl in Hx.
Qed.

Lemma set_insert_perm s k l : ordered s l → k ∉ l → set_insert s k l ≡ₚ k :: l.
Proof.
  induction 1 as [|x l Hl IH Hx]; intros Hk; simpl; [done|].
  apply not_elem_of_cons in Hk as [Hkx Hkl].
  destruct (less s x k) eqn:E; [by rewrite IH by done; constructor|].
  by rewrite (less_total s x k) by done.
Qed.

Lemma set_insert_ordered s k l : ordered s l → k ∉ l → ordered s (set_insert s k l).
Proof.
  induction 1 as [|x l Hl IH Hx]; intros Hk; simpl; [repeat constructor|].
  apply not_elem_of_cons in Hk as [Hkx Hkl].
  destruct (less s x k) eqn:E.
  - constructor; [by apply IH|]. rewrite set_insert_perm by done. by constructor.
  - pose proof (less_total s x k ltac:(done) E) as E'. rewrite E'.
    constructor; [by constructor|]. constructor; [done|].
    weaken Hx. by apply less_trans.
Qed.

(** Changing the strategy state on keys outside the set keeps the order. *)
Lemma ordered_ext s s' l :
  (∀ a b, a ∈ l → b ∈ l → less s' a b = less s a b) → ordered s l → ordered s' l.
Proof.
  intros Hs. induction 1 as [|x l Hl IH Hx]; constructor.
  - apply IH. intros. apply Hs; by right.
  - rewrite Forall_forall in *. intros y Hy. rewrite Hs; [by apply Hx|by left|by right].
Qed.

Lemma ordered_sub s l k : ordered s l → sublist k l → ordered s k.
Proof.
  intros Hl Hk. revert Hl. induction Hk as [|x l1 l2 Hk IH|x l1 l2 Hk IH]; [done| |];
    inversion 1 as [|?? Hl2 Hx]; subst; [|by apply IH].
  constructor; [by apply IH|]. rewrite Forall_forall in *.
  intros y Hy. apply Hx. by eapply elem_of_sublist.
Qed.
End order.

(** The data manager keeps an invariant of its own and tracks which keys are
    loaded; a retrieval may fail. *)
Class DataManagerLaws (D : Type) `{DataManager D} := {
  dm_ok : D → Prop;
  loaded_keys : D → gset Z;
  dm_remove_law k d : dm_ok d → ∃ d', dm_remove_key k d = Ret d' ∧ dm_ok d' ∧
    loaded_keys d' = loaded_keys d ∖ {[ k ]};
  dm_retrieve_law k d d' : dm_ok d → dm_retrieve_key k d = Ret d' →
    dm_ok d' ∧ loaded_keys d' = {[ k ]} ∪ loaded_keys d
}.

Section invariant.
Context {Str D : Type} `{CRStrategyLaws Str, DataManagerLaws D}.
Notation CR := (CacheReplacement Str).

Definition size_of (c : CR) (k : Z) : Z := default 0 (space_map c !! k).

(** The set is ordered by the current costs, the counter is the sum of the
    sizes, within the limit, and the loaded keys are those of the set. *)
Record cr_ok (c : CR) (d : D) : Prop := {
  cr_ordered : ordered (strategy c) (priority_set c);
  cr_tracked : Forall (tracks (strategy c)) (priority_set c);
  cr_sizes : Forall (λ k, 0 ≤ size_of c k) (priority_set c);
  cr_used : size_used c = sumZ (size_of c <$> priority_set c);
  cr_limit : size_used c ≤ max_size_allowed c ∧ 2 * max_size_allowed c < 2 ^ 64;
  cr_manager : dm_ok d;
  cr_loaded : loaded_keys d = list_to_set (priority_set c)
}.

Definition held (c : CR) (k : Z) : Prop := is_Some (in_use c !! k).
#[global] Instance held_dec c k : Decision (held c k) := _.

Lemma sum_sizes_nonneg c (l : list Z) : Forall (λ k, 0 ≤ size_of c k) l → 0 ≤ sumZ (size_of c <$> l).
Proof. intros Hl. by apply sumZ_nonneg, Forall_fmap. Qed.

Lemma sizes_same (c c' : CR) (l : list Z) :
  (∀ k, k ∈ l → space_map c' !! k = space_map c !! k) →
  size_of c' <$> l = size_of c <$> l.
Proof.
  intros Hs. apply list_fmap_ext. intros i k Hk.
  unfold size_of. by rewrite Hs by (by eapply list_elem_of_lookup_2).
Qed.

Lemma set_erase_middle (k : Z) (l1 l2 : list Z) :
  NoDup (l1 ++ k :: l2) → set_erase k (l1 ++ k :: l2) = l1 ++ l2.
Proof.
  intros (N1 & N2 & N3)%NoDup_app. apply NoDup_cons in N3 as [N3 _].
  assert (Hid : ∀ l, k ∉ l → set_erase k l = l).
  { clear. induction l as [|x l IH]; [done|]. intros [Hx Hl]%not_elem_of_cons.
    unfold set_erase in *. rewrite filter_cons, decide_True by done. by rewrite IH. }
  unfold set_erase in *. rewrite filter_app, filter_cons, decide_False by tauto.
  rewrite !Hid; [done|done|]. intros Hk. apply (N2 k Hk). by left.
Qed.

(** Erasing the key after [kept]. *)
Definition erase_key (k : Z) (c : CR) : CR :=
  mkCR (s_remove_key k (strategy c)) (set_erase k (priority_set c)) (delete k (space_map c))
    (max_size_allowed c) (size_used c) (in_use c).
Lemma erase_key_spec (kept l : list Z) (k : Z) (c : CR) :
  priority_set c = kept ++ k :: l →
  ordered (strategy c) (priority_set c) → Forall (tracks (strategy c)) (priority_set c) →
  let c1 := erase_key k c in
  priority_set c1 = kept ++ l ∧ ordered (strategy c1) (priority_set c1) ∧
  Forall (tracks (strategy c1)) (priority_set c1) ∧
  ∀ x, x ∈ l → space_map c1 !! x = space_map c !! x.
Proof.
  intros Hset Hord Htr. cbv zeta. pose proof (ordered_NoDup _ _ Hord) as Hnd. rewrite Hset in Hnd.
  assert (Hset1 : priority_set (erase_key k c) = kept ++ l) by (simpl; by rewrite Hset, set_erase_middle).
  assert (Hkl : k ∉ kept ++ l).
  { rewrite <-Permutation_middle in Hnd. by apply NoDup_cons in Hnd as [? _]. }
  assert (Hsub : ∀ x, x ∈ kept ++ l → x ∈ priority_set c ∧ x ≠ k).
  { rewrite Hset. intros x Hx. split; [set_solver|]. by intros ->. }
  rewrite Forall_forall in Htr. rewrite Hset1. split_and!.
  - done.
  - apply (ordered_ext (strategy c)).
    + intros a b [??]%Hsub [??]%Hsub. by apply remove_less; try apply Htr.
    + eapply ordered_sub; [exact Hord|]. rewrite Hset. apply sublist_app; [done|by apply sublist_cons].
  - apply Forall_forall. intros x [Hx ?]%Hsub. apply remove_keeps; [by apply Htr|done].
  - intros x Hx. simpl. rewrite lookup_delete_ne; [done|]. intros <-. set_solver.
Qed.

(** What the eviction loop does, from an iterator that has passed [kept]: it
    drops the keys not in use among the first [n] that remain. *)
Lemma evict_spec (l : list Z) : ∀ (kept : list Z) (c : CR) (d : D) (next er : Z),
  priority_set c = kept ++ l → dm_ok d →
  ordered (strategy c) (priority_set c) → Forall (tracks (strategy c)) (priority_set c) →
  Forall (λ k, 0 ≤ size_of c k) l →
  sumZ (size_of c <$> l) ≤ next < 2 ^ 64 →
  0 ≤ er → er + sumZ (size_of c <$> l) < 2 ^ 64 →
  ∃ n c' d' ok, let dropped := filter (λ k, ¬ held c k) (take n l) in
    evict l c d next er =
      Ret (ok, c', d', next - sumZ (size_of c <$> dropped),
           er + sumZ (size_of c <$> dropped)) ∧
    priority_set c' = kept ++ filter (held c) (take n l) ++ drop n l ∧
    ordered (strategy c') (priority_set c') ∧
    Forall (tracks (strategy c')) (priority_set c') ∧
    max_size_allowed c' = max_size_allowed c ∧ size_used c' = size_used c ∧
    in_use c' = in_use c ∧
    (∀ k, k ∉ dropped → space_map c' !! k = space_map c !! k) ∧
    dm_ok d' ∧ loaded_keys d' = loaded_keys d ∖ list_to_set dropped ∧
    (ok = true → next - sumZ (size_of c <$> dropped) ≤ max_size_allowed c).
Proof.
  induction l as [|k l IH]; intros kept c d next er Hset Hdm Hord Htr Hsz Hnext Her0 Her.
  { exists 0%nat, c, d, (bool_decide (next ≤ max_size_allowed c)). simpl.
    split; [case_decide; [rewrite bool_decide_false by lia|rewrite bool_decide_true by lia];
            repeat f_equal; lia|].
    split_and!; try done; [set_solver|]. intros ?%bool_decide_eq_true. lia. }
  inversion Hsz as [|?? Hk Hl]; subst. cbn beta in Hk. rewrite fmap_cons, sumZ_cons in *.
  pose proof (sum_sizes_nonneg c l Hl) as Hnn. simpl.
  destruct (decide (next > max_size_allowed c)) as [Hgt|Hle].
  2: { exists 0%nat, c, d, true. simpl. split; [repeat f_equal; lia|].
       split_and!; try done; [set_solver|]. intros _. lia. }
  unfold is_using. case_bool_decide as Hu.
  - destruct (IH (kept ++ [k]) c d next er) as (n & c' & d' & ok & Hev & Hs' & Hrest);
      [by rewrite Hset, <-(assoc_L (++))|done|done|done|done|lia|lia|lia|].
    exists (S n), c', d', ok. cbn [take drop]. rewrite !filter_cons.
    rewrite (decide_False (P := ¬ held c k)) by tauto. rewrite (decide_True (P := held c k)) by done.
    split; [exact Hev|]. split; [by rewrite Hs', <-(assoc_L (++))|exact Hrest].
  - destruct (dm_remove_law k d Hdm) as (d1 & Hd1 & Hdm1 & Hl1). rewrite Hd1. simpl.
    destruct (erase_key_spec kept l k c Hset Hord Htr) as (Hset1 & Hord1 & Htr1 & Hsame).
    set (c1 := erase_key k c) in *.
    destruct (IH kept c1 d1 (next - size_of c k) (er + size_of c k))
      as (n & c' & d' & ok & Hev & Hs' & Ho' & Ht' & Hm' & Hu' & Hi' & Hsp' & Hdm' & Hl' & Hok);
      [done..| |rewrite (sizes_same c c1) by done; lia|lia|rewrite (sizes_same c c1) by done; lia|].
    { rewrite Forall_forall in *. intros x Hx. unfold size_of. rewrite Hsame by done. by apply Hl. }
    assert (Hdrop : ∀ m, size_of c1 <$> filter (λ k, ¬ held c1 k) (take m l) =
                         size_of c <$> filter (λ k, ¬ held c k) (take m l)).
    { intros m. apply sizes_same. intros x [_ Hx]%list_elem_of_filter.
      apply Hsame. eapply elem_of_sublist; [exact Hx|apply sublist_take]. }
    rewrite Hdrop in Hev, Hok.
    exists (S n), c', d', ok. cbn [take drop]. rewrite !filter_cons.
    rewrite (decide_True (P := ¬ held c k)) by done. rewrite (decide_False (P := held c k)) by done.
    rewrite fmap_cons, sumZ_cons. split_and!; try assumption.
    + fold (size_of c k).
      rewrite (u64_id (next - size_of c k)), (u64_id (er + size_of c k)) by (unfold in_u; lia).
      fold (erase_key k c). fold c1. by rewrite Hev, Z.sub_add_distr, Z.add_assoc.
    + intros x [Hxk Hx]%not_elem_of_cons. rewrite Hsp' by exact Hx. simpl. by rewrite lookup_delete_ne.
    + rewrite Hl', Hl1. set_solver.
    + intros E. specialize (Hok E). simpl in Hok. lia.
Qed.

(** Hitting a key that is not in the ordered list and inserting it. *)
Lemma hit_insert (st : Str) (key : Z) (l : list Z) :
  ordered st l → Forall (tracks st) l → key ∉ l →
  ordered (s_hit_key key st) (set_insert (s_hit_key key st) key l) ∧
  Forall (tracks (s_hit_key key st)) (set_insert (s_hit_key key st) key l) ∧
  set_insert (s_hit_key key st) key l ≡ₚ key :: l.
Proof.
  intros Ho Ht Hk. rewrite Forall_forall in Ht.
  assert (Hne : ∀ a, a ∈ l → a ≠ key) by (intros a Ha ->; done).
  assert (Ho' : ordered (s_hit_key key st) l).
  { apply (ordered_ext st); [|done]. intros a b Ha Hb. apply hit_less; auto. }
  pose proof (set_insert_perm _ _ _ Ho' Hk) as Hp.
  split_and!; [by apply set_insert_ordered| |done].
  rewrite Hp. constructor; [apply hit_tracks|]. apply Forall_forall.
  intros a Ha. apply hit_keeps; auto.
Qed.

Lemma elem_of_set_erase (k x : Z) (l : list Z) : x ∈ set_erase k l ↔ x ≠ k ∧ x ∈ l.
Proof. unfold set_erase. by rewrite list_elem_of_filter. Qed.

Lemma set_erase_perm (k : Z) (l : list Z) :
  NoDup l → k ∈ l → l ≡ₚ k :: set_erase k l.
Proof.
  intros Hn (l1 & l2 & ->)%list_elem_of_split. rewrite set_erase_middle by done.
  by rewrite Permutation_middle.
Qed.

(** The result of a call, as the client sees it: the invariant holds, an
    accepted key is cached, and what was dropped are the cheapest keys that
    are not in use. *)
Definition hit_post (c : CR) (key : Z) (b : bool) (c' : CR) (d' : D) : Prop :=
  cr_ok c' d' ∧ (b = true → key ∈ priority_set c') ∧
  max_size_allowed c' = max_size_allowed c ∧ in_use c' = in_use c ∧
  ∃ n, ∀ k, k ∈ priority_set c → k ≠ key →
    (k ∈ priority_set c' ↔ held c k ∨ k ∈ drop n (priority_set c)).

Lemma hit_present (c : CR) (d : D) (key : Z) :
  cr_ok c d → key ∈ priority_set c →
  let s := s_hit_key key (strategy c) in
  hit_post c key true
    (mkCR s (set_insert s key (set_erase key (priority_set c))) (space_map c)
       (max_size_allowed c) (size_used c) (in_use c)) d.
Proof.
  intros [Ho Ht Hs Hu Hl Hdm Hd] Hin. cbv zeta.
  pose proof (ordered_NoDup _ _ Ho) as Hnd.
  pose proof (set_erase_perm _ _ Hnd Hin) as Hperm.
  destruct (hit_insert (strategy c) key (set_erase key (priority_set c)))
    as (Ho' & Ht' & Hp).
  { eapply ordered_sub; [exact Ho|]. apply sublist_filter. }
  { rewrite Hperm in Ht. by inversion Ht. }
  { rewrite elem_of_set_erase. tauto. }
  rewrite <-Hperm in Hp. split_and!; [split| |done|done|]; simpl.
  - exact Ho'.
  - exact Ht'.
  - rewrite Hp. exact Hs.
  - rewrite Hu. transitivity (sumZ (size_of c <$> set_insert (s_hit_key key (strategy c)) key
      (set_erase key (priority_set c)))); [apply sumZ_perm; by rewrite Hp|done].
  - exact Hl.
  - exact Hdm.
  - rewrite Hd. apply set_eq. intros x. by rewrite !elem_of_list_to_set, Hp.
  - intros _. by rewrite Hp.
  - exists 0%nat. intros k Hk _. rewrite Hp, drop_0. tauto.
Qed.

Lemma ok_same_space (c c' : CR) (d : D) :
  cr_ok c d → ordered (strategy c') (priority_set c) →
  Forall (tracks (strategy c')) (priority_set c) → priority_set c' = priority_set c →
  (∀ k, k ∈ priority_set c → size_of c' k = size_of c k) →
  max_size_allowed c' = max_size_allowed c → size_used c' = size_used c → cr_ok c' d.
Proof.
  intros [Ho Ht Hs Hu Hl Hdm Hd] Ho' Ht' Hset Hsz Hm Hus.
  assert (E : size_of c' <$> priority_set c = size_of c <$> priority_set c).
  { apply list_fmap_ext. intros i k Hk. apply Hsz. by eapply list_elem_of_lookup_2. }
  split; rewrite ?Hset, ?Hm, ?Hus; try done.
  - rewrite Forall_forall in *. intros k Hk. rewrite Hsz by done. by apply Hs.
  - by rewrite E.
Qed.

Lemma split_perm (P : Z → Prop) `{!∀ x, Decision (P x)} (n : nat) (l : list Z) :
  l ≡ₚ filter (λ x, ¬ P x) (take n l) ++ filter P (take n l) ++ drop n l.
Proof.
  rewrite (assoc_L (++)).
  assert (Hp : ∀ k : list Z, k ≡ₚ filter (λ x, ¬ P x) k ++ filter P k).
  { induction k as [|x k IH]; [done|]. rewrite !filter_cons.
    destruct (decide (P x)); [rewrite decide_False by tauto|rewrite decide_True by done];
      simpl; [by rewrite <-Permutation_middle, <-IH|by rewrite <-IH]. }
  by rewrite <-Hp, take_drop.
Qed.

(** The state after an eviction loop that freed [erased] bytes: all the
    invariant says, except that the counter was not updated yet. *)
Record evicted (c : CR) (erased : Z) (c' : CR) (d' : D) : Prop := {
  ev_ordered : ordered (strategy c') (priority_set c');
  ev_tracked : Forall (tracks (strategy c')) (priority_set c');
  ev_max : max_size_allowed c' = max_size_allowed c;
  ev_used : size_used c' = size_used c;
  ev_in_use : in_use c' = in_use c;
  ev_sizes : Forall (λ k, 0 ≤ size_of c' k) (priority_set c');
  ev_sum : size_used c = erased + sumZ (size_of c' <$> priority_set c');
  ev_erased : 0 ≤ erased;
  ev_manager : dm_ok d';
  ev_loaded : loaded_keys d' = list_to_set (priority_set c')
}.

Lemma evict_ok (c : CR) (d : D) (next : Z) :
  cr_ok c d → size_used c ≤ next < 2 ^ 64 →
  ∃ n c' d' ok erased,
    evict (priority_set c) c d next 0 = Ret (ok, c', d', next - erased, erased) ∧
    priority_set c' = filter (held c) (take n (priority_set c)) ++ drop n (priority_set c) ∧
    evicted c erased c' d' ∧ (ok = true → next - erased ≤ max_size_allowed c).
Proof.
  intros [Ho Ht Hs Hu Hl Hdm Hd] Hnext.
  pose proof (sum_sizes_nonneg c _ Hs) as Hnn.
  destruct (evict_spec (priority_set c) [] c d next 0)
    as (n & c' & d' & ok & Hev & Hset & Ho' & Ht' & Hm & Hus & Hi & Hsp & Hdm' & Hld & Hok);
    [done..|lia|lia|lia|].
  set (dropped := filter (λ k, ¬ held c k) (take n (priority_set c))) in *.
  pose proof (split_perm (held c) n (priority_set c)) as Hperm. fold dropped in Hperm.
  simpl in Hset. rewrite <-Hset in Hperm.
  pose proof (ordered_NoDup _ _ Ho) as Hnd. rewrite Hperm in Hnd.
  apply NoDup_app in Hnd as (_ & Hdis & _).
  assert (Hsame : size_of c' <$> priority_set c' = size_of c <$> priority_set c').
  { apply sizes_same. intros k Hk. apply Hsp. intros Hk'. exact (Hdis _ Hk' Hk). }
  assert (Hsum : sumZ (size_of c <$> priority_set c) =
            sumZ (size_of c <$> dropped) + sumZ (size_of c <$> priority_set c')).
  { rewrite <-sumZ_app, <-fmap_app. apply sumZ_perm. by rewrite Hperm at 1. }
  assert (Hs' : Forall (λ k, 0 ≤ size_of c' k) (priority_set c')).
  { rewrite Forall_forall in *. intros k Hk. unfold size_of.
    rewrite Hsp by (intros Hk'; exact (Hdis _ Hk' Hk)). apply Hs.
    rewrite Hperm. apply elem_of_app. by right. }
  exists n, c', d', ok, (sumZ (size_of c <$> dropped)).
  split; [exact Hev|]. split; [exact Hset|]. split; [split; try done|exact Hok].
  - rewrite Hsame. lia.
  - apply sum_sizes_nonneg. rewrite Forall_forall in *. intros k Hk. apply Hs.
    rewrite Hperm. apply elem_of_app. by left.
  - rewrite Hld, Hd. apply set_eq. intros k.
    rewrite elem_of_difference, !elem_of_list_to_set, Hperm, elem_of_app.
    specialize (Hdis k). tauto.
Qed.

(** The new key is stored after the loop. *)
Lemma evict_accept (c c' : CR) (d' d2 : D) (key space_required erased : Z) :
  evicted c erased c' d' → key ∉ priority_set c' → 0 ≤ space_required →
  space_required + size_used c - erased ≤ max_size_allowed c →
  2 * max_size_allowed c < 2 ^ 64 → dm_retrieve_key key d' = Ret d2 →
  let s := s_hit_key key (strategy c') in
  cr_ok (mkCR s (set_insert s key (priority_set c'))
           (<[key := space_required]> (space_map c')) (max_size_allowed c')
           (space_required + size_used c - erased) (in_use c')) d2.
Proof.
  intros [Ho' Ht' Hm' Hu' Hi' Hs' Hsum Her Hdm Hld] Hnin Hsp Hlim Hmax Hd2. cbv zeta.
  destruct (dm_retrieve_law _ _ _ Hdm Hd2) as [Hdm2 Hld2].
  destruct (hit_insert (strategy c') key (priority_set c')) as (Ho2 & Ht2 & Hp); [done..|].
  split; simpl.
  - exact Ho2.
  - exact Ht2.
  - rewrite Hp. constructor; [unfold size_of; simpl; by rewrite lookup_insert_eq|].
    rewrite Forall_forall in *. intros k Hk. unfold size_of. simpl.
    rewrite lookup_insert_ne by (by intros ->). by apply Hs'.
  - set (f := size_of _).
    assert (Hf : ∀ k, f k = default 0 (<[key:=space_required]> (space_map c') !! k))
      by done. clearbody f. rewrite (sumZ_perm _ (f <$> key :: priority_set c'))
      by (by rewrite Hp). rewrite fmap_cons, sumZ_cons, Hf, lookup_insert_eq. simpl.
    replace (f <$> priority_set c') with (size_of c' <$> priority_set c'); [lia|].
    apply list_fmap_ext. intros i k Hk%list_elem_of_lookup_2.
    rewrite Hf, lookup_insert_ne; [done|by intros ->].
  - lia.
  - exact Hdm2.
  - rewrite Hld2, Hld. apply set_eq. intros k.
    rewrite elem_of_union, elem_of_singleton, !elem_of_list_to_set, Hp. set_solver.
Qed.

(** The loop could not free enough. *)
Lemma evict_reject (c c' : CR) (d' : D) (erased : Z) :
  evicted c erased c' d' → size_used c ≤ max_size_allowed c →
  2 * max_size_allowed c < 2 ^ 64 →
  cr_ok (mkCR (strategy c') (priority_set c') (space_map c') (max_size_allowed c')
           (u64 (size_used c' - erased)) (in_use c')) d'.
Proof.
  intros [Ho' Ht' Hm' Hu' Hi' Hs' Hsum Her Hdm Hld] Hlim Hmax.
  pose proof (sum_sizes_nonneg c' _ Hs'). rewrite u64_id by (unfold in_u; lia).
  split; simpl; try done; [|lia].
  change (size_of (mkCR _ _ (space_map c') _ _ _)) with (size_of c'). lia.
Qed.

(** A key that is turned away before anything is dropped. *)
Lemma hit_rejected (c c1 : CR) (d : D) (key : Z) :
  cr_ok c1 d → priority_set c1 = priority_set c → max_size_allowed c1 = max_size_allowed c →
  in_use c1 = in_use c → key ∉ priority_set c →
  hit_post c key false
    (if should_hit_without_retrieval key (strategy c1)
     then set_strategy c1 (s_hit_key key (strategy c1)) else c1) d.
Proof.
  intros Hok1 Ese Em Ei Hnin.
  assert (Hpost : ∀ c2, cr_ok c2 d → priority_set c2 = priority_set c →
    max_size_allowed c2 = max_size_allowed c → in_use c2 = in_use c →
    hit_post c key false c2 d).
  { intros c2 Hc2 Hs2 Hm2 Hi2. split_and!; try done. exists 0%nat. intros k Hk _.
    rewrite Hs2, drop_0. tauto. }
  pose proof Hok1 as [Ho Ht _ _ _ _ _]. rewrite <-Ese in Hnin.
  destruct (should_hit_without_retrieval _ _); apply Hpost; try done.
  rewrite Forall_forall in Ht. apply (ok_same_space c1); try done; simpl.
  - apply (ordered_ext (strategy c1)); [|done].
    intros a b Ha Hb. apply hit_less; [by auto..|by intros ->|by intros ->].
  - apply Forall_forall. intros a Ha. apply hit_keeps; [by auto|by intros ->].
Qed.

(** What a reordering of the queue may do to the cache, before anything is dropped. *)
Definition same_cache (c c1 : CR) : Prop :=
  strategy c1 = strategy c ∧ priority_set c1 = priority_set c ∧ max_size_allowed c1 = max_size_allowed c ∧
  size_used c1 = size_used c ∧ in_use c1 = in_use c.

(** A key for which others are dropped. *)
Lemma hit_evicting (c c1 : CR) (d : D) (key space_required : Z) :
  cr_ok c1 d → same_cache c c1 → 0 ≤ space_required ≤ max_size_allowed c → key ∉ priority_set c →
  (∀ d, dm_ok d → ∃ d', dm_retrieve_key key d = Ret d') →
  ∃ b c' d',
    ('(found, c, d, next_size, size_erased) ←
       evict (priority_set c1) c1 d (space_required + size_used c) 0;
     if (found : bool) then
       d ← dm_retrieve_key key d;
       let s := s_hit_key key (strategy c) in
       Ret (true, mkCR s (set_insert s key (priority_set c))
                    (<[key := space_required]> (space_map c)) (max_size_allowed c) next_size (in_use c), d)
     else
       Ret (false, mkCR (strategy c) (priority_set c) (space_map c) (max_size_allowed c)
                     (u64 (size_used c - size_erased)) (in_use c), d)) = Ret (b, c', d') ∧
    hit_post c key b c' d'.
Proof.
  intros Hok1 (_ & Ese & Em & Eu & Ei) Hsp Hnin Hret. pose proof Hok1 as [_ _ Hs Hu Hl _ _].
  pose proof (sum_sizes_nonneg c1 _ Hs) as Hnn.
  set (next := space_required + size_used c).
  destruct (evict_ok c1 d next) as (n & c' & d' & ok & erased & Hev & Hset & Hevd & Hlim);
    [done|unfold next; lia|].
  rewrite Hev. simpl.
  assert (Hset' : ∀ k, k ∈ priority_set c →
    (k ∈ priority_set c' ↔ held c k ∨ k ∈ drop n (priority_set c))).
  { intros k Hk. rewrite Hset, Ese, elem_of_app, list_elem_of_filter. unfold held. rewrite Ei.
    rewrite <-(take_drop n (priority_set c)), elem_of_app in Hk. tauto. }
  assert (Hnin' : key ∉ priority_set c').
  { rewrite Hset, Ese. intros [[_ Hk]%list_elem_of_filter|Hk]%elem_of_app; apply Hnin;
      eapply elem_of_sublist; [exact Hk|apply sublist_take|exact Hk|apply sublist_drop]. }
  pose proof (ev_max _ _ _ _ Hevd) as Hm'. pose proof (ev_in_use _ _ _ _ Hevd) as Hi'.
  destruct ok.
  - destruct (Hret d' (ev_manager _ _ _ _ Hevd)) as [d2 Hd2]. rewrite Hd2. simpl.
    eexists true, _, d2. split; [done|].
    destruct (hit_insert (strategy c') key (priority_set c')) as (_ & _ & Hp); [apply Hevd..|done|].
    unfold next in *. rewrite <-Eu in *.
    split_and!; simpl; [|intros _; rewrite Hp; by left|congruence|congruence|].
    + apply (evict_accept c1 c' d'); try done; rewrite Em in *; [lia|by apply Hlim|lia].
    + exists n. intros k Hk Hne. rewrite Hp, elem_of_cons, <-Hset' by done. tauto.
  - eexists false, _, d'. split; [done|].
    split_and!; simpl; [|done|congruence|congruence|].
    + apply (evict_reject c1); [done|lia..].
    + exists n. intros k Hk _. by apply Hset'.
Qed.

(** A call, in every case. *)
Lemma hit_key_spec (c : CR) (d : D) (key space_required : Z) :
  cr_ok c d → 0 ≤ space_required →
  (∀ d, dm_ok d → ∃ d', dm_retrieve_key key d = Ret d') →
  ∃ b c' d', hit_key key space_required c d = Ret (b, c', d') ∧ hit_post c key b c' d'.
Proof.
  intros Hok Hsp Hret. pose proof Hok as [Ho Ht Hs Hu Hl Hdm Hd].
  pose proof (sum_sizes_nonneg c _ Hs) as Hnn. unfold hit_key.
  destruct (decide (space_required > max_size_allowed c)) as [|Hle].
  { exists false, c, d. split; [done|]. split_and!; try done.
    exists 0%nat. intros k Hk _. rewrite drop_0. tauto. }
  destruct (decide (key ∈ priority_set c)) as [Hin|Hnin].
  { eexists true, _, d. split; [done|]. by apply hit_present. }
  rewrite (u64_id (space_required + size_used c)) by (unfold in_u; lia).
  set (step := if decide (space_required + size_used c > max_size_allowed c) then _ else _).
  assert (Hstep : ∃ g c1, step = (g, c1) ∧ cr_ok c1 d ∧ same_cache c c1).
  { unfold step. case_decide; [|by exists false, c].
    destruct (should_discard_others_for_key _ _ _) as [b pq] eqn:E.
    apply discard_space in E as [Hk Hsps]. eexists _, _. split; [done|].
    split; [|done]. eapply ok_same_space; try done.
    intros k _. unfold size_of. simpl. by rewrite Hsps. }
  destruct Hstep as (g & c1 & -> & Hok1 & Hsame). destruct g.
  - eexists false, _, d. split; [done|]. destruct Hsame as (_ & Ese & Em & _ & Ei). by apply hit_rejected.
  - apply hit_evicting; [done..|lia|done|done].
Qed.

(** C25: hitting a key never leaves the cache over its limit or its bookkeeping
    wrong: the ordered set, the sizes and the loaded data stay in step, an
    accepted key is cached, and only the cheapest keys not in use are dropped. *)
Theorem hit_key_correct (c : CR) (d : D) (key space_required : Z) :
  cr_ok c d → 0 ≤ space_required →
  (∀ d, dm_ok d → ∃ d', dm_retrieve_key key d = Ret d') →
  ∃ b c' d', hit_key key space_required c d = Ret (b, c', d') ∧ hit_post c key b c' d'.
Proof. apply hit_key_spec. Qed.
End invariant.

(** ** The LRU order *)

(** the order of use is lost when the key with the lowest stamp is hit again
    and no larger key is stored: the stamps restart below the one just given,
    so the next key hit, the most recent one, is the first to be dropped. *)
Theorem lru_order_lost k k' :
  k ≠ k' →
  let s := fold_left (λ s x, lru_hit_key x s) [k; k; k'] (mkLRU 0 0 ∅) in
  less s k' k = true ∧ less s k k' = false.
Proof.
  intros Hk. unfold fold_left.
  assert (E1 : lru_hit_key k (mkLRU 0 0 ∅) = mkLRU 0 1 {[ k := 0 ]}) by done.
  assert (E2 : lru_hit_key k (mkLRU 0 1 {[ k := 0 ]}) = mkLRU 0 0 {[ k := 1 ]}).
  { unfold lru_hit_key, lru_remove_key. simpl. rewrite lookup_singleton_eq.
    assert (next_entry {[ k := 0 ]} k = None) as ->.
    { unfold next_entry. assert (entries {[ k := 0 ]} = [(k, 0)]) as ->.
      { apply Permutation_singleton_r. by rewrite entries_perm, map_to_list_singleton. }
      rewrite filter_cons, decide_False by (simpl; lia). done. }
    simpl. rewrite insert_delete_eq. unfold singletonM, map_singleton. by rewrite insert_insert_eq. }
  assert (E3 : lru_hit_key k' (mkLRU 0 0 {[ k := 1 ]}) =
               mkLRU 0 1 (<[k' := 0]> {[ k := 1 ]})).
  { unfold lru_hit_key, lru_remove_key. simpl. by rewrite lookup_singleton_ne. }
  rewrite E1, E2, E3. unfold less. simpl. unfold lru_cost_function. simpl.
  rewrite lookup_insert_eq, lookup_insert_ne, lookup_singleton_eq by done. done.
Qed.

(** ** Locks *)

(** The keys in use and how often, for the strategies that keep them. *)
Definition in_use_of (r : AnyReplacement) : option (gmap Z Z) :=
  match r with
  | AnyLRU c => Some (in_use c)
  | AnyFrequency c => Some (in_use c)
  | AnyNoCaching _ => None
  end.
(** Every key is in use as often as [u] says. *)
Definition locks_are (r : AnyReplacement) (u : Z → Z) : Prop :=
  ∀ m, in_use_of r = Some m → ∀ q, 0 ≤ u q ∧ m !! q = if decide (u q = 0) then None else Some (u q).
Definition times (q : Z) (l : list Z) : Z := Z.of_nat (length (filter (λ x, x = q) l)).
Lemma times_cons q x l : times q (x :: l) = (if decide (x = q) then 1 else 0) + times q l.
Proof. unfold times. rewrite filter_cons. case_decide; simpl; lia. Qed.

Lemma locks_ext r u v : (∀ q, u q = v q) → locks_are r u → locks_are r v.
Proof. intros E Hr m Hm q. rewrite <-E. by apply Hr. Qed.
Lemma mark_using_locks r r' u k : locks_are r u → any_mark_using k r = Ret r' →
  locks_are r' (λ q, u q + if decide (k = q) then 1 else 0).
Proof.
  intros Hr E. assert (Hmap : ∀ m, in_use_of r = Some m → ∀ q,
    0 ≤ u q + (if decide (k = q) then 1 else 0) ∧
    (match m !! k with None => <[k := 1]> m | Some n => <[k := n + 1]> m end) !! q =
      if decide (u q + (if decide (k = q) then 1 else 0) = 0) then None else Some (u q + if decide (k = q) then 1 else 0)).
  { intros m Hm q. destruct (Hr m Hm k) as [Hk ->], (Hr m Hm q) as [Hq Eq]. split; [destruct (decide (k = q)); lia|].
    destruct (decide (k = q)) as [<-|Hne].
    - rewrite (decide_False (P := u k + 1 = 0)) by lia. destruct (decide (u k = 0)) as [->|]; by rewrite lookup_insert_eq.
    - rewrite !Z.add_0_r, <-Eq. destruct (decide (u k = 0)); by rewrite lookup_insert_ne. }
  destruct r as [c|c|c]; simpl in E; [apply fmap_Ret in E as (c' & E & ->).. |by injection E as <-];
    specialize (Hmap _ eq_refl); unfold mark_using in E; intros m Hm; apply (inj Some) in Hm as <-;
    (destruct (in_use c !! k); [apply bind_inv in E as (n & ->%int_chk_inv & E)|]);
    injection E as <-; exact Hmap.
Qed.
Lemma mark_ready_locks r u k : locks_are r u → 0 < u k →
  locks_are (any_mark_ready k r) (λ q, u q - if decide (k = q) then 1 else 0).
Proof.
  intros Hr Hpos. assert (Hmap : ∀ m, in_use_of r = Some m → m !! k = Some (u k) ∧ ∀ q,
    0 ≤ u q - (if decide (k = q) then 1 else 0) ∧
    (if decide (u k - 1 ≤ 0) then delete k m else <[k := u k - 1]> m) !! q =
      if decide (u q - (if decide (k = q) then 1 else 0) = 0) then None else Some (u q - if decide (k = q) then 1 else 0)).
  { intros m Hm. split; [destruct (Hr m Hm k) as [_ ->]; by rewrite decide_False by lia|].
    intros q. destruct (Hr m Hm q) as [Hq Eq]. split; [destruct (decide (k = q)) as [<-|]; lia|].
    destruct (decide (k = q)) as [<-|Hne].
    - destruct (decide (u k - 1 ≤ 0)); [rewrite lookup_delete_eq, decide_True by lia|rewrite lookup_insert_eq, decide_False by lia]; done.
    - rewrite !Z.sub_0_r, <-Eq. destruct (decide (u k - 1 ≤ 0)); [by rewrite lookup_delete_ne|by rewrite lookup_insert_ne]. }
  destruct r as [c|c|c]; [| |done]; simpl; unfold mark_ready; destruct (Hmap _ eq_refl) as [-> Hq];
    rewrite (decide_True (P := u k > 0)) by lia; intros m [= <-]; exact Hq.
Qed.

Lemma mark_all_using l : ∀ r r' u, locks_are r u → foldM (λ r q, any_mark_using q r) r l = Ret r' →
  locks_are r' (λ q, u q + times q l).
Proof.
  induction l as [|k l IH]; intros r r' u Hr E; cbn [foldM] in E.
  - injection E as <-. eapply locks_ext, Hr. intros q. unfold times. simpl. lia.
  - apply bind_inv in E as (r1 & E1 & E). eapply locks_ext, IH, E; [|by eapply mark_using_locks, E1].
    intros q. simpl. rewrite times_cons. lia.
Qed.
Lemma mark_all_kind l : ∀ r r', foldM (λ r q, any_mark_using q r) r l = Ret r' →
  in_use_of r' = None ↔ in_use_of r = None.
Proof.
  induction l as [|k l IH]; intros r r' E; cbn [foldM] in E; [by injection E as <-|].
  apply bind_inv in E as (r1 & E1 & E). rewrite (IH _ _ E).
  destruct r as [c|c|c]; simpl in E1; [apply fmap_Ret in E1 as (c' & E1 & ->).. |by injection E1 as <-]; done.
Qed.
Lemma mark_all_ready l : ∀ r u, locks_are r u → (∀ q, times q l ≤ u q) →
  locks_are (fold_left (λ r q, any_mark_ready q r) l r) (λ q, u q - times q l).
Proof.
  induction l as [|k l IH]; intros r u Hr Hle; cbn [fold_left].
  - eapply locks_ext, Hr. intros q. unfold times. simpl. lia.
  - setoid_rewrite times_cons in Hle. eapply locks_ext; [|apply IH; [apply mark_ready_locks; [exact Hr|]|]].
    + intros q. simpl. rewrite times_cons. lia.
    + specialize (Hle k). rewrite decide_True in Hle by done. unfold times in Hle. lia.
    + intros q. specialize (Hle q). simpl in *. lia.
Qed.

(** ** Steps of a call *)
Section steps.
Context {D : Type} `{Dm : DataManager D}.
Implicit Types (d : D).

Lemma run_finished {C} (step : hit_state → C → D → outcome (hit_state * C * D)) fuel b c d :
  run_steps step fuel (Finished b) c d = Ret (Some (b, c, d)).
Proof. by destruct fuel. Qed.
Lemma run_scanning {Str} `{CRStrategy Str} key space it : ∀ (c : CacheReplacement Str) d next er fuel,
  (2 * length it + 3 ≤ fuel)%nat →
  run_steps (hit_step key space) fuel (Scanning it next er) c d =
    ('(found, c, d, next_size, size_erased) ← evict it c d next er;
     if (found : bool) then
       d ← dm_retrieve_key key d;
       let s := s_hit_key key (strategy c) in
       Ret (Some (true, mkCR s (set_insert s key (priority_set c)) (<[key := space]> (space_map c))
                          (max_size_allowed c) next_size (in_use c), d))
     else Ret (Some (false, mkCR (strategy c) (priority_set c) (space_map c) (max_size_allowed c)
                       (u64 (size_used c - size_erased)) (in_use c), d))).
Proof.
  assert (Hload : ∀ (c : CacheReplacement Str) d next fuel, (0 < fuel)%nat →
    run_steps (hit_step key space) fuel (Loading next) c d =
      (d ← dm_retrieve_key key d; let s := s_hit_key key (strategy c) in
       Ret (Some (true, mkCR s (set_insert s key (priority_set c)) (<[key := space]> (space_map c))
                          (max_size_allowed c) next (in_use c), d)))).
  { intros c d next fuel Hf. destruct fuel as [|fuel]; [lia|]. cbn [run_steps hit_step].
    destruct (dm_retrieve_key key d); try done. cbn [mbind outcome_bind]. by rewrite run_finished. }
  induction it as [|k it IH]; intros c d next er fuel Hf; simpl in Hf; (destruct fuel as [|fuel]; [lia|]);
    cbn [run_steps hit_step evict]; case_decide; cbn [mbind outcome_bind];
    try (rewrite Hload by lia; done).
  - by rewrite run_finished.
  - destruct (is_using k c); [apply IH; lia|]. destruct fuel as [|fuel]; [lia|]. cbn [run_steps hit_step].
    destruct (dm_remove_key k d); try done. cbn [mbind outcome_bind]. apply IH. lia.
Qed.
(** The steps of a call that nothing interrupts are [hit_key]. *)
Theorem hit_key_steps {Str} `{CRStrategy Str} key space (c : CacheReplacement Str) d fuel :
  (2 * length (priority_set c) + 4 ≤ fuel)%nat →
  run_steps (hit_step key space) fuel Called c d = Some <$> hit_key key space c d.
Proof.
  intros Hf. destruct fuel as [|fuel]; [lia|]. unfold hit_key. cbn [run_steps hit_step].
  case_decide; [by apply run_finished|]. case_decide; [by apply run_finished|].
  set (pre := if decide _ then _ else _). assert (Hpre : priority_set pre.2 = priority_set c).
  { unfold pre. case_decide; [|done]. by destruct (should_discard_others_for_key _ _ _). }
  destruct pre as [reject c1]. simpl in Hpre. destruct reject; [by apply run_finished|].
  cbn [mbind outcome_bind]. rewrite run_scanning by (rewrite Hpre; lia).
  destruct (evict _ _ _ _ _) as [[[[[found c2] d2] ?] ?]| |]; try done. cbn [mbind outcome_bind].
  destruct found; [|done]. by destruct (dm_retrieve_key key d2).
Qed.

(** A step leaves the uses alone; it changes the data by loading the key that was hit, or
    by dropping a key, which happens only after a step that found the key free. *)
Lemma hit_step_inv {Str} `{CRStrategy Str} key size h (c : CacheReplacement Str) d h' c' d' :
  hit_step key size h c d = Ret (h', c', d') → in_use c' = in_use c ∧
  (d' = d ∨ dm_retrieve_key key d = Ret d' ∨ ∃ q it n er, h = Dropping q it n er ∧ dm_remove_key q d = Ret d') ∧
  ∀ q it n er, h' = Dropping q it n er → in_use c !! q = None.
Proof.
  destruct h as [|it n er|q it n er|n|b]; simpl.
  - case_decide; [intros [= <- <- <-]; split_and!; auto; done|].
    case_decide; [intros [= <- <- <-]; split_and!; auto; done|].
    set (pre := if decide _ then _ else _). assert (Hpre : in_use pre.2 = in_use c).
    { unfold pre. case_decide; [|done]. by destruct (should_discard_others_for_key _ _ _). }
    destruct pre as [reject c1]. simpl in Hpre. destruct reject; intros [= <- <- <-]; split_and!; auto; try done.
    by case_match.
  - case_decide; [destruct it as [|k it]|]; intros [= <- <- <-]; split_and!; auto; try done.
    intros q it' n' er'. unfold is_using. case_bool_decide as Hu; [done|]. intros [= <- <- <- <-]. by apply eq_None_not_Some.
  - intros Hr. apply bind_inv in Hr as (d1 & Hd & [= <- <- <-]). split_and!; [done| |done].
    right; right. by eexists _, _, _, _.
  - intros Hr. apply bind_inv in Hr as (d1 & Hd & [= <- <- <-]). split_and!; auto; done.
  - intros [= <- <- <-]. by split_and!; auto.
Qed.

(** The same for any strategy. *)
Lemma run_mapped {C C'} (f : C → C') (step : hit_state → C → D → outcome (hit_state * C * D))
    (step' : hit_state → C' → D → outcome (hit_state * C' * D)) :
  (∀ h c d, step' h (f c) d = ('(h, c, d) ← step h c d; Ret (h, f c, d))) → ∀ fuel h c d,
  run_steps step' fuel h (f c) d =
    (λ m : option (bool * C * D), option_map (λ r, (r.1.1, f r.1.2, r.2)) m) <$> run_steps step fuel h c d.
Proof.
  intros Hstep fuel. induction fuel as [|fuel IH]; intros h c d; [by destruct h|].
  destruct h; try done; cbn [run_steps]; rewrite Hstep; destruct (step _ c d) as [[[? ?] ?]| |]; try done; apply IH.
Qed.
Lemma any_hit_steps key space r d : ∃ enough, ∀ fuel, (enough ≤ fuel)%nat →
  run_steps (any_hit_step key space) fuel Called r d = Some <$> any_hit_key key space r d.
Proof.
  destruct r as [c|c|c].
  - exists (2 * length (priority_set c) + 4)%nat. intros fuel Hf.
    rewrite (run_mapped AnyLRU (hit_step key space)) by done. rewrite hit_key_steps by done. simpl.
    by destruct (hit_key key space c d) as [[[? ?] ?]| |].
  - exists (2 * length (priority_set c) + 4)%nat. intros fuel Hf.
    rewrite (run_mapped AnyFrequency (hit_step key space)) by done. rewrite hit_key_steps by done. simpl.
    by destruct (hit_key key space c d) as [[[? ?] ?]| |].
  - exists 1%nat. intros fuel Hf. destruct fuel as [|fuel]; [lia|]. by destruct fuel.
Qed.
Lemma any_hit_step_inv key size h r d h' r' d' : any_hit_step key size h r d = Ret (h', r', d') →
  in_use_of r' = in_use_of r ∧
  (d' = d ∨ dm_retrieve_key key d = Ret d' ∨ ∃ q it n er, h = Dropping q it n er ∧ dm_remove_key q d = Ret d') ∧
  ∀ q it n er, h' = Dropping q it n er → ∃ m, in_use_of r = Some m ∧ m !! q = None.
Proof.
  destruct r as [c|c|c]; simpl.
  1-2: intros Hr; apply bind_inv in Hr as ([[h1 c1] d1] & Hr & [= <- <- <-]); apply hit_step_inv in Hr as (Hu & Hd & Hq);
    split; [by rewrite <-Hu|]; split; [done|]; intros q it n er E; eexists; (split; [done|]); by eapply Hq.
  intros [= <- <- <-]. split; [done|]. by split; [left|].
Qed.
End steps.

(** ** A concrete data manager *)
#[export] Instance set_manager : DataManager (gset Z) := {|
  dm_remove_key k d := Ret (d ∖ {[ k ]});
  dm_retrieve_key k d := Ret ({[ k ]} ∪ d)
|}.
#[refine, export] Instance set_manager_laws : DataManagerLaws (gset Z) := {|
  dm_ok _ := True;
  loaded_keys d := d
|}.
Proof.
  - intros k d _. by eexists.
  - by intros k d d' _ [= <-].
Defined.

Definition toy_cache : CacheReplacement FrequencyReplacementStrategy :=
  mkCR (mkFrequency {[ 4 := 2; 7 := 1 ]}) [7; 4] {[ 4 := 30; 7 := 50 ]} 100 80 {[ 7 := 1 ]}.

Lemma toy_cache_ok : cr_ok toy_cache ({[ 4; 7 ]} : gset Z).
Proof.
  split; simpl.
  - repeat constructor.
  - by repeat constructor.
  - repeat constructor; vm_compute; discriminate.
  - reflexivity.
  - lia.
  - done.
  - set_solver.
Qed.

Lemma hit_key_correct_witness :
  ∃ b c' d', hit_key 9 60 toy_cache ({[ 4; 7 ]} : gset Z) = Ret (b, c', d') ∧
             hit_post toy_cache 9 b c' d'.
Proof.
  apply hit_key_correct; [exact toy_cache_ok|lia|]. intros d _. by eexists.
Defined.
Lemma lru_order_lost_witness :
  let s := fold_left (λ s x, lru_hit_key x s) [1; 1; 2] (mkLRU 0 0 ∅) in
  less s 2 1 = true ∧ less s 1 2 = false.
Proof. apply (lru_order_lost 1 2). lia. Defined.
