(* ===== verification/CachedSource.v ===== *)
(** * core/fic and network/scanner: a predicate indexed by both columns

    [FullyIndexedPredicate] copies the points of a tree into two hash maps; its
    lookups go through [operator[]], so they insert an empty vector for an
    unknown key. The cached scanners walk it. *)
From S2P Require Import Prelude Streams Memory Blocks K2Tree Scanners.

Local Open Scope Z_scope.

(** ** FullyIndexedPredicate.cpp *)

Record FullyIndexedPredicate := mkFIP {
  subject_to_object : gmap Z (list Z);
  object_to_subject : gmap Z (list Z);
  subjects : gset Z;
  objects : gset Z
}.

(** [m[k]]: the vector of [k], created empty when there is none. *)
Definition entry (m : gmap Z (list Z)) (k : Z) : list Z * gmap Z (list Z) :=
  match m !! k with Some l => (l, m) | None => ([], <[k := []]> m) end.
Definition push (m : gmap Z (list Z)) (k x : Z) : gmap Z (list Z) :=
  let '(l, m) := entry m k in <[k := l ++ [x]]> m.

(** The reporter given to [scan_points]. *)
Definition index_point (f : FullyIndexedPredicate) (p : Z * Z) : FullyIndexedPredicate :=
  let '(col, row) := p in
  mkFIP (push (subject_to_object f) col row) (push (object_to_subject f) row col)
        ({[ col ]} ∪ subjects f) ({[ row ]} ∪ objects f).

Definition new_FullyIndexedPredicate `{K2Lib} (k2tree : K2TreeMixed)
    : outcome FullyIndexedPredicate :=
  scan_points k2tree index_point (mkFIP ∅ ∅ ∅ ∅).

Definition fip_has (subject_id object_id : Z) (f : FullyIndexedPredicate)
    : bool * FullyIndexedPredicate :=
  let '(so, s2o) := entry (subject_to_object f) subject_id in
  let '(os, o2s) := entry (object_to_subject f) object_id in
  (if decide (length so ≤ length os)%nat then bool_decide (object_id ∈ so)
   else bool_decide (subject_id ∈ os),
   mkFIP s2o o2s (subjects f) (objects f)).

Definition get_subjects (object_value : Z) (f : FullyIndexedPredicate)
    : list Z * FullyIndexedPredicate :=
  let '(l, m) := entry (object_to_subject f) object_value in
  (l, mkFIP (subject_to_object f) m (subjects f) (objects f)).
Definition get_objects (subject_value : Z) (f : FullyIndexedPredicate)
    : list Z * FullyIndexedPredicate :=
  let '(l, m) := entry (subject_to_object f) subject_value in
  (l, mkFIP m (object_to_subject f) (subjects f) (objects f)).

(** A std::set is visited in increasing order. *)
Definition ascending (s : gset Z) : list Z := merge_sort Z.le (elements s).
Definition get_all_subjects (f : FullyIndexedPredicate) : list Z := ascending (subjects f).
Definition get_all_objects (f : FullyIndexedPredicate) : list Z := ascending (objects f).

(** ** The cached scanners *)

Record CachedObjectScanner := mkCOS {
  cos_objects : list Z; cos_position : nat; cos_subject : Z
}.
Definition new_CachedObjectScanner (f : FullyIndexedPredicate) (subject_value : Z)
    : CachedObjectScanner * FullyIndexedPredicate :=
  let '(l, f) := get_objects subject_value f in (mkCOS l 0 subject_value, f).
#[export] Instance cached_object_scanner : Scanner CachedObjectScanner := {|
  sc_has_next s := Ret (bool_decide (cos_position s < length (cos_objects s))%nat, s);
  sc_next s :=
    x ← deref (cos_objects s !! cos_position s);
    Ret ((cos_subject s, x), mkCOS (cos_objects s) (S (cos_position s)) (cos_subject s))
|}.

Record CachedSubjectScanner := mkCSS {
  css_subjects : list Z; css_position : nat; css_object : Z
}.
Definition new_CachedSubjectScanner (f : FullyIndexedPredicate) (object_value : Z)
    : CachedSubjectScanner * FullyIndexedPredicate :=
  let '(l, f) := get_subjects object_value f in (mkCSS l 0 object_value, f).
#[export] Instance cached_subject_scanner : Scanner CachedSubjectScanner := {|
  sc_has_next s := Ret (bool_decide (css_position s < length (css_subjects s))%nat, s);
  sc_next s :=
    x ← deref (css_subjects s !! css_position s);
    Ret ((x, css_object s), mkCSS (css_subjects s) (S (css_position s)) (css_object s))
|}.

(** CachedSubjectObjectScanner: [cso_it] is the rest of the base set from the
    iterator on. *)
Record CachedSubjectObjectScanner := mkCSO {
  cso_source : FullyIndexedPredicate;
  cso_left_right : bool;
  cso_it : list Z;
  cso_base : Z;
  cso_active : list Z;
  cso_position : nat
}.

Definition get_active_elements (left_right_dir : bool) (current_base_element : Z)
    (f : FullyIndexedPredicate) : list Z * FullyIndexedPredicate :=
  if left_right_dir then get_objects current_base_element f
  else get_subjects current_base_element f.

(** Moving to the element the iterator points at: [*base_set_it]. *)
Definition cso_enter (f : FullyIndexedPredicate) (left_right_dir : bool) (it : list Z)
    : outcome CachedSubjectObjectScanner :=
  b ← deref (head it);
  let '(l, f) := get_active_elements left_right_dir b f in
  Ret (mkCSO f left_right_dir it b l 0).

Definition new_CachedSubjectObjectScanner (f : FullyIndexedPredicate)
    : outcome CachedSubjectObjectScanner :=
  let left_right_dir :=
    bool_decide (length (get_all_subjects f) ≤ length (get_all_objects f))%nat in
  cso_enter f left_right_dir
    (if left_right_dir then get_all_subjects f else get_all_objects f).

(** The loop of [has_next], one step of the iterator at a time. *)
Fixpoint cso_has_next (it : list Z) (s : CachedSubjectObjectScanner)
    : outcome (bool * CachedSubjectObjectScanner) :=
  match it with
  | [] => Ret (false, s)
  | _ :: it' =>
      if decide (length (cso_active s) ≤ cso_position s)%nat then
        s ← cso_enter (cso_source s) (cso_left_right s) it';
        cso_has_next it' s
      else Ret (true, s)
  end.
#[export] Instance cached_subject_object_scanner : Scanner CachedSubjectObjectScanner := {|
  sc_has_next s := cso_has_next (cso_it s) s;
  sc_next s :=
    match cso_active s !! cso_position s with
    | None => Throw StdOutOfRange
    | Some next_active =>
        Ret (if cso_left_right s then (cso_base s, next_active) else (next_active, cso_base s),
             mkCSO (cso_source s) (cso_left_right s) (cso_it s) (cso_base s) (cso_active s)
               (S (cso_position s)))
    end
|}.

(** ** The index holds the points *)

Definition vec (m : gmap Z (list Z)) (k : Z) : list Z := default [] (m !! k).

Record indexes (f : FullyIndexedPredicate) (S : gset (Z * Z)) : Prop := {
  ix_objects s : NoDup (vec (subject_to_object f) s) ∧
    ∀ o, o ∈ vec (subject_to_object f) s ↔ (s, o) ∈ S;
  ix_subjects o : NoDup (vec (object_to_subject f) o) ∧
    ∀ s, s ∈ vec (object_to_subject f) o ↔ (s, o) ∈ S;
  ix_all_subjects s : s ∈ subjects f ↔ ∃ o, (s, o) ∈ S;
  ix_all_objects o : o ∈ objects f ↔ ∃ s, (s, o) ∈ S
}.

Lemma entry_vec m k : ∃ m', entry m k = (vec m k, m') ∧ ∀ x, vec m' x = vec m x.
Proof.
  unfold entry, vec. destruct (m !! k) eqn:E; eexists; (split; [done|]); [done|].
  intros x. rewrite lookup_insert. case_decide; [by subst; rewrite E|done].
Qed.

Lemma vec_push m k x y : vec (push m k x) y = if decide (k = y) then vec m k ++ [x] else vec m y.
Proof.
  unfold push. destruct (entry_vec m k) as (m' & -> & Hv). unfold vec at 1.
  rewrite lookup_insert. case_decide; [done|]. apply Hv.
Qed.

(** A lookup creates at most an empty vector. *)
Lemma indexes_vec f f' S :
  indexes f S → (∀ k, vec (subject_to_object f') k = vec (subject_to_object f) k) →
  (∀ k, vec (object_to_subject f') k = vec (object_to_subject f) k) →
  subjects f' = subjects f → objects f' = objects f → indexes f' S.
Proof.
  intros [H1 H2 H3 H4] E1 E2 E3 E4. split; intros; rewrite ?E1, ?E2, ?E3, ?E4; auto.
Qed.

Lemma get_objects_spec s f S :
  indexes f S → ∃ l f', get_objects s f = (l, f') ∧ indexes f' S ∧ NoDup l ∧
    ∀ o, o ∈ l ↔ (s, o) ∈ S.
Proof.
  intros Hi. unfold get_objects. destruct (entry_vec (subject_to_object f) s) as (m & -> & Hm).
  eexists _, _. split; [done|]. split; [by eapply indexes_vec|]. apply (ix_objects _ _ Hi).
Qed.
Lemma get_subjects_spec o f S :
  indexes f S → ∃ l f', get_subjects o f = (l, f') ∧ indexes f' S ∧ NoDup l ∧
    ∀ s, s ∈ l ↔ (s, o) ∈ S.
Proof.
  intros Hi. unfold get_subjects. destruct (entry_vec (object_to_subject f) o) as (m & -> & Hm).
  eexists _, _. split; [done|]. split; [by eapply indexes_vec|]. apply (ix_subjects _ _ Hi).
Qed.

Lemma index_point_spec f S c r :
  indexes f S → (c, r) ∉ S → indexes (index_point f (c, r)) ({[ (c, r) ]} ∪ S).
Proof.
  intros [H1 H2 H3 H4] Hn. split; simpl.
  - intros s. rewrite vec_push. case_decide as E;
      [subst s; destruct (H1 c) as [N E1]|destruct (H1 s) as [N E1]].
    + split; [|set_solver]. apply NoDup_app. split_and!; [done| |apply NoDup_singleton].
      intros o Ho ->%list_elem_of_singleton. by apply Hn, E1.
    + split; [done|]. intros o. rewrite E1. set_solver.
  - intros o. rewrite vec_push. case_decide as E;
      [subst o; destruct (H2 r) as [N E1]|destruct (H2 o) as [N E1]].
    + split; [|set_solver]. apply NoDup_app. split_and!; [done| |apply NoDup_singleton].
      intros s Hs ->%list_elem_of_singleton. by apply Hn, E1.
    + split; [done|]. intros s. rewrite E1. set_solver.
  - intros s. rewrite elem_of_union, elem_of_singleton, H3. set_solver.
  - intros o. rewrite elem_of_union, elem_of_singleton, H4. set_solver.
Qed.

Lemma index_points_spec l f S :
  indexes f S → NoDup l → (∀ p, p ∈ l → p ∉ S) →
  indexes (fold_left index_point l f) (list_to_set l ∪ S).
Proof.
  revert f S. induction l as [|[c r] l IH]; intros f S Hi Hn Hd; simpl.
  { by rewrite (left_id_L ∅ (∪)). }
  apply NoDup_cons in Hn as [Hnin Hn].
  replace ({[ (c, r) ]} ∪ list_to_set l ∪ S) with (list_to_set l ∪ ({[ (c, r) ]} ∪ S)) by set_solver.
  apply IH; [apply index_point_spec; [done|apply Hd; by left]|done|].
  intros p Hp. specialize (Hd p ltac:(by right)). set_solver.
Qed.

Lemma empty_indexes : indexes (mkFIP ∅ ∅ ∅ ∅) ∅.
Proof.
  split; simpl; intros; unfold vec; rewrite ?lookup_empty; simpl; try split;
    try constructor; set_solver.
Qed.

Section built.
Context `{K2LibLaws}.

Lemma build_indexes t :
  tm_ok t → ∃ f, new_FullyIndexedPredicate t = Ret f ∧ indexes f (pts t).
Proof.
  intros Hok. unfold new_FullyIndexedPredicate.
  destruct (scan_points_spec t index_point (mkFIP ∅ ∅ ∅ ∅) Hok) as (l & Hl & ->).
  eexists. split; [done|].
  assert (list_to_set l = pts t) as <-.
  { apply set_eq. intros p. by rewrite elem_of_list_to_set, Hl, elem_of_elements. }
  rewrite <-(right_id_L ∅ (∪) (list_to_set l)). apply index_points_spec.
  - exact empty_indexes.
  - rewrite Hl. apply NoDup_elements.
  - set_solver.
Qed.

(** A lookup tells whether the pair is indexed, whichever vector it searches. *)
Lemma fip_has_spec f S s o : indexes f S →
  ∃ f', fip_has s o f = (bool_decide ((s, o) ∈ S), f') ∧ indexes f' S.
Proof.
  intros Hi. unfold fip_has.
  destruct (entry_vec (subject_to_object f) s) as (m & -> & Hm).
  destruct (entry_vec (object_to_subject f) o) as (m' & -> & Hm').
  exists (mkFIP m m' (subjects f) (objects f)). split; [|by eapply indexes_vec].
  destruct (ix_objects _ _ Hi s) as [_ Ho], (ix_subjects _ _ Hi o) as [_ Hs].
  f_equal. case_decide; apply bool_decide_ext; auto.
Qed.

(** C31: the index built from a tree answers every query as the tree does, and
    keeps doing so although its lookups modify it. *)
Theorem indexed_predicate_correct t s o :
  tm_ok t → in_coords (create_k2qw t) (s, o) →
  ∃ f, new_FullyIndexedPredicate t = Ret f ∧
    (fip_has s o f).1 = has s o t ∧
    indexes (fip_has s o f).2 (pts t) ∧
    get_all_subjects f ≡ₚ remove_dups (elements (pts t)).*1 ∧
    get_all_objects f ≡ₚ remove_dups (elements (pts t)).*2.
Proof.
  intros Hok Hr. destruct (build_indexes t Hok) as (f & Hf & Hi).
  exists f. split; [done|]. rewrite has_spec by done.
  destruct (fip_has_spec f (pts t) s o Hi) as (f' & -> & Hi'). split; [done|]. split; [done|]. split.
  - apply NoDup_Permutation.
    + unfold get_all_subjects, ascending. rewrite merge_sort_Permutation. apply NoDup_elements.
    + apply NoDup_remove_dups.
    + intros x. unfold get_all_subjects, ascending.
      rewrite merge_sort_Permutation, elem_of_elements, elem_of_remove_dups.
      rewrite (ix_all_subjects _ _ Hi), list_elem_of_fmap. split.
      * intros (y & Hy). exists (x, y). by rewrite elem_of_elements.
      * intros ([a b] & -> & Hab%elem_of_elements). by exists b.
  - apply NoDup_Permutation.
    + unfold get_all_objects, ascending. rewrite merge_sort_Permutation. apply NoDup_elements.
    + apply NoDup_remove_dups.
    + intros x. unfold get_all_objects, ascending.
      rewrite merge_sort_Permutation, elem_of_elements, elem_of_remove_dups.
      rewrite (ix_all_objects _ _ Hi), list_elem_of_fmap. split.
      * intros (y & Hy). exists (y, x). by rewrite elem_of_elements.
      * intros ([a b] & -> & Hab%elem_of_elements). by exists a.
Qed.
End built.

(** ** What the cached scanners deliver *)

Lemma cached_object_delivers l p s :
  delivers (mkCOS l p s) ((λ o, (s, o)) <$> drop p l).
Proof.
  remember (length l - p)%nat as n eqn:En. revert p En.
  induction n as [|n IH]; intros p En.
  - rewrite drop_ge by lia. eapply delivers_nil. simpl. by rewrite bool_decide_false by lia.
  - destruct (lookup_lt_is_Some_2 l p) as [x Hx]; [lia|].
    rewrite (drop_S l x) by done. eapply delivers_cons.
    + simpl. by rewrite bool_decide_true by lia.
    + simpl. by rewrite Hx.
    + apply IH. lia.
Qed.

Lemma cached_subject_delivers l p o :
  delivers (mkCSS l p o) ((λ s, (s, o)) <$> drop p l).
Proof.
  remember (length l - p)%nat as n eqn:En. revert p En.
  induction n as [|n IH]; intros p En.
  - rewrite drop_ge by lia. eapply delivers_nil. simpl. by rewrite bool_decide_false by lia.
  - destruct (lookup_lt_is_Some_2 l p) as [x Hx]; [lia|].
    rewrite (drop_S l x) by done. eapply delivers_cons.
    + simpl. by rewrite bool_decide_true by lia.
    + simpl. by rewrite Hx.
    + apply IH. lia.
Qed.

(** the cached scanners of one subject and of one object deliver exactly its
    pairs, each once. *)
Theorem cached_band_scanners_correct f S x :
  indexes f S →
  (∃ l, delivers (new_CachedObjectScanner f x).1 l ∧ NoDup l ∧
        ∀ p, p ∈ l ↔ p ∈ S ∧ p.1 = x) ∧
  (∃ l, delivers (new_CachedSubjectScanner f x).1 l ∧ NoDup l ∧
        ∀ p, p ∈ l ↔ p ∈ S ∧ p.2 = x).
Proof.
  intros Hi. unfold new_CachedObjectScanner, new_CachedSubjectScanner.
  destruct (get_objects_spec x f S Hi) as (l & f' & -> & _ & Hn & Hl).
  destruct (get_subjects_spec x f S Hi) as (k & f2 & -> & _ & Hk & Hkl). simpl. split.
  - eexists. split; [apply cached_object_delivers|]. rewrite drop_0. split.
    + apply NoDup_fmap_2; [|done]. by intros ?? [= ?].
    + intros [a b]. rewrite list_elem_of_fmap. setoid_rewrite Hl. simpl. split.
      * by intros (? & [= -> ->] & ?).
      * intros [? ->]. eauto.
  - eexists. split; [apply cached_subject_delivers|]. rewrite drop_0. split.
    + apply NoDup_fmap_2; [|done]. by intros ?? [= ?].
    + intros [a b]. rewrite list_elem_of_fmap. setoid_rewrite Hkl. simpl. split.
      * by intros (? & [= -> ->] & ?).
      * intros [? ->]. eauto.
Qed.

(** The points still to come from the elements after the iterator. *)
Definition cso_vec (s : CachedSubjectObjectScanner) (x : Z) : list Z :=
  vec (if cso_left_right s then subject_to_object (cso_source s)
       else object_to_subject (cso_source s)) x.
Definition cso_measure (it : list Z) (s : CachedSubjectObjectScanner) : nat :=
  (length (cso_active s) - cso_position s) +
  sum_list_with (λ x, length (cso_vec s x)) (tail it).

Lemma cso_enter_spec f dir x it :
  ∃ s, cso_enter f dir (x :: it) = Ret s ∧ cso_it s = x :: it ∧ cso_position s = 0%nat ∧
    cso_active s = vec (if dir then subject_to_object f else object_to_subject f) x ∧
    cso_left_right s = dir ∧
    ∀ y, cso_vec s y = vec (if dir then subject_to_object f else object_to_subject f) y.
Proof.
  unfold cso_enter, get_active_elements, get_objects, get_subjects. simpl. destruct dir.
  - destruct (entry_vec (subject_to_object f) x) as (m & -> & Hm).
    by eexists.
  - destruct (entry_vec (object_to_subject f) x) as (m & -> & Hm).
    by eexists.
Qed.

(** [has_next] finds a point or runs off the end of the set; it never says
    "no more". *)
Lemma cso_has_next_spec it x s :
  cso_has_next (x :: it) s = UB ∨
  ∃ s' x' it', cso_has_next (x :: it) s = Ret (true, s') ∧
    (cso_position s' < length (cso_active s'))%nat ∧
    (cso_it s = x :: it → cso_it s' = x' :: it') ∧
    (cso_measure (x' :: it') s' ≤ cso_measure (x :: it) s)%nat.
Proof.
  revert x s. induction it as [|y it IH]; intros x s.
  - simpl. case_decide; [by left|]. right. exists s, x, [].
    split_and!; [done|lia|done|done].
  - cbn [cso_has_next]. destruct (decide _) as [Hle|Hlt].
    2: { right. exists s, x, (y :: it). split_and!; [done|lia|done|done]. }
    destruct (cso_enter_spec (cso_source s) (cso_left_right s) y it)
      as (s1 & -> & Hit & Hpos & Hact & Hdir & Hvec).
    change (cso_has_next (y :: it) s1 = UB ∨ ∃ s' x' it',
      cso_has_next (y :: it) s1 = Ret (true, s') ∧
      (cso_position s' < length (cso_active s'))%nat ∧
      (cso_it s = x :: y :: it → cso_it s' = x' :: it') ∧
      (cso_measure (x' :: it') s' ≤ cso_measure (x :: y :: it) s)%nat).
    destruct (IH y s1) as [Hub|(s' & x' & it' & Hn & Hp & Hi & Hm)]; [by left|right].
    exists s', x', it'. split_and!; [done|done|auto|]. etrans; [exact Hm|].
    unfold cso_measure. simpl tail. simpl sum_list_with. rewrite Hpos, Hact.
    fold (cso_vec s y).
    assert (E : sum_list_with (λ x, length (cso_vec s1 x)) it =
                sum_list_with (λ x, length (cso_vec s x)) it).
    { clear -Hvec. induction it as [|z it IH]; [done|]. simpl. rewrite IH. f_equal.
      by rewrite Hvec. }
    rewrite E. lia.
Qed.

Lemma cso_scan_ub {A} (body : A → Z * Z → A) fuel : ∀ acc s x it,
  cso_it s = x :: it → (cso_measure (x :: it) s < fuel)%nat →
  while_scan fuel (λ acc p, Ret (body acc p)) acc s = UB.
Proof.
  induction fuel as [|fuel IH]; intros acc s x it Hit Hf; [lia|].
  cbn [while_scan sc_has_next cached_subject_object_scanner]. rewrite Hit.
  destruct (cso_has_next_spec it x s) as [->|(s' & x' & it' & -> & Hp & Hi & Hm)]; [done|].
  cbn [mbind outcome_bind sc_next cached_subject_object_scanner].
  destruct (lookup_lt_is_Some_2 (cso_active s') (cso_position s')) as [v Hv]; [done|].
  rewrite Hv. apply (IH _ _ x' it'); [by apply Hi|].
  unfold cso_measure in *. simpl in *. unfold cso_vec in *. simpl in *. lia.
Qed.

(** a scan of all the pairs of a cached predicate never completes: past the
    last pair [has_next] reads through the end iterator of the set. *)
Theorem cached_full_scan_reads_past_end {A} f (body : A → Z * Z → A) acc :
  ∃ n, ∀ fuel, (n < fuel)%nat →
    (s ← new_CachedSubjectObjectScanner f;
     while_scan fuel (λ acc p, Ret (body acc p)) acc s) = UB.
Proof.
  unfold new_CachedSubjectObjectScanner. set (dir := bool_decide _).
  destruct (if dir then get_all_subjects f else get_all_objects f) as [|x it].
  { by exists 0%nat. }
  destruct (cso_enter_spec f dir x it) as (s & -> & Hit & _).
  exists (cso_measure (x :: it) s). intros fuel Hf. by apply (cso_scan_ub _ _ _ _ x it).
Qed.

(** ** Instances of the theorems *)
Section witnesses.
#[local] Existing Instance Toy.toy_k2_lib.

Lemma indexed_predicate_correct_witness :
  ∃ f, new_FullyIndexedPredicate toy_points_tree = Ret f ∧
    (fip_has 3 5 f).1 = has 3 5 toy_points_tree ∧
    indexes (fip_has 3 5 f).2 (pts toy_points_tree) ∧
    get_all_subjects f ≡ₚ remove_dups (elements (pts toy_points_tree)).*1 ∧
    get_all_objects f ≡ₚ remove_dups (elements (pts toy_points_tree)).*2.
Proof.
  apply indexed_predicate_correct; [apply toy_points_tree_ok|computed].
Defined.

Lemma cached_band_scanners_correct_witness :
  let f := index_point (mkFIP ∅ ∅ ∅ ∅) (3, 5) in
  (∃ l, delivers (new_CachedObjectScanner f 3).1 l ∧ NoDup l ∧
        ∀ p, p ∈ l ↔ p ∈ ({[ (3, 5) ]} ∪ ∅ : gset (Z * Z)) ∧ p.1 = 3) ∧
  (∃ l, delivers (new_CachedSubjectScanner f 3).1 l ∧ NoDup l ∧
        ∀ p, p ∈ l ↔ p ∈ ({[ (3, 5) ]} ∪ ∅ : gset (Z * Z)) ∧ p.2 = 3).
Proof.
  apply cached_band_scanners_correct, index_point_spec; [|set_solver].
  exact empty_indexes.
Defined.
End witnesses.
