(* ===== verification/NodeIds.v ===== *)
(** * core/nodeids: the two-way mapping between external and internal ids

    The ids of the initial data are the positions of a sorted file
    (NodesSequence); those created later are kept in a pair of maps
    (NodesMapImpl), in a log and in a counter file (NodeIdsManagerImpl). *)
From S2P Require Import Prelude Streams Memory.

Local Open Scope Z_scope.

Definition NOT_FOUND_NODEID : Z := u64 (-1).
Definition STD_MAP_NI_IMPL : Z := 0.
Inductive NidsErrCode := SUCCESS_ERR_CODE | NOT_FOUND_ERR_CODE.
#[export] Instance NidsErrCode_eq_dec : EqDecision NidsErrCode.
Proof. solve_decision. Defined.

(** ** NodeId.cpp: an id of the protocol, eight bytes *)

Record NodeId := mkNodeId { node_data : Z }.
Definition DATA_SIZE : nat := 8.
Definition NODE_ANY : Z := -9.
Definition is_any (n : NodeId) : bool := bool_decide (node_data n = NODE_ANY).
(** [(long)id], converted to the argument of the ids manager. *)
Definition id_argument (n : NodeId) : Z := u64 (node_data n).
Definition create_any : NodeId := mkNodeId NODE_ANY.
Definition nodeid_eqb (a b : NodeId) : bool := bool_decide (node_data a = node_data b).

Definition string_to_long (input_string : list Z) : outcome Z :=
  if decide (length input_string ≠ DATA_SIZE)
  then Throw (InvalidStringSizeForNodeId (Z.of_nat (length input_string)))
  else '(v, _) ← read_u64 (IStream input_string 0 false); Ret (s64 v).
Definition NodeId_of_string (s : list Z) : outcome NodeId :=
  v ← string_to_long s; Ret (mkNodeId v).
Definition nodeid_write (n : NodeId) : wr () := write_u64 (u64 (node_data n)).
Definition nodeid_read : rd NodeId := v ← read_u64; mret (mkNodeId (s64 v)).

Record TripleNodeId := mkTripleNodeId {
  t_subject : NodeId; t_predicate : NodeId; t_object : NodeId
}.

(** ** NodesSequence.cpp *)

(** [std::lower_bound] on a sorted vector: bisection of [first, first + len). *)
Fixpoint lower_bound_loop (fuel : nat) (values : list Z) (value : Z) (first len : nat) : nat :=
  match fuel with
  | O => first
  | S fuel =>
      if decide (len = 0)%nat then first
      else
        let half := (len / 2)%nat in
        let mid := (first + half)%nat in
        if decide (default 0 (values !! mid) < value)
        then lower_bound_loop fuel values value (S mid) (len - half - 1)
        else lower_bound_loop fuel values value first half
  end.
Definition std_lower_bound (values : list Z) (value : Z) : nat :=
  lower_bound_loop (S (length values)) values value 0 (length values).

Definition seq_get_id (values : list Z) (value : Z) : Z :=
  let it := std_lower_bound values value in
  match values !! it with
  | None => NOT_FOUND_NODEID
  | Some v => if decide (v ≠ value) then NOT_FOUND_NODEID else Z.of_nat it
  end.

(** The value and, when something went wrong, the error code written. *)
Definition seq_get_real_id (values : list Z) (position : Z) : Z * option NidsErrCode :=
  if decide (Z.of_nat (length values) ≤ position) then (u64 (-1), Some NOT_FOUND_ERR_CODE)
  else (default 0 (values !! Z.to_nat position), None).

Definition seq_get_last_assigned (values : list Z) : Z := u64 (Z.of_nat (length values) - 1).

Definition seq_from_input_stream : rd (list Z) :=
  nodes_number ← read_u64;
  loop (λ data _, node_id ← read_u64; mret (data ++ [node_id])) []
    (seq 0 (Z.to_nat nodes_number)).
Definition seq_serialize (values : list Z) : wr () :=
  write_u64 (Z.of_nat (length values));;
  loop (λ _ v, write_u64 v) () values.

(** ** NodesMapImpl.cpp, NodesMapFactory.cpp *)

Record NodesMapImpl := mkNodesMap { imap : gmap Z Z; rev_map : gmap Z Z }.

Definition new_NodesMapImpl (imap : gmap Z Z) : NodesMapImpl :=
  mkNodesMap imap (fold_left (λ r p, <[p.2 := p.1]> r) (entries imap) ∅).

Definition map_get_id (real_id : Z) (m : NodesMapImpl) : Z :=
  default NOT_FOUND_NODEID (imap m !! real_id).
Definition map_get_real_id (id : Z) (m : NodesMapImpl) : Z * option NidsErrCode :=
  match rev_map m !! id with
  | None => (u64 (-1), Some NOT_FOUND_ERR_CODE)
  | Some r => (r, None)
  end.
Definition map_get_last_assigned (m : NodesMapImpl) : Z :=
  match last (entries (rev_map m)) with None => NOT_FOUND_NODEID | Some (k, _) => k end.
Definition map_add (real_id mapped_id : Z) (m : NodesMapImpl) : NodesMapImpl :=
  mkNodesMap (<[real_id := mapped_id]> (imap m)) (<[mapped_id := real_id]> (rev_map m)).

Definition map_serialize (m : NodesMapImpl) : wr () :=
  write_u32 STD_MAP_NI_IMPL;;
  write_u64 (Z.of_nat (size (imap m)));;
  loop (λ _ p, write_u64 p.1;; write_u64 p.2) () (entries (imap m)).

(** A run of [n] key and value pairs. *)
Definition read_pairs {A} (f : Z → Z → A → A) (n : nat) (a : A) : rd A :=
  loop (λ a _, key ← read_u64; value ← read_u64; mret (f key value a)) a (seq 0 n).

Definition map_from_input_stream : rd NodesMapImpl :=
  impl_id ← read_u32;
  if decide (s32 impl_id ≠ STD_MAP_NI_IMPL) then lift (Throw RuntimeError)
  else
    map_size ← read_u64;
    resulting ← read_pairs (λ k v m, <[k := v]> m) (Z.to_nat map_size) ∅;
    mret (new_NodesMapImpl resulting).

(** [restore] reads the number of entries from the counter and the entries from
    the log. *)
Definition map_restore (log counter : istream) (m : NodesMapImpl) : outcome NodesMapImpl :=
  '(kvs_size, _) ← read_u64 counter;
  '(m, _) ← read_pairs map_add (Z.to_nat kvs_size) m log;
  Ret m.

(** ** NodeIdsManagerImpl.cpp *)

(** The files are those the open writers reach: the log is appended to, the
    counter is overwritten in place. *)
Record NodeIdsManagerImpl := mkManager {
  nodes_sequence : list Z;
  nodes_map : NodesMapImpl;
  last_assigned_id : Z;
  logs_number : Z;
  log_file : list Z;
  counter_file : ostream
}.

Definition find_last_assigned (values : list Z) (m : NodesMapImpl) : Z :=
  if decide (map_get_last_assigned m = NOT_FOUND_NODEID) then seq_get_last_assigned values
  else map_get_last_assigned m.

(** The members are initialised in this order: the last id is computed, and the
    writers are opened, before the log is restored. *)
Definition new_NodeIdsManagerImpl (plain_ni mapped_ni : option (list Z))
    (log counter : option (list Z)) : outcome NodeIdsManagerImpl :=
  '(values, _) ← seq_from_input_stream (get_reader plain_ni);
  '(m, _) ← map_from_input_stream (get_reader mapped_ni);
  let last_assigned := find_last_assigned values m in
  let log := get_writer true log in
  let counter := get_writer false counter in
  m ← map_restore (get_reader (Some log)) (get_reader (Some counter)) m;
  '(logs_number, _) ← read_u64 (seekg 0 (get_reader (Some counter)));
  Ret (mkManager values m last_assigned logs_number log (OStream counter 0)).

Definition get_id (real_id : Z) (g : NodeIdsManagerImpl) : Z :=
  let plain_id := seq_get_id (nodes_sequence g) real_id in
  if decide (plain_id ≠ NOT_FOUND_NODEID) then plain_id else map_get_id real_id (nodes_map g).

(** The error code is the one the caller's variable holds afterwards, [None]
    when the map finds the id: then nothing is written to it. *)
Definition get_real_id (mapped_id : Z) (g : NodeIdsManagerImpl) : Z * option NidsErrCode :=
  match seq_get_real_id (nodes_sequence g) mapped_id with
  | (from_seq, None) => (from_seq, Some SUCCESS_ERR_CODE)
  | (_, Some _) => map_get_real_id mapped_id (nodes_map g)
  end.

Definition log_new_kv (real_id mapped_id : Z) (g : NodeIdsManagerImpl)
    : outcome NodeIdsManagerImpl :=
  '(_, log) ← (write_u64 real_id;; write_u64 mapped_id) (os_end (log_file g));
  '(_, counter) ← (seekp 0;; write_u64 (u64 (logs_number g + 1))) (counter_file g);
  Ret (mkManager (nodes_sequence g) (nodes_map g) (last_assigned_id g)
         (u64 (logs_number g + 1)) (os_data log) counter).

Definition get_id_or_create (real_id : Z) (g : NodeIdsManagerImpl)
    : outcome (Z * NodeIdsManagerImpl) :=
  let mapped_id := get_id real_id g in
  if decide (mapped_id ≠ NOT_FOUND_NODEID) then Ret (mapped_id, g)
  else
    let last := u64 (last_assigned_id g + 1) in
    g ← log_new_kv real_id last
          (mkManager (nodes_sequence g) (nodes_map g) last (logs_number g) (log_file g)
             (counter_file g));
    Ret (last, mkManager (nodes_sequence g) (map_add real_id last (nodes_map g)) last
                 (logs_number g) (log_file g) (counter_file g)).

(** NodeIdsManagerIdentity.cpp. *)
Definition identity_get_id (real_id : Z) : Z := real_id.
Definition identity_get_real_id (mapped_id : Z) : Z := mapped_id.
Definition identity_get_id_or_create (real_id : Z) : Z := real_id.

(** ** The codecs *)

(** A reader repeated over a list of items collects them. *)
Lemma parses_collect {A B} (r : rd A) (bytes : A → list Z) (f : B → A → B) (l : list A) b k :
  (∀ x, x ∈ l → parses r (bytes x) x) →
  parses (loop (λ b _, x ← r; mret (f b x)) b (seq k (length l))) (l ≫= bytes)
    (fold_left f l b).
Proof.
  revert b k. induction l as [|x l IH]; intros b k Hr; simpl seq; simpl loop; [apply parses_ret|].
  rewrite bind_cons. eapply parses_bind; [apply parses_bind_ret, Hr; by left|].
  apply IH. intros. apply Hr. by right.
Qed.

Lemma emits_each {A} (w : A → wr ()) (bytes : A → list Z) (l : list A) :
  (∀ x, x ∈ l → emits (w x) (bytes x) ()) →
  emits (loop (λ _ x, w x) () l) (l ≫= bytes) ().
Proof.
  intros Hw. induction l as [|x l IH]; simpl loop; [apply emits_ret|].
  rewrite bind_cons. eapply emits_bind; [apply Hw; by left|].
  apply IH. intros. apply Hw. by right.
Qed.

(** a protocol id written to a stream is read back, and a string of eight
    bytes is exactly what a NodeId is made from. *)
Theorem nodeid_roundtrip n s pre post :
  - 2 ^ 63 ≤ node_data n < 2 ^ 63 →
  nodeid_write n (os_end pre) = Ret ((), os_end (pre ++ be_encode 8 (u64 (node_data n)))) ∧
  nodeid_read (stream_at pre (be_encode 8 (u64 (node_data n)) ++ post)) =
    Ret (n, stream_at (pre ++ be_encode 8 (u64 (node_data n))) post) ∧
  NodeId_of_string (be_encode 8 (u64 (node_data n))) = Ret n ∧
  (length s ≠ DATA_SIZE →
   NodeId_of_string s = Throw (InvalidStringSizeForNodeId (Z.of_nat (length s)))).
Proof.
  intros Hn. destruct n as [x]. simpl in *.
  assert (Hs : s64 (u64 x) = x).
  { unfold s64, to_signed, u64. rewrite uwrap_small by (apply uwrap_range; lia).
    unfold uwrap. destruct (decide (0 ≤ x)).
    - rewrite Z.mod_small by lia. by rewrite decide_True by lia.
    - replace (x mod 2 ^ 64) with (x + 2 ^ 64)
        by (apply (Z.mod_unique_pos _ _ (-1)); lia).
      rewrite decide_False by lia. lia. }
  split_and!.
  - apply emits_at, emits_u64.
  - apply parses_at. unfold nodeid_read.
    rewrite <-Hs at 2. apply (parses_bind_ret read_u64 (λ v, mkNodeId (s64 v))).
    apply parses_u64, u64_range.
  - unfold NodeId_of_string, string_to_long. rewrite length_be_encode, decide_False by auto.
    pose proof (parses_at _ _ _ [] [] (parses_u64 (u64 x) (u64_range x))) as Hp.
    unfold stream_at in Hp. rewrite app_nil_r in Hp. simpl in Hp.
    rewrite Hp. simpl. by rewrite Hs.
  - intros Hl. unfold NodeId_of_string, string_to_long. by rewrite decide_True by done.
Qed.

Lemma seq_serialize_emits values :
  emits (seq_serialize values)
    (be_encode 8 (Z.of_nat (length values)) ++ (values ≫= be_encode 8)) ().
Proof.
  unfold seq_serialize. eapply emits_bind; [apply emits_u64|].
  apply emits_each. intros. apply emits_u64.
Qed.

Lemma seq_parses values :
  in_u 64 (Z.of_nat (length values)) → Forall (in_u 64) values →
  parses seq_from_input_stream
    (be_encode 8 (Z.of_nat (length values)) ++ (values ≫= be_encode 8)) values.
Proof.
  intros Hl Hv. unfold seq_from_input_stream. eapply parses_bind; [by apply parses_u64|].
  rewrite Nat2Z.id. eapply parses_eq; [apply (parses_collect read_u64 (be_encode 8))|done|].
  - rewrite Forall_forall in Hv. intros. by apply parses_u64, Hv.
  - apply (fold_left_snoc values []).
Qed.

(** ** Binary search *)

Definition sorted_ids (values : list Z) : Prop := StronglySorted Z.lt values.

Lemma sorted_lookup_lt values i j x y :
  sorted_ids values → values !! i = Some x → values !! j = Some y → (i < j)%nat → x < y.
Proof.
  intros Hs. revert i j. induction Hs as [|z l Hs IH Hz]; intros i j Hi Hj Hij; [done|].
  destruct i as [|i], j as [|j]; simpl in *; [lia| |lia|].
  - injection Hi as ->. rewrite Forall_forall in Hz.
    apply Hz. by eapply list_elem_of_lookup_2.
  - apply (IH i j); [done|done|lia].
Qed.

Lemma lower_bound_loop_spec fuel values value first len :
  sorted_ids values → (len < fuel)%nat → (first + len ≤ length values)%nat →
  (∀ j x, (j < first)%nat → values !! j = Some x → x < value) →
  (∀ j x, (first + len ≤ j)%nat → values !! j = Some x → value ≤ x) →
  let i := lower_bound_loop fuel values value first len in
  (first ≤ i ≤ first + len)%nat ∧
  (∀ j x, (j < i)%nat → values !! j = Some x → x < value) ∧
  (∀ j x, (i ≤ j)%nat → values !! j = Some x → value ≤ x).
Proof.
  intros Hs. revert first len. induction fuel as [|fuel IH]; intros first len Hf Hl Hlo Hhi;
    [lia|]. cbn [lower_bound_loop].
  destruct (decide (len = 0)%nat) as [->|Hlen].
  { split; [lia|]. split; [done|]. intros j x Hj. apply Hhi. lia. }
  set (half := (len / 2)%nat). assert (half < len)%nat by (apply Nat.div_lt; lia).
  destruct (lookup_lt_is_Some_2 values (first + half)) as [v Hv]; [lia|].
  rewrite Hv. cbn [default from_option id]. case_decide as Hlt.
  - destruct (IH (S (first + half)) (len - half - 1)%nat) as (I1 & I2 & I3); [lia|lia| | |].
    + intros j x Hj Hx. destruct (decide (j = first + half)%nat) as [->|]; [congruence|].
      pose proof (sorted_lookup_lt _ _ _ _ _ Hs Hx Hv ltac:(lia)). lia.
    + intros j x Hj. apply Hhi. lia.
    + split; [lia|done].
  - destruct (IH first half) as (I1 & I2 & I3); [lia|lia|done| |].
    + intros j x Hj Hx. destruct (decide (j = first + half)%nat) as [->|].
      { assert (x = v) by congruence. lia. }
      pose proof (sorted_lookup_lt _ _ _ _ _ Hs Hv Hx ltac:(lia)). lia.
    + split; [lia|done].
Qed.

(** on a sorted sequence the bisection finds the position of a value, and
    answers not-found exactly for the values that are not there. *)
Theorem seq_get_id_correct values value i :
  sorted_ids values → Z.of_nat (length values) < u64_max → 0 ≤ i < u64_max →
  (seq_get_id values value = i ↔ values !! Z.to_nat i = Some value) ∧
  (seq_get_id values value = NOT_FOUND_NODEID ↔ value ∉ values).
Proof.
  intros Hs Hl Hi. unfold seq_get_id, std_lower_bound.
  destruct (lower_bound_loop_spec (S (length values)) values value 0 (length values))
    as (I1 & I2 & I3); [done|lia|lia|lia| |].
  { intros j x Hj Hx. apply lookup_lt_Some in Hx. lia. }
  set (k := lower_bound_loop _ _ _ _ _) in *.
  assert (Hnf : NOT_FOUND_NODEID = u64_max) by done. rewrite Hnf.
  assert (Hin : ∀ j, values !! j = Some value → j = k).
  { intros j Hj. destruct (decide (j < k)%nat) as [Hlt|]; [specialize (I2 _ _ Hlt Hj); lia|].
    destruct (decide (j = k)) as [|Hne]; [done|].
    destruct (lookup_lt_is_Some_2 values k) as [x Hx].
    { apply lookup_lt_Some in Hj. lia. }
    pose proof (I3 k x ltac:(lia) Hx).
    pose proof (sorted_lookup_lt _ _ _ _ _ Hs Hx Hj ltac:(lia)). lia. }
  destruct (values !! k) as [v|] eqn:Ek.
  - pose proof (lookup_lt_Some _ _ _ Ek). case_decide as Hv.
    + split; split.
      * lia.
      * intros Hj. pose proof (Hin _ Hj) as Hk. rewrite Hk in Hj. congruence.
      * intros _ (j & Hj)%list_elem_of_lookup_1. pose proof (Hin _ Hj) as ->. congruence.
      * done.
    + assert (v = value) as -> by lia. split; split.
      * intros E. rewrite <-E, Nat2Z.id. exact Ek.
      * intros Hj. rewrite <-(Hin _ Hj). lia.
      * lia.
      * intros Hn. destruct Hn. by eapply list_elem_of_lookup_2.
  - split; split.
    + lia.
    + intros Hj. pose proof (Hin _ Hj) as Hk. rewrite Hk in Hj. congruence.
    + intros _ (j & Hj)%list_elem_of_lookup_1. pose proof (Hin _ Hj) as ->. congruence.
    + done.
Qed.

(** ** The manager *)

Definition next_id (g : NodeIdsManagerImpl) : Z := u64 (last_assigned_id g + 1).

(** The two maps are inverse, their ids follow the positions of the sequence
    and precede the next id, and the two sources share no external id. *)
Record ids_ok (g : NodeIdsManagerImpl) : Prop := {
  io_sorted : sorted_ids (nodes_sequence g);
  io_inverse r i : imap (nodes_map g) !! r = Some i ↔ rev_map (nodes_map g) !! i = Some r;
  io_range r i : imap (nodes_map g) !! r = Some i →
    Z.of_nat (length (nodes_sequence g)) ≤ i < next_id g;
  io_next : Z.of_nat (length (nodes_sequence g)) ≤ next_id g ∧
            Z.of_nat (length (nodes_sequence g)) < u64_max;
  io_disjoint r i : imap (nodes_map g) !! r = Some i → r ∉ nodes_sequence g
}.

(** The abstract mapping of a manager. *)
Definition maps (g : NodeIdsManagerImpl) (r i : Z) : Prop :=
  (0 ≤ i ∧ nodes_sequence g !! Z.to_nat i = Some r) ∨ imap (nodes_map g) !! r = Some i.

Section manager.
Variable g : NodeIdsManagerImpl.
Hypothesis Hok : ids_ok g.
Hypothesis Hroom : next_id g ≤ u64_max.

Lemma maps_range r i : maps g r i → 0 ≤ i < next_id g ∧ i < u64_max.
Proof using Hok Hroom.
  pose proof (io_next _ Hok). intros [[? Hi]|Hi].
  - apply lookup_lt_Some in Hi. lia.
  - pose proof (io_range _ Hok _ _ Hi). lia.
Qed.

Lemma get_id_spec r i : 0 ≤ i < u64_max → (get_id r g = i ↔ maps g r i).
Proof using Hok Hroom.
  intros Hi. pose proof (io_next _ Hok) as [_ Hlen]. unfold get_id, maps, map_get_id.
  destruct (seq_get_id_correct (nodes_sequence g) r i (io_sorted _ Hok) Hlen Hi) as [H1 H2].
  assert (Hnf : NOT_FOUND_NODEID = u64_max) by done.
  case_decide as Hd.
  - rewrite H1. split; [intros; left; split; [lia|done]|].
    intros [[_ ?]|Him]; [done|]. exfalso. apply Hd, H2. by eapply io_disjoint.
  - apply H2 in Hd. split.
    + destruct (imap (nodes_map g) !! r) as [j|] eqn:E; simpl; [|lia].
      intros <-. by right.
    + intros [[_ Hj]|Hj]; [|by rewrite Hj]. destruct Hd. by eapply list_elem_of_lookup_2.
Qed.

Lemma get_id_not_found r :
  get_id r g = NOT_FOUND_NODEID ↔ ∀ i, ¬ maps g r i.
Proof using Hok Hroom.
  assert (Hnf : NOT_FOUND_NODEID = u64_max) by done.
  split.
  - intros E i Hm. pose proof (maps_range _ _ Hm). apply get_id_spec in Hm; lia.
  - intros Hn. pose proof (io_next _ Hok) as [_ Hlen].
    destruct (seq_get_id_correct (nodes_sequence g) r 0 (io_sorted _ Hok) Hlen)
      as [_ H2]; [width|].
    unfold get_id, map_get_id. assert (r ∉ nodes_sequence g) as Hr.
    { intros (i & Hi)%list_elem_of_lookup_1. apply (Hn (Z.of_nat i)). left.
      rewrite Nat2Z.id. split; [lia|done]. }
    apply H2 in Hr as E. rewrite E. rewrite decide_False by tauto.
    destruct (imap (nodes_map g) !! r) as [i|] eqn:Ei; [|done].
    destruct (Hn i). by right.
Qed.

Lemma get_real_id_spec r i :
  0 ≤ i → maps g r i ↔ (get_real_id i g).1 = r ∧ (get_real_id i g).2 ≠ Some NOT_FOUND_ERR_CODE.
Proof using Hok.
  intros Hi. unfold get_real_id, seq_get_real_id, map_get_real_id, maps. case_decide as Hl.
  - rewrite io_inverse by done. rewrite lookup_ge_None_2 by lia.
    destruct (rev_map (nodes_map g) !! i); simpl; naive_solver.
  - destruct (lookup_lt_is_Some_2 (nodes_sequence g) (Z.to_nat i)) as [x Hx]; [lia|].
    rewrite Hx. simpl. split; [|intros [-> _]; by left].
    intros [[_ [= ->]]|Him]; [done|]. pose proof (io_range _ Hok _ _ Him). lia.
Qed.
End manager.

#[export] Instance maps_dec g r i : Decision (maps g r i).
Proof. unfold maps. apply _. Defined.

Lemma maps_total g r : ids_ok g → next_id g ≤ u64_max →
  get_id r g ≠ NOT_FOUND_NODEID → maps g r (get_id r g).
Proof.
  intros Hok Hroom Hd. unfold get_id, maps, map_get_id in *.
  pose proof (io_next _ Hok) as [_ Hlen].
  assert (Hnf : NOT_FOUND_NODEID = u64_max) by done.
  case_decide as Hs.
  - left. unfold seq_get_id in *. destruct (nodes_sequence g !! _) as [v|] eqn:E; [|done].
    case_decide; [done|]. subst. rewrite Nat2Z.id. split; [lia|done].
  - right. destruct (imap (nodes_map g) !! r); [done|]. done.
Qed.

Lemma log_new_kv_spec r id g :
  ∃ g', log_new_kv r id g = Ret g' ∧ nodes_sequence g' = nodes_sequence g ∧
        nodes_map g' = nodes_map g ∧ last_assigned_id g' = last_assigned_id g.
Proof. by eexists. Qed.

(** A manager that has just recorded [r] under the next id. *)
Lemma created_ok g g' r :
  ids_ok g → next_id g < u64_max → (∀ i, ¬ maps g r i) →
  last_assigned_id g' = next_id g → nodes_sequence g' = nodes_sequence g →
  nodes_map g' = map_add r (next_id g) (nodes_map g) →
  ids_ok g' ∧ next_id g' = next_id g + 1 ∧
  ∀ r' i, maps g' r' i ↔ maps g r' i ∨ (r' = r ∧ i = next_id g).
Proof.
  intros Hok Hroom Hnew El Es Em. pose proof (io_next _ Hok) as [Hn1 Hn2].
  assert (Hnext : next_id g' = next_id g + 1).
  { unfold next_id at 1. rewrite El. apply u64_id. width. }
  assert (Hnr : imap (nodes_map g) !! r = None).
  { destruct (imap (nodes_map g) !! r) as [i|] eqn:E; [|done]. destruct (Hnew i). by right. }
  assert (Hni : rev_map (nodes_map g) !! next_id g = None).
  { destruct (rev_map (nodes_map g) !! next_id g) as [x|] eqn:E; [|done].
    apply io_inverse in E; [|done]. pose proof (io_range _ Hok _ _ E). lia. }
  assert (Hmap : ∀ r' i, imap (nodes_map g') !! r' = Some i ↔
                 imap (nodes_map g) !! r' = Some i ∨ (r' = r ∧ i = next_id g)).
  { intros r' i. rewrite Em. simpl. rewrite lookup_insert. case_decide; naive_solver. }
  split; [split|split; [done|]]; rewrite ?Es.
  - apply io_sorted, Hok.
  - intros r' i. rewrite Hmap, Em. simpl. rewrite lookup_insert, (io_inverse _ Hok).
    case_decide; subst; [rewrite Hni|]; naive_solver.
  - intros r' i [Hi| [-> ->]]%Hmap; [|lia]. pose proof (io_range _ Hok _ _ Hi). lia.
  - lia.
  - intros r' i [Hi| [-> ->]]%Hmap; [by eapply io_disjoint|].
    intros (j & Hj)%list_elem_of_lookup_1. apply (Hnew (Z.of_nat j)). left.
    rewrite Nat2Z.id. split; [lia|done].
  - intros r' i. unfold maps. rewrite Hmap, Es. tauto.
Qed.

(** An id is found, or created for a value that had none. *)
Lemma create_spec g r : ids_ok g → next_id g < u64_max →
  ∃ id g', get_id_or_create r g = Ret (id, g') ∧ ids_ok g' ∧ maps g' r id ∧
    ((maps g r id ∧ g' = g) ∨
     ((∀ i, ¬ maps g r i) ∧ id = next_id g ∧ next_id g' = next_id g + 1 ∧
      ∀ r' i, maps g' r' i ↔ maps g r' i ∨ (r' = r ∧ i = next_id g))).
Proof.
  intros Hok Hroom. unfold get_id_or_create. case_decide as Hd.
  { exists (get_id r g), g. pose proof (maps_total g r Hok ltac:(lia) Hd). split_and!; auto. }
  pose proof (proj1 (get_id_not_found g Hok ltac:(lia) r) Hd) as Hnew.
  match goal with |- context [log_new_kv r ?x ?h] => destruct (log_new_kv_spec r x h)
    as (g1 & -> & Es & Em & El) end.
  cbn [mbind outcome_bind]. set (g' := mkManager _ _ _ _ _ _).
  destruct (created_ok g g' r) as (Hok' & Hlast & Hmaps);
    [done|done|done|by simpl|by simpl; rewrite Es|by simpl; rewrite Em|].
  exists (next_id g), g'. split; [done|]. split; [done|].
  split; [apply Hmaps; by right|]. by right.
Qed.

(** C20: an external id gets one internal id and keeps it: looking either up
    gives the other, other ids are not disturbed, and an id created for an
    unknown value was nobody's before. *)
Theorem get_id_or_create_correct g r :
  ids_ok g → next_id g < u64_max →
  ∃ id g', get_id_or_create r g = Ret (id, g') ∧ ids_ok g' ∧
    get_id r g' = id ∧
    (get_real_id id g').1 = r ∧ (get_real_id id g').2 ≠ Some NOT_FOUND_ERR_CODE ∧
    (∀ r', r' ≠ r → get_id r' g' = get_id r' g) ∧
    (get_id r g = NOT_FOUND_NODEID → id = next_id g ∧ ∀ r', get_id r' g ≠ id).
Proof.
  intros Hok Hroom. assert (Hnf : NOT_FOUND_NODEID = u64_max) by done.
  destruct (create_spec g r Hok Hroom) as (id & g' & E & Hok' & Hm & Hcase).
  assert (Hr' : next_id g' ≤ u64_max).
  { destruct Hcase as [[_ ->]|(_ & _ & -> & _)]; lia. }
  pose proof (maps_range g' Hok' Hr' _ _ Hm).
  pose proof (proj1 (get_real_id_spec g' Hok' r id ltac:(lia)) Hm) as [H1 H2].
  exists id, g'. split_and!; [done..|by apply get_id_spec; try done; lia|done|done| |].
  all: destruct Hcase as [[Hmg ->]|(Hnew & -> & _ & Hmaps)]; [try done|].
  - intros r' Hne. destruct (decide (get_id r' g = NOT_FOUND_NODEID)) as [E'|E'].
    + rewrite E'. apply get_id_not_found; [done..|]. intros i [Hi|[-> _]]%Hmaps; [|done].
      by eapply (get_id_not_found g); [done|lia|exact E'|].
    + pose proof (maps_total g r' Hok ltac:(lia) E') as Hi.
      pose proof (maps_range g Hok ltac:(lia) _ _ Hi).
      apply get_id_spec; [done..|lia|]. apply Hmaps. by left.
  - intros E'. exfalso. by eapply (get_id_not_found g); [done|lia|exact E'|].
  - intros _. split; [done|]. intros r' E'. apply get_id_spec in E'; [|done|lia|lia].
    apply maps_range in E'; [|done|lia]. lia.
Qed.

(** ** NodeIdsManager.hpp: the interface *)

Class NodeIdsManager (G : Type) := {
  nis_get_id : Z → G → Z;
  nis_get_id_or_create : Z → G → outcome (Z * G);
  nis_get_real_id : Z → G → Z * option NidsErrCode
}.

(** [nis_maps g r i]: the external id [r] has the internal id [i].
    [nis_room b n g]: the ids are below [b], and still are after [n] more. *)
Class NodeIdsManagerLaws (G : Type) `{NodeIdsManager G} := {
  nis_ok : G → Prop;
  nis_maps : G → Z → Z → Prop;
  nis_room : Z → nat → G → Prop;
  nis_accepts : Z → Z → Prop;
  nis_get_id_law g r i : nis_ok g → nis_maps g r i → nis_get_id r g = i;
  nis_get_real_id_law g r i : nis_ok g → nis_maps g r i →
    ∃ e, nis_get_real_id i g = (r, e) ∧ e ≠ Some NOT_FOUND_ERR_CODE;
  nis_room_S b n g : nis_room b (S n) g → nis_room b n g;
  nis_create_law b n g r : nis_ok g → nis_room b (S n) g → nis_accepts b r →
    ∃ i g', nis_get_id_or_create r g = Ret (i, g') ∧ nis_ok g' ∧ nis_room b n g' ∧
      nis_maps g' r i ∧ 0 ≤ i < b ∧ ∀ r' i', nis_maps g r' i' → nis_maps g' r' i'
}.

#[export] Instance impl_manager : NodeIdsManager NodeIdsManagerImpl := {|
  nis_get_id := get_id; nis_get_id_or_create := get_id_or_create; nis_get_real_id := get_real_id
|}.
#[export, refine] Instance impl_manager_laws : NodeIdsManagerLaws NodeIdsManagerImpl := {|
  nis_ok g := ids_ok g ∧ next_id g ≤ u64_max;
  nis_maps := maps;
  nis_room b n g := next_id g + Z.of_nat n ≤ b ∧ b ≤ u64_max;
  nis_accepts _ _ := True
|}.
Proof.
- intros g r i [Hok Hr] Hm. pose proof (maps_range g Hok Hr _ _ Hm). by apply get_id_spec; try done; lia.
- intros g r i [Hok Hr] Hm. pose proof (maps_range g Hok Hr _ _ Hm).
  apply get_real_id_spec in Hm as [H1 H2]; [|done|lia]. exists (get_real_id i g).2.
  split; [|done]. simpl. by rewrite <-H1, <-surjective_pairing.
- intros b n g [Hn Hb]. split; lia.
- intros b n g r [Hok Hr] [Hn Hb] _. destruct (create_spec g r Hok) as (i & g' & E & Hok' & Hm & Hcase); [lia|].
  exists i, g'. destruct Hcase as [[Hmg ->]|(_ & -> & En & Hmaps)].
  + pose proof (maps_range g Hok Hr _ _ Hm). split_and!; try done; lia.
  + pose proof (io_next _ Hok). rewrite En. split_and!; try done; try lia. intros r' i' Hm'. apply Hmaps. by left.
Defined.

(** NodeIdsManagerIdentity.cpp: the ids are the values. *)
Record NodeIdsManagerIdentity := mkIdentity {}.
#[export] Instance identity_manager : NodeIdsManager NodeIdsManagerIdentity := {|
  nis_get_id r _ := identity_get_id r;
  nis_get_id_or_create r g := Ret (identity_get_id_or_create r, g);
  nis_get_real_id i _ := (identity_get_real_id i, None)
|}.
#[export, refine] Instance identity_manager_laws : NodeIdsManagerLaws NodeIdsManagerIdentity := {|
  nis_ok _ := True; nis_maps _ r i := r = i; nis_room _ _ _ := True; nis_accepts b r := 0 ≤ r < b
|}.
Proof.
- intros. done.
- intros g r i _ ->. exists None. split; [|done]. done.
- done.
- intros b n g r _ _ Hr. exists r, g. split_and!; try done; lia.
Defined.

(** ** Restarting *)

(** What a manager starts from does not depend on the log: its counter file was
    truncated by the writer that the constructor opens first. *)
Lemma new_manager_base plain mapped log counter :
  ∀ g, new_NodeIdsManagerImpl plain mapped log counter = Ret g →
  ∀ log' counter', ∃ g', new_NodeIdsManagerImpl plain mapped log' counter' = Ret g' ∧
    nodes_sequence g' = nodes_sequence g ∧ nodes_map g' = nodes_map g ∧
    last_assigned_id g' = last_assigned_id g.
Proof.
  intros g. unfold new_NodeIdsManagerImpl.
  destruct (seq_from_input_stream _) as [[values s1]| |]; simpl; [|done..].
  destruct (map_from_input_stream _) as [[m s2]| |]; simpl; [|done..].
  unfold map_restore. simpl.
  intros [= <-] log' counter'. eexists. split; [reflexivity|done].
Qed.

(** an id handed out is forgotten by a restart, although it was logged, and
    is handed out again for the next unknown value. *)
Theorem restart_reuses_ids plain mapped log counter g r id g1 :
  new_NodeIdsManagerImpl plain mapped log counter = Ret g →
  ids_ok g → next_id g < u64_max → get_id r g = NOT_FOUND_NODEID →
  get_id_or_create r g = Ret (id, g1) →
  ∃ g2, new_NodeIdsManagerImpl plain mapped (Some (log_file g1))
          (Some (os_data (counter_file g1))) = Ret g2 ∧
    get_id r g2 = NOT_FOUND_NODEID ∧
    ∀ r', get_id r' g2 = NOT_FOUND_NODEID → ∃ g3, get_id_or_create r' g2 = Ret (id, g3).
Proof.
  intros Hnew Hok Hroom Hr Hc.
  destruct (new_manager_base _ _ _ _ _ Hnew (Some (log_file g1)) (Some (os_data (counter_file g1))))
    as (g2 & -> & Es & Em & El).
  exists g2. split; [done|].
  assert (Hget : ∀ r', get_id r' g2 = get_id r' g) by (intros; unfold get_id; by rewrite Es, Em).
  assert (Hid : ∀ r' h, last_assigned_id h = last_assigned_id g →
    get_id r' h = NOT_FOUND_NODEID → ∃ h', get_id_or_create r' h = Ret (next_id g, h')).
  { intros r' h Eh Hn. unfold get_id_or_create. rewrite Hn, decide_False by tauto. rewrite Eh.
    match goal with |- context [log_new_kv r' ?x ?h] =>
      destruct (log_new_kv_spec r' x h) as (h1 & -> & _) end.
    by eexists. }
  destruct (Hid r g eq_refl Hr) as [h Hh]. rewrite Hh in Hc. injection Hc as <- <-.
  split; [by rewrite Hget|]. intros r' Hr'. by apply Hid.
Qed.

(** ** A concrete manager *)

Definition toy_plain : list Z := be_encode 8 2 ++ be_encode 8 10 ++ be_encode 8 30.
Definition toy_mapped : list Z := be_encode 4 0 ++ be_encode 8 1 ++ be_encode 8 20 ++ be_encode 8 2.
Definition toy_manager : NodeIdsManagerImpl :=
  mkManager [10; 30] (mkNodesMap {[ 20 := 2 ]} {[ 2 := 20 ]}) 2 0 [] (OStream [] 0).

Lemma toy_manager_ok : ids_ok toy_manager.
Proof.
  split; simpl.
  - repeat constructor.
  - intros r i. rewrite !lookup_singleton_Some. tauto.
  - intros r i. rewrite lookup_singleton_Some. intros [<- <-]. by vm_compute.
  - split; by vm_compute.
  - intros r i. rewrite lookup_singleton_Some. intros [<- _]. set_solver.
Qed.

Lemma nodeid_roundtrip_witness :
  nodeid_write (mkNodeId (-9)) (os_end [1]) =
    Ret ((), os_end ([1] ++ be_encode 8 (u64 (node_data (mkNodeId (-9)))))) ∧
  nodeid_read (stream_at [1] (be_encode 8 (u64 (node_data (mkNodeId (-9)))) ++ [2])) =
    Ret (mkNodeId (-9), stream_at ([1] ++ be_encode 8 (u64 (node_data (mkNodeId (-9))))) [2]) ∧
  NodeId_of_string (be_encode 8 (u64 (node_data (mkNodeId (-9))))) = Ret (mkNodeId (-9)) ∧
  (length [1; 2] ≠ DATA_SIZE →
   NodeId_of_string [1; 2] = Throw (InvalidStringSizeForNodeId (Z.of_nat (length [1; 2])))).
Proof. apply nodeid_roundtrip. simpl. lia. Defined.

Lemma seq_get_id_correct_witness :
  (seq_get_id [10; 30] 30 = 1 ↔ [10; 30] !! Z.to_nat 1 = Some 30) ∧
  (seq_get_id [10; 30] 30 = NOT_FOUND_NODEID ↔ 30 ∉ [10; 30]).
Proof.
  apply seq_get_id_correct; [repeat constructor|by vm_compute|by vm_compute].
Defined.

Lemma get_id_or_create_correct_witness :
  ∃ id g', get_id_or_create 55 toy_manager = Ret (id, g') ∧ ids_ok g' ∧
    get_id 55 g' = id ∧
    (get_real_id id g').1 = 55 ∧ (get_real_id id g').2 ≠ Some NOT_FOUND_ERR_CODE ∧
    (∀ r', r' ≠ 55 → get_id r' g' = get_id r' toy_manager) ∧
    (get_id 55 toy_manager = NOT_FOUND_NODEID →
     id = next_id toy_manager ∧ ∀ r', get_id r' toy_manager ≠ id).
Proof. apply get_id_or_create_correct; [exact toy_manager_ok|by vm_compute]. Defined.

Lemma restart_reuses_ids_witness :
  ∃ g1 g2, get_id_or_create 55 toy_manager = Ret (3, g1) ∧
    new_NodeIdsManagerImpl (Some toy_plain) (Some toy_mapped) (Some (log_file g1))
      (Some (os_data (counter_file g1))) = Ret g2 ∧
    get_id 55 g2 = NOT_FOUND_NODEID ∧
    ∀ r', get_id r' g2 = NOT_FOUND_NODEID → ∃ g3, get_id_or_create r' g2 = Ret (3, g3).
Proof.
  eexists.
  destruct (restart_reuses_ids (Some toy_plain) (Some toy_mapped) None None toy_manager 55 3
    (mkManager [10; 30] (map_add 55 3 (mkNodesMap {[ 20 := 2 ]} {[ 2 := 20 ]})) 3 1
       (be_encode 8 55 ++ be_encode 8 3) (OStream (be_encode 8 1) 8))) as (g2 & H1 & H2 & H3).
  - by vm_compute.
  - exact toy_manager_ok.
  - by vm_compute.
  - by vm_compute.
  - by vm_compute.
  - exists g2. split; [|split; [exact H1|split; [exact H2|exact H3]]]. by vm_compute.
Defined.
