(* ===== verification/BGPOps.v ===== *)
(** * query_engine: time control, variables and the join operators

    A basic graph pattern is answered by a chain of operators, one per triple
    pattern (query_processing/iterators/bgpops): each fills in the positions of
    a shared row that its pattern binds, or tests the values already there.
    [operator_sem] is the interface of an operator to the iterator of
    BGPIterator.v: which positions it reads and writes, and the bindings it
    goes through. *)
From S2P Require Import Prelude Streams Memory Blocks K2Tree Scanners.

Local Open Scope Z_scope.

(** ** BGPMessage.hpp *)

Record BGPNode := mkNode {
  is_concrete : bool; var_name : list Z; real_node_id : Z; cache_node_id : Z
}.
Record BGPTriple := mkBGPTriple { b_subject : BGPNode; b_predicate : BGPNode; b_object : BGPNode }.
Record BGPMessage := mkBGPMessage {
  var_names : list (list Z); patterns : list BGPTriple; first_batch_small : bool
}.

(** ** TimeControl.cpp

    [Clock] gives the successive readings of the system clock. *)
Class Clock := reading : nat → Z.

Record TimeControl := mkTC {
  ticks_until_check : Z;
  time_duration : Z;
  starting_time : Z;
  current_ticks : Z;
  time_has_passed : bool;
  with_error : bool;
  q_error : option (list Z);
  readings_taken : nat
}.

Section time.
Context `{Clock}.

Definition now (t : nat) : Z * nat := (reading t, S t).

Definition new_TimeControl (ticks_until_check time_duration : Z) (t : nat) : TimeControl :=
  let '(start, t) := now t in
  mkTC ticks_until_check time_duration start 0 false false None t.
Definition start_timer (c : TimeControl) : TimeControl :=
  let '(start, t) := now (readings_taken c) in
  mkTC (ticks_until_check c) (time_duration c) start (current_ticks c) (time_has_passed c)
    (with_error c) (q_error c) t.

Definition set_ticks (c : TimeControl) (ticks : Z) (passed : bool) (t : nat) : TimeControl :=
  mkTC (ticks_until_check c) (time_duration c) (starting_time c) ticks passed
    (with_error c) (q_error c) t.

Definition tick (c : TimeControl) : bool * TimeControl :=
  let ticks := current_ticks c + 1 in
  if time_has_passed c then (false, set_ticks c ticks true (readings_taken c))
  else if decide (ticks < ticks_until_check c)
  then (true, set_ticks c ticks false (readings_taken c))
  else
    let '(current_time, t) := now (readings_taken c) in
    if decide (current_time - starting_time c > time_duration c)
    then (false, set_ticks c 0 true t)
    else (true, set_ticks c 0 false t).

(** As written, [finished] is true while time has not passed. *)
Definition finished (c : TimeControl) : bool := negb (time_has_passed c).
Definition has_error (c : TimeControl) : bool := with_error c.
Definition report_error (msg : list Z) (c : TimeControl) : TimeControl :=
  mkTC (ticks_until_check c) (time_duration c) (starting_time c) (current_ticks c) true true
    (Some msg) (readings_taken c).
Definition get_query_error (c : TimeControl) : outcome (list Z) := deref (q_error c).
Definition force_cancel (c : TimeControl) : TimeControl :=
  mkTC (ticks_until_check c) 0 (starting_time c) (current_ticks c) (time_has_passed c)
    (with_error c) (q_error c) (readings_taken c).
End time.

(** ** VarIndexManager.cpp *)

Record VarIndexManager := mkVIM { var_indexes : gmap (list Z) Z; current_index : Z }.
Definition new_VarIndexManager : VarIndexManager := mkVIM ∅ 1.
Definition assign_index_if_not_found (name : list Z) (v : VarIndexManager)
    : Z * VarIndexManager :=
  match var_indexes v !! name with
  | None => (current_index v,
             mkVIM (<[name := current_index v]> (var_indexes v)) (u64 (current_index v + 1)))
  | Some i => (i, v)
  end.
Definition vim_reverse (v : VarIndexManager) : gmap Z (list Z) :=
  fold_left (λ r x, <[x.2 := x.1]> r) (map_to_list (var_indexes v)) ∅.

(** [operator[]] of an unordered_map of integers. *)
Definition subscript `{Countable K} (m : gmap K Z) (k : K) : Z * gmap K Z :=
  match m !! k with Some x => (x, m) | None => (0, <[k := 0]> m) end.

(** ** bgpops/BGPOp.hpp *)

Inductive VARS := SUBJECT_VAR | OBJECT_VAR.
Record RunResult := mkRun { scan_done : bool; valid_value : bool }.

Definition side (wv : VARS) (p : Z * Z) : Z :=
  match wv with SUBJECT_VAR => p.1 | OBJECT_VAR => p.2 end.

(** A vector cell, by an index that may be out of range. *)
Definition cell {A} (l : list A) (i : Z) : outcome A :=
  if decide (i < 0) then UB else deref (l !! Z.to_nat i).
Definition set_cell {A} (l : list A) (i : Z) (x : A) : outcome (list A) :=
  if decide (i < 0) then UB else arr_set l (Z.to_nat i) x.

Section operators.
Context `{Clock, K2Lib}.

Inductive BGPOp :=
  | OneVarCPBGPOp (wv : VARS) (scanner : K2TreeScanner) (var_pos : Z)
  | OneVarIntersectBGPOp (wv : VARS) (scanner : K2TreeScanner) (var_pos : Z)
  | TripleExistenceBGPOP (scanner : K2TreeScanner) (subject_id object_id : Z)
  | TwoVarCProductBGPOp (scanner : K2TreeScanner) (subject_pos object_pos : Z)
  | TwoVarIntersectionBGPOp (scanner : K2TreeScanner) (subject_pos object_pos : Z)
  | TwoVarJoinOneBGPOp (wv : VARS) (scanner : K2TreeScanner) (subject_pos object_pos : Z)
      (current_band_scanner : option K2TreeScanner) (current_band : Z).

Definition get_k2qw (s : K2TreeScanner) : outcome K2QStateWrapper := create_k2qw <$> get_tree s.

(** The result of a run, and the operator, the row and the clock after it. *)
Definition ran (scan_done valid_value : bool) (op : BGPOp) (row : list Z) (tc : TimeControl)
    : outcome (RunResult * BGPOp * list Z * TimeControl) :=
  Ret (mkRun scan_done valid_value, op, row, tc).

Definition run_one_var_cp (wv : VARS) (scanner : K2TreeScanner) (var_pos : Z)
    (row_to_fill : list Z) (tc : TimeControl) :=
  let op s := OneVarCPBGPOp wv s var_pos in
  let '(alive, tc) := tick tc in
  if negb alive then ran false false (op scanner) row_to_fill tc
  else if negb (has_next scanner) then ran true false (op scanner) row_to_fill tc
  else
    '(next_pair, scanner) ← next scanner;
    let '(alive, tc) := tick tc in
    if negb alive then ran true false (op scanner) row_to_fill tc
    else
      row ← set_cell row_to_fill var_pos (side wv next_pair);
      ran (negb (has_next scanner)) true (op scanner) row tc.

Definition run_one_var_intersect (wv : VARS) (scanner : K2TreeScanner) (var_pos : Z)
    (row_to_fill : list Z) (tc : TimeControl) :=
  let op := OneVarIntersectBGPOp wv scanner var_pos in
  let '(alive, tc) := tick tc in
  if negb alive then ran false false op row_to_fill tc
  else
    intersect_value ← cell row_to_fill var_pos;
    band_value ← get_band_value scanner;
    k2tree ← get_tree scanner;
    stw ← get_k2qw scanner;
    ran true
      (match wv with
       | SUBJECT_VAR => has_with stw intersect_value band_value k2tree
       | OBJECT_VAR => has_with stw band_value intersect_value k2tree
       end) op row_to_fill tc.

Definition run_triple_existence (scanner : K2TreeScanner) (subject_id object_id : Z)
    (row_to_fill : list Z) (tc : TimeControl) :=
  let op := TripleExistenceBGPOP scanner subject_id object_id in
  let '(alive, tc) := tick tc in
  if negb alive then ran false false op row_to_fill tc
  else
    k2tree ← get_tree scanner;
    stw ← get_k2qw scanner;
    ran true (has_with stw subject_id object_id k2tree) op row_to_fill tc.

Definition run_two_var_cproduct (scanner : K2TreeScanner) (subject_pos object_pos : Z)
    (row_to_fill : list Z) (tc : TimeControl) :=
  let op s := TwoVarCProductBGPOp s subject_pos object_pos in
  let '(alive, tc) := tick tc in
  if negb alive then ran false false (op scanner) row_to_fill tc
  else if negb (has_next scanner) then ran true false (op scanner) row_to_fill tc
  else
    '(next_pair, scanner) ← next scanner;
    let '(alive, tc) := tick tc in
    if negb alive then ran false false (op scanner) row_to_fill tc
    else
      row ← set_cell row_to_fill subject_pos next_pair.1;
      row ← set_cell row object_pos next_pair.2;
      ran (negb (has_next scanner)) true (op scanner) row tc.

Definition run_two_var_intersection (scanner : K2TreeScanner) (subject_pos object_pos : Z)
    (row_to_fill : list Z) (tc : TimeControl) :=
  let op := TwoVarIntersectionBGPOp scanner subject_pos object_pos in
  let '(alive, tc) := tick tc in
  if negb alive then ran false false op row_to_fill tc
  else
    intersect_value_subject ← cell row_to_fill subject_pos;
    intersect_value_object ← cell row_to_fill object_pos;
    k2tree ← get_tree scanner;
    stw ← get_k2qw scanner;
    if has_with stw intersect_value_subject intersect_value_object k2tree
    then ran true true op row_to_fill tc
    else ran true false op row_to_fill tc.

Definition run_two_var_join_one (wv : VARS) (scanner : K2TreeScanner)
    (subject_pos object_pos : Z) (current_band_scanner : option K2TreeScanner)
    (current_band : Z) (row_to_fill : list Z) (tc : TimeControl) :=
  let op := TwoVarJoinOneBGPOp wv scanner subject_pos object_pos in
  let '(alive, tc) := tick tc in
  if negb alive then ran false false (op current_band_scanner current_band) row_to_fill tc
  else
    k2tree ← get_tree scanner;
    let '(join_pos, set_pos, band_type) :=
      match wv with
      | SUBJECT_VAR => (subject_pos, object_pos, COLUMN_BAND_TYPE)
      | OBJECT_VAR => (object_pos, subject_pos, ROW_BAND_TYPE)
      end in
    join_value ← cell row_to_fill join_pos;
    let '(band_scanner, current_band) :=
      match current_band_scanner with
      | Some s =>
          if decide (join_value ≠ current_band)
          then (create_band_scanner join_value band_type k2tree, join_value)
          else (s, current_band)
      | None => (create_band_scanner join_value band_type k2tree, join_value)
      end in
    if negb (has_next band_scanner)
    then ran true false (op (Some band_scanner) current_band) row_to_fill tc
    else
      '(next_pair, band_scanner) ← next band_scanner;
      let '(alive, tc) := tick tc in
      if negb alive then ran false false (op (Some band_scanner) current_band) row_to_fill tc
      else
        row ← set_cell row_to_fill set_pos
                (match wv with SUBJECT_VAR => next_pair.2 | OBJECT_VAR => next_pair.1 end);
        ran (negb (has_next band_scanner)) true (op (Some band_scanner) current_band) row tc.

Definition run (op : BGPOp) (row_to_fill : list Z) (tc : TimeControl)
    : outcome (RunResult * BGPOp * list Z * TimeControl) :=
  match op with
  | OneVarCPBGPOp wv s p => run_one_var_cp wv s p row_to_fill tc
  | OneVarIntersectBGPOp wv s p => run_one_var_intersect wv s p row_to_fill tc
  | TripleExistenceBGPOP s i o => run_triple_existence s i o row_to_fill tc
  | TwoVarCProductBGPOp s sp op => run_two_var_cproduct s sp op row_to_fill tc
  | TwoVarIntersectionBGPOp s sp op => run_two_var_intersection s sp op row_to_fill tc
  | TwoVarJoinOneBGPOp wv s sp op c b => run_two_var_join_one wv s sp op c b row_to_fill tc
  end.

Definition reset_op (op : BGPOp) : outcome BGPOp :=
  match op with
  | OneVarCPBGPOp wv s p => s ← reset_scan s; Ret (OneVarCPBGPOp wv s p)
  | TwoVarCProductBGPOp s sp op => s ← reset_scan s; Ret (TwoVarCProductBGPOp s sp op)
  | TwoVarJoinOneBGPOp wv s sp op _ _ => Ret (TwoVarJoinOneBGPOp wv s sp op None 0)
  | OneVarIntersectBGPOp _ _ _ | TripleExistenceBGPOP _ _ _
  | TwoVarIntersectionBGPOp _ _ _ => Ret op
  end.

(** OneVarJoinBGPOp.cpp, which the factory never creates: skip to the next
    point with the value of the row. [fuel] bounds the loop. *)
Fixpoint one_var_join_loop (fuel : nat) (wv : VARS) (intersect_value : Z)
    (scanner : K2TreeScanner) (tc : TimeControl)
    : outcome (option (RunResult * K2TreeScanner * TimeControl)) :=
  match fuel with
  | O => Ret None
  | S fuel =>
      if has_next scanner then
        '(next_pair, scanner) ← next scanner;
        let '(alive, tc) := tick tc in
        if negb alive then Ret (Some (mkRun false false, scanner, tc))
        else if decide (side wv next_pair = intersect_value)
        then Ret (Some (mkRun (negb (has_next scanner)) true, scanner, tc))
        else one_var_join_loop fuel wv intersect_value scanner tc
      else Ret (Some (mkRun true false, scanner, tc))
  end.
Definition run_one_var_join (fuel : nat) (wv : VARS) (scanner : K2TreeScanner) (var_pos : Z)
    (row_to_fill : list Z) (tc : TimeControl)
    : outcome (option (RunResult * K2TreeScanner * TimeControl)) :=
  let '(alive, tc) := tick tc in
  if negb alive then Ret (Some (mkRun false false, scanner, tc))
  else if negb (has_next scanner) then Ret (Some (mkRun true false, scanner, tc))
  else
    intersect_value ← cell row_to_fill var_pos;
    one_var_join_loop fuel wv intersect_value scanner tc.

(** ** bgpops/BGPOpsFactory.cpp *)

(** The join counters after a variable was met, and the count before. *)
Definition count_incidence (join_incidence : list Z) (pos : Z) : outcome (list Z) :=
  n ← cell join_incidence pos; set_cell join_incidence pos (n + 1).

Definition create_bgp_op (scanner : K2TreeScanner) (triple : BGPTriple)
    (var_indexes : gmap (list Z) Z) (join_incidence : list Z) (header_rev_map : gmap Z Z)
    : outcome (BGPOp * gmap (list Z) Z * list Z * gmap Z Z) :=
  let subject_is_var := negb (is_concrete (b_subject triple)) in
  let object_is_var := negb (is_concrete (b_object triple)) in
  let '(subject_var_id, var_indexes) :=
    if subject_is_var then subscript var_indexes (var_name (b_subject triple))
    else (0, var_indexes) in
  let '(object_var_id, var_indexes) :=
    if object_is_var then subscript var_indexes (var_name (b_object triple))
    else (0, var_indexes) in
  if subject_is_var && object_is_var then
    let '(subject_pos, header_rev_map) := subscript header_rev_map subject_var_id in
    let '(object_pos, header_rev_map) := subscript header_rev_map object_var_id in
    subject_incidence ← cell join_incidence subject_pos;
    object_incidence ← cell join_incidence object_pos;
    join_incidence ← count_incidence join_incidence subject_pos;
    join_incidence ← count_incidence join_incidence object_pos;
    Ret (if decide (subject_incidence > 0 ∧ object_incidence > 0)
         then TwoVarIntersectionBGPOp scanner subject_pos object_pos
         else if decide (subject_incidence > 0)
         then TwoVarJoinOneBGPOp SUBJECT_VAR scanner subject_pos object_pos None 0
         else if decide (object_incidence > 0)
         then TwoVarJoinOneBGPOp OBJECT_VAR scanner subject_pos object_pos None 0
         else TwoVarCProductBGPOp scanner subject_pos object_pos,
         var_indexes, join_incidence, header_rev_map)
  else if subject_is_var then
    let '(subject_pos, header_rev_map) := subscript header_rev_map subject_var_id in
    subject_incidence ← cell join_incidence subject_pos;
    join_incidence ← count_incidence join_incidence subject_pos;
    Ret (if decide (subject_incidence > 0)
         then OneVarIntersectBGPOp SUBJECT_VAR scanner subject_pos
         else OneVarCPBGPOp SUBJECT_VAR scanner subject_pos,
         var_indexes, join_incidence, header_rev_map)
  else if object_is_var then
    let '(object_pos, header_rev_map) := subscript header_rev_map object_var_id in
    object_incidence ← cell join_incidence object_pos;
    join_incidence ← count_incidence join_incidence object_pos;
    Ret (if decide (object_incidence > 0)
         then OneVarIntersectBGPOp OBJECT_VAR scanner object_pos
         else OneVarCPBGPOp OBJECT_VAR scanner object_pos,
         var_indexes, join_incidence, header_rev_map)
  else
    Ret (TripleExistenceBGPOP scanner (cache_node_id (b_subject triple))
           (cache_node_id (b_object triple)), var_indexes, join_incidence, header_rev_map).
End operators.

(** ** Time that does not run out *)

Definition live `{Clock} (c : TimeControl) : Prop :=
  time_has_passed c = false ∧ ∀ k, reading k - starting_time c ≤ time_duration c.

Lemma tick_live `{Clock} c : live c → ∃ c', tick c = (true, c') ∧ live c'.
Proof.
  intros [Hp Hr]. unfold tick. rewrite Hp. case_decide.
  - by eexists.
  - unfold now. cbv beta zeta iota. rewrite decide_False by (specialize (Hr (readings_taken c)); lia).
    by eexists.
Qed.

(** Steps over a [tick] of a clock that is alive. *)
Ltac tick_step :=
  match goal with
  | Hl : live ?c |- _ =>
      let c' := fresh "tc" in let Hl' := fresh "Hlive" in
      destruct (tick_live c Hl) as (c' & -> & Hl'); clear Hl;
      rename Hl' into Hl; cbn [negb]
  end.

(** ** What a scanner goes through *)

Section scans.
Context `{K2LibLaws}.

Inductive scans (fresh : K2TreeScanner) : K2TreeScanner → list (Z * Z) → Prop :=
  | scans_nil s : has_next s = false → reset_scan s = Ret fresh → scans fresh s []
  | scans_cons s s' p l : has_next s = true → reset_scan s = Ret fresh →
      next s = Ret (p, s') → scans fresh s' l → scans fresh s (p :: l).

(** The points still to come, when there are at most [fuel]. *)
Fixpoint drain (fuel : nat) (s : K2TreeScanner) : list (Z * Z) :=
  match fuel with
  | O => []
  | S fuel =>
      if has_next s then
        match next s with Ret (p, s') => p :: drain fuel s' | _ => [] end
      else []
  end.

Lemma drain_scans fresh s l fuel : scans fresh s l → (length l ≤ fuel)%nat → drain fuel s = l.
Proof.
  intros Hs. revert fuel. induction Hs as [s Hn _|s s' p l Hn _ Hx Hs IH]; intros fuel Hf.
  - destruct fuel; simpl; [done|]. by rewrite Hn.
  - destruct fuel; simpl in *; [lia|]. rewrite Hn, Hx, IH by lia. done.
Qed.

Lemma full_scans t h0 h l :
  enumerates scan_has_next k2node_naive_scan_points_lazy_next
    k2node_naive_scan_points_lazy_reset h0 h l →
  scans (FullScanner t h0) (FullScanner t h) l.
Proof.
  induction 1 as [h Hn Hr|h h' p l Hn Hr Hx He IH].
  - apply scans_nil; simpl; congruence.
  - eapply scans_cons; [done|simpl; congruence| |exact IH]. simpl. by rewrite Hx.
Qed.

Lemma band_scans t band ty h0 h l :
  enumerates band_has_next k2node_report_band_next k2node_report_band_reset h0 h l →
  scans (BandScanner t band ty h0) (BandScanner t band ty h)
    ((λ x, if decide (ty = COLUMN_BAND_TYPE) then (band, x) else (x, band)) <$> l).
Proof.
  induction 1 as [h Hn Hr|h h' p l Hn Hr Hx He IH].
  - apply scans_nil; simpl; congruence.
  - rewrite fmap_cons. eapply scans_cons; [done|simpl; congruence| |exact IH].
    simpl. by rewrite Hx.
Qed.

(** All the points of a tree, and those of a band, in scanning order. *)
Definition all_points (t : K2TreeMixed) : list (Z * Z) :=
  drain (base.size (pts t)) (create_full_scanner t).
Definition band_points (t : K2TreeMixed) (ty : BandType) (band : Z) : list (Z * Z) :=
  drain (base.size (pts t)) (create_band_scanner band ty t).

Lemma all_points_spec t : tm_ok t →
  scans (create_full_scanner t) (create_full_scanner t) (all_points t) ∧
  all_points t ≡ₚ elements (pts t).
Proof.
  intros Hok. destruct (lazy_scan_law _ _ (proj1 Hok)) as (l & He & Hp).
  assert (Hl : l ≡ₚ elements (pts t)) by by rewrite Hp, <-get_all_points_perm.
  apply (full_scans t) in He.
  assert (all_points t = l) as ->; [|done]. eapply drain_scans; [exact He|].
  rewrite Hl. unfold base.size, set_size. done.
Qed.

Lemma band_points_spec t ty band : tm_ok t → 0 ≤ band < 2 ^ tree_depth t →
  scans (create_band_scanner band ty t) (create_band_scanner band ty t) (band_points t ty band) ∧
  band_points t ty band ≡ₚ filter (in_band ty band) (elements (pts t)).
Proof.
  intros Hok Hb.
  assert (∃ l, scans (create_band_scanner band ty t) (create_band_scanner band ty t) l ∧
    l ≡ₚ filter (in_band ty band) (elements (pts t))) as (l & Hs & Hl).
  { unfold create_band_scanner.
    destruct ty; case_decide; try done; [
      destruct (lazy_column_law (create_k2qw t) _ band (proj1 Hok) Hb) as (l & He & Hp)|
      destruct (lazy_row_law (create_k2qw t) _ band (proj1 Hok) Hb) as (l & He & Hp)];
      (eexists; split; [apply band_scans, He|rewrite <-get_all_points_perm by done; exact Hp]). }
  assert (band_points t ty band = l) as ->; [|done]. eapply drain_scans; [exact Hs|].
  rewrite Hl. unfold base.size, set_size. apply length_filter.
Qed.
End scans.

(** ** Rows *)

Notation assignment := (list (nat * Z)).

(** Writing a binding into a row. *)
Definition apply (w : assignment) (row : list Z) : list Z :=
  fold_left (λ r a, <[a.1 := a.2]> r) w row.

(** The rows agree on the positions [B]. *)
Definition agree (B : gset nat) (row row' : list Z) : Prop :=
  length row = length row' ∧ ∀ i, i ∈ B → row !! i = row' !! i.

(** A row of [n] cells whose positions [B] hold acceptable values. *)
Definition row_at (n : nat) (ok : Z → Prop) (B : gset nat) (row : list Z) : Prop :=
  length row = n ∧ ∀ i, i ∈ B → ∃ v, row !! i = Some v ∧ ok v.

#[export] Instance agree_equiv B : Equivalence (agree B).
Proof.
  split.
  - by intros r.
  - intros r r' [Hl Hi]. split; [done|]. intros. by rewrite Hi.
  - intros r r' r'' [Hl Hi] [Hl' Hi']. split; [congruence|].
    intros. by rewrite Hi, Hi'.
Qed.

Lemma agree_mono B B' r r' : B' ⊆ B → agree B r r' → agree B' r r'.
Proof. intros Hs [Hl Hi]. split; [done|]. auto. Qed.

Lemma row_at_mono n ok B B' r : B' ⊆ B → row_at n ok B r → row_at n ok B' r.
Proof. intros Hs [Hl Hi]. split; [done|]. auto. Qed.

Lemma row_at_agree n ok B r r' : agree B r r' → row_at n ok B r → row_at n ok B r'.
Proof.
  intros [Hl Hi] [Hn Hr]. split; [congruence|]. intros i HB. rewrite <-Hi by done. auto.
Qed.

Lemma length_apply w row : length (apply w row) = length row.
Proof.
  revert row. induction w as [|a w IH]; intros row; [done|]. simpl.
  by rewrite IH, length_insert.
Qed.

Lemma apply_other w row i : i ∉ w.*1 → apply w row !! i = row !! i.
Proof.
  revert row. induction w as [|a w IH]; intros row Hi; [done|]. simpl in *.
  apply not_elem_of_cons in Hi as [Hne Hi]. rewrite IH by done.
  by rewrite list_lookup_insert_ne.
Qed.

Lemma apply_at w row i x : NoDup w.*1 → (i, x) ∈ w → (i < length row)%nat →
  apply w row !! i = Some x.
Proof.
  revert row. induction w as [|a w IH]; intros row Hn Hin Hi; [by apply not_elem_of_nil in Hin|].
  simpl in *. apply NoDup_cons in Hn as [Ha Hn].
  apply elem_of_cons in Hin as [<-|Hin].
  - rewrite apply_other by done. simpl. by rewrite list_lookup_insert_eq.
  - apply IH; [done|done|by rewrite length_insert].
Qed.

Lemma apply_agree B w r r' : agree B r r' →
  agree (list_to_set w.*1 ∪ B) (apply w r) (apply w r').
Proof.
  revert B r r'. induction w as [|a w IH]; intros B r r' H.
  { simpl. by rewrite (left_id_L ∅ (∪)). }
  rewrite fmap_cons, list_to_set_cons.
  apply (agree_mono (list_to_set w.*1 ∪ ({[ a.1 ]} ∪ B))); [set_solver|].
  apply (IH _ (<[a.1:=a.2]> r) (<[a.1:=a.2]> r')). destruct H as [Hl Hi]. split; [by rewrite !length_insert|].
  intros i [->%elem_of_singleton|HB]%elem_of_union.
  - destruct (decide (a.1 < length r)%nat).
    + by rewrite !list_lookup_insert_eq by lia.
    + by rewrite !list_insert_ge, !lookup_ge_None_2 by lia.
  - destruct (decide (a.1 = i)) as [<-|]; [|by rewrite !list_lookup_insert_ne by done; auto].
    destruct (decide (a.1 < length r)%nat).
    + by rewrite !list_lookup_insert_eq by lia.
    + by rewrite !list_insert_ge, !lookup_ge_None_2 by lia.
Qed.

(** A binding outside [B] leaves [B] alone. *)
Lemma apply_disjoint B w r : list_to_set w.*1 ## B → agree B (apply w r) r.
Proof.
  intros Hd. split; [apply length_apply|]. intros i Hi. apply apply_other.
  intros Hin. apply (Hd i); [by apply elem_of_list_to_set|done].
Qed.

Lemma apply_row_at n ok B w r :
  NoDup w.*1 → Forall (λ i, (i < n)%nat) w.*1 → Forall ok w.*2 →
  row_at n ok B r → row_at n ok (list_to_set w.*1 ∪ B) (apply w r).
Proof.
  intros Hn Hb Hok [Hl Hr]. split; [by rewrite length_apply|].
  intros i Hi. destruct (decide (i ∈ w.*1)) as [Hin|Hnin].
  - apply list_elem_of_fmap in Hin as ([j x] & -> & Hin). exists x.
    rewrite Forall_fmap, Forall_forall in Hb. rewrite Forall_fmap, Forall_forall in Hok.
    split; [|exact (Hok _ Hin)]. apply apply_at; [done|done|]. rewrite Hl. exact (Hb _ Hin).
  - rewrite apply_other by done. apply Hr. set_solver.
Qed.

Lemma cell_in {A} (l : list A) i x : 0 ≤ i → l !! Z.to_nat i = Some x → cell l i = Ret x.
Proof. intros Hi Hx. unfold cell. rewrite decide_False by lia. by rewrite Hx. Qed.

Lemma set_cell_in {A} (l : list A) i x : 0 ≤ i → (Z.to_nat i < length l)%nat →
  set_cell l i x = Ret (<[Z.to_nat i := x]> l).
Proof.
  intros Hi Hl. unfold set_cell, arr_set. by rewrite decide_False, decide_True by lia.
Qed.

(** ** The interface of an operator *)

(** A triple pattern over a tree: a constant, or the value at a position. *)
Inductive term := Const (c : Z) | Var (pos : nat).
Record pattern := mkPattern { p_tree : K2TreeMixed; p_subject : term; p_object : term }.
Definition term_value (r : list Z) (x : term) : option Z :=
  match x with Const c => Some c | Var i => r !! i end.

Section semantics.
Context `{Clock, K2LibLaws}.

Definition holds (p : pattern) (r : list Z) : Prop :=
  match term_value r (p_subject p), term_value r (p_object p) with
  | Some s, Some o => (s, o) ∈ pts (p_tree p)
  | _, _ => False
  end.

#[global] Instance holds_dec p r : Decision (holds p r).
Proof. unfold holds. destruct (term_value r (p_subject p)), (term_value r (p_object p)); apply _. Defined.

Lemma bool_decide_holds p r s o :
  term_value r (p_subject p) = Some s → term_value r (p_object p) = Some o →
  bool_decide (holds p r) = bool_decide ((s, o) ∈ pts (p_tree p)).
Proof. intros Hs Ho. apply bool_decide_ext. unfold holds. by rewrite Hs, Ho. Qed.

(** The positions a pattern mentions; it depends on no other. *)
Definition term_vars (x : term) : gset nat :=
  match x with Const _ => ∅ | Var i => {[ i ]} end.
Definition pattern_vars (p : pattern) : gset nat :=
  term_vars (p_subject p) ∪ term_vars (p_object p).

Lemma holds_agree p r r' : agree (pattern_vars p) r r' → holds p r ↔ holds p r'.
Proof.
  intros [_ Ha]. unfold holds.
  assert (∀ x, term_vars x ⊆ pattern_vars p → term_value r x = term_value r' x) as He.
  { intros [c|i] Hx; simpl; [done|]. apply Ha, Hx. simpl. set_solver. }
  rewrite !He; [done|unfold pattern_vars; set_solver..].
Qed.

(** Run on any row that agrees with [row] on the positions read, the operator
    answers [d] and [v], writes [w] and becomes [op']. *)
Definition runs (reads : gset nat) (op : BGPOp) (row : list Z) (d v : bool) (op' : BGPOp)
    (w : assignment) : Prop :=
  ∀ row' tc, agree reads row row' → live tc →
    ∃ tc', run op row' tc = ran d v op' (apply w row') tc' ∧ live tc'.

(** From the state [op] the bindings still to come are [l]; a reset restores
    [fresh]. *)
Inductive op_at (reads : gset nat) (fresh : BGPOp) : BGPOp → list Z → list assignment → Prop :=
  | at_end op op' row : runs reads op row true false op' [] → reset_op op' = Ret fresh →
      op_at reads fresh op row []
  | at_last op op' row w : runs reads op row true true op' w → reset_op op' = Ret fresh →
      op_at reads fresh op row [w]
  | at_more op op' row w l : runs reads op row false true op' w →
      op_at reads fresh op' row l → op_at reads fresh op row (w :: l).

(** What the iterator relies on: an operator reads [reads], binds [writes], and
    goes through the bindings [den row], which are those that make its pattern
    hold. *)
Record operator_sem (n : nat) (ok : Z → Prop) (op : BGPOp) (p : pattern) (reads : gset nat)
    (writes : list nat) (den : list Z → list assignment) : Prop := {
  sem_runs row : row_at n ok reads row → op_at reads op op row (den row);
  sem_reads row row' : agree reads row row' → den row = den row';
  sem_writes row w : w ∈ den row → row_at n ok reads row → w.*1 = writes ∧ Forall ok w.*2;
  sem_bounds : Forall (λ i, (i < n)%nat) writes;
  sem_nodup : NoDup writes;
  sem_once row : row_at n ok reads row → NoDup (den row);
  sem_holds row r : row_at n ok reads row → agree reads row r →
    row_at n ok (list_to_set writes) r →
    holds p r ↔ ∃ w, w ∈ den row ∧ ∀ a, a ∈ w → r !! a.1 = Some a.2
}.

Lemma runs_agree reads op row row' d v op' w :
  agree reads row row' → runs reads op row d v op' w → runs reads op row' d v op' w.
Proof. intros Ha Hr row2 tc H2. apply Hr. by etrans. Qed.

Lemma op_at_agree reads fresh op row row' l :
  agree reads row row' → op_at reads fresh op row l → op_at reads fresh op row' l.
Proof.
  intros Ha Hop. induction Hop.
  - eapply at_end; [by eapply runs_agree|done].
  - eapply at_last; [by eapply runs_agree|done].
  - eapply at_more; [by eapply runs_agree|auto].
Qed.

(** An operator that behaves like another one on its next run. *)
Lemma op_at_like reads fresh op1 op2 row l :
  (∀ row' tc, agree reads row row' → live tc → run op1 row' tc = run op2 row' tc) →
  op_at reads fresh op2 row l → op_at reads fresh op1 row l.
Proof.
  intros He Hop. inversion Hop as [? op' ? Hr Hs|? op' ? w Hr Hs|? op' ? w k Hr Hs]; subst.
  - eapply at_end; [|done]. intros row' tc Ha Hl. rewrite He by done. auto.
  - eapply at_last; [|done]. intros row' tc Ha Hl. rewrite He by done. auto.
  - eapply at_more; [|done]. intros row' tc Ha Hl. rewrite He by done. auto.
Qed.

(** An operator that runs its scanner and writes each point. *)
Lemma op_at_scan reads fresh_op (mk : K2TreeScanner → BGPOp) (g : Z * Z → assignment) fresh s l row :
  scans fresh s l →
  (∀ s, has_next s = false → runs reads (mk s) row true false (mk s) []) →
  (∀ s s' p, has_next s = true → next s = Ret (p, s') →
    runs reads (mk s) row (negb (has_next s')) true (mk s') (g p)) →
  (∀ s, reset_scan s = Ret fresh → reset_op (mk s) = Ret fresh_op) →
  op_at reads fresh_op (mk s) row (g <$> l).
Proof.
  intros Hs Hend Hrun Hreset.
  induction Hs as [s Hn Hr|s s' p l Hn Hr Hx Hs IH].
  - eapply at_end; [by apply Hend|by apply Hreset].
  - rewrite fmap_cons. specialize (Hrun s s' p Hn Hx).
    destruct Hs as [s' Hn' Hr'|s' s'' p' l Hn' Hr' Hx' Hs'].
    + rewrite Hn' in Hrun. eapply at_last; [exact Hrun|by apply Hreset].
    + rewrite Hn' in Hrun. eapply at_more; [exact Hrun|exact IH].
Qed.

(** An operator that only tests the row. *)
Definition test (b : bool) : list assignment := if b then [[]] else [].

Lemma op_at_test reads op row b :
  runs reads op row true b op [] → reset_op op = Ret op → op_at reads op op row (test b).
Proof.
  intros Hr Hs. destruct b; simpl; [by eapply at_last|by eapply at_end].
Qed.
End semantics.

(** ** The operators satisfy the interface *)

Section instances.
Context `{Clock, K2LibLaws}.
Variables (n : nat) (d : Z) (t : K2TreeMixed).
Hypotheses (Hok : tm_ok t) (Hd : tree_depth t = d).

Definition coord (d x : Z) : Prop := 0 ≤ x < 2 ^ d.

(** A position of the row. *)
Definition is_pos (pos : Z) : Prop := 0 ≤ pos ∧ (Z.to_nat pos < n)%nat.

Lemma pts_coord p : p ∈ pts t → coord d p.1 ∧ coord d p.2.
Proof.
  intros Hp. rewrite elem_of_pts in Hp. pose proof (scan_range _ _ (proj1 Hok)) as Hr.
  rewrite Forall_forall in Hr. apply Hr in Hp as [E1 E2]. simpl in *. unfold coord.
  by rewrite <-Hd.
Qed.

Lemma has_in x y : coord d x → coord d y →
  has_with (create_k2qw t) x y t = bool_decide ((x, y) ∈ pts t).
Proof.
  intros Hx Hy. apply (has_spec x y t Hok). unfold in_coords, coord in *. simpl. by rewrite Hd.
Qed.

(** The band a constant stands for. *)
Definition band_of (wv : VARS) : BandType :=
  match wv with SUBJECT_VAR => ROW_BAND_TYPE | OBJECT_VAR => COLUMN_BAND_TYPE end.
Definition one_var_pattern (wv : VARS) (pos : Z) (c : Z) : pattern :=
  match wv with
  | SUBJECT_VAR => mkPattern t (Var (Z.to_nat pos)) (Const c)
  | OBJECT_VAR => mkPattern t (Const c) (Var (Z.to_nat pos))
  end.
Definition two_var_pattern (sp op : Z) : pattern :=
  mkPattern t (Var (Z.to_nat sp)) (Var (Z.to_nat op)).

Lemma band_points_in ty c p : coord d c →
  p ∈ band_points t ty c ↔ in_band ty c p ∧ p ∈ pts t.
Proof.
  intros Hc. destruct (band_points_spec t ty c Hok) as [_ Hp]; [by rewrite Hd|].
  by rewrite Hp, list_elem_of_filter, elem_of_elements.
Qed.
Lemma NoDup_band_points ty c : coord d c → NoDup (band_points t ty c).
Proof.
  intros Hc. destruct (band_points_spec t ty c Hok) as [_ Hp]; [by rewrite Hd|].
  rewrite Hp. apply NoDup_filter, NoDup_elements.
Qed.

Definition write_side (wv : VARS) (pos : Z) (p : Z * Z) : assignment :=
  [(Z.to_nat pos, side wv p)].

Lemma one_var_cp_sem wv c pos : is_pos pos → coord d c →
  operator_sem n (coord d) (OneVarCPBGPOp wv (create_band_scanner c (band_of wv) t) pos)
    (one_var_pattern wv pos c) ∅ [Z.to_nat pos]
    (λ _, write_side wv pos <$> band_points t (band_of wv) c).
Proof.
  intros [Hp Hpn] Hc. split.
  - intros row Hrow. destruct (band_points_spec t (band_of wv) c Hok) as [Hs _];
      [by rewrite Hd|].
    apply (op_at_scan _ _ (λ s, OneVarCPBGPOp wv s pos) _ _ _ _ _ Hs).
    + intros s Hn row' tc Ha Hl. simpl. unfold run_one_var_cp. tick_step. rewrite Hn.
      by eexists.
    + intros s s' p Hn Hx row' tc [Hlen _] Hl. simpl. unfold run_one_var_cp.
      tick_step. rewrite Hn. simpl. rewrite Hx. simpl. tick_step.
      rewrite set_cell_in; [by eexists|done|]. destruct Hrow. lia.
    + intros s Hr. simpl. by rewrite Hr.
  - done.
  - intros row w (p & -> & Hin)%list_elem_of_fmap _. split; [done|].
    apply band_points_in in Hin as [_ Hin]; [|done]. apply pts_coord in Hin.
    apply Forall_singleton. destruct wv; apply Hin.
  - by repeat constructor.
  - apply NoDup_singleton.
  - intros row _. apply NoDup_fmap_2_strong; [|by apply NoDup_band_points].
    intros [a b] [a' b'] [E1 _]%band_points_in [E2 _]%band_points_in; [|done..].
    destruct wv; simpl in *; intros [= ->]; congruence.
  - intros row r _ _ [Hlen Hr]. destruct (Hr (Z.to_nat pos)) as (v & Hv & _); [set_solver|].
    split.
    + intros Hh. exists (write_side wv pos (match wv with SUBJECT_VAR => (v, c) | OBJECT_VAR => (c, v) end)).
      split.
      * apply list_elem_of_fmap. eexists. split; [done|]. apply band_points_in; [done|].
        destruct wv; unfold holds in Hh; simpl in Hh; rewrite Hv in Hh; done.
      * intros a ->%list_elem_of_singleton. by destruct wv.
    + intros (w & (p & -> & Hin)%list_elem_of_fmap & Hw).
      apply band_points_in in Hin as [Hb Hin]; [|done].
      specialize (Hw (Z.to_nat pos, side wv p) ltac:(by left)). simpl in Hw.
      destruct wv, p; simpl in *; subst; unfold holds; simpl; by rewrite Hw.
Qed.
Lemma test_sem op p :
  (∀ row, row_at n (coord d) (pattern_vars p) row →
    runs (pattern_vars p) op row true (bool_decide (holds p row)) op []) →
  reset_op op = Ret op →
  operator_sem n (coord d) op p (pattern_vars p) [] (λ row, test (bool_decide (holds p row))).
Proof.
  intros Hr Hs. split.
  - intros row Hrow. apply op_at_test; auto.
  - intros row row' Ha. f_equal. by apply bool_decide_ext, holds_agree.
  - unfold test. intros row w Hw _. case_bool_decide; [|by apply not_elem_of_nil in Hw].
    by apply list_elem_of_singleton in Hw as ->.
  - constructor.
  - constructor.
  - unfold test. intros row _. case_bool_decide; [apply NoDup_singleton|constructor].
  - intros row r _ Ha _. rewrite <-(holds_agree p row r Ha). unfold test. case_bool_decide.
    + split; [|done]. intros _. exists []. split; [by left|]. intros a Ha'.
      by apply not_elem_of_nil in Ha'.
    + split; [done|]. by intros (w & Hw%not_elem_of_nil & _).
Qed.

(** The value of a bound position, in any row that agrees. *)
Lemma bound_cell reads row row' pos :
  0 ≤ pos → Z.to_nat pos ∈ reads → row_at n (coord d) reads row → agree reads row row' →
  ∃ v, row !! Z.to_nat pos = Some v ∧ cell row' pos = Ret v ∧ coord d v.
Proof.
  intros Hp Hin [_ Hrow] [_ Ha]. destruct (Hrow _ Hin) as (v & Hv & Hc).
  exists v. split_and!; [done| |done]. apply cell_in; [done|]. by rewrite <-Ha.
Qed.

Lemma one_var_intersect_sem wv c pos : is_pos pos → coord d c →
  let p := one_var_pattern wv pos c in
  operator_sem n (coord d)
    (OneVarIntersectBGPOp wv (create_band_scanner c (band_of wv) t) pos) p
    (pattern_vars p) [] (λ row, test (bool_decide (holds p row))).
Proof.
  intros [Hp Hpn] Hc p. apply test_sem; [|done]. intros row Hrow row' tc Ha Hl.
  destruct (bound_cell (pattern_vars p) row row' pos) as (v & Hv & Hcell & Hcv); [done| |done..|].
  { unfold p, one_var_pattern, pattern_vars. destruct wv; simpl; set_solver. }
  simpl. unfold run_one_var_intersect. tick_step. rewrite Hcell. simpl.
  eexists. split; [|exact Hl]. f_equal. unfold p.
  destruct wv; [rewrite (bool_decide_holds _ _ v c)|rewrite (bool_decide_holds _ _ c v)];
    try done; by apply has_in.
Qed.

Lemma triple_existence_sem x y : coord d x → coord d y →
  let p := mkPattern t (Const x) (Const y) in
  operator_sem n (coord d) (TripleExistenceBGPOP (create_empty_scanner t) x y) p
    (pattern_vars p) [] (λ row, test (bool_decide (holds p row))).
Proof.
  intros Hx Hy p. apply test_sem; [|done]. intros row Hrow row' tc Ha Hl.
  simpl. unfold run_triple_existence. tick_step. simpl. eexists. split; [|exact Hl].
  f_equal. rewrite (bool_decide_holds _ _ x y) by done. by apply has_in.
Qed.

Lemma two_var_intersection_sem sp op : is_pos sp → is_pos op →
  let p := two_var_pattern sp op in
  operator_sem n (coord d) (TwoVarIntersectionBGPOp (create_full_scanner t) sp op) p
    (pattern_vars p) [] (λ row, test (bool_decide (holds p row))).
Proof.
  intros [Hs Hsn] [Ho Hon] p. apply test_sem; [|done]. intros row Hrow row' tc Ha Hl.
  destruct (bound_cell (pattern_vars p) row row' sp) as (v & Hv & Hcell & Hcv);
    [done|unfold pattern_vars; simpl; set_solver|done..|].
  destruct (bound_cell (pattern_vars p) row row' op) as (w & Hw & Hcellw & Hcw);
    [done|unfold pattern_vars; simpl; set_solver|done..|].
  simpl. unfold run_two_var_intersection. tick_step. rewrite Hcell, Hcellw. simpl.
  rewrite has_in by done. rewrite (bool_decide_holds p row v w Hv Hw).
  eexists. split; [|exact Hl]. change (p_tree p) with t. by destruct (bool_decide _).
Qed.

Lemma two_var_cproduct_sem sp op : is_pos sp → is_pos op → sp ≠ op →
  operator_sem n (coord d) (TwoVarCProductBGPOp (create_full_scanner t) sp op)
    (two_var_pattern sp op) ∅ [Z.to_nat sp; Z.to_nat op]
    (λ _, (λ p, [(Z.to_nat sp, p.1); (Z.to_nat op, p.2)]) <$> all_points t).
Proof.
  intros [Hs Hsn] [Ho Hon] Hne.
  destruct (all_points_spec t Hok) as [Hscan Hperm].
  assert (Hin : ∀ p, p ∈ all_points t ↔ p ∈ pts t)
    by (intros p; by rewrite Hperm, elem_of_elements).
  split.
  - intros row [Hrow _]. apply (op_at_scan _ _ (λ s, TwoVarCProductBGPOp s sp op) _ _ _ _ _ Hscan).
    + intros s Hn row' tc Ha Hl. simpl. unfold run_two_var_cproduct. tick_step. rewrite Hn.
      by eexists.
    + intros s s' p Hn Hx row' tc [Hlen _] Hl. simpl. unfold run_two_var_cproduct.
      tick_step. rewrite Hn. simpl. rewrite Hx. simpl. tick_step.
      rewrite set_cell_in by lia. simpl.
      rewrite set_cell_in by (rewrite ?length_insert; done || lia). by eexists.
    + intros s Hr. simpl. by rewrite Hr.
  - done.
  - intros row w (p & -> & Hp%Hin%pts_coord)%list_elem_of_fmap _. split; [done|].
    destruct Hp. by repeat apply Forall_cons_2.
  - by repeat constructor.
  - apply NoDup_cons. split; [|apply NoDup_singleton]. rewrite list_elem_of_singleton. lia.
  - intros row _. apply NoDup_fmap_2; [|by rewrite Hperm; apply NoDup_elements].
    intros [a b] [a' b'] [= -> ->]. done.
  - intros row r _ _ [_ Hr].
    destruct (Hr (Z.to_nat sp)) as (v & Hv & _); [set_solver|].
    destruct (Hr (Z.to_nat op)) as (w & Hw & _); [set_solver|].
    unfold holds. simpl. rewrite Hv, Hw. split.
    + intros Hp. exists [(Z.to_nat sp, v); (Z.to_nat op, w)]. split.
      * apply list_elem_of_fmap. exists (v, w). by rewrite Hin.
      * intros a [->|[->|[]%not_elem_of_nil]%elem_of_cons]%elem_of_cons; done.
    + intros (x & ([a b] & -> & Hp%Hin)%list_elem_of_fmap & Hx). simpl in Hx.
      specialize (Hx (Z.to_nat sp, a) ltac:(by left)) as Ha.
      specialize (Hx (Z.to_nat op, b) ltac:(right; by left)) as Hb. simpl in *.
      by simplify_eq.
Qed.
(** The position joined on, the position bound, and the band walked. *)
Definition join_pos (wv : VARS) (sp op : Z) : Z :=
  match wv with SUBJECT_VAR => sp | OBJECT_VAR => op end.
Definition set_pos (wv : VARS) (sp op : Z) : Z :=
  match wv with SUBJECT_VAR => op | OBJECT_VAR => sp end.
Definition join_band (wv : VARS) : BandType :=
  match wv with SUBJECT_VAR => COLUMN_BAND_TYPE | OBJECT_VAR => ROW_BAND_TYPE end.
Definition other_side (wv : VARS) (p : Z * Z) : Z :=
  match wv with SUBJECT_VAR => p.2 | OBJECT_VAR => p.1 end.
Definition write_join (wv : VARS) (sp op : Z) (p : Z * Z) : assignment :=
  [(Z.to_nat (set_pos wv sp op), other_side wv p)].
Definition join_den (wv : VARS) (sp op : Z) (row : list Z) : list assignment :=
  write_join wv sp op <$>
    band_points t (join_band wv) (default 0 (row !! Z.to_nat (join_pos wv sp op))).

Lemma join_one_runs wv sc sp op row v :
  get_tree sc = Ret t → is_pos (join_pos wv sp op) → is_pos (set_pos wv sp op) →
  row_at n (coord d) {[ Z.to_nat (join_pos wv sp op) ]} row →
  row !! Z.to_nat (join_pos wv sp op) = Some v → coord d v →
  op_at {[ Z.to_nat (join_pos wv sp op) ]} (TwoVarJoinOneBGPOp wv sc sp op None 0)
    (TwoVarJoinOneBGPOp wv sc sp op None 0) row
    (write_join wv sp op <$> band_points t (join_band wv) v).
Proof.
  intros Ht [Hj Hjn] [Hs Hsn] [Hrow _] Hv Hc.
  destruct (band_points_spec t (join_band wv) v Hok) as [Hscan _]; [by rewrite Hd|].
  assert (Hcell : ∀ row', agree {[ Z.to_nat (join_pos wv sp op) ]} row row' →
    cell row' (join_pos wv sp op) = Ret v).
  { intros row' [_ Ha]. apply cell_in; [done|]. rewrite <-Ha; [done|set_solver]. }
  apply (op_at_like _ _ _ (TwoVarJoinOneBGPOp wv sc sp op
    (Some (create_band_scanner v (join_band wv) t)) v)).
  { intros row' tc Ha Hl. specialize (Hcell _ Ha). simpl. unfold run_two_var_join_one.
    tick_step. rewrite Ht. simpl. destruct wv; simpl in *; rewrite Hcell; simpl;
      by rewrite decide_False by (by intros []). }
  apply (op_at_scan _ _ (λ s, TwoVarJoinOneBGPOp wv sc sp op (Some s) v) _ _ _ _ _ Hscan).
  - intros s Hn row' tc Ha Hl. specialize (Hcell _ Ha). simpl. unfold run_two_var_join_one.
    tick_step. rewrite Ht. simpl.
    destruct wv; simpl in *; rewrite Hcell; simpl; rewrite decide_False by (by intros []);
      rewrite Hn; by eexists.
  - intros s s' p Hn Hx row' tc Ha Hl. specialize (Hcell _ Ha). destruct Ha as [Hlen _].
    simpl. unfold run_two_var_join_one. tick_step. rewrite Ht. simpl.
    destruct wv; simpl in *; rewrite Hcell; simpl; rewrite decide_False by (by intros []);
      rewrite Hn; simpl; rewrite Hx; simpl; tick_step;
      (rewrite set_cell_in by lia); simpl; by eexists.
  - done.
Qed.
Lemma join_pair wv v p : in_band (join_band wv) v p →
  p = match wv with SUBJECT_VAR => (v, other_side wv p) | OBJECT_VAR => (other_side wv p, v) end.
Proof. destruct p, wv; simpl; intros <-; done. Qed.

Lemma two_var_join_one_sem wv sp op : is_pos sp → is_pos op → sp ≠ op →
  operator_sem n (coord d) (TwoVarJoinOneBGPOp wv (create_full_scanner t) sp op None 0)
    (two_var_pattern sp op) {[ Z.to_nat (join_pos wv sp op) ]} [Z.to_nat (set_pos wv sp op)]
    (join_den wv sp op).
Proof.
  intros Hs Ho Hne.
  assert (is_pos (join_pos wv sp op) ∧ is_pos (set_pos wv sp op)) as [Hj Hset] by by destruct wv.
  assert (Hval : ∀ row, row_at n (coord d) {[ Z.to_nat (join_pos wv sp op) ]} row →
    ∃ v, row !! Z.to_nat (join_pos wv sp op) = Some v ∧ coord d v).
  { intros row [_ Hr]. apply Hr. set_solver. }
  split.
  - intros row Hrow. destruct (Hval row Hrow) as (v & Hv & Hc). unfold join_den. rewrite Hv.
    by apply join_one_runs.
  - intros row row' [_ Ha]. unfold join_den. by rewrite Ha by set_solver.
  - intros row w (p & -> & Hp)%list_elem_of_fmap Hrow. split; [done|].
    destruct (Hval row Hrow) as (v & Hv & Hc). rewrite Hv in Hp.
    apply band_points_in in Hp as [_ Hp%pts_coord]; [|done].
    apply Forall_singleton. destruct wv; apply Hp.
  - apply Forall_singleton. apply Hset.
  - apply NoDup_singleton.
  - intros row Hrow. destruct (Hval row Hrow) as (v & Hv & Hc). unfold join_den. rewrite Hv.
    apply NoDup_fmap_2_strong; [|by apply NoDup_band_points].
    intros x y [Ex%join_pair _]%band_points_in [Ey%join_pair _]%band_points_in; [|done..].
    intros [= Exy]. rewrite Ex, Ey, Exy. done.
  - intros row r Hrow [_ Ha] [_ Hr]. destruct (Hval row Hrow) as (v & Hv & Hc).
    unfold join_den. rewrite Hv. rewrite Ha in Hv by set_solver.
    destruct (Hr (Z.to_nat (set_pos wv sp op))) as (w & Hw & _); [set_solver|].
    split.
    + intros Hh. eexists. split.
      * apply list_elem_of_fmap. exists (match wv with SUBJECT_VAR => (v, w) | OBJECT_VAR => (w, v) end).
        split; [done|]. apply band_points_in; [done|].
        unfold holds in Hh. destruct wv; simpl in *; rewrite Hv, Hw in Hh; done.
      * intros a ->%list_elem_of_singleton. by destruct wv.
    + intros (a & (p & -> & Hp)%list_elem_of_fmap & Hx).
      apply band_points_in in Hp as [Hb%join_pair Hp]; [|done].
      specialize (Hx (Z.to_nat (set_pos wv sp op), other_side wv p) ltac:(by left)). simpl in Hx.
      rewrite Hb in Hp. unfold holds. destruct wv; simpl in *; rewrite Hv, Hx; done.
Qed.
End instances.
