(* ===== verification/BGPIterator.v ===== *)
(** * query_processing/iterators/BGPIterator.cpp: the backtracking search

    The iterator walks up and down the chain of operators, computing one row
    ahead. Its loops are not structural: they take fuel, and
    [next_concrete_spec] shows that some fuel is always enough and that the
    rows delivered are those of the nested-loop join [nest]. *)
From S2P Require Import Prelude Streams Memory Blocks K2Tree Scanners BGPOps.

Local Open Scope Z_scope.

Section iterator.
Context `{Clk : Clock, Lib : K2Lib}.

Record BGPIterator := mkIterator {
  time_control : TimeControl;
  bgp_ops : list BGPOp;
  headers : list Z;
  next_available : bool;
  next_value : list Z;
  tmp_holder : list Z;
  s_i : Z;
  finished_ops : list bool
}.

Definition set_time (it : BGPIterator) (tc : TimeControl) : BGPIterator :=
  mkIterator tc (bgp_ops it) (headers it) (next_available it) (next_value it)
    (tmp_holder it) (s_i it) (finished_ops it).
Definition set_level (it : BGPIterator) (i : Z) : BGPIterator :=
  mkIterator (time_control it) (bgp_ops it) (headers it) (next_available it) (next_value it)
    (tmp_holder it) i (finished_ops it).
Definition set_next (it : BGPIterator) (available : bool) (value : list Z) : BGPIterator :=
  mkIterator (time_control it) (bgp_ops it) (headers it) available value
    (tmp_holder it) (s_i it) (finished_ops it).
(** [bgp_ops[s_i] = op; finished_ops[s_i] = fin]. *)
Definition set_op (it : BGPIterator) (op : BGPOp) (fin : bool) : outcome BGPIterator :=
  ops ← set_cell (bgp_ops it) (s_i it) op;
  fins ← set_cell (finished_ops it) (s_i it) fin;
  Ret (mkIterator (time_control it) ops (headers it) (next_available it) (next_value it)
         (tmp_holder it) (s_i it) fins).

Definition tick_it (it : BGPIterator) : bool * BGPIterator :=
  let '(alive, tc) := tick (time_control it) in (alive, set_time it tc).

(** [bgp_ops[s_i]->run(tmp_holder)]. *)
Definition run_op_at (it : BGPIterator) : outcome (RunResult * BGPIterator) :=
  op ← cell (bgp_ops it) (s_i it);
  '(r, op, row, tc) ← run op (tmp_holder it) (time_control it);
  ops ← set_cell (bgp_ops it) (s_i it) op;
  Ret (r, mkIterator tc ops (headers it) (next_available it) (next_value it) row (s_i it)
            (finished_ops it)).

(** The operator at [s_i] is exhausted: reset it and go back one level. *)
Definition backtrack (it : BGPIterator) : outcome BGPIterator :=
  op ← cell (bgp_ops it) (s_i it);
  op ← reset_op op;
  it ← set_op it op false;
  Ret (set_level it (s_i it - 1)).

(** [if (run_result.scan_done) finished_ops[s_i] = true]. *)
Definition note_done (r : RunResult) (it : BGPIterator) : outcome BGPIterator :=
  if scan_done r then
    fins ← set_cell (finished_ops it) (s_i it) true;
    Ret (mkIterator (time_control it) (bgp_ops it) (headers it) (next_available it)
           (next_value it) (tmp_holder it) (s_i it) fins)
  else Ret it.

(** The two nested loops of [ops_until_last]; [inner] says which one is next.
    [None] is running out of fuel. *)
Fixpoint ops_loop (fuel : nat) (inner : bool) (it : BGPIterator) : outcome (option BGPIterator) :=
  match fuel with
  | O => Ret None
  | S fuel =>
      if inner then
        fin ← cell (finished_ops it) (s_i it);
        if (fin : bool) then
          it ← backtrack it;
          ops_loop fuel false it
        else
          '(run_result, it) ← run_op_at it;
          let '(alive, it) := tick_it it in
          if negb alive then Ret (Some it)
          else
            it ← note_done run_result it;
            if valid_value run_result then ops_loop fuel false (set_level it (s_i it + 1))
            else ops_loop fuel true it
      else if decide (s_i it < s64 (u64 (Z.of_nat (length (bgp_ops it)) - 1)) ∧ 0 ≤ s_i it)
      then ops_loop fuel true it
      else Ret (Some it)
  end.

Definition ops_until_last (fuel : nat) (it : BGPIterator) : outcome (option BGPIterator) :=
  let '(alive, it) := tick_it it in
  if negb alive then Ret (Some it) else ops_loop fuel false it.

(** The loop of [next_concrete]. *)
Fixpoint next_loop (fuel ops_fuel : nat) (it : BGPIterator) : outcome (option BGPIterator) :=
  match fuel with
  | O => Ret None
  | S fuel =>
      m ← ops_until_last ops_fuel it;
      match m with
      | None => Ret None
      | Some it =>
          if decide (s_i it < 0) then Ret (Some (set_next it false (next_value it)))
          else
            fin ← cell (finished_ops it) (s_i it);
            if (fin : bool) then
              it ← backtrack it;
              next_loop fuel ops_fuel it
            else
              '(run_result, it) ← run_op_at it;
              let '(alive, it) := tick_it it in
              if negb alive then Ret (Some it)
              else
                it ← note_done run_result it;
                if valid_value run_result
                then Ret (Some (set_next it true (tmp_holder it)))
                else next_loop fuel ops_fuel it
      end
  end.

(** The row returned is the one computed by the previous call. *)
Definition next_concrete (fuel : nat) (it : BGPIterator)
    : outcome (option (list Z * BGPIterator)) :=
  let '(alive, it) := tick_it it in
  if negb alive then Ret (Some (next_value it, it))
  else
    let result := next_value it in
    m ← next_loop fuel fuel (set_next it false (next_value it));
    match m with
    | None => Ret None
    | Some it => Ret (Some (result, it))
    end.

Definition new_BGPIterator (fuel : nat) (bgp_ops : list BGPOp) (headers : list Z)
    (tc : TimeControl) : outcome (option BGPIterator) :=
  m ← next_concrete fuel
        (mkIterator tc bgp_ops headers false [] (replicate (length headers) 0) 0
           (replicate (length bgp_ops) false));
  Ret (match m with None => None | Some (_, it) => Some it end).

Definition it_has_next (it : BGPIterator) : bool := next_available it.
Definition it_next (fuel : nat) (it : BGPIterator) : outcome (option (list Z * BGPIterator)) :=
  next_concrete fuel it.

(** [reset_iterator] resets the operators, but neither [s_i] nor
    [finished_ops]. *)
Definition reset_all (ops : list BGPOp) : outcome (list BGPOp) :=
  foldr (λ op rest, op ← reset_op op; ops ← rest; Ret (op :: ops)) (Ret []) ops.
Definition reset_iterator (fuel : nat) (it : BGPIterator) : outcome (option BGPIterator) :=
  ops ← reset_all (bgp_ops it);
  m ← next_concrete fuel
        (mkIterator (time_control it) ops (headers it) (next_available it) (next_value it)
           (tmp_holder it) (s_i it) (finished_ops it));
  Ret (match m with None => None | Some (_, it) => Some it end).

(** [while (it.has_next()) rows.push_back(it.next())]. *)
Fixpoint all_rows (fuel step_fuel : nat) (it : BGPIterator) : outcome (option (list (list Z))) :=
  match fuel with
  | O => Ret None
  | S fuel =>
      if it_has_next it then
        m ← it_next step_fuel it;
        match m with
        | None => Ret None
        | Some (row, it) =>
            rest ← all_rows fuel step_fuel it;
            Ret (match rest with None => None | Some rows => Some (row :: rows) end)
        end
      else Ret (Some [])
  end.
End iterator.

(** EmptyIterator.cpp. *)
Definition empty_has_next : bool := false.
Definition empty_next : outcome (list Z) := Throw RuntimeError.

(** ** The nested-loop join *)

Section search.
Context `{Clk : Clock, Lib : K2Lib, !K2LibLaws}.
Variables (n : nat) (ok : Z → Prop).

(** The rows a chain of operators stands for, in order. *)
Fixpoint nest (dens : list (list Z → list assignment)) (row : list Z) : list (list Z) :=
  match dens with
  | [] => [row]
  | den :: dens => den row ≫= λ w, nest dens (apply w row)
  end.

(** A bound on the steps of the search below a row. *)
Fixpoint cost (dens : list (list Z → list assignment)) (row : list Z) : nat :=
  match dens with
  | [] => 0
  | den :: dens => (2 + sum_list_with (λ w, 1 + cost dens (apply w row)) (den row))%nat
  end.

(** A chain of operators, each reading only positions bound before it and
    binding new ones; at the end every position is bound. *)
Inductive chain : gset nat → list BGPOp → list pattern → list (list Z → list assignment) → Prop :=
  | chain_nil B : (∀ i, (i < n)%nat → i ∈ B) → chain B [] [] []
  | chain_cons B op p reads writes den ops ps dens :
      operator_sem n ok op p reads writes den → reads ⊆ B → list_to_set writes ## B →
      chain (list_to_set writes ∪ B) ops ps dens →
      chain B (op :: ops) (p :: ps) (den :: dens).

Lemma chain_length B ops ps dens : chain B ops ps dens → length dens = length ops.
Proof. induction 1; simpl; congruence. Qed.

Lemma chain_step B op p reads writes den w row row' :
  operator_sem n ok op p reads writes den → reads ⊆ B → row_at n ok B row →
  w ∈ den row → agree B row row' →
  row_at n ok (list_to_set writes ∪ B) (apply w row') ∧
  agree (list_to_set writes ∪ B) (apply w row) (apply w row').
Proof.
  intros Hsem Hsub Hrow Hw Ha.
  assert (Hr : row_at n ok reads row) by by eapply row_at_mono.
  destruct (sem_writes _ _ _ _ _ _ _ Hsem row w Hw Hr) as [Hwr Hok]. split.
  - rewrite <-Hwr. apply apply_row_at; [..|by eapply row_at_agree].
    + rewrite Hwr. by eapply sem_nodup.
    + rewrite Hwr. by eapply sem_bounds.
    + done.
  - rewrite <-Hwr. by apply apply_agree.
Qed.

(** The rows, and the steps, below some of the bindings of an operator. *)
Definition branches (dens : list (list Z → list assignment)) (row : list Z)
    (l : list assignment) : list (list Z) := l ≫= λ w, nest dens (apply w row).
Definition branch_cost (dens : list (list Z → list assignment)) (row : list Z)
    (l : list assignment) : nat := sum_list_with (λ w, 1 + cost dens (apply w row))%nat l.

Lemma branches_agree dens row row' l :
  (∀ w, w ∈ l → nest dens (apply w row) = nest dens (apply w row') ∧
                cost dens (apply w row) = cost dens (apply w row')) →
  branches dens row l = branches dens row' l ∧ branch_cost dens row l = branch_cost dens row' l.
Proof.
  unfold branches, branch_cost. induction l as [|w l IH]; intros Hall; [done|].
  destruct (Hall w ltac:(by left)) as [E1 E2].
  destruct IH as [E3 E4]; [intros; apply Hall; by right|].
  rewrite !bind_cons, E1, E3. split; [done|]. simpl in *. by rewrite E2, E4.
Qed.

(** The join does not depend on what the unbound positions hold. *)
Lemma nest_agree B ops ps dens row row' :
  chain B ops ps dens → row_at n ok B row → agree B row row' →
  nest dens row = nest dens row' ∧ cost dens row = cost dens row'.
Proof.
  intros Hc. revert row row'.
  induction Hc as [B Hall|B op p reads writes den ops ps dens Hsem Hsub Hdis Hc IH];
    intros row row' Hrow Ha.
  - split; [|done]. simpl. f_equal. apply list_eq. intros i.
    destruct (decide (i < n)%nat) as [Hi|Hi]; [by apply Ha, Hall|].
    destruct Hrow as [Hl _], Ha as [Hl' _]. by rewrite !lookup_ge_None_2 by lia.
  - assert (Hden : den row = den row')
      by (eapply sem_reads; [exact Hsem|by eapply agree_mono]).
    assert (Hall : ∀ w, w ∈ den row →
      nest dens (apply w row) = nest dens (apply w row') ∧
      cost dens (apply w row) = cost dens (apply w row')).
    { intros w Hw. destruct (chain_step _ _ _ _ _ _ _ _ _ Hsem Hsub Hrow Hw Ha) as [H1 H2].
      apply IH; [|done]. eapply row_at_agree; [symmetry; exact H2|done]. }
    cbn [nest cost]. rewrite <-Hden. destruct (branches_agree dens row row' (den row) Hall) as [E1 E2].
    unfold branches, branch_cost in *. split; congruence.
Qed.

(** ** The state of the search

    [pending Bl B F C Fi dens row out k]: the operators started, deepest first,
    are now [C] (and [F] when reset), with their flags [Fi]; [Bl] and [B] are
    the positions bound before and after the deepest one; [out] is what the
    search still delivers, in at most [k] steps, if [dens] are the operators
    below. *)
Inductive pending : gset nat → gset nat → list BGPOp → list BGPOp → list bool →
    list (list Z → list assignment) → list Z → list (list Z) → nat → Prop :=
  | pend_nil dens row : pending ∅ ∅ [] [] [] dens row [] 0
  | pend_op Bl B F C Fi dens row out k fresh cur p reads writes den l :
      pending Bl B F C Fi (den :: dens) row out k →
      operator_sem n ok fresh p reads writes den → reads ⊆ B → list_to_set writes ## B →
      row_at n ok B row → op_at reads fresh cur row l → (∀ w, w ∈ l → w ∈ den row) →
      pending B (list_to_set writes ∪ B) (fresh :: F) (cur :: C) (false :: Fi) dens row
        (branches dens row l ++ out) (2 + branch_cost dens row l + k)
  | pend_done Bl B F C Fi dens row out k fresh cur p reads writes den :
      pending Bl B F C Fi (den :: dens) row out k →
      operator_sem n ok fresh p reads writes den → reads ⊆ B → list_to_set writes ## B →
      row_at n ok B row → reset_op cur = Ret fresh →
      pending B (list_to_set writes ∪ B) (fresh :: F) (cur :: C) (true :: Fi) dens row
        out (1 + k).

Lemma pending_low Bl B F C Fi dens row out k :
  pending Bl B F C Fi dens row out k → Bl ⊆ B ∧ length C = length F ∧ length Fi = length F.
Proof.
  induction 1 as [|??????????????? l ? IH|?????????????? ? IH]; [done|..];
    (split; [set_solver|simpl; lia]).
Qed.

Lemma pending_agree Bl B F C Fi dens row out k S ps row' :
  pending Bl B F C Fi dens row out k → chain B S ps dens → agree Bl row row' →
  pending Bl B F C Fi dens row' out k.
Proof.
  intros Hp. revert S ps.
  induction Hp as [|Bl B F C Fi dens row out k fresh cur p reads writes den l Hp IH Hsem Hsub Hdis
    Hrow Hop Hin|Bl B F C Fi dens row out k fresh cur p reads writes den Hp IH Hsem Hsub Hdis
    Hrow Hres]; intros S ps Hc Ha; [constructor|..].
  - assert (Hlow : agree Bl row row') by (eapply agree_mono; [by eapply pending_low|done]).
    destruct (branches_agree dens row row' l) as [-> ->].
    { intros w Hw. destruct (chain_step _ _ _ _ _ _ _ _ _ Hsem Hsub Hrow (Hin w Hw) Ha) as [H1 H2].
      eapply nest_agree; [exact Hc|..|exact H2].
      eapply row_at_agree; [symmetry; exact H2|done]. }
    eapply pend_op; [eapply IH; [by eapply chain_cons|done]|done..| |
      eapply op_at_agree; [by eapply agree_mono|done]|].
    + by eapply row_at_agree.
    + intros w Hw. erewrite <-sem_reads; [by apply Hin|exact Hsem|by eapply agree_mono].
  - assert (Hlow : agree Bl row row') by (eapply agree_mono; [by eapply pending_low|done]).
    eapply pend_done; [eapply IH; [by eapply chain_cons|done]|done..| |done].
    by eapply row_at_agree.
Qed.
(** The iterator in the middle of a search: the operators above [s_i] are
    fresh. *)
Definition searching (it : BGPIterator) (out : list (list Z)) (k : nat) : Prop :=
  ∃ Bl B F C Fi S ps dens,
    pending Bl B F C Fi dens (tmp_holder it) out k ∧ chain B S ps dens ∧
    bgp_ops it = reverse C ++ S ∧ finished_ops it = reverse Fi ++ replicate (length S) false ∧
    s_i it = Z.of_nat (length C) - 1 ∧ live (time_control it).

Lemma cell_top {A} (c : A) C S :
  cell (reverse (c :: C) ++ S) (Z.of_nat (length (c :: C)) - 1) = Ret c.
Proof.
  apply cell_in; [simpl; lia|].
  rewrite reverse_cons, <-(assoc_L (++)). apply list_lookup_middle.
  rewrite length_reverse. simpl. lia.
Qed.

Lemma set_cell_top {A} (c c' : A) C S :
  set_cell (reverse (c :: C) ++ S) (Z.of_nat (length (c :: C)) - 1) c' =
  Ret (reverse (c' :: C) ++ S).
Proof.
  rewrite set_cell_in; [|simpl; lia|rewrite length_app, length_reverse; simpl; lia].
  f_equal. rewrite !reverse_cons, <-!(assoc_L (++)).
  rewrite insert_app_r_alt by (rewrite length_reverse; simpl; lia).
  rewrite length_reverse. replace (Z.to_nat _ - length C)%nat with 0%nat by (simpl; lia). done.
Qed.

Lemma tick_it_live it out k : searching it out k →
  ∃ tc, tick_it it = (true, set_time it tc) ∧ searching (set_time it tc) out k.
Proof.
  intros (Bl & B & F & C & Fi & S & ps & dens & Hp & Hc & Ho & Hf & Hs & Hl).
  unfold tick_it. destruct (tick_live _ Hl) as (tc & -> & Hl').
  exists tc. split; [done|]. unfold searching. by eexists _, _, _, _, _, _, _, _.
Qed.

Lemma pending_op_inv Bl B F c C Fi dens row out k :
  pending Bl B F (c :: C) (false :: Fi) dens row out k →
  ∃ Bl' fresh F' p reads writes den l out' k',
    F = fresh :: F' ∧ B = list_to_set writes ∪ Bl ∧ out = branches dens row l ++ out' ∧
    k = (2 + branch_cost dens row l + k')%nat ∧
    pending Bl' Bl F' C Fi (den :: dens) row out' k' ∧
    operator_sem n ok fresh p reads writes den ∧ reads ⊆ Bl ∧ list_to_set writes ## Bl ∧
    row_at n ok Bl row ∧ op_at reads fresh c row l ∧ (∀ w, w ∈ l → w ∈ den row).
Proof. inversion 1; subst. do 10 eexists. by split_and!. Qed.

Lemma pending_done_inv Bl B F c C Fi dens row out k :
  pending Bl B F (c :: C) (true :: Fi) dens row out k →
  ∃ Bl' fresh F' p reads writes den k',
    F = fresh :: F' ∧ B = list_to_set writes ∪ Bl ∧ k = (1 + k')%nat ∧
    pending Bl' Bl F' C Fi (den :: dens) row out k' ∧
    operator_sem n ok fresh p reads writes den ∧ reads ⊆ Bl ∧ list_to_set writes ## Bl ∧
    row_at n ok Bl row ∧ reset_op c = Ret fresh.
Proof. inversion 1; subst. do 8 eexists. by split_and!. Qed.

(** The operator at [s_i] and its flag. *)
Lemma searching_top it out k : searching it out k → 0 ≤ s_i it →
  ∃ Bl B F c C f Fi S ps dens,
    pending Bl B F (c :: C) (f :: Fi) dens (tmp_holder it) out k ∧ chain B S ps dens ∧
    s_i it = Z.of_nat (length C) ∧ length (bgp_ops it) = (length C + 1 + length S)%nat ∧
    live (time_control it) ∧
    cell (bgp_ops it) (s_i it) = Ret c ∧ cell (finished_ops it) (s_i it) = Ret f ∧
    (∀ c', set_cell (bgp_ops it) (s_i it) c' = Ret (reverse (c' :: C) ++ S)) ∧
    (∀ f', set_cell (finished_ops it) (s_i it) f' =
           Ret (reverse (f' :: Fi) ++ replicate (length S) false)).
Proof.
  intros (Bl & B & F & C & Fi & S & ps & dens & Hp & Hc & Ho & Hf & Hs & Hl) Hi.
  destruct (pending_low _ _ _ _ _ _ _ _ _ Hp) as (_ & HlC & HlF).
  destruct C as [|c C]; [simpl in Hs; lia|]. destruct Fi as [|f Fi]; [simpl in *; lia|].
  exists Bl, B, F, c, C, f, Fi, S, ps, dens.
  assert (Hs' : s_i it = Z.of_nat (length (f :: Fi)) - 1) by (simpl in *; lia).
  split_and!; [done|done|simpl in *; lia| |done|..].
  - rewrite Ho, length_app, length_reverse. simpl. lia.
  - rewrite Ho, Hs. apply cell_top.
  - rewrite Hf, Hs'. apply cell_top.
  - intros c'. rewrite Ho, Hs. apply set_cell_top.
  - intros f'. rewrite Hf, Hs'. apply set_cell_top.
Qed.

(** Going back from an exhausted operator. *)
Lemma backtrack_step it out k : searching it out k → 0 ≤ s_i it →
  cell (finished_ops it) (s_i it) = Ret true →
  ∃ it' k', backtrack it = Ret it' ∧ searching it' out k' ∧ (k' < k)%nat ∧
    length (bgp_ops it') = length (bgp_ops it).
Proof.
  intros Hse Hi Hfin.
  destruct (searching_top it out k Hse Hi)
    as (Bl & B & F & c & C & f & Fi & S & ps & dens & Hp & Hc & Hs & Hlen & Hl & Eop & Efin & Sop & Sfin).
  assert (f = true) as -> by congruence.
  apply pending_done_inv in Hp
    as (Bl' & fresh & F' & p & reads & writes & den & k' & -> & -> & -> & Hp & Hsem & Hsub & Hdis & Hrow & Hres).
  unfold backtrack. rewrite Eop. simpl. rewrite Hres. simpl. unfold set_op.
  rewrite Sop. simpl. rewrite Sfin. simpl. eexists _, k'. split; [done|]. split; [|split; [lia|]].
  - exists Bl', Bl, F', C, Fi, (fresh :: S), (p :: ps), (den :: dens). simpl.
    split_and!; [done|by eapply chain_cons| | |lia|done].
    + by rewrite reverse_cons, <-(assoc_L (++)).
    + by rewrite reverse_cons, <-(assoc_L (++)).
  - simpl. rewrite length_app, length_reverse. simpl. lia.
Qed.
(** What a run of the operator at [s_i] leaves: the operator exhausted, or a
    new row with the rest of the search behind it. *)
Lemma run_outcome Bl B F c C Fi dens row out k S ps tc :
  pending Bl B F (c :: C) (false :: Fi) dens row out k → chain B S ps dens → live tc →
  ∃ d v op' w tc', run c row tc = ran d v op' (apply w row) tc' ∧ live tc' ∧
    if v then ∃ rest k', pending Bl B F (op' :: C) (d :: Fi) dens (apply w row) rest k' ∧
                row_at n ok B (apply w row) ∧
                out = nest dens (apply w row) ++ rest ∧ (k' + cost dens (apply w row) < k)%nat
    else apply w row = row ∧ d = true ∧
         ∃ k', pending Bl B F (op' :: C) (true :: Fi) dens row out k' ∧ (k' < k)%nat.
Proof.
  intros Hp Hc Hl. apply pending_op_inv in Hp
    as (Bl' & fresh & F' & p & reads & writes & den & l & out' & k' & -> & -> & -> & -> &
        Hp & Hsem & Hsub & Hdis & Hrow & Hop & Hin).
  assert (Hagr : ∀ w, w ∈ den row → agree Bl row (apply w row) ∧
    row_at n ok (list_to_set writes ∪ Bl) (apply w row)).
  { intros w Hw. destruct (chain_step _ _ _ _ _ _ _ _ _ Hsem Hsub Hrow Hw (reflexivity row)) as [H1 _].
    split; [|done]. symmetry. apply apply_disjoint.
    destruct (sem_writes _ _ _ _ _ _ _ Hsem row w Hw) as [-> _]; [by eapply row_at_mono|done]. }
  inversion Hop as [? op' ? Hr Hres|? op' ? w Hr Hres|? op' ? w l' Hr Hop']; subst;
    destruct (Hr row tc (reflexivity row) Hl) as (tc' & Hrun & Hl').
  - exists true, false, op', [], tc'. split; [done|]. split; [done|]. split; [done|].
    split; [done|]. eexists. split; [by eapply pend_done|simpl; lia].
  - destruct (Hagr w) as [Ha Hrow']; [apply Hin; by left|].
    exists true, true, op', w, tc'. split; [done|]. split; [done|].
    exists out'. eexists. split; [|split; [done|]].
    { eapply pending_agree; [by eapply pend_done|done|done]. }
    unfold branches, branch_cost. rewrite bind_cons. simpl. rewrite app_nil_r.
    split; [done|lia].
  - destruct (Hagr w) as [Ha Hrow']; [apply Hin; by left|].
    exists false, true, op', w, tc'. split; [done|]. split; [done|].
    exists (branches dens row l' ++ out'). eexists. split; [|split; [done|]].
    { eapply pending_agree; [eapply pend_op; try done|done|done].
      intros x Hx. apply Hin. by right. }
    unfold branches, branch_cost. rewrite bind_cons. simpl. rewrite <-(assoc_L (++)).
    split; [done|lia].
Qed.

(** Noting that the operator at hand is done, or not. *)
Lemma note_done_at it d v rest : cell (finished_ops it) (s_i it) = Ret false → 0 ≤ s_i it →
  (∀ b, set_cell (finished_ops it) (s_i it) b = Ret (rest b)) →
  note_done (mkRun d v) it = Ret (mkIterator (time_control it) (bgp_ops it) (headers it) (next_available it)
    (next_value it) (tmp_holder it) (s_i it) (rest d)).
Proof.
  intros Hfin Hi Hset. unfold note_done. simpl. destruct d; [by rewrite Hset|].
  pose proof (Hset false) as E. unfold set_cell, arr_set in E.
  destruct (decide (s_i it < 0)); [done|]. case_decide; [|done]. injection E as <-.
  destruct it as [? ? ? ? ? ? i fins]. simpl in *. do 2 f_equal. symmetry. apply list_insert_id.
  unfold cell in Hfin. rewrite decide_False in Hfin by lia.
  destruct (fins !! Z.to_nat i); simpl in Hfin; congruence.
Qed.

(** One run, with its ticks and flags. *)
Lemma visit_step it out k : searching it out k → 0 ≤ s_i it →
  cell (finished_ops it) (s_i it) = Ret false →
  ∃ r it1 tc it2 k', run_op_at it = Ret (r, it1) ∧ tick_it it1 = (true, set_time it1 tc) ∧
    note_done r (set_time it1 tc) = Ret it2 ∧ (k' < k)%nat ∧
    length (bgp_ops it2) = length (bgp_ops it) ∧ s_i it2 = s_i it ∧
    if valid_value r then
      if decide (s_i it + 1 < Z.of_nat (length (bgp_ops it)))
      then searching (set_level it2 (s_i it2 + 1)) out k'
      else ∃ out', out = tmp_holder it2 :: out' ∧ searching it2 out' k'
    else searching it2 out k'.
Proof.
  intros Hse Hi Hfin.
  destruct (searching_top it out k Hse Hi)
    as (Bl & B & F & c & C & f & Fi & S & ps & dens & Hp & Hc & Hs & Hlen & Hl & Eop & Efin & Sop & Sfin).
  assert (f = false) as -> by congruence.
  destruct (run_outcome _ _ _ _ _ _ _ _ _ _ _ _ _ Hp Hc Hl)
    as (d & v & op' & w & tc' & Hrun & Hl' & Hout).
  unfold run_op_at. rewrite Eop. simpl. rewrite Hrun. simpl. rewrite Sop. simpl.
  exists (mkRun d v), (mkIterator tc' (reverse (op' :: C) ++ S) (headers it)
    (next_available it) (next_value it) (apply w (tmp_holder it)) (s_i it) (finished_ops it)).
  unfold tick_it. cbn [time_control set_time bgp_ops headers next_available next_value
    tmp_holder s_i finished_ops valid_value].
  destruct (tick_live _ Hl') as (tc & Et & Hl2). rewrite Et. exists tc.
  set (fins := reverse (d :: Fi) ++ replicate (length S) false).
  set (it2 := mkIterator tc (reverse (op' :: C) ++ S) (headers it) (next_available it)
    (next_value it) (apply w (tmp_holder it)) (s_i it) fins).
  assert (Hnote : note_done (mkRun d v) (mkIterator tc (reverse (op' :: C) ++ S) (headers it)
      (next_available it) (next_value it) (apply w (tmp_holder it)) (s_i it) (finished_ops it)) = Ret it2)
    by exact (note_done_at (mkIterator tc _ _ _ _ _ _ _) d v
      (λ b, reverse (b :: Fi) ++ replicate (length S) false) Hfin Hi Sfin).
  assert (Hlen2 : length (bgp_ops it2) = length (bgp_ops it)).
  { rewrite Hlen. simpl. rewrite length_app, length_reverse. simpl. lia. }
  assert (Hhere : ∀ out k, pending Bl B F (op' :: C) (d :: Fi) dens (tmp_holder it2) out k →
    searching it2 out k).
  { intros out2 k2 Hp2. exists Bl, B, F, (op' :: C), (d :: Fi), S, ps, dens.
    split_and!; try done. simpl. lia. }
  destruct v.
  2: { destruct Hout as (Hrow & -> & k' & Hp' & Hk). exists it2, k'.
       split_and!; try done. simpl. apply Hhere. simpl. by rewrite Hrow. }
  destruct Hout as (rest & k' & Hp' & Hrow & -> & Hk).
  destruct Hc as [B Hall|B op2 p2 reads2 writes2 den2 S ps dens Hsem2 Hsub2 Hdis2 Hc].
  - exists it2, k'. split_and!; try done; [simpl in *; lia|]. simpl.
    rewrite decide_False by (simpl in Hlen; lia). exists rest. split; [done|]. by apply Hhere.
  - exists it2, (cost (den2 :: dens) (apply w (tmp_holder it)) + k')%nat.
    split_and!; try done; [lia|]. simpl valid_value. cbn iota.
    rewrite decide_True by (simpl in Hlen; lia).
    exists B, (list_to_set writes2 ∪ B), (op2 :: F), (op2 :: op' :: C), (false :: d :: Fi), S, ps, dens.
    split_and!; [|done| | |simpl; lia|done].
    + eapply pend_op; [exact Hp'|done..| |done]. eapply sem_runs; [exact Hsem2|].
      by eapply row_at_mono.
    + simpl. by rewrite (reverse_cons _ op2), <-(assoc_L (++)).
    + simpl. unfold fins. by rewrite (reverse_cons _ false), <-(assoc_L (++)).
Qed.
(** ** The loops *)

Definition ops_count (it : BGPIterator) : Z := Z.of_nat (length (bgp_ops it)).

Lemma searching_bounds it out k : searching it out k → s_i it + 1 ≤ ops_count it.
Proof.
  intros (? & ? & ? & C & ? & S & ? & ? & _ & _ & Ho & _ & Hs & _). unfold ops_count.
  rewrite Ho, length_app, length_reverse. lia.
Qed.

Lemma searching_below it out k : searching it out k → s_i it < 0 → out = [].
Proof.
  intros (? & ? & ? & C & ? & S & ? & ? & Hp & _ & _ & _ & Hs & _) Hi.
  destruct C; [|simpl in Hs; lia]. by inversion Hp.
Qed.

Lemma searching_flag it out k : searching it out k → 0 ≤ s_i it →
  ∃ fin, cell (finished_ops it) (s_i it) = Ret fin.
Proof.
  intros Hse Hi. destruct (searching_top it out k Hse Hi)
    as (? & ? & ? & ? & ? & f & ? & ? & ? & ? & _ & _ & _ & _ & _ & _ & Hf & _). eauto.
Qed.

Lemma last_level N : 1 ≤ N < 2 ^ 63 → s64 (u64 (N - 1)) = N - 1.
Proof.
  intros HN. unfold s64, to_signed, u64, uwrap.
  rewrite !Z.mod_small by (rewrite ?Z.mod_small; lia). by rewrite decide_True by lia.
Qed.

Lemma ops_loop_spec fuel : ∀ inner it out k,
  searching it out k → 1 ≤ ops_count it < 2 ^ 63 →
  (inner = true → 0 ≤ s_i it ∧ s_i it + 1 < ops_count it) →
  (2 * k + (if inner then 2 else 3) ≤ fuel)%nat →
  ∃ it' k', ops_loop fuel inner it = Ret (Some it') ∧ searching it' out k' ∧ (k' ≤ k)%nat ∧
    ops_count it' = ops_count it ∧ (s_i it' < 0 ∨ s_i it' + 1 = ops_count it').
Proof.
  induction fuel as [|fuel IH]; intros inner it out k Hse HN Hin Hf; [destruct inner; lia|].
  cbn [ops_loop]. destruct inner.
  2: { fold (ops_count it). rewrite last_level by done. case_decide as Hd.
       - destruct (IH true it out k) as (it' & k' & H1 & H2 & H3 & H4 & H5); [done|done|lia|lia|].
         by exists it', k'.
       - exists it, k. split_and!; [done..|]. pose proof (searching_bounds _ _ _ Hse). lia. }
  destruct (Hin eq_refl) as [Hi Hlt]. destruct (searching_flag _ _ _ Hse Hi) as [[] Efin];
    rewrite Efin; simpl mbind.
  - destruct (backtrack_step _ _ _ Hse Hi Efin) as (it1 & k1 & -> & Hse1 & Hk1 & Hl1).
    cbn [mbind outcome_bind]. assert (ops_count it1 = ops_count it) as E by (unfold ops_count; lia).
    destruct (IH false it1 out k1) as (it' & k' & H1 & H2 & H3 & H4 & H5); [done|lia|done|lia|].
    exists it', k'. split_and!; [done|done|lia|lia|done].
  - destruct (visit_step _ _ _ Hse Hi Efin)
      as (r & it1 & tc & it2 & k2 & -> & Et & En & Hk2 & Hl2 & Hs2 & Hout).
    cbn [mbind outcome_bind]. rewrite Et. cbn [negb]. rewrite En. cbn [mbind outcome_bind].
    assert (ops_count it2 = ops_count it) as E by (unfold ops_count; lia).
    destruct (valid_value r).
    + rewrite decide_True in Hout by (unfold ops_count in *; lia).
      destruct (IH false _ out k2 Hout) as (it' & k' & H1 & H2 & H3 & H4 & H5);
        [unfold ops_count in *; simpl; lia|done|lia|].
      exists it', k'. split_and!; [done|done|lia|unfold ops_count in *; simpl in *; lia|done].
    + destruct (IH true it2 out k2 Hout) as (it' & k' & H1 & H2 & H3 & H4 & H5); [lia|lia|lia|].
      exists it', k'. split_and!; [done|done|lia|lia|done].
Qed.

Lemma ops_until_last_spec fuel it out k :
  searching it out k → 1 ≤ ops_count it < 2 ^ 63 → (2 * k + 3 ≤ fuel)%nat →
  ∃ it' k', ops_until_last fuel it = Ret (Some it') ∧ searching it' out k' ∧ (k' ≤ k)%nat ∧
    ops_count it' = ops_count it ∧ (s_i it' < 0 ∨ s_i it' + 1 = ops_count it').
Proof.
  intros Hse HN Hf. unfold ops_until_last.
  destruct (tick_it_live _ _ _ Hse) as (tc & -> & Hse'). cbn [negb].
  by destruct (ops_loop_spec fuel false _ out k Hse' HN) as (it' & k' & H1 & H2 & H3 & H4 & H5);
    [done|lia|exists it', k'].
Qed.

Lemma searching_next it b v out k : searching it out k → searching (set_next it b v) out k.
Proof. intros (?&?&?&?&?&?&?&?&?). by do 8 eexists. Qed.

(** The next row of the search is computed, or there is none. *)
Definition delivered (it : BGPIterator) (out : list (list Z)) (k : nat) : Prop :=
  match out with
  | [] => next_available it = false
  | row :: out => next_available it = true ∧ next_value it = row ∧
      ∃ k', (k' ≤ k)%nat ∧ searching it out k'
  end.

Lemma delivered_mono it out k k' : (k ≤ k')%nat → delivered it out k → delivered it out k'.
Proof.
  unfold delivered. destruct out; [done|]. intros ? (? & ? & k2 & ? & ?).
  split; [done|]. split; [done|]. exists k2. split; [lia|done].
Qed.

Lemma next_loop_spec fuel ofuel : ∀ it out k,
  searching it out k → 1 ≤ ops_count it < 2 ^ 63 → (k < fuel)%nat → (2 * k + 3 ≤ ofuel)%nat →
  ∃ it', next_loop fuel ofuel it = Ret (Some it') ∧ ops_count it' = ops_count it ∧
    delivered it' out k.
Proof.
  induction fuel as [|fuel IH]; intros it out k Hse HN Hf Ho; [lia|]. cbn [next_loop].
  destruct (ops_until_last_spec ofuel it out k) as (it1 & k1 & -> & Hse1 & Hk1 & Hn1 & Hs1);
    [done..|]. cbn [mbind outcome_bind].
  case_decide as Hlt.
  { eexists. split; [done|]. split; [done|].
    by rewrite (searching_below _ _ _ Hse1 Hlt). }
  assert (Hi : 0 ≤ s_i it1) by lia.
  destruct (searching_flag _ _ _ Hse1 Hi) as [[] Efin]; rewrite Efin; cbn [mbind outcome_bind].
  - destruct (backtrack_step _ _ _ Hse1 Hi Efin) as (it2 & k2 & -> & Hse2 & Hk2 & Hl2).
    cbn [mbind outcome_bind].
    destruct (IH it2 out k2) as (it' & -> & H2 & H3); [done|unfold ops_count in *; lia..|].
    exists it'. split; [done|]. split; [unfold ops_count in *; lia|].
    eapply delivered_mono; [|done]. lia.
  - destruct (visit_step _ _ _ Hse1 Hi Efin)
      as (r & it2 & tc & it3 & k2 & -> & Et & En & Hk2 & Hl2 & Hs2 & Hout).
    cbn [mbind outcome_bind]. rewrite Et. cbn [negb]. rewrite En. cbn [mbind outcome_bind].
    destruct (valid_value r).
    + rewrite decide_False in Hout by (unfold ops_count in *; lia).
      destruct Hout as (out' & -> & Hse3). eexists. split; [done|].
      split; [unfold ops_count in *; simpl; lia|].
      do 2 (split; [done|]). exists k2. split; [lia|]. by apply searching_next.
    + destruct (IH it3 out k2) as (it' & -> & H2 & H3); [done|unfold ops_count in *; lia..|].
      exists it'. split; [done|]. split; [unfold ops_count in *; lia|].
      eapply delivered_mono; [|done]. lia.
Qed.

Lemma next_concrete_spec fuel it out k :
  searching it out k → 1 ≤ ops_count it < 2 ^ 63 → (2 * k + 3 ≤ fuel)%nat →
  ∃ it', next_concrete fuel it = Ret (Some (next_value it, it')) ∧
    ops_count it' = ops_count it ∧ delivered it' out k.
Proof.
  intros Hse HN Hf. unfold next_concrete.
  destruct (tick_it_live _ _ _ Hse) as (tc & -> & Hse'). cbn [negb].
  destruct (next_loop_spec fuel fuel _ out k (searching_next _ false (next_value it) _ _ Hse'))
    as (it' & E & Hn & Hd); [done|lia|lia|].
  exists it'. simpl in *. rewrite E. done.
Qed.

(** The client's loop collects exactly the rows of the search. *)
Lemma all_rows_spec out : ∀ it k fuel step_fuel,
  delivered it out k → 1 ≤ ops_count it < 2 ^ 63 → (length out < fuel)%nat →
  (2 * k + 3 ≤ step_fuel)%nat →
  all_rows fuel step_fuel it = Ret (Some out).
Proof.
  induction out as [|row out IH]; intros it k fuel step_fuel Hd HN Hf Hs;
    (destruct fuel as [|fuel]; [simpl in Hf; lia|]); cbn [all_rows]; unfold it_has_next.
  - by rewrite Hd.
  - destruct Hd as (-> & <- & k' & Hk & Hse). unfold it_next.
    destruct (next_concrete_spec step_fuel it out k') as (it' & -> & Hn & Hd); [done|done|lia|].
    cbn [mbind outcome_bind]. rewrite (IH it' k'); [done|done|lia|simpl in Hf; lia|lia].
Qed.
(** ** The rows of the join are the solutions of the patterns *)

Definition complete_row (r : list Z) : Prop :=
  length r = n ∧ ∀ i, (i < n)%nat → ∃ v, r !! i = Some v ∧ ok v.

Lemma complete_row_at B r : (∀ i, i ∈ B → (i < n)%nat) → complete_row r → row_at n ok B r.
Proof. intros HB [Hl Hr]. split; auto. Qed.

(** A binding of an operator is right exactly for the rows that extend it. *)
Lemma binding_agree B op p reads writes den row w r :
  operator_sem n ok op p reads writes den → reads ⊆ B → list_to_set writes ## B →
  row_at n ok B row → w ∈ den row →
  agree (list_to_set writes ∪ B) (apply w row) r ↔
  agree B row r ∧ (∀ a, a ∈ w → r !! a.1 = Some a.2).
Proof.
  intros Hsem Hsub Hdis Hrow Hw.
  destruct (sem_writes _ _ _ _ _ _ _ Hsem row w Hw) as [Hwr _]; [by eapply row_at_mono|].
  assert (Hnd : NoDup w.*1) by (rewrite Hwr; by eapply sem_nodup).
  assert (Hb : ∀ a, a ∈ w → apply w row !! a.1 = Some a.2).
  { intros [i x] Ha. apply apply_at; [done|done|].
    pose proof (sem_bounds _ _ _ _ _ _ _ Hsem) as Hb. rewrite <-Hwr, Forall_fmap, Forall_forall in Hb.
    destruct Hrow as [-> _]. exact (Hb _ Ha). }
  assert (Hfr : agree B (apply w row) row) by (apply apply_disjoint; by rewrite Hwr).
  split.
  - intros Ha. split.
    + etrans; [symmetry; exact Hfr|]. eapply agree_mono; [|done]. set_solver.
    + intros a Hin. destruct Ha as [_ Ha]. rewrite <-Ha; [by apply Hb|].
      apply elem_of_union_l, elem_of_list_to_set. rewrite <-Hwr. by apply list_elem_of_fmap_2.
  - intros [[Hl Ha] Hr]. split; [by rewrite length_apply|]. intros i Hi.
    destruct (decide (i ∈ w.*1)) as [(a & -> & Hin)%list_elem_of_fmap|Hnin].
    + by rewrite Hb, Hr.
    + rewrite apply_other by done. apply Ha. apply elem_of_union in Hi as [Hi|]; [|done].
      rewrite elem_of_list_to_set, <-Hwr in Hi. done.
Qed.

Lemma nest_solutions B ops ps dens : chain B ops ps dens → (∀ i, i ∈ B → (i < n)%nat) →
  ∀ row r, row_at n ok B row →
  r ∈ nest dens row ↔ complete_row r ∧ agree B row r ∧ Forall (λ p, holds p r) ps.
Proof.
  induction 1 as [B Hall|B op p reads writes den ops ps dens Hsem Hsub Hdis Hc IH];
    intros HB row r Hrow; cbn [nest].
  - rewrite list_elem_of_singleton. split.
    + intros ->. split; [|done]. destruct Hrow as [Hl Hr]. split; [done|]. auto.
    + intros ([Hl _] & [Hl' Ha] & _). apply list_eq. intros i.
      destruct (decide (i < n)%nat); [by rewrite Ha by auto|].
      by rewrite !lookup_ge_None_2 by lia.
  - assert (HB2 : ∀ i, i ∈ list_to_set writes ∪ B → (i < n)%nat).
    { intros i [Hi|Hi]%elem_of_union; [|auto]. apply elem_of_list_to_set in Hi.
      pose proof (sem_bounds _ _ _ _ _ _ _ Hsem) as Hb. rewrite Forall_forall in Hb. auto. }
    assert (Hstep : ∀ w, w ∈ den row → r ∈ nest dens (apply w row) ↔
      complete_row r ∧ (agree B row r ∧ ∀ a, a ∈ w → r !! a.1 = Some a.2) ∧
      Forall (λ p, holds p r) ps).
    { intros w Hw. rewrite <-(binding_agree B op p reads writes den row w r) by done.
      apply IH; [done|].
      by destruct (chain_step _ _ _ _ _ _ _ _ _ Hsem Hsub Hrow Hw (reflexivity row)). }
    rewrite list_elem_of_bind, Forall_cons. split.
    + intros (w & Hr & Hw). apply Hstep in Hr as (Hcr & [Ha Hv] & Hps); [|done].
      split_and!; [done|done| |done].
      apply (sem_holds _ _ _ _ _ _ _ Hsem row r); [by eapply row_at_mono|by eapply agree_mono|
        apply complete_row_at; [set_solver|done]|eauto].
    + intros (Hcr & Ha & Hh & Hps).
      apply (sem_holds _ _ _ _ _ _ _ Hsem row r) in Hh as (w & Hw & Hv);
        [|by eapply row_at_mono|by eapply agree_mono|apply complete_row_at; [set_solver|done]].
      exists w. split; [|done]. by apply Hstep.
Qed.

Lemma binding_eq (w w' : assignment) (f : nat → option Z) :
  w.*1 = w'.*1 → (∀ a, a ∈ w → f a.1 = Some a.2) → (∀ a, a ∈ w' → f a.1 = Some a.2) → w = w'.
Proof.
  revert w'. induction w as [|[i x] w IH]; intros [|[j y] w']; try done.
  intros E Hw Hw'. rewrite !fmap_cons in E. injection E as E1 E2. simpl in E1. subst j.
  specialize (Hw (i, x) ltac:(by left)) as H1. specialize (Hw' (i, y) ltac:(by left)) as H2.
  simpl in *. simplify_eq. f_equal. apply IH; [done|intros; apply Hw; by right|intros; apply Hw'; by right].
Qed.

Lemma NoDup_nest B ops ps dens : chain B ops ps dens → (∀ i, i ∈ B → (i < n)%nat) →
  ∀ row, row_at n ok B row → NoDup (nest dens row).
Proof.
  induction 1 as [B Hall|B op p reads writes den ops ps dens Hsem Hsub Hdis Hc IH];
    intros HB row Hrow; cbn [nest]; [apply NoDup_singleton|].
  assert (HB2 : ∀ i, i ∈ list_to_set writes ∪ B → (i < n)%nat).
  { intros i [Hi|Hi]%elem_of_union; [|auto]. apply elem_of_list_to_set in Hi.
    pose proof (sem_bounds _ _ _ _ _ _ _ Hsem) as Hb. rewrite Forall_forall in Hb. auto. }
  assert (Hr : row_at n ok reads row) by by eapply row_at_mono.
  assert (Hat : ∀ w, w ∈ den row → row_at n ok (list_to_set writes ∪ B) (apply w row)).
  { intros w Hw. by destruct (chain_step _ _ _ _ _ _ _ _ _ Hsem Hsub Hrow Hw (reflexivity row)). }
  apply NoDup_bind.
  - intros w w' r Hw Hw' H1 H2.
    apply (nest_solutions _ _ _ _ Hc HB2) in H1 as (_ & H1 & _); [|auto].
    apply (nest_solutions _ _ _ _ Hc HB2) in H2 as (_ & H2 & _); [|auto].
    apply (binding_agree B op p reads writes den row) in H1 as [_ H1]; [|done..].
    apply (binding_agree B op p reads writes den row) in H2 as [_ H2]; [|done..].
    apply (binding_eq _ _ (λ i, r !! i)); [|done..].
    destruct (sem_writes _ _ _ _ _ _ _ Hsem row w Hw Hr) as [-> _].
    by destruct (sem_writes _ _ _ _ _ _ _ Hsem row w' Hw' Hr) as [-> _].
  - intros w Hw. apply IH; auto.
  - by eapply sem_once.
Qed.

(** What the iterator of a chain of operators delivers. *)
Lemma iterator_spec ops ps dens hs tc fuel :
  chain ∅ ops ps dens → length hs = n → 1 ≤ Z.of_nat (length ops) < 2 ^ 63 → live tc →
  (2 * cost dens (replicate n 0%Z) + 3 ≤ fuel)%nat →
  ∃ it rows, new_BGPIterator fuel ops hs tc = Ret (Some it) ∧
    (∀ fuel', (length rows < fuel')%nat → all_rows fuel' fuel it = Ret (Some rows)) ∧
    NoDup rows ∧
    ∀ r, r ∈ rows ↔ complete_row r ∧ Forall (λ p, holds p r) ps.
Proof.
  intros Hc Hh HN Hl Hf.
  assert (Hrow0 : row_at n ok ∅ (replicate n 0)) by (split; [apply length_replicate|set_solver]).
  inversion Hc as [|B op p reads writes den ops' ps' dens' Hsem Hsub Hdis Hc']; subst;
    [simpl in HN; lia|].
  set (it0 := mkIterator tc (op :: ops') hs false [] (replicate n 0) 0
    (replicate (length (op :: ops')) false)).
  assert (Hse : searching it0 (nest (den :: dens') (replicate n 0))
    (cost (den :: dens') (replicate n 0))).
  { exists ∅, (list_to_set writes ∪ ∅), [op], [op], [false], ops', ps', dens'.
    split_and!; [|done|done|done|done|done].
    rewrite <-(app_nil_r (nest _ _)), <-(Nat.add_0_r (cost _ _)).
    eapply pend_op; [apply (pend_nil (den :: dens'))|done..|exact Hrow0| |done].
    eapply sem_runs; [exact Hsem|by eapply row_at_mono]. }
  destruct (next_concrete_spec fuel it0 _ _ Hse) as (it & E & Hn & Hd);
    [done|done|].
  exists it, (nest (den :: dens') (replicate n 0)).
  split; [unfold new_BGPIterator; rewrite Hh; fold it0; by rewrite E|]. split; [|split].
  - intros fuel' Hf'. eapply all_rows_spec; [exact Hd|rewrite Hn; done|done|done].
  - eapply NoDup_nest; [exact Hc|set_solver|done].
  - intros r. rewrite (nest_solutions _ _ _ _ Hc) by (set_solver || done). split; [tauto|].
    intros [Hcr Hps]. split_and!; [done| |done]. split; [|set_solver].
    rewrite length_replicate. symmetry. apply Hcr.
Qed.

(** C5: when time does not run out, the iterator over a chain of operators
    terminates and delivers each solution of its patterns exactly once, and
    nothing else. *)
Theorem iterator_correct ops ps dens hs tc fuel :
  chain ∅ ops ps dens → length hs = n → 1 ≤ Z.of_nat (length ops) < 2 ^ 63 → live tc →
  (2 * cost dens (replicate n 0%Z) + 3 ≤ fuel)%nat →
  ∃ it rows, new_BGPIterator fuel ops hs tc = Ret (Some it) ∧
    (∀ fuel', (length rows < fuel')%nat → all_rows fuel' fuel it = Ret (Some rows)) ∧
    NoDup rows ∧
    ∀ r, r ∈ rows ↔ complete_row r ∧ Forall (λ p, holds p r) ps.
Proof. apply iterator_spec. Qed.
End search.

(** ** Time running out, and resets *)

Section limits.
Context `{Clk : Clock, Lib : K2Lib}.

Lemma tick_passed c : time_has_passed c = true →
  ∃ c', tick c = (false, c') ∧ time_has_passed c' = true.
Proof. intros Hp. unfold tick. rewrite Hp. by eexists. Qed.

(** Time has passed while the row [v] is at hand. *)
Definition stale (it : BGPIterator) (v : list Z) : Prop :=
  next_available it = true ∧ time_has_passed (time_control it) = true ∧ next_value it = v.
Lemma stale_next it v fuel : stale it v →
  it_has_next it = true ∧ ∃ it', it_next fuel it = Ret (Some (v, it')) ∧ stale it' v.
Proof.
  intros (Ha & Hp & Hv). split; [done|]. unfold it_next, next_concrete, tick_it.
  destruct (tick_passed _ Hp) as (c & -> & Hc). subst v. by eexists.
Qed.

(** once time has passed while a row is available, [has_next] stays true and
    [next] returns that row again and again: a client that drains the iterator
    never finishes. *)
Theorem timeout_repeats_row it v : stale it v →
  ∀ fuel step_fuel, all_rows fuel step_fuel it = Ret None.
Proof.
  intros Hst fuel step_fuel. revert it Hst. induction fuel as [|fuel IH]; intros it Hst; [done|].
  cbn [all_rows]. destruct (stale_next it v step_fuel Hst) as (-> & it' & -> & Hst').
  cbn [mbind outcome_bind]. by rewrite (IH it').
Qed.

(** [reset_iterator] does not restart an iterator that has been exhausted:
    it still has no row, because the level reached is kept. *)
Theorem reset_after_end it ops fuel :
  s_i it < 0 → live (time_control it) → reset_all (bgp_ops it) = Ret ops → (0 < fuel)%nat →
  ∃ it', reset_iterator fuel it = Ret (Some it') ∧ it_has_next it' = false.
Proof.
  intros Hs Hl Hr Hf. unfold reset_iterator. rewrite Hr.
  cbn [mbind outcome_bind]. set (it1 := mkIterator _ _ _ _ _ _ _ _).
  unfold next_concrete, tick_it. destruct (tick_live (time_control it1)) as (c & -> & Hc); [done|].
  cbn [negb]. destruct fuel as [|fuel]; [lia|]. cbn [next_loop].
  unfold ops_until_last at 1, tick_it.
  destruct (tick_live (time_control (set_next (set_time it1 c) false (next_value (set_time it1 c)))))
    as (c2 & -> & Hc2); [done|].
  cbn [negb ops_loop]. rewrite decide_False by (simpl; lia). cbn [mbind outcome_bind].
  rewrite decide_True by (simpl; lia). by eexists.
Qed.
End limits.

(** ** Instances of the theorems *)
Section witnesses.
#[local] Existing Instance Toy.toy_k2_lib.
#[local] Instance frozen_clock : Clock := λ _, 0.

(** The patterns (?x p 5) and (?x p ?y). *)
Definition toy_ops : list BGPOp :=
  [OneVarCPBGPOp SUBJECT_VAR (create_band_scanner 5 ROW_BAND_TYPE toy_points_tree) 0;
   TwoVarJoinOneBGPOp SUBJECT_VAR (create_full_scanner toy_points_tree) 0 1 None 0].
Definition toy_patterns : list pattern :=
  [one_var_pattern toy_points_tree SUBJECT_VAR 0 5; two_var_pattern toy_points_tree 0 1].
Definition toy_dens : list (list Z → list (list (nat * Z))) :=
  [(λ _, write_side SUBJECT_VAR 0 <$> band_points toy_points_tree (band_of SUBJECT_VAR) 5);
   join_den toy_points_tree SUBJECT_VAR 0 1].

Lemma toy_chain : chain 2 (coord 8) ∅ toy_ops toy_patterns toy_dens.
Proof.
  destruct toy_points_tree_ok as [Hok Hq].
  assert (Hd : tree_depth toy_points_tree = 8) by (exact (f_equal st_tree_depth Hq)).
  eapply chain_cons; [apply (one_var_cp_sem 2 8 toy_points_tree Hok Hd SUBJECT_VAR 5 0);
    [split; [done|simpl; lia]|done]|set_solver|set_solver|].
  eapply chain_cons; [apply (two_var_join_one_sem 2 8 toy_points_tree Hok Hd SUBJECT_VAR 0 1);
    [split; [done|simpl; lia]|split; [done|simpl; lia]|done]|set_solver|set_solver|].
  apply chain_nil. intros i Hi. destruct i as [|[|i]]; [set_solver|set_solver|lia].
Qed.

Lemma iterator_correct_witness :
  ∃ it rows, new_BGPIterator (2 * cost toy_dens (replicate 2 0%Z) + 3) toy_ops [1; 2]
      (new_TimeControl 1000 60000 0) = Ret (Some it) ∧
    (∀ fuel', (length rows < fuel')%nat →
      all_rows fuel' (2 * cost toy_dens (replicate 2 0%Z) + 3) it = Ret (Some rows)) ∧
    NoDup rows ∧
    ∀ r, r ∈ rows ↔ complete_row 2 (coord 8) r ∧ Forall (λ p, holds p r) toy_patterns.
Proof.
  apply (iterator_correct 2 (coord 8) toy_ops toy_patterns toy_dens).
  - exact toy_chain.
  - reflexivity.
  - computed.
  - split; [reflexivity|intros k; vm_compute; discriminate].
  - apply le_n.
Defined.

Definition toy_stale (s : Z) (passed : bool) : BGPIterator :=
  mkIterator (set_ticks (new_TimeControl 1000 60000 0) 0 passed 1) toy_ops [1; 2] true [3; 5] [3; 5]
    s [false; false].

Lemma timeout_repeats_row_witness :
  ∀ fuel step_fuel, all_rows fuel step_fuel (toy_stale 1 true) = Ret None.
Proof. by apply (timeout_repeats_row (toy_stale 1 true) [3; 5]). Defined.

Lemma reset_after_end_witness :
  ∃ it', reset_iterator 10 (toy_stale (-1) false) = Ret (Some it') ∧ it_has_next it' = false.
Proof.
  apply (reset_after_end _ toy_ops).
  - reflexivity.
  - split; [reflexivity|intros k; vm_compute; discriminate].
  - vm_compute. reflexivity.
  - lia.
Defined.
End witnesses.
