(* ===== verification/BGPProcessor.v ===== *)
(** * query_engine/query_processing/BGPProcessor.cpp: planning a query

    A message of triple patterns becomes a chain of operators: every variable
    gets an index and a column, every pattern a scanner over the tree of its
    predicate, and the factory picks the operator by the columns already bound.
    [execute_it_correct] is the contract of the whole query engine. *)
From S2P Require Import Prelude Streams Memory Blocks K2Tree Scanners Fetcher CachedSource.
From S2P Require Import NodeIds BGPOps BGPIterator.

Local Open Scope Z_scope.

Section processor.
Context `{Clk : Clock, Lib : K2Lib, Fet : K2TreeFetcher F}.

(** The ids manager is consulted through [get_id]. *)
Variable nim_get_id : Z → Z.

Definition get_cache_id_of (real_id : Z) : Z :=
  let value := nim_get_id real_id in
  if decide (value = NOT_FOUND_NODEID) then u64 (-1) else value.
Definition get_cache_id (node : BGPNode) : Z :=
  if decide (cache_node_id node = 0 ∨ cache_node_id node = u64 (-1))
  then get_cache_id_of (real_node_id node) else cache_node_id node.

Record BGPProcessor := mkProcessor {
  bgp_message : BGPMessage;
  cm : F;
  vim : VarIndexManager;
  header_values : gset Z;
  header_vec : list Z;
  join_incidence : list Z;
  header_reverse_map : gmap Z Z;
  p_time_control : TimeControl
}.

Definition fill_node (node : BGPNode) : BGPNode :=
  mkNode (is_concrete node) (var_name node) (real_node_id node) (get_cache_id node).
Definition fill_triple (t : BGPTriple) : BGPTriple :=
  mkBGPTriple (fill_node (b_subject t)) (fill_node (b_predicate t)) (fill_node (b_object t)).
Definition new_BGPProcessor (m : BGPMessage) (cm : F) (vim : VarIndexManager) (tc : TimeControl)
    : BGPProcessor :=
  mkProcessor (mkBGPMessage (var_names m) (fill_triple <$> patterns m) (first_batch_small m))
    cm vim ∅ [] [] ∅ tc.

Definition set_vim (p : BGPProcessor) (v : VarIndexManager) : BGPProcessor :=
  mkProcessor (bgp_message p) (cm p) v (header_values p) (header_vec p) (join_incidence p)
    (header_reverse_map p) (p_time_control p).
Definition set_cm (p : BGPProcessor) (f : F) : BGPProcessor :=
  mkProcessor (bgp_message p) f (vim p) (header_values p) (header_vec p) (join_incidence p)
    (header_reverse_map p) (p_time_control p).

(** [if (!node.is_concrete) vim.assign_index_if_not_found(node.var_name)]. *)
Definition assign_node (node : BGPNode) (v : VarIndexManager) : VarIndexManager :=
  if is_concrete node then v else (assign_index_if_not_found (var_name node) v).2.

Definition add_variable (node : BGPNode) (p : BGPProcessor) : BGPProcessor :=
  let '(var_id, v) := assign_index_if_not_found (var_name node) (vim p) in
  mkProcessor (bgp_message p) (cm p) v
    (if decide (var_id ≠ 0) then {[ var_id ]} ∪ header_values p else header_values p)
    (header_vec p) (join_incidence p) (header_reverse_map p) (p_time_control p).
Definition add_node (node : BGPNode) (p : BGPProcessor) : BGPProcessor :=
  if is_concrete node then p else add_variable node p.

(** One pattern in the loop of [find_headers]. *)
Definition find_headers_step (p : BGPProcessor) (t : BGPTriple) : BGPProcessor :=
  let p := set_vim p (assign_node (b_object t) (assign_node (b_subject t) (vim p))) in
  add_node (b_object t) (add_node (b_subject t) p).

Definition build_rev_map (header_vec : list Z) : gmap Z Z :=
  fold_left (λ m x, <[x.2 := Z.of_nat x.1]> m) (zip (seq 0 (length header_vec)) header_vec) ∅.

Definition find_headers (p : BGPProcessor) : BGPProcessor :=
  let p := fold_left find_headers_step (patterns (bgp_message p)) p in
  let hv := ascending (header_values p) in
  mkProcessor (bgp_message p) (cm p) (vim p) (header_values p) hv
    (replicate (length hv) 0) (build_rev_map hv) (p_time_control p).

(** [std::all_of] stops at the first predicate without a tree. *)
Fixpoint all_have_trees (ts : list BGPTriple) (f : F) : outcome (bool * F) :=
  match ts with
  | [] => Ret (true, f)
  | t :: ts =>
      let id := cache_node_id (b_predicate t) in
      if decide (id = 0) then Ret (false, f)
      else
        '(r, f) ← fetch_k2tree id f;
        if exists_tree r then all_have_trees ts f else Ret (false, f)
  end.
Definition do_all_predicates_have_trees (p : BGPProcessor) : outcome (bool * BGPProcessor) :=
  '(b, f) ← all_have_trees (patterns (bgp_message p)) (cm p);
  Ret (b, set_cm p f).

(** The scanner of a pattern, by which of its ends are variables. *)
Definition scanner_for (t : BGPTriple) (tree : K2TreeMixed) : K2TreeScanner :=
  let subject_is_var := negb (is_concrete (b_subject t)) in
  let object_is_var := negb (is_concrete (b_object t)) in
  if subject_is_var && object_is_var then create_full_scanner tree
  else if subject_is_var
  then create_band_scanner (cache_node_id (b_object t)) ROW_BAND_TYPE tree
  else if object_is_var
  then create_band_scanner (cache_node_id (b_subject t)) COLUMN_BAND_TYPE tree
  else create_empty_scanner tree.

Definition build_scanner (t : BGPTriple) (p : BGPProcessor)
    : outcome (K2TreeScanner * BGPProcessor) :=
  '(fetched, f) ← fetch_k2tree (cache_node_id (b_predicate t)) (cm p);
  tree ← fetch_get fetched;
  let v := assign_node (b_object t) (assign_node (b_subject t) (vim p)) in
  Ret (scanner_for t tree, set_vim (set_cm p f) v).

Fixpoint build_scanners (ts : list BGPTriple) (p : BGPProcessor)
    : outcome (list K2TreeScanner * BGPProcessor) :=
  match ts with
  | [] => Ret ([], p)
  | t :: ts =>
      '(s, p) ← build_scanner t p;
      '(scanners, p) ← build_scanners ts p;
      Ret (s :: scanners, p)
  end.

(** [create_bgp_op] on the members of the processor. *)
Definition build_bgp_op (s : K2TreeScanner) (t : BGPTriple) (p : BGPProcessor)
    : outcome (BGPOp * BGPProcessor) :=
  '(op, vi, ji, rm) ← create_bgp_op s t (var_indexes (vim p)) (join_incidence p)
                        (header_reverse_map p);
  Ret (op, mkProcessor (bgp_message p) (cm p) (mkVIM vi (current_index (vim p)))
             (header_values p) (header_vec p) ji rm (p_time_control p)).

Fixpoint build_bgp_ops (ss : list K2TreeScanner) (ts : list BGPTriple) (p : BGPProcessor)
    : outcome (list BGPOp * BGPProcessor) :=
  match ss, ts with
  | s :: ss, t :: ts =>
      '(op, p) ← build_bgp_op s t p;
      '(ops, p) ← build_bgp_ops ss ts p;
      Ret (op :: ops, p)
  | _, _ => Ret ([], p)
  end.

Inductive QueryIterator :=
  | ItBGP (it : BGPIterator)
  | ItEmpty (headers : list Z).

Definition execute_it (fuel : nat) (p : BGPProcessor)
    : outcome (option (QueryIterator * BGPProcessor)) :=
  let p := find_headers p in
  '(all_trees, p) ← do_all_predicates_have_trees p;
  if negb all_trees then Ret (Some (ItEmpty (header_vec p), p))
  else
    '(scanners, p) ← build_scanners (patterns (bgp_message p)) p;
    '(ops, p) ← build_bgp_ops scanners (patterns (bgp_message p)) p;
    m ← new_BGPIterator fuel ops (header_vec p) (p_time_control p);
    match m with
    | None => Ret None
    | Some it => Ret (Some (ItBGP it, p))
    end.

(** For every variable asked for, the column that holds it. *)
Fixpoint permutation_loop (names : list (list Z)) (p : BGPProcessor)
    : list Z * BGPProcessor :=
  match names with
  | [] => ([], p)
  | name :: names =>
      let '(internal_index, vi) := subscript (var_indexes (vim p)) name in
      let '(pos_result, rm) := subscript (header_reverse_map p) internal_index in
      let '(l, p) := permutation_loop names
        (mkProcessor (bgp_message p) (cm p) (mkVIM vi (current_index (vim p))) (header_values p)
           (header_vec p) (join_incidence p) rm (p_time_control p)) in
      (pos_result :: l, p)
  end.
Definition get_permutation_vec (p : BGPProcessor) : list Z * BGPProcessor :=
  permutation_loop (var_names (bgp_message p)) p.
End processor.

(** ** The indexes of the variables *)

Definition node_vars (node : BGPNode) : list (list Z) :=
  if is_concrete node then [] else [var_name node].
Definition triple_vars (t : BGPTriple) : list (list Z) :=
  node_vars (b_subject t) ++ node_vars (b_object t).
Definition message_vars (ts : list BGPTriple) : list (list Z) := ts ≫= triple_vars.

(** Indexes are positive and tell variables apart. *)
Record vim_ok (v : VarIndexManager) : Prop := {
  vim_current : 1 ≤ current_index v;
  vim_range x i : var_indexes v !! x = Some i → 1 ≤ i < current_index v;
  vim_inj x y i : var_indexes v !! x = Some i → var_indexes v !! y = Some i → x = y
}.

Lemma new_vim_ok : vim_ok new_VarIndexManager.
Proof. split; simpl; [lia|..]; intros *; by rewrite lookup_empty. Qed.

Lemma assign_spec x v : vim_ok v → current_index v + 1 < 2 ^ 64 →
  let '(i, v') := assign_index_if_not_found x v in
  vim_ok v' ∧ current_index v' ≤ current_index v + 1 ∧ var_indexes v' !! x = Some i ∧
  var_indexes v ⊆ var_indexes v' ∧
  (∀ y j, var_indexes v' !! y = Some j → y = x ∨ var_indexes v !! y = Some j).
Proof.
  intros [Hc Hr Hi] Hb. unfold assign_index_if_not_found.
  destruct (var_indexes v !! x) as [i|] eqn:E.
  { split_and!; [by split|lia|done|done|by right]. }
  rewrite u64_id by (unfold in_u; lia). simpl.
  split_and!; [split; simpl|lia|by rewrite lookup_insert_eq|by apply insert_subseteq|].
  - lia.
  - intros y i. rewrite lookup_insert. case_decide; [intros [= <-]; lia|].
    intros Hy. apply Hr in Hy. lia.
  - intros y z i. rewrite !lookup_insert. repeat case_decide; intros; simplify_eq; [done|..].
    + apply Hr in H2. lia.
    + apply Hr in H1. lia.
    + by eapply Hi.
  - intros y j. rewrite lookup_insert. case_decide; [intros; by left|by right].
Qed.

(** A variable that has an index keeps it. *)
Lemma assign_known x v i : var_indexes v !! x = Some i →
  assign_index_if_not_found x v = (i, v).
Proof. intros E. unfold assign_index_if_not_found. by rewrite E. Qed.

Lemma assign_node_spec node v : vim_ok v → current_index v + 1 < 2 ^ 64 →
  let v' := assign_node node v in
  vim_ok v' ∧ current_index v' ≤ current_index v + 1 ∧ var_indexes v ⊆ var_indexes v' ∧
  (∀ x, x ∈ node_vars node → is_Some (var_indexes v' !! x)) ∧
  (∀ y j, var_indexes v' !! y = Some j → y ∈ node_vars node ∨ var_indexes v !! y = Some j).
Proof.
  intros Hv Hb. unfold assign_node, node_vars. destruct (is_concrete node); cbv zeta.
  { split_and!; [done|lia|done|set_solver|auto]. }
  pose proof (assign_spec (var_name node) v Hv Hb) as Ha.
  destruct (assign_index_if_not_found _ _) as [i v']. destruct Ha as (H1 & H2 & H3 & H4 & H5).
  split_and!; [done|done|done| |].
  - intros x ->%list_elem_of_singleton. eauto.
  - intros y j [->|]%H5; [left; by left|by right].
Qed.

Section headers.
Context `{Clk : Clock, Lib : K2Lib, Fet : K2TreeFetcher F}.

(** What [find_headers] keeps: the columns are the indexes of the variables
    met. *)
Record headers_ok (p : BGPProcessor (F:=F)) (names : list (list Z)) : Prop := {
  ho_vim : vim_ok (vim p);
  ho_names x : is_Some (var_indexes (vim p) !! x) ↔ x ∈ names;
  ho_values i : i ∈ header_values p ↔ ∃ x, var_indexes (vim p) !! x = Some i
}.

Lemma add_node_known node (p : BGPProcessor (F:=F)) : vim_ok (vim p) →
  (∀ x, x ∈ node_vars node → is_Some (var_indexes (vim p) !! x)) →
  ∃ hv, add_node node p = mkProcessor (bgp_message p) (cm p) (vim p) hv (header_vec p)
          (join_incidence p) (header_reverse_map p) (p_time_control p) ∧
    ∀ i, i ∈ hv ↔ i ∈ header_values p ∨ ∃ x, x ∈ node_vars node ∧ var_indexes (vim p) !! x = Some i.
Proof.
  intros Hv Hk. unfold add_node, add_variable, node_vars in *. destruct (is_concrete node).
  { exists (header_values p). destruct p; simpl. split; [done|]. set_solver. }
  destruct (Hk (var_name node)) as [i Hi]; [by left|]. rewrite (assign_known _ _ _ Hi).
  eexists. split; [done|]. intros j. rewrite decide_True.
  2: { apply (vim_range _ Hv) in Hi. lia. }
  rewrite elem_of_union, elem_of_singleton. split.
  - intros [->|]; [|by left]. right. exists (var_name node). split; [by left|done].
  - intros [|(x & ->%list_elem_of_singleton & E)]; [by right|left; congruence].
Qed.

Lemma find_headers_step_spec (p : BGPProcessor (F:=F)) t names :
  headers_ok p names → current_index (vim p) + 2 < 2 ^ 64 →
  let p' := find_headers_step p t in
  headers_ok p' (names ++ triple_vars t) ∧
  current_index (vim p') ≤ current_index (vim p) + 2 ∧
  bgp_message p' = bgp_message p ∧ cm p' = cm p ∧ p_time_control p' = p_time_control p.
Proof.
  intros [Hv Hn Hh] Hb. unfold find_headers_step. cbv zeta.
  destruct (assign_node_spec (b_subject t) (vim p) Hv) as (V1 & C1 & S1 & K1 & N1); [lia|].
  set (v1 := assign_node (b_subject t) (vim p)) in *.
  destruct (assign_node_spec (b_object t) v1 V1) as (V2 & C2 & S2 & K2 & N2); [lia|].
  set (v2 := assign_node (b_object t) v1) in *.
  assert (K1' : ∀ x, x ∈ node_vars (b_subject t) → is_Some (var_indexes v2 !! x)).
  { intros x [i Hi]%K1. exists i. by eapply lookup_weaken. }
  destruct (add_node_known (b_subject t) (set_vim p v2)) as (h1 & -> & H1); [done|done|].
  set (p1 := mkProcessor _ _ _ h1 _ _ _ _).
  destruct (add_node_known (b_object t) p1) as (h2 & -> & H2); [done|done|].
  simpl in *. split; [|split_and!; [lia|done..]]. split; simpl; [done|..].
  - intros x. unfold triple_vars. rewrite !elem_of_app, <-Hn. split.
    + intros [i [?|[?|?]%N1]%N2]; eauto.
    + intros [[i Hi]|[?|?]]; [|auto|auto]. exists i.
      eapply lookup_weaken; [|exact S2]. by eapply lookup_weaken.
  - intros i. rewrite H2. simpl. rewrite H1, Hh. split.
    + intros [[(x & Hx)|(x & _ & Hx)]|(x & _ & Hx)]; exists x; [|done..].
      eapply lookup_weaken; [|exact S2]. by eapply lookup_weaken.
    + intros (x & Hx). destruct (N2 _ _ Hx) as [Ho|Hx1]; [right; eauto|left].
      destruct (N1 _ _ Hx1) as [Hs|Hx2]; [right; eauto|left; eauto].
Qed.

Lemma find_headers_loop ts (p : BGPProcessor (F:=F)) names :
  headers_ok p names → current_index (vim p) + 2 * Z.of_nat (length ts) < 2 ^ 64 →
  let p' := fold_left find_headers_step ts p in
  headers_ok p' (names ++ message_vars ts) ∧
  bgp_message p' = bgp_message p ∧ cm p' = cm p ∧ p_time_control p' = p_time_control p.
Proof.
  revert p names. induction ts as [|t ts IH]; intros p names Hp Hb; simpl fold_left.
  { rewrite app_nil_r. done. }
  destruct (find_headers_step_spec p t names Hp) as (H1 & H2 & H3 & H4 & H5);
    [simpl in Hb; lia|].
  destruct (IH _ _ H1) as (I1 & I2 & I3 & I4); [simpl in Hb; lia|].
  unfold message_vars in *. rewrite bind_cons, (assoc_L (++)). split_and!; [done|congruence..].
Qed.
End headers.

(** ** The columns of the variables *)

Lemma rev_map_lookup l : ∀ a (m : gmap Z Z), NoDup l → ∀ i c,
  fold_left (λ m x, <[x.2 := Z.of_nat x.1]> m) (zip (seq a (length l)) l) m !! i = Some c ↔
  (∃ k, l !! k = Some i ∧ c = Z.of_nat (a + k)) ∨ (i ∉ l ∧ m !! i = Some c).
Proof.
  induction l as [|x l IH]; intros a m Hn i c; simpl.
  { split; [intros; right; split; [set_solver|done]|]. by intros [(k & ? & _)|[_ ?]]. }
  apply NoDup_cons in Hn as [Hx Hn]. rewrite IH by done. simpl. split.
  - intros [(k & Hk & ->)|[Hi Hl]].
    + left. exists (S k). split; [done|]. f_equal. lia.
    + rewrite lookup_insert in Hl. case_decide as E.
      * left. exists 0%nat. simpl. split; [by subst|]. injection Hl as <-. f_equal. lia.
      * right. split; [set_solver|done].
  - intros [([|k] & Hk & ->)|[Hi Hl]]; simpl in *.
    + injection Hk as ->. right. split; [done|]. rewrite lookup_insert_eq. do 2 f_equal. lia.
    + left. exists k. split; [done|]. f_equal. lia.
    + right. apply not_elem_of_cons in Hi as [? Hi]. split; [done|].
      by rewrite lookup_insert_ne.
Qed.

Lemma build_rev_map_lookup hv i c : NoDup hv →
  build_rev_map hv !! i = Some c ↔ ∃ k, hv !! k = Some i ∧ c = Z.of_nat k.
Proof.
  intros Hn. unfold build_rev_map. rewrite rev_map_lookup by done. rewrite lookup_empty.
  split; [by intros [?|[_ ?]]|by left].
Qed.

(** Every variable has its own column among [n], and every column a variable. *)
Record planned (vi : gmap (list Z) Z) (rm : gmap Z Z) (n : nat) (names : list (list Z)) : Prop := {
  pl_col x : x ∈ names → ∃ i c, vi !! x = Some i ∧ rm !! i = Some c ∧ is_pos n c;
  pl_inj x y i j c : vi !! x = Some i → vi !! y = Some j →
    rm !! i = Some c → rm !! j = Some c → x = y;
  pl_onto k : (k < n)%nat →
    ∃ x i, x ∈ names ∧ vi !! x = Some i ∧ rm !! i = Some (Z.of_nat k)
}.

(** The column of a variable, as the processor computes it. *)
Definition column (vi : gmap (list Z) Z) (rm : gmap Z Z) (x : list Z) : Z :=
  (subscript rm (subscript vi x).1).1.

Lemma subscript_known `{Countable K} (m : gmap K Z) k x :
  m !! k = Some x → subscript m k = (x, m).
Proof. intros E. unfold subscript. by rewrite E. Qed.

Section planning.
Context (vi : gmap (list Z) Z) (rm : gmap Z Z) (n : nat) (names : list (list Z)).
Context (Hpl : planned vi rm n names).

Lemma column_spec x : x ∈ names →
  ∃ i, subscript vi x = (i, vi) ∧ subscript rm i = (column vi rm x, rm) ∧
       is_pos n (column vi rm x) ∧ vi !! x = Some i ∧ rm !! i = Some (column vi rm x).
Proof.
  intros Hx. destruct (pl_col _ _ _ _ Hpl x Hx) as (i & c & Ei & Ec & Hc).
  assert (column vi rm x = c) as ->.
  { unfold column. rewrite (subscript_known _ _ _ Ei). simpl.
    by rewrite (subscript_known _ _ _ Ec). }
  exists i. split_and!; [by apply subscript_known|by apply subscript_known|done..].
Qed.

Lemma column_inj x y : x ∈ names → y ∈ names → column vi rm x = column vi rm y → x = y.
Proof.
  intros Hx Hy E. destruct (column_spec x Hx) as (i & _ & _ & _ & Ei & Eic).
  destruct (column_spec y Hy) as (j & _ & _ & _ & Ej & Ejc).
  eapply (pl_inj _ _ _ _ Hpl); [exact Ei|exact Ej|exact Eic|by rewrite E].
Qed.

Lemma column_onto k : (k < n)%nat → ∃ x, x ∈ names ∧ Z.to_nat (column vi rm x) = k.
Proof.
  intros Hk. destruct (pl_onto _ _ _ _ Hpl k Hk) as (x & i & Hx & Ei & Ec).
  exists x. split; [done|]. unfold column. rewrite (subscript_known _ _ _ Ei). simpl.
  rewrite (subscript_known _ _ _ Ec). simpl. lia.
Qed.
End planning.

Section plan.
Context `{Clk : Clock, Lib : K2Lib, Fet : K2TreeFetcher F}.

(** [find_headers] on a new processor plans the columns of its variables. *)
Lemma find_headers_planned (p : BGPProcessor (F:=F)) :
  vim p = new_VarIndexManager → header_values p = ∅ →
  2 * Z.of_nat (length (patterns (bgp_message p))) + 1 < 2 ^ 64 →
  let p' := find_headers p in
  planned (var_indexes (vim p')) (header_reverse_map p') (length (header_vec p'))
    (message_vars (patterns (bgp_message p))) ∧
  join_incidence p' = replicate (length (header_vec p')) 0 ∧
  bgp_message p' = bgp_message p ∧ cm p' = cm p ∧ p_time_control p' = p_time_control p.
Proof.
  intros Hv Hh Hb. unfold find_headers.
  destruct (find_headers_loop (patterns (bgp_message p)) p []) as ([H1 H2 H3] & H4 & H5 & H6).
  { split; [rewrite Hv; apply new_vim_ok|..].
    - intros x. rewrite Hv. simpl. rewrite lookup_empty. split; [by intros []|set_solver].
    - intros i. rewrite Hv, Hh. simpl. setoid_rewrite lookup_empty. set_solver. }
  { rewrite Hv. simpl. lia. }
  set (p1 := fold_left _ _ _) in *. cbv zeta. simpl. split_and!; [|done..].
  set (hv := ascending (header_values p1)).
  assert (Hperm : hv ≡ₚ elements (header_values p1)) by apply merge_sort_Permutation.
  assert (Hnd : NoDup hv) by (rewrite Hperm; apply NoDup_elements).
  assert (Hin : ∀ i, i ∈ hv ↔ ∃ x, var_indexes (vim p1) !! x = Some i).
  { intros i. by rewrite Hperm, elem_of_elements, H3. }
  split.
  - intros x Hx%H2. destruct Hx as [i Hi].
    assert (i ∈ hv) as [k Hk]%list_elem_of_lookup by (apply Hin; eauto).
    exists i, (Z.of_nat k). split; [done|]. split.
    + apply build_rev_map_lookup; [done|]. eauto.
    + split; [lia|]. rewrite Nat2Z.id. by eapply lookup_lt_Some.
  - intros x y i j c Ei Ej Hc1 Hc2.
    apply build_rev_map_lookup in Hc1 as (k1 & K1 & ->); [|done].
    apply build_rev_map_lookup in Hc2 as (k2 & K2 & E%Nat2Z.inj); [|done]. subst k2.
    rewrite K1 in K2. injection K2 as <-. by eapply vim_inj.
  - intros k Hk. destruct (lookup_lt_is_Some_2 hv k Hk) as [i Hi].
    assert (i ∈ hv) as [x Hx]%Hin by by eapply list_elem_of_lookup_2.
    exists x, i. split; [apply H2; eauto|]. split; [done|].
    apply build_rev_map_lookup; [done|]. eauto.
Qed.
End plan.

(** ** The operators planned *)

Section operators.
Context `{Clk : Clock, Lib : K2Lib, !K2LibLaws}.
Context (vi : gmap (list Z) Z) (rm : gmap Z Z) (n : nat) (names : list (list Z)).
Context (Hpl : planned vi rm n names) (d : Z).

Definition node_term (node : BGPNode) : term :=
  if is_concrete node then Const (cache_node_id node)
  else Var (Z.to_nat (column vi rm (var_name node))).
Definition pattern_for (t : BGPTriple) (tree : K2TreeMixed) : pattern :=
  mkPattern tree (node_term (b_subject t)) (node_term (b_object t)).

(** Constants are coordinates of the trees, and a pattern names two different
    variables. *)
Definition node_in_range (node : BGPNode) : Prop :=
  is_concrete node = true → coord d (cache_node_id node).
Definition triple_supported (t : BGPTriple) : Prop :=
  node_in_range (b_subject t) ∧ node_in_range (b_object t) ∧
  (is_concrete (b_subject t) = false → is_concrete (b_object t) = false →
   var_name (b_subject t) ≠ var_name (b_object t)).

(** The counters say which columns are bound. *)
Definition counts (ji : list Z) (B : gset nat) : Prop :=
  length ji = n ∧ ∀ k c, ji !! k = Some c → 0 ≤ c ∧ (c > 0 ↔ k ∈ B).

Lemma count_incidence_spec ji B pos : counts ji B → is_pos n pos →
  ∃ c ji', cell ji pos = Ret c ∧ count_incidence ji pos = Ret ji' ∧ 0 ≤ c ∧
    (c > 0 ↔ Z.to_nat pos ∈ B) ∧ counts ji' ({[ Z.to_nat pos ]} ∪ B).
Proof.
  intros [Hl Hc] [Hp Hpn]. destruct (lookup_lt_is_Some_2 ji (Z.to_nat pos)) as [c Hk]; [lia|].
  destruct (Hc _ _ Hk) as [Hc0 Hcb]. exists c. unfold count_incidence.
  rewrite (cell_in _ _ _ Hp Hk). simpl. rewrite set_cell_in by lia.
  eexists. split_and!; [done|done|done|done|]. split; [by rewrite length_insert|].
  intros k x. rewrite list_lookup_insert_Some. intros [(<- & <- & _)|[Hne Hx]].
  - split; [lia|]. set_solver by lia.
  - destruct (Hc _ _ Hx) as [? Hb]. split; [done|]. rewrite Hb. set_solver.
Qed.

Lemma counts_same ji B B' : counts ji B → B ≡ B' → counts ji B'.
Proof.
  intros [Hl Hc] HB. split; [done|]. intros k c Hk. destruct (Hc k c Hk) as [? E].
  split; [done|]. by rewrite E, HB.
Qed.

(** The operator fits a chain in which [B] is bound, and binds [cols]. *)
Definition fits (op : BGPOp) (p : pattern) (ji : list Z) (B cols : gset nat) : Prop :=
  ∃ reads writes den, operator_sem n (coord d) op p reads writes den ∧
    reads ⊆ B ∧ list_to_set writes ## B ∧ counts ji (list_to_set writes ∪ B) ∧
    cols ⊆ list_to_set writes ∪ B.

Lemma fits_cols op p ji B cols cols' : cols' ⊆ cols → fits op p ji B cols → fits op p ji B cols'.
Proof.
  intros Hs (reads & writes & den & H1 & H2 & H3 & H4 & H5).
  exists reads, writes, den. split_and!; [done..|set_solver].
Qed.

Lemma one_var_fits tree wv c pos ji B :
  tm_ok tree → tree_depth tree = d → coord d c → is_pos n pos → counts ji B →
  ∃ k ji', cell ji pos = Ret k ∧ count_incidence ji pos = Ret ji' ∧
    fits (if decide (k > 0)
          then OneVarIntersectBGPOp wv (create_band_scanner c (band_of wv) tree) pos
          else OneVarCPBGPOp wv (create_band_scanner c (band_of wv) tree) pos)
      (one_var_pattern tree wv pos c) ji' B {[ Z.to_nat pos ]}.
Proof.
  intros Hok Hd Hc Hpos Hji.
  destruct (count_incidence_spec ji B _ Hji Hpos) as (k & ji' & -> & -> & _ & Hkb & Hji').
  exists k, ji'. split; [done|]. split; [done|]. case_decide as Hk.
  - apply Hkb in Hk. eexists _, [], _.
    split; [by apply (one_var_intersect_sem n d tree Hok Hd wv)|].
    split; [destruct wv; unfold pattern_vars; simpl; set_solver|]. split; [set_solver|].
    split; [eapply counts_same; [exact Hji'|set_solver]|set_solver].
  - rewrite Hkb in Hk. eexists _, _, _.
    split; [by apply (one_var_cp_sem n d tree Hok Hd wv)|].
    split; [set_solver|]. split; [set_solver|].
    split; [eapply counts_same; [exact Hji'|set_solver]|set_solver].
Qed.

Lemma two_var_fits tree sp op ji B :
  tm_ok tree → tree_depth tree = d → is_pos n sp → is_pos n op → sp ≠ op → counts ji B →
  ∃ ks ko ji1 ji', cell ji sp = Ret ks ∧ cell ji op = Ret ko ∧
    count_incidence ji sp = Ret ji1 ∧ count_incidence ji1 op = Ret ji' ∧
    fits (if decide (ks > 0 ∧ ko > 0)
          then TwoVarIntersectionBGPOp (create_full_scanner tree) sp op
          else if decide (ks > 0)
          then TwoVarJoinOneBGPOp SUBJECT_VAR (create_full_scanner tree) sp op None 0
          else if decide (ko > 0)
          then TwoVarJoinOneBGPOp OBJECT_VAR (create_full_scanner tree) sp op None 0
          else TwoVarCProductBGPOp (create_full_scanner tree) sp op)
      (two_var_pattern tree sp op) ji' B {[ Z.to_nat sp; Z.to_nat op ]}.
Proof.
  intros Hok Hd Hs Ho Hne Hji.
  destruct (count_incidence_spec ji B _ Hji Hs) as (ks & ji1 & Ecs & -> & _ & Hks & Hji1).
  destruct (count_incidence_spec ji B _ Hji Ho) as (ko & ? & Eco & _ & _ & Hko & _).
  destruct (count_incidence_spec ji1 _ _ Hji1 Ho) as (? & ji' & _ & Ej & _ & _ & Hji').
  exists ks, ko, ji1, ji'. do 3 (split; [done|]). split; [done|].
  assert (Z.to_nat sp ≠ Z.to_nat op) by (destruct Hs, Ho; lia).
  case_decide as Hboth; [|case_decide as Hks2; [|case_decide as Hko2]].
  - destruct Hboth as [E1%Hks E2%Hko]. eexists _, [], _.
    split; [by apply (two_var_intersection_sem n d tree Hok Hd)|].
    split; [unfold pattern_vars; simpl; set_solver|]. split; [set_solver|].
    split; [eapply counts_same; [exact Hji'|set_solver]|set_solver].
  - assert (Z.to_nat op ∉ B) by (rewrite <-Hko; tauto). apply Hks in Hks2. eexists _, _, _.
    split; [by apply (two_var_join_one_sem n d tree Hok Hd)|].
    split; [simpl; set_solver|]. split; [simpl; set_solver|].
    split; [eapply counts_same; [exact Hji'|simpl; set_solver]|simpl; set_solver].
  - assert (Z.to_nat sp ∉ B) by (rewrite <-Hks; tauto). apply Hko in Hko2. eexists _, _, _.
    split; [by apply (two_var_join_one_sem n d tree Hok Hd)|].
    split; [simpl; set_solver|]. split; [simpl; set_solver|].
    split; [eapply counts_same; [exact Hji'|simpl; set_solver]|simpl; set_solver].
  - rewrite Hks in Hks2. rewrite Hko in Hko2. eexists _, _, _.
    split; [by apply (two_var_cproduct_sem n d tree Hok Hd)|].
    split; [set_solver|]. split; [set_solver|].
    split; [eapply counts_same; [exact Hji'|set_solver]|set_solver].
Qed.

(** The columns of the variables of a pattern. *)
Definition triple_columns (t : BGPTriple) : gset nat :=
  list_to_set ((λ x, Z.to_nat (column vi rm x)) <$> triple_vars t).

Lemma create_op_sem t tree ji B :
  tm_ok tree → tree_depth tree = d → triple_supported t →
  (∀ x, x ∈ triple_vars t → x ∈ names) → counts ji B →
  ∃ op ji', create_bgp_op (scanner_for t tree) t vi ji rm = Ret (op, vi, ji', rm) ∧
    fits op (pattern_for t tree) ji' B (triple_columns t).
Proof.
  intros Hok Hd (Hs & Ho & Hne) Hnames Hji.
  unfold create_bgp_op, scanner_for, pattern_for, triple_columns, triple_vars, node_vars,
    node_term, node_in_range in *.
  destruct (is_concrete (b_subject t)) eqn:Es, (is_concrete (b_object t)) eqn:Eo;
    simpl negb; cbn [andb].
  - eexists _, ji. split; [done|]. eexists _, [], _.
    split; [by apply triple_existence_sem; auto|].
    split; [set_solver|]. split; [set_solver|].
    split; [eapply counts_same; [exact Hji|set_solver]|set_solver].
  - destruct (column_spec vi rm n names Hpl (var_name (b_object t)))
      as (i & -> & -> & Hpos & _); [apply Hnames; set_solver|].
    destruct (one_var_fits tree OBJECT_VAR (cache_node_id (b_subject t)) _ ji B Hok Hd
      (Hs eq_refl) Hpos Hji) as (k & ji' & -> & -> & Hfit).
    eexists _, ji'. split; [done|]. eapply fits_cols; [|exact Hfit]. simpl. set_solver.
  - destruct (column_spec vi rm n names Hpl (var_name (b_subject t)))
      as (i & -> & -> & Hpos & _); [apply Hnames; set_solver|].
    destruct (one_var_fits tree SUBJECT_VAR (cache_node_id (b_object t)) _ ji B Hok Hd
      (Ho eq_refl) Hpos Hji) as (k & ji' & -> & -> & Hfit).
    eexists _, ji'. split; [done|]. eapply fits_cols; [|exact Hfit]. simpl. set_solver.
  - destruct (column_spec vi rm n names Hpl (var_name (b_subject t)))
      as (i & -> & Ei & Hps & _); [apply Hnames; set_solver|].
    destruct (column_spec vi rm n names Hpl (var_name (b_object t)))
      as (j & -> & Ej & Hpo & _); [apply Hnames; set_solver|].
    rewrite Ei, Ej.
    destruct (two_var_fits tree _ _ ji B Hok Hd Hps Hpo) as (ks & ko & ji1 & ji' & -> & -> & E1 & E2 & Hfit);
      [|done|].
    { intros E. apply (Hne eq_refl eq_refl).
      eapply (column_inj vi rm n names Hpl); [apply Hnames; set_solver..|exact E]. }
    cbn [mbind outcome_bind]. rewrite E1. cbn [mbind outcome_bind]. rewrite E2.
    eexists _, ji'. split; [done|]. eapply fits_cols; [|exact Hfit]. simpl. set_solver.
Qed.
End operators.

(** ** The plan as a whole *)

Section whole.
Context `{Clk : Clock, Lib : K2Lib, !K2LibLaws} {F : Type} `{!K2TreeFetcher F, !K2TreeFetcherLaws F}.
Notation proc := (BGPProcessor (F:=F)).

Definition predicate_of (t : BGPTriple) : Z := cache_node_id (b_predicate t).

Lemma all_have_trees_spec ts f : fetcher_ok f →
  ∃ b f', all_have_trees ts f = Ret (b, f') ∧ fetcher_ok f' ∧
    (∀ q, points_of f' q = points_of f q) ∧ fetcher_qw f' = fetcher_qw f ∧
    (b = true ↔ ∀ t, t ∈ ts → predicate_of t ≠ 0 ∧ is_Some (points_of f (predicate_of t))).
Proof.
  revert f. induction ts as [|t ts IH]; intros f Hf; cbn [all_have_trees].
  { exists true, f. split_and!; try done. split; [set_solver|done]. }
  fold (predicate_of t). case_decide as H0.
  { exists false, f. split_and!; try done. split; [done|].
    intros Hall. destruct (Hall t) as [? _]; [by left|done]. }
  destruct (fetch_law f (predicate_of t) Hf) as (r & f1 & -> & Hf1 & Hp1 & Hq1 & Hr).
  cbn [mbind outcome_bind]. unfold exists_tree.
  destruct (points_of f (predicate_of t)) as [P|] eqn:EP.
  - destruct Hr as [-> _]. destruct (IH f1 Hf1) as (b & f2 & -> & Hf2 & Hp2 & Hq2 & Hb).
    exists b, f2. split_and!; [done|done|intros; by rewrite Hp2|congruence|].
    rewrite Hb. setoid_rewrite Hp1. split.
    + intros Hall t' [->|?]%elem_of_cons; [rewrite EP; split; [done|eauto]|auto].
    + intros Hall t' ?. apply Hall. by right.
  - rewrite (proj1 Hr). exists false, f1. split_and!; try done. split; [done|].
    intros Hall. destruct (Hall t) as [_ [? ?]]; [by left|congruence].
Qed.

(** The tree fetched for a pattern. *)
Definition tree_for (f : F) (t : BGPTriple) (tree : K2TreeMixed) : Prop :=
  tm_ok tree ∧ points_of f (predicate_of t) = Some (pts tree) ∧ create_k2qw tree = fetcher_qw f.

Lemma assign_node_known node v :
  (∀ x, x ∈ node_vars node → is_Some (var_indexes v !! x)) → assign_node node v = v.
Proof.
  unfold assign_node, node_vars. destruct (is_concrete node); [done|].
  intros Hk. destruct (Hk (var_name node)) as [i Hi]; [by left|].
  by rewrite (assign_known _ _ _ Hi).
Qed.

Lemma build_scanners_spec ts (p : proc) :
  fetcher_ok (cm p) → (∀ t, t ∈ ts → is_Some (points_of (cm p) (predicate_of t))) →
  (∀ x, x ∈ message_vars ts → is_Some (var_indexes (vim p) !! x)) →
  ∃ trees f', build_scanners ts p = Ret (zip_with scanner_for ts trees, set_cm p f') ∧
    Forall2 (tree_for (cm p)) ts trees ∧ fetcher_ok f' ∧ (∀ q, points_of f' q = points_of (cm p) q) ∧
    fetcher_qw f' = fetcher_qw (cm p).
Proof.
  revert p. induction ts as [|t ts IH]; intros p Hf Hpred Hvars; cbn [build_scanners].
  { exists [], (cm p). split; [by destruct p|]. by split_and!. }
  unfold build_scanner. fold (predicate_of t).
  destruct (fetch_law (cm p) (predicate_of t) Hf) as (r & f1 & -> & Hf1 & Hp1 & Hq1 & Hr).
  destruct (Hpred t) as [P HP]; [by left|]. rewrite HP in Hr.
  destruct Hr as (_ & tree & Htree & Hok & Hpts & Hqw). cbn [mbind outcome_bind].
  unfold fetch_get. rewrite Htree. cbn [mbind outcome_bind deref].
  unfold message_vars in Hvars. rewrite bind_cons in Hvars.
  assert (Ev : assign_node (b_object t) (assign_node (b_subject t) (vim p)) = vim p).
  { rewrite (assign_node_known (b_subject t)), assign_node_known; [done|..];
      intros x Hx; apply Hvars; unfold triple_vars; set_solver. }
  rewrite Ev. set (p1 := set_vim (set_cm p f1) (vim p)).
  destruct (IH p1) as (trees & f' & -> & Htrees & Hf' & Hp' & Hq'); [done| | |].
  { intros t' Ht'. simpl. rewrite Hp1. apply Hpred. by right. }
  { intros x Hx. apply Hvars. set_solver. }
  exists (tree :: trees), f'. split; [done|].
  split; [|split_and!; [done|intros q; rewrite Hp'; simpl; by rewrite Hp1|simpl in Hq'; congruence]]. constructor.
  - split; [done|]. split; [by rewrite Hpts|done].
  - eapply Forall2_impl; [exact Htrees|]. intros t' tree' (? & Hpt & Hq). unfold tree_for.
    simpl in Hpt, Hq. rewrite Hp1 in Hpt. split_and!; [done|done|congruence].
Qed.

(** The parts of a processor that planning the operators leaves alone. *)
Definition same_plan (p p' : proc) : Prop :=
  bgp_message p' = bgp_message p ∧ vim p' = vim p ∧ header_vec p' = header_vec p ∧
  header_reverse_map p' = header_reverse_map p ∧ p_time_control p' = p_time_control p ∧
  cm p' = cm p.

Lemma build_bgp_ops_spec n d names ts trees f (p : proc) B :
  planned (var_indexes (vim p)) (header_reverse_map p) n names →
  Forall2 (tree_for f) ts trees → d = st_tree_depth (fetcher_qw f) →
  Forall (triple_supported d) ts → (∀ x, x ∈ message_vars ts → x ∈ names) →
  counts n (join_incidence p) B →
  (∀ k, (k < n)%nat → k ∈ B ∨ ∃ x, x ∈ message_vars ts ∧
    k = Z.to_nat (column (var_indexes (vim p)) (header_reverse_map p) x)) →
  ∃ ops p' dens, build_bgp_ops (zip_with scanner_for ts trees) ts p = Ret (ops, p') ∧
    same_plan p p' ∧ length ops = length ts ∧
    chain n (coord d) B ops
      (zip_with (pattern_for (var_indexes (vim p)) (header_reverse_map p)) ts trees) dens.
Proof.
  intros Hpl Htrees Hd. revert p B Hpl.
  induction Htrees as [|t tree ts trees (Hok & _ & Hq) Htrees IH];
    intros p B Hpl Hsup Hnames Hji Hcov; cbn [zip_with build_bgp_ops].
  { exists [], p, []. split_and!; [done|done|done|]. apply chain_nil. intros k Hk.
    destruct (Hcov k Hk) as [?|(x & Hx & _)]; [done|by apply not_elem_of_nil in Hx]. }
  apply Forall_cons in Hsup as [Ht Hsup]. unfold message_vars in *.
  rewrite bind_cons in Hnames, Hcov.
  destruct (create_op_sem _ _ n names Hpl d t tree (join_incidence p) B Hok) as (op & ji' & Eop & Hfit);
    [by rewrite Hd, <-Hq|done|intros; apply Hnames; set_solver|done|].
  destruct Hfit as (reads & writes & den & Hsem & Hsub & Hdis & Hji' & Hcols).
  unfold build_bgp_op. rewrite Eop. cbn [mbind outcome_bind].
  replace (mkVIM (var_indexes (vim p)) (current_index (vim p))) with (vim p) by by destruct (vim p).
  set (p1 := mkProcessor _ _ _ _ _ _ _ _).
  destruct (IH p1 (list_to_set writes ∪ B)) as (ops & p' & dens & -> & Hsame & Hlen & Hchain);
    [done|done|intros; apply Hnames; set_solver|done| |].
  { intros k Hk. destruct (Hcov k Hk) as [?|(x & Hx & ->)]; [left; set_solver|].
    apply elem_of_app in Hx as [Hx|Hx]; [left|right; eauto].
    apply Hcols. unfold triple_columns. rewrite elem_of_list_to_set.
    by apply (list_elem_of_fmap_2 (λ x, Z.to_nat (column _ _ x))). }
  exists (op :: ops), p', (den :: dens). split; [done|]. split; [exact Hsame|].
  split; [simpl; by rewrite Hlen|]. by eapply chain_cons.
Qed.
(** What a row says of a triple pattern, over the points of the predicates. *)
Definition triple_holds (points : Z → option (gset (Z * Z))) (vi : gmap (list Z) Z)
    (rm : gmap Z Z) (r : list Z) (t : BGPTriple) : Prop :=
  ∃ P s o, points (predicate_of t) = Some P ∧ term_value r (node_term vi rm (b_subject t)) = Some s ∧
    term_value r (node_term vi rm (b_object t)) = Some o ∧ (s, o) ∈ P.

Lemma holds_triple f vi rm r ts trees :
  Forall2 (tree_for f) ts trees →
  Forall (λ p, holds p r) (zip_with (pattern_for vi rm) ts trees) ↔
  Forall (triple_holds (points_of f) vi rm r) ts.
Proof.
  induction 1 as [|t tree ts trees (Hok & Hpt & Hq) Htrees IH]; [done|]. cbn [zip_with].
  rewrite !Forall_cons, IH. apply and_iff_compat_r. unfold holds, triple_holds. cbn [p_subject p_object p_tree pattern_for].
  rewrite Hpt. destruct (term_value r (node_term vi rm (b_subject t))) as [s|];
    [|split; [done|naive_solver]].
  destruct (term_value r (node_term vi rm (b_object t))) as [o|]; [|split; [done|naive_solver]].
  split; [|naive_solver]. intros Hp. by exists (pts tree), s, o.
Qed.

Lemma permutation_known n names xs (p : proc) :
  planned (var_indexes (vim p)) (header_reverse_map p) n names → (∀ x, x ∈ xs → x ∈ names) →
  permutation_loop xs p =
    (column (var_indexes (vim p)) (header_reverse_map p) <$> xs, p).
Proof.
  intros Hpl. induction xs as [|x xs IH]; intros Hx; [done|]. cbn [permutation_loop].
  destruct (column_spec _ _ n names Hpl x) as (i & -> & -> & _ & _); [apply Hx; by left|].
  replace (mkProcessor _ _ _ _ _ _ _ _) with p by by destruct p as [? ? [] ? ? ? ? ?].
  rewrite IH by (intros; apply Hx; by right). done.
Qed.

(** The messages the contract covers: their constants are coordinates, their
    patterns have two ends that are not the same variable. *)
Definition supported (f : F) (ts : list BGPTriple) : Prop :=
  Forall (triple_supported (st_tree_depth (fetcher_qw f))) ts ∧
  1 ≤ Z.of_nat (length ts) < 2 ^ 62.

(** The contract of the whole engine. *)
Lemma execute_it_spec get_id m (f : F) tc :
  let p := new_BGPProcessor get_id m f new_VarIndexManager tc in
  let ts := patterns (bgp_message p) in
  fetcher_ok f → live tc → supported f ts →
  (∀ t, t ∈ ts → predicate_of t ≠ 0 ∧ is_Some (points_of f (predicate_of t))) →
  ∃ enough, ∀ fuel, (enough ≤ fuel)%nat →
    ∃ it p' rows, execute_it fuel p = Ret (Some (ItBGP it, p')) ∧
      (∀ fuel', (length rows < fuel')%nat → all_rows fuel' fuel it = Ret (Some rows)) ∧
      NoDup rows ∧
      (∀ r, r ∈ rows ↔
        complete_row (length (header_vec p')) (coord (st_tree_depth (fetcher_qw f))) r ∧
        Forall (triple_holds (points_of f) (var_indexes (vim p')) (header_reverse_map p') r) ts) ∧
      ((∀ x, x ∈ var_names m → x ∈ message_vars ts) →
       get_permutation_vec p' =
         (column (var_indexes (vim p')) (header_reverse_map p') <$> var_names m, p')) ∧
      planned (var_indexes (vim p')) (header_reverse_map p') (length (header_vec p')) (message_vars ts) ∧
      fetcher_ok (cm p') ∧ (∀ q, points_of (cm p') q = points_of f q).
Proof.
  intros p ts Hf Hl [Hsup Hlen] Hpred.
  destruct (find_headers_planned p) as (Hpl & Hji & Hm & Hcm & Htc); [done|done|fold ts; lia|].
  remember (find_headers p) as p1 eqn:Ep1. fold ts in Hpl.
  destruct (all_have_trees_spec ts (cm p1)) as (b & f1 & Eall & Hf1 & Hp1 & Hq1 & Hb);
    [by rewrite Hcm|].
  assert (b = true) as -> by (apply Hb; by rewrite Hcm).
  set (p2 := set_cm p1 f1).
  assert (Hpts : ∀ q, points_of (cm p2) q = points_of f q) by (intros q; simpl; by rewrite Hp1, Hcm).
  assert (Hqw : fetcher_qw (cm p2) = fetcher_qw f) by (simpl; by rewrite Hq1, Hcm).
  destruct (build_scanners_spec ts p2) as (trees & f2 & Escan & Htrees & Hf2 & Hp2 & _); [done| | |].
  { intros t Ht. rewrite Hpts. by apply Hpred. }
  { intros x Hx. destruct (pl_col _ _ _ _ Hpl x Hx) as (i & ? & ? & _). eauto. }
  destruct (build_bgp_ops_spec (length (header_vec p1)) (st_tree_depth (fetcher_qw f))
    (message_vars ts) ts trees (cm p2) (set_cm p2 f2) ∅)
    as (ops & p3 & dens & Eops & (Sm & Sv & Sh & Sr & St & Sc) & Hlo & Hchain);
    [exact Hpl|done|by rewrite Hqw|done|done| | |].
  { change (counts (length (header_vec p1)) (join_incidence p1) ∅). rewrite Hji. split; [apply length_replicate|]. intros k c [-> _]%lookup_replicate.
    split; [lia|]. set_solver by lia. }
  { intros k Hk. right. destruct (column_onto _ _ _ _ Hpl k Hk) as (x & Hx & <-). eauto. }
  simpl in Sm, Sv, Sh, Sr, St, Sc, Hchain.
  exists (2 * cost dens (replicate (length (header_vec p1)) 0%Z) + 3)%nat. intros fuel Hfuel.
  destruct (iterator_spec _ _ ops _ dens (header_vec p3) (p_time_control p3) fuel Hchain)
    as (it & rows & Eit & Hrows & Hnd & Hsol);
    [by rewrite Sh|lia|by rewrite St, Htc|done|].
  exists it, p3, rows. split; [|split; [done|split; [done|split; [|split; [|split; [|split]]]]]].
  - unfold execute_it. rewrite <-Ep1. unfold do_all_predicates_have_trees.
    rewrite Hm. change (patterns (bgp_message p)) with ts. rewrite Eall.
    cbn [mbind outcome_bind negb]. fold p2. change (bgp_message p2) with (bgp_message p1). rewrite Hm.
    change (patterns (bgp_message p)) with ts. rewrite Escan. cbn [mbind outcome_bind].
    change (bgp_message (set_cm p2 f2)) with (bgp_message p1). rewrite Hm.
    change (patterns (bgp_message p)) with ts. rewrite Eops. cbn [mbind outcome_bind]. by rewrite Eit.
  - intros r. rewrite Hsol, Sh, Sv, Sr. apply and_iff_compat_l.
    rewrite (holds_triple (cm p2)) by done.
    apply Forall_iff. intros t. unfold triple_holds. by setoid_rewrite Hpts.
  - intros Hnames. unfold get_permutation_vec. rewrite Sm, Hm. simpl.
    rewrite (permutation_known (length (header_vec p1)) (message_vars ts)); [done| |exact Hnames].
    by rewrite Sv, Sr.
  - rewrite Sv, Sh, Sr. exact Hpl.
  - by rewrite Sc.
  - intros q. rewrite Sc, Hp2. apply Hpts.
Qed.

(** C1: a query whose predicates all exist yields, when its time does not run
    out, each solution of its patterns exactly once and nothing else, one
    column per variable, and the permutation vector names the columns of the
    variables asked for. With enough fuel it always terminates. *)
Theorem execute_it_correct get_id m (f : F) tc :
  let p := new_BGPProcessor get_id m f new_VarIndexManager tc in
  let ts := patterns (bgp_message p) in
  fetcher_ok f → live tc → supported f ts →
  (∀ t, t ∈ ts → predicate_of t ≠ 0 ∧ is_Some (points_of f (predicate_of t))) →
  ∃ enough, ∀ fuel, (enough ≤ fuel)%nat →
    ∃ it p' rows, execute_it fuel p = Ret (Some (ItBGP it, p')) ∧
      (∀ fuel', (length rows < fuel')%nat → all_rows fuel' fuel it = Ret (Some rows)) ∧
      NoDup rows ∧
      (∀ r, r ∈ rows ↔
        complete_row (length (header_vec p')) (coord (st_tree_depth (fetcher_qw f))) r ∧
        Forall (triple_holds (points_of f) (var_indexes (vim p')) (header_reverse_map p') r) ts) ∧
      ((∀ x, x ∈ var_names m → x ∈ message_vars ts) →
       (get_permutation_vec p').1 =
         column (var_indexes (vim p')) (header_reverse_map p') <$> var_names m).
Proof.
  intros p ts Hf Hl Hsup Hpred. destruct (execute_it_spec get_id m f tc Hf Hl Hsup Hpred) as (enough & Hit).
  exists enough. intros fuel Hfuel. destruct (Hit fuel Hfuel) as (it & p' & rows & ? & ? & ? & ? & Hperm & _).
  exists it, p', rows. split_and!; [done..|]. intros Hin. by rewrite Hperm.
Qed.

(** a query with a predicate that has no tree yields no rows, whatever the
    rest of it says. *)
Theorem missing_predicate_empty get_id m (f : F) tc fuel :
  let p := new_BGPProcessor get_id m f new_VarIndexManager tc in
  let ts := patterns (bgp_message p) in
  fetcher_ok f → 2 * Z.of_nat (length ts) + 1 < 2 ^ 64 →
  ¬ (∀ t, t ∈ ts → predicate_of t ≠ 0 ∧ is_Some (points_of f (predicate_of t))) →
  ∃ hs p', execute_it fuel p = Ret (Some (ItEmpty hs, p')).
Proof.
  intros p ts Hf Hlen Hmiss.
  destruct (find_headers_planned p) as (_ & _ & Hm & Hcm & _); [done|done|fold ts; lia|].
  unfold execute_it, do_all_predicates_have_trees. remember (find_headers p) as p1 eqn:Ep1.
  rewrite Hm. fold ts.
  destruct (all_have_trees_spec ts (cm p1)) as ([] & f1 & -> & _ & _ & _ & Hb);
    [by rewrite Hcm| |].
  - destruct Hmiss. rewrite Hcm in Hb. exact (proj1 Hb eq_refl).
  - cbn [mbind outcome_bind negb]. eauto.
Qed.
End whole.

(** ** A pattern that names one variable twice *)
Section self_loop.
Context `{Clk : Clock, Lib : K2Lib}.

(** for a first pattern (?x p ?x) the factory plans a product of two columns
    that are the same one: every point (s, o) of the tree is delivered as a row
    with ?x = o, whether or not s = o. *)
Theorem self_loop_overmatches scanner t x i pos vi ji rm row tc s o scanner' :
  is_concrete (b_subject t) = false → is_concrete (b_object t) = false →
  var_name (b_subject t) = x → var_name (b_object t) = x →
  vi !! x = Some i → rm !! i = Some pos → 0 ≤ pos →
  ji !! Z.to_nat pos = Some 0 → (Z.to_nat pos < length row)%nat → live tc →
  has_next scanner = true → next scanner = Ret ((s, o), scanner') →
  ∃ op ji', create_bgp_op scanner t vi ji rm = Ret (op, vi, ji', rm) ∧
    ∃ r op' row' tc', run op row tc = Ret (r, op', row', tc') ∧ valid_value r = true ∧
      row' !! Z.to_nat (column vi rm x) = Some o.
Proof.
  intros Hs Ho Es Eo Hvi Hrm Hpos Hji Hlen Hl Hn Hx.
  assert (column vi rm x = pos) as ->.
  { unfold column. rewrite (subscript_known _ _ _ Hvi). cbn [fst].
    by rewrite (subscript_known _ _ _ Hrm). }
  unfold create_bgp_op.
  rewrite Hs, Ho. simpl negb. cbn [andb]. rewrite Es, Eo.
  rewrite (subscript_known _ _ _ Hvi), (subscript_known _ _ _ Hvi).
  rewrite (subscript_known _ _ _ Hrm), (subscript_known _ _ _ Hrm).
  rewrite (cell_in _ _ _ Hpos Hji). cbn [mbind outcome_bind].
  assert (Hjl : (Z.to_nat pos < length ji)%nat) by by eapply lookup_lt_Some.
  assert (Hcount : ∀ l c, (Z.to_nat pos < length l)%nat → l !! Z.to_nat pos = Some c →
    count_incidence l pos = Ret (<[Z.to_nat pos := c + 1]> l)).
  { intros l c Hll Hc. unfold count_incidence. rewrite (cell_in _ _ _ Hpos Hc).
    cbn [mbind outcome_bind]. by apply set_cell_in. }
  rewrite (Hcount _ _ Hjl Hji). cbn [mbind outcome_bind].
  erewrite Hcount; [|by rewrite length_insert|by apply list_lookup_insert_eq].
  cbn [mbind outcome_bind]. rewrite !decide_False by lia.
  eexists _, _. split; [done|]. simpl. unfold run_two_var_cproduct. tick_step. rewrite Hn. simpl.
  rewrite Hx. simpl. tick_step. rewrite set_cell_in by done. simpl.
  rewrite set_cell_in by (rewrite ?length_insert; done). simpl.
  eexists _, _, _, _. split; [done|]. split; [done|].
  apply list_lookup_insert_eq. by rewrite length_insert.
Qed.
End self_loop.

(** ** Instances of the theorems *)
Section witnesses.
#[local] Existing Instance Toy.toy_k2_lib.
#[local] Existing Instance frozen_clock.

Definition var_node (x : Z) : BGPNode := mkNode false [x] 0 (u64 (-1)).
Definition id_node (i : Z) : BGPNode := mkNode true [] i (u64 (-1)).

(** (?x 7 5) and (?x 7 ?y), asked for ?y and ?x. *)
Definition toy_message : BGPMessage :=
  mkBGPMessage [[121]; [120]]
    [mkBGPTriple (var_node 120) (id_node 7) (id_node 5);
     mkBGPTriple (var_node 120) (id_node 7) (var_node 121)] true.
Definition toy_store : TreeMap := mkTreeMap {[ 7 := toy_points_tree ]} (mkst 8 1 256).
Definition toy_time : TimeControl := new_TimeControl 1000 60000 0.

Lemma toy_store_ok : fetcher_ok toy_store.
Proof.
  intros p t. simpl. intros [<- <-]%lookup_singleton_Some. apply toy_points_tree_ok.
Qed.
Lemma toy_time_live : live toy_time.
Proof. split; [reflexivity|intros k; vm_compute; discriminate]. Qed.

Lemma execute_it_correct_witness :
  let p := new_BGPProcessor id toy_message toy_store new_VarIndexManager toy_time in
  let ts := patterns (bgp_message p) in
  ∃ enough, ∀ fuel, (enough ≤ fuel)%nat →
    ∃ it p' rows, execute_it fuel p = Ret (Some (ItBGP it, p')) ∧
      (∀ fuel', (length rows < fuel')%nat → all_rows fuel' fuel it = Ret (Some rows)) ∧
      NoDup rows ∧
      (∀ r, r ∈ rows ↔
        complete_row (length (header_vec p')) (coord (st_tree_depth (fetcher_qw toy_store))) r ∧
        Forall (triple_holds (points_of toy_store) (var_indexes (vim p')) (header_reverse_map p') r) ts) ∧
      ((∀ x, x ∈ var_names toy_message → x ∈ message_vars ts) →
       (get_permutation_vec p').1 =
         column (var_indexes (vim p')) (header_reverse_map p') <$> var_names toy_message).
Proof.
  apply execute_it_correct.
  - exact toy_store_ok.
  - exact toy_time_live.
  - split; [|computed]. repeat apply Forall_cons_2; [..|by apply Forall_nil];
      (split; [|split]); try (intros ?; computed); intros ??; computed.
  - intros t [->|[->|[]%not_elem_of_nil]%elem_of_cons]%elem_of_cons;
      (split; [computed|exists (pts toy_points_tree); reflexivity]).
Defined.

Lemma missing_predicate_empty_witness :
  let m := mkBGPMessage [] [mkBGPTriple (var_node 120) (id_node 8) (id_node 5)] true in
  ∃ hs p', execute_it 5 (new_BGPProcessor id m toy_store new_VarIndexManager toy_time) =
    Ret (Some (ItEmpty hs, p')).
Proof.
  apply missing_predicate_empty.
  - exact toy_store_ok.
  - computed.
  - intros Hall. destruct (Hall (fill_triple id
      (mkBGPTriple (var_node 120) (id_node 8) (id_node 5)))) as [_ [P HP]]; [by left|].
    discriminate HP.
Defined.

Lemma self_loop_overmatches_witness :
  ∃ op ji', create_bgp_op (create_full_scanner toy_points_tree)
      (mkBGPTriple (var_node 120) (id_node 7) (var_node 120)) {[ [120] := 1 ]} [0] {[ 1 := 0 ]} =
      Ret (op, {[ [120] := 1 ]}, ji', {[ 1 := 0 ]}) ∧
    ∃ r op' row' tc', run op [0] toy_time = Ret (r, op', row', tc') ∧ valid_value r = true ∧
      row' !! Z.to_nat (column {[ [120] := 1 ]} {[ 1 := 0 ]} [120]) = Some 5.
Proof.
  eapply (self_loop_overmatches (create_full_scanner toy_points_tree) _ [120] 1 0 _ [0] _ [0]
    toy_time 3 5); try reflexivity; [apply Nat.lt_0_1|exact toy_time_live].
Defined.
End witnesses.
