(* ===== verification/UpdatesLog.v ===== *)
(** * core/updating: the log of updates

    Every update is appended to a log file as one or two trees of points; a map
    from predicates to file offsets, kept in a second file, locates them, and a
    third file counts the updates. Recovery reads the trees back and hands them
    to the owner of the data, the [DataMerger]. A file is its bytes, [None]
    when it does not exist. *)
From S2P Require Import Prelude Streams Memory Blocks K2Tree Scanners NodeIds.

Local Open Scope Z_scope.

(** ** K2TreeUpdates.cpp *)

Inductive UPDATE_KIND := INSERT_UPDATE | DELETE_UPDATE | BOTH_UPDATE | NO_UPDATE.
Definition kind_code (k : UPDATE_KIND) : Z :=
  match k with INSERT_UPDATE => 0 | DELETE_UPDATE => 1 | BOTH_UPDATE => 2 | NO_UPDATE => 3 end.

Record K2TreeUpdates := mkUpdates {
  predicate_id : Z; k2tree_add : option K2TreeMixed; k2tree_del : option K2TreeMixed
}.
Definition get_kind (u : K2TreeUpdates) : UPDATE_KIND :=
  match k2tree_del u, k2tree_add u with
  | Some _, Some _ => BOTH_UPDATE
  | None, Some _ => INSERT_UPDATE
  | Some _, None => DELETE_UPDATE
  | None, None => NO_UPDATE
  end.

(** ** DataMerger.hpp, PCMMergerWrapper.cpp *)

Class DataMerger (M : Type) := {
  merge_add_tree : Z → K2TreeMixed → M → outcome M;
  merge_delete_tree : Z → K2TreeMixed → M → outcome M;
  dm_merge_update : list K2TreeUpdates → M → outcome M
}.

(** The wrapper forwards to a reference set after construction. *)
Record PCMMergerWrapper (M : Type) := mkWrapper { ref : option M }.
Arguments mkWrapper {M}. Arguments ref {M}.
Definition set_ref {M} (r : M) (w : PCMMergerWrapper M) : PCMMergerWrapper M := mkWrapper (Some r).
Definition no_ref_check {M} (w : PCMMergerWrapper M) : outcome M :=
  match ref w with None => Throw NoRefException | Some m => Ret m end.
#[export] Instance wrapper_merger `{DataMerger M} : DataMerger (PCMMergerWrapper M) := {|
  merge_add_tree p t w :=
    m ← no_ref_check w; m ← merge_add_tree p t m; Ret (mkWrapper (Some m));
  merge_delete_tree p t w :=
    m ← no_ref_check w; m ← merge_delete_tree p t m; Ret (mkWrapper (Some m));
  dm_merge_update us w :=
    m ← no_ref_check w; m ← dm_merge_update us m; Ret (mkWrapper (Some m))
|}.

(** ** NoUpdate.cpp: the read-only log *)
Definition no_update_recover_predicate (p : Z) : outcome () := Ret ().
Definition no_update_recover_all : outcome () := Ret ().
Definition no_update_has_predicate_stored (p : Z) : bool := false.
Definition no_update_compact_logs : outcome () := Ret ().
Definition no_update_get_predicates : outcome (list Z) := Throw RuntimeError.
Definition no_update_clean_append_log : outcome () := Throw RuntimeError.
Definition no_update_log (us : list K2TreeUpdates) : outcome () := Throw RuntimeError.
Definition no_update_logs_number : outcome Z := Throw RuntimeError.

(** ** UpdatesLoggerImpl.cpp *)

Record PredicateUpdate := mkPredicateUpdate {
  u_predicate : Z; add_update : option K2TreeMixed; del_update : option K2TreeMixed
}.

Notation offsets_map_t := (gmap Z (list Z)).

(** A read-write stream on a file: its contents, the shared position, the fail
    bit, and whether the file still goes by its name. *)
Record rw_stream := mkRW { rw_data : list Z; rw_pos : nat; rw_fail : bool; rw_linked : bool }.
(** Opening for input and output fails when the file does not exist. *)
Definition get_reader_writer (file : option (list Z)) : rw_stream :=
  match file with Some d => mkRW d 0 false true | None => mkRW [] 0 true false end.

(** [tellp], as a number: -1 on a failed stream. *)
Definition rw_tell (s : rw_stream) : Z := if rw_fail s then -1 else Z.of_nat (rw_pos s).
Definition rw_seek (pos : Z) (s : rw_stream) : rw_stream :=
  if rw_fail s then s
  else if decide (pos < 0) then mkRW (rw_data s) (rw_pos s) true (rw_linked s)
  else mkRW (rw_data s) (Z.to_nat pos) false (rw_linked s).
Definition rw_write (w : wr ()) (s : rw_stream) : outcome rw_stream :=
  if rw_fail s then Ret s
  else
    '(_, o) ← w (OStream (rw_data s) (rw_pos s));
    Ret (mkRW (os_data o) (os_pos o) false (rw_linked s)).
Definition rw_read {A} (r : rd A) (s : rw_stream) : outcome (A * rw_stream) :=
  '(a, i) ← r (IStream (rw_data s) (rw_pos s) (rw_fail s));
  Ret (a, mkRW (rw_data s) (is_pos i) (is_fail i) (rw_linked s)).

Record UpdatesLoggerImpl (M : Type) := mkLogger {
  data_merger : M;
  index_logs : option (list Z);
  offsets_file : option (list Z);
  metadata_file : option (list Z);
  current_file_writer : option ostream;
  current_file_reader : option istream;
  metadata_file_rw : rw_stream;
  offsets_map : offsets_map_t;
  total_updates : option Z          (* [None]: never initialised *)
}.
Arguments mkLogger {M}. Arguments data_merger {M}. Arguments index_logs {M}.
Arguments offsets_file {M}. Arguments metadata_file {M}. Arguments current_file_writer {M}.
Arguments current_file_reader {M}. Arguments metadata_file_rw {M}.
Arguments offsets_map {M}. Arguments total_updates {M}.

Section logger.
Context {M : Type} `{!DataMerger M, Blk : BlockLib, Lib : K2Lib}.
Notation logger := (UpdatesLoggerImpl M).

Definition set_merger (l : logger) (m : M) : logger :=
  mkLogger m (index_logs l) (offsets_file l) (metadata_file l) (current_file_writer l)
    (current_file_reader l) (metadata_file_rw l) (offsets_map l) (total_updates l).
Definition set_streams (l : logger) (w : option ostream) (r : option istream) : logger :=
  mkLogger (data_merger l) (index_logs l) (offsets_file l) (metadata_file l) w r
    (metadata_file_rw l) (offsets_map l) (total_updates l).

(** [register_update_offset]. *)
Definition register_update_offset (offsets : offsets_map_t) (predicate_id offset : Z)
    : offsets_map_t :=
  match offsets !! predicate_id with
  | None => <[predicate_id := [offset]]> offsets
  | Some vec => <[predicate_id := vec ++ [offset]]> offsets
  end.

Definition write_tree (t : option K2TreeMixed) : wr () :=
  match t with Some t => write_to_ostream t;; mret () | None => lift UB end.

(** The [switch] on the kind of the update. *)
Definition write_update_trees (update : K2TreeUpdates) : wr () :=
  match get_kind update with
  | INSERT_UPDATE => write_tree (k2tree_add update)
  | DELETE_UPDATE => write_tree (k2tree_del update)
  | BOTH_UPDATE => write_tree (k2tree_add update);; write_tree (k2tree_del update)
  | NO_UPDATE => mret ()
  end.

(** One update in the loop of the static [log]. *)
Definition log_one (offsets : offsets_map_t) (update : K2TreeUpdates) : wr offsets_map_t :=
  match get_kind update with
  | NO_UPDATE => mret offsets
  | update_kind =>
      offset ← tellp;
      write_u64 (predicate_id update);;
      write_u32 (kind_code update_kind);;
      write_update_trees update;;
      mret (register_update_offset offsets (predicate_id update) (Z.of_nat offset))
  end.
Definition log_trees (updates : list K2TreeUpdates) (offsets : offsets_map_t)
    : wr offsets_map_t :=
  write_u32 (Z.of_nat (length updates));;
  loop log_one offsets updates.

(** [dump_offsets_map]: the map in key order. *)
Definition dump_offsets (offsets : offsets_map_t) : wr () :=
  if decide (offsets = ∅) then mret ()
  else
    write_u32 (Z.of_nat (base.size offsets));;
    loop (λ _ kv, write_u64 kv.1;; write_u32 (Z.of_nat (length kv.2));;
                  loop (λ _ o, write_u64 (u64 o)) () kv.2)
      () (entries offsets).

(** Writing the count at the start of the metadata file. *)
Definition commit_total (total : Z) (s : rw_stream) : outcome rw_stream :=
  let last_offset := rw_tell s in
  s ← rw_write (write_u32 (u32 total)) (rw_seek 0 s);
  Ret (if decide (last_offset ≠ 0) then rw_seek last_offset s else s).
Definition commit_total_updates (l : logger) : outcome logger :=
  total ← deref (total_updates l);
  s ← commit_total total (metadata_file_rw l);
  Ret (mkLogger (data_merger l) (index_logs l) (offsets_file l)
         (if rw_linked s then Some (rw_data s) else metadata_file l)
         (current_file_writer l) (current_file_reader l) s (offsets_map l) (total_updates l)).

(** [log]: the writer is opened, truncating the file, unless it is open. *)
Definition log (k2tree_updates : list K2TreeUpdates) (l : logger) : outcome logger :=
  let writer := match current_file_writer l with
                | Some w => w
                | None => OStream (get_writer false (index_logs l)) 0
                end in
  '(offsets, writer) ← log_trees k2tree_updates (offsets_map l) writer;
  '(_, dumped) ← file_of (dump_offsets offsets);
  m ← dm_merge_update k2tree_updates (data_merger l);
  total ← deref (total_updates l);
  total ← int_chk (total + 1);
  commit_total_updates
    (mkLogger m (Some (os_data writer)) (Some dumped) (metadata_file l) (Some writer) None
       (metadata_file_rw l) offsets (Some total)).

(** [recover_single_predicate_update]; an unknown kind matches no case. *)
Definition read_tree : rd (option K2TreeMixed) := t ← read_from_istream; mret (Some t).
Definition recover_single_predicate_update : rd PredicateUpdate :=
  predicate_id ← read_u64;
  update_kind ← read_u32;
  if decide (update_kind = kind_code INSERT_UPDATE) then
    a ← read_tree; mret (mkPredicateUpdate predicate_id a None)
  else if decide (update_kind = kind_code DELETE_UPDATE) then
    d ← read_tree; mret (mkPredicateUpdate predicate_id None d)
  else if decide (update_kind = kind_code BOTH_UPDATE) then
    a ← read_tree; d ← read_tree; mret (mkPredicateUpdate predicate_id a d)
  else mret (mkPredicateUpdate predicate_id None None).

Definition merge_update (u : PredicateUpdate) (m : M) : outcome M :=
  m ← (match add_update u with Some t => merge_add_tree (u_predicate u) t m | None => Ret m end);
  match del_update u with Some t => merge_delete_tree (u_predicate u) t m | None => Ret m end.

(** The writer is flushed and closed before reading. *)
Definition close_writer (l : logger) : logger := set_streams l None (current_file_reader l).
Definition open_reader (l : logger) : istream :=
  match current_file_reader l with Some r => r | None => get_reader (index_logs l) end.

(** The updates of one predicate, through its offsets. *)
Fixpoint recover_offsets (offsets : list Z) (ifs : istream) (m : M) : outcome (istream * M) :=
  match offsets with
  | [] => Ret (ifs, m)
  | offset :: offsets =>
      '(u, ifs) ← recover_single_predicate_update (seekg (Z.to_nat offset) ifs);
      m ← merge_update u m;
      recover_offsets offsets ifs m
  end.

(** [offsets_map[predicate_id]] of an unknown predicate is a null pointer. *)
Definition recover_one (predicate_id : Z) (l : logger) : outcome logger :=
  offsets ← deref (offsets_map l !! predicate_id);
  '(ifs, m) ← recover_offsets offsets (open_reader l) (data_merger l);
  Ret (set_streams (set_merger l m) (current_file_writer l) (Some ifs)).

Definition recover_predicate (predicate_id : Z) (l : logger) : outcome logger :=
  match index_logs l with
  | None => Ret l
  | Some _ => recover_one predicate_id (close_writer l)
  end.

Definition recover_data (predicates : list Z) (l : logger) : outcome logger :=
  match index_logs l with
  | None => Ret l
  | Some _ => foldM (λ l p, recover_one p l)
                (set_streams l (current_file_writer l) (Some (open_reader l))) predicates
  end.
Definition recover (predicates : list Z) (l : logger) : outcome logger :=
  recover_data predicates (close_writer l).

Fixpoint recover_items (n : nat) (ifs : istream) (m : M) : outcome (istream * M) :=
  match n with
  | O => Ret (ifs, m)
  | S n =>
      '(u, ifs) ← recover_single_predicate_update ifs;
      m ← merge_update u m;
      recover_items n ifs m
  end.
Definition recover_single_update (ifs : istream) (m : M) : outcome (istream * M) :=
  '(updates_amount, ifs) ← read_u32 ifs;
  recover_items (Z.to_nat updates_amount) ifs m.
Fixpoint recover_updates (n : nat) (ifs : istream) (m : M) : outcome (istream * M) :=
  match n with
  | O => Ret (ifs, m)
  | S n => '(ifs, m) ← recover_single_update ifs m; recover_updates n ifs m
  end.
Definition recover_all_data (l : logger) : outcome logger :=
  match index_logs l with
  | None => Ret l
  | Some _ =>
      total ← deref (total_updates l);
      '(ifs, m) ← recover_updates (Z.to_nat total) (open_reader l) (data_merger l);
      Ret (set_streams (set_merger l m) (current_file_writer l) (Some ifs))
  end.
Definition recover_all (l : logger) : outcome logger := recover_all_data (close_writer l).

(** [retrieve_offsets_map] and [read_total_updates]; counts are read as [int],
    and reserving a negative number of offsets throws. *)
Definition read_offsets : rd (list Z) :=
  n ← read_u32;
  if decide (s32 n < 0) then lift (Throw StdLengthError)
  else loop (λ v _, o ← read_u64; mret (v ++ [s64 o])) [] (seq 0 (Z.to_nat (s32 n))).
Definition read_offsets_map : rd offsets_map_t :=
  n ← read_u32;
  loop (λ m _, predicate_id ← read_u64; offsets ← read_offsets;
               mret (<[predicate_id := offsets]> m)) ∅ (seq 0 (Z.to_nat (s32 n))).
Definition retrieve_offsets_map (file : option (list Z)) : outcome offsets_map_t :=
  match file with
  | None => Ret ∅
  | Some _ => '(m, _) ← read_offsets_map (get_reader file); Ret m
  end.
Definition read_total_updates (s : rw_stream) : outcome (Z * rw_stream) :=
  let last_offset := rw_tell s in
  '(n, s) ← rw_read read_u32 (rw_seek 0 s);
  Ret (s32 n, if decide (last_offset ≠ 0) then rw_seek last_offset s else s).

Definition new_UpdatesLoggerImpl (m : M) (index_logs offsets_file metadata_file : option (list Z))
    : outcome logger :=
  let rw := get_reader_writer metadata_file in
  offsets ← retrieve_offsets_map offsets_file;
  match metadata_file with
  | None => Ret (mkLogger m index_logs offsets_file metadata_file None None rw offsets None)
  | Some _ =>
      '(total, rw) ← read_total_updates rw;
      Ret (mkLogger m index_logs offsets_file metadata_file None None rw offsets (Some total))
  end.

Definition has_predicate_stored (predicate_id : Z) (l : logger) : bool :=
  bool_decide (is_Some (offsets_map l !! predicate_id)).
Definition get_predicates (l : logger) : list Z := (entries (offsets_map l)).*1.
Definition logs_number (l : logger) : outcome Z := deref (total_updates l).

(** Removing the three files; the metadata stream is opened again on a file
    that is not there. *)
Definition clean_append_log (l : logger) : logger :=
  mkLogger (data_merger l) None None None None None (get_reader_writer None) ∅ (Some 0).
End logger.

(** ** Compaction *)

Section compaction.
Context {M : Type} `{!DataMerger M, Blk : BlockLib, Lib : K2Lib}.
Notation logger := (UpdatesLoggerImpl M).

(** The loops of [merge_with], over the points of the other update. *)
Definition bulk_point (f : K2QStateWrapper → Z → Z → K2TreeMixed → K2TreeMixed)
    (t : option (K2TreeMixed * K2QStateWrapper)) (p : Z * Z)
    : option (K2TreeMixed * K2QStateWrapper) :=
  match t with Some (t, stw) => Some (f stw p.1 p.2 t, stw) | None => None end.
Definition merge_points (from : option K2TreeMixed) (fuel : nat)
    (first second : option (K2TreeMixed * K2QStateWrapper))
    : outcome (option (option (K2TreeMixed * K2QStateWrapper) *
                       option (K2TreeMixed * K2QStateWrapper))) :=
  match from with
  | None => Ret (Some (first, second))
  | Some t =>
      while_scan fuel (λ acc p, Ret (bulk_point remove_with acc.1 p, bulk_point insert_with acc.2 p))
        (first, second) (create_full_scanner t)
  end.

Definition with_stw (t : option K2TreeMixed) : option (K2TreeMixed * K2QStateWrapper) :=
  (λ t, (t, create_k2qw t)) <$> t.

(** [fuel] bounds the number of points of each tree of [update]. *)
Definition merge_with (fuel : nat) (self update : PredicateUpdate)
    : outcome (option PredicateUpdate) :=
  if decide (add_update update = None ∧ del_update update = None) then Ret (Some self)
  else
    m ← merge_points (add_update update) fuel (with_stw (del_update self))
          (with_stw (add_update self));
    match m with
    | None => Ret None
    | Some (del, add) =>
        m ← merge_points (del_update update) fuel add del;
        Ret (match m with
             | None => None
             | Some (add, del) => Some (mkPredicateUpdate (u_predicate self) (fst <$> add) (fst <$> del))
             end)
    end.

Fixpoint compact_offsets (fuel : nat) (predicate_id : Z) (offsets : list Z) (ifs : istream)
    (merged : option PredicateUpdate) : outcome (option (option PredicateUpdate * istream)) :=
  match offsets with
  | [] => Ret (Some (merged, ifs))
  | offset :: offsets =>
      '(updates, ifs) ← recover_single_predicate_update (seekg (Z.to_nat offset) ifs);
      if decide (u_predicate updates ≠ predicate_id) then Throw RuntimeError
      else
        m ← match merged with
            | None => Ret (Some updates)
            | Some merged => merge_with fuel merged updates
            end;
        match m with
        | None => Ret None
        | Some merged => compact_offsets fuel predicate_id offsets ifs (Some merged)
        end
  end.

(** The writing of one compacted predicate; an update without offsets is
    default-initialised, and its id is indeterminate. *)
Definition compact_one (fuel : nat) (p : Z) (offsets : list Z) (ifs : istream)
    (new_offsets : offsets_map_t) (w : ostream)
    : outcome (option (istream * offsets_map_t * ostream)) :=
  m ← compact_offsets fuel p offsets ifs None;
  match m with
  | None => Ret None
  | Some (compacted, ifs) =>
      u ← deref compacted;
      '(new_offsets, w) ←
        log_trees [mkUpdates (u_predicate u) (add_update u) (del_update u)] new_offsets w;
      Ret (Some (ifs, new_offsets, w))
  end.
Fixpoint compact_all (fuel : nat) (ps : list (Z * list Z)) (ifs : istream)
    (new_offsets : offsets_map_t) (w : ostream)
    : outcome (option (istream * offsets_map_t * ostream)) :=
  match ps with
  | [] => Ret (Some (ifs, new_offsets, w))
  | (p, offsets) :: ps =>
      m ← compact_one fuel p offsets ifs new_offsets w;
      match m with
      | None => Ret None
      | Some (ifs, new_offsets, w) => compact_all fuel ps ifs new_offsets w
      end
  end.

(** The three files are replaced; the open metadata stream keeps the old file,
    which no longer goes by its name. *)
Definition compact_logs (fuel : nat) (l : logger) : outcome (option logger) :=
  m ← compact_all fuel (entries (offsets_map l)) (get_reader (index_logs l)) ∅ (os_end []);
  match m with
  | None => Ret None
  | Some (_, new_offsets, w) =>
      '(_, dumped) ← file_of (dump_offsets new_offsets);
      let total := s32 (Z.of_nat (base.size new_offsets)) in
      s ← commit_total total (mkRW [] 0 false true);
      let rw := metadata_file_rw l in
      Ret (Some (mkLogger (data_merger l) (Some (os_data w)) (Some dumped) (Some (rw_data s))
        None None (mkRW (rw_data rw) (rw_pos rw) (rw_fail rw) false) new_offsets (Some total)))
  end.
End compaction.

(** ** The records of the log *)

Section records.
Context {M : Type} `{!DataMerger M, Blk : BlockLib, !BlockLibLaws, Lib : K2Lib, !K2LibLaws}.
Notation logger := (UpdatesLoggerImpl M).

(** The tree read back: the same fields, nodes and cells in use. *)
Definition same_tree (t t' : K2TreeMixed) : Prop :=
  points_count t' = points_count t ∧ create_k2qw t' = create_k2qw t ∧
  view (Z.to_nat (cut_depth t)) (root t') = view (Z.to_nat (cut_depth t)) (root t).
Definition same_opt (t t' : option K2TreeMixed) : Prop :=
  match t, t' with
  | Some t, Some t' => same_tree t t'
  | None, None => True
  | _, _ => False
  end.
Definition same_update (u : K2TreeUpdates) (u' : PredicateUpdate) : Prop :=
  u_predicate u' = predicate_id u ∧ same_opt (k2tree_add u) (add_update u') ∧
  same_opt (k2tree_del u) (del_update u').

Definition opt_wf (t : option K2TreeMixed) : Prop :=
  match t with Some t => tm_wf t | None => True end.
Definition update_wf (u : K2TreeUpdates) : Prop :=
  in_u 64 (predicate_id u) ∧ opt_wf (k2tree_add u) ∧ opt_wf (k2tree_del u).

Lemma tree_record t : tm_wf t →
  ∃ bytes t', emits (write_tree (Some t)) bytes () ∧ parses read_tree bytes (Some t') ∧
    same_tree t t'.
Proof.
  intros Hw. destruct (tree_codec create_null t Hw) as (bytes & t' & He & Hp & Hs).
  exists bytes, t'. split_and!; [|by apply parses_bind_ret|done].
  eapply (does_bind_l (H := write_effect)); [exact He|apply does_ret].
Qed.

(** The bytes written for the trees of an update. *)
Lemma trees_record u : update_wf u →
  ∃ bytes u', same_update u u' ∧ emits (write_update_trees u) bytes () ∧
    parses recover_single_predicate_update
      (be_encode 8 (predicate_id u) ++ be_encode 4 (kind_code (get_kind u)) ++ bytes) u'.
Proof.
  intros (Hid & Ha & Hd). destruct u as [id a d]; simpl in *.
  assert (Hread : ∀ k bytes u',
    parses (if decide (kind_code k = kind_code INSERT_UPDATE) then
              a ← read_tree; mret (mkPredicateUpdate id a None)
            else if decide (kind_code k = kind_code DELETE_UPDATE) then
              d ← read_tree; mret (mkPredicateUpdate id None d)
            else if decide (kind_code k = kind_code BOTH_UPDATE) then
              a ← read_tree; d ← read_tree; mret (mkPredicateUpdate id a d)
            else mret (mkPredicateUpdate id None None)) bytes u' →
    parses recover_single_predicate_update (be_encode 8 id ++ be_encode 4 (kind_code k) ++ bytes) u').
  { intros k bytes u' Hp. unfold recover_single_predicate_update.
    eapply parses_bind; [by apply parses_u64|].
    eapply parses_bind; [apply parses_u32; by destruct k|exact Hp]. }
  unfold same_update, write_update_trees, get_kind. simpl.
  destruct a as [a|], d as [d|]; simpl in Ha, Hd.
  - destruct (tree_record a Ha) as (ba & a' & Ea & Pa & Sa).
    destruct (tree_record d Hd) as (bd & d' & Ed & Pd & Sd).
    exists (ba ++ bd), (mkPredicateUpdate id (Some a') (Some d')).
    split_and!; [done..|by eapply emits_bind|]. apply (Hread BOTH_UPDATE). simpl.
    eapply parses_bind; [exact Pa|]. by apply parses_bind_ret.
  - destruct (tree_record a Ha) as (ba & a' & Ea & Pa & Sa).
    exists ba, (mkPredicateUpdate id (Some a') None).
    split_and!; [done..|]. apply (Hread INSERT_UPDATE). simpl.
    by apply (parses_bind_ret read_tree (λ a, mkPredicateUpdate id a None)).
  - destruct (tree_record d Hd) as (bd & d' & Ed & Pd & Sd).
    exists bd, (mkPredicateUpdate id None (Some d')).
    split_and!; [done..|]. apply (Hread DELETE_UPDATE). simpl.
    by apply (parses_bind_ret read_tree (λ d, mkPredicateUpdate id None d)).
  - exists [], (mkPredicateUpdate id None None). split_and!; [done..|apply emits_ret|].
    apply (Hread NO_UPDATE). simpl. apply parses_ret.
Qed.

(** An update is in the file at an offset. *)
Definition stored_at (data : list Z) (offset : Z) (u : K2TreeUpdates) : Prop :=
  ∃ pre bytes post u', data = pre ++ bytes ++ post ∧ offset = Z.of_nat (length pre) ∧
    parses recover_single_predicate_update bytes u' ∧ same_update u u'.

Lemma stored_at_app data more offset u :
  stored_at data offset u → stored_at (data ++ more) offset u.
Proof.
  intros (pre & bytes & post & u' & -> & -> & Hp & Hs).
  exists pre, bytes, (post ++ more), u'. split; [|done]. by rewrite <-!(assoc_L (++)).
Qed.

Definition real_update (u : K2TreeUpdates) : Prop := get_kind u ≠ NO_UPDATE.
#[global] Instance real_update_dec u : Decision (real_update u).
Proof. unfold real_update. destruct (get_kind u); [left|left|left|right]; by congruence || tauto. Defined.

(** The updates of a predicate, and what the offsets say of them. *)
Definition updates_of (p : Z) (us : list K2TreeUpdates) : list K2TreeUpdates :=
  filter (λ u, predicate_id u = p ∧ real_update u) us.
Definition located (data : list Z) (offsets : offsets_map_t) (us : list K2TreeUpdates) : Prop :=
  ∀ p, match offsets !! p with
       | None => updates_of p us = []
       | Some os => updates_of p us ≠ [] ∧ Forall2 (stored_at data) os (updates_of p us)
       end.

Lemma register_lookup offsets p o q :
  register_update_offset offsets p o !! q =
  if decide (p = q) then Some (default [] (offsets !! p) ++ [o]) else offsets !! q.
Proof.
  unfold register_update_offset.
  destruct (offsets !! p); rewrite lookup_insert; by case_decide.
Qed.

Lemma log_one_real offsets u d bytes : real_update u → emits (write_update_trees u) bytes () →
  log_one offsets u (os_end d) =
  Ret (register_update_offset offsets (predicate_id u) (Z.of_nat (length d)),
       os_end (d ++ be_encode 8 (predicate_id u) ++
               be_encode 4 (kind_code (get_kind u)) ++ bytes)).
Proof.
  intros Hreal He.
  transitivity ((write_u64 (predicate_id u);; write_u32 (kind_code (get_kind u));;
    write_update_trees u;;
    mret (register_update_offset offsets (predicate_id u) (Z.of_nat (length d))))
    (os_end d)).
  { unfold log_one. by destruct (get_kind u) eqn:Ek; [..|done]. }
  apply emits_at. rewrite <-(app_nil_r bytes).
  apply (emits_bind _ _ (be_encode 8 (predicate_id u)) _ () _ (emits_u64 _)).
  apply (emits_bind _ _ (be_encode 4 (kind_code (get_kind u))) _ () _ (emits_u32 _)).
  apply (emits_bind _ _ bytes _ () _ He). apply emits_ret.
Qed.

(** The records of a list of updates: those that change nothing have none. *)
Definition record_of (u : K2TreeUpdates) (bytes : list Z) : Prop :=
  ∃ u', same_update u u' ∧ parses recover_single_predicate_update bytes u'.
Definition records_of (us : list K2TreeUpdates) : list (list Z) → Prop :=
  Forall2 record_of (filter real_update us).

Lemma updates_of_app p us us' : updates_of p (us ++ us') = updates_of p us ++ updates_of p us'.
Proof. apply filter_app. Qed.

Lemma filter_real us : Forall real_update us → filter real_update us = us.
Proof. induction 1; [done|]. rewrite filter_cons, decide_True by done. by f_equal. Qed.

Lemma updates_of_one p u :
  updates_of p [u] = if decide (predicate_id u = p ∧ real_update u) then [u] else [].
Proof. done. Qed.

Lemma located_app data more offsets us : located data offsets us → located (data ++ more) offsets us.
Proof.
  intros Hloc p. specialize (Hloc p). destruct (offsets !! p); [|done].
  split; [apply Hloc|]. eapply Forall2_impl; [apply Hloc|]. intros. by apply stored_at_app.
Qed.

Lemma located_register data offsets us u bytes : real_update u → record_of u bytes →
  located data offsets us →
  located (data ++ bytes)
    (register_update_offset offsets (predicate_id u) (Z.of_nat (length data))) (us ++ [u]).
Proof.
  intros Hreal (u' & Hs & Hp) Hloc p. apply (located_app _ bytes) in Hloc. specialize (Hloc p).
  rewrite register_lookup, updates_of_app, updates_of_one.
  case_decide as E; subst.
  - rewrite decide_True by done. split; [by destruct (updates_of _ us)|].
    apply Forall2_app; [destruct (offsets !! predicate_id u)|].
    + apply Hloc.
    + rewrite Hloc. constructor.
    + constructor; [|constructor]. exists data, bytes, [], u'. by rewrite app_nil_r.
  - rewrite decide_False by naive_solver. by rewrite app_nil_r.
Qed.

(** What a run of the writer does to the offsets: none is lost, and offsets that
    located the earlier updates locate the new ones too. *)
Definition relocates (d more : list Z) (us : list K2TreeUpdates)
    (offsets offsets' : offsets_map_t) : Prop :=
  (∀ p, is_Some (offsets !! p) → is_Some (offsets' !! p)) ∧
  ∀ prior, located d offsets prior → located (d ++ more) offsets' (prior ++ us).

Lemma log_one_spec u d offsets : update_wf u →
  ∃ offsets' bs, log_one offsets u (os_end d) = Ret (offsets', os_end (d ++ concat bs)) ∧
    relocates d (concat bs) [u] offsets offsets' ∧ records_of [u] bs.
Proof.
  intros Hw. unfold records_of. rewrite filter_cons, filter_nil.
  destruct (decide (real_update u)) as [Hreal|Hnot].
  - destruct (trees_record u Hw) as (bytes & u' & Hs & He & Hp).
    exists (register_update_offset offsets (predicate_id u) (Z.of_nat (length d))),
      [be_encode 8 (predicate_id u) ++ be_encode 4 (kind_code (get_kind u)) ++ bytes].
    simpl. rewrite app_nil_r. split_and!; [by apply log_one_real|split|].
    + intros p Hsome. rewrite register_lookup. case_decide; [by eexists|done].
    + intros prior Hloc. apply located_register; [done|by exists u'|done].
    + repeat constructor. by exists u'.
  - exists offsets, []. simpl. rewrite app_nil_r. split_and!; [|split; [done|]|constructor].
    + unfold log_one. unfold real_update in Hnot.
      destruct (get_kind u); [by destruct Hnot..|done].
    + intros prior Hloc p. rewrite app_nil_r, updates_of_app, updates_of_one.
      rewrite decide_False, app_nil_r by tauto. apply Hloc.
Qed.

Lemma log_loop_spec us d offsets : Forall update_wf us →
  ∃ offsets' bs, loop log_one offsets us (os_end d) = Ret (offsets', os_end (d ++ concat bs)) ∧
    relocates d (concat bs) us offsets offsets' ∧ records_of us bs.
Proof.
  intros Hwf. revert d offsets.
  induction Hwf as [|u us Hw Hwf IH]; intros d offsets.
  { exists offsets, []. simpl. rewrite app_nil_r. split_and!; [done| |constructor].
    split; [done|]. intros prior. by rewrite !app_nil_r. }
  destruct (log_one_spec u d offsets Hw) as (o1 & b1 & E1 & [M1 L1] & R1).
  destruct (IH (d ++ concat b1) o1) as (o2 & b2 & E2 & [M2 L2] & R2).
  exists o2, (b1 ++ b2). rewrite concat_app. split_and!; [|split; [by eauto|]|].
  - rewrite (assoc_L (++)). simpl. unfold mbind, st_bind. by rewrite E1.
  - intros prior Hloc. rewrite (assoc_L (++)).
    specialize (L2 _ (L1 _ Hloc)). by rewrite <-(assoc_L (++) prior) in L2.
  - unfold records_of. change (u :: us) with ([u] ++ us). rewrite filter_app.
    by apply Forall2_app.
Qed.

(** One call of [log] appends a segment: the count, then the records. *)
Definition segment_of (us : list K2TreeUpdates) (seg : list Z) : Prop :=
  ∃ bs, seg = be_encode 4 (Z.of_nat (length us)) ++ concat bs ∧ records_of us bs.

Lemma log_trees_spec us d offsets : Forall update_wf us →
  ∃ offsets' seg, log_trees us offsets (os_end d) = Ret (offsets', os_end (d ++ seg)) ∧
    relocates d seg us offsets offsets' ∧ segment_of us seg.
Proof.
  intros Hwf.
  destruct (log_loop_spec us (d ++ be_encode 4 (Z.of_nat (length us))) offsets Hwf)
    as (o & bs & E & [Hm L] & R).
  exists o, (be_encode 4 (Z.of_nat (length us)) ++ concat bs).
  split_and!; [|split; [done|]|by exists bs].
  - unfold log_trees, mbind, st_bind. rewrite (emits_at _ _ _ _ (emits_u32 _)).
    by rewrite (assoc_L (++)).
  - intros prior Hloc. rewrite (assoc_L (++)). by apply L, located_app.
Qed.

(** ** Recovery of the records *)

Definition reads (d : list Z) (ifs : istream) : Prop := is_data ifs = d ∧ is_fail ifs = false.
Definition merge_all (us : list PredicateUpdate) (m : M) : outcome M :=
  foldM (λ m u, merge_update u m) m us.

Lemma merge_all_cons u us m m' : merge_all (u :: us) m = Ret m' →
  ∃ m1, merge_update u m = Ret m1 ∧ merge_all us m1 = Ret m'.
Proof. unfold merge_all. simpl. destruct (merge_update u m) as [m1| |]; [|done..]. by exists m1. Qed.

Lemma recover_offsets_spec d os us : Forall2 (stored_at d) os us →
  ∃ us', Forall2 same_update us us' ∧ ∀ ifs m, reads d ifs → ∀ m', merge_all us' m = Ret m' →
    ∃ ifs', recover_offsets os ifs m = Ret (ifs', m') ∧ reads d ifs'.
Proof.
  induction 1 as [|o u os us Ho Hos IH].
  { exists []. split; [constructor|]. intros ifs m Hr m' [= <-]. by exists ifs. }
  destruct Ho as (pre & bytes & post & u' & Ed & -> & Hp & Hs).
  destruct IH as (us' & Hus & IH). exists (u' :: us'). split; [by constructor|].
  intros [dat pos fl] m [Hd Hf] m' Hm. simpl in Hd, Hf. subst dat fl.
  destruct (merge_all_cons _ _ _ _ Hm) as (m1 & Em & Hm1).
  destruct (IH (stream_at (pre ++ bytes) post) m1) with (m' := m')
    as (ifs' & E & Hr); [split; simpl; [by rewrite Ed, (assoc_L (++))|done]|exact Hm1|].
  exists ifs'. split; [|done]. simpl recover_offsets. unfold seekg. simpl is_fail. cbn iota.
  rewrite Nat2Z.id. simpl is_data. rewrite Ed.
  change (IStream (pre ++ bytes ++ post) (length pre) false) with (stream_at pre (bytes ++ post)).
  rewrite (parses_at _ _ _ _ _ Hp). cbn [mbind outcome_bind]. rewrite Em. exact E.
Qed.

Lemma recover_items_spec us bs : Forall2 record_of us bs →
  ∃ us', Forall2 same_update us us' ∧ ∀ pre post m m', merge_all us' m = Ret m' →
    recover_items (length us) (stream_at pre (concat bs ++ post)) m =
    Ret (stream_at (pre ++ concat bs) post, m').
Proof.
  induction 1 as [|u b us bs (u' & Hs & Hp) Hbs IH].
  { exists []. split; [constructor|]. intros pre post m m' [= <-]. simpl. by rewrite app_nil_r. }
  destruct IH as (us' & Hus & IH). exists (u' :: us'). split; [by constructor|].
  intros pre post m m' Hm. destruct (merge_all_cons _ _ _ _ Hm) as (m1 & Em & Hm1). simpl.
  rewrite <-(assoc_L (++)), (parses_at _ _ _ _ _ Hp). cbn [mbind outcome_bind]. rewrite Em.
  cbn [mbind outcome_bind]. by rewrite (IH _ _ _ _ Hm1), <-!(assoc_L (++)).
Qed.

Lemma merge_all_app us us' m : merge_all (us ++ us') m = (m ← merge_all us m; merge_all us' m).
Proof.
  revert m. unfold merge_all. induction us as [|u us IH]; intros m; simpl; [done|].
  destruct (merge_update u m); simpl; [apply IH|done..].
Qed.

(** Reading every segment in turn, when no logged update was empty. *)
Lemma recover_updates_spec uss segs : Forall2 segment_of uss segs →
  Forall (Forall real_update) uss → Forall (λ us, in_u 32 (Z.of_nat (length us))) uss →
  ∃ us', Forall2 same_update (concat uss) us' ∧ ∀ pre m m', merge_all us' m = Ret m' →
    recover_updates (length uss) (stream_at pre (concat segs)) m =
    Ret (stream_at (pre ++ concat segs) [], m').
Proof.
  induction 1 as [|us seg uss segs (bs & -> & Hrec) Hsegs IH]; intros Hreal Hlen.
  { exists []. split; [constructor|]. intros pre m m' [= <-]. simpl. by rewrite app_nil_r. }
  inversion Hreal as [|? ? Hr1 Hr2]; subst. inversion Hlen as [|? ? Hl1 Hl2]; subst.
  unfold records_of in Hrec. rewrite filter_real in Hrec by done.
  destruct (recover_items_spec us bs Hrec) as (us1 & Hs1 & E1).
  destruct (IH Hr2 Hl2) as (us2 & Hs2 & E2). exists (us1 ++ us2).
  split; [by apply Forall2_app|]. intros pre m m' Hm. rewrite merge_all_app in Hm.
  destruct (merge_all us1 m) as [m1| |] eqn:Em; try discriminate Hm.
  change (concat ((be_encode 4 (Z.of_nat (length us)) ++ concat bs) :: segs)) with
    ((be_encode 4 (Z.of_nat (length us)) ++ concat bs) ++ concat segs).
  rewrite <-(assoc_L (++)). simpl. unfold recover_single_update.
  rewrite (parses_at _ _ _ _ _ (parses_u32 _ Hl1)). cbn [mbind outcome_bind].
  rewrite Nat2Z.id, (E1 _ _ _ _ Em). cbn [mbind outcome_bind].
  by rewrite (E2 _ _ _ Hm), <-!(assoc_L (++)).
Qed.
End records.

(** ** The offsets file *)

Definition offsets_ok (m : offsets_map_t) : Prop :=
  Z.of_nat (base.size m) < 2 ^ 31 ∧
  map_Forall (λ p os, in_u 64 p ∧ Z.of_nat (length os) < 2 ^ 31 ∧
                      Forall (λ o, 0 ≤ o < 2 ^ 63) os) m.
Definition entry_bytes (kv : Z * list Z) : list Z :=
  be_encode 8 kv.1 ++ be_encode 4 (Z.of_nat (length kv.2)) ++
  (kv.2 ≫= λ o, be_encode 8 (u64 o)).
Definition offsets_bytes (m : offsets_map_t) : list Z :=
  if decide (m = ∅) then []
  else be_encode 4 (Z.of_nat (base.size m)) ++ (entries m ≫= entry_bytes).

Lemma dump_offsets_emits m : emits (dump_offsets m) (offsets_bytes m) ().
Proof.
  unfold dump_offsets, offsets_bytes. case_decide; [apply emits_ret|].
  eapply emits_bind; [apply emits_u32|]. apply emits_loop_unit. intros [p os] _. simpl.
  eapply emits_bind; [apply emits_u64|]. eapply emits_bind; [apply emits_u32|].
  apply emits_loop_unit. intros. apply emits_u64.
Qed.

Lemma read_offsets_parses os : Z.of_nat (length os) < 2 ^ 31 → Forall (λ o, 0 ≤ o < 2 ^ 63) os →
  parses read_offsets
    (be_encode 4 (Z.of_nat (length os)) ++ (os ≫= λ o, be_encode 8 (u64 o))) os.
Proof.
  intros Hl Hos. unfold read_offsets. eapply parses_bind; [apply parses_u32; unfold in_u; lia|].
  unfold s32. rewrite decide_False by (rewrite to_signed_nonneg; lia).
  rewrite to_signed_count by done.
  eapply parses_eq; [apply (parses_count _ (λ o, be_encode 8 (u64 o)) (λ v o, v ++ [o]))|done|by rewrite fold_left_snoc].
  intros o v Ho. rewrite Forall_forall in Hos. rewrite <-(s64_u64 o) at 2 by by apply Hos.
  apply (parses_bind_ret read_u64 (λ o, v ++ [s64 o])). auto with parses width.
Qed.

Lemma read_offsets_map_parses m : offsets_ok m →
  parses read_offsets_map
    (be_encode 4 (Z.of_nat (base.size m)) ++ (entries m ≫= entry_bytes)) m.
Proof.
  intros [Hl Hm]. unfold read_offsets_map.
  eapply parses_bind; [apply parses_u32; unfold in_u; lia|].
  unfold s32. rewrite to_signed_count by done.
  replace (base.size m) with (length (entries m))
    by (rewrite entries_perm; apply length_map_to_list).
  eapply parses_eq;
    [apply (parses_count _ entry_bytes (λ (m : offsets_map_t) (e : Z * list Z), <[e.1:=e.2]> m))|done|].
  - intros [p os] acc Hin. rewrite elem_of_entries in Hin. destruct (Hm _ _ Hin) as (Hp & Hn & Ho).
    eapply parses_bind; [by apply parses_u64|]. simpl.
    apply (parses_bind_ret read_offsets (λ os, <[p:=os]> acc)). by apply read_offsets_parses.
  - rewrite <-(list_to_map_entries m) at 2. pose proof (NoDup_fst_entries m) as Hnd.
    generalize dependent (entries m). intros l Hnd.
    rewrite <-(map_union_empty (list_to_map l)). generalize (∅ : offsets_map_t).
    induction l as [|[p os] l IH]; intros acc; simpl in *; [by rewrite map_empty_union|].
    apply NoDup_cons in Hnd as [Hp Hnd]. rewrite IH by done.
    rewrite <-insert_union_l, insert_union_r; [done|].
    by apply not_elem_of_list_to_map_1.
Qed.

Lemma retrieve_offsets_bytes m : offsets_ok m →
  retrieve_offsets_map (Some (offsets_bytes m)) = Ret m.
Proof.
  intros Hok. unfold offsets_bytes, retrieve_offsets_map. case_decide as E; [by rewrite E|].
  pose proof (parses_at _ _ _ [] [] (read_offsets_map_parses m Hok)) as Hp.
  rewrite app_nil_r in Hp. unfold get_reader.
  unfold stream_at in Hp. simpl in Hp. rewrite app_nil_r in Hp. by rewrite Hp.
Qed.

Lemma file_of_dump m : file_of (dump_offsets m) = Ret ((), offsets_bytes m).
Proof. apply file_of_emits, dump_offsets_emits. Qed.

(** The offsets file is a faithful copy of the map: whatever the writer has
    put into it, opening it again gives the map back, the empty map (which
    writes nothing) included, as long as the counts and offsets fit the [int]s
    and [long]s they are read into. *)
Theorem offsets_roundtrip m : offsets_ok m →
  ∃ bytes, file_of (dump_offsets m) = Ret ((), bytes) ∧
    retrieve_offsets_map (Some bytes) = Ret m.
Proof.
  intros Hok. exists (offsets_bytes m).
  split; [apply file_of_dump|by apply retrieve_offsets_bytes].
Qed.

(** ** A session of logging, and what the next process recovers *)

Section session.
Context {M : Type} `{!DataMerger M, Blk : BlockLib, !BlockLibLaws, Lib : K2Lib, !K2LibLaws}.
Notation logger := (UpdatesLoggerImpl M).

Definition log_all (uss : list (list K2TreeUpdates)) (l : logger) : outcome logger :=
  foldM (λ l us, log us l) l uss.

(** The metadata stream of a file that holds the count. *)
Definition count_stream (n : nat) : rw_stream := mkRW (be_encode 4 (Z.of_nat n)) 4 false true.

Record session (l : logger) (uss : list (list K2TreeUpdates)) (segs : list (list Z)) : Prop := {
  ss_located : located (concat segs) (offsets_map l) (concat uss);
  ss_segments : Forall2 segment_of uss segs;
  ss_reader : current_file_reader l = None;
  ss_total : total_updates l = Some (Z.of_nat (length uss));
  ss_rw : metadata_file_rw l = count_stream (length uss);
  ss_metadata : metadata_file l = Some (be_encode 4 (Z.of_nat (length uss)));
  ss_open : match uss with
            | [] => current_file_writer l = None ∧ index_logs l = None ∧ offsets_file l = None ∧
                    offsets_map l = ∅
            | _ => current_file_writer l = Some (os_end (concat segs)) ∧
                   index_logs l = Some (concat segs) ∧
                   offsets_file l = Some (offsets_bytes (offsets_map l))
            end
}.

Lemma commit_count (n k : nat) : Z.of_nat k < 2 ^ 31 →
  commit_total (Z.of_nat k) (count_stream n) = Ret (count_stream k).
Proof.
  intros Hk. unfold commit_total, count_stream, rw_tell, rw_seek, rw_write.
  cbn [rw_fail rw_pos rw_data rw_linked]. rewrite (decide_False (P := 0 < 0)) by lia.
  unfold write_u32. rewrite u32_id by (unfold in_u; lia).
  pose proof (os_write_patch [] (be_encode 4 (Z.of_nat n)) (be_encode 4 (Z.of_nat k)) []) as Hw.
  rewrite !app_nil_r in Hw. simpl length in Hw. simpl app in Hw.
  cbn [rw_fail rw_pos rw_data rw_linked].
  change (Z.to_nat 0) with 0%nat. rewrite Hw by by rewrite !length_be_encode.
  rewrite length_be_encode. reflexivity.
Qed.

Lemma writer_of_session l uss segs : session l uss segs →
  match current_file_writer l with
  | Some w => w
  | None => OStream (get_writer false (index_logs l)) 0
  end = os_end (concat segs).
Proof.
  intros [_ Hseg _ _ _ _ Ho]. destruct uss as [|us uss].
  - destruct Ho as (-> & -> & _). by inversion Hseg.
  - by destruct Ho as (-> & _).
Qed.

Lemma log_session l uss segs us m : session l uss segs → Forall update_wf us →
  Z.of_nat (S (length uss)) < 2 ^ 31 → dm_merge_update us (data_merger l) = Ret m →
  ∃ l' seg, log us l = Ret l' ∧ data_merger l' = m ∧ session l' (uss ++ [us]) (segs ++ [seg]).
Proof.
  intros Hs Hwf Hn Hm. destruct (log_trees_spec us (concat segs) (offsets_map l) Hwf)
    as (o & seg & E & [_ Hloc] & Hseg). specialize (Hloc _ (ss_located _ _ _ Hs)).
  unfold log. rewrite (writer_of_session l uss segs Hs), E. cbn [mbind outcome_bind].
  rewrite file_of_dump. cbn [mbind outcome_bind]. rewrite Hm. cbn [mbind outcome_bind].
  rewrite (ss_total _ _ _ Hs). cbn [mbind outcome_bind deref]. unfold int_chk.
  rewrite decide_True by lia. cbn [mbind outcome_bind].
  unfold commit_total_updates. cbn [total_updates metadata_file_rw deref mbind outcome_bind].
  rewrite (ss_rw _ _ _ Hs). replace (Z.of_nat (length uss) + 1) with (Z.of_nat (S (length uss))) by lia.
  rewrite commit_count by done. cbn [mbind outcome_bind]. eexists _, seg.
  split; [reflexivity|]. split; [done|].
  assert (length (uss ++ [us]) = S (length uss)) as El by (rewrite length_app; simpl; lia).
  constructor; simpl; rewrite ?El, ?concat_app; simpl; rewrite ?app_nil_r; try done.
  - apply Forall2_app; [apply Hs|by constructor].
  - by destruct uss.
Qed.

Lemma log_all_session uss l uss0 segs0 m : session l uss0 segs0 →
  Forall (Forall update_wf) uss → Z.of_nat (length (uss0 ++ uss)) < 2 ^ 31 →
  foldM (λ m us, dm_merge_update us m) (data_merger l) uss = Ret m →
  ∃ l' segs, log_all uss l = Ret l' ∧ data_merger l' = m ∧ session l' (uss0 ++ uss) segs.
Proof.
  intros Hs Hwf. revert l uss0 segs0 Hs. induction Hwf as [|us uss Hw Hwf IH]; intros l uss0 segs0 Hs.
  { rewrite app_nil_r. intros _ [= <-]. by exists l, segs0. }
  intros Hn Hm. simpl in Hm. rewrite length_app in Hn. simpl in Hn.
  destruct (dm_merge_update us (data_merger l)) as [m1| |] eqn:E1; try discriminate Hm.
  destruct (log_session l uss0 segs0 us m1 Hs Hw) as (l1 & seg & E & Em & Hs1); [lia|done|].
  destruct (IH l1 (uss0 ++ [us]) (segs0 ++ [seg]) Hs1) as (l' & segs & E2 & Em2 & Hs2).
  { rewrite !length_app. simpl. lia. }
  { by rewrite Em. }
  exists l', segs. rewrite <-(assoc_L (++)) in Hs2. split_and!; [|done..].
  unfold log_all in *. simpl. by rewrite E.
Qed.

(** A log that has never been written: the metadata file holds zero. *)
Lemma new_session m0 :
  ∃ l0, new_UpdatesLoggerImpl m0 None None (Some (be_encode 4 0)) = Ret l0 ∧
        data_merger l0 = m0 ∧ session l0 [] [].
Proof.
  eexists. split; [reflexivity|]. split; [done|]. by constructor.
Qed.

(** The sizes under which the files describe the session. *)
Definition session_fits (uss : list (list K2TreeUpdates)) : Prop :=
  Z.of_nat (length uss) < 2 ^ 31 ∧ Z.of_nat (length (concat uss)) < 2 ^ 31 ∧
  Forall (Forall update_wf) uss.

Lemma located_ok d offsets us : located d offsets us → Forall update_wf us →
  Z.of_nat (length us) < 2 ^ 31 → Z.of_nat (length d) < 2 ^ 63 → offsets_ok offsets.
Proof.
  intros Hloc Hwf Hn Hd.
  assert (Hdom : (entries offsets).*1 ⊆+ (predicate_id <$> us)).
  { apply NoDup_submseteq; [apply NoDup_fst_entries|]. intros p [[q os] [-> Hp]]%list_elem_of_fmap.
    rewrite elem_of_entries in Hp. simpl. rewrite list_elem_of_fmap.
    specialize (Hloc q). rewrite Hp in Hloc. destruct Hloc as [Hne _].
    destruct (updates_of q us) as [|u l] eqn:E; [done|]. exists u.
    assert (u ∈ updates_of q us) as Hu by (rewrite E; by left).
    apply list_elem_of_filter in Hu as [[? _] ?]. done. }
  split.
  - apply submseteq_length in Hdom. rewrite !length_fmap, entries_perm in Hdom.
    rewrite (length_map_to_list offsets : length (map_to_list offsets) = base.size offsets) in Hdom. lia.
  - intros p os Hp. specialize (Hloc p). rewrite Hp in Hloc. destruct Hloc as [Hne Hos].
    split_and!.
    + destruct (updates_of p us) as [|u l] eqn:E; [done|].
      assert (u ∈ updates_of p us) as Hu by (rewrite E; by left).
      apply list_elem_of_filter in Hu as [[<- _] Hu]. rewrite Forall_forall in Hwf. by apply Hwf.
    + rewrite (Forall2_length _ _ _ Hos). unfold updates_of.
      pose proof (length_filter (λ u, predicate_id u = p ∧ real_update u) us). lia.
    + clear Hne Hp. induction Hos as [|o u os' us' Ho Hos IH]; constructor; [|done].
      destruct Ho as (pre & bytes & post & u' & -> & -> & _). rewrite length_app in Hd. lia.
Qed.

Lemma counts_fit (uss : list (list K2TreeUpdates)) : Z.of_nat (length (concat uss)) < 2 ^ 31 →
  Forall (λ us, in_u 32 (Z.of_nat (length us))) uss.
Proof.
  intros Hc. apply Forall_forall. intros us Hin. unfold in_u. split; [lia|].
  assert (length us ≤ length (concat uss))%nat; [|lia].
  clear -Hin. induction Hin; simpl; rewrite length_app; lia.
Qed.

(** Opening the files of a session again. *)
Lemma reopen l uss segs (m1 : M) : session l uss segs → session_fits uss →
  Z.of_nat (length (concat segs)) < 2 ^ 63 →
  ∃ rw, new_UpdatesLoggerImpl m1 (index_logs l) (offsets_file l) (metadata_file l) =
    Ret (mkLogger m1 (index_logs l) (offsets_file l) (metadata_file l) None None rw
           (offsets_map l) (Some (Z.of_nat (length uss)))).
Proof.
  intros Hs (Hn & Hc & Hwf) Hd.
  assert (Hoff : retrieve_offsets_map (offsets_file l) = Ret (offsets_map l)).
  { destruct Hs as [Hloc _ _ _ _ _ Ho]. destruct uss as [|us uss].
    { by destruct Ho as (_ & _ & -> & ->). }
    destruct Ho as (_ & _ & ->). apply retrieve_offsets_bytes.
    eapply located_ok; [exact Hloc|by apply Forall_concat|done..]. }
  unfold new_UpdatesLoggerImpl. rewrite Hoff, (ss_metadata _ _ _ Hs). cbn [mbind outcome_bind].
  unfold read_total_updates, rw_read, rw_seek, get_reader_writer, rw_tell.
  cbn [rw_fail rw_pos rw_data rw_linked]. rewrite (decide_False (P := 0 < 0)) by lia.
  cbn [rw_fail rw_pos rw_data rw_linked].
  pose proof (parses_at _ _ _ [] [] (parses_u32 (Z.of_nat (length uss)) ltac:(unfold in_u; lia))) as Hp.
  rewrite app_nil_r in Hp. unfold stream_at in Hp. simpl in Hp. rewrite app_nil_r in Hp.
  change (Z.to_nat 0) with 0%nat. rewrite Hp. cbn [mbind outcome_bind].
  eexists. repeat f_equal. apply to_signed_nonneg; lia.
Qed.

(** C21: What is logged is recovered. On a log that has never been written, the
    calls of [log] succeed whenever the owner of the data merges each list, and
    count themselves; a process that opens the files again has a predicate
    stored exactly when one of its updates changed something, and recovering a
    predicate hands the owner the trees of exactly those updates, in the order
    they were logged, insertions before deletions. *)
Theorem logged_updates_recovered (m0 m1 m : M) (uss : list (list K2TreeUpdates)) :
  session_fits uss → foldM (λ m us, dm_merge_update us m) m0 uss = Ret m →
  ∃ l0 l, new_UpdatesLoggerImpl m0 None None (Some (be_encode 4 0)) = Ret l0 ∧
    log_all uss l0 = Ret l ∧ data_merger l = m ∧
    (Z.of_nat (length (default [] (index_logs l))) < 2 ^ 63 →
     ∃ l1, new_UpdatesLoggerImpl m1 (index_logs l) (offsets_file l) (metadata_file l) = Ret l1 ∧
       logs_number l1 = Ret (Z.of_nat (length uss)) ∧
       ∀ p, has_predicate_stored p l1 = bool_decide (updates_of p (concat uss) ≠ []) ∧
         (has_predicate_stored p l1 = true →
          ∃ us', Forall2 same_update (updates_of p (concat uss)) us' ∧
            ∀ m', merge_all us' m1 = Ret m' →
              ∃ l2, recover_predicate p l1 = Ret l2 ∧ data_merger l2 = m')).
Proof.
  intros Hfit Hm. destruct (new_session m0) as (l0 & E0 & Em0 & Hs0).
  destruct Hfit as (Hn & Hc & Hwf).
  destruct (log_all_session uss l0 [] [] m Hs0 Hwf Hn) as (l & segs & E & Em & Hs);
    [by rewrite Em0|]. simpl in Hs.
  exists l0, l. split_and!; [done..|]. intros Hd.
  assert (Hfile : index_logs l = match uss with [] => None | _ => Some (concat segs) end)
    by (destruct uss; apply (ss_open _ _ _ Hs)).
  assert (Hd' : Z.of_nat (length (concat segs)) < 2 ^ 63).
  { rewrite Hfile in Hd. destruct uss; [|done]. pose proof (ss_segments _ _ _ Hs) as Hsg.
    by inversion Hsg. }
  destruct (reopen l uss segs m1 Hs) as (rw & E1); [done..|].
  eexists. split; [exact E1|]. split; [done|]. intros p.
  pose proof (ss_located _ _ _ Hs p) as Hp. unfold has_predicate_stored, recover_predicate.
  cbn [offsets_map index_logs].
  destruct (offsets_map l !! p) as [os|] eqn:Eo.
  - destruct Hp as [Hne Hos]. rewrite !bool_decide_true by done. split; [done|]. intros _.
    destruct (recover_offsets_spec _ _ _ Hos) as (us' & Hus & Hrec). exists us'. split; [done|].
    intros m' Hm'. rewrite Hfile. destruct uss as [|us uss]; [by destruct Hne|].
    unfold recover_one, close_writer, set_streams, open_reader.
    cbn [offsets_map index_logs current_file_reader data_merger]. rewrite Eo.
    cbn [deref mbind outcome_bind].
    destruct (Hrec (get_reader (Some (concat segs))) m1) with (m' := m') as (ifs' & E2 & _);
      [done..|].
    rewrite E2. cbn [mbind outcome_bind]. by eexists.
  - rewrite Hp. rewrite !bool_decide_false by (intros []; done || congruence). done.
Qed.

(** Replaying the whole log recovers everything: after a session whose
    updates all changed something, [recover_all] of the next process hands the
    owner the trees of every update of every call, in order. *)
Theorem recover_all_replays (m0 m1 m : M) (uss : list (list K2TreeUpdates)) :
  session_fits uss → Forall (Forall real_update) uss → uss ≠ [] →
  foldM (λ m us, dm_merge_update us m) m0 uss = Ret m →
  ∃ l0 l, new_UpdatesLoggerImpl m0 None None (Some (be_encode 4 0)) = Ret l0 ∧
    log_all uss l0 = Ret l ∧
    (Z.of_nat (length (default [] (index_logs l))) < 2 ^ 63 →
     ∃ l1 us', new_UpdatesLoggerImpl m1 (index_logs l) (offsets_file l) (metadata_file l) = Ret l1 ∧
       Forall2 same_update (concat uss) us' ∧
       ∀ m', merge_all us' m1 = Ret m' → ∃ l2, recover_all l1 = Ret l2 ∧ data_merger l2 = m').
Proof.
  intros Hfit Hreal Hne Hm. destruct (new_session m0) as (l0 & E0 & Em0 & Hs0).
  destruct Hfit as (Hn & Hc & Hwf).
  destruct (log_all_session uss l0 [] [] m Hs0 Hwf Hn) as (l & segs & E & Em & Hs);
    [by rewrite Em0|]. simpl in Hs.
  exists l0, l. split_and!; [done..|].
  assert (Hfile : index_logs l = Some (concat segs))
    by (destruct uss; [done|apply (ss_open _ _ _ Hs)]).
  rewrite Hfile. intros Hd. destruct (reopen l uss segs m1 Hs) as (rw & E1); [done..|].
  rewrite Hfile in E1.
  destruct (recover_updates_spec uss segs) as (us' & Hus & Hrec); [apply Hs|done| |].
  { by apply counts_fit. }
  eexists _, us'. split; [exact E1|]. split; [done|]. intros m' Hm'.
  unfold recover_all, recover_all_data, close_writer, set_streams, open_reader.
  cbn [index_logs total_updates current_file_reader data_merger deref mbind outcome_bind].
  specialize (Hrec [] m1 m' Hm'). rewrite Nat2Z.id.
  change (get_reader (Some (concat segs))) with (stream_at [] (concat segs)). rewrite Hrec.
  cbn [mbind outcome_bind]. by eexists.
Qed.
End session.

(** ** Compaction keeps the effect of the updates *)

Section compaction_specs.
Context `{K2LibLaws}.

Definition tree_at (st : K2QStateWrapper) (t : K2TreeMixed) : Prop :=
  tm_ok t ∧ create_k2qw t = st.
Definition opt_at (st : K2QStateWrapper) (t : option K2TreeMixed) : Prop :=
  match t with Some t => tree_at st t | None => True end.
Definition opt_pts (t : option K2TreeMixed) : gset (Z * Z) :=
  match t with Some t => pts t | None => ∅ end.
Definition update_at (st : K2QStateWrapper) (u : PredicateUpdate) : Prop :=
  opt_at st (add_update u) ∧ opt_at st (del_update u).
(** What [merge_update] asks of the owner, on the set of points of the predicate. *)
Definition effect (u : PredicateUpdate) (s : gset (Z * Z)) : gset (Z * Z) :=
  (s ∪ opt_pts (add_update u)) ∖ opt_pts (del_update u).
(** Every tree [update] has, [self] has too. *)
Definition covers (self update : PredicateUpdate) : Prop :=
  (is_Some (add_update update) → is_Some (add_update self)) ∧
  (is_Some (del_update update) → is_Some (del_update self)).
(** What is left of an effect [E] when an update that has only some of the trees [self] has
    stands for it: without a tree of deletions nothing leaves, without one of insertions
    nothing enters. *)
Definition kept (self : PredicateUpdate) (E : gset (Z * Z) → gset (Z * Z)) (s : gset (Z * Z)) : gset (Z * Z) :=
  match add_update self, del_update self with
  | Some _, Some _ => E s
  | Some _, None => s ∪ E ∅
  | None, Some _ => s ∩ E s
  | None, None => s
  end.
Definition same_trees (u v : PredicateUpdate) : Prop :=
  (is_Some (add_update u) ↔ is_Some (add_update v)) ∧ (is_Some (del_update u) ↔ is_Some (del_update v)).
Definition effects (us : list PredicateUpdate) (s : gset (Z * Z)) : gset (Z * Z) :=
  fold_left (λ s u, effect u s) us s.
Lemma kept_same u v E s : same_trees u v → kept u E s = kept v E s.
Proof.
  unfold same_trees, kept. intros [[A1 A2] [D1 D2]].
  destruct (add_update u), (add_update v), (del_update u), (del_update v); try done;
    exfalso; repeat match goal with H : is_Some (Some _) → is_Some None |- _ => by destruct (H ltac:(by eexists)) end.
Qed.
Lemma kept_ext u E E' s : (∀ s, E s = E' s) → kept u E s = kept u E' s.
Proof. intros HE. unfold kept. by destruct (add_update u), (del_update u); rewrite ?HE. Qed.
(** An effect on a point depends on the point alone. *)
Lemma effects_local us p : ∀ s s', (p ∈ s ↔ p ∈ s') → p ∈ effects us s ↔ p ∈ effects us s'.
Proof.
  unfold effects. induction us as [|u us IH]; intros s s' Hp; [done|]. apply IH. unfold effect. set_solver.
Qed.
(** An update that covers the others keeps all of their effect. *)
Lemma kept_covers self us : Forall (covers self) us → ∀ s,
  kept self (λ s, effects us (effect self s)) s = effects us (effect self s).
Proof.
  unfold kept, covers, effect. intros Hc s. destruct (add_update self) as [ta|], (del_update self) as [td|]; [done|..]; simpl.
  - assert (Hno : ∀ s s', effects us (s ∪ s') = s ∪ effects us s').
    { clear s. unfold effects. induction us as [|u us IH]; intros s s'; [done|].
      apply Forall_cons in Hc as [[_ Hu] Hc]. cbn [fold_left].
      assert (Ed : opt_pts (del_update u) = ∅).
      { destruct (del_update u); [by destruct (Hu ltac:(by eexists))|done]. }
      rewrite <-IH by done. f_equal. unfold effect. rewrite Ed. set_solver. }
    rewrite <-Hno. f_equal. set_solver.
  - assert (Hsub : ∀ s, effects us s ⊆ s).
    { clear s. unfold effects. induction us as [|u us IH]; intros s; [done|].
      apply Forall_cons in Hc as [[Hu _] Hc]. cbn [fold_left].
      assert (Ea : opt_pts (add_update u) = ∅).
      { destruct (add_update u); [by destruct (Hu ltac:(by eexists))|done]. }
      etrans; [by apply IH|]. unfold effect. rewrite Ea. set_solver. }
    specialize (Hsub ((s ∪ ∅) ∖ pts td)). set_solver.
  - assert (Hid : ∀ s, effects us s = s).
    { clear s. unfold effects. induction us as [|u us IH]; intros s; [done|].
      apply Forall_cons in Hc as [[Hu Hd] Hc]. cbn [fold_left].
      destruct (add_update u) eqn:Ea; [by destruct (Hu ltac:(by eexists))|].
      destruct (del_update u) eqn:Ed; [by destruct (Hd ltac:(by eexists))|].
      rewrite IH by done. unfold effect. rewrite Ea, Ed. set_solver. }
    rewrite Hid. set_solver.
Qed.
(** [fuel] is enough for the trees of an update. *)
Definition fuel_ok (fuel : nat) (u : PredicateUpdate) : Prop :=
  (base.size (opt_pts (add_update u)) < fuel)%nat ∧
  (base.size (opt_pts (del_update u)) < fuel)%nat.

Lemma bulk_fold (f : K2QStateWrapper → Z → Z → K2TreeMixed → K2TreeMixed) (g : Z * Z → tree_op) l t :
  (∀ t p, f (create_k2qw t) p.1 p.2 t = run_op t (g p) ∧
          create_k2qw (run_op t (g p)) = create_k2qw t) →
  fold_left (bulk_point f) l (Some (t, create_k2qw t)) =
  Some (fold_left run_op (g <$> l) t, create_k2qw t).
Proof.
  intros Hf. revert t. induction l as [|p l IH]; intros t; simpl; [done|].
  destruct (Hf t p) as [-> E]. by rewrite <-E, IH.
Qed.

(** The points of a scanned tree lie within its coordinates. *)
Lemma points_in_coords st t l : tree_at st t → l ≡ₚ elements (pts t) →
  Forall (in_coords st) l ∧ list_to_set l = pts t.
Proof.
  intros [[Hv Hc] <-] Hl. split.
  - rewrite Hl. rewrite <-get_all_points_perm by done. by apply scan_range.
  - apply set_eq. intros p. by rewrite elem_of_list_to_set, Hl, elem_of_elements.
Qed.

Lemma fold_prod {A B C} (f : A → C → A) (g : B → C → B) l a b :
  fold_left (λ acc p, (f acc.1 p, g acc.2 p)) l (a, b) = (fold_left f l a, fold_left g l b).
Proof. revert a b. induction l as [|x l IH]; intros a b; simpl; auto. Qed.

(** One loop of [merge_with]: the points scanned leave one tree and enter the
    other, when these are there. *)
Definition step_ok (st : K2QStateWrapper) (l : gset (Z * Z))
    (ops : gset (Z * Z) → gset (Z * Z) → gset (Z * Z))
    (t : option K2TreeMixed) (t' : option K2TreeMixed) : Prop :=
  (is_Some t' ↔ is_Some t) ∧ opt_at st t' ∧ (is_Some t → opt_pts t' = ops (opt_pts t) l).

Lemma bulk_step st f g ops (l : list (Z * Z)) t :
  (∀ t p, f (create_k2qw t) p.1 p.2 t = run_op t (g p) ∧
          create_k2qw (run_op t (g p)) = create_k2qw t) →
  (∀ p, op_point (g p) = p) → (∀ s, fold_left spec_op (g <$> l) s = ops s (list_to_set l)) →
  opt_at st t → Forall (in_coords st) l →
  ∃ t', fold_left (bulk_point f) l (with_stw t) = with_stw t' ∧
    step_ok st (list_to_set l) ops t t'.
Proof.
  intros Hf Hg Hops Ht Hl. destruct t as [t|].
  - destruct Ht as [Hok Hst]. simpl. rewrite (bulk_fold f g) by done.
    destruct (run_ops_spec (g <$> l) t Hok) as (Hok' & Hst' & Hp).
    { rewrite Hst, Forall_fmap. weaken Hl. simpl. by rewrite Hg. }
    exists (Some (fold_left run_op (g <$> l) t)). split; [by simpl; rewrite Hst'|].
    split_and!; [split; by eexists|split; congruence|]. intros _. simpl. by rewrite Hp, Hops.
  - exists None. split; [|split_and!; [done..|by intros []]].
    simpl. clear. induction l; simpl; auto.
Qed.

Lemma merge_points_spec st from fuel first second :
  opt_at st from → opt_at st first → opt_at st second →
  (base.size (opt_pts from) < fuel)%nat →
  ∃ first' second',
    merge_points from fuel (with_stw first) (with_stw second) =
      Ret (Some (with_stw first', with_stw second')) ∧
    step_ok st (opt_pts from) difference first first' ∧
    step_ok st (opt_pts from) union second second'.
Proof.
  intros Hfrom H1 H2 Hf. destruct from as [t|].
  - destruct (full_scanner_spec t (proj1 Hfrom)) as (l & Hd & Hl).
    destruct (points_in_coords st t l Hfrom Hl) as [Hc Hset].
    destruct (bulk_step st remove_with (λ p, OpRemove p.1 p.2) difference l first)
      as (first' & E1 & S1); [|by intros []|apply spec_removes|done..|].
    { intros t0 p. split; [done|]. unfold run_op, remove, remove_with.
      by destruct (k2node_delete_point _ _ _ _). }
    destruct (bulk_step st insert_with (λ p, OpInsert p.1 p.2) union l second)
      as (second' & E2 & S2); [|by intros []|apply spec_inserts|done..|].
    { intros t0 p. split; [done|]. unfold run_op, insert, insert_with, insert_was_inserted_with.
      by destruct (k2node_insert_point _ _ _ _). }
    exists first', second'. simpl. rewrite <-Hset. split_and!; [|done..].
    assert (length l < fuel)%nat by (simpl in Hf; by rewrite Hl).
    rewrite (while_scan_delivers _ _ _ l) by done. simpl.
    by rewrite foldM_ret, fold_prod, E1, E2.
  - exists first, second. simpl. split_and!; [done|..]; (split_and!; [done..|]);
      intros _; set_solver.
Qed.

Lemma merge_with_spec st fuel self update :
  update_at st self → update_at st update → fuel_ok fuel update →
  ∃ merged, merge_with fuel self update = Ret (Some merged) ∧
    u_predicate merged = u_predicate self ∧ update_at st merged ∧ same_trees merged self ∧
    ∀ s, effect merged s = kept self (λ s, effect update (effect self s)) s.
Proof.
  intros [Ha Hd] [Ha2 Hd2] [Fa Fd]. unfold merge_with. case_decide as E.
  { exists self. destruct E as [Ea Ed]. split_and!; [done..|]. intros s. unfold kept, effect. rewrite Ea, Ed.
    destruct (add_update self), (del_update self); simpl; set_solver. }
  destruct (merge_points_spec st (add_update update) fuel (del_update self) (add_update self))
    as (d1 & a1 & -> & (Sd1 & Od1 & Pd1) & (Sa1 & Oa1 & Pa1)); [done..|]. cbn [mbind outcome_bind].
  destruct (merge_points_spec st (del_update update) fuel a1 d1)
    as (a2 & d2 & -> & (Sa2 & Oa2 & Pa2) & (Sd2 & Od2 & Pd2)); [done..|]. cbn [mbind outcome_bind].
  exists (mkPredicateUpdate (u_predicate self) a2 d2).
  split; [by destruct a2, d2|]. split; [done|]. split; [done|]. split; [split; simpl; tauto|].
  assert (Na : ¬ is_Some (add_update self) → a2 = None)
    by (intros Hn; destruct a2 as [t|]; [destruct Hn; apply Sa1, Sa2; by eexists|done]).
  assert (Nd : ¬ is_Some (del_update self) → d2 = None)
    by (intros Hn; destruct d2 as [t|]; [destruct Hn; apply Sd1, Sd2; by eexists|done]).
  intros s. unfold effect, kept. simpl.
  destruct (add_update self) as [ta|] eqn:Ea, (del_update self) as [td|] eqn:Ed;
    rewrite ?Na, ?Nd by (intros [? ?]; done); simpl;
    rewrite ?Pa2, ?Pa1, ?Pd2, ?Pd1 by (by eexists || (apply Sa1; by eexists) || (apply Sd1; by eexists));
    simpl; apply set_eq; intros p; destruct (decide (p ∈ opt_pts (add_update update))); set_solver.
Qed.
End compaction_specs.

Section compact_specs.
Context {Blk : BlockLib} `{!BlockLibLaws} {Lib : K2Lib} `{!K2LibLaws}.

(** A logged update, as the update it is read back as. *)
Definition update_of (u : K2TreeUpdates) : PredicateUpdate :=
  mkPredicateUpdate (predicate_id u) (k2tree_add u) (k2tree_del u).

Lemma same_opt_at st t t' : same_opt t t' → opt_at st t → opt_at st t' ∧ opt_pts t' = opt_pts t.
Proof.
  destruct t as [t|], t' as [t'|]; simpl; [|done..].
  intros (Hc & Hq & Hv) [Hok <-]. by destruct (tm_ok_view t t' Hok Hc Hq Hv).
Qed.

Lemma same_update_at st u u' : same_update u u' → update_at st (update_of u) →
  update_at st u' ∧ (∀ s, effect u' s = effect (update_of u) s) ∧
  same_trees u' (update_of u) ∧ (∀ fuel, fuel_ok fuel u' ↔ fuel_ok fuel (update_of u)).
Proof.
  intros (_ & Ha & Hd) [Aa Ad].
  destruct (same_opt_at st _ _ Ha Aa) as [Ba Ea], (same_opt_at st _ _ Hd Ad) as [Bd Ed].
  unfold effect, same_trees, fuel_ok. simpl in *. rewrite Ea, Ed.
  assert (is_Some (add_update u') ↔ is_Some (k2tree_add u)) as Ia.
  { destruct (k2tree_add u), (add_update u'); try done; split; by eexists. }
  assert (is_Some (del_update u') ↔ is_Some (k2tree_del u)) as Id.
  { destruct (k2tree_del u), (del_update u'); try done; split; by eexists. }
  by split_and!.
Qed.

Lemma read_stored d o u ifs : stored_at d o u → reads d ifs →
  ∃ u' ifs', recover_single_predicate_update (seekg (Z.to_nat o) ifs) = Ret (u', ifs') ∧
    reads d ifs' ∧ same_update u u'.
Proof.
  intros (pre & bytes & post & u' & Ed & -> & Hp & Hs). destruct ifs as [dat pos fl].
  intros [E1 E2]. simpl in E1, E2. subst dat fl. unfold seekg. simpl. rewrite Nat2Z.id, Ed.
  exists u', (stream_at (pre ++ bytes) post).
  change (IStream (pre ++ bytes ++ post) (length pre) false) with (stream_at pre (bytes ++ post)).
  rewrite (parses_at _ _ _ _ _ Hp). split_and!; [done| |done].
  split; [by simpl; rewrite <-(assoc_L (++))|done].
Qed.

Lemma kept_twice (self merged : PredicateUpdate) (us : list PredicateUpdate)
    (E : gset (Z * Z) → gset (Z * Z)) (s : gset (Z * Z)) : same_trees merged self →
  (∀ s, effect merged s = kept self E s) →
  kept merged (λ s, effects us (effect merged s)) s = kept self (λ s, effects us (E s)) s.
Proof.
  intros Hsame Heff. rewrite (kept_same _ _ _ _ Hsame). unfold kept in *.
  destruct (add_update self), (del_update self); try done; cbv beta; rewrite Heff; [done|..].
  - by rewrite (left_id_L ∅ (∪)).
  - apply set_eq. intros p. rewrite !elem_of_intersection. split; intros [Hp Hin]; (split; [done|]);
      (eapply effects_local; [|exact Hin]); set_solver.
Qed.
Lemma compact_tail st p fuel d os us ifs merged :
  Forall2 (stored_at d) os us →
  Forall (λ u, predicate_id u = p ∧ update_at st (update_of u) ∧ fuel_ok fuel (update_of u)) us →
  update_at st merged → reads d ifs →
  ∃ merged' ifs', compact_offsets fuel p os ifs (Some merged) = Ret (Some (Some merged', ifs')) ∧
    reads d ifs' ∧ u_predicate merged' = u_predicate merged ∧ same_trees merged' merged ∧
    ∀ s, effect merged' s = kept merged (λ s, effects (update_of <$> us) (effect merged s)) s.
Proof.
  intros Hos. revert ifs merged. induction Hos as [|o u os us Ho Hos IH];
    intros ifs merged Hus Hm Hr.
  { exists merged, ifs. split_and!; [done..|]. intros s. rewrite (kept_covers merged []); done. }
  apply Forall_cons in Hus as [(Hp & Hat & Hf) Hus']. subst p.
  destruct (read_stored d o u ifs Ho Hr) as (u' & ifs1 & E1 & Hr1 & Hs).
  destruct (same_update_at st u u' Hs Hat) as (Hat' & Heff & _ & Hfl).
  simpl. rewrite E1. cbn [mbind outcome_bind]. rewrite decide_False by (destruct Hs; congruence).
  destruct (merge_with_spec st fuel merged u') as (m1 & E2 & Hid & Hat1 & Hsame & Heff1); [done|done|by apply Hfl|].
  rewrite E2. cbn [mbind outcome_bind].
  destruct (IH ifs1 m1) as (m2 & ifs2 & E3 & Hr2 & Hid2 & Hsame2 & Heff2); [done..|].
  exists m2, ifs2. split_and!; [done..|congruence| |].
  - destruct Hsame as [S1 S2], Hsame2 as [S3 S4]. split; [by rewrite S3|by rewrite S4].
  - intros s. rewrite Heff2, (kept_twice merged m1 _ _ s Hsame Heff1). apply kept_ext. intros s'.
    unfold effects. cbn [fmap list_fmap fold_left]. by rewrite Heff.
Qed.

(** C22: What compacting a predicate makes of its log, whatever the updates. All of them are
    merged into one update, with the trees the first of them has. Its effect is theirs in sequence
    when the first update both inserts and deletes, or when it has every tree the later ones have.
    Otherwise it falls short: without a tree of deletions it adds the points that the sequence
    makes of nothing, and removes none; without one of insertions it removes the points that the
    sequence removes, and adds none. *)
Theorem compaction_keeps_effect st p fuel d o os u us ifs :
  Forall2 (stored_at d) (o :: os) (u :: us) →
  Forall (λ v, predicate_id v = p ∧ update_at st (update_of v) ∧ fuel_ok fuel (update_of v)) (u :: us) →
  reads d ifs →
  let sequence s := fold_left (λ s v, effect (update_of v) s) (u :: us) s in
  ∃ merged ifs', compact_offsets fuel p (o :: os) ifs None = Ret (Some (Some merged, ifs')) ∧
    u_predicate merged = p ∧ same_trees merged (update_of u) ∧
    (Forall (covers (update_of u)) (update_of <$> us) → ∀ s, effect merged s = sequence s) ∧
    ∀ s, effect merged s =
      match k2tree_add u, k2tree_del u with
      | Some _, Some _ => sequence s
      | Some _, None => s ∪ sequence ∅
      | None, Some _ => s ∩ sequence s
      | None, None => s
      end.
Proof.
  intros Hos Hus Hr. apply Forall2_cons in Hos as [Ho Hos']. apply Forall_cons in Hus as [(<- & Hat & Hf) Hus'].
  destruct (read_stored d o u ifs Ho Hr) as (u' & ifs1 & E1 & Hr1 & Hs).
  destruct (same_update_at st u u' Hs Hat) as (Hat' & Heff & Hsame & Hfl).
  destruct (compact_tail st (predicate_id u) fuel d os us ifs1 u' Hos' Hus' Hat' Hr1)
    as (m & ifs2 & E2 & _ & Hid & Hsame2 & Heff2).
  assert (Hpu : u_predicate u' = predicate_id u) by apply Hs.
  assert (Hseq : ∀ s, fold_left (λ s v, effect (update_of v) s) (u :: us) s = effects (update_of <$> us) (effect u' s)).
  { intros s. cbn [fold_left]. rewrite Heff. unfold effects. generalize (effect (update_of u) s). clear.
    induction us as [|v us IH]; intros s; [done|]. cbn [fold_left fmap list_fmap]. apply IH. }
  exists m, ifs2. split; [|split; [congruence|split; [|split]]].
  - change (compact_offsets fuel (predicate_id u) (o :: os) ifs None) with
      ('(updates, ifs) ← recover_single_predicate_update (seekg (Z.to_nat o) ifs);
       if decide (u_predicate updates ≠ predicate_id u) then Throw RuntimeError
       else compact_offsets fuel (predicate_id u) os ifs (Some updates)).
    rewrite E1. cbn [mbind outcome_bind]. rewrite decide_False by (rewrite Hpu; tauto). exact E2.
  - destruct Hsame as [S1 S2], Hsame2 as [S3 S4]. split; [by rewrite S3|by rewrite S4].
  - intros Hc s. rewrite Heff2, Hseq. apply kept_covers. weaken Hc. unfold covers. destruct Hsame as [S1 S2]. tauto.
  - intros s. rewrite Heff2, (kept_same _ _ _ _ Hsame). unfold kept. cbn [update_of add_update del_update].
    by rewrite !Hseq.
Qed.
End compact_specs.

(** ** Where the log falls short *)

Section shortfalls.
Context {M : Type} `{!DataMerger M, Blk : BlockLib, !BlockLibLaws, Lib : K2Lib, !K2LibLaws}.
Notation logger := (UpdatesLoggerImpl M).

(** An insertion logged after a deletion of the same predicate does not
    survive compaction: when the first update has no tree of insertions, the
    points the next one inserts have nowhere to go, and replaying the merged
    update never adds a point. *)
Theorem compaction_drops_inserts st fuel self update : update_at st self → update_at st update →
  add_update self = None → fuel_ok fuel update →
  ∃ merged, merge_with fuel self update = Ret (Some merged) ∧ add_update merged = None ∧
    ∀ s, effect merged s ⊆ s.
Proof.
  intros [_ Hd] [Ha2 Hd2] E [Fa Fd]. unfold merge_with. case_decide.
  { exists self. unfold effect. rewrite E. split_and!; [done..|]. simpl. set_solver. }
  rewrite E.
  destruct (merge_points_spec st (add_update update) fuel (del_update self) None)
    as (d1 & a1 & -> & (Sd1 & Od1 & Pd1) & (Sa1 & Oa1 & Pa1)); [done..|]. cbn [mbind outcome_bind].
  destruct (merge_points_spec st (del_update update) fuel a1 d1)
    as (a2 & d2 & -> & (Sa2 & Oa2 & Pa2) & (Sd2 & Od2 & Pd2)); [done..|]. cbn [mbind outcome_bind].
  eexists. split; [reflexivity|]. unfold effect. simpl.
  assert (a2 = None) as ->.
  { destruct a2; [|done]. destruct (proj1 Sa1); [|done]. apply Sa2. by eexists. }
  split; [done|]. simpl. set_solver.
Qed.

Lemma commit_total_returns total s : ∃ s', commit_total total s = Ret s' ∧ rw_linked s' = rw_linked s.
Proof.
  destruct s as [d p f k]. unfold commit_total, rw_write, rw_seek, rw_tell, write_u32, os_write.
  destruct f; simpl; repeat (case_decide; simpl); by eexists.
Qed.

(** The result of [log], whatever the state it is called in. *)
Lemma log_result us (l : logger) d n m : Forall update_wf us →
  match current_file_writer l with
  | Some w => w
  | None => OStream (get_writer false (index_logs l)) 0
  end = os_end d →
  dm_merge_update us (data_merger l) = Ret m →
  total_updates l = Some n → - 2 ^ 31 ≤ n + 1 < 2 ^ 31 →
  ∃ l' seg, log us l = Ret l' ∧ index_logs l' = Some (d ++ seg) ∧ segment_of us seg ∧
    (∀ p, has_predicate_stored p l = true → has_predicate_stored p l' = true) ∧
    total_updates l' = Some (n + 1) ∧
    (rw_linked (metadata_file_rw l) = false → metadata_file l' = metadata_file l).
Proof.
  intros Hwf Hw Hm Hn Hr.
  destruct (log_trees_spec us d (offsets_map l) Hwf) as (o & seg & E & [Hmono _] & Hseg).
  unfold log. rewrite Hw, E. cbn [mbind outcome_bind].
  rewrite file_of_dump. cbn [mbind outcome_bind]. rewrite Hm. cbn [mbind outcome_bind].
  rewrite Hn. cbn [mbind outcome_bind deref]. unfold int_chk. rewrite decide_True by done.
  cbn [mbind outcome_bind]. unfold commit_total_updates.
  cbn [total_updates metadata_file_rw deref mbind outcome_bind].
  destruct (commit_total_returns (n + 1) (metadata_file_rw l)) as (s' & -> & Hk).
  cbn [mbind outcome_bind]. eexists _, seg. split; [reflexivity|]. simpl. rewrite Hk.
  unfold has_predicate_stored. split_and!; [done..| |done|by intros ->].
  intros p. simpl. rewrite !bool_decide_eq_true. apply Hmono.
Qed.

(** The first [log] of a process that has no writer open truncates the
    file: the updates of earlier processes, or of before a recovery, are gone
    from it, while the offsets still claim to locate them. *)
Theorem log_truncates us (l : logger) n m : Forall update_wf us →
  current_file_writer l = None → dm_merge_update us (data_merger l) = Ret m →
  total_updates l = Some n → - 2 ^ 31 ≤ n + 1 < 2 ^ 31 →
  ∃ l' seg, log us l = Ret l' ∧ index_logs l' = Some seg ∧ segment_of us seg ∧
    ∀ p, has_predicate_stored p l = true → has_predicate_stored p l' = true.
Proof.
  intros Hwf Hw Hm Hn Hr.
  destruct (log_result us l [] n m Hwf) as (l' & seg & E & Ei & Hseg & Hp & _);
    [by rewrite Hw|done..|]. by exists l', seg.
Qed.

(** The count of updates is lost after [clean_append_log]: the metadata
    stream is opened on the file just removed, so nothing is written to it, and
    a process started on the files later replays a log whose length it never
    read. *)
Theorem count_lost_after_clean us (l : logger) (m m1 : M) : Forall update_wf us →
  dm_merge_update us (data_merger l) = Ret m →
  ∃ l', log us (clean_append_log l) = Ret l' ∧ logs_number l' = Ret 1 ∧
    is_Some (index_logs l') ∧
    ∀ l1, new_UpdatesLoggerImpl m1 (index_logs l') (offsets_file l') (metadata_file l') = Ret l1 →
      logs_number l1 = UB ∧ recover_all l1 = UB.
Proof.
  intros Hwf Hm.
  destruct (log_result us (clean_append_log l) [] 0 m Hwf)
    as (l' & seg & E & Ei & _ & _ & Ht & Hmeta); [done..|].
  exists l'. unfold logs_number. rewrite Ht, Ei, (Hmeta eq_refl). split_and!; [done..|by eexists|].
  unfold new_UpdatesLoggerImpl. simpl. intros l1.
  destruct (retrieve_offsets_map (offsets_file l')); cbn [mbind outcome_bind]; [|done..].
  by intros [= <-].
Qed.
End shortfalls.

(** ** Instances of the theorems *)
Section witnesses.
#[local] Existing Instance toy_block_lib.
#[local] Existing Instance toy_block_laws.
#[local] Existing Instance Toy.toy_k2_lib.

(** An owner that writes down what it is asked. *)
#[local] Instance recording_merger : DataMerger (list (Z * Z * bool)) := {|
  merge_add_tree p t m := Ret (m ++ [(p, points_count t, true)]);
  merge_delete_tree p t m := Ret (m ++ [(p, points_count t, false)]);
  dm_merge_update us m := Ret (m ++ ((λ u, (predicate_id u, 0, true)) <$> us))
|}.

Definition toy_insert : K2TreeUpdates := mkUpdates 4 (Some toy_tree) None.
Definition toy_both : K2TreeUpdates := mkUpdates 4 (Some toy_tree) (Some toy_tree).

Lemma toy_updates_wf : Forall update_wf [toy_both; toy_insert].
Proof.
  pose proof toy_tree_wf. apply Forall_cons. split; [done|]. apply Forall_cons. by split.
Qed.
Lemma toy_fits : session_fits [[toy_both; toy_insert]; []].
Proof.
  split; [done|]. split; [done|]. apply Forall_cons.
  split; [exact toy_updates_wf|by repeat constructor].
Qed.

Lemma offsets_roundtrip_witness :
  ∃ bytes, file_of (dump_offsets {[ 5 := [0; 100]; 9 := [7] ]}) = Ret ((), bytes) ∧
    retrieve_offsets_map (Some bytes) = Ret {[ 5 := [0; 100]; 9 := [7] ]}.
Proof.
  apply offsets_roundtrip. split; [done|].
  apply (bool_decide_unpack _). vm_compute. done.
Defined.

Lemma logged_updates_recovered_witness :
  ∃ l0 l : UpdatesLoggerImpl (list (Z * Z * bool)),
    new_UpdatesLoggerImpl [] None None (Some (be_encode 4 0)) = Ret l0 ∧
    log_all [[toy_both; toy_insert]; []] l0 = Ret l ∧
    data_merger l = [(4, 0, true); (4, 0, true)] ∧
    (Z.of_nat (length (default [] (index_logs l))) < 2 ^ 63 →
     ∃ l1, new_UpdatesLoggerImpl [] (index_logs l) (offsets_file l) (metadata_file l) = Ret l1 ∧
       logs_number l1 = Ret 2 ∧
       ∀ p, has_predicate_stored p l1 =
            bool_decide (updates_of p (concat [[toy_both; toy_insert]; []]) ≠ []) ∧
         (has_predicate_stored p l1 = true →
          ∃ us', Forall2 same_update (updates_of p (concat [[toy_both; toy_insert]; []])) us' ∧
            ∀ m', merge_all us' [] = Ret m' →
              ∃ l2, recover_predicate p l1 = Ret l2 ∧ data_merger l2 = m')).
Proof.
  apply (logged_updates_recovered [] [] _ [[toy_both; toy_insert]; []]);
    [exact toy_fits|reflexivity].
Defined.

Lemma recover_all_replays_witness :
  ∃ l0 l : UpdatesLoggerImpl (list (Z * Z * bool)),
    new_UpdatesLoggerImpl [] None None (Some (be_encode 4 0)) = Ret l0 ∧
    log_all [[toy_both; toy_insert]; []] l0 = Ret l ∧
    (Z.of_nat (length (default [] (index_logs l))) < 2 ^ 63 →
     ∃ l1 us', new_UpdatesLoggerImpl [] (index_logs l) (offsets_file l) (metadata_file l) = Ret l1 ∧
       Forall2 same_update (concat [[toy_both; toy_insert]; []]) us' ∧
       ∀ m', merge_all us' [] = Ret m' → ∃ l2, recover_all l1 = Ret l2 ∧ data_merger l2 = m').
Proof.
  apply (recover_all_replays [] [] [(4, 0, true); (4, 0, true)] [[toy_both; toy_insert]; []]);
    [exact toy_fits| |done|reflexivity].
  by repeat constructor.
Defined.

Lemma toy_tree_at : tree_at (mkst 8 1 256) toy_tree.
Proof.
  split; [|done]. split; [|computed].
  change (Toy.valid (mkst 8 1 256) (root toy_tree)).
  apply (bool_decide_unpack (_ ∧ _)). by vm_compute.
Qed.

(** Two updates, one behind the other. *)
Lemma toy_records u v : update_wf u → update_wf v → ∃ d o, stored_at d 0 u ∧ stored_at d o v.
Proof.
  intros Hu Hv. destruct (trees_record u Hu) as (b & u' & Hs & _ & Hp).
  destruct (trees_record v Hv) as (c & v' & Hs' & _ & Hp').
  set (rb := be_encode 8 (predicate_id u) ++ be_encode 4 (kind_code (get_kind u)) ++ b) in *.
  set (rc := be_encode 8 (predicate_id v) ++ be_encode 4 (kind_code (get_kind v)) ++ c) in *.
  exists (rb ++ rc), (Z.of_nat (length rb)). split.
  - by exists [], rb, rc, u'.
  - exists rb, rc, [], v'. by rewrite app_nil_r.
Qed.

Definition toy_delete : K2TreeUpdates := mkUpdates 4 None (Some toy_tree).
(** An update with both trees, followed by an insertion; and one that only deletes: the
    insertion that follows is lost. *)
Lemma compaction_keeps_effect_witness :
  (∃ d o merged ifs', compact_offsets 3 4 [0; o] (get_reader (Some d)) None = Ret (Some (Some merged, ifs')) ∧
     ∀ s, effect merged s = fold_left (λ s v, effect (update_of v) s) [toy_both; toy_insert] s) ∧
  (∃ d o merged ifs', compact_offsets 3 4 [0; o] (get_reader (Some d)) None = Ret (Some (Some merged, ifs')) ∧
     (3, 5) ∈ fold_left (λ s v, effect (update_of v) s) [toy_delete; toy_insert] ∅ ∧ (3, 5) ∉ effect merged ∅).
Proof.
  assert (Hok : ∀ u, u = toy_both ∨ u = toy_insert ∨ u = toy_delete → update_wf u ∧ predicate_id u = 4 ∧
    update_at (mkst 8 1 256) (update_of u) ∧ fuel_ok 3 (update_of u)).
  { pose proof toy_tree_at. pose proof toy_tree_wf. intros u [-> | [-> | ->]];
      (split; [done|]; split; [done|]; split; [done|]; split; by apply Nat.ltb_lt). }
  assert (Hboth : ∀ u v, u = toy_both ∨ u = toy_delete → v = toy_insert → ∃ d o,
    Forall2 (stored_at d) [0; o] [u; v] ∧
    Forall (λ v, predicate_id v = 4 ∧ update_at (mkst 8 1 256) (update_of v) ∧ fuel_ok 3 (update_of v)) [u; v]).
  { intros u v Hu Hv. destruct (Hok u) as [Hw Hu']; [tauto|]. destruct (Hok v) as [Hw' Hv']; [tauto|].
    destruct (toy_records u v Hw Hw') as (d & o & H1 & H2). exists d, o.
    split; repeat (constructor; [done|]); constructor. }
  split.
  - destruct (Hboth toy_both toy_insert) as (d & o & H1 & H2); [by left|done|]. exists d, o.
    destruct (compaction_keeps_effect (mkst 8 1 256) 4 3 d 0 [o] toy_both [toy_insert] (get_reader (Some d)) H1 H2)
      as (merged & ifs' & E & _ & _ & _ & He); [done|]. by exists merged, ifs'.
  - destruct (Hboth toy_delete toy_insert) as (d & o & H1 & H2); [by right|done|]. exists d, o.
    destruct (compaction_keeps_effect (mkst 8 1 256) 4 3 d 0 [o] toy_delete [toy_insert] (get_reader (Some d)) H1 H2)
      as (merged & ifs' & E & _ & _ & _ & He); [done|]. exists merged, ifs'. split; [exact E|].
    rewrite He. split; [by vm_compute|]. set_solver.
Defined.
Lemma compaction_drops_inserts_witness :
  ∃ merged, merge_with 3 (mkPredicateUpdate 4 None (Some toy_tree))
      (mkPredicateUpdate 4 (Some toy_tree) None) = Ret (Some merged) ∧
    add_update merged = None ∧ ∀ s, effect merged s ⊆ s.
Proof.
  apply (compaction_drops_inserts (mkst 8 1 256));
    [split; [done|apply toy_tree_at]|split; [apply toy_tree_at|done]|done|].
  split; by apply Nat.ltb_lt.
Defined.

Definition toy_logger : UpdatesLoggerImpl (list (Z * Z * bool)) :=
  mkLogger [] (Some [1; 2; 3]) None None None None (get_reader_writer None) {[ 9 := [0] ]} (Some 1).

Lemma log_truncates_witness :
  ∃ l' seg, log [toy_insert] toy_logger = Ret l' ∧ index_logs l' = Some seg ∧
    segment_of [toy_insert] seg ∧
    ∀ p, has_predicate_stored p toy_logger = true → has_predicate_stored p l' = true.
Proof.
  apply (log_truncates [toy_insert] toy_logger 1 [(4, 0, true)]);
    [apply (Forall_inv_tail toy_updates_wf)|done|done|done|lia].
Defined.

Lemma count_lost_after_clean_witness :
  ∃ l', log [toy_insert] (clean_append_log toy_logger) = Ret l' ∧ logs_number l' = Ret 1 ∧
    is_Some (index_logs l') ∧
    ∀ l1, new_UpdatesLoggerImpl [] (index_logs l') (offsets_file l') (metadata_file l') = Ret l1 →
      logs_number l1 = UB ∧ recover_all l1 = UB.
Proof.
  apply (count_lost_after_clean [toy_insert] toy_logger [(4, 0, true)] []);
    [apply (Forall_inv_tail toy_updates_wf)|done].
Defined.
End witnesses.
