(* ===== verification/PredicatesIndex.v ===== *)
(** * core/manager: the index file and the trees in memory

    [PredicatesIndexCacheMD] keeps the trees of the index file that are in
    memory, the predicates created since, and which of them changed; it writes
    a new index file from both, and loads trees on demand, replaying the log of
    updates over them. The log is reached through the object the index belongs
    to, an interface ([UpdatesLogHost]) that Manager.v implements. *)
From S2P Require Import Prelude Streams Memory Blocks K2Tree Scanners Fetcher Hashing.

Local Open Scope Z_scope.

(** ** PredicatesCacheMetadata.cpp *)

Record PredicateMetadata := mkMeta {
  md_predicate_id : Z;
  tree_offset : Z;
  tree_size : Z;            (* serialized size *)
  tree_size_in_memory : Z;
  priority : Z;
  k2tree_hash : list Z
}.
(** [PredicateMetadata{}]. *)
Definition zero_metadata : PredicateMetadata := mkMeta 0 0 0 0 0 (replicate 16 0).

Definition metadata_write (m : PredicateMetadata) : wr () :=
  write_u64 (md_predicate_id m);; write_u64 (tree_offset m);; write_u64 (tree_size m);;
  write_u64 (tree_size_in_memory m);; write_u32 (priority m);; os_write (k2tree_hash m).

(** The hash is read into an array that is not initialised. *)
Definition read_hash : rd (list Z) := λ s,
  let '(bs, s) := is_read 16 s in if decide (length bs = 16%nat) then Ret (bs, s) else UB.
Definition metadata_read : rd PredicateMetadata :=
  predicate_id ← read_u64; tree_offset ← read_u64; tree_size ← read_u64;
  tree_size_in_memory ← read_u64; priority ← read_u32; k2tree_hash ← read_hash;
  mret (mkMeta predicate_id tree_offset tree_size tree_size_in_memory priority k2tree_hash).

Record PredicatesCacheMetadata := mkCacheMetadata {
  metadata_map : gmap Z PredicateMetadata;
  predicates_ids : list Z;
  config : K2TreeConfig
}.

Definition read_metadata_entry (acc : gmap Z PredicateMetadata * list Z)
    : rd (gmap Z PredicateMetadata * list Z) :=
  current ← metadata_read;
  mret (<[md_predicate_id current := current]> acc.1, acc.2 ++ [md_predicate_id current]).
Definition cache_metadata_read : rd PredicatesCacheMetadata :=
  predicates_count ← read_u64;
  config ← config_read_from_istream;
  acc ← loop (λ acc (_ : nat), read_metadata_entry acc) (∅, []) (seq 0 (Z.to_nat predicates_count));
  mret (mkCacheMetadata acc.1 acc.2 config).

(** [metadata_map[predicate_id]] default-initialises an absent entry. *)
Definition cache_metadata_write (m : PredicatesCacheMetadata) : wr () :=
  write_u64 (Z.of_nat (length (predicates_ids m)));;
  config_write_to_ostream (config m);;
  loop (λ _ p, metadata_write (default zero_metadata (metadata_map m !! p))) () (predicates_ids m).
Definition get_predicates_count (m : PredicatesCacheMetadata) : Z :=
  u32 (Z.of_nat (length (predicates_ids m))).

(** ** PredicatesIndexCacheMD.hpp *)

(** The heap chooses the addresses of a segment and of its buffer. *)
Class Heap := {
  segment_address : MemoryManager → Z;
  buffer_address : MemoryManager → Z → Z
}.

(** [index_file] is the file by its name; [index_is] the stream open on it.
    [predicates] can hold null pointers; [update_logger] says whether the pointer
    is set. The singleton MemoryManager is part of the state. *)
Record PredicatesIndexCacheMD := mkIndex {
  index_file : option (list Z);
  index_is : istream;
  metadata : PredicatesCacheMetadata;
  predicates : gmap Z (option K2TreeMixed);
  dirty_predicates : gset Z;
  new_predicates : gset Z;
  k2tree_config : K2TreeConfig;
  memory_segments_map : gmap Z Z;
  full_memory_segment : option Z;
  update_logger : bool;
  memory_manager : MemoryManager
}.

(** [tellg] and [seekg], with the position as a number: -1 on a failed stream. *)
Definition is_tell (s : istream) : Z := if is_fail s then -1 else Z.of_nat (is_pos s).
Definition is_seek (pos : Z) (s : istream) : istream :=
  if is_fail s then s
  else if decide (pos < 0) then IStream (is_data s) (is_pos s) true
  else seekg (Z.to_nat pos) s.

Definition set_is (i : PredicatesIndexCacheMD) (s : istream) : PredicatesIndexCacheMD :=
  mkIndex (index_file i) s (metadata i) (predicates i) (dirty_predicates i) (new_predicates i)
    (k2tree_config i) (memory_segments_map i) (full_memory_segment i) (update_logger i)
    (memory_manager i).
Definition set_predicates (i : PredicatesIndexCacheMD) (ps : gmap Z (option K2TreeMixed))
    (dirty new : gset Z) : PredicatesIndexCacheMD :=
  mkIndex (index_file i) (index_is i) (metadata i) ps dirty new
    (k2tree_config i) (memory_segments_map i) (full_memory_segment i) (update_logger i)
    (memory_manager i).
Definition set_memory (i : PredicatesIndexCacheMD) (segments : gmap Z Z) (full : option Z)
    (mm : MemoryManager) : PredicatesIndexCacheMD :=
  mkIndex (index_file i) (index_is i) (metadata i) (predicates i) (dirty_predicates i)
    (new_predicates i) (k2tree_config i) segments full (update_logger i) mm.
Definition put_tree (p : Z) (t : option K2TreeMixed) (i : PredicatesIndexCacheMD)
    : PredicatesIndexCacheMD :=
  set_predicates i (<[p := t]> (predicates i)) (dirty_predicates i) (new_predicates i).

(** What the index needs of the object it belongs to: itself, and the log. *)
Class UpdatesLogHost (H : Type) := {
  index_of : H → PredicatesIndexCacheMD;
  with_index : PredicatesIndexCacheMD → H → H;
  log_has_predicate_stored : Z → H → bool;
  log_recover_predicate : Z → H → outcome H;
  log_recover_all : H → outcome H;
  log_compact_logs : nat → H → outcome (option H);
  log_get_predicates : H → outcome (list Z);
  log_clean_append_log : H → outcome H
}.

(** ** PredicatesIndexCacheMD.cpp *)

Definition new_PredicatesIndexCacheMD (file : option (list Z)) (mm : MemoryManager)
    : outcome PredicatesIndexCacheMD :=
  '(m, s) ← cache_metadata_read (get_reader file);
  Ret (mkIndex file s m ∅ ∅ ∅ (config m) ∅ None false mm).

Definition set_update_logger (i : PredicatesIndexCacheMD) : PredicatesIndexCacheMD :=
  mkIndex (index_file i) (index_is i) (metadata i) (predicates i) (dirty_predicates i)
    (new_predicates i) (k2tree_config i) (memory_segments_map i) (full_memory_segment i) true
    (memory_manager i).

Definition is_stored_in_main_index (p : Z) (i : PredicatesIndexCacheMD) : bool :=
  bool_decide (is_Some (metadata_map (metadata i) !! p)).
Definition has_predicate_active (p : Z) (i : PredicatesIndexCacheMD) : bool :=
  bool_decide (is_Some (predicates i !! p)) || bool_decide (p ∈ new_predicates i).
Definition mark_dirty (p : Z) (i : PredicatesIndexCacheMD) : PredicatesIndexCacheMD :=
  set_predicates i (predicates i) ({[ p ]} ∪ dirty_predicates i) (new_predicates i).
Definition get_metadata_with_id (p : Z) (i : PredicatesIndexCacheMD) : outcome PredicateMetadata :=
  match metadata_map (metadata i) !! p with Some m => Ret m | None => Throw StdOutOfRange end.
Definition get_predicates_ids (i : PredicatesIndexCacheMD) : list Z := predicates_ids (metadata i).
Definition get_config (i : PredicatesIndexCacheMD) : K2TreeConfig := k2tree_config i.

(** [predicates[p].get()]: looking an absent key up inserts a null pointer. *)
Definition tree_pointer (p : Z) (i : PredicatesIndexCacheMD)
    : option K2TreeMixed * PredicatesIndexCacheMD :=
  match predicates i !! p with
  | Some t => (t, i)
  | None => (None, put_tree p None i)
  end.

(** [discard_in_memory_predicate]. *)
Definition discard_in_memory_predicate (p : Z) (i : PredicatesIndexCacheMD)
    : PredicatesIndexCacheMD :=
  let i := set_predicates i (delete p (predicates i)) (dirty_predicates i ∖ {[ p ]})
             (new_predicates i ∖ {[ p ]}) in
  match memory_segments_map i !! p with
  | None => i
  | Some segment =>
      set_memory i (delete p (memory_segments_map i)) (full_memory_segment i)
        (free_segment segment (memory_manager i))
  end.

Section index.
Context `{Hp : Heap, Blk : BlockLib, Lib : K2Lib, Ssl : OpenSSL}.

Definition add_predicate (p : Z) (i : PredicatesIndexCacheMD) : PredicatesIndexCacheMD :=
  set_predicates i (<[p := Some (new_K2TreeMixed (k2tree_config i))]> (predicates i))
    ({[ p ]} ∪ dirty_predicates i) ({[ p ]} ∪ new_predicates i).

(** A new segment, as the object the manager files and the buffer it has. *)
Definition allocate_segment (size : Z) (mm : MemoryManager)
    : Z * MemorySegment * MemoryManager :=
  let address := buffer_address mm size in
  let '(ptr, mm) := new_memory_segment size (segment_address mm) address mm in
  (ptr, new_segment address size, mm).

(** The part of [load_single_predicate] that reads the index file. *)
Definition read_stored_tree (md : PredicateMetadata) (i : PredicatesIndexCacheMD)
    : outcome PredicatesIndexCacheMD :=
  let pos := is_tell (index_is i) in
  let '(ptr, segment, mm) := allocate_segment (tree_size_in_memory md) (memory_manager i) in
  '(t, (s, _)) ← read_from_istream_seg (is_seek (s64 (tree_offset md)) (index_is i), segment);
  Ret (put_tree (md_predicate_id md) (Some t)
         (set_memory (set_is i (is_seek pos s))
            (<[md_predicate_id md := ptr]> (memory_segments_map i)) (full_memory_segment i) mm)).

(** One entry of the new file: the bytes of a clean tree are copied from the
    old file, a dirty one is written from memory. *)
Definition sync_tree (i : PredicatesIndexCacheMD) (acc : gmap Z PredicateMetadata * istream) (p : Z)
    : wr (gmap Z PredicateMetadata * istream) :=
  offset ← tellp;
  if decide (p ∉ dirty_predicates i) then
    current_md ← lift (get_metadata_with_id p i);
    let '(got, s) := is_read (Z.to_nat (tree_size current_md))
                       (is_seek (s64 (tree_offset current_md)) acc.2) in
    os_write (got ++ replicate (Z.to_nat (tree_size current_md) - length got) 0);;
    mret (<[p := mkMeta p (u64 (Z.of_nat offset)) (tree_size current_md)
                   (tree_size_in_memory current_md) 0 (k2tree_hash current_md)]> acc.1, s)
  else
    t ← lift (deref (mjoin (predicates i !! p)));
    '(sz, k2tree_str) ← lift (file_of (write_to_ostream t));
    os_write k2tree_str;;
    mret (<[p := mkMeta p (u64 (Z.of_nat offset)) sz (measure_in_memory_size t) 0
                   (md5calc k2tree_str)]> acc.1, acc.2).

Definition all_predicates (i : PredicatesIndexCacheMD) : list Z :=
  merge_sort Z.le (elements (new_predicates i) ++ (map_to_list (metadata_map (metadata i))).*1).

Definition sync_to_stream (i : PredicatesIndexCacheMD) : wr PredicatesIndexCacheMD :=
  let all := all_predicates i in
  write_u64 (Z.of_nat (length all));;
  config_write_to_ostream (k2tree_config i);;
  metadata_start ← tellp;
  loop (λ _ _, metadata_write zero_metadata) () all;;
  '(new_metadata_map, s) ←
    loop (sync_tree i) (list_to_map ((λ p, (p, zero_metadata)) <$> all), index_is i) all;
  last_pos ← tellp;
  seekp metadata_start;;
  loop (λ _ p, metadata_write (default zero_metadata (new_metadata_map !! p))) () all;;
  seekp last_pos;;
  mret (mkIndex (index_file i) s (mkCacheMetadata new_metadata_map all (k2tree_config i))
          (predicates i) (dirty_predicates i) (new_predicates i) (k2tree_config i)
          (memory_segments_map i) (full_memory_segment i) (update_logger i) (memory_manager i)).

(** [sync_to_persistent]: the new file replaces the old, and is opened again. *)
Definition sync_to_persistent (i : PredicatesIndexCacheMD) : outcome PredicatesIndexCacheMD :=
  '(i, data) ← file_of (sync_to_stream i);
  Ret (mkIndex (Some data) (get_reader (Some data)) (metadata i) (predicates i)
         (dirty_predicates i) (new_predicates i) (k2tree_config i) (memory_segments_map i)
         (full_memory_segment i) (update_logger i) (memory_manager i)).

Section host.
Context {H : Type} `{UpdatesLogHost H}.

Definition on_index (f : PredicatesIndexCacheMD → PredicatesIndexCacheMD) (h : H) : H :=
  with_index (f (index_of h)) h.

Definition is_stored_in_updates_log (p : Z) (h : H) : bool :=
  update_logger (index_of h) && log_has_predicate_stored p h.
Definition has_predicate_stored (p : Z) (h : H) : bool :=
  is_stored_in_main_index p (index_of h) || is_stored_in_updates_log p h.
Definition has_predicate (p : Z) (h : H) : bool :=
  has_predicate_active p (index_of h) || has_predicate_stored p h.

Definition load_single_predicate (p : Z) (h : H) : outcome (bool * H) :=
  if negb (is_stored_in_main_index p (index_of h)) && negb (is_stored_in_updates_log p h)
  then Ret (false, h)
  else
    h ← (if is_stored_in_main_index p (index_of h) then
           md ← get_metadata_with_id p (index_of h);
           i ← read_stored_tree md (index_of h);
           Ret (with_index i h)
         else Ret h);
    h ← (if update_logger (index_of h) && is_stored_in_updates_log p h
         then log_recover_predicate p h else Ret h);
    Ret (true, h).

(** The same names as the interface K2TreeFetcher.hpp, which the class instance
    below gives. *)
Definition index_fetch_k2tree (p : Z) (h : H) : outcome (PredicateFetchResult * H) :=
  '(found, h) ← (match predicates (index_of h) !! p with
                 | Some _ => Ret (true, h)
                 | None => load_single_predicate p h
                 end);
  if negb found then Ret (mkFetch false None, h)
  else
    h ← (if negb (has_predicate_active p (index_of h)) && is_stored_in_updates_log p h
         then log_recover_predicate p (on_index (add_predicate p) h) else Ret h);
    let '(t, i) := tree_pointer p (index_of h) in
    Ret (mkFetch true t, with_index i h).

Definition index_fetch_k2tree_if_loaded (p : Z) (h : H) : outcome (PredicateFetchResult * H) :=
  match predicates (index_of h) !! p with
  | Some t => Ret (mkFetch true t, h)
  | None => Ret (mkFetch (has_predicate_stored p h) None, h)
  end.

#[global] Instance index_fetcher : K2TreeFetcher H := {|
  fetch_k2tree := index_fetch_k2tree;
  fetch_k2tree_if_loaded := index_fetch_k2tree_if_loaded
|}.

Definition insert_point (subject_index p object_index : Z) (h : H) : outcome H :=
  let h := on_index (mark_dirty p) h in
  let predicate_active := has_predicate_active p (index_of h) in
  let predicate_stored := has_predicate_stored p h in
  h ← (if predicate_stored && negb predicate_active then
         '(_, h) ← load_single_predicate p h; Ret h
       else if negb predicate_stored && negb predicate_active
       then Ret (on_index (add_predicate p) h) else Ret h);
  t ← deref (mjoin (predicates (index_of h) !! p));
  Ret (on_index (put_tree p (Some (insert subject_index object_index t))) h).

(** [load_all_predicates]: all the trees of the file, one after the other, into
    one segment. *)
Definition total_in_memory (i : PredicatesIndexCacheMD) : outcome Z :=
  foldM (λ total p, md ← get_metadata_with_id p i; Ret (u64 (total + tree_size_in_memory md)))
    0 (predicates_ids (metadata i)).
Definition read_next_tree (acc : istream * MemorySegment * PredicatesIndexCacheMD) (p : Z)
    : outcome (istream * MemorySegment * PredicatesIndexCacheMD) :=
  '(t, (s, segment)) ← read_from_istream_seg acc.1;
  Ret (s, segment, put_tree p (Some t) acc.2).
Definition load_trees (i : PredicatesIndexCacheMD) : outcome PredicatesIndexCacheMD :=
  total_bytes ← total_in_memory i;
  let '(ptr, segment, mm) := allocate_segment total_bytes (memory_manager i) in
  s ← (match predicates_ids (metadata i) with
       | [] => Ret (index_is i)
       | p :: _ => md ← get_metadata_with_id p i;
                   Ret (is_seek (s64 (tree_offset md)) (index_is i))
       end);
  '(s, _, i) ← foldM read_next_tree
    (s, segment, set_memory i (memory_segments_map i) (Some ptr) mm) (predicates_ids (metadata i));
  Ret (set_is i s).
Definition load_all_predicates (h : H) : outcome H :=
  i ← load_trees (index_of h);
  let h := with_index i h in
  if update_logger i then log_recover_all h else Ret h.

(** [clean_up_bulk_sync] and [sync_logs_to_indexes]; the threshold is one
    gigabyte. *)
Definition clean_up_bulk_sync (loaded_predicates : gset Z) (h : H) : outcome H :=
  i ← sync_to_persistent (index_of h);
  Ret (with_index (foldr discard_in_memory_predicate i (reverse (elements loaded_predicates))) h).
Definition sync_step (acc : H * gset Z * Z) (p : Z) : outcome (H * gset Z * Z) :=
  let '(h, loaded_predicates, total_sz) := acc in
  if has_predicate_active p (index_of h) then Ret acc
  else
    '(fetched, h) ← index_fetch_k2tree p h;
    if negb (exists_tree fetched) then Ret (h, loaded_predicates, total_sz)
    else
      t ← fetch_get fetched;
      let loaded_predicates := {[ p ]} ∪ loaded_predicates in
      let total_sz := u64 (total_sz + measure_in_memory_size t) in
      if decide (1000000000 ≤ total_sz) then
        h ← clean_up_bulk_sync loaded_predicates h; Ret (h, ∅, 0)
      else Ret (h, loaded_predicates, total_sz).
Definition sync_logs_to_indexes (fuel : nat) (h : H) : outcome (option H) :=
  if negb (update_logger (index_of h)) then Throw RuntimeError
  else
    m ← log_compact_logs fuel h;
    match m with
    | None => Ret None
    | Some h =>
        logger_predicates ← log_get_predicates h;
        '(h, loaded_predicates, total_sz) ← foldM sync_step (h, ∅, 0) logger_predicates;
        h ← (if decide (0 < total_sz) then clean_up_bulk_sync loaded_predicates h else Ret h);
        Ret (Some h)
    end.
Definition full_sync_logs_and_memory_with_persistent (fuel : nat) (h : H) : outcome (option H) :=
  i ← sync_to_persistent (index_of h);
  m ← sync_logs_to_indexes fuel (with_index i h);
  match m with
  | None => Ret None
  | Some h => h ← log_clean_append_log h; Ret (Some h)
  end.
End host.
End index.

(** ** The metadata on a stream *)

Definition metadata_bytes (m : PredicateMetadata) : list Z :=
  be_encode 8 (md_predicate_id m) ++ be_encode 8 (tree_offset m) ++ be_encode 8 (tree_size m) ++
  be_encode 8 (tree_size_in_memory m) ++ be_encode 4 (priority m) ++ k2tree_hash m.
Record metadata_wf (m : PredicateMetadata) : Prop := {
  mw_id : in_u 64 (md_predicate_id m);
  mw_offset : in_u 64 (tree_offset m);
  mw_size : in_u 64 (tree_size m);
  mw_memory : in_u 64 (tree_size_in_memory m);
  mw_priority : in_u 32 (priority m);
  mw_hash : length (k2tree_hash m) = 16%nat
}.

Lemma length_metadata_bytes m :
  length (k2tree_hash m) = 16%nat → length (metadata_bytes m) = 52%nat.
Proof. intros Hh. unfold metadata_bytes. rewrite !length_app, !length_be_encode, Hh. done. Qed.

Lemma metadata_emits m : emits (metadata_write m) (metadata_bytes m) ().
Proof.
  unfold metadata_write, metadata_bytes.
  do 4 apply (emits_bind _ _ _ _ _ _ (emits_u64 _)).
  apply (emits_bind _ _ _ _ _ _ (emits_u32 _)), emits_write.
Qed.
Lemma metadata_overwrites m : overwrites (metadata_write m) (metadata_bytes m) ().
Proof.
  unfold metadata_write, metadata_bytes.
  do 5 apply (overwrites_bind _ _ _ _ _ _ (overwrites_write _)). apply overwrites_write.
Qed.

Lemma parses_hash bs : length bs = 16%nat → parses read_hash bs bs.
Proof.
  intros Hl. apply parses_intro. intros pre post. unfold read_hash.
  rewrite is_read_at by done. by rewrite decide_True.
Qed.
Lemma metadata_parses m : metadata_wf m → parses metadata_read (metadata_bytes m) m.
Proof.
  intros [H1 H2 H3 H4 H5 H6]. unfold metadata_read, metadata_bytes.
  apply (parses_bind _ _ _ _ _ _ (parses_u64 _ H1)), (parses_bind _ _ _ _ _ _ (parses_u64 _ H2)).
  apply (parses_bind _ _ _ _ _ _ (parses_u64 _ H3)), (parses_bind _ _ _ _ _ _ (parses_u64 _ H4)).
  apply (parses_bind _ _ _ _ _ _ (parses_u32 _ H5)).
  destruct m as [id off sz mem pr h]. simpl in *.
  apply (parses_bind_ret read_hash (mkMeta id off sz mem pr)). by apply parses_hash.
Qed.

Definition config_bytes (c : K2TreeConfig) : list Z :=
  be_encode 4 (treedepth c) ++ be_encode 4 (max_node_count c) ++ be_encode 4 (cfg_cut_depth c).
Definition config_wf (c : K2TreeConfig) : Prop :=
  in_u 32 (treedepth c) ∧ in_u 32 (max_node_count c) ∧ in_u 32 (cfg_cut_depth c).
Lemma config_emits c : emits (config_write_to_ostream c) (config_bytes c) ().
Proof.
  unfold config_write_to_ostream, config_bytes.
  do 2 apply (emits_bind _ _ _ _ _ _ (emits_u32 _)). apply emits_u32.
Qed.
Lemma config_parses c : config_wf c → parses config_read_from_istream (config_bytes c) c.
Proof.
  intros (H1 & H2 & H3). unfold config_read_from_istream, config_bytes.
  apply (parses_bind _ _ _ _ _ _ (parses_u32 _ H1)), (parses_bind _ _ _ _ _ _ (parses_u32 _ H2)).
  destruct c as [td mx cd]. simpl in *.
  apply (parses_bind_ret read_u32 (mkConfig td mx)). by apply parses_u32.
Qed.

(** The header of an index file: its metadata come in the order of the ids, and
    each is filed under its id. *)
Definition header_bytes (m : PredicatesCacheMetadata) : list Z :=
  be_encode 8 (Z.of_nat (length (predicates_ids m))) ++ config_bytes (config m) ++
  (predicates_ids m ≫= λ p, metadata_bytes (default zero_metadata (metadata_map m !! p))).
Record header_wf (m : PredicatesCacheMetadata) : Prop := {
  hw_count : in_u 64 (Z.of_nat (length (predicates_ids m)));
  hw_config : config_wf (config m);
  hw_ids p : p ∈ predicates_ids m ↔ is_Some (metadata_map m !! p);
  hw_entries p md : metadata_map m !! p = Some md → md_predicate_id md = p ∧ metadata_wf md
}.

Lemma cache_metadata_emits m : emits (cache_metadata_write m) (header_bytes m) ().
Proof.
  apply (emits_bind _ _ _ _ _ _ (emits_u64 _)), (emits_bind _ _ _ _ _ _ (config_emits _)).
  apply emits_loop_unit. intros p _. apply metadata_emits.
Qed.

Lemma fold_entries (m : gmap Z PredicateMetadata) ids (acc : gmap Z PredicateMetadata) acc2 :
  (∀ p md, acc !! p = Some md → m !! p = Some md) →
  (∀ p, p ∈ ids → ∃ md, m !! p = Some md ∧ md_predicate_id md = p) →
  let r := fold_left (λ acc p, (<[md_predicate_id (default zero_metadata (m !! p)) :=
             default zero_metadata (m !! p)]> acc.1,
             acc.2 ++ [md_predicate_id (default zero_metadata (m !! p))])) ids (acc, acc2) in
  r.2 = acc2 ++ ids ∧ (∀ p md, r.1 !! p = Some md → m !! p = Some md) ∧
  (∀ p, p ∈ ids ∨ is_Some (acc !! p) → r.1 !! p = m !! p).
Proof.
  revert acc acc2. induction ids as [|p ids IH]; intros acc acc2 Hacc Hids; simpl.
  { rewrite app_nil_r. split_and!; [done|done|]. intros p [Hp|[md Hp]]; [by apply not_elem_of_nil in Hp|].
    by rewrite Hp, (Hacc _ _ Hp). }
  destruct (Hids p) as (md & Hm & Hid); [by left|]. rewrite Hm. simpl. rewrite Hid.
  destruct (IH (<[p:=md]> acc) (acc2 ++ [p])) as (E2 & Hsub & Hall).
  { intros q mq. rewrite lookup_insert. case_decide; [by intros [= <-]; subst|apply Hacc]. }
  { intros q Hq. apply Hids. by right. }
  split_and!; [by rewrite E2, <-(assoc_L (++))|done|].
  intros q Hq. apply Hall. rewrite elem_of_cons, lookup_insert in *.
  destruct (decide (p = q)) as [->|]; [right; by eexists|]. destruct Hq as [[?|?]|?]; auto; congruence.
Qed.

Lemma cache_metadata_parses m :
  header_wf m → parses cache_metadata_read (header_bytes m) m.
Proof.
  intros [Hn Hc Hids Hent]. unfold cache_metadata_read, header_bytes.
  apply (parses_bind _ _ _ _ _ _ (parses_u64 _ Hn)).
  apply (parses_bind _ _ _ _ _ _ (config_parses _ Hc)).
  rewrite Nat2Z.id.
  destruct (fold_entries (metadata_map m) (predicates_ids m) ∅ []) as (E2 & Hsub & Hall).
  { intros p md. by rewrite lookup_empty. }
  { intros p [md Hp]%Hids. exists md. split; [done|]. by apply Hent. }
  eapply parses_eq; [eapply (parses_bind_ret _ (λ acc, mkCacheMetadata acc.1 acc.2 (config m)));
    apply (parses_count read_metadata_entry
      (λ p, metadata_bytes (default zero_metadata (metadata_map m !! p)))
      (λ acc p, (<[md_predicate_id (default zero_metadata (metadata_map m !! p)) :=
             default zero_metadata (metadata_map m !! p)]> acc.1,
             acc.2 ++ [md_predicate_id (default zero_metadata (metadata_map m !! p))])))| |].
  - intros p acc [md Hp]%Hids. rewrite Hp. simpl.
    apply (parses_bind_ret metadata_read (λ current,
      (<[md_predicate_id current := current]> acc.1, acc.2 ++ [md_predicate_id current]))).
    apply metadata_parses, (Hent _ _ Hp).
  - done.
  - destruct m as [map ids c]. simpl in *. f_equal; [|exact E2].
    apply map_eq. intros p. destruct (map !! p) as [md|] eqn:Ep.
    + rewrite <-Ep. apply Hall. left. apply Hids. by eexists.
    + apply eq_None_not_Some. intros [md Hp]. apply Hsub in Hp. congruence.
Qed.

(** The header of the index file is read back as it was written: the
    configuration, the ids in their order and the metadata of each. *)
Theorem metadata_roundtrip m post : header_wf m →
  ∃ bytes, file_of (cache_metadata_write m) = Ret ((), bytes) ∧
    cache_metadata_read (stream_at [] (bytes ++ post)) = Ret (m, stream_at bytes post).
Proof.
  intros Hw. exists (header_bytes m).
  split; [apply file_of_emits, cache_metadata_emits|].
  apply (parses_at _ _ _ [] post (cache_metadata_parses m Hw)).
Qed.

(** ** Well-formed indexes *)

Section invariant.
Context `{Hp : Heap, Blk : BlockLib, !BlockLibLaws, Lib : K2Lib, !K2LibLaws, Ssl : OpenSSL}.

Definition config_qw (c : K2TreeConfig) : K2QStateWrapper :=
  mkst (treedepth c) (cfg_cut_depth c) (max_node_count c).
(** A tree of the library, of the configuration of the index. *)
Definition good_tree (c : K2TreeConfig) (t : K2TreeMixed) : Prop :=
  tm_ok t ∧ create_k2qw t = config_qw c.
Definition encodes (t : K2TreeMixed) (bytes : list Z) : Prop :=
  emits (write_to_ostream t) bytes (u64 (Z.of_nat (length bytes))).

(** The file has, where the metadata say, the bytes of a tree, and loading it
    takes no more memory than they say. *)
Definition stored_tree (d : list Z) (c : K2TreeConfig) (md : PredicateMetadata) (t : K2TreeMixed)
    : Prop :=
  tm_wf t ∧ good_tree c t ∧ 0 ≤ tree_offset md < 2 ^ 63 ∧
  Z.of_nat (tm_mem t) ≤ tree_size_in_memory md ∧ in_u 64 (tree_size_in_memory md) ∧
  ∃ pre bytes post, d = pre ++ bytes ++ post ∧ tree_offset md = Z.of_nat (length pre) ∧
    tree_size md = Z.of_nat (length bytes) ∧ encodes t bytes.

Record index_ok (d : list Z) (i : PredicatesIndexCacheMD) : Prop := {
  ix_file : index_file i = Some d;
  ix_is : ∃ pos, index_is i = IStream d pos false;
  ix_config : config_wf (k2tree_config i);
  ix_ids p : p ∈ predicates_ids (metadata i) ↔ is_Some (metadata_map (metadata i) !! p);
  ix_stored p md : metadata_map (metadata i) !! p = Some md →
    metadata_wf md ∧ md_predicate_id md = p ∧ ∃ t, stored_tree d (k2tree_config i) md t;
  ix_trees p o : predicates i !! p = Some o → ∃ t, o = Some t ∧ good_tree (k2tree_config i) t;
  ix_clean p t : predicates i !! p = Some (Some t) → p ∉ dirty_predicates i →
    ∃ md t0, metadata_map (metadata i) !! p = Some md ∧
      stored_tree d (k2tree_config i) md t0 ∧ pts t = pts t0;
  ix_dirty p : p ∈ dirty_predicates i → is_Some (predicates i !! p);
  ix_new p : p ∈ new_predicates i → p ∈ dirty_predicates i ∧ in_u 64 p;
  ix_known p : is_Some (predicates i !! p) →
    p ∈ new_predicates i ∨ is_Some (metadata_map (metadata i) !! p)
}.

(** Bytes of a tree, read by either reader. *)
Lemma encodes_functional t bytes bytes' : encodes t bytes → encodes t bytes' → bytes = bytes'.
Proof.
  intros H1 H2. pose proof (emits_at _ _ _ [] H1) as E1. rewrite (emits_at _ _ _ [] H2) in E1.
  by injection E1.
Qed.
Lemma same_good c t t' : good_tree c t → points_count t' = points_count t →
  create_k2qw t' = create_k2qw t →
  view (Z.to_nat (cut_depth t)) (root t') = view (Z.to_nat (cut_depth t)) (root t) →
  good_tree c t' ∧ pts t' = pts t.
Proof.
  intros [Hok Hq] H1 H2 H3. destruct (tm_ok_view t t') as [Hok' Hp']; [done..|].
  split; [|done]. split; [done|congruence].
Qed.
Lemma encodes_heap c t bytes : tm_wf t → good_tree c t → encodes t bytes →
  ∃ t', parses read_from_istream bytes t' ∧ good_tree c t' ∧ pts t' = pts t.
Proof.
  intros Hw Hg He. destruct (tree_codec create_null t Hw) as (b & t' & He' & Hr & H1 & H2 & H3).
  rewrite (encodes_functional t bytes b He He'). exists t'. split; [done|]. by apply same_good.
Qed.
Lemma encodes_segment c t bytes : tm_wf t → good_tree c t → encodes t bytes →
  ∃ t', does (H := mem_effect) read_from_istream_seg (bytes, tm_mem t) t' ∧
    good_tree c t' ∧ pts t' = pts t.
Proof.
  intros Hw Hg He. destruct (tree_codec_seg t Hw) as (b & t' & He' & Hr & H1 & H2 & H3).
  rewrite (encodes_functional t bytes b He He'). exists t'. split; [done|]. by apply same_good.
Qed.

Lemma is_seek_live d q pos : 0 ≤ pos → is_seek pos (IStream d q false) = IStream d (Z.to_nat pos) false.
Proof. intros Hpos. unfold is_seek. simpl. by rewrite decide_False by lia. Qed.

(** The points of a stored tree, as a reader would find them. *)
Definition stored_pts (d : list Z) (md : PredicateMetadata) : gset (Z * Z) :=
  match read_from_istream (IStream d (Z.to_nat (tree_offset md)) false) with
  | Ret (t, _) => pts t
  | _ => ∅
  end.
Lemma stored_pts_spec d c md t : stored_tree d c md t → stored_pts d md = pts t.
Proof.
  intros (Hw & Hg & _ & _ & _ & pre & bytes & post & -> & Eo & _ & He).
  destruct (encodes_heap c t bytes Hw Hg He) as (t' & Hr & _ & Hpts).
  unfold stored_pts. rewrite Eo, Nat2Z.id.
  change (IStream (pre ++ bytes ++ post) (length pre) false) with (stream_at pre (bytes ++ post)).
  by rewrite (parses_at _ _ _ _ _ Hr).
Qed.

(** Loading the tree of an entry. *)
Lemma read_stored_tree_spec d i p md t : index_ok d i →
  metadata_map (metadata i) !! p = Some md → stored_tree d (k2tree_config i) md t →
  ∃ t' segments full mm, read_stored_tree md i =
      Ret (put_tree p (Some t') (set_memory i segments full mm)) ∧
    good_tree (k2tree_config i) t' ∧ pts t' = pts t.
Proof.
  intros Hok Hmd (Hw & Hg & Hoff & Hmem & Hsz & pre & bytes & post & Ed & Eo & Es & He).
  destruct (ix_stored d i Hok p md Hmd) as (_ & Hid & _). destruct (ix_is d i Hok) as [pos Eis].
  destruct (encodes_segment _ t bytes Hw Hg He) as (t' & Hd & Hg' & Hpts).
  unfold read_stored_tree, allocate_segment, new_memory_segment.
  set (address := buffer_address _ _). rewrite Eis.
  unfold s64. rewrite to_signed_nonneg, is_seek_live by (done || lia). rewrite Eo, Nat2Z.id.
  rewrite (Hd (IStream d (length pre) false, new_segment address (tree_size_in_memory md))
    (IStream d (length (pre ++ bytes)) false,
     advance (Z.of_nat (tm_mem t)) (new_segment address (tree_size_in_memory md)))).
  2: { split; [exists pre, post; split; simpl|split; [split; [exact Hsz|]|split]].
       - unfold stream_at. by rewrite Ed.
       - unfold stream_at. by rewrite Ed, <-(assoc_L (++)).
       - simpl. unfold in_u in Hsz. lia.
       - unfold available. simpl. lia.
       - done. }
  cbn [mbind outcome_bind]. rewrite Hid.
  unfold is_tell. simpl is_fail. cbn iota. simpl is_pos. rewrite is_seek_live, Nat2Z.id by lia.
  eexists t', _, _, _. split; [|done]. unfold put_tree, set_memory, set_is. simpl.
  rewrite Eis. reflexivity.
Qed.

Lemma put_loaded_ok d i p md t t' segments full mm : index_ok d i →
  metadata_map (metadata i) !! p = Some md → stored_tree d (k2tree_config i) md t →
  predicates i !! p = None → good_tree (k2tree_config i) t' → pts t' = pts t →
  index_ok d (put_tree p (Some t') (set_memory i segments full mm)).
Proof.
  intros [Hf His Hc Hids Hst Htr Hcl Hdi Hne Hkn] Hmd Hs Hnone Hg Hpts.
  constructor; simpl; try done.
  - intros q o. rewrite lookup_insert. case_decide; [intros [= <-]; by exists t'|by apply Htr].
  - intros q u. rewrite lookup_insert. case_decide; [|by apply Hcl].
    intros [= <-] _. subst q. by exists md, t.
  - intros q Hq. rewrite lookup_insert. case_decide; [by eexists|by apply Hdi].
  - intros q. rewrite lookup_insert. case_decide; [|apply Hkn]. intros _. right. subst q. by eexists.
Qed.
End invariant.

(** ** What a host promises, and what the index then provides *)

Section host_laws.
Context `{Hp : Heap, Blk : BlockLib, !BlockLibLaws, Lib : K2Lib, !K2LibLaws, Ssl : OpenSSL}.

(** Everything but predicate [p] is as it was. *)
Definition same_but (p : Z) (i i' : PredicatesIndexCacheMD) : Prop :=
  (∀ q, q ≠ p → predicates i' !! q = predicates i !! q) ∧
  metadata i' = metadata i ∧ k2tree_config i' = k2tree_config i ∧
  update_logger i' = update_logger i.

(** Replaying updates with effect [f] on predicate [p]: a tree in memory takes
    their effect; without one, a tree is created for it, unless there was
    nothing to insert. *)
Definition replayed (p : Z) (f : gset (Z * Z) → gset (Z * Z)) (i i' : PredicatesIndexCacheMD) : Prop :=
  same_but p i i' ∧
  match predicates i !! p with
  | Some (Some t) => ∃ t', predicates i' !! p = Some (Some t') ∧ pts t' = f (pts t)
  | _ => (predicates i' !! p = None ∧ p ∉ new_predicates i' ∧ f ∅ = ∅) ∨
         ∃ t', predicates i' !! p = Some (Some t') ∧ pts t' = f ∅
  end.

(** The points of a predicate, log aside. *)
Definition main_points (d : list Z) (i : PredicatesIndexCacheMD) (p : Z) : option (gset (Z * Z)) :=
  match predicates i !! p with
  | Some (Some t) => Some (pts t)
  | _ => stored_pts d <$> metadata_map (metadata i) !! p
  end.
(** [i'] may know more predicates than [i]. *)
Definition extends (d : list Z) (i i' : PredicatesIndexCacheMD) : Prop :=
  k2tree_config i' = k2tree_config i ∧
  ∀ q P, main_points d i q = Some P → main_points d i' q = Some P.

Class UpdatesLogHostLaws (Host : Type) `{UpdatesLogHost Host} := {
  host_ok : Host → Prop;
  log_effect : Host → Z → gset (Z * Z) → gset (Z * Z);
  index_with i h : index_of (with_index i h) = i;
  with_self h : with_index (index_of h) h = h;
  has_range p h : host_ok h → log_has_predicate_stored p h = true → in_u 64 p;
  has_with i h p : log_has_predicate_stored p (with_index i h) = log_has_predicate_stored p h;
  effect_with i h p s : log_effect (with_index i h) p s = log_effect h p s;
  ok_with d i h : host_ok h → index_ok d (index_of h) → index_ok d i →
    extends d (index_of h) i → host_ok (with_index i h);
  recover_law p h d : host_ok h → index_ok d (index_of h) → log_has_predicate_stored p h = true →
    ∃ h', log_recover_predicate p h = Ret h' ∧ host_ok h' ∧ index_ok d (index_of h') ∧
      (∀ q, log_has_predicate_stored q h' = log_has_predicate_stored q h) ∧
      (∀ q s, log_effect h' q s = log_effect h q s) ∧
      replayed p (log_effect h p) (index_of h) (index_of h')
}.
End host_laws.

Section fetching.
Context `{Hp : Heap, Blk : BlockLib, !BlockLibLaws, Lib : K2Lib, !K2LibLaws, Ssl : OpenSSL}.
Context {Host : Type} `{UH : UpdatesLogHost Host, HL : !UpdatesLogHostLaws Host}.

(** The points of a predicate: those in memory or, until it is loaded, those of
    the file with the effect of the log. *)
Definition logged (p : Z) (h : Host) (s : gset (Z * Z)) : gset (Z * Z) :=
  if is_stored_in_updates_log p h then log_effect h p s else s.
Definition index_points (d : list Z) (h : Host) (p : Z) : option (gset (Z * Z)) :=
  match predicates (index_of h) !! p with
  | Some (Some t) => Some (pts t)
  | _ =>
      match metadata_map (metadata (index_of h)) !! p with
      | Some md => Some (logged p h (stored_pts d md))
      | None => if is_stored_in_updates_log p h then Some (log_effect h p ∅) else None
      end
  end.

(** Two hosts with the same log, index file and other predicates. *)
Definition same_log (h h' : Host) : Prop :=
  (∀ q, log_has_predicate_stored q h' = log_has_predicate_stored q h) ∧
  (∀ q s, log_effect h' q s = log_effect h q s).

Lemma same_points d p h h' q : same_log h h' → same_but p (index_of h) (index_of h') → q ≠ p →
  index_points d h' q = index_points d h q.
Proof.
  intros [Hhas Heff] (Hq & Hm & Hc & Hl) Hne.
  unfold index_points, logged, is_stored_in_updates_log. rewrite Hq, Hm, Hl, Hhas by done.
  repeat case_match; by rewrite ?Heff.
Qed.

Definition fetch_ok (d : list Z) (h : Host) : Prop := host_ok h ∧ index_ok d (index_of h).

(** The step that replays the log, for a tree that is in memory. *)
Lemma recover_active p h d t : fetch_ok d h → log_has_predicate_stored p h = true →
  predicates (index_of h) !! p = Some (Some t) →
  ∃ h' t', log_recover_predicate p h = Ret h' ∧ fetch_ok d h' ∧ same_log h h' ∧
    same_but p (index_of h) (index_of h') ∧
    predicates (index_of h') !! p = Some (Some t') ∧ pts t' = log_effect h p (pts t).
Proof.
  intros [Hh Hi] Hlog Ht. destruct (recover_law p h d Hh Hi Hlog)
    as (h' & E & Hh' & Hi' & H1 & H2 & Hs & Hrep). rewrite Ht in Hrep.
  destruct Hrep as (t' & Ht' & Hpts). by exists h', t'.
Qed.

Lemma add_predicate_ok d p i : index_ok d i → in_u 64 p → predicates i !! p = None →
  index_ok d (add_predicate p i) ∧ same_but p i (add_predicate p i) ∧
  ∃ t, predicates (add_predicate p i) !! p = Some (Some t) ∧ pts t = ∅.
Proof.
  intros [Hf His Hc Hids Hst Htr Hcl Hdi Hne Hkn] Hrange Hnone.
  destruct (new_tree_ok (k2tree_config i)) as [Hok Hpts].
  split_and!.
  - constructor; simpl; try done.
    + intros q o. rewrite lookup_insert. case_decide; [|by apply Htr].
      intros [= <-]. eexists. split; [done|]. by split.
    + intros q t. rewrite lookup_insert. case_decide as E; [set_solver|].
      intros Hq Hd. apply Hcl; set_solver.
    + intros q Hq. rewrite lookup_insert. case_decide; [by eexists|]. apply Hdi. set_solver.
    + intros q [->%elem_of_singleton|Hq%Hne]%elem_of_union; [split; [set_solver|done]|].
      split; [set_solver|apply Hq].
    + intros q. rewrite lookup_insert. case_decide; [set_solver|]. intros Hq.
      destruct (Hkn q Hq); [left; set_solver|by right].
  - split_and!; try done. intros q Hq. simpl. by rewrite lookup_insert_ne by done.
  - eexists. simpl. by rewrite lookup_insert_eq.
Qed.

Lemma on_index_ok f d h : fetch_ok d h → index_ok d (f (index_of h)) →
  extends d (index_of h) (f (index_of h)) →
  fetch_ok d (on_index f h) ∧ same_log h (on_index f h) ∧ index_of (on_index f h) = f (index_of h).
Proof.
  intros [Hh Hi0] Hi Hx. unfold on_index.
  split_and!; [split; [by apply (ok_with d)|by rewrite index_with]|split|].
  - intros q. apply has_with.
  - intros q s. apply effect_with.
  - apply index_with.
Qed.

Lemma same_but_trans p i1 i2 i3 : same_but p i1 i2 → same_but p i2 i3 → same_but p i1 i3.
Proof.
  intros (H1 & H2 & H3 & H4) (G1 & G2 & G3 & G4). split_and!; try congruence.
  intros q Hq. by rewrite G1, H1.
Qed.
Lemma same_log_trans h1 h2 h3 : same_log h1 h2 → same_log h2 h3 → same_log h1 h3.
Proof.
  intros [H1 H2] [G1 G2]. split; intros; [by rewrite G1|by rewrite G2].
Qed.
Lemma same_but_refl p i : same_but p i i.
Proof. by split_and!. Qed.

(** [load_single_predicate] of a predicate that is not in memory. *)
Definition loads (d : list Z) (p : Z) (h h' : Host) : Prop :=
  fetch_ok d h' ∧ same_log h h' ∧ same_but p (index_of h) (index_of h').

Lemma load_main p h d md : fetch_ok d h → predicates (index_of h) !! p = None →
  metadata_map (metadata (index_of h)) !! p = Some md →
  ∃ h' t', load_single_predicate p h = Ret (true, h') ∧ loads d p h h' ∧
    predicates (index_of h') !! p = Some (Some t') ∧ pts t' = logged p h (stored_pts d md).
Proof.
  intros [Hh Hi] Hnone Hmd. destruct (ix_stored d _ Hi p md Hmd) as (_ & Hid & t & Hst).
  destruct (read_stored_tree_spec d _ p md t Hi Hmd Hst) as (t' & segs & full & mm & E & Hg & Hpts).
  set (i1 := put_tree p (Some t') (set_memory (index_of h) segs full mm)) in *.
  assert (Hi1 : index_ok d i1) by by apply (put_loaded_ok d _ p md t).
  assert (Hx : extends d (index_of h) i1).
  { split; [done|]. intros q P. unfold main_points. simpl. rewrite lookup_insert.
    case_decide as Eq; [|done]. subst q. rewrite Hnone, Hmd. simpl.
    intros [= <-]. f_equal. by rewrite Hpts, (stored_pts_spec _ _ _ _ Hst). }
  destruct (on_index_ok (λ _, i1) d h (conj Hh Hi) Hi1 Hx) as (Hok1 & Hlog1 & Ei1).
  assert (Hbut1 : same_but p (index_of h) i1).
  { split_and!; try done. intros q Hq. simpl. by rewrite lookup_insert_ne. }
  assert (Ht1 : predicates i1 !! p = Some (Some t')) by apply lookup_insert_eq.
  unfold load_single_predicate. unfold is_stored_in_main_index.
  rewrite bool_decide_true by (rewrite Hmd; by eexists). simpl negb. cbn [andb].
  unfold get_metadata_with_id. rewrite Hmd. cbn [mbind outcome_bind]. rewrite E.
  cbn [mbind outcome_bind]. change (with_index i1 h) with (on_index (λ _, i1) h).
  rewrite (stored_pts_spec _ _ _ _ Hst), <-Hpts. unfold logged.
  assert (Hin : is_stored_in_updates_log p (on_index (λ _, i1) h) = is_stored_in_updates_log p h).
  { unfold is_stored_in_updates_log. rewrite Ei1. by rewrite (proj1 Hlog1). }
  rewrite Hin, Ei1. change (update_logger i1) with (update_logger (index_of h)).
  destruct (is_stored_in_updates_log p h) eqn:El.
  - apply andb_true_iff in El as [El1 El2]. rewrite El1. cbn [andb].
    destruct (recover_active p (on_index (λ _, i1) h) d t') as (h' & t2 & E2 & Hok2 & Hl2 & Hb2 & Ht2 & Hp2);
      [done|by rewrite (proj1 Hlog1)|by rewrite Ei1|].
    rewrite E2. cbn [mbind outcome_bind]. exists h', t2. rewrite Ei1 in Hb2.
    split_and!; [done|split_and!|done|].
    + done.
    + by eapply same_log_trans.
    + by eapply same_but_trans.
    + rewrite Hp2. by rewrite (proj2 Hlog1).
  - rewrite andb_false_r. cbn [mbind outcome_bind].
    exists (on_index (λ _, i1) h), t'. rewrite Ei1. split_and!; try done.
    split_and!; [done..|by rewrite Ei1].
Qed.

Lemma load_logged p h d : fetch_ok d h → predicates (index_of h) !! p = None →
  metadata_map (metadata (index_of h)) !! p = None → is_stored_in_updates_log p h = true →
  ∃ h', load_single_predicate p h = Ret (true, h') ∧ loads d p h h' ∧
    ((predicates (index_of h') !! p = None ∧ p ∉ new_predicates (index_of h') ∧ log_effect h p ∅ = ∅) ∨
     ∃ t, predicates (index_of h') !! p = Some (Some t) ∧ pts t = log_effect h p ∅).
Proof.
  intros [Hh Hi] Hnone Hmd Hlog. unfold load_single_predicate, is_stored_in_main_index.
  rewrite bool_decide_false by (rewrite Hmd; by intros []). rewrite Hlog. cbn [negb andb mbind outcome_bind].
  rewrite Hlog. pose proof Hlog as [El1 El2]%andb_true_iff. rewrite El1. cbn [andb].
  destruct (recover_law p h d Hh Hi El2) as (h' & E & Hh' & Hi' & H1 & H2 & Hs & Hrep).
  rewrite E. cbn [mbind outcome_bind]. rewrite Hnone in Hrep. by exists h'.
Qed.

(** The end of a fetch, once the tree is in memory. *)
Definition finish_fetch (p : Z) (h : Host) : outcome (PredicateFetchResult * Host) :=
  h ← (if negb (has_predicate_active p (index_of h)) && is_stored_in_updates_log p h
       then log_recover_predicate p (on_index (add_predicate p) h) else Ret h);
  let '(t, i) := tree_pointer p (index_of h) in
  Ret (mkFetch true t, with_index i h).

Definition fetched (d : list Z) (p : Z) (h : Host) (P : gset (Z * Z))
    (out : outcome (PredicateFetchResult * Host)) : Prop :=
  ∃ h' t, out = Ret (mkFetch true (Some t), h') ∧ loads d p h h' ∧
    predicates (index_of h') !! p = Some (Some t) ∧ pts t = P.

Lemma finish_active d p h t : fetch_ok d h → predicates (index_of h) !! p = Some (Some t) →
  fetched d p h (pts t) (finish_fetch p h).
Proof.
  intros [Hh Hi] Ht. unfold finish_fetch, has_predicate_active.
  rewrite bool_decide_true by (rewrite Ht; by eexists). cbn [negb orb andb mbind outcome_bind].
  unfold tree_pointer. rewrite Ht, with_self. exists h, t. split_and!; try done.
Qed.

Lemma fetched_after d p h h1 P out : loads d p h h1 → fetched d p h1 P out → fetched d p h P out.
Proof.
  intros (_ & Hl & Hb) (h' & t & E & (Hok & Hl' & Hb') & Ht & Hp'). exists h', t.
  split_and!; [done|split_and!; [done|by eapply same_log_trans|by eapply same_but_trans]|done..].
Qed.

Lemma finish_inactive d p h : fetch_ok d h → predicates (index_of h) !! p = None →
  metadata_map (metadata (index_of h)) !! p = None →
  p ∉ new_predicates (index_of h) → is_stored_in_updates_log p h = true →
  fetched d p h (log_effect h p ∅) (finish_fetch p h).
Proof.
  intros [Hh Hi] Hnone Hmd Hnew Hlog. unfold finish_fetch, has_predicate_active.
  rewrite Hnone, bool_decide_false by by intros []. rewrite bool_decide_false by done.
  rewrite Hlog. cbn [orb negb andb]. pose proof Hlog as [_ Hstored]%andb_true_iff.
  destruct (add_predicate_ok d p (index_of h) Hi (has_range p h Hh Hstored) Hnone) as (Hi1 & Hb1 & t & Ht & Hpt).
  assert (Hx : extends d (index_of h) (add_predicate p (index_of h))).
  { split; [done|]. intros q P. unfold main_points. simpl. rewrite lookup_insert.
    case_decide as Eq; [|done]. subst q. by rewrite Hnone, Hmd. }
  destruct (on_index_ok (add_predicate p) d h (conj Hh Hi) Hi1 Hx) as (Hok1 & Hl1 & E1).
  apply andb_true_iff in Hlog as [_ Hlog].
  destruct (recover_active p (on_index (add_predicate p) h) d t Hok1)
    as (h2 & t2 & E2 & Hok2 & Hl2 & Hb2 & Ht2 & Hp2); [by rewrite (proj1 Hl1)|by rewrite E1|].
  rewrite E2. cbn [mbind outcome_bind]. unfold tree_pointer. rewrite Ht2, with_self.
  rewrite E1 in Hb2. exists h2, t2. split_and!; [done| |done|].
  - split_and!; [done|by eapply same_log_trans|by eapply same_but_trans].
  - rewrite Hp2, Hpt. apply Hl1.
Qed.

(** Fetching a predicate, in every case. *)
Lemma fetch_spec d p h : fetch_ok d h →
  match index_points d h p with
  | Some P => fetched d p h P (index_fetch_k2tree p h)
  | None => index_fetch_k2tree p h = Ret (mkFetch false None, h)
  end.
Proof.
  intros Hok. pose proof Hok as [Hh Hi]. unfold index_points, index_fetch_k2tree.
  destruct (predicates (index_of h) !! p) as [o|] eqn:Eo.
  { destruct (ix_trees d _ Hi p o Eo) as (t & -> & _). by apply finish_active. }
  destruct (metadata_map (metadata (index_of h)) !! p) as [md|] eqn:Emd.
  { destruct (load_main p h d md Hok Eo Emd) as (h' & t' & E & Hl & Ht & <-).
    rewrite E. cbn [mbind outcome_bind negb]. apply (fetched_after d p h h'); [done|].
    apply finish_active; [apply Hl|done]. }
  destruct (is_stored_in_updates_log p h) eqn:El.
  - destruct (load_logged p h d Hok Eo Emd El) as (h' & E & Hl & Hcase).
    rewrite E. cbn [mbind outcome_bind negb]. apply (fetched_after d p h h'); [done|].
    destruct Hl as (Hok' & Hlog' & Hb').
    destruct Hcase as [(Hn & Hnew & Hempty)|(t & Ht & <-)]; [|by apply finish_active].
    rewrite <-(proj2 Hlog' p). destruct Hb' as (_ & Hm' & _ & Hu').
    apply finish_inactive; [done|done|by rewrite Hm'|done|].
    unfold is_stored_in_updates_log in *. rewrite Hu'.
    by rewrite (proj1 Hlog').
  - unfold load_single_predicate, is_stored_in_main_index.
    rewrite bool_decide_false by (rewrite Emd; by intros []). by rewrite El.
Qed.

Lemma fetched_points d p h P out : index_points d h p = Some P → fetched d p h P out →
  ∃ h' t, out = Ret (mkFetch true (Some t), h') ∧ fetch_ok d h' ∧ same_log h h' ∧
    (∀ q, index_points d h' q = index_points d h q) ∧
    k2tree_config (index_of h') = k2tree_config (index_of h) ∧
    good_tree (k2tree_config (index_of h)) t ∧ pts t = P.
Proof.
  intros HP (h' & t & E & (Hok & Hlog & Hb) & Ht & Hpt). exists h', t.
  destruct Hb as (Hq & Hm & Hc & Hu).
  split_and!; [done..| |done| |done].
  - intros q. destruct (decide (q = p)) as [->|Hne].
    + rewrite HP. unfold index_points. by rewrite Ht, Hpt.
    + by apply (same_points d p).
  - destruct (ix_trees d _ (proj2 Hok) p _ Ht) as (t0 & [= <-] & Hg). by rewrite <-Hc.
Qed.

(** C10: Fetching a predicate gives its tree, wherever it is: in memory, in the
    index file, in the log of updates, or in the file with updates pending. The
    tree has the points of the file with the effect of the logged updates, the
    fetch changes the points of no predicate, and a predicate that is nowhere
    is reported as not existing. *)
Theorem fetch_k2tree_correct d p h : host_ok h → index_ok d (index_of h) →
  ∃ r h', fetch_k2tree p h = Ret (r, h') ∧ host_ok h' ∧ index_ok d (index_of h') ∧
    (∀ q, index_points d h' q = index_points d h q) ∧
    match index_points d h p with
    | None => does_exist r = false ∧ h' = h
    | Some P => does_exist r = true ∧ ∃ t, fetch_result r = Some t ∧
                good_tree (k2tree_config (index_of h)) t ∧ pts t = P
    end.
Proof.
  intros Hh Hi. pose proof (fetch_spec d p h (conj Hh Hi)) as Hf.
  destruct (index_points d h p) as [P|] eqn:HP; [|by eexists _, _].
  destruct (fetched_points d p h P _ HP Hf) as (h' & t & E & [Hh' Hi'] & _ & Hq & _ & Hg & Hpt).
  exists (mkFetch true (Some t)), h'. split_and!; [done..|]. by exists t.
Qed.

(** The query engine's interface: an index file with its log is a fetcher. *)
#[refine, global] Instance index_fetcher_laws : K2TreeFetcherLaws Host := {|
  fetcher_ok h := host_ok h ∧ ∃ d, index_ok d (index_of h);
  points_of h := index_points (default [] (index_file (index_of h))) h;
  fetcher_qw h := config_qw (k2tree_config (index_of h));
  in_memory h p := is_Some (predicates (index_of h) !! p)
|}.
Proof.
- intros h p [Hh [d Hi]]. rewrite (ix_file d _ Hi). simpl.
  pose proof (fetch_spec d p h (conj Hh Hi)) as Hf.
  destruct (index_points d h p) as [P|] eqn:HP.
  + destruct (fetched_points d p h P _ HP Hf) as (h' & t & E & [Hh' Hi'] & _ & Hq & Hc & [Hg1 Hg2] & Hpt).
    exists (mkFetch true (Some t)), h'. rewrite (ix_file d _ Hi'). simpl.
    split; [done|]. split; [split; [done|by exists d]|]. split; [done|].
    split; [by rewrite Hc|]. split; [done|]. by exists t.
  + exists (mkFetch false None), h. rewrite (ix_file d _ Hi). simpl. split_and!; try done. by exists d.
- intros h p [Hh [d Hi]] [o Ho]. simpl. unfold index_fetch_k2tree, has_predicate_active. rewrite Ho.
  cbn [mbind outcome_bind negb]. rewrite bool_decide_true by by eexists.
  cbn [orb negb andb mbind outcome_bind]. unfold tree_pointer. rewrite Ho, with_self. by eexists.
- intros h p [Hh [d Hi]]. simpl. unfold index_fetch_k2tree_if_loaded.
  destruct (predicates (index_of h) !! p) as [o|] eqn:Eo; eexists; (split; [done|]); [|done].
  simpl. intros t ->. destruct (ix_trees d _ Hi p _ Eo) as (t0 & [= <-] & Hg1 & Hg2).
  unfold index_points. by rewrite Eo.
Defined.
End fetching.

(** ** An index without a log: NoUpdate.cpp *)

#[global] Instance NoUpdate : UpdatesLogHost PredicatesIndexCacheMD := {|
  index_of i := i;
  with_index i _ := i;
  log_has_predicate_stored _ _ := false;
  log_recover_predicate _ i := Ret i;
  log_recover_all i := Ret i;
  log_compact_logs _ i := Ret (Some i);
  log_get_predicates _ := Throw RuntimeError;
  log_clean_append_log _ := Throw RuntimeError
|}.
#[global, refine] Instance NoUpdate_laws `{Heap, BlockLib, !BlockLibLaws, K2Lib, !K2LibLaws, OpenSSL} :
    UpdatesLogHostLaws PredicatesIndexCacheMD := {| host_ok _ := True; log_effect _ _ s := s |}.
Proof. all: done. Defined.

(** ** Writing the index file *)

(** The memory the library measures is enough to load the tree into. *)
Class MeasureLaws `{BlockLib, K2Lib} := {
  measure_law t : tm_wf t → in_u 64 (Z.of_nat (tm_mem t)) →
    Z.of_nat (tm_mem t) ≤ measure_in_memory_size t ∧ in_u 64 (measure_in_memory_size t)
}.

(** ** Writing an index file

    [sync_to_stream] and the builder write an index file the same way: the
    header with empty entries, the trees one after the other, and the header
    again over the first one. [step] writes one tree, reading from a stream. *)
Lemma length_bind_const {A} (l : list A) (f : A → list Z) n :
  (∀ x, x ∈ l → length (f x) = n) → length (l ≫= f) = (length l * n)%nat.
Proof.
  induction l as [|x l IH]; intros Hf; [done|].
  change ((x :: l) ≫= f) with (f x ++ (l ≫= f)).
  rewrite length_app, (Hf x) by (by left). rewrite IH by (intros; apply Hf; by right). done.
Qed.

Section layout.
Context `{Hp : Heap, Blk : BlockLib, !BlockLibLaws, Lib : K2Lib, !K2LibLaws, Ssl : OpenSSL}.
Context (c : K2TreeConfig) (points : Z → option (gset (Z * Z))).
Abbreviation written := (gmap Z PredicateMetadata * istream)%type.

(** What an entry written at [off] says of the bytes written. *)
Record entry_of (p : Z) (off : nat) (bytes : list Z) (md : PredicateMetadata) (t : K2TreeMixed)
    : Prop := {
  en_wf : tm_wf t;
  en_good : good_tree c t;
  en_points : points p = Some (pts t);
  en_encodes : encodes t bytes;
  en_offset : tree_offset md = u64 (Z.of_nat off);
  en_size : tree_size md = u64 (Z.of_nat (length bytes));
  en_memory : Z.of_nat (tm_mem t) ≤ tree_size_in_memory md ∧ in_u 64 (tree_size_in_memory md);
  en_id : md_predicate_id md = p;
  en_priority : priority md = 0;
  en_hash : length (k2tree_hash md) = 16%nat
}.

Context (ids : list Z) (step : written → Z → wr written) (ready : list Z → istream → Prop).
Hypothesis step_ok : ∀ p ps m s d1, ready (p :: ps) s → p ∈ ids → ∃ bytes md s' t,
  step (m, s) p (os_end d1) = Ret ((<[p := md]> m, s'), os_end (d1 ++ bytes)) ∧
  ready ps s' ∧ entry_of p (length d1) bytes md t.

Lemma layout_loop ps : ∀ m s d1, ready ps s → (∀ p, p ∈ ps → p ∈ ids) →
  ∃ body m' s', loop step (m, s) ps (os_end d1) = Ret ((m', s'), os_end (d1 ++ body)) ∧
    ready [] s' ∧ (∀ p, p ∉ ps → m' !! p = m !! p) ∧
    (∀ p, p ∈ ps → ∃ md pre bytes post t, m' !! p = Some md ∧ body = pre ++ bytes ++ post ∧
      entry_of p (length d1 + length pre) bytes md t).
Proof.
  induction ps as [|p ps IH]; intros m s d1 Hs Hall.
  { exists [], m, s. rewrite app_nil_r. split_and!; try done.
    intros p Hp0. by apply not_elem_of_nil in Hp0. }
  destruct (step_ok p ps m s d1 Hs (Hall p ltac:(by left))) as (bytes & md & s1 & t & E1 & Hs1 & Hen).
  destruct (IH (<[p:=md]> m) s1 (d1 ++ bytes) Hs1) as (body & m' & s' & E2 & Hs' & Hout & Hin).
  { intros q Hq. apply Hall. by right. }
  exists (bytes ++ body), m', s'. split_and!; [|done| |].
  - simpl. unfold mbind, st_bind. rewrite E1, E2. by rewrite <-(assoc_L (++)).
  - intros q Hq. rewrite not_elem_of_cons in Hq. rewrite Hout by tauto.
    by rewrite lookup_insert_ne by naive_solver.
  - intros q Hq. destruct (decide (q ∈ ps)) as [Hq'|Hq'].
    + destruct (Hin q Hq') as (mq & pre & bs & post & tq & Em & Eb & Henq).
      exists mq, (bytes ++ pre), bs, post, tq. split_and!; [done| |].
      * by rewrite Eb, <-(assoc_L (++)).
      * rewrite !length_app in *. by rewrite Nat.add_assoc.
    + apply elem_of_cons in Hq as [->|Hq]; [|done].
      exists md, [], bytes, body, t. rewrite Hout, lookup_insert_eq by done.
      split_and!; [done..|]. by rewrite Nat.add_0_r.
Qed.

Definition new_metadata (m : gmap Z PredicateMetadata) : PredicatesCacheMetadata :=
  mkCacheMetadata m ids c.
Definition zeros : list Z := ids ≫= λ _, metadata_bytes zero_metadata.
Definition prefix_bytes : list Z := be_encode 8 (Z.of_nat (length ids)) ++ config_bytes c.

(** The writer, with [finish] making its result. *)
Definition index_writer {B} (acc : written) (finish : gmap Z PredicateMetadata → istream → B) : wr B :=
  write_u64 (Z.of_nat (length ids));;
  config_write_to_ostream c;;
  metadata_start ← tellp;
  loop (λ _ _, metadata_write zero_metadata) () ids;;
  '(new_metadata_map, s) ← loop step acc ids;
  last_pos ← tellp;
  seekp metadata_start;;
  loop (λ _ p, metadata_write (default zero_metadata (new_metadata_map !! p))) () ids;;
  seekp last_pos;;
  mret (finish new_metadata_map s).

Lemma initial_map ps p :
  (list_to_map ((λ p, (p, zero_metadata)) <$> ps) : gmap Z PredicateMetadata) !! p =
  if decide (p ∈ ps) then Some zero_metadata else None.
Proof.
  induction ps as [|q ps IH]; [by rewrite decide_False by apply not_elem_of_nil|].
  rewrite fmap_cons, list_to_map_cons, lookup_insert, IH. repeat case_decide; set_solver.
Qed.

(** What the trees written are, in a file that starts with the header. *)
Definition layout_ok (m' : gmap Z PredicateMetadata) (body : list Z) : Prop :=
  (∀ p, p ∉ ids → m' !! p = None) ∧
  ∀ p, p ∈ ids → ∃ md pre bytes post t, m' !! p = Some md ∧ body = pre ++ bytes ++ post ∧
    entry_of p (length (header_bytes (new_metadata m')) + length pre) bytes md t.

Lemma layout_spec {B} s (finish : gmap Z PredicateMetadata → istream → B) : ready ids s →
  ∃ m' s' body,
    index_writer (list_to_map ((λ p, (p, zero_metadata)) <$> ids), s) finish (os_end []) =
      Ret (finish m' s', os_end (header_bytes (new_metadata m') ++ body)) ∧
    ready [] s' ∧ layout_ok m' body.
Proof.
  intros Hs. destruct (layout_loop ids (list_to_map ((λ p, (p, zero_metadata)) <$> ids)) s
    (prefix_bytes ++ zeros) Hs) as (body & m' & s' & E & Hs' & Hout & Hin); [done|].
  set (metas := ids ≫= λ p, metadata_bytes (default zero_metadata (m' !! p))).
  assert (Hlen : length zeros = length metas).
  { unfold zeros, metas. rewrite !(length_bind_const _ _ 52); [done| |].
    - intros p Hp0. destruct (Hin p Hp0) as (md & pre & bytes & post & t & -> & _ & Hen).
      apply length_metadata_bytes, Hen.
    - intros p _. by apply length_metadata_bytes. }
  assert (Hhdr : header_bytes (new_metadata m') = prefix_bytes ++ metas)
    by (unfold header_bytes, prefix_bytes; by rewrite <-(assoc_L (++))).
  exists m', s', body. split; [|split; [done|split]].
  - unfold index_writer. unfold mbind at 1, st_bind at 1. rewrite (emits_at _ _ _ _ (emits_u64 _)).
    unfold mbind at 1, st_bind at 1. rewrite (emits_at _ _ _ _ (config_emits _)).
    unfold mbind at 1, st_bind at 1. unfold tellp at 1.
    unfold mbind at 1, st_bind at 1.
    rewrite (emits_at _ _ _ _ (emits_loop_unit _ (λ _, metadata_bytes zero_metadata) _
      (λ _ _, metadata_emits zero_metadata))).
    change (([] ++ be_encode 8 (Z.of_nat (length ids))) ++ config_bytes c) with prefix_bytes. fold zeros.
    unfold mbind at 1, st_bind at 1. rewrite E.
    unfold mbind at 1, st_bind at 1. unfold tellp at 1.
    unfold mbind at 1, st_bind at 1. unfold seekp at 1. simpl os_data. simpl os_pos.
    rewrite <-(assoc_L (++)). unfold mbind at 1, st_bind at 1.
    rewrite (overwrites_loop _ (λ p, metadata_bytes (default zero_metadata (m' !! p)))
      ids (λ p _, metadata_overwrites _) prefix_bytes zeros body Hlen).
    cbn. rewrite Hhdr. unfold os_end. rewrite <-!(assoc_L (++)). do 2 f_equal.
    rewrite !length_app, Hlen. done.
  - intros p Hp0. rewrite Hout, initial_map by done. by rewrite decide_False.
  - intros p Hp0. destruct (Hin p Hp0) as (md & pre & bytes & post & t & Em & Eb & Hen).
    exists md, pre, bytes, post, t. split_and!; [done..|].
    rewrite Hhdr, length_app, <-Hlen, <-length_app. exact Hen.
Qed.

(** The entries of the new file, when its size fits the offsets. *)
Context (m' : gmap Z PredicateMetadata) (body : list Z) (Hl : layout_ok m' body).
Context (Hc : config_wf c) (Hids : ∀ p, p ∈ ids → in_u 64 p).
Definition layout : list Z := header_bytes (new_metadata m') ++ body.
Hypothesis HD : Z.of_nat (length layout) < 2 ^ 63.

Lemma layout_entry p md : m' !! p = Some md → metadata_wf md ∧ md_predicate_id md = p ∧
  ∃ t, stored_tree layout c md t ∧ points p = Some (pts t).
Proof.
  destruct Hl as [Hout Hin]. intros Hmd. destruct (decide (p ∈ ids)) as [Hall|Hall];
    [|rewrite Hout in Hmd; done].
  destruct (Hin p Hall) as (md' & pre & bytes & post & t & Em & Eb & Hen).
  rewrite Hmd in Em. injection Em as <-. destruct Hen as [Hw Hg Hpt He Ho Hs [Hm1 Hm2] Hid Hpr Hh].
  pose proof HD as HD'. unfold layout in *. rewrite Eb, !length_app in HD'.
  assert (Eo : tree_offset md = Z.of_nat (length (header_bytes (new_metadata m') ++ pre))).
  { rewrite Ho, length_app. apply u64_id. unfold in_u. lia. }
  assert (Es : tree_size md = Z.of_nat (length bytes)).
  { rewrite Hs. apply u64_id. unfold in_u. lia. }
  rewrite length_app in Eo. pose proof (Hids p Hall).
  split_and!; [|done|].
  - constructor; rewrite ?Hid, ?Hpr; try done; unfold in_u in *; lia.
  - exists t. split; [|done]. split_and!; try done; [lia|lia|].
    exists (header_bytes (new_metadata m') ++ pre), bytes, post.
    rewrite length_app. split_and!; try done. by rewrite Eb, <-!(assoc_L (++)).
Qed.
Lemma layout_ids p : p ∈ ids ↔ is_Some (m' !! p).
Proof.
  destruct Hl as [Hout Hin]. split.
  - intros Hall. destruct (Hin p Hall) as (md & ? & ? & ? & ? & -> & _). by eexists.
  - intros [md Hmd]. destruct (decide (p ∈ ids)); [done|]. rewrite Hout in Hmd; done.
Qed.
Lemma layout_header : header_wf (new_metadata m').
Proof.
  constructor; simpl; [|done|apply layout_ids|].
  - pose proof HD as HD'. unfold layout, header_bytes, new_metadata in HD'. simpl in HD'.
    rewrite !length_app, (length_bind_const _ _ 52) in HD'; [unfold in_u; lia|].
    intros p Hall. destruct Hl as [_ Hin]. destruct (Hin p Hall) as (md & ? & ? & ? & ? & -> & _ & Hen).
    apply length_metadata_bytes, Hen.
  - intros p md Hmd. destruct (layout_entry p md Hmd) as (? & ? & _). done.
Qed.
Lemma layout_points p : stored_pts layout <$> m' !! p = (if decide (p ∈ ids) then points p else None).
Proof.
  destruct (m' !! p) as [md|] eqn:Em; simpl.
  - rewrite decide_True by (apply layout_ids; by eexists).
    destruct (layout_entry p md Em) as (_ & _ & t & Ht & ->). by rewrite (stored_pts_spec _ _ _ _ Ht).
  - rewrite decide_False; [done|]. rewrite layout_ids, Em. by intros [].
Qed.

(** A process that opens the file. *)
Lemma open_layout mm : ∃ i2, new_PredicatesIndexCacheMD (Some layout) mm = Ret i2 ∧
  metadata i2 = new_metadata m' ∧ index_ok layout i2 ∧
  ∀ p, main_points layout i2 p = if decide (p ∈ ids) then points p else None.
Proof.
  unfold new_PredicatesIndexCacheMD.
  pose proof (parses_at _ _ _ [] body (cache_metadata_parses _ layout_header)) as Hp1. fold layout in Hp1.
  change (get_reader (Some layout)) with (stream_at [] layout). rewrite Hp1.
  cbn [mbind outcome_bind]. eexists. split; [reflexivity|]. split; [done|]. split.
  - constructor; simpl; try done.
    + by eexists.
    + apply layout_ids.
    + intros p md Hmd. destruct (layout_entry p md Hmd) as (? & ? & t & ? & _). split_and!; try done. by exists t.
    + intros p []. done.
  - intros p. unfold main_points. simpl. rewrite lookup_empty, <-layout_points. by destruct (m' !! p).
Qed.
End layout.

Section syncing.
Context `{Hp : Heap, Blk : BlockLib, !BlockLibLaws, Lib : K2Lib, !K2LibLaws, !MeasureLaws,
          Ssl : OpenSSL, !OpenSSLLaws}.
Context (d : list Z) (i : PredicatesIndexCacheMD) (Hi : index_ok d i).
(** The trees that changed can be written. *)
Hypothesis dirty_wf : ∀ p, p ∈ dirty_predicates i → ∀ t, predicates i !! p = Some (Some t) →
  tm_wf t ∧ in_u 64 (Z.of_nat (tm_mem t)).

Abbreviation sync_entry := (entry_of (k2tree_config i) (main_points d i)).

Definition on_file (s : istream) : Prop := is_data s = d ∧ is_fail s = false.

Lemma is_seek_on_file s pos : on_file s → 0 ≤ pos → is_seek pos s = IStream d (Z.to_nat pos) false.
Proof. destruct s as [dat q fl]. intros [E1 E2]. simpl in E1, E2. subst. apply is_seek_live. Qed.

Lemma sync_clean p s d1 (m : gmap Z PredicateMetadata) : on_file s → p ∉ dirty_predicates i →
  is_Some (metadata_map (metadata i) !! p) →
  ∃ bytes md s' t, sync_tree i (m, s) p (os_end d1) =
      Ret ((<[p := md]> m, s'), os_end (d1 ++ bytes)) ∧
    on_file s' ∧ sync_entry p (length d1) bytes md t.
Proof.
  intros Hs Hclean [md0 Hmd].
  destruct (ix_stored d i Hi p md0 Hmd) as (Hw & Hid & t & Hst).
  pose proof Hst as (Hwf & Hg & Hoff & Hmem & Hsz & pre & bytes & post & Ed & Eo & Es & He).
  exists bytes, (mkMeta p (u64 (Z.of_nat (length d1))) (tree_size md0) (tree_size_in_memory md0) 0
    (k2tree_hash md0)), (stream_at (pre ++ bytes) post), t.
  assert (Hread : is_read (Z.to_nat (tree_size md0)) (is_seek (s64 (tree_offset md0)) s) =
    (bytes, stream_at (pre ++ bytes) post)).
  { unfold s64. rewrite to_signed_nonneg, is_seek_on_file by (done || lia).
    rewrite Eo, Es, !Nat2Z.id, Ed.
    change (IStream (pre ++ bytes ++ post) (length pre) false) with (stream_at pre (bytes ++ post)).
    by apply is_read_at. }
  split_and!.
  - unfold sync_tree. unfold mbind at 1, st_bind at 1. unfold tellp at 1. simpl os_pos.
    rewrite decide_True by done. unfold get_metadata_with_id. rewrite Hmd.
    unfold mbind at 1, st_bind at 1. unfold lift. simpl fmap. cbn [fmap outcome_fmap].
    cbn [fst snd]. rewrite Hread. rewrite Es, Nat2Z.id, Nat.sub_diag, app_nil_r.
    unfold mbind, st_bind. by rewrite (emits_at _ _ _ _ (emits_write bytes)).
  - split; [|done]. simpl. by rewrite Ed, (assoc_L (++)).
  - destruct Hw as [_ _ Hw3 Hw4 _ Hw6].
    constructor; simpl; try done.
    + unfold main_points. destruct (predicates i !! p) as [o|] eqn:Eo'.
      * destruct (ix_trees d i Hi p o Eo') as (t1 & -> & _).
        destruct (ix_clean d i Hi p t1 Eo' Hclean) as (md1 & t0 & E1 & Hst1 & ->).
        rewrite Hmd in E1. injection E1 as <-.
        by rewrite <-(stored_pts_spec _ _ _ _ Hst1), (stored_pts_spec _ _ _ _ Hst).
      * rewrite Hmd. simpl. by rewrite (stored_pts_spec _ _ _ _ Hst).
    + rewrite Es. unfold u64. rewrite uwrap_small; [done|]. by rewrite <-Es.
Qed.

Lemma sync_dirty p s d1 (m : gmap Z PredicateMetadata) : on_file s → p ∈ dirty_predicates i →
  ∃ bytes md s' t, sync_tree i (m, s) p (os_end d1) =
      Ret ((<[p := md]> m, s'), os_end (d1 ++ bytes)) ∧
    on_file s' ∧ sync_entry p (length d1) bytes md t.
Proof.
  intros Hs Hdirty. destruct (ix_dirty d i Hi p Hdirty) as [o Ho].
  destruct (ix_trees d i Hi p o Ho) as (t & -> & Hg). destruct (dirty_wf p Hdirty t Ho) as [Hwf Hm64].
  destruct (tree_codec create_null t Hwf) as (bytes & _ & He & _).
  destruct (measure_law t Hwf Hm64) as [Hmem Hsz].
  exists bytes, (mkMeta p (u64 (Z.of_nat (length d1))) (u64 (Z.of_nat (length bytes)))
    (measure_in_memory_size t) 0 (md5calc bytes)), s, t.
  split_and!; [|apply Hs..|].
  - unfold sync_tree. unfold mbind at 1, st_bind at 1. unfold tellp at 1. simpl os_pos.
    rewrite decide_False by tauto. rewrite Ho. unfold mbind at 1, st_bind at 1. unfold lift at 1.
    simpl mjoin. simpl deref. cbn [fmap outcome_fmap].
    unfold mbind at 1, st_bind at 1. unfold lift at 1. rewrite (file_of_emits _ _ _ He).
    cbn [fmap outcome_fmap]. unfold mbind, st_bind.
    by rewrite (emits_at _ _ _ _ (emits_write bytes)).
  - constructor; simpl; try done.
    + unfold main_points. by rewrite Ho.
    + apply MD5_digest.
Qed.

Lemma elem_of_all p : p ∈ all_predicates i ↔
  p ∈ new_predicates i ∨ is_Some (metadata_map (metadata i) !! p).
Proof.
  unfold all_predicates. rewrite merge_sort_Permutation, elem_of_app, elem_of_elements.
  rewrite list_elem_of_fmap. split; (intros [?|Hx]; [by left|right]).
  - destruct Hx as ([q md] & -> & Hq%elem_of_map_to_list). by eexists.
  - destruct Hx as [md Hmd]. exists (p, md). by rewrite elem_of_map_to_list.
Qed.

Lemma sync_one p s d1 m : on_file s → p ∈ all_predicates i →
  ∃ bytes md s' t, sync_tree i (m, s) p (os_end d1) =
      Ret ((<[p := md]> m, s'), os_end (d1 ++ bytes)) ∧
    on_file s' ∧ sync_entry p (length d1) bytes md t.
Proof.
  intros Hs Hin%elem_of_all. destruct (decide (p ∈ dirty_predicates i)); [by apply sync_dirty|].
  apply sync_clean; [done..|]. destruct Hin as [Hin|Hin]; [by apply (ix_new d i Hi) in Hin as [? _]|done].
Qed.

Lemma all_range p : p ∈ all_predicates i → in_u 64 p.
Proof.
  intros [Hn|[md Hmd]]%elem_of_all; [by apply (ix_new d i Hi)|].
  destruct (ix_stored d i Hi p md Hmd) as ([Hid _ _ _ _ _] & <- & _). done.
Qed.

(** A predicate that no entry lists is not in memory either. *)
Lemma unlisted p : p ∉ all_predicates i → predicates i !! p = None ∧ main_points d i p = None.
Proof.
  rewrite elem_of_all. intros Hn.
  assert (Ho : predicates i !! p = None).
  { destruct (predicates i !! p) as [o|] eqn:Eo; [|done].
    destruct Hn. apply (ix_known d i Hi). by eexists. }
  split; [done|]. unfold main_points. rewrite Ho.
  destruct (metadata_map (metadata i) !! p) eqn:Em; [|done]. destruct Hn. right. by eexists.
Qed.

(** C11: Writing the index file and opening it again keeps every predicate: the
    trees that changed are written from memory, the others are copied from the
    old file, new predicates are included, and both the running index and a
    process that opens the new file see the same points as before. *)
Theorem sync_keeps_points : ∃ i' data, sync_to_persistent i = Ret i' ∧ index_file i' = Some data ∧
  (Z.of_nat (length data) < 2 ^ 63 →
   index_ok data i' ∧ (∀ p, main_points data i' p = main_points d i p) ∧
   ∀ mm, ∃ i2, new_PredicatesIndexCacheMD (Some data) mm = Ret i2 ∧ index_ok data i2 ∧
     ∀ p, main_points data i2 p = main_points d i p).
Proof.
  destruct (layout_spec (k2tree_config i) (main_points d i) (all_predicates i) (sync_tree i)
    (λ _, on_file) ltac:(intros; by apply sync_one) (index_is i)
    (λ m s, mkIndex (index_file i) s (mkCacheMetadata m (all_predicates i) (k2tree_config i))
      (predicates i) (dirty_predicates i) (new_predicates i) (k2tree_config i)
      (memory_segments_map i) (full_memory_segment i) (update_logger i) (memory_manager i)))
    as (m' & s' & body & E & _ & Hl); [destruct (ix_is d i Hi) as [pos ->]; done|].
  change (index_writer _ _ _ _ _) with (sync_to_stream i) in E.
  unfold sync_to_persistent, file_of. change (OStream [] 0) with (os_end []). rewrite E.
  cbn [mbind outcome_bind]. eexists _, (layout (k2tree_config i) (all_predicates i) m' body).
  split; [done|]. split; [done|]. intros HD.
  pose proof (layout_entry _ _ _ m' body Hl all_range HD) as Hst.
  pose proof (layout_ids _ _ _ m' body Hl) as Hids.
  pose proof (layout_points _ _ _ m' body Hl all_range HD) as Hpts.
  assert (Hall : ∀ p, (if decide (p ∈ all_predicates i) then main_points d i p else None) =
    main_points d i p) by (intros p; case_decide as Hin; [done|by destruct (unlisted p Hin)]).
  set (D := layout _ _ m' body) in *. split_and!.
  - constructor; simpl; try done; try apply Hi.
    + by eexists.
    + intros p md Hmd. destruct (Hst p md Hmd) as (? & ? & t & ? & _). split_and!; try done. by exists t.
    + intros p t Ht Hclean. destruct (m' !! p) as [md|] eqn:Em.
      * destruct (Hst p md Em) as (_ & _ & t0 & Hst0 & Hpt). exists md, t0. split_and!; [done..|].
        unfold main_points in Hpt. rewrite Ht in Hpt. by injection Hpt.
      * destruct (unlisted p) as [Hn _]; [rewrite Hids, Em; by intros []|]. congruence.
    + intros p Hsome. right. apply Hids, elem_of_all, (ix_known d i Hi p Hsome).
  - intros p. unfold main_points at 1. simpl.
    destruct (predicates i !! p) as [[t|]|] eqn:Eo.
    + unfold main_points. by rewrite Eo.
    + destruct (ix_trees d i Hi p None Eo) as (t & [=] & _).
    + rewrite <-Hall, <-Hpts. by destruct (m' !! p).
  - intros mm. destruct (open_layout _ _ _ m' body Hl ltac:(apply Hi) all_range HD mm) as (i2 & E2 & _ & Hok & Hm).
    exists i2. split; [done|]. split; [done|]. intros p. by rewrite Hm.
Qed.
End syncing.

(** ** Instances of the theorems *)
Section witnesses.
#[local] Existing Instance toy_block_lib.
#[local] Existing Instance toy_block_laws.
#[local] Existing Instance Toy.toy_k2_lib.

#[local, refine] Instance toy_measure_laws : MeasureLaws := {}.
Proof. by intros t Ht. Qed.
#[local] Instance toy_openssl : OpenSSL := {|
  MD5 _ := replicate 16 0; SHA1 _ := replicate 20 0; SHA224 _ := replicate 28 0;
  SHA256 _ := replicate 32 0; SHA384 _ := replicate 48 0; SHA512 _ := replicate 64 0
|}.
#[local, refine] Instance toy_openssl_laws : OpenSSLLaws := {}.
Proof. all: intros; split; [done|by repeat constructor]. Qed.
#[local] Instance toy_heap : Heap := {| segment_address _ := 4096; buffer_address _ _ := 8192 |}.

(** Predicate 4 is in the file, predicate 9 is new. *)
Definition toy_bytes : list Z :=
  match file_of (write_to_ostream toy_tree) with Ret (_, bs) => bs | _ => [] end.
Definition toy_md : PredicateMetadata :=
  mkMeta 4 72 (Z.of_nat (length toy_bytes)) (Z.of_nat (tm_mem toy_tree)) 0 (replicate 16 7).
Definition toy_meta : PredicatesCacheMetadata :=
  mkCacheMetadata {[ 4 := toy_md ]} [4] (mkConfig 8 256 1).
Definition toy_file : list Z := header_bytes toy_meta ++ toy_bytes.
Definition toy_index : PredicatesIndexCacheMD :=
  mkIndex (Some toy_file) (get_reader (Some toy_file)) toy_meta {[ 9 := Some toy_tree ]} {[ 9 ]}
    {[ 9 ]} (mkConfig 8 256 1) ∅ None false empty_manager.

Lemma toy_encodes : encodes toy_tree toy_bytes.
Proof.
  destruct (tree_codec create_null toy_tree toy_tree_wf) as (bytes & _ & He & _).
  unfold toy_bytes. by rewrite (file_of_emits _ _ _ He).
Qed.
Lemma toy_good : good_tree (mkConfig 8 256 1) toy_tree.
Proof.
  split; [|done]. split; [|computed].
  change (Toy.valid (mkst 8 1 256) (root toy_tree)).
  apply (bool_decide_unpack (_ ∧ _)). by vm_compute.
Qed.
Lemma toy_md_wf : metadata_wf toy_md.
Proof. constructor; computed. Qed.
Lemma toy_stored : stored_tree toy_file (mkConfig 8 256 1) toy_md toy_tree.
Proof.
  split_and!; [exact toy_tree_wf|exact toy_good|computed..|].
  exists (header_bytes toy_meta), toy_bytes, [].
  split_and!; [by rewrite app_nil_r|computed|done|exact toy_encodes].
Qed.

Lemma toy_only p md : metadata_map toy_meta !! p = Some md → p = 4 ∧ md = toy_md.
Proof. simpl. by intros [<- <-]%lookup_singleton_Some. Qed.
Lemma toy_header_wf : header_wf toy_meta.
Proof.
  constructor; [computed..| |].
  - intros p. cbn [predicates_ids toy_meta metadata_map]. rewrite list_elem_of_singleton, lookup_singleton_is_Some. naive_solver.
  - intros p md [-> ->]%toy_only. split; [done|exact toy_md_wf].
Qed.
Lemma toy_index_ok : index_ok toy_file toy_index.
Proof.
  constructor; simpl; try done.
  - exists 0%nat. reflexivity.
  - apply toy_header_wf.
  - intros p md [-> ->]%toy_only. split_and!; [exact toy_md_wf|done|].
    exists toy_tree. exact toy_stored.
  - intros p o [<- <-]%lookup_singleton_Some. exists toy_tree. split; [done|exact toy_good].
  - intros p t [<- _]%lookup_singleton_Some. set_solver.
  - intros p ->%elem_of_singleton. by eexists.
  - intros p ->%elem_of_singleton. split; [set_solver|computed].
  - intros p [? [<- _]%lookup_singleton_Some]. left. set_solver.
Qed.

Lemma metadata_roundtrip_witness :
  ∃ bytes, file_of (cache_metadata_write toy_meta) = Ret ((), bytes) ∧
    cache_metadata_read (stream_at [] (bytes ++ [1])) = Ret (toy_meta, stream_at bytes [1]).
Proof. apply metadata_roundtrip. exact toy_header_wf. Defined.

Lemma fetch_k2tree_correct_witness :
  ∃ r h', fetch_k2tree 4 toy_index = Ret (r, h') ∧ host_ok h' ∧ index_ok toy_file (index_of h') ∧
    (∀ q, index_points toy_file h' q = index_points toy_file toy_index q) ∧
    match index_points toy_file toy_index 4 with
    | None => does_exist r = false ∧ h' = toy_index
    | Some P => does_exist r = true ∧ ∃ t, fetch_result r = Some t ∧
                good_tree (k2tree_config (index_of toy_index)) t ∧ pts t = P
    end.
Proof. apply (fetch_k2tree_correct toy_file 4 toy_index); [done|exact toy_index_ok]. Defined.

Lemma sync_keeps_points_witness :
  ∃ i' data, sync_to_persistent toy_index = Ret i' ∧ index_file i' = Some data ∧
  (Z.of_nat (length data) < 2 ^ 63 →
   index_ok data i' ∧ (∀ p, main_points data i' p = main_points toy_file toy_index p) ∧
   ∀ mm, ∃ i2, new_PredicatesIndexCacheMD (Some data) mm = Ret i2 ∧ index_ok data i2 ∧
     ∀ p, main_points data i2 p = main_points toy_file toy_index p).
Proof.
  apply (sync_keeps_points toy_file toy_index); [exact toy_index_ok|].
  simpl. intros p _ t [_ [= <-]]%lookup_singleton_Some. split; [exact toy_tree_wf|computed].
Defined.
End witnesses.
