(* ===== verification/Fic.v ===== *)
(** * core/fic: the cache of indexed predicates

    [FullyIndexedCacheImpl] keeps an index of both columns for the predicates
    that are streamed most, as many as the LRU cache lets it. The indexes are
    copies: a predicate whose tree changes must be indexed again. The fetcher
    the C++ object refers to belongs to the manager; here the operations pass it
    along. *)
From S2P Require Import Prelude Streams Memory Blocks K2Tree Scanners Fetcher Replacement CachedSource.

Local Open Scope Z_scope.

(** ** The operations *)

(** FullyIndexedCache.hpp: the interface, over the fetcher [F] it refers to.
    [fic_get] is [get], whose FullyIndexedCacheResponse is a pointer. *)
Class FullyIndexedCache (C F : Type) := {
  init_streamer_predicates : list Z → C → F → outcome (C * F);
  should_cache : Z → C → F → outcome (bool * F);
  fic_get : Z → C → option FullyIndexedPredicate;
  resync_predicate : Z → C → F → outcome (C * F)
}.

(** FullyIndexedCacheResponse.cpp. *)
Definition response_exists (r : option FullyIndexedPredicate) : bool := bool_decide (is_Some r).

(** types.hpp. *)
Notation cache_map_t := (gmap Z FullyIndexedPredicate).

Record FullyIndexedCacheImpl := mkFIC {
  cached_predicates_sources : cache_map_t;
  cache_replacement : CacheReplacement LRUReplacementStrategy
}.

(** NoFIC.cpp. *)
Record NoFIC := mkNoFIC {}.
#[global] Instance NoFIC_cache F : FullyIndexedCache NoFIC F := {|
  init_streamer_predicates _ c f := Ret (c, f);
  should_cache _ _ f := Ret (false, f);
  fic_get _ _ := None;
  resync_predicate _ c f := Ret (c, f)
|}.

Section fic.
Context `{Lib : K2Lib} {F : Type} `{K2TreeFetcher F}.

(** CacheDataManager.cpp: the map, and the fetcher it refers to. *)
Definition cdm_remove_key (key : Z) (d : cache_map_t * F) : outcome (cache_map_t * F) :=
  Ret (delete key d.1, d.2).
Definition cdm_retrieve_key (key : Z) (d : cache_map_t * F) : outcome (cache_map_t * F) :=
  '(fetch_result, f) ← fetch_k2tree key d.2;
  k2tree ← fetch_get fetch_result;
  source ← new_FullyIndexedPredicate k2tree;
  Ret (<[key := source]> d.1, f).
#[global] Instance CacheDataManager : DataManager (cache_map_t * F) := {|
  dm_remove_key := cdm_remove_key;
  dm_retrieve_key := cdm_retrieve_key
|}.

(** FICFactory.cpp: one gigabyte. *)
Definition FICFactory_create : FullyIndexedCacheImpl :=
  mkFIC ∅ (new_CacheReplacement 1000000000).

(** FullyIndexedCacheImpl.cpp. *)
Definition fic_should_cache (predicate : Z) (f : F) : outcome (bool * F) :=
  '(fetch_result, f) ← fetch_k2tree_if_loaded predicate f;
  if negb (loaded fetch_result) then Ret (false, f)
  else k2tree ← fetch_get fetch_result; Ret (size k2tree <? 10000000, f).

Definition init_streamer_predicate (cf : FullyIndexedCacheImpl * F) (predicate : Z)
    : outcome (FullyIndexedCacheImpl * F) :=
  let '(c, f) := cf in
  '(b, f) ← fic_should_cache predicate f;
  if negb b then Ret (c, f)
  else
    '(fetched, f) ← fetch_k2tree predicate f;
    k2tree ← fetch_get fetched;
    '(_, cr, (sources, f)) ← hit_key predicate (u64 (size k2tree * 25)) (cache_replacement c)
                               (cached_predicates_sources c, f);
    Ret (mkFIC sources cr, f).

Definition fic_resync_predicate (predicate_id : Z) (c : FullyIndexedCacheImpl) (f : F)
    : outcome (FullyIndexedCacheImpl * F) :=
  match cached_predicates_sources c !! predicate_id with
  | None => Ret (c, f)
  | Some _ =>
      '(sources, f) ← dm_retrieve_key predicate_id (cached_predicates_sources c, f);
      Ret (mkFIC sources (cache_replacement c), f)
  end.

#[global] Instance FullyIndexedCacheImpl_cache : FullyIndexedCache FullyIndexedCacheImpl F := {|
  init_streamer_predicates ps c f := foldM init_streamer_predicate (c, f) ps;
  should_cache p _ f := fic_should_cache p f;
  fic_get p c := cached_predicates_sources c !! p;
  resync_predicate := fic_resync_predicate
|}.
End fic.

(** ** What the cache promises *)

Section laws.
Context `{Lib : K2Lib, !K2LibLaws} {F : Type} `{KF : K2TreeFetcher F, FL : !K2TreeFetcherLaws F}.

(** The fetcher may load trees, but the points stay. *)
Definition same_fetcher (f f' : F) : Prop :=
  fetcher_ok f' ∧ (∀ q, points_of f' q = points_of f q) ∧ fetcher_qw f' = fetcher_qw f.

(** [fic_ok c f]: every index the cache holds has the points the fetcher gives. *)
Class FullyIndexedCacheLaws (C : Type) `{FullyIndexedCache C F} := {
  fic_ok : C → F → Prop;
  fic_fetcher c f : fic_ok c f → fetcher_ok f;
  get_law c f p source : fic_ok c f → fic_get p c = Some source →
    ∃ T, points_of f p = Some T ∧ indexes source T;
  init_law ps c f : fic_ok c f →
    ∃ c' f', init_streamer_predicates ps c f = Ret (c', f') ∧ fic_ok c' f' ∧ same_fetcher f f';
  resync_law p c f f1 : fic_ok c f → fetcher_ok f1 → is_Some (points_of f1 p) →
    (∀ q, q ≠ p → points_of f1 q = points_of f q) →
    ∃ c' f', resync_predicate p c f1 = Ret (c', f') ∧ fic_ok c' f' ∧ same_fetcher f1 f' ∧
      (in_memory f1 p → f' = f1);
  fic_extend c f f' : fic_ok c f → fetcher_ok f' →
    (∀ q T, points_of f q = Some T → points_of f' q = Some T) → fic_ok c f'
}.
End laws.

#[global, refine] Instance NoFIC_laws `{K2LibLaws, K2TreeFetcher F, !K2TreeFetcherLaws F} :
  FullyIndexedCacheLaws (F := F) NoFIC := {| fic_ok _ := fetcher_ok |}.
Proof.
- done.
- done.
- intros ps c f Hf. eexists _, _. by split_and!.
- intros p c f f1 _ Hf1 _ _. eexists _, _. by split_and!.
- done.
Defined.

(** ** FullyIndexedCacheImpl keeps its promises *)

Section impl.
Context `{Lib : K2Lib, !K2LibLaws} {F : Type} `{KF : K2TreeFetcher F, FL : !K2TreeFetcherLaws F}.
Implicit Types (f : F) (m : cache_map_t) (P : Z → option (gset (Z * Z))).

(** Every index has the points [P] of its predicate. *)
Definition fresh P m : Prop :=
  ∀ p source, m !! p = Some source → ∃ T, P p = Some T ∧ indexes source T.
(** A fetcher that gives the points [P], in the coordinates [Q]. *)
Definition gives P (Q : K2QStateWrapper) f : Prop :=
  fetcher_ok f ∧ (∀ q, points_of f q = P q) ∧ fetcher_qw f = Q.

Lemma gives_same P Q f f' : gives P Q f → same_fetcher f f' ↔ gives P Q f'.
Proof.
  intros (Hf & HP & HQ). unfold same_fetcher, gives. setoid_rewrite HP. by rewrite HQ.
Qed.

(** Indexing a predicate, in both cases. *)
Lemma retrieve_spec P Q key m f : gives P Q f →
  match P key with
  | Some T => ∃ source f', cdm_retrieve_key key (m, f) = Ret (<[key := source]> m, f') ∧
                indexes source T ∧ gives P Q f'
  | None => cdm_retrieve_key key (m, f) = UB
  end.
Proof.
  intros (Hf & HP & HQ). unfold cdm_retrieve_key. cbn [snd fst].
  destruct (fetch_law f key Hf) as (r & f' & -> & Hf' & HP' & HQ' & Hr).
  rewrite HP in Hr. cbn [mbind outcome_bind]. unfold fetch_get.
  destruct (P key) as [T|].
  - destruct Hr as (_ & t & -> & Hok & <- & _). destruct (build_indexes t Hok) as (source & Hs & Hi).
    cbn [deref mbind outcome_bind]. rewrite Hs. exists source, f'.
    split_and!; [done|done|]. split_and!; [done| |congruence]. intros q. by rewrite HP'.
  - by destruct Hr as [_ ->].
Qed.

Lemma fresh_insert P m key source T : P key = Some T → indexes source T → fresh P m →
  fresh P (<[key := source]> m).
Proof.
  intros HP Hi Hm p s'. rewrite lookup_insert. case_decide as E; [|by apply Hm].
  intros [= <-]. exists T. by rewrite <-E.
Qed.

#[local, refine] Instance cdm_laws P Q : DataManagerLaws (cache_map_t * F) := {|
  dm_ok d := gives P Q d.2 ∧ fresh P d.1;
  loaded_keys d := dom d.1
|}.
Proof.
- intros k [m f] [Hf Hm]. eexists. split; [done|]. simpl. split; [split; [done|]|set_solver].
  intros p source [_ Hp]%lookup_delete_Some. by apply Hm.
- intros k [m f] d' [Hf Hm] E. pose proof (retrieve_spec P Q k m f Hf) as Hr.
  simpl in E, Hf. destruct (P k) as [T|] eqn:EP; [|congruence].
  destruct Hr as (source & f' & E' & Hi & Hg). rewrite E' in E. injection E as <-. simpl.
  split; [split; [done|]|set_solver]. by eapply fresh_insert.
Defined.

Notation cr_ok_at P Q := (cr_ok (H2 := cdm_laws P Q)).
Definition impl_ok (c : FullyIndexedCacheImpl) f : Prop :=
  cr_ok_at (points_of f) (fetcher_qw f) (cache_replacement c) (cached_predicates_sources c, f).

(** The bookkeeping does not depend on the points. *)
Lemma cr_ok_move P Q P' Q' (cr : CacheReplacement LRUReplacementStrategy) m f m' f' :
  cr_ok_at P Q cr (m, f) → dom m' = dom m → gives P' Q' f' → fresh P' m' →
  cr_ok_at P' Q' cr (m', f').
Proof.
  intros [Ho Ht Hs Hu Hl _ Hd] Hdom Hf' Hm'. split; try done. simpl in *. congruence.
Qed.
Lemma gives_self f : fetcher_ok f → gives (points_of f) (fetcher_qw f) f.
Proof. by intros Hf. Qed.
Lemma fresh_ext P P' m : (∀ q, P' q = P q) → fresh P m → fresh P' m.
Proof. intros HP Hm p source Hp. rewrite HP. by apply Hm. Qed.
Lemma impl_ok_at P Q c f : gives P Q f →
  cr_ok_at P Q (cache_replacement c) (cached_predicates_sources c, f) → impl_ok c f.
Proof.
  intros (Hf & HP & HQ) Hok. pose proof (cr_manager _ _ Hok) as [_ Hm].
  eapply cr_ok_move; [exact Hok|done|by apply gives_self|by eapply fresh_ext].
Qed.

Lemma init_step p c f : impl_ok c f →
  ∃ c' f', init_streamer_predicate (c, f) p = Ret (c', f') ∧ impl_ok c' f' ∧ same_fetcher f f'.
Proof.
  intros Hok. pose proof (cr_manager _ _ Hok) as [(Hf & _) Hm]. simpl in Hf, Hm.
  unfold init_streamer_predicate, fic_should_cache.
  destruct (fetch_if_loaded_law f p Hf) as (r & -> & Hr). cbn [mbind outcome_bind].
  assert (Hstay : ∃ c' f', Ret (c, f) = Ret (c', f') ∧ impl_ok c' f' ∧ same_fetcher f f')
    by (eexists _, _; by split_and!).
  unfold loaded. destruct (does_exist r) eqn:Ed; [|exact Hstay].
  destruct (fetch_result r) as [t|] eqn:Et; [|exact Hstay].
  rewrite bool_decide_true by by eexists. cbn [andb negb]. assert (fetch_get r = Ret t) as ->
    by (unfold fetch_get; by rewrite Et). cbn [mbind outcome_bind].
  destruct (Z.ltb_spec (size t) 10000000) as [Hlt|]; [|exact Hstay]. cbn [negb].
  destruct (Hr t eq_refl) as (HP & _).
  destruct (fetch_law f p Hf) as (r2 & f2 & -> & Hf2 & HP2 & HQ2 & Hr2). rewrite HP in Hr2.
  destruct Hr2 as (_ & t2 & Et2 & _). cbn [mbind outcome_bind]. assert (fetch_get r2 = Ret t2) as ->
    by (unfold fetch_get; by rewrite Et2). cbn [mbind outcome_bind].
  set (P := points_of f) in *. set (Q := fetcher_qw f) in *.
  assert (Hg2 : gives P Q f2) by done.
  destruct (hit_key_spec (H2 := cdm_laws P Q) (cache_replacement c)
    (cached_predicates_sources c, f2) p (u64 (size t2 * 25))) as (b & cr & [m f3] & E & Hpost & _).
  - by eapply cr_ok_move.
  - apply uwrap_range. lia.
  - intros [m' f'] [Hg' Hm']. pose proof (retrieve_spec P Q p m' f' Hg') as Hret. rewrite HP in Hret.
    destruct Hret as (source & f'' & E & _). by eexists.
  - rewrite E. cbn [mbind outcome_bind]. pose proof (cr_manager _ _ Hpost) as [Hg3 _].
    eexists _, f3. split; [done|]. split; [by apply (impl_ok_at P Q)|].
    by apply (gives_same P Q f f3).
Qed.

Lemma init_steps ps : ∀ c f, impl_ok c f →
  ∃ c' f', foldM init_streamer_predicate (c, f) ps = Ret (c', f') ∧ impl_ok c' f' ∧
    same_fetcher f f'.
Proof.
  induction ps as [|p ps IH]; intros c f Hok; cbn [foldM].
  { exists c, f. pose proof (cr_manager _ _ Hok) as [(Hf & _) _]. by split_and!. }
  destruct (init_step p c f Hok) as (c1 & f1 & -> & Hok1 & Hs1). cbn [mbind outcome_bind].
  destruct (IH c1 f1 Hok1) as (c' & f' & -> & Hok' & Hs'). exists c', f'.
  split_and!; [done..|]. destruct Hs1 as (_ & HP1 & HQ1), Hs' as (Hf' & HP' & HQ').
  split_and!; [done|intros q; by rewrite HP'|congruence].
Qed.

Lemma resync_ok p c f f1 : impl_ok c f → fetcher_ok f1 → is_Some (points_of f1 p) →
  (∀ q, q ≠ p → points_of f1 q = points_of f q) →
  ∃ c' f', fic_resync_predicate p c f1 = Ret (c', f') ∧ impl_ok c' f' ∧ same_fetcher f1 f' ∧
    (in_memory f1 p → f' = f1).
Proof.
  intros Hok Hf1 [T HT] Hother. pose proof (cr_manager _ _ Hok) as [_ Hm]. simpl in Hm.
  set (P := points_of f1). set (Q := fetcher_qw f1).
  unfold fic_resync_predicate. destruct (cached_predicates_sources c !! p) as [old|] eqn:Ep.
  - pose proof (retrieve_spec P Q p (cached_predicates_sources c) f1) as Hr.
    unfold P in Hr. rewrite HT in Hr.
    destruct Hr as (source & f' & E & Hi & Hg); [by apply gives_self|].
    unfold dm_retrieve_key, CacheDataManager. rewrite E. cbn [mbind outcome_bind].
    eexists _, f'. split; [done|]. split; [|split; [by apply (gives_same P Q f1)|]].
    2: { intros Hmem. destruct (fetch_in_memory_law f1 p Hf1 Hmem) as [r Er].
         unfold cdm_retrieve_key in E. cbn [snd] in E. rewrite Er in E. cbn [snd mbind outcome_bind] in E.
         destruct (fetch_get r) as [t| |]; try discriminate E. cbn [mbind outcome_bind] in E.
         destruct (new_FullyIndexedPredicate t); try discriminate E. by injection E as _ <-. }
    apply (impl_ok_at P Q); [done|]. simpl. eapply cr_ok_move; [exact Hok| |done|].
    + rewrite dom_insert_L. apply elem_of_dom_2 in Ep. set_solver.
    + intros q s. rewrite lookup_insert. case_decide as Eq.
      * intros [= <-]. exists T. by rewrite <-Eq.
      * intros Hq. unfold P. rewrite Hother by done. by apply Hm.
  - exists c, f1. split; [done|]. split; [|by split_and!].
    apply (impl_ok_at P Q); [done|]. eapply cr_ok_move; [exact Hok|done..|].
    intros q s Hq. unfold P. rewrite Hother by naive_solver. by apply Hm.
Qed.

#[global, refine] Instance FullyIndexedCacheImpl_laws : FullyIndexedCacheLaws (F := F) FullyIndexedCacheImpl :=
  {| fic_ok := impl_ok |}.
Proof.
- intros c f Hok. by pose proof (cr_manager _ _ Hok) as [(Hf & _) _].
- intros c f p source Hok. pose proof (cr_manager _ _ Hok) as [_ Hm]. by apply Hm.
- intros ps c f Hok. by apply init_steps.
- exact resync_ok.
- intros c f f' Hok Hf' Hx. pose proof (cr_manager _ _ Hok) as [_ Hm]. simpl in Hm.
  eapply cr_ok_move; [exact Hok|done|by apply gives_self|].
  intros p source Hp. destruct (Hm p source Hp) as (T & HT & Hi). exists T. split; [by apply Hx|done].
Defined.

(** A new cache is empty. *)
Lemma FICFactory_ok f : fetcher_ok f → fic_ok FICFactory_create f.
Proof.
  intros Hf. split; simpl; try done; try constructor; try lia.
Qed.
End impl.
