(* ===== verification/Manager.v ===== *)
(** * core/manager: the predicates cache manager

    [PredicatesCacheManagerImpl] owns the index, the log and the cache of
    indexed predicates. The log in turn hands the updates it recovers to the
    manager, through a wrapper that is pointed at it. The two are one state
    here: the log, with the rest of the manager as the owner of its data. *)
From S2P Require Import Prelude Streams Memory Blocks K2Tree Scanners Fetcher Hashing Replacement CachedSource UpdatesLog PredicatesIndex Fic.

Local Open Scope Z_scope.

(** ** PredicatesCacheManagerImpl.cpp *)

(** The manager without its log. *)
Record PredicatesCacheManagerImpl (C : Type) := mkPCM {
  predicates_index : PredicatesIndexCacheMD;
  fully_indexed_cache : C
}.
Arguments mkPCM {C}. Arguments predicates_index {C}. Arguments fully_indexed_cache {C}.
Notation PCM := PredicatesCacheManagerImpl.
(** With its log. *)
Notation PCMWithLog C := (UpdatesLoggerImpl (PCM C)).

Section manager.
Context `{Hp : Heap, Blk : BlockLib, Lib : K2Lib, Ssl : OpenSSL}.
Context {C : Type} `{FC : !FullyIndexedCache C PredicatesIndexCacheMD}.

(** The scan of the tree to merge takes as many steps as it has points. *)
Definition merge_fuel (t : K2TreeMixed) : nat := S (length (get_all_points t)).

(** The predicate is in memory when its tree is fetched, so the log, which is
    not at hand here, is not asked for it ([fetch_in_memory_law]). *)
Definition merge_op_tree (predicate_id : Z) (to_merge_k2tree : K2TreeMixed)
    (op : Z → Z → K2TreeBulkOp → K2TreeBulkOp) (create_if_doesnt_exists : bool)
    (m : PCM C) : outcome (PCM C) :=
  let active := has_predicate_active predicate_id (predicates_index m) in
  if negb active && negb create_if_doesnt_exists then Ret m
  else
    let i := if active then predicates_index m
             else add_predicate predicate_id (predicates_index m) in
    '(fetched, i) ← fetch_k2tree predicate_id i;
    if negb (exists_tree fetched) then Throw RuntimeError
    else
      k2tree_active ← fetch_get fetched;
      scanned ← while_scan (merge_fuel to_merge_k2tree) (λ b p, Ret (op p.1 p.2 b))
                  (new_bulk k2tree_active) (create_full_scanner to_merge_k2tree);
      bulk_op ← deref scanned;
      let i := mark_dirty predicate_id (put_tree predicate_id (Some (bulk_tree bulk_op)) i) in
      '(fic, i) ← resync_predicate predicate_id (fully_indexed_cache m) i;
      Ret (mkPCM i fic).

Definition pcm_merge_add_tree (p : Z) (t : K2TreeMixed) (m : PCM C) : outcome (PCM C) :=
  merge_op_tree p t bulk_insert true m.
Definition pcm_merge_delete_tree (p : Z) (t : K2TreeMixed) (m : PCM C) : outcome (PCM C) :=
  merge_op_tree p t bulk_remove false m.

Definition merge_one_update (m : PCM C) (update : K2TreeUpdates) : outcome (PCM C) :=
  if negb (has_predicate_active (UpdatesLog.predicate_id update) (predicates_index m)) then Ret m
  else
    m ← (match k2tree_add update with
         | Some t => pcm_merge_add_tree (UpdatesLog.predicate_id update) t m
         | None => Ret m end);
    match k2tree_del update with
    | Some t => pcm_merge_delete_tree (UpdatesLog.predicate_id update) t m
    | None => Ret m
    end.
#[global] Instance PCM_merger : DataMerger (PCM C) := {|
  merge_add_tree := pcm_merge_add_tree;
  merge_delete_tree := pcm_merge_delete_tree;
  dm_merge_update updates m := foldM merge_one_update m updates
|}.

(** The index reaches the log through its manager. *)
#[global] Instance PCM_host : UpdatesLogHost (PCMWithLog C) := {|
  index_of w := predicates_index (data_merger w);
  with_index i w := set_merger w (mkPCM i (fully_indexed_cache (data_merger w)));
  log_has_predicate_stored p w := UpdatesLog.has_predicate_stored p w;
  log_recover_predicate := recover_predicate;
  log_recover_all := recover_all;
  log_compact_logs := compact_logs;
  log_get_predicates w := Ret (get_predicates w);
  log_clean_append_log w := Ret (clean_append_log w)
|}.

Definition get_predicate_size (p : Z) (w : PCMWithLog C) : Z :=
  match metadata_map (metadata (index_of w)) !! p with
  | None => 0
  | Some md => tree_size_in_memory md
  end.
Definition pcm_load_all_predicates (w : PCMWithLog C) : outcome (PCMWithLog C) :=
  load_all_predicates w.
Definition pcm_remove_key (key : Z) (w : PCMWithLog C) : outcome (PCMWithLog C) :=
  Ret (on_index (discard_in_memory_predicate key) w).
Definition pcm_retrieve_key (key : Z) (w : PCMWithLog C) : outcome (PCMWithLog C) :=
  '(_, w) ← load_single_predicate key w; Ret w.
#[global] Instance PCM_data_manager : DataManager (PCMWithLog C) := {|
  dm_remove_key := pcm_remove_key;
  dm_retrieve_key := pcm_retrieve_key
|}.
Definition create_null_k2tree_scanner : K2TreeScanner := NullScanner.

(** ** PCMFactory.cpp *)

(** The constructor replays the log through the wrapper. *)
Definition new_PredicatesCacheManagerImpl (i : PredicatesIndexCacheMD)
    (updates_logger : UpdatesLoggerImpl (PCMMergerWrapper (PCM C))) (fic : C)
    : outcome (UpdatesLoggerImpl (PCMMergerWrapper (PCM C)) * PCM C) :=
  let m := mkPCM (set_update_logger i) fic in
  updates_logger ← recover_all updates_logger;
  Ret (updates_logger, m).

(** [set_ref]: from here on the manager is the owner of the log's data. *)
Definition pcm_set_ref {M : Type} (m : PCM C) (l : UpdatesLoggerImpl M) : PCMWithLog C :=
  mkLogger m (index_logs l) (offsets_file l) (metadata_file l) (current_file_writer l)
    (current_file_reader l) (metadata_file_rw l) (offsets_map l) (total_updates l).

(** [fic] is what [has_fic] chooses: [FICFactory_create] or [mkNoFIC]. *)
Definition PCMFactory_create (index_file logs offsets metadata : option (list Z))
    (mm : MemoryManager) (fic : C) : outcome (PCMWithLog C) :=
  updates_logger ← new_UpdatesLoggerImpl (mkWrapper None) logs offsets metadata;
  i ← new_PredicatesIndexCacheMD index_file mm;
  '(updates_logger, m) ← new_PredicatesCacheManagerImpl i updates_logger fic;
  Ret (pcm_set_ref m updates_logger).
End manager.

(** The read-only manager, whose log is NoUpdate. *)
Definition PCMFactory_open (index_file : option (list Z)) (mm : MemoryManager)
    : outcome (PCM NoFIC) :=
  i ← new_PredicatesIndexCacheMD index_file mm;
  i ← log_recover_all (set_update_logger i);
  Ret (mkPCM i mkNoFIC).

(** ** Merging a tree *)

Section merging.
Context `{Hp : Heap, Blk : BlockLib, !BlockLibLaws, Lib : K2Lib, !K2LibLaws, Ssl : OpenSSL}.
Context {C : Type} `{FC : !FullyIndexedCache C PredicatesIndexCacheMD, FCL : !FullyIndexedCacheLaws C}.
Implicit Types (m : PCM C) (i : PredicatesIndexCacheMD).

(** A tree to merge may have another configuration than the index: only its
    points have to be within the coordinates of the index. *)
Definition tree_fits (st : K2QStateWrapper) (t : K2TreeMixed) : Prop :=
  tm_ok t ∧ ∀ q, q ∈ pts t → in_coords st q.
Definition opt_fits (st : K2QStateWrapper) (t : option K2TreeMixed) : Prop :=
  match t with Some t => tree_fits st t | None => True end.
Definition update_fits (st : K2QStateWrapper) (u : PredicateUpdate) : Prop :=
  opt_fits st (add_update u) ∧ opt_fits st (del_update u).

Lemma tree_at_fits st t : tree_at st t → tree_fits st t.
Proof.
  intros [Hok <-]. split; [done|]. intros q Hq%elem_of_pts.
  by eapply Forall_forall, Hq; apply scan_range, Hok.
Qed.
Lemma fitting_points st t l : tree_fits st t → l ≡ₚ elements (pts t) →
  Forall (in_coords st) l ∧ list_to_set l = pts t.
Proof.
  intros [_ Hf] Hl. split.
  - apply Forall_forall. intros q. rewrite Hl, elem_of_elements. apply Hf.
  - apply set_eq. intros p. by rewrite elem_of_list_to_set, Hl, elem_of_elements.
Qed.
Lemma same_opt_fits st t t' : same_opt t t' → opt_fits st t → opt_fits st t' ∧ opt_pts t' = opt_pts t.
Proof.
  destruct t as [t|], t' as [t'|]; simpl; [|done..].
  intros (Hc & Hq & Hv) [Hok Hf]. destruct (tm_ok_view t t' Hok Hc Hq Hv) as [Hok' E].
  split; [|exact E]. split; [exact Hok'|]. by rewrite E.
Qed.
Lemma same_update_fits st u u' : same_update u u' → update_fits st (update_of u) →
  update_fits st u' ∧ ∀ s, effect u' s = effect (update_of u) s.
Proof.
  intros (_ & Ha & Hd) [Aa Ad].
  destruct (same_opt_fits st _ _ Ha Aa) as [Ba Ea], (same_opt_fits st _ _ Hd Ad) as [Bd Ed].
  unfold effect. simpl in *. by rewrite Ea, Ed.
Qed.

(** The loop of a merge: the points scanned, inserted or removed one by one. *)
Lemma bulk_ops_spec op (g : Z * Z → tree_op) st (tm t : K2TreeMixed) :
  (∀ t p, bulk_tree (op p.1 p.2 (new_bulk t)) = run_op t (g p)) →
  (∀ c r b, bulk_stw (op c r b) = bulk_stw b) → (∀ p, op_point (g p) = p) →
  tree_fits st tm → tree_at st t →
  ∃ b, while_scan (merge_fuel tm) (λ b p, Ret (op p.1 p.2 b)) (new_bulk t) (create_full_scanner tm) =
         Ret (Some b) ∧
    ∃ l, list_to_set l = pts tm ∧ tree_at st (bulk_tree b) ∧
      pts (bulk_tree b) = fold_left spec_op (g <$> l) (pts t).
Proof.
  intros Hop Hstw Hg Htm Ht. destruct (full_scanner_spec tm (proj1 Htm)) as (l & Hd & Hl).
  destruct (fitting_points st tm l Htm Hl) as [Hc Hset].
  assert (Hfold : fold_left (λ b p, op p.1 p.2 b) l (new_bulk t) =
                  new_bulk (fold_left run_op (g <$> l) t)).
  { destruct Ht as [Hok Hq]. clear Hd Hl Hset. revert t Hok Hq.
    induction Hc as [|p l Hp1 Hc IH]; intros t Hok Hq; [done|]. simpl.
    destruct (run_ops_spec [g p] t Hok) as (Hok1 & Hq1 & _).
    { constructor; [|done]. by rewrite Hg, Hq. }
    simpl in Hok1, Hq1. rewrite <-IH by congruence. f_equal.
    pose proof (Hop t p) as E1. pose proof (Hstw p.1 p.2 (new_bulk t)) as E2.
    destruct (op p.1 p.2 (new_bulk t)) as [t1 q1]. simpl in E1, E2. unfold new_bulk.
    rewrite E1, E2. by rewrite Hq1. }
  destruct Ht as [Hok Hq].
  destruct (run_ops_spec (g <$> l) t Hok) as (Hok' & Hq' & Hp').
  { rewrite Forall_fmap, Hq. weaken Hc. simpl. by rewrite Hg. }
  exists (new_bulk (fold_left run_op (g <$> l) t)). split.
  - rewrite (while_scan_delivers _ _ _ l) by
      (done || (unfold merge_fuel; rewrite get_all_points_perm, <-Hl by apply Htm; lia)).
    simpl. by rewrite foldM_ret, Hfold.
  - exists l. split_and!; [done|split; [done|by simpl; congruence]|done].
Qed.

Lemma bulk_insert_spec st tm t : tree_fits st tm → tree_at st t →
  ∃ b, while_scan (merge_fuel tm) (λ b p, Ret (bulk_insert p.1 p.2 b)) (new_bulk t)
         (create_full_scanner tm) = Ret (Some b) ∧
    tree_at st (bulk_tree b) ∧ pts (bulk_tree b) = pts t ∪ pts tm.
Proof.
  intros Htm Ht.
  destruct (bulk_ops_spec bulk_insert (λ p, OpInsert p.1 p.2) st tm t) as (b & E & l & Hl & Hb & Hpt);
    [done|done|by intros []|done..|].
  exists b. split_and!; [done..|]. by rewrite Hpt, spec_inserts, Hl.
Qed.
Lemma bulk_remove_spec st tm t : tree_fits st tm → tree_at st t →
  ∃ b, while_scan (merge_fuel tm) (λ b p, Ret (bulk_remove p.1 p.2 b)) (new_bulk t)
         (create_full_scanner tm) = Ret (Some b) ∧
    tree_at st (bulk_tree b) ∧ pts (bulk_tree b) = pts t ∖ pts tm.
Proof.
  intros Htm Ht.
  destruct (bulk_ops_spec bulk_remove (λ p, OpRemove p.1 p.2) st tm t) as (b & E & l & Hl & Hb & Hpt);
    [done|done|by intros []|done..|].
  exists b. split_and!; [done..|]. by rewrite Hpt, spec_removes, Hl.
Qed.

(** The tree of a predicate in memory is replaced, and marked as changed. *)
Lemma put_dirty_ok d p i o t : index_ok d i → predicates i !! p = Some o →
  good_tree (k2tree_config i) t → index_ok d (mark_dirty p (put_tree p (Some t) i)).
Proof.
  intros [Hf His Hc Hids Hst Htr Hcl Hdi Hne Hkn] Ho Hg. constructor; simpl; try done.
  - intros q u. rewrite lookup_insert. case_decide; [|by apply Htr].
    intros [= <-]. by exists t.
  - intros q u. rewrite lookup_insert. case_decide; [set_solver|]. intros Hq Hd. apply Hcl; set_solver.
  - intros q Hq. rewrite lookup_insert. case_decide; [by eexists|]. apply Hdi. set_solver.
  - intros q Hq. split; [|by apply Hne]. apply elem_of_union_r. by apply Hne.
  - intros q. rewrite lookup_insert. case_decide as E; [|apply Hkn]. subst q. intros _.
    apply Hkn. by eexists.
Qed.

Definition core_ok (d : list Z) m : Prop :=
  index_ok d (predicates_index m) ∧ fic_ok (fully_indexed_cache m) (predicates_index m).

Lemma index_fetcher_ok d i : index_ok d i → fetcher_ok i.
Proof. intros Hi. split; [done|by exists d]. Qed.

(** With no log, the points are those of the index alone. *)
Lemma plain_points d i p : index_ok d i → points_of i p = main_points d i p.
Proof.
  intros Hi. simpl. rewrite (ix_file d i Hi). unfold index_points, main_points, logged,
    is_stored_in_updates_log, index_of, NoUpdate, log_has_predicate_stored.
  rewrite andb_false_r. simpl. repeat case_match; simplify_eq/=; done.
Qed.
Lemma same_but_points d d' p i i' q : index_ok d i → index_ok d i' → same_but p i i' → q ≠ p →
  main_points d' i' q = main_points d' i q.
Proof. intros _ _ (Hq & Hm & _) Hne. unfold main_points. by rewrite Hq, Hm. Qed.

(** The points of a predicate in memory. *)
Definition memory_points i (p : Z) : gset (Z * Z) :=
  match predicates i !! p with Some (Some t) => pts t | _ => ∅ end.

(** The result of a merge with effect [f] on predicate [p]. *)
Definition merged (d : list Z) (p : Z) (f : gset (Z * Z) → gset (Z * Z)) m m' : Prop :=
  core_ok d m' ∧ same_but p (predicates_index m) (predicates_index m') ∧
  p ∈ dirty_predicates (predicates_index m') ∧
  ∃ t, predicates (predicates_index m') !! p = Some (Some t) ∧
    pts t = f (memory_points (predicates_index m) p).

Lemma merge_op_spec d p tm op create f m : core_ok d m → in_u 64 p →
  (∀ t, good_tree (k2tree_config (predicates_index m)) t →
    ∃ b, while_scan (merge_fuel tm) (λ b p, Ret (op p.1 p.2 b)) (new_bulk t)
           (create_full_scanner tm) = Ret (Some b) ∧
      good_tree (k2tree_config (predicates_index m)) (bulk_tree b) ∧ pts (bulk_tree b) = f (pts t)) →
  is_Some (predicates (predicates_index m) !! p) ∨ create = true →
  ∃ m', merge_op_tree p tm op create m = Ret m' ∧ merged d p f m m'.
Proof.
  destruct m as [i c]. intros [Hi Hc] Hrange Hop Hact. simpl in *. unfold merge_op_tree. simpl.
  set (active := has_predicate_active p i).
  assert (Ha : active = true ↔ is_Some (predicates i !! p)).
  { unfold active, has_predicate_active. rewrite orb_true_iff, !bool_decide_eq_true.
    split; [|by left]. intros [?|Hn]; [done|]. apply (ix_dirty d i Hi), (ix_new d i Hi), Hn. }
  assert (Hgo : negb active && negb create = false).
  { destruct Hact as [H1%Ha| ->]; [by rewrite H1|apply andb_false_r]. }
  rewrite Hgo. set (i1 := if active then i else add_predicate p i).
  assert (H1 : index_ok d i1 ∧ same_but p i i1 ∧ ∃ t, predicates i1 !! p = Some (Some t) ∧
    pts t = memory_points i p).
  { unfold i1. destruct active.
    - split_and!; [done|apply same_but_refl|]. destruct (proj1 Ha eq_refl) as [o Ho].
      destruct (ix_trees d i Hi p o Ho) as (t & -> & _). exists t. unfold memory_points. by rewrite Ho.
    - assert (Hnone : predicates i !! p = None).
      { destruct (predicates i !! p) eqn:E; [|done]. by discriminate (proj2 Ha ltac:(by eexists)). }
      destruct (add_predicate_ok d p i Hi Hrange Hnone) as (? & ? & t & Ht & Hpt).
      split_and!; [done..|]. exists t. unfold memory_points. by rewrite Hnone. }
  destruct H1 as (Hi1 & Hb1 & t & Ht & Hpt). clearbody i1.
  assert (E1 : index_fetch_k2tree p i1 = Ret (mkFetch true (Some t), i1)).
  { unfold index_fetch_k2tree, index_of, NoUpdate, has_predicate_active. rewrite Ht.
    cbn [mbind outcome_bind negb]. rewrite bool_decide_true by by eexists.
    cbn [orb negb andb mbind outcome_bind]. unfold tree_pointer. by rewrite Ht. }
  rewrite E1. cbn [mbind outcome_bind exists_tree does_exist negb]. unfold fetch_get.
  cbn [fetch_result deref mbind outcome_bind].
  destruct (ix_trees d i1 Hi1 p _ Ht) as (t' & [= <-] & Hg).
  destruct Hb1 as (Hq1 & Hm1 & Hc1 & Hu1). rewrite Hc1 in Hg.
  destruct (Hop t Hg) as (b & -> & Hgb & Hpb). cbn [mbind outcome_bind deref].
  set (i2 := mark_dirty p (put_tree p (Some (bulk_tree b)) i1)).
  assert (Hi2 : index_ok d i2) by (eapply put_dirty_ok; [done|exact Ht|by rewrite Hc1]).
  assert (Hb2 : same_but p i i2).
  { split_and!; [|done..]. intros q Hq. simpl. rewrite lookup_insert_ne by done. by apply Hq1. }
  assert (Ht2 : predicates i2 !! p = Some (Some (bulk_tree b))) by apply lookup_insert_eq.
  destruct (resync_law p c i i2 Hc) as (c' & i3 & E & Hok & _ & Hsame).
  - by eapply index_fetcher_ok.
  - rewrite (plain_points d i2 p Hi2). unfold main_points. rewrite Ht2. by eexists.
  - intros q Hq. rewrite (plain_points d i2 q Hi2), (plain_points d i q Hi).
    by apply (same_but_points d d p).
  - rewrite E. cbn [mbind outcome_bind]. rewrite Hsame in * by (by eexists).
    eexists. split; [done|]. split_and!; [done..| |].
    + simpl. set_solver.
    + exists (bulk_tree b). split; [exact Ht2|]. by rewrite Hpb, Hpt.
Qed.

(** ** Replaying updates *)

Lemma replayed_id d p f i : index_ok d i → (∀ s, f s = s) → replayed p f i i.
Proof.
  intros Hi Hf. split; [apply same_but_refl|].
  destruct (predicates i !! p) as [o|] eqn:Ho.
  - destruct (ix_trees d i Hi p o Ho) as (t & -> & _). exists t. by rewrite Hf.
  - left. split_and!; [done| |apply Hf]. intros Hn. destruct (ix_new d i Hi p Hn) as [Hd _].
    destruct (ix_dirty d i Hi p Hd). congruence.
Qed.
Lemma replayed_trans p f g i1 i2 i3 :
  replayed p f i1 i2 → replayed p g i2 i3 → replayed p (λ s, g (f s)) i1 i3.
Proof.
  intros [B1 H1] [B2 H2]. split; [by eapply same_but_trans|].
  destruct (predicates i1 !! p) as [[t|]|].
  - destruct H1 as (t1 & E1 & P1). rewrite E1 in H2. destruct H2 as (t2 & E2 & P2).
    exists t2. by rewrite P2, P1.
  - destruct H1 as [(E1 & _ & P1)|(t1 & E1 & P1)]; rewrite E1 in H2; rewrite ?P1; [exact H2|].
    destruct H2 as (t2 & E2 & P2). right. exists t2. by rewrite P2, P1.
  - destruct H1 as [(E1 & _ & P1)|(t1 & E1 & P1)]; rewrite E1 in H2; rewrite ?P1; [exact H2|].
    destruct H2 as (t2 & E2 & P2). right. exists t2. by rewrite P2, P1.
Qed.
Lemma replayed_ext p f g i i' : (∀ s, f s = g s) → replayed p f i i' → replayed p g i i'.
Proof. intros Hfg [B Hc]. split; [done|].
  destruct (predicates i !! p) as [[t|]|]; by rewrite <-!Hfg.
Qed.

Lemma merged_replayed d p f m m' : core_ok d m → merged d p f m m' →
  replayed p f (predicates_index m) (predicates_index m').
Proof.
  intros [Hi _] (_ & Hb & _ & t & Ht & Hpt). split; [done|]. unfold memory_points in Hpt.
  destruct (predicates (predicates_index m) !! p) as [[t0|]|]; [by exists t|..]; right; by exists t.
Qed.

Lemma merge_add_spec d p tm m : core_ok d m → in_u 64 p →
  tree_fits (config_qw (k2tree_config (predicates_index m))) tm →
  ∃ m', pcm_merge_add_tree p tm m = Ret m' ∧ merged d p (λ s, s ∪ pts tm) m m'.
Proof.
  intros Hm Hr Htm. apply merge_op_spec; [done..| |by right].
  intros t Ht. by apply (bulk_insert_spec (config_qw (k2tree_config (predicates_index m)))).
Qed.
(** Removing from a predicate that is not in memory does nothing. *)
Lemma merge_delete_spec d p tm m : core_ok d m → in_u 64 p →
  tree_fits (config_qw (k2tree_config (predicates_index m))) tm →
  if has_predicate_active p (predicates_index m) then
    ∃ m', pcm_merge_delete_tree p tm m = Ret m' ∧ merged d p (λ s, s ∖ pts tm) m m'
  else pcm_merge_delete_tree p tm m = Ret m.
Proof.
  intros Hm Hr Htm. destruct (has_predicate_active p (predicates_index m)) eqn:Ea.
  - apply merge_op_spec; [done..| |].
    + intros t Ht. by apply (bulk_remove_spec (config_qw (k2tree_config (predicates_index m)))).
    + left. unfold has_predicate_active in Ea. rewrite orb_true_iff, !bool_decide_eq_true in Ea.
      destruct Ea as [?|Hn]; [done|]. apply (ix_dirty d _ (proj1 Hm)), (ix_new d _ (proj1 Hm)), Hn.
  - unfold pcm_merge_delete_tree, merge_op_tree. by rewrite Ea.
Qed.
Lemma active_iff d p i : index_ok d i → has_predicate_active p i = true ↔ is_Some (predicates i !! p).
Proof.
  intros Hi. unfold has_predicate_active. rewrite orb_true_iff, !bool_decide_eq_true.
  split; [|by left]. intros [?|Hn]; [done|]. apply (ix_dirty d i Hi), (ix_new d i Hi), Hn.
Qed.

Definition same_config i i' : Prop := k2tree_config i' = k2tree_config i.
Lemma merge_update_spec d p u m : core_ok d m → in_u 64 p → u_predicate u = p →
  update_fits (config_qw (k2tree_config (predicates_index m))) u →
  ∃ m', merge_update u m = Ret m' ∧ core_ok d m' ∧
    replayed p (effect u) (predicates_index m) (predicates_index m').
Proof.
  intros Hm Hr <- [Ha Hd]. unfold merge_update. set (p := u_predicate u) in *.
  assert (H1 : ∃ m1, (match add_update u with Some t => merge_add_tree p t m | None => Ret m end) = Ret m1 ∧
    core_ok d m1 ∧ replayed p (λ s, s ∪ opt_pts (add_update u)) (predicates_index m) (predicates_index m1)).
  { destruct (add_update u) as [t|]; simpl in Ha |- *.
    - destruct (merge_add_spec d p t m Hm Hr Ha) as (m1 & -> & Hmer). exists m1.
      split_and!; [done|apply Hmer|by apply (merged_replayed d)].
    - exists m. split_and!; [done..|]. apply (replayed_id d); [apply Hm|set_solver]. }
  destruct H1 as (m1 & -> & Hm1 & Hr1). cbn [mbind outcome_bind].
  assert (H2 : ∃ m2, (match del_update u with Some t => merge_delete_tree p t m1 | None => Ret m1 end) = Ret m2 ∧
    core_ok d m2 ∧ replayed p (λ s, s ∖ opt_pts (del_update u)) (predicates_index m1) (predicates_index m2)).
  { destruct (del_update u) as [t|]; simpl in Hd |- *.
    - assert (Hg : tree_fits (config_qw (k2tree_config (predicates_index m1))) t)
        by (destruct Hr1 as [(_ & _ & Hcfg & _) _]; by rewrite Hcfg).
      pose proof (merge_delete_spec d p t m1 Hm1 Hr Hg) as Hdel.
      destruct (has_predicate_active p (predicates_index m1)) eqn:Ea.
      + destruct Hdel as (m2 & -> & Hmer). exists m2.
        split_and!; [done|apply Hmer|by apply (merged_replayed d)].
      + exists m1. split_and!; [done..|]. split; [apply same_but_refl|].
        destruct (predicates (predicates_index m1) !! p) eqn:Eo.
        { rewrite (proj2 (active_iff d p _ (proj1 Hm1))) in Ea; [done|by rewrite Eo]. }
        left. split_and!; [done| |set_solver]. intros Hn.
        destruct (ix_dirty d _ (proj1 Hm1) p (proj1 (ix_new d _ (proj1 Hm1) p Hn))). congruence.
    - exists m1. split_and!; [done..|]. apply (replayed_id d); [apply Hm1|set_solver]. }
  destruct H2 as (m2 & -> & Hm2 & Hr2). exists m2. split_and!; [done..|].
  apply (replayed_trans p _ _ _ _ _ Hr1 Hr2).
Qed.

(** The update a record of the log holds, and the effect of several. *)
Definition logged_at (data : list Z) (o : Z) : option PredicateUpdate :=
  match recover_single_predicate_update (seekg (Z.to_nat o) (get_reader (Some data))) with
  | Ret (u, _) => Some u
  | _ => None
  end.
Definition offsets_effect (data : list Z) (os : list Z) (s : gset (Z * Z)) : gset (Z * Z) :=
  fold_left (λ s o, match logged_at data o with Some u => effect u s | None => s end) os s.

Lemma read_record data o u ifs : stored_at data o u → reads data ifs →
  ∃ u' ifs', recover_single_predicate_update (seekg (Z.to_nat o) ifs) = Ret (u', ifs') ∧
    reads data ifs' ∧ same_update u u' ∧ logged_at data o = Some u'.
Proof.
  intros Hu Hr. destruct (read_stored data o u ifs Hu Hr) as (u' & ifs' & E & Hr' & Hs).
  exists u', ifs'. split_and!; [done..|]. unfold logged_at.
  assert (Hseek : seekg (Z.to_nat o) (get_reader (Some data)) = seekg (Z.to_nat o) ifs).
  { destruct ifs as [dat pos fl], Hr as [E1 E2]. simpl in E1, E2. by subst. }
  by rewrite Hseek, E.
Qed.

Lemma replay_spec d p st data os us : Forall2 (stored_at data) os us →
  Forall (λ u, UpdatesLog.predicate_id u = p ∧ update_fits st (update_of u)) us → in_u 64 p →
  ∀ ifs m, reads data ifs → core_ok d m → st = config_qw (k2tree_config (predicates_index m)) →
  ∃ ifs' m', recover_offsets os ifs m = Ret (ifs', m') ∧ reads data ifs' ∧ core_ok d m' ∧
    replayed p (offsets_effect data os) (predicates_index m) (predicates_index m').
Proof.
  intros Hos Hus Hrange. revert Hus. induction Hos as [|o u os us Ho Hos IH];
    intros Hus ifs m Hr Hm Hst.
  { exists ifs, m. split_and!; [done..|]. by apply (replayed_id d); [apply Hm|]. }
  inversion Hus as [|? ? [Hid Hat] Hus']; subst.
  destruct (read_record data o u ifs Ho Hr) as (u' & ifs1 & E1 & Hr1 & Hs & El).
  destruct (same_update_fits _ u u' Hs Hat) as [Hat' _].
  destruct (merge_update_spec d (UpdatesLog.predicate_id u) u' m) as (m1 & E2 & Hm1 & Hrep1);
    [done|done|apply Hs|done|].
  destruct (IH Hus' ifs1 m1) as (ifs' & m' & E3 & Hr' & Hm' & Hrep'); [done|done| |].
  { by destruct Hrep1 as [(_ & _ & -> & _) _]. }
  exists ifs', m'. simpl. rewrite E1. cbn [mbind outcome_bind]. rewrite E2. cbn [mbind outcome_bind].
  split_and!; [done..|]. eapply replayed_ext; [|exact (replayed_trans _ _ _ _ _ _ Hrep1 Hrep')].
  intros s. unfold offsets_effect. simpl. by rewrite El.
Qed.
End merging.

(** ** The manager as the host of the index *)

Section hosting.
Context `{Hp : Heap, Blk : BlockLib, !BlockLibLaws, Lib : K2Lib, !K2LibLaws, Ssl : OpenSSL}.
Context {C : Type} `{FC : !FullyIndexedCache C PredicatesIndexCacheMD, FCL : !FullyIndexedCacheLaws C}.
Implicit Types w : PCMWithLog C.

(** What the log says of itself: its offsets locate a sequence [prior] of
    updates, with trees whose points fit the index. *)
Definition loggable (st : K2QStateWrapper) (u : K2TreeUpdates) : Prop :=
  in_u 64 (UpdatesLog.predicate_id u) ∧ update_fits st (update_of u).
Record log_holds {M : Type} (st : K2QStateWrapper) (l : UpdatesLoggerImpl M)
    (prior : list K2TreeUpdates) : Prop := {
  lh_located : located (default [] (index_logs l)) (offsets_map l) prior;
  lh_file : offsets_map l ≠ ∅ → is_Some (index_logs l);
  lh_updates : Forall (loggable st) prior;
  lh_reader ifs : current_file_reader l = Some ifs → reads (default [] (index_logs l)) ifs
}.
Definition log_ok {M : Type} (st : K2QStateWrapper) (l : UpdatesLoggerImpl M) : Prop :=
  ∃ prior, log_holds st l prior.
Definition pcm_log_effect {M : Type} (l : UpdatesLoggerImpl M) (p : Z) (s : gset (Z * Z)) : gset (Z * Z) :=
  match index_logs l, offsets_map l !! p with
  | Some data, Some os => offsets_effect data os s
  | _, _ => s
  end.
Definition pcm_ok w : Prop :=
  fic_ok (fully_indexed_cache (data_merger w)) (index_of w) ∧
  log_ok (config_qw (k2tree_config (index_of w))) w.

Lemma log_holds_at {M : Type} st (l : UpdatesLoggerImpl M) prior p os : log_holds st l prior →
  offsets_map l !! p = Some os →
  ∃ data, index_logs l = Some data ∧ in_u 64 p ∧ Forall2 (stored_at data) os (updates_of p prior) ∧
    Forall (λ u, UpdatesLog.predicate_id u = p ∧ update_fits st (update_of u)) (updates_of p prior).
Proof.
  intros [Hloc Hfile Hus _] Hos. destruct Hfile as [data Hdata].
  { intros E. rewrite E, lookup_empty in Hos. done. }
  specialize (Hloc p). rewrite Hos, Hdata in Hloc. destruct Hloc as [Hne Hrec]. exists data.
  assert (Hall : Forall (λ u, UpdatesLog.predicate_id u = p ∧ loggable st u) (updates_of p prior)).
  { rewrite Forall_forall in *. intros u [[Hp' _] Hu]%list_elem_of_filter. auto. }
  split_and!; [done| |done|].
  - destruct (updates_of p prior) as [|u us]; [done|].
    by destruct (Forall_inv Hall) as [<- [Hrange _]].
  - weaken Hall. intros [? [_ ?]]. done.
Qed.

Lemma recover_replays p w d : pcm_ok w → index_ok d (index_of w) →
  UpdatesLog.has_predicate_stored p w = true →
  ∃ w', recover_predicate p w = Ret w' ∧ pcm_ok w' ∧ index_ok d (index_of w') ∧
    offsets_map w' = offsets_map w ∧ index_logs w' = index_logs w ∧
    replayed p (pcm_log_effect w p) (index_of w) (index_of w').
Proof.
  intros [Hfic [prior Hlog]] Hi Hhas. apply bool_decide_eq_true in Hhas as [os Hos].
  destruct (log_holds_at _ w prior p os Hlog Hos) as (data & Hdata & Hrange & Hrec & Hus).
  pose proof Hlog as [Hloc Hfile Hall Hreader]. rewrite Hdata in Hreader. simpl in Hreader.
  assert (Hr : reads data (open_reader (close_writer w))).
  { unfold open_reader, close_writer, set_streams. cbn [current_file_reader index_logs].
    destruct (current_file_reader w) as [ifs|]; [by apply Hreader|]. by rewrite Hdata. }
  destruct (replay_spec d p _ data os _ Hrec Hus Hrange (open_reader (close_writer w))
    (data_merger w)) as (ifs' & m' & E & Hr' & [Hi' Hfic'] & Hrep); [done|by split|done|].
  unfold recover_predicate. rewrite Hdata. unfold recover_one.
  change (offsets_map (close_writer w)) with (offsets_map w). rewrite Hos.
  cbn [deref mbind outcome_bind]. change (data_merger (close_writer w)) with (data_merger w).
  rewrite E. cbn [mbind outcome_bind]. eexists. split; [reflexivity|].
  destruct Hrep as [(Hb1 & Hb2 & Hcfg & Hb4) Hcase].
  split_and!; [split; [exact Hfic'|]|exact Hi'|done|done|split; [by split_and!|]].
  - exists prior. simpl. rewrite Hcfg. constructor; simpl; [done..|].
    intros ifs [= <-]. by rewrite Hdata.
  - unfold pcm_log_effect. rewrite Hdata, Hos. exact Hcase.
Qed.

#[global, refine] Instance PCM_host_laws : UpdatesLogHostLaws (PCMWithLog C) :=
  {| host_ok := pcm_ok; log_effect := pcm_log_effect |}.
Proof.
- done.
- intros [[i c] ????????]. done.
- intros p w [_ [prior Hlog]] Hhas. apply bool_decide_eq_true in Hhas as [os Hos].
  by destruct (log_holds_at _ w prior p os Hlog Hos) as (? & _ & ? & _).
- done.
- done.
- intros d i w [Hfic Hlog] Hi Hi' [Hcfg Hx]. split.
  + eapply fic_extend; [exact Hfic|by eapply index_fetcher_ok|]. simpl. intros q T.
    change (points_of (index_of w) q = Some T → points_of i q = Some T).
    rewrite (plain_points d i q Hi'), (plain_points d _ q Hi). apply Hx.
  + destruct Hlog as [prior []]. exists prior. simpl. rewrite Hcfg. by constructor.
- intros p w d Hok Hi Hhas.
  destruct (recover_replays p w d Hok Hi Hhas) as (w' & E & Hok' & Hi' & Eo & El & Hrep).
  exists w'. split_and!; [done..| | |done].
  + intros q. unfold log_has_predicate_stored. simpl. unfold UpdatesLog.has_predicate_stored.
    by rewrite Eo.
  + intros q s. unfold pcm_log_effect. by rewrite Eo, El.
Defined.

(** ** Updates as functions on sets of points *)

Definition fold_effects (us : list K2TreeUpdates) (s : gset (Z * Z)) : gset (Z * Z) :=
  fold_left (λ s u, effect (update_of u) s) us s.
(** What a sequence of updates of one predicate makes of it. *)
Definition apply_updates (us : list K2TreeUpdates) (P : option (gset (Z * Z)))
    : option (gset (Z * Z)) :=
  match us with [] => P | _ => Some (fold_effects us (default ∅ P)) end.

Lemma apply_updates_app us us' P :
  apply_updates (us ++ us') P = apply_updates us' (apply_updates us P).
Proof.
  destruct us as [|u us]; [done|]. destruct us' as [|u' us']; [by rewrite app_nil_r|].
  simpl. unfold fold_effects. simpl. by rewrite fold_left_app.
Qed.
Lemma apply_updates_Some us s : apply_updates us (Some s) = Some (fold_effects us s).
Proof. by destruct us. Qed.
Lemma effect_unreal u s : ¬ real_update u → effect (update_of u) s = s.
Proof.
  unfold real_update, get_kind, effect, update_of. simpl.
  destruct (k2tree_add u), (k2tree_del u); simpl; intros Hn; try (by destruct Hn). set_solver.
Qed.

Lemma offsets_effect_spec st data os us s : Forall2 (stored_at data) os us →
  Forall (λ u, update_fits st (update_of u)) us → offsets_effect data os s = fold_effects us s.
Proof.
  intros Hos. revert s. induction Hos as [|o u os us Ho Hos IH]; intros s Hus; [done|].
  inversion Hus as [|? ? Hu Hus']; subst.
  destruct (read_record data o u (get_reader (Some data)) Ho) as (u' & _ & _ & _ & Hs & El); [done|].
  destruct (same_update_fits _ u u' Hs Hu) as [_ Heff].
  unfold offsets_effect, fold_effects in *. simpl. by rewrite El, Heff, IH.
Qed.

(** The points of a predicate that is not in memory, in terms of what was logged. *)
Lemma unloaded_points d w st prior p : log_holds st w prior → update_logger (index_of w) = true →
  predicates (index_of w) !! p = None →
  index_points d w p =
    apply_updates (updates_of p prior) (stored_pts d <$> metadata_map (metadata (index_of w)) !! p).
Proof.
  intros Hlog Hu Hnone. unfold index_points, logged, is_stored_in_updates_log. rewrite Hnone, Hu.
  cbn [andb]. change (log_has_predicate_stored p w) with (UpdatesLog.has_predicate_stored p w).
  unfold UpdatesLog.has_predicate_stored. pose proof (lh_located _ _ _ Hlog p) as Hloc.
  destruct (offsets_map w !! p) as [os|] eqn:Eo.
  - destruct (log_holds_at _ w prior p os Hlog Eo) as (data & Hdata & _ & Hrec & Hus).
    rewrite bool_decide_true by by eexists. destruct Hloc as [Hne _].
    assert (Heff : ∀ s, log_effect w p s = fold_effects (updates_of p prior) s).
    { intros s. simpl. unfold pcm_log_effect. rewrite Hdata, Eo.
      eapply offsets_effect_spec; [done|]. weaken Hus. by intros []. }
    destruct (metadata_map _ !! p) as [md|]; rewrite Heff; by destruct (updates_of p prior).
  - rewrite Hloc, bool_decide_false by by intros []. by destruct (metadata_map _ !! p).
Qed.
Lemma loaded_points d w p t : predicates (index_of w) !! p = Some (Some t) →
  index_points d w p = Some (pts t).
Proof. intros Ht. unfold index_points. by rewrite Ht. Qed.

(** ** The updates that are logged reach the trees in memory *)

Definition memory_updated (us : list K2TreeUpdates) (i i' : PredicatesIndexCacheMD) : Prop :=
  metadata i' = metadata i ∧ k2tree_config i' = k2tree_config i ∧
  update_logger i' = update_logger i ∧
  ∀ p, match predicates i !! p with
       | Some (Some t) => ∃ t', predicates i' !! p = Some (Some t') ∧
                            pts t' = fold_effects (updates_of p us) (pts t)
       | Some None => True
       | None => predicates i' !! p = None
       end.

Lemma merge_one_spec d m u : core_ok d m →
  loggable (config_qw (k2tree_config (predicates_index m))) u →
  ∃ m', merge_one_update m u = Ret m' ∧ core_ok d m' ∧
    memory_updated [u] (predicates_index m) (predicates_index m').
Proof.
  intros Hm [Hrange Hat]. unfold merge_one_update. set (q := UpdatesLog.predicate_id u) in *.
  destruct (has_predicate_active q (predicates_index m)) eqn:Ea; cbn [negb].
  - destruct (merge_update_spec d q (update_of u) m) as (m' & E & Hm' & (Hq & Hmd & Hcfg & Hul) & Hcase);
      [done..|].
    exists m'. split; [exact E|]. split; [done|]. split_and!; [done..|].
    intros p. rewrite updates_of_one. fold q.
    apply (active_iff d q _ (proj1 Hm)) in Ea as [o Ho].
    destruct (ix_trees d _ (proj1 Hm) q o Ho) as (t & -> & _). rewrite Ho in Hcase.
    destruct (decide (p = q)) as [->|Hne].
    + rewrite Ho. destruct Hcase as (t' & Ht' & Hpt). exists t'. split; [done|].
      destruct (decide (real_update u)) as [Hr|Hr].
      * by rewrite decide_True.
      * rewrite decide_False by tauto. by rewrite Hpt, effect_unreal.
    + rewrite decide_False by naive_solver. rewrite Hq by done.
      destruct (predicates _ !! p) as [[t0|]|]; [|done..]. by exists t0.
  - exists m. split_and!; [done..|]. split_and!; [done..|]. intros p. rewrite updates_of_one. fold q.
    destruct (predicates (predicates_index m) !! p) as [[t|]|] eqn:Ep; [|done..].
    exists t. split; [done|]. rewrite decide_False; [done|]. intros [<- _].
    rewrite (proj2 (active_iff d q _ (proj1 Hm))) in Ea; [done|by eexists].
Qed.

Lemma merge_all_spec d us : ∀ m, core_ok d m →
  Forall (loggable (config_qw (k2tree_config (predicates_index m)))) us →
  ∃ m', dm_merge_update us m = Ret m' ∧ core_ok d m' ∧
    memory_updated us (predicates_index m) (predicates_index m').
Proof.
  induction us as [|u us IH]; intros m Hm Hus.
  { exists m. split_and!; [done..|]. split_and!; [done..|]. intros p.
    destruct (predicates _ !! p) as [[t|]|]; [|done..]. by exists t. }
  inversion Hus as [|? ? Hu Hus']; subst.
  destruct (merge_one_spec d m u Hm Hu) as (m1 & E1 & Hm1 & Hmd1 & Hcfg1 & Hul1 & Hp1).
  destruct (IH m1 Hm1) as (m' & E & Hm' & Hmd & Hcfg & Hul & Hall); [by rewrite Hcfg1|].
  exists m'. simpl in *. rewrite E1. cbn [mbind outcome_bind].
  split; [exact E|]. split; [done|]. split_and!; [congruence..|].
  intros p. specialize (Hp1 p). specialize (Hall p).
  change (u :: us) with ([u] ++ us). rewrite updates_of_app.
  destruct (predicates (predicates_index m) !! p) as [[t|]|]; [|done|].
  - destruct Hp1 as (t1 & Et1 & Hpt1). rewrite Et1 in Hall. destruct Hall as (t' & Et' & Hpt).
    exists t'. split; [done|]. unfold fold_effects in *. by rewrite fold_left_app, <-Hpt1.
  - by rewrite Hp1 in Hall.
Qed.

Lemma commit_returns total s : ∃ s', commit_total total s = Ret s'.
Proof.
  unfold commit_total, rw_write. destruct (rw_fail (rw_seek 0 s)); cbn [mbind outcome_bind]; [by eexists|].
  unfold write_u32, os_write. cbn [mbind outcome_bind]. by eexists.
Qed.

(** The log is at its end, open for writing or with nothing in it to lose, and
    its counter fits. *)
Record log_open {M : Type} (l : UpdatesLoggerImpl M) : Prop := {
  lo_writer : (∃ data, current_file_writer l = Some (os_end data) ∧ index_logs l = Some data) ∨
              (current_file_writer l = None ∧ offsets_map l = ∅);
  lo_total : ∃ n, total_updates l = Some n ∧ 0 ≤ n < 2 ^ 31 - 1
}.

Lemma log_spec d us w st prior : fic_ok (fully_indexed_cache (data_merger w)) (index_of w) →
  index_ok d (index_of w) → st = config_qw (k2tree_config (index_of w)) → log_holds st w prior →
  log_open w → Forall update_wf us → Forall (loggable st) us →
  ∃ w', log us w = Ret w' ∧ core_ok d (data_merger w') ∧ log_holds st w' (prior ++ us) ∧
    memory_updated us (index_of w) (index_of w') ∧
    (∃ n, total_updates w = Some n ∧ total_updates w' = Some (n + 1)) ∧
    ∃ data, current_file_writer w' = Some (os_end data) ∧ index_logs w' = Some data.
Proof.
  intros Hfic Hi -> Hlog [Hw (n & Hn & Hrange)] Hwf Hus.
  set (writer := match current_file_writer w with
                 | Some w => w | None => OStream (get_writer false (index_logs w)) 0 end).
  assert (Hwr : ∃ data, writer = os_end data ∧ located data (offsets_map w) prior).
  { unfold writer. destruct Hlog as [Hloc _ _ _]. destruct Hw as [(data & -> & Hdata)|[-> Hemp]].
    - exists data. by rewrite Hdata in Hloc.
    - exists []. split; [done|]. rewrite Hemp in *. intros p. specialize (Hloc p).
      by rewrite lookup_empty in *. }
  destruct Hwr as (data & Hwr & Hloc).
  destruct (log_trees_spec us data (offsets_map w) Hwf) as (o & seg & E & [_ Hre] & _).
  destruct (merge_all_spec d us (data_merger w)) as (m & Em & Hm & Hmem); [by split|done|].
  unfold log. fold writer. rewrite Hwr, E. cbn [mbind outcome_bind].
  rewrite file_of_dump. cbn [mbind outcome_bind]. rewrite Em. cbn [mbind outcome_bind].
  rewrite Hn. cbn [deref mbind outcome_bind]. unfold int_chk. rewrite decide_True by lia.
  cbn [mbind outcome_bind]. unfold commit_total_updates.
  cbn [total_updates metadata_file_rw deref mbind outcome_bind].
  destruct (commit_returns (n + 1) (metadata_file_rw w)) as [rw ->]. cbn [mbind outcome_bind].
  eexists. split; [reflexivity|]. split; [exact Hm|].
  split; [constructor; simpl|split; [exact Hmem|split; [by exists n|by exists (data ++ seg)]]].
  - by apply Hre.
  - intros _. by eexists.
  - apply Forall_app. split; [apply Hlog|done].
  - done.
Qed.

Lemma log_map_spec d us w :
  host_ok w → index_ok d (index_of w) → update_logger (index_of w) = true → log_open w →
  Forall update_wf us → Forall (loggable (config_qw (k2tree_config (index_of w)))) us →
  ∃ w', log us w = Ret w' ∧ host_ok w' ∧ index_ok d (index_of w') ∧
    ∀ p, index_points d w' p = apply_updates (updates_of p us) (index_points d w p).
Proof.
  intros [Hfic [prior Hlog]] Hi Hul Ho Hwf Hus.
  destruct (log_spec d us w _ prior Hfic Hi eq_refl Hlog Ho Hwf Hus)
    as (w' & E & [Hi' Hfic'] & Hlog' & (Hmd & Hcfg & Hul' & Hmem) & _).
  exists w'. split_and!; [done|split; [exact Hfic'|]|done|].
  { exists (prior ++ us). by rewrite Hcfg. }
  intros p. specialize (Hmem p). destruct (predicates (index_of w) !! p) as [o|] eqn:Ep.
  - destruct (ix_trees d _ Hi p o Ep) as (t & -> & _). destruct Hmem as (t' & Ht' & Hpt).
    by rewrite (loaded_points d w p t Ep), (loaded_points d w' p t' Ht'), apply_updates_Some, Hpt.
  - rewrite (unloaded_points d w _ prior p Hlog Hul Ep).
    rewrite (unloaded_points d w' _ _ p Hlog') by (done || congruence).
    by rewrite updates_of_app, apply_updates_app, Hmd.
Qed.

(** C8: The manager is a map from predicates to sets of points, and logging a
    list of updates updates that map: each predicate gets the insertions and
    removals of its updates in order, whether its tree is in memory, in the
    file, or nowhere yet, and the other predicates keep their points. It holds
    as long as the log stays open for writing since its first update. *)
Theorem log_refines_map d us w :
  host_ok w → index_ok d (index_of w) → update_logger (index_of w) = true → log_open w →
  Forall update_wf us → Forall (loggable (config_qw (k2tree_config (index_of w)))) us →
  ∃ w', log us w = Ret w' ∧ host_ok w' ∧ index_ok d (index_of w') ∧
    ∀ p, index_points d w' p = apply_updates (updates_of p us) (index_points d w p).
Proof. apply log_map_spec. Qed.

(** Predicate [p] has the points [f] makes of those in memory, the others keep
    theirs, and the cached indexes are up to date. *)
Definition after_merge (d : list Z) (p : Z) (f : gset (Z * Z) → gset (Z * Z)) (m m' : PCM C) : Prop :=
  index_ok d (predicates_index m') ∧
  (∀ q source, fic_get q (fully_indexed_cache m') = Some source →
     ∃ T, main_points d (predicates_index m') q = Some T ∧ indexes source T) ∧
  same_but p (predicates_index m) (predicates_index m') ∧
  p ∈ dirty_predicates (predicates_index m') ∧
  ∃ t, predicates (predicates_index m') !! p = Some (Some t) ∧
    pts t = f (memory_points (predicates_index m) p).

(** C26: Merging a tree changes one predicate. Insertions are added to the points
    it has in memory, to none if it is not there; removals are taken from them,
    and do nothing to a predicate that is not in memory. The predicate is marked
    as changed, the others keep their trees, and the indexes that are cached
    still have the points of their predicates. *)
Theorem merge_tree_correct d p tm (m : PCM C) :
  index_ok d (predicates_index m) → fic_ok (fully_indexed_cache m) (predicates_index m) →
  in_u 64 p → tree_fits (config_qw (k2tree_config (predicates_index m))) tm →
  (∃ m', merge_add_tree p tm m = Ret m' ∧ after_merge d p (λ s, s ∪ pts tm) m m') ∧
  (if has_predicate_active p (predicates_index m)
   then ∃ m', merge_delete_tree p tm m = Ret m' ∧ after_merge d p (λ s, s ∖ pts tm) m m'
   else merge_delete_tree p tm m = Ret m).
Proof.
  intros Hi Hfic Hrange Htm.
  assert (Hafter : ∀ f m', merged d p f m m' → after_merge d p f m m').
  { intros f m' ([Hi' Hfic'] & Hb & Hd & Ht). split_and!; [done| |done..].
    intros q source Hq. rewrite <-(plain_points d _ q Hi'). by eapply get_law. }
  pose proof (merge_delete_spec d p tm m (conj Hi Hfic) Hrange Htm) as Hdel.
  destruct (merge_add_spec d p tm m (conj Hi Hfic) Hrange Htm) as (m1 & E1 & Hm1).
  split; [exists m1; auto|]. destruct (has_predicate_active p (predicates_index m)); [|exact Hdel].
  destruct Hdel as (m2 & E2 & Hm2). exists m2; auto.
Qed.
End hosting.

(** ** Starting on a log that is not empty *)

Section startup.
Context `{Hp : Heap, Blk : BlockLib, !BlockLibLaws, Lib : K2Lib, !K2LibLaws, Ssl : OpenSSL}.
Context {C : Type} `{FC : !FullyIndexedCache C PredicatesIndexCacheMD}.

Lemma replay_no_ref u u' : real_update u → same_update u u' →
  merge_update u' (mkWrapper (M := PCM C) None) = Throw NoRefException.
Proof.
  unfold real_update, get_kind, merge_update. intros Hr (_ & Ha & Hd).
  destruct (k2tree_add u), (add_update u'), (k2tree_del u), (del_update u');
    try done; by destruct Hr.
Qed.
Lemma recover_no_ref uss segs : Forall2 segment_of uss segs → Forall (Forall real_update) uss →
  Forall (λ us, in_u 32 (Z.of_nat (length us))) uss → concat uss ≠ [] → ∀ pre,
  recover_updates (length uss) (stream_at pre (concat segs)) (mkWrapper (M := PCM C) None) =
    Throw NoRefException.
Proof.
  induction 1 as [|us seg uss segs (bs & -> & Hrec) Hsegs IH]; intros Hreal Hlen Hne pre; [done|].
  inversion Hreal as [|? ? Hr1 Hr2]; subst. inversion Hlen as [|? ? Hl1 Hl2]; subst.
  unfold records_of in Hrec. rewrite filter_real in Hrec by done.
  change (concat ((be_encode 4 (Z.of_nat (length us)) ++ concat bs) :: segs)) with
    ((be_encode 4 (Z.of_nat (length us)) ++ concat bs) ++ concat segs).
  rewrite <-(assoc_L (++)). simpl. unfold recover_single_update.
  rewrite (parses_at _ _ _ _ _ (parses_u32 _ Hl1)). cbn [mbind outcome_bind]. rewrite Nat2Z.id.
  destruct Hrec as [|u b us bs (u' & Hs & Hpu) Hrec].
  - simpl. by apply IH.
  - simpl. rewrite <-(assoc_L (++)), (parses_at _ _ _ _ _ Hpu). cbn [mbind outcome_bind].
    by rewrite (replay_no_ref u) by (done || by inversion Hr1).
Qed.

(** C34: A server that has logged updates cannot be started again: the
    constructor of the manager replays the log through the wrapper before the
    wrapper is pointed at the manager, so opening the files of a session with
    at least one update throws. *)
Theorem restart_throws (m0 : PCM C) (m : PCMMergerWrapper (PCM C)) uss index_file mm fic i :
  session_fits uss → Forall (Forall real_update) uss → concat uss ≠ [] →
  foldM (λ m us, dm_merge_update us m) (mkWrapper (Some m0)) uss = Ret m →
  new_PredicatesIndexCacheMD index_file mm = Ret i →
  ∃ l0 l, new_UpdatesLoggerImpl (mkWrapper (Some m0)) None None (Some (be_encode 4 0)) = Ret l0 ∧
    log_all uss l0 = Ret l ∧
    (Z.of_nat (length (default [] (index_logs l))) < 2 ^ 63 →
     PCMFactory_create index_file (index_logs l) (offsets_file l) (metadata_file l) mm fic =
       Throw NoRefException).
Proof.
  intros Hfit Hreal Hne Hm Ei. destruct (new_session (mkWrapper (Some m0))) as (l0 & E0 & Em0 & Hs0).
  pose proof Hfit as (Hn & Hc & Hwf).
  destruct (log_all_session uss l0 [] [] m Hs0 Hwf Hn) as (l & segs & E & Em & Hs);
    [by rewrite Em0|]. simpl in Hs.
  exists l0, l. split_and!; [done..|].
  assert (Hfile : index_logs l = Some (concat segs))
    by (destruct uss; [done|apply (ss_open _ _ _ Hs)]).
  rewrite Hfile. intros Hd. destruct (reopen l uss segs (mkWrapper None) Hs) as (rw & E1); [done..|].
  rewrite Hfile in E1. unfold PCMFactory_create. rewrite E1. cbn [mbind outcome_bind].
  rewrite Ei. cbn [mbind outcome_bind]. unfold new_PredicatesCacheManagerImpl.
  unfold recover_all, recover_all_data, close_writer, set_streams, open_reader.
  cbn [index_logs total_updates current_file_reader data_merger deref mbind outcome_bind].
  rewrite Nat2Z.id. change (get_reader (Some (concat segs))) with (stream_at [] (concat segs)).
  by rewrite (recover_no_ref uss segs); [|apply Hs| |apply counts_fit|].
Qed.
End startup.

(** ** Instances of the theorems *)
Section witnesses.
#[local] Existing Instance toy_block_lib.
#[local] Existing Instance toy_block_laws.
#[local] Existing Instance Toy.toy_k2_lib.
#[local] Existing Instance toy_openssl.
#[local] Existing Instance toy_heap.

Definition toy_pcm : PCM FullyIndexedCacheImpl :=
  mkPCM (set_update_logger toy_index) FICFactory_create.
Definition toy_pcm_with_log : PCMWithLog FullyIndexedCacheImpl :=
  mkLogger toy_pcm None None (Some (be_encode 4 0)) None None
    (get_reader_writer (Some (be_encode 4 0))) ∅ (Some 0).

Lemma toy_logged_index_ok : index_ok toy_file (set_update_logger toy_index).
Proof. destruct toy_index_ok. by constructor. Qed.
Lemma toy_fic_ok : fic_ok (fully_indexed_cache toy_pcm) (predicates_index toy_pcm).
Proof. apply FICFactory_ok. eapply index_fetcher_ok, toy_logged_index_ok. Qed.
Lemma toy_loggable : Forall (loggable (mkst 8 1 256)) [toy_both; toy_insert].
Proof.
  repeat (apply Forall_cons; split); [|..|by apply Forall_nil];
    (split; [computed|split; by (apply tree_at_fits, toy_tree_at) || done]).
Qed.

Lemma merge_tree_correct_witness :
  (∃ m', merge_add_tree 9 toy_tree toy_pcm = Ret m' ∧
     after_merge toy_file 9 (λ s, s ∪ pts toy_tree) toy_pcm m') ∧
  (if has_predicate_active 9 (predicates_index toy_pcm)
   then ∃ m', merge_delete_tree 9 toy_tree toy_pcm = Ret m' ∧
     after_merge toy_file 9 (λ s, s ∖ pts toy_tree) toy_pcm m'
   else merge_delete_tree 9 toy_tree toy_pcm = Ret toy_pcm).
Proof.
  apply (merge_tree_correct toy_file 9 toy_tree toy_pcm);
    [exact toy_logged_index_ok|exact toy_fic_ok|computed|apply tree_at_fits, toy_tree_at].
Defined.

Lemma log_refines_map_witness :
  ∃ w', log [toy_both; toy_insert] toy_pcm_with_log = Ret w' ∧ host_ok w' ∧
    index_ok toy_file (index_of w') ∧
    ∀ p, index_points toy_file w' p =
      apply_updates (updates_of p [toy_both; toy_insert]) (index_points toy_file toy_pcm_with_log p).
Proof.
  apply (log_refines_map toy_file [toy_both; toy_insert] toy_pcm_with_log).
  - split; [exact toy_fic_ok|]. exists []. constructor; [|done|by constructor|done].
    intros p. simpl. by rewrite lookup_empty.
  - exact toy_logged_index_ok.
  - done.
  - constructor; [by right|]. by exists 0.
  - exact toy_updates_wf.
  - exact toy_loggable.
Defined.

Lemma restart_throws_witness :
  ∃ l0 l, new_UpdatesLoggerImpl (mkWrapper (Some toy_pcm)) None None (Some (be_encode 4 0)) = Ret l0 ∧
    log_all [[toy_both; toy_insert]] l0 = Ret l ∧
    (Z.of_nat (length (default [] (index_logs l))) < 2 ^ 63 →
     PCMFactory_create (C := FullyIndexedCacheImpl) (Some toy_file) (index_logs l) (offsets_file l)
       (metadata_file l) empty_manager FICFactory_create = Throw NoRefException).
Proof.
  eapply (restart_throws toy_pcm _ [[toy_both; toy_insert]] (Some toy_file) empty_manager FICFactory_create).
  - split; [done|]. split; [done|]. apply Forall_cons.
    split; [exact toy_updates_wf|by apply Forall_nil].
  - repeat constructor; done.
  - done.
  - vm_compute. reflexivity.
  - vm_compute. reflexivity.
Defined.
End witnesses.
