(* ===== verification/ParallelWorker.v ===== *)
(** * algorithms/ParallelWorker.hpp: the pool of worker threads

    A pool and its workers as a transition system. Every step is one operation
    under one mutex: a read of a [_stopped] flag, an operation on the queue, the
    acquisition or the release of [shared_mutex], a notification. The thread
    that owns the pool adds its tasks, stops the workers and joins them, as
    [parallel_sort] does. *)
From S2P Require Import Prelude.

Section pool.
Context {T : Type}.

(** ** ParallelWorker::run *)

Inductive worker_pc :=
  | Start                (* [!stopped()] of the loop *)
  | StartEmpty           (* [!queue.empty()] of the loop *)
  | Locking              (* the unique_lock *)
  | Pred                 (* [stopped()] of the condition waited for *)
  | PredEmpty            (* [!queue.empty()] of the condition waited for *)
  | Sleep                (* about to release the mutex and wait *)
  | Waiting
  | Waking               (* notified, acquiring the mutex again *)
  | Found                (* [stopped()] after the wait *)
  | FoundEmpty           (* [queue.empty()] after it *)
  | Taking               (* [if (queue.empty()) continue] *)
  | Popping
  | Unlocking (t : T)
  | Notifying (t : T)
  | Running (t : T)
  | Leaving              (* the notification after the loop *)
  | Done
  | Crashed.             (* [front] of an empty queue *)
Record worker := mkWorker { pc : worker_pc; stopped : bool }.

(** The thread that uses the pool. *)
Inductive owner_pc :=
  | Adding (tasks : list T)
  | AddNotifying (tasks : list T)
  | Stopping (i : nat)
  | StopNotifying
  | Joining (i : nat)
  | Finished.

(** [executed]: the tasks that have run, in the order they ended. *)
Record pool := mkPool {
  queue : list T;
  shared_mutex : option nat;
  workers : list worker;
  owner : owner_pc;
  executed : list T
}.

Definition new_worker : worker := mkWorker Start false.
Definition new_pool (workers_amount : nat) (tasks : list T) : pool :=
  mkPool [] None (replicate workers_amount new_worker) (Adding tasks) [].

Definition set_pc (i : nat) (w : worker) (p : worker_pc) (s : pool) : pool :=
  mkPool (queue s) (shared_mutex s) (<[i := mkWorker p (stopped w)]> (workers s)) (owner s) (executed s).
Definition set_mutex (m : option nat) (s : pool) : pool :=
  mkPool (queue s) m (workers s) (owner s) (executed s).
Definition set_owner (o : owner_pc) (s : pool) : pool :=
  mkPool (queue s) (shared_mutex s) (workers s) o (executed s).

(** [notify_all]. *)
Definition wake (w : worker) : worker :=
  match pc w with Waiting => mkWorker Waking (stopped w) | _ => w end.
Definition notify_all (s : pool) : pool :=
  mkPool (queue s) (shared_mutex s) (wake <$> workers s) (owner s) (executed s).

Definition acquire (i : nat) (w : worker) (s : pool) : option pool :=
  match shared_mutex s with
  | None => Some (set_mutex (Some i) (set_pc i w Pred s))
  | Some _ => None
  end.
Definition release (i : nat) (w : worker) (p : worker_pc) (s : pool) : pool :=
  set_mutex None (set_pc i w p s).
Definition if_empty {A} (s : pool) (a b : A) : A := match queue s with [] => a | _ => b end.

Definition run_step (i : nat) (w : worker) (s : pool) : option pool :=
  match pc w with
  | Start => Some (set_pc i w (if stopped w then StartEmpty else Locking) s)
  | StartEmpty => Some (set_pc i w (if_empty s Leaving Locking) s)
  | Locking | Waking => acquire i w s
  | Pred => Some (set_pc i w (if stopped w then Found else PredEmpty) s)
  | PredEmpty => Some (set_pc i w (if_empty s Sleep Found) s)
  | Sleep => Some (release i w Waiting s)
  | Found => Some (set_pc i w (if stopped w then FoundEmpty else Taking) s)
  | FoundEmpty => Some (if_empty s (release i w Leaving s) (set_pc i w Taking s))
  | Taking => Some (if_empty s (release i w Start s) (set_pc i w Popping s))
  | Popping =>
      Some (match queue s with
            | [] => set_pc i w Crashed s
            | t :: q => set_pc i w (Unlocking t)
                          (mkPool q (shared_mutex s) (workers s) (owner s) (executed s))
            end)
  | Unlocking t => Some (release i w (Notifying t) s)
  | Notifying t => Some (notify_all (set_pc i w (Running t) s))
  | Running t =>
      Some (set_pc i w Start
              (mkPool (queue s) (shared_mutex s) (workers s) (owner s) (executed s ++ [t])))
  | Leaving => Some (notify_all (set_pc i w Done s))
  | Waiting | Done | Crashed => None
  end.
Definition worker_step (i : nat) (s : pool) : option pool :=
  w ← workers s !! i; run_step i w s.

(** ** ParallelWorkerPool: add_task, stop_all_workers, wait_workers *)
Definition owner_step (s : pool) : option pool :=
  match owner s with
  | Adding [] => Some (set_owner (Stopping 0) s)
  | Adding (t :: ts) =>
      Some (mkPool (queue s ++ [t]) (shared_mutex s) (workers s) (AddNotifying ts) (executed s))
  | AddNotifying ts => Some (notify_all (set_owner (Adding ts) s))
  | Stopping i =>
      Some (match workers s !! i with
            | Some w => mkPool (queue s) (shared_mutex s) (<[i := mkWorker (pc w) true]> (workers s))
                          (Stopping (S i)) (executed s)
            | None => set_owner StopNotifying s
            end)
  | StopNotifying => Some (notify_all (set_owner (Joining 0) s))
  | Joining i =>
      match workers s !! i with
      | Some w => match pc w with Done => Some (set_owner (Joining (S i)) s) | _ => None end
      | None => Some (set_owner Finished s)
      end
  | Finished => None
  end.

(** A thread may also wake up without a notification. *)
Definition spurious_step (i : nat) (s : pool) : option pool :=
  w ← workers s !! i; match pc w with Waiting => Some (set_pc i w Waking s) | _ => None end.

Inductive step : pool → pool → Prop :=
  | step_owner s s' : owner_step s = Some s' → step s s'
  | step_worker i s s' : worker_step i s = Some s' → step s s'.
Inductive reachable (n : nat) (tasks : list T) : pool → Prop :=
  | reachable_new : reachable n tasks (new_pool n tasks)
  | reachable_step s s' : reachable n tasks s → step s s' → reachable n tasks s'
  | reachable_spurious i s s' : reachable n tasks s → spurious_step i s = Some s' →
      reachable n tasks s'.

(** ** The invariant *)

(** The workers that hold [shared_mutex]. *)
Definition locked (p : worker_pc) : bool :=
  match p with
  | Pred | PredEmpty | Sleep | Found | FoundEmpty | Taking | Popping | Unlocking _ => true
  | _ => false
  end.
(** The tasks a worker has taken, and those the owner has not added. *)
Definition held (w : worker) : list T :=
  match pc w with Unlocking t | Notifying t | Running t => [t] | _ => [] end.
Definition to_add (o : owner_pc) : list T :=
  match o with Adding ts | AddNotifying ts => ts | _ => [] end.
Definition adding (o : owner_pc) : bool :=
  match o with Adding _ | AddNotifying _ => true | _ => false end.
(** The workers the owner has joined. *)
Definition joined (o : owner_pc) (n : nat) : nat :=
  match o with Joining i => i | Finished => n | _ => 0%nat end.

Definition all_tasks (s : pool) : list T :=
  queue s ++ (workers s ≫= held) ++ executed s ++ to_add (owner s).

Record worker_ok (s : pool) (i : nat) (w : worker) : Prop := {
  wo_mutex : locked (pc w) = true ↔ shared_mutex s = Some i;
  wo_popping : pc w = Popping → queue s ≠ [];
  wo_crashed : pc w ≠ Crashed;
  wo_stopped : stopped w = true → adding (owner s) = false;
  wo_flag : pc w = StartEmpty ∨ pc w = FoundEmpty → stopped w = true;
  wo_left : pc w = Leaving ∨ pc w = Done → queue s = [] ∧ adding (owner s) = false;
  wo_joined : (i < joined (owner s) (length (workers s)))%nat → pc w = Done
}.
Definition pool_ok (s : pool) : Prop := ∀ i w, workers s !! i = Some w → worker_ok s i w.

(** A worker moves, and what it shares may change with it. *)
Lemma update_ok s q m i w w' e : pool_ok s → workers s !! i = Some w →
  worker_ok (mkPool q m (<[i := w']> (workers s)) (owner s) e) i w' →
  (∀ j wj, j ≠ i → workers s !! j = Some wj → worker_ok s j wj →
     worker_ok (mkPool q m (<[i := w']> (workers s)) (owner s) e) j wj) →
  pool_ok (mkPool q m (<[i := w']> (workers s)) (owner s) e).
Proof.
  intros Hs Hw Hi Hother j wj Hj. simpl in Hj. destruct (decide (j = i)) as [->|Hne].
  - rewrite list_lookup_insert_eq in Hj by (by eapply lookup_lt_Some). by injection Hj as <-.
  - rewrite list_lookup_insert_ne in Hj by done. by apply Hother, Hs.
Qed.
(** A step that changes the worker's own counter. *)
Lemma set_pc_ok s i w p : pool_ok s → workers s !! i = Some w →
  locked p = locked (pc w) → p ≠ Crashed → (p = Popping → queue s ≠ []) →
  (p = StartEmpty ∨ p = FoundEmpty → stopped w = true) →
  (p = Leaving ∨ p = Done → queue s = [] ∧ adding (owner s) = false) →
  (pc w = Done → p = Done) → pool_ok (set_pc i w p s).
Proof.
  intros Hs Hw Hl Hc Hp Hf Hle Hd. pose proof (Hs i w Hw) as [].
  apply (update_ok s _ _ i w); [done..| |].
  - constructor; simpl; rewrite ?length_insert, ?Hl; auto.
  - intros j wj _ _ []. constructor; simpl; rewrite ?length_insert; auto.
Qed.
(** The mutex is released with such a step, or acquired. *)
Lemma release_ok s i w p : pool_ok s → workers s !! i = Some w → locked (pc w) = true →
  locked p = false → p ≠ Crashed → p ≠ StartEmpty → (p = Leaving → queue s = [] ∧ stopped w = true) →
  p ≠ Done → pool_ok (release i w p s).
Proof.
  intros Hs Hw Hl Hp Hc Hf Hle Hd. pose proof (Hs i w Hw) as [Hm _ _ Hst _ _ Hj].
  rewrite Hl in Hm. pose proof (proj1 Hm eq_refl) as Em.
  apply (update_ok s (queue s) None i w); [done..| |].
  - constructor; simpl; rewrite ?length_insert, ?Hp; try done.
    + intros ->. done.
    + intros [-> | ->]; [done|]. done.
    + intros [-> | ->]; [|done]. destruct Hle as [? ?]; [done|]. split; [done|by apply Hst].
    + intros Hlt. rewrite Hj in Hl by done. done.
  - intros j wj Hne _ [Hmj]. constructor; simpl; rewrite ?length_insert; auto.
    rewrite Hmj, Em. split; [intros [= ->]; done|done].
Qed.
Lemma acquire_ok s i w s' : pool_ok s → workers s !! i = Some w →
  pc w = Locking ∨ pc w = Waking → acquire i w s = Some s' → pool_ok s'.
Proof.
  unfold acquire. intros Hs Hw Hpc E. destruct (shared_mutex s) eqn:Em; [done|]. injection E as <-.
  pose proof (Hs i w Hw) as [_ _ _ Hst _ _ Hj].
  apply (update_ok s (queue s) (Some i) i w); [done..| |].
  - constructor; simpl; rewrite ?length_insert; try done; try (by intros [? | ?]).
    intros Hlt. apply Hj in Hlt. by destruct Hpc; congruence.
  - intros j wj Hne _ [Hmj]. constructor; simpl; rewrite ?length_insert; auto.
    rewrite Hmj, Em. split; [done|by intros [= ->]].
Qed.

Lemma wake_stopped w : stopped (wake w) = stopped w.
Proof. unfold wake. by destruct (pc w). Qed.
Lemma notify_ok s : pool_ok s → pool_ok (notify_all s).
Proof.
  intros Hs i w Hw. simpl in Hw. rewrite list_lookup_fmap in Hw.
  destruct (workers s !! i) as [w0|] eqn:E; [|done]. injection Hw as <-.
  destruct (Hs i w0 E) as [H1 H2 H3 H4 H5 H6 H7].
  assert (Hcase : wake w0 = w0 ∨ pc w0 = Waiting ∧ wake w0 = mkWorker Waking (stopped w0)).
  { unfold wake. destruct (pc w0) eqn:Ep; auto. }
  destruct Hcase as [-> | [Ep ->]]; rewrite ?Ep in *.
  - constructor; simpl; rewrite ?length_fmap; auto.
  - constructor; simpl; rewrite ?length_fmap; auto; try (by intros [? | ?]); try done.
    intros Hlt. by apply H7 in Hlt.
Qed.

Lemma run_step_ok s i w s' : pool_ok s → workers s !! i = Some w → run_step i w s = Some s' →
  pool_ok s'.
Proof.
  intros Hs Hw E. unfold run_step, if_empty in E.
  pose proof (Hs i w Hw) as [Hm Hpop _ Hst Hfl Hle _].
  destruct (pc w) as [| | | | | | | | | | | |t|t|t| | |] eqn:Ep; try discriminate E;
    try (eapply acquire_ok; [done..|by auto|done]); injection E as <-.
  - apply set_pc_ok; rewrite ?Ep; try done; destruct (stopped w); try done; by intros [? | ?].
  - apply set_pc_ok; rewrite ?Ep; try done; destruct (queue s) eqn:Eq; try done; auto; try (by intros [? | ?]).
  - apply set_pc_ok; rewrite ?Ep; try done; destruct (stopped w); try done; by intros [? | ?].
  - apply set_pc_ok; rewrite ?Ep; try done; destruct (queue s); try done; by intros [? | ?].
  - apply release_ok; rewrite ?Ep; done.
  - apply set_pc_ok; rewrite ?Ep; try done; destruct (stopped w); try done; by intros [? | ?].
  - destruct (queue s) eqn:Eq; [apply release_ok|apply set_pc_ok]; rewrite ?Ep; try done; auto;
      by intros [? | ?].
  - destruct (queue s) eqn:Eq; [apply release_ok|apply set_pc_ok]; rewrite ?Ep, ?Eq; try done; auto;
      by intros [? | ?].
  - destruct (queue s) as [|t q] eqn:Eq; [by destruct Hpop|].
    apply (update_ok s q _ i w); [done..| |].
    + constructor; simpl; rewrite ?length_insert; try done; try (by intros [? | ?]); auto.
      intros Hlt. apply (wo_joined _ _ _ (Hs i w Hw)) in Hlt. congruence.
    + intros j wj Hne _ [Hmj Hpj Hcj Hsj Hfj Hlj Hjj].
      constructor; simpl; rewrite ?length_insert; auto.
      * intros Epj. rewrite Epj in Hmj. pose proof (proj1 Hm eq_refl). pose proof (proj1 Hmj eq_refl).
        congruence.
      * intros Hx. apply Hlj in Hx as [Hx _]. by rewrite Eq in Hx.
  - apply release_ok; rewrite ?Ep; done.
  - apply notify_ok, set_pc_ok; rewrite ?Ep; try done; by intros [? | ?].
  - apply (update_ok s _ _ i w); [done..| |].
    + constructor; simpl; rewrite ?length_insert; try done; try (by intros [? | ?]); auto.
      intros Hlt. apply (wo_joined _ _ _ (Hs i w Hw)) in Hlt. congruence.
    + intros j wj _ _ []. constructor; simpl; rewrite ?length_insert; auto.
  - apply notify_ok, set_pc_ok; rewrite ?Ep; try done; auto; by intros [? | ?].
Qed.

Lemma worker_ok_owner s q o w i : worker_ok s i w →
  (pc w = Popping → q ≠ []) → (pc w = Leaving ∨ pc w = Done → q = [] ∧ adding o = false) →
  (stopped w = true → adding o = false) →
  ((i < joined o (length (workers s)))%nat → pc w = Done) →
  worker_ok (mkPool q (shared_mutex s) (workers s) o (executed s)) i w.
Proof. intros [] ????. by constructor. Qed.

Lemma owner_ok s o w i : worker_ok s i w → adding o = adding (owner s) →
  ((i < joined o (length (workers s)))%nat → pc w = Done) → worker_ok (set_owner o s) i w.
Proof. intros [] Ha ?. constructor; simpl; rewrite ?Ha; auto. Qed.

Lemma owner_step_ok s s' : pool_ok s → owner_step s = Some s' → pool_ok s'.
Proof.
  unfold owner_step. intros Hs E. destruct (owner s) as [ts|ts|i| |i|] eqn:Eo.
  - destruct ts as [|t ts]; injection E as <-; intros j w Hw; pose proof (Hs j w Hw) as Hok;
      pose proof Hok as [_ Hpop _ Hst _ Hle _]; rewrite Eo in Hst, Hle; simpl in Hst, Hle;
      apply worker_ok_owner; simpl; try done; try lia; auto.
    + intros Hx. split; [by apply Hle|done].
    + intros _ Hx. by apply app_eq_nil in Hx as [_ Hx].
    + intros Hx. by destruct (Hle Hx).
  - injection E as <-. apply notify_ok. intros j w Hw. apply (owner_ok s); [by apply Hs|by rewrite Eo|].
    simpl. lia.
  - destruct (workers s !! i) as [w|] eqn:Ew; injection E as <-.
    + intros j wj Hj. simpl in Hj. destruct (decide (j = i)) as [->|Hne].
      * rewrite list_lookup_insert_eq in Hj by (by eapply lookup_lt_Some). injection Hj as <-.
        pose proof (Hs i w Ew) as []. rewrite Eo in *.
        constructor; simpl; rewrite ?length_insert; auto.
      * rewrite list_lookup_insert_ne in Hj by done. pose proof (Hs j wj Hj) as [].
        rewrite Eo in *. constructor; simpl; rewrite ?length_insert; auto.
    + intros j w Hw. apply (owner_ok s); [by apply Hs|by rewrite Eo|]. simpl. lia.
  - injection E as <-. apply notify_ok. intros j w Hw. apply (owner_ok s); [by apply Hs|by rewrite Eo|].
    simpl. lia.
  - destruct (workers s !! i) as [w|] eqn:Ew.
    + destruct (pc w) eqn:Ep; try discriminate E. injection E as <-. intros j wj Hj.
      pose proof (wo_joined _ _ _ (Hs j wj Hj)) as Hjoin. rewrite Eo in Hjoin.
      apply (owner_ok s); [by apply Hs|by rewrite Eo|]. simpl in *. intros Hlt.
      destruct (decide (j = i)) as [->|]; [congruence|]. apply Hjoin. lia.
    + injection E as <-. intros j wj Hj.
      pose proof (wo_joined _ _ _ (Hs j wj Hj)) as Hjoin. rewrite Eo in Hjoin.
      apply (owner_ok s); [by apply Hs|by rewrite Eo|]. simpl in *. intros _. apply Hjoin.
      apply lookup_ge_None in Ew. apply lookup_lt_Some in Hj. lia.
  - discriminate E.
Qed.

Lemma spurious_ok i s s' : pool_ok s → spurious_step i s = Some s' → pool_ok s'.
Proof.
  unfold spurious_step. intros Hs E. destruct (workers s !! i) as [w|] eqn:Ew; [|discriminate E].
  simpl in E. destruct (pc w) eqn:Ep; try discriminate E. injection E as <-.
  apply set_pc_ok; rewrite ?Ep; try done; by intros [? | ?].
Qed.

Lemma new_pool_ok n tasks : pool_ok (new_pool n tasks).
Proof.
  intros i w Hw. simpl in Hw. apply lookup_replicate in Hw as [-> _].
  constructor; simpl; try done; try lia; by intros [? | ?].
Qed.
Lemma reachable_ok n tasks s : reachable n tasks s → pool_ok s.
Proof.
  induction 1 as [|s s' _ IH Hstep|i s s' _ IH Hstep]; [apply new_pool_ok| |by eapply spurious_ok].
  destruct Hstep as [s s' E|i s s' E]; [by eapply owner_step_ok|].
  unfold worker_step in E. destruct (workers s !! i) as [w|] eqn:Ew; [|discriminate E].
  by eapply run_step_ok.
Qed.

(** ** Tasks are neither lost nor run twice *)

Lemma held_update (ws : list worker) i w w' : ws !! i = Some w →
  held w ++ (<[i := w']> ws ≫= held) ≡ₚ held w' ++ (ws ≫= held).
Proof.
  intros Hw. pose proof (lookup_lt_Some _ _ _ Hw) as Hlt.
  rewrite insert_take_drop by done. rewrite <-(take_drop_middle ws i w Hw) at 3.
  rewrite !bind_app, !bind_cons.
  rewrite (Permutation_app_swap_app (take i ws ≫= held) (held w')).
  rewrite (Permutation_app_swap_app (take i ws ≫= held) (held w)).
  apply Permutation_app_swap_app.
Qed.

Lemma held_wake (ws : list worker) : (wake <$> ws) ≫= held = ws ≫= held.
Proof.
  induction ws as [|w ws IH]; [done|]. rewrite fmap_cons, !bind_cons, IH. f_equal.
  unfold wake, held. destruct (pc w) eqn:E; simpl; rewrite ?E; done.
Qed.
(** A worker moves from [w] to [w'], [q] and [e] being the new queue and log. *)
Lemma tasks_update s i w w' q e m : workers s !! i = Some w →
  held w' ++ q ++ e ≡ₚ held w ++ queue s ++ executed s →
  all_tasks (mkPool q m (<[i := w']> (workers s)) (owner s) e) ≡ₚ all_tasks s.
Proof.
  intros Hw Hq. unfold all_tasks. simpl. apply (Permutation_app_inv_l (held w)).
  rewrite (Permutation_app_swap_app (held w) q), (assoc_L (++) (held w)).
  rewrite (held_update _ i w w' Hw). rewrite <-!(assoc_L (++)).
  set (H := workers s ≫= held). set (a := to_add (owner s)).
  rewrite (Permutation_app_swap_app q (held w')).
  rewrite (Permutation_app_swap_app q H), (Permutation_app_swap_app (held w') H).
  rewrite (Permutation_app_swap_app (queue s) H), (Permutation_app_swap_app (held w) H).
  apply Permutation_app_head. rewrite !(assoc_L (++)). apply Permutation_app_tail.
  by rewrite <-!(assoc_L (++)).
Qed.

Lemma run_step_tasks s i w s' : workers s !! i = Some w → run_step i w s = Some s' →
  all_tasks s' ≡ₚ all_tasks s.
Proof.
  intros Hw E. unfold run_step, if_empty, acquire in E.
  assert (Hset : ∀ p, held (mkWorker p (stopped w)) = held w → all_tasks (set_pc i w p s) ≡ₚ all_tasks s)
    by (intros p Hp; apply (tasks_update s i w); [done|by rewrite Hp]).
  assert (Hmut : ∀ m p, held (mkWorker p (stopped w)) = held w →
    all_tasks (set_mutex m (set_pc i w p s)) ≡ₚ all_tasks s) by (intros; by apply Hset).
  assert (Hnot : ∀ s1, all_tasks (notify_all s1) ≡ₚ all_tasks s1)
    by (intros s1; unfold all_tasks; simpl; by rewrite held_wake).
  unfold release in E. assert (Hh : held w = held (mkWorker (pc w) (stopped w))) by by destruct w.
  destruct (pc w) as [| | | | | | | | | | | |t|t|t| | |] eqn:Ep; try discriminate E;
    try (destruct (shared_mutex s); [discriminate E|]); injection E as <-;
    rewrite ?Hnot; try (destruct (queue s) as [|t q] eqn:Eq);
    try (destruct (stopped w)); try (by apply Hset); try (by apply Hmut).
  all: apply (tasks_update s i w); [done|]; unfold held; rewrite Ep; simpl; try rewrite Eq; simpl;
    first [done|by rewrite (assoc_L (++)), <-Permutation_cons_append].
Qed.

Lemma owner_step_tasks s s' : owner_step s = Some s' → all_tasks s' ≡ₚ all_tasks s.
Proof.
  unfold owner_step, all_tasks. intros E.
  destruct (owner s) as [ts|ts|i| |i|] eqn:Eo; [destruct ts as [|t ts]| |destruct (workers s !! i) as [w|] eqn:Ew
    | |destruct (workers s !! i) as [w|]; [destruct (pc w); try discriminate E|]|discriminate E];
    injection E as <-; simpl; rewrite ?Eo, ?held_wake; try done.
  - rewrite <-(assoc_L (++)). apply Permutation_app_head. simpl. by rewrite !(Permutation_middle _ _ t).
  - apply Permutation_app_head, Permutation_app_tail.
    by apply (Permutation_app_inv_l (held w)); rewrite (held_update _ i w).
Qed.
Lemma spurious_tasks i s s' : spurious_step i s = Some s' → all_tasks s' ≡ₚ all_tasks s.
Proof.
  unfold spurious_step. intros E. destruct (workers s !! i) as [w|] eqn:Ew; [|discriminate E].
  simpl in E. destruct (pc w) eqn:Ep; try discriminate E. injection E as <-.
  apply (tasks_update s i w); [done|]. unfold held. by rewrite Ep.
Qed.
Lemma worker_step_inv i s s' : worker_step i s = Some s' →
  ∃ w, workers s !! i = Some w ∧ run_step i w s = Some s'.
Proof. unfold worker_step. destruct (workers s !! i) as [w|]; [|done]. by exists w. Qed.

Lemma reachable_tasks n tasks s : reachable n tasks s → all_tasks s ≡ₚ tasks.
Proof.
  induction 1 as [|s s' _ IH Hstep|i s s' _ IH E]; [| |by rewrite (spurious_tasks i s s' E)].
  - unfold all_tasks. simpl. induction n; [done|]. done.
  - rewrite <-IH. destruct Hstep as [s s' E|i s s' E]; [by apply owner_step_tasks|].
    apply worker_step_inv in E as (w & Hw & E). by eapply run_step_tasks.
Qed.

Lemma run_step_length i w s s' : run_step i w s = Some s' → length (workers s') = length (workers s).
Proof.
  unfold run_step, acquire, if_empty. intros E.
  destruct (pc w); try discriminate E; try (destruct (shared_mutex s); [discriminate E|]);
    injection E as <-; destruct (queue s); simpl; by rewrite ?length_fmap, ?length_insert.
Qed.
Lemma owner_step_length s s' : owner_step s = Some s' → length (workers s') = length (workers s).
Proof.
  unfold owner_step. intros E.
  destruct (owner s) as [ts|ts|i| |i|]; [destruct ts as [|t ts]| |destruct (workers s !! i) as [w|]
    | |destruct (workers s !! i) as [w|]; [destruct (pc w); try discriminate E|]|discriminate E];
    injection E as <-; simpl; by rewrite ?length_fmap, ?length_insert.
Qed.
Lemma reachable_length n tasks s : reachable n tasks s → length (workers s) = n.
Proof.
  induction 1 as [|s s' _ <- Hstep|i s s' _ <- E]; [apply length_replicate| |].
  - destruct Hstep as [s s' E|i s s' E]; [by apply owner_step_length|].
    apply worker_step_inv in E as (w & _ & E). by eapply run_step_length.
  - unfold spurious_step in E. destruct (workers s !! i) as [w|]; [|discriminate E].
    simpl in E. destruct (pc w); try discriminate E. injection E as <-. apply length_insert.
Qed.

Lemma finished_executes n tasks s : reachable n tasks s → owner s = Finished → (0 < n)%nat →
  executed s ≡ₚ tasks.
Proof.
  intros Hr Ef Hn. pose proof (reachable_ok n tasks s Hr) as Hok.
  assert (Hdone : ∀ i w, workers s !! i = Some w → pc w = Done).
  { intros i w Hw. apply (wo_joined _ _ _ (Hok i w Hw)). rewrite Ef. simpl. by eapply lookup_lt_Some. }
  rewrite <-(reachable_tasks n tasks s Hr). unfold all_tasks. rewrite Ef. simpl. rewrite app_nil_r.
  assert (Hheld : workers s ≫= held = []).
  { clear -Hdone. induction (workers s) as [|w ws IH]; [done|]. rewrite bind_cons.
    unfold held at 1. rewrite (Hdone 0%nat w eq_refl). simpl. apply IH.
    intros i w' Hw'. by apply (Hdone (S i)). }
  rewrite Hheld. destruct (lookup_lt_is_Some_2 (workers s) 0) as [w Hw].
  { by rewrite (reachable_length n tasks s Hr). }
  destruct (wo_left _ _ _ (Hok _ _ Hw)) as [-> _]; [right; by eapply Hdone|]. done.
Qed.

(** C18: The pool runs every task once. Whatever the order in which the threads
    move, and even if they wake up without a notification, no task runs twice,
    at most one worker is inside the mutex, none takes from an empty queue, and
    when [wait_workers] returns every task has run. *)
Theorem pool_runs_every_task n tasks s : reachable n tasks s →
  executed s ⊆+ tasks ∧
  (∀ i j wi wj, workers s !! i = Some wi → workers s !! j = Some wj →
     locked (pc wi) = true → locked (pc wj) = true → i = j) ∧
  (∀ i w, workers s !! i = Some w → pc w ≠ Crashed) ∧
  (owner s = Finished → (0 < n)%nat → executed s ≡ₚ tasks).
Proof.
  intros Hr. pose proof (reachable_ok n tasks s Hr) as Hok. split_and!.
  - rewrite <-(reachable_tasks n tasks s Hr). unfold all_tasks.
    rewrite !(assoc_L (++)), <-(assoc_L (++)). apply submseteq_middle.
  - intros i j wi wj Hi Hj Li Lj. apply (wo_mutex _ _ _ (Hok i wi Hi)) in Li.
    apply (wo_mutex _ _ _ (Hok j wj Hj)) in Lj. congruence.
  - intros i w Hw. apply (wo_crashed _ _ _ (Hok i w Hw)).
  - by apply finished_executes.
Qed.

(** ** Runs of the pool *)

(** Runs, by the threads that move: the owner or a worker. *)
Definition actor_step (a : option nat) (s : pool) : option pool :=
  match a with None => owner_step s | Some i => worker_step i s end.
Fixpoint run (actors : list (option nat)) (s : pool) : option pool :=
  match actors with [] => Some s | a :: actors => s ← actor_step a s; run actors s end.
Lemma run_reachable n tasks actors s s' :
  reachable n tasks s → run actors s = Some s' → reachable n tasks s'.
Proof.
  revert s. induction actors as [|a actors IH]; intros s Hs E; [by injection E as <-|].
  simpl in E. destruct (actor_step a s) as [s1|] eqn:E1; [|discriminate E].
  apply (IH s1); [|exact E]. eapply reachable_step; [exact Hs|].
  destruct a as [i|]; [by apply (step_worker i)|by apply step_owner].
Qed.

Lemma run_app a1 a2 s s1 : run a1 s = Some s1 → run (a1 ++ a2) s = run a2 s1.
Proof.
  revert s. induction a1 as [|a a1 IH]; intros s E; [by injection E as ->|].
  simpl in *. destruct (actor_step a s) as [s2|]; [|discriminate E]. by apply IH.
Qed.

(** The owner adds its tasks before a worker moves; then the first worker runs
    them all, while the others have not started. *)
Lemma wake_replicate n w : pc w ≠ Waiting → wake <$> replicate n w = replicate n w.
Proof. intros Hw. rewrite fmap_replicate. f_equal. unfold wake. by destruct (pc w). Qed.

Lemma first_worker_runs n q ts e : ∃ actors,
  run actors (mkPool q None (replicate (S n) new_worker) (Adding ts) e) =
    Some (mkPool [] None (replicate (S n) new_worker) (Adding []) (e ++ q ++ ts)).
Proof.
  revert q e. induction ts as [|t ts IH]; intros q e.
  - revert e. induction q as [|t q IH]; intros e; [exists []; by rewrite app_nil_r|].
    destruct (IH (e ++ [t])) as [actors E]. exists (replicate 10 (Some 0%nat) ++ actors).
    rewrite (run_app _ _ _ (mkPool q None (replicate (S n) new_worker) (Adding []) (e ++ [t]))).
    + by rewrite E, <-(assoc_L (++)).
    + simpl. unfold worker_step, run_step, notify_all. simpl. by rewrite wake_replicate.
  - destruct (IH (q ++ [t]) e) as [actors E]. exists ([None; None] ++ actors).
    rewrite (run_app _ _ _ (mkPool (q ++ [t]) None (replicate (S n) new_worker) (Adding ts) e)).
    + by rewrite E, <-(assoc_L (++)).
    + simpl. unfold notify_all. simpl. by rewrite wake_replicate.
Qed.

Local Notation idle := [new_worker; new_worker].

(** ** Lost notifications *)

(** The second worker finds its flag and the queue empty; before it waits, the
    owner stops it and notifies, and the first worker leaves. *)
Definition lost_notification : list (option nat) :=
  replicate 4 (Some 1%nat) ++ [None; None] ++ replicate 3 (Some 0%nat) ++ [None; None; None] ++
  [Some 1%nat; None].
Definition stuck (tasks : list T) : pool :=
  mkPool [] None [mkWorker Done true; mkWorker Waiting true] (Joining 1) tasks.
Lemma lose_notification tasks :
  run lost_notification (mkPool [] None idle (Adding []) tasks) = Some (stuck tasks).
Proof. reflexivity. Qed.

(** [stop_all_workers] can lose its notification. It sets the flags without
    [shared_mutex], so a worker that has read its flag and found no task can be
    notified before it waits. With two workers and any tasks the pool then
    reaches a state in which every task has run, [wait_workers] waits for that
    worker, and no thread can move: the call does not return. *)
Theorem pool_can_hang tasks : ∃ s,
  reachable 2 tasks s ∧ executed s = tasks ∧ owner s = Joining 1 ∧ ∀ s', ¬ step s s'.
Proof.
  exists (stuck tasks). split_and!; [|done|done|].
  - destruct (first_worker_runs 1 [] tasks []) as [actors E].
    apply (run_reachable 2 tasks (actors ++ lost_notification) (new_pool 2 tasks));
      [apply reachable_new|].
    erewrite run_app; [|exact E]. apply lose_notification.
  - intros s' Hs. inversion Hs as [s0 s1 E|i s0 s1 E]; subst; [discriminate E|].
    unfold worker_step in E. destruct i as [|[|i]]; discriminate E.
Qed.

(** ** A run that ends *)

Local Notation stopping_workers i n := (replicate i (mkWorker Start true) ++ replicate n new_worker).
Local Notation leaving_workers i n := (replicate i (mkWorker Done true) ++ replicate n (mkWorker Start true)).

Lemma lookup_middle_replicate {A} i (a : A) l : (replicate i a ++ l) !! i = head l.
Proof. rewrite lookup_app_r by (rewrite length_replicate; lia). rewrite length_replicate, Nat.sub_diag. by destruct l. Qed.
Lemma insert_middle_replicate {A} i (a b c : A) l :
  <[i := c]> (replicate i a ++ b :: l) = replicate i a ++ c :: l.
Proof. by rewrite insert_app_r_alt, length_replicate, Nat.sub_diag by (by rewrite length_replicate). Qed.
Lemma replicate_snoc_app {A} i (a : A) l : replicate i a ++ a :: l = replicate (S i) a ++ l.
Proof. rewrite (cons_middle a), (assoc_L (++)). by rewrite <-replicate_cons_app. Qed.

Lemma stop_workers i n e : ∃ actors,
  run actors (mkPool [] None (stopping_workers i n) (Stopping i) e) =
    Some (mkPool [] None (replicate (i + n) (mkWorker Start true)) StopNotifying e).
Proof.
  revert i. induction n as [|n IH]; intros i.
  - exists [None]. simpl. unfold owner_step. simpl. rewrite lookup_middle_replicate. simpl.
    by rewrite app_nil_r, Nat.add_0_r.
  - destruct (IH (S i)) as [actors E]. exists (None :: actors). simpl run. unfold owner_step. simpl.
    rewrite lookup_middle_replicate. simpl. rewrite insert_middle_replicate, replicate_snoc_app.
    by rewrite <-plus_n_Sm.
Qed.
Lemma leave_workers i n e : ∃ actors,
  run actors (mkPool [] None (leaving_workers i n) (Joining i) e) =
    Some (mkPool [] None (replicate (i + n) (mkWorker Done true)) Finished e).
Proof.
  revert i. induction n as [|n IH]; intros i.
  - exists [None]. simpl. unfold owner_step. simpl. rewrite lookup_middle_replicate. simpl.
    by rewrite app_nil_r, Nat.add_0_r.
  - destruct (IH (S i)) as [actors E]. exists ([Some i; Some i; Some i; None] ++ actors).
    erewrite run_app; [by rewrite E, <-plus_n_Sm|].
    simpl run. unfold worker_step. simpl. do 3 (rewrite lookup_middle_replicate; simpl;
      unfold run_step, set_pc, if_empty; simpl; rewrite ?insert_middle_replicate).
    unfold notify_all. simpl. rewrite fmap_app, fmap_cons, !wake_replicate by done.
    unfold owner_step. simpl. rewrite lookup_middle_replicate. simpl. unfold set_owner. simpl.
    by rewrite replicate_snoc_app.
Qed.

(** The pool of at least one worker can run its tasks in the order they were
    added and end; one without workers ends at once. *)
Lemma pool_finishes n tasks : ∃ s,
  reachable n tasks s ∧ owner s = Finished ∧ executed s = match n with O => [] | S _ => tasks end.
Proof.
  destruct n as [|n].
  - assert (Hq : ∀ q ts, ∃ actors, run actors (mkPool q None [] (Adding ts) []) =
      Some (mkPool (q ++ ts) None [] Finished [])).
    { intros q ts. revert q. induction ts as [|t ts IH]; intros q.
      - exists (replicate 4 None). by rewrite app_nil_r.
      - destruct (IH (q ++ [t])) as [actors E]. exists ([None; None] ++ actors).
        rewrite (run_app _ _ _ (mkPool (q ++ [t]) None [] (Adding ts) [])) by reflexivity.
        by rewrite E, <-(assoc_L (++)). }
    destruct (Hq [] tasks) as [actors E]. exists (mkPool tasks None [] Finished []).
    split; [|done]. exact (run_reachable 0 tasks actors _ _ (reachable_new 0 tasks) E).
  - destruct (first_worker_runs n [] tasks []) as [a1 E1].
    destruct (stop_workers 0 (S n) tasks) as [a2 E2]. destruct (leave_workers 0 (S n) tasks) as [a3 E3].
    exists (mkPool [] None (replicate (S n) (mkWorker Done true)) Finished tasks). split; [|done].
    apply (run_reachable (S n) tasks (a1 ++ [None] ++ a2 ++ [None] ++ a3) _ _ (reachable_new _ _)).
    erewrite run_app; [|exact E1].
    rewrite (run_app [None] _ _ (mkPool [] None (replicate (S n) new_worker) (Stopping 0) tasks)) by reflexivity.
    erewrite run_app; [|exact E2].
    rewrite (run_app [None] _ _ (mkPool [] None (replicate (S n) (mkWorker Start true)) (Joining 0) tasks)).
    + exact E3.
    + simpl. unfold notify_all. simpl. by rewrite wake_replicate.
Qed.

(** A pool without workers runs nothing. *)
Lemma no_workers_run_nothing tasks s : reachable 0 tasks s → executed s = [].
Proof.
  intros Hr. assert (Hlen := λ s, reachable_length 0 tasks s).
  induction Hr as [|s s' Hr IH Hstep|i s s' Hr IH E]; [done| |].
  - destruct Hstep as [s s' E|i s s' E].
    + revert E. unfold owner_step. destruct (owner s) as [[|??]|?|?| |?|]; intros E;
        repeat case_match; simplify_eq/=; exact IH.
    + apply worker_step_inv in E as (w & Hw & _). apply Hlen, nil_length_inv in Hr. by rewrite Hr in Hw.
  - unfold spurious_step in E. apply Hlen, nil_length_inv in Hr. by rewrite Hr in E.
Qed.
End pool.

Lemma pool_runs_every_task_witness : ∃ s,
  reachable 1 [7; 8] s ∧ owner s = Finished ∧ executed s ≡ₚ [7; 8].
Proof.
  set (actors := replicate 5 None ++ replicate 20 (Some 0%nat) ++ replicate 3 None ++
                 replicate 3 (Some 0%nat) ++ replicate 2 None).
  assert (E : run actors (new_pool 1 [7; 8]) =
    Some (mkPool [] None [mkWorker Done true] Finished [7; 8])) by reflexivity.
  assert (Hr := run_reachable 1 [7; 8] actors _ _ (reachable_new 1 [7; 8]) E).
  eexists. split; [exact Hr|]. split; [reflexivity|].
  apply (pool_runs_every_task 1 [7; 8] _ Hr); [reflexivity|lia].
Defined.
