(* ===== verification/PriorityQueue.v ===== *)
(** * std::priority_queue: the heap behind it

    The sort of a file merges runs through a [std::priority_queue] whose comparator is not
    strict: it says of two equal elements that each is below the other. The standard asks for a
    strict weak order and promises nothing of such a queue, so what the code relies on is the
    implementation: the binary heap of libstdc++ (bits/stl_heap.h), which is defined here.
    What it does is right for any comparator whose strict part is a strict weak order. *)
From S2P Require Import Prelude.

(** ** Orders *)

(** What a function given to [std::sort] is: a strict weak order. [le] is the
    order of a sorted sequence. *)
Section order.
Context {A : Type} (lt : A → A → bool).

Definition le (a b : A) : Prop := lt b a = false.
Definition sorted (l : list A) : Prop := StronglySorted le l.
Class StrictWeakOrder : Prop := {
  swo_asym a b : lt a b = true → lt b a = false;
  swo_trans a b c : le a b → le b c → le a c
}.
End order.

(** A function that tells which of two elements is below the other in a priority
    queue; when it is not strict, the strict order is that of the pairs it
    relates one way only. *)
Definition strict {A} (comp : A → A → bool) (a b : A) : bool := comp a b && negb (comp b a).

(** ** The heap *)
Section heap.
Context {A : Type} (comp : A → A → bool).
Implicit Types (h : list A) (v x y : A) (i hole : nat).

Definition parent i : nat := (i - 1) / 2.

(** [__push_heap]: the hole moves up while its parent is below the value. *)
Fixpoint push_heap (fuel : nat) h hole v : list A :=
  match fuel, hole with
  | S fuel, S _ =>
      match h !! parent hole with
      | Some x => if comp x v then push_heap fuel (<[hole := x]> h) (parent hole) v else <[hole := v]> h
      | None => h
      end
  | _, _ => <[hole := v]> h
  end.
(** [__adjust_heap]: the hole moves down to a leaf, the greater child taking its place. *)
Fixpoint sift_down (fuel : nat) h hole (len : nat) : list A * nat :=
  match fuel with
  | O => (h, hole)
  | S fuel =>
      if decide (2 * hole + 2 < len) then
        match h !! (2 * hole + 1), h !! (2 * hole + 2) with
        | Some x, Some y =>
            if comp y x then sift_down fuel (<[hole := x]> h) (2 * hole + 1) len
            else sift_down fuel (<[hole := y]> h) (2 * hole + 2) len
        | _, _ => (h, hole)
        end
      else if decide (2 * hole + 2 = len) then
        match h !! (2 * hole + 1) with
        | Some x => (<[hole := x]> h, 2 * hole + 1)
        | None => (h, hole)
        end
      else (h, hole)
  end.

(** [push] and [pop]; [pq_pop] gives what [top] gave before. *)
Definition pq_push v h : list A := push_heap (length h) (h ++ [v]) (length h) v.
Definition pq_pop h : option (A * list A) :=
  match h, last h with
  | x :: _, Some v =>
      let h := take (length h - 1) h in
      match h with
      | [] => Some (x, [])
      | _ => let '(h, hole) := sift_down (length h) h 0 (length h) in Some (x, push_heap hole h hole v)
      end
  | _, _ => None
  end.

(** ** It is a queue *)

Definition ge (a b : A) : Prop := strict comp a b = false.
Lemma comp_true a b : comp a b = true → ge b a.
Proof. intros E. unfold ge, strict. by rewrite E, andb_false_r. Qed.
Lemma comp_false a b : comp a b = false → ge a b.
Proof. intros E. unfold ge, strict. by rewrite E. Qed.
Lemma ge_refl a : ge a a.
Proof. unfold ge, strict. by destruct (comp a a). Qed.

Lemma parent_child i : 0 < i → i = 2 * parent i + 1 ∨ i = 2 * parent i + 2.
Proof. unfold parent. pose proof (Nat.div_mod_eq (i - 1) 2). pose proof (Nat.mod_upper_bound (i - 1) 2). lia. Qed.
Lemma parent_left i : parent (2 * i + 1) = i.
Proof. destruct (parent_child (2 * i + 1)); lia. Qed.
Lemma parent_right i : parent (2 * i + 2) = i.
Proof. destruct (parent_child (2 * i + 2)); lia. Qed.

(** Two elements change places. *)
Lemma insert_perm h i v x : h !! i = Some x → x :: <[i := v]> h ≡ₚ v :: h.
Proof.
  revert i. induction h as [|y h IH]; intros [|i] E; try done; simpl in *.
  - injection E as ->. apply Permutation_swap.
  - rewrite (Permutation_swap y x), IH by done. apply Permutation_swap.
Qed.
Lemma move_perm h i j v x : i ≠ j → i < length h → h !! j = Some x →
  <[j := v]> (<[i := x]> h) ≡ₚ <[i := v]> h.
Proof.
  intros Hij Hi Hj. destruct (lookup_lt_is_Some_2 h i Hi) as [y Hy].
  set (h1 := <[i := x]> h).
  assert (E1 : x :: <[j := v]> h1 ≡ₚ v :: h1) by (apply insert_perm; unfold h1; by rewrite list_lookup_insert_ne).
  assert (E2 : y :: h1 ≡ₚ x :: h) by by apply insert_perm.
  assert (E3 : y :: <[i := v]> h ≡ₚ v :: h) by by apply insert_perm.
  apply (Permutation_cons_inv (a := x)), (Permutation_cons_inv (a := y)).
  rewrite E1, (Permutation_swap v y), E2, (Permutation_swap x y), E3. apply Permutation_swap.
Qed.

(** Every element is below its parent. *)
Definition is_heap h : Prop :=
  ∀ i x y, 0 < i → h !! i = Some x → h !! parent i = Some y → ge y x.
(** The same but for one place, whose children are below its parent. *)
Record hole_ok h hole : Prop := {
  ho_other i x y : 0 < i → i ≠ hole → parent i ≠ hole → h !! i = Some x → h !! parent i = Some y → ge y x;
  ho_across i x y : 0 < hole → 0 < i → parent i = hole → h !! i = Some x → h !! parent hole = Some y → ge y x
}.
Definition above h hole v : Prop := ∀ i x, 0 < i → parent i = hole → h !! i = Some x → ge v x.

Context `{!StrictWeakOrder (strict comp)}.
Lemma ge_trans a b c : ge a b → ge b c → ge a c.
Proof. unfold ge. intros H1 H2. by apply (swo_trans (strict comp) c b a). Qed.

Lemma place_heap h hole v : hole < length h → hole_ok h hole → above h hole v →
  (∀ y, 0 < hole → h !! parent hole = Some y → ge y v) → is_heap (<[hole := v]> h).
Proof.
  intros Hl [Ho _] Ha Hp i x y Hi. pose proof (parent_child i Hi). destruct (decide (i = hole)) as [->|Hne].
  { rewrite list_lookup_insert_eq, list_lookup_insert_ne by (done || lia). intros [= <-] Hy. by apply Hp. }
  rewrite list_lookup_insert_ne by done. destruct (decide (parent i = hole)) as [E|].
  - rewrite E, list_lookup_insert_eq by done. intros Hx [= <-]. by eapply Ha.
  - rewrite list_lookup_insert_ne by done. by apply Ho.
Qed.

(** The hole moves to its parent, or to its greatest child. *)
Lemma move_up h hole v x : hole < length h → hole_ok h hole → above h hole v → 0 < hole →
  h !! parent hole = Some x → ge v x →
  hole_ok (<[hole := x]> h) (parent hole) ∧ above (<[hole := x]> h) (parent hole) v.
Proof.
  intros Hl [Ho Hac] Ha Hpos Hx Hv. pose proof (parent_child hole Hpos).
  assert (Hsib : ∀ i y, 0 < i → parent i = parent hole → <[hole := x]> h !! i = Some y → ge x y).
  { intros i y Hi Hp. rewrite list_lookup_insert. case_decide as E; [intros [= <-]; apply ge_refl|].
    intros Hy. apply (Ho i); [done|intros ->; tauto|lia|done|by rewrite Hp]. }
  split; [split|].
  - intros i y z Hi Hne Hpne Hy. pose proof (parent_child i Hi).
    assert (i ≠ hole) by (intros ->; done). rewrite list_lookup_insert_ne in Hy by done.
    destruct (decide (parent i = hole)) as [E|].
    + rewrite E, list_lookup_insert_eq by done. intros [= <-]. by apply (Hac i).
    + rewrite list_lookup_insert_ne by done. by apply Ho.
  - intros i y z Hp Hi Ei Hy Hz. pose proof (parent_child (parent hole) Hp).
    rewrite list_lookup_insert_ne in Hz by lia. apply (ge_trans z x y); [|by apply (Hsib i)].
    apply (Ho (parent hole)); (done || lia).
  - intros i y Hi Ei Hy. apply (ge_trans v x y); [done|by apply (Hsib i)].
Qed.
Lemma move_down h hole c x : hole < length h → hole_ok h hole → 0 < c → parent c = hole → h !! c = Some x →
  (∀ i y, 0 < i → parent i = hole → h !! i = Some y → ge x y) → hole_ok (<[hole := x]> h) c.
Proof.
  intros Hl [Ho Hac] Hc Ec Hx Hmax. pose proof (parent_child c Hc). split.
  - intros i y z Hi Hne Hpne. pose proof (parent_child i Hi). destruct (decide (i = hole)) as [->|].
    { rewrite list_lookup_insert_eq, list_lookup_insert_ne by (done || lia). intros [= <-] Hz. by apply (Hac c). }
    rewrite list_lookup_insert_ne by done. destruct (decide (parent i = hole)) as [E|].
    + rewrite E, list_lookup_insert_eq by done. intros Hy [= <-]. by apply (Hmax i).
    + rewrite list_lookup_insert_ne by done. by apply Ho.
  - intros i y z _ Hi Ei. pose proof (parent_child i Hi).
    rewrite Ec, list_lookup_insert_eq, list_lookup_insert_ne by (done || lia). intros Hy [= <-].
    apply (Ho i); [done|lia|lia|done|by rewrite Ei].
Qed.

Lemma push_heap_spec fuel : ∀ h hole v, hole ≤ fuel → hole < length h → hole_ok h hole → above h hole v →
  is_heap (push_heap fuel h hole v) ∧ push_heap fuel h hole v ≡ₚ <[hole := v]> h.
Proof.
  induction fuel as [|fuel IH]; intros h hole v Hf Hl Hh Ha.
  { assert (hole = 0) as -> by lia. split; [|done]. apply place_heap; [done..|lia]. }
  destruct hole as [|k]; [split; [apply place_heap; [done..|lia]|done]|]. cbn [push_heap].
  pose proof (parent_child (S k) ltac:(lia)).
  destruct (lookup_lt_is_Some_2 h (parent (S k))) as [x Hx]; [lia|]. rewrite Hx.
  destruct (comp x v) eqn:E.
  - destruct (move_up h (S k) v x) as [Hh' Ha']; [done..|lia|done|by apply comp_true|].
    destruct (IH (<[S k := x]> h) (parent (S k)) v) as [H1 H2]; [lia|rewrite length_insert; lia|done..|].
    split; [done|]. rewrite H2. apply move_perm; [lia|done|done].
  - split; [|done]. apply place_heap; [done..|]. intros y _ Hy. simplify_eq. by apply comp_false.
Qed.

(** The hole ends at a leaf. *)
Lemma sift_down_spec fuel : ∀ h hole h' hole', length h ≤ hole + fuel → hole < length h → hole_ok h hole →
  sift_down fuel h hole (length h) = (h', hole') →
  hole' < length h' ∧ length h' ≤ 2 * hole' + 1 ∧ hole_ok h' hole' ∧
  ∀ v, <[hole' := v]> h' ≡ₚ <[hole := v]> h.
Proof.
  induction fuel as [|fuel IH]; intros h hole h' hole' Hf Hl Hh E; [lia|]. cbn [sift_down] in E.
  pose proof (parent_left hole) as Hpl. pose proof (parent_right hole) as Hpr.
  assert (Hkids : ∀ i, 0 < i → parent i = hole → i = 2 * hole + 1 ∨ i = 2 * hole + 2)
    by (intros i Hi <-; by apply parent_child).
  assert (Hgo : ∀ c x, (c = 2 * hole + 1 ∨ c = 2 * hole + 2) → h !! c = Some x →
    (∀ i y, 0 < i → parent i = hole → h !! i = Some y → ge x y) →
    sift_down fuel (<[hole := x]> h) c (length h) = (h', hole') →
    hole' < length h' ∧ length h' ≤ 2 * hole' + 1 ∧ hole_ok h' hole' ∧ ∀ v, <[hole' := v]> h' ≡ₚ <[hole := v]> h).
  { intros c x Hc Hx Hmax Es. pose proof (lookup_lt_Some _ _ _ Hx).
    rewrite <-(length_insert h hole x) in Es.
    destruct (IH (<[hole := x]> h) c h' hole') as (H1 & H2 & H3 & H4);
      [rewrite length_insert; lia|rewrite length_insert; lia| |done|].
    { apply move_down; [done|done|lia|by destruct Hc as [-> | ->]|done|done]. }
    split_and!; [done..|]. intros v. rewrite H4. apply move_perm; [lia|done|done]. }
  repeat case_decide.
  - destruct (lookup_lt_is_Some_2 h (2 * hole + 1)) as [x Hx]; [lia|].
    destruct (lookup_lt_is_Some_2 h (2 * hole + 2)) as [y Hy]; [lia|]. rewrite Hx, Hy in E.
    destruct (comp y x) eqn:Ec.
    + apply (Hgo (2 * hole + 1) x); [by left|done| |done]. intros i z Hi Hp Hz.
      destruct (Hkids i Hi Hp) as [-> | ->]; simplify_eq; [apply ge_refl|by apply comp_true].
    + apply (Hgo (2 * hole + 2) y); [by right|done| |done]. intros i z Hi Hp Hz.
      destruct (Hkids i Hi Hp) as [-> | ->]; simplify_eq; [by apply comp_false|apply ge_refl].
  - destruct (lookup_lt_is_Some_2 h (2 * hole + 1)) as [x Hx]; [lia|]. rewrite Hx in E. injection E as <- <-.
    rewrite length_insert. split; [lia|]. split; [lia|]. split.
    + apply move_down; [done|done|lia|done|done|]. intros i z Hi Hp Hz. pose proof (lookup_lt_Some _ _ _ Hz).
      destruct (Hkids i Hi Hp) as [-> | ->]; [simplify_eq; apply ge_refl|lia].
    + intros v. apply move_perm; [lia|done|done].
  - injection E as <- <-. split_and!; [done|lia|done|done].
Qed.

Lemma heap_top h x : is_heap h → h !! 0 = Some x → ∀ i y, h !! i = Some y → ge x y.
Proof.
  intros Hh Hx i. induction (lt_wf i) as [i _ IH]. intros y Hy.
  destruct (decide (i = 0)) as [->|]; [simplify_eq; apply ge_refl|].
  pose proof (parent_child i ltac:(lia)). pose proof (lookup_lt_Some _ _ _ Hy).
  destruct (lookup_lt_is_Some_2 h (parent i)) as [z Hz]; [lia|].
  apply (ge_trans x z y); [apply (IH (parent i)); (done || lia)|by apply (Hh i); [lia|..]].
Qed.

(** Pushing and popping keep the heap; what is popped is the top of it. *)
Lemma pq_push_spec v h : is_heap h → is_heap (pq_push v h) ∧ pq_push v h ≡ₚ v :: h.
Proof.
  intros Hh. unfold pq_push.
  assert (Hlk : ∀ i x, i ≠ length h → (h ++ [v]) !! i = Some x → h !! i = Some x).
  { intros i x Hne Hx. pose proof (lookup_lt_Some _ _ _ Hx) as Hlt. rewrite length_app in Hlt. simpl in Hlt.
    by rewrite lookup_app_l in Hx by lia. }
  assert (Hnone : ∀ i x, 0 < i → parent i = length h → (h ++ [v]) !! i = Some x → False).
  { intros i x Hi Hp Hx. pose proof (parent_child i Hi). apply lookup_lt_Some in Hx.
    rewrite length_app in Hx. simpl in Hx. lia. }
  destruct (push_heap_spec (length h) (h ++ [v]) (length h) v) as [H1 H2].
  - done.
  - rewrite length_app. simpl. lia.
  - split; [|by intros i x y _ Hi Hp Hx; destruct (Hnone i x)].
    intros i x y Hi Hne Hpne Hx Hy. apply (Hh i); auto.
  - by intros i x Hi Hp Hx; destruct (Hnone i x).
  - split; [done|]. rewrite H2. rewrite <-(Nat.add_0_r (length h)) at 1. rewrite insert_app_r. simpl.
    by rewrite <-Permutation_cons_append.
Qed.
Lemma pq_pop_spec h : is_heap h →
  match pq_pop h with
  | None => h = []
  | Some (x, q) => h ≡ₚ x :: q ∧ is_heap q ∧ Forall (ge x) q
  end.
Proof.
  intros Hh. destruct h as [|x h]; [done|]. unfold pq_pop.
  destruct (last (x :: h)) as [v|] eqn:El; [|by apply last_None in El].
  apply last_Some in El as [l El]. rewrite El. rewrite length_app, Nat.add_sub, take_app_length.
  assert (Hp : l ++ [v] ≡ₚ v :: l) by by rewrite <-Permutation_cons_append.
  destruct l as [|y l]; [by injection El as -> ->|]. injection El as -> E. subst h.
  set (l' := y :: l) in *.
  assert (Hl' : ∀ i z, l' !! i = Some z → (y :: l ++ [v]) !! i = Some z).
  { intros i z Hz. change (y :: l ++ [v]) with (l' ++ [v]). by apply lookup_app_l_Some. }
  destruct (sift_down (length l') l' 0 (length l')) as [h hole] eqn:Es.
  destruct (sift_down_spec (length l') l' 0 h hole) as (H1 & H2 & H3 & H4); [lia|simpl; lia| |done|].
  { split; [|lia]. intros i a b Hi _ _ Ha Hb. by apply (Hh i); auto. }
  destruct (push_heap_spec hole h hole v) as [H5 H6]; [done..| |].
  { intros i z Hi Hp' Hz. pose proof (parent_child i Hi). apply lookup_lt_Some in Hz. lia. }
  assert (Hperm : l' ++ [v] ≡ₚ y :: push_heap hole h hole v).
  { rewrite H6, H4, Hp. symmetry. by apply insert_perm. }
  split; [exact Hperm|]. split; [done|]. apply Forall_forall. intros z Hz.
  assert (Hin : z ∈ y :: l ++ [v]) by (change (y :: l ++ [v]) with (l' ++ [v]); rewrite Hperm; by right).
  apply list_elem_of_lookup in Hin as [i Hi]. by apply (heap_top _ y Hh eq_refl i).
Qed.
End heap.
