(* ===== verification/TripleSort.v ===== *)
(** * algorithms/triple_external_sort.hpp: triples and the sort in memory

    [TripleValue] and its file form, the order a [Comparator] gives, and
    [parallel_sort]: the segments of a vector are sorted by the tasks of a
    [ParallelWorkerPool] and merged through a priority queue (PriorityQueue.v). [merges] is the
    merging of sorted runs that this file and ExternalSort.v have in common. *)
From S2P Require Import Prelude Streams ParallelWorker PriorityQueue.

Local Open Scope Z_scope.

(** [std::sort]: the standard leaves open how equal elements end up. *)
Class StdAlgorithms := {
  std_sort {A : Type} : (A → A → bool) → list A → list A
}.
Class StdAlgorithmsLaws `{StdAlgorithms} : Prop := {
  std_sort_perm {A : Type} (lt : A → A → bool) l : std_sort lt l ≡ₚ l;
  std_sort_sorted {A : Type} (lt : A → A → bool) `{!StrictWeakOrder lt} l : sorted lt (std_sort lt l)
}.

Section order_lemmas.
Context {A : Type} (lt : A → A → bool) `{!StrictWeakOrder lt}.

#[export] Instance le_dec : RelDecision (le lt).
Proof. intros a b. unfold le. apply _. Defined.
#[export] Instance le_trans : Transitive (le lt).
Proof. intros a b c. by apply swo_trans. Qed.
#[export] Instance le_total : Total (le lt).
Proof.
  intros a b. unfold le. destruct (lt b a) eqn:E; [right; by apply swo_asym|by left].
Qed.
Lemma lt_le a b : lt a b = true → le lt a b.
Proof. by apply swo_asym. Qed.
End order_lemmas.

(** ** Merging sorted runs *)

Section merges.
Context {A : Type} (lt : A → A → bool).

Definition push_run (r : list A) (runs : list (list A)) : list (list A) :=
  match r with [] => runs | _ => r :: runs end.
Definition not_below (x : A) (r : list A) : Prop :=
  match r with [] => True | y :: _ => le lt x y end.
(** [out] is made of [runs] by taking a least head each time. *)
Inductive merges : list (list A) → list A → Prop :=
  | merges_nil : merges [] []
  | merges_head runs x r rest out : runs ≡ₚ (x :: r) :: rest → Forall (not_below x) rest →
      merges (push_run r rest) out → merges runs (x :: out).

Lemma concat_push_run r runs : concat (push_run r runs) = r ++ concat runs.
Proof. by destruct r. Qed.
Lemma merges_runs runs runs' out : runs ≡ₚ runs' → merges runs out → merges runs' out.
Proof.
  intros Hp Hm. inversion Hm as [|? x r rest out' Hr Hx Ho]; subst.
  - apply Permutation_nil in Hp as ->. constructor.
  - apply (merges_head _ x r rest); [by rewrite <-Hp|done|done].
Qed.
Lemma merges_perm runs out : merges runs out → out ≡ₚ concat runs.
Proof.
  induction 1 as [|runs x r rest out Hr _ _ IH]; [done|].
  rewrite Hr, IH, concat_push_run. done.
Qed.

Lemma merges_one l out : merges [l] out → out = l.
Proof.
  revert out. induction l as [|y l IH]; intros out Ho.
  - inversion Ho as [|? x r rest o' Hp]; subst.
    apply Permutation_length_1_inv in Hp. discriminate Hp.
  - inversion Ho as [|? x' r rest o' Hp _ Ho']; subst.
    apply Permutation_length_1_inv in Hp. injection Hp as -> -> ->. f_equal.
    destruct l as [|z l]; [|by apply IH].
    inversion Ho' as [|? ? ? ? ? Hp']; [done|].
    apply Permutation_nil in Hp'. discriminate Hp'.
Qed.

Context `{!StrictWeakOrder lt}.

Lemma merges_sorted runs out : merges runs out → Forall (sorted lt) runs → sorted lt out.
Proof.
  induction 1 as [|runs x r rest out Hr Hx Hm IH]; intros Hs; [constructor|].
  rewrite Hr in Hs. apply Forall_cons in Hs as [Hxr Hrest].
  apply StronglySorted_inv in Hxr as [Hsr Hall].
  constructor; [apply IH; destruct r; [done|by constructor]|].
  rewrite (merges_perm _ _ Hm), concat_push_run. apply Forall_app. split; [done|].
  apply Forall_concat. clear -Hx Hrest StrictWeakOrder0.
  induction Hrest as [|run rest Hs _ IH]; [done|]. apply Forall_cons in Hx as [Hx Hxs].
  constructor; [|by apply IH]. destruct run as [|y run]; [done|].
  apply StronglySorted_inv in Hs as [_ Hall]. constructor; [done|].
  weaken Hall. by eapply swo_trans.
Qed.
End merges.

(** ** Triples *)

(** [TripleValue] and [FileData]. *)
Record TripleValue := mkTriple { first : Z; second : Z; third : Z }.
Record FileData := mkFileData { fd_size : Z; current_triple : Z }.
#[export] Instance TripleValue_eq_dec : EqDecision TripleValue.
Proof. solve_decision. Defined.

Definition read_from_file : rd TripleValue :=
  a ← read_u64; b ← read_u64; c ← read_u64; mret (mkTriple a b c).
Definition write_to_file (t : TripleValue) : wr () :=
  write_u64 (first t);; write_u64 (second t);; write_u64 (third t).

Definition read_triple (fd : FileData) : rd (TripleValue * FileData) :=
  triple ← read_from_file; mret (triple, mkFileData (fd_size fd) (u64 (current_triple fd + 1))).
Definition finished (fd : FileData) : bool := bool_decide (fd_size fd ≤ current_triple fd).

(** A file of triples: their number, then the triples. *)
Definition write_triples (data : list TripleValue) : wr () :=
  write_u64 (u64 (Z.of_nat (length data)));; loop (λ _ t, write_to_file t) () data.

Definition triple_ok (t : TripleValue) : Prop :=
  in_u 64 (first t) ∧ in_u 64 (second t) ∧ in_u 64 (third t).
Definition triple_bytes (t : TripleValue) : list Z :=
  be_encode 8 (first t) ++ be_encode 8 (second t) ++ be_encode 8 (third t).
Definition triples_file (l : list TripleValue) : list Z :=
  be_encode 8 (Z.of_nat (length l)) ++ (l ≫= triple_bytes).

Lemma emits_triple t : emits (write_to_file t) (triple_bytes t) ().
Proof.
  unfold write_to_file, triple_bytes.
  repeat (eapply emits_bind; [apply emits_u64|]). apply emits_u64.
Qed.
Lemma parses_triple t : triple_ok t → parses read_from_file (triple_bytes t) t.
Proof.
  intros (Ha & Hb & Hc). unfold read_from_file, triple_bytes. destruct t as [a b c].
  eapply parses_bind; [by apply parses_u64|]. eapply parses_bind; [by apply parses_u64|].
  eapply parses_eq; [apply (parses_bind_ret _ (λ c, mkTriple a b c)); by apply parses_u64|done|done].
Qed.
Lemma read_triple_at fd pre x unread : triple_ok x → in_u 64 (current_triple fd + 1) →
  read_triple fd (stream_at pre ((x :: unread) ≫= triple_bytes)) =
  Ret ((x, mkFileData (fd_size fd) (current_triple fd + 1)),
       stream_at (pre ++ triple_bytes x) (unread ≫= triple_bytes)).
Proof.
  intros Hx Hc. unfold read_triple. rewrite bind_cons.
  rewrite (u64_id _ Hc). unfold mbind, st_bind. by rewrite (parses_at _ _ _ _ _ (parses_triple x Hx)).
Qed.
Lemma emits_triples l : in_u 64 (Z.of_nat (length l)) →
  emits (write_triples l) (triples_file l) ().
Proof.
  intros Hl. unfold write_triples, triples_file. rewrite u64_id by done.
  eapply emits_bind; [apply emits_u64|]. apply emits_loop_unit. intros x _. apply emits_triple.
Qed.

(** ** parallel_sort *)

(** The pool runs the tasks [0 .. n-1] it is given, in an order it chooses: that
    of a run of the threads of ParallelWorker.v that ends. *)
Class PoolSchedule := pool_order : nat → list nat → list nat.
Class PoolScheduleRuns `{PoolSchedule} : Prop :=
  pool_order_run n tasks : ∃ s,
    reachable n tasks s ∧ owner s = Finished ∧ executed s = pool_order n tasks.

Section parallel_sort.
Context `{StdAlgorithms, PoolSchedule} (comparator : TripleValue → TripleValue → bool).

Definition sizeof_TripleValue : Z := 24.

(** [PairComp] compares the triples of two entries of the queue. *)
Definition PairComp {B} (lhs rhs : TripleValue * B) : bool := negb (comparator lhs.1 rhs.1).

(** The indices at which a segment reaches [segment_size], the loop being at
    index [i] with [n] indices left. *)
Fixpoint cut_offsets (segment_size acc_size : Z) (i n : nat) : list nat :=
  match n with
  | O => []
  | S n =>
      let acc_size := u64 (acc_size + sizeof_TripleValue) in
      if decide (segment_size ≤ acc_size) then i :: cut_offsets segment_size 0 (S i) n
      else cut_offsets segment_size acc_size (S i) n
  end.
Definition offsets_after_first (segment_size : Z) (size : nat) : list nat :=
  cut_offsets segment_size sizeof_TripleValue 1 (size - 1) ++ [size].

(** The task of segment [i]. *)
Definition sort_segment (offsets : list nat) (data : list TripleValue) (i : nat)
    : outcome (list TripleValue) :=
  o ← deref (offsets !! i);
  o' ← deref (offsets !! S i);
  Ret (take o data ++ std_sort comparator (take (o' - o) (drop o data)) ++ drop o' data).
Fixpoint run_tasks (offsets : list nat) (data : list TripleValue) (tasks : list nat)
    : outcome (list TripleValue) :=
  match tasks with
  | [] => Ret data
  | i :: tasks => data ← sort_segment offsets data i; run_tasks offsets data tasks
  end.

(** [{data[offsets[i]], offsets[i]}] for every segment, in a queue. *)
Fixpoint push_heads (data : list TripleValue) (offsets : list nat) (pqueue : list (TripleValue * nat))
    : outcome (list (TripleValue * nat)) :=
  match offsets with
  | [] => Ret pqueue
  | o :: offsets => x ← deref (data !! o); push_heads data offsets (pq_push PairComp (x, o) pqueue)
  end.

(** The loop over the queue; each iteration takes one element of [data]. *)
Fixpoint merge_segments (fuel : nat) (offsets_set : gset nat) (data : list TripleValue)
    (pqueue : list (TripleValue * nat)) (result : list TripleValue)
    : outcome (list TripleValue) :=
  match pq_pop PairComp pqueue with
  | None => Ret result
  | Some ((x, o), pqueue) =>
      match fuel with
      | O => UB
      | S fuel =>
          if decide (S o ∈ offsets_set)
          then merge_segments fuel offsets_set data pqueue (result ++ [x])
          else y ← deref (data !! S o);
               merge_segments fuel offsets_set data (pq_push PairComp (y, S o) pqueue) (result ++ [x])
      end
  end.

Definition parallel_sort (data : list TripleValue) (max_workers segment_size : Z)
    : outcome (list TripleValue) :=
  if decide (segment_size / sizeof_TripleValue = 0) then UB else
  let offsets := 0%nat :: offsets_after_first segment_size (length data) in
  let parts := (length offsets - 1)%nat in
  let workers := Z.min (u64 max_workers) (Z.of_nat parts) in
  if decide (workers = 1) then Ret (std_sort comparator data) else
  data ← run_tasks offsets data (pool_order (Z.to_nat (s32 workers)) (seq 0 parts));
  pqueue ← push_heads data (take parts offsets) [];
  merge_segments (length data) (list_to_set (tail offsets)) data pqueue [].
End parallel_sort.

(** ** The sort in memory is right *)

(** [offsets] goes up from [o] to [n]. *)
Fixpoint chain (o : nat) (offsets : list nat) (n : nat) : Prop :=
  match offsets with [] => o = n | o' :: offsets => (o < o')%nat ∧ chain o' offsets n end.
(** The segments between the offsets. *)
Fixpoint slices {A} (o : nat) (offsets : list nat) (data : list A) : list (list A) :=
  match offsets with
  | [] => []
  | o' :: offsets => take (o' - o) (drop o data) :: slices o' offsets data
  end.

Lemma chain_bounds o offs n : chain o offs n → (o ≤ n)%nat ∧ Forall (λ x, o < x ≤ n)%nat offs.
Proof.
  revert o. induction offs as [|o' offs IH]; intros o Hc; simpl in *; [by subst|].
  destruct Hc as [Hlt Hc]. apply IH in Hc as [Hle Hall]. split; [lia|].
  constructor; [lia|]. weaken Hall. lia.
Qed.
Lemma cut_offsets_chain seg acc o i n : (o < i)%nat →
  chain o (cut_offsets seg acc i n ++ [i + n]%nat) (i + n).
Proof.
  revert acc o i. induction n as [|n IH]; intros acc o i Hlt.
  { simpl. lia. }
  simpl. replace (i + S n)%nat with (S i + n)%nat by lia. case_decide; simpl.
  - split; [done|]. apply (IH 0 i (S i)). lia.
  - apply (IH _ o (S i)). lia.
Qed.
Lemma offsets_chain seg n : (0 < n)%nat → chain 0 (offsets_after_first seg n) n.
Proof.
  intros Hn. unfold offsets_after_first.
  pose proof (cut_offsets_chain seg sizeof_TripleValue 0 1 (n - 1) ltac:(lia)) as Hc.
  by replace (1 + (n - 1))%nat with n in Hc by lia.
Qed.
Lemma length_cut_offsets seg acc i n : (length (cut_offsets seg acc i n) ≤ n)%nat.
Proof.
  revert acc i. induction n as [|n IH]; intros acc i; [done|]. simpl.
  case_decide; simpl; [pose proof (IH 0 (S i))|pose proof (IH (u64 (acc + sizeof_TripleValue)) (S i))]; lia.
Qed.

Section slices.
Context {A : Type}.
Implicit Types data : list A.

Lemma length_slices o offs data : length (slices o offs data) = length offs.
Proof. revert o. induction offs; intros o; simpl; auto. Qed.
Lemma concat_slices o offs data n : chain o offs n → concat (slices o offs data) = take (n - o) (drop o data).
Proof.
  revert o. induction offs as [|o' offs IH]; intros o Hc; simpl in *.
  - subst. by rewrite Nat.sub_diag.
  - destruct Hc as [Hlt Hc]. rewrite (IH _ Hc). apply chain_bounds in Hc as [Hle _].
    replace (n - o)%nat with ((o' - o) + (n - o'))%nat by lia.
    rewrite <-take_take_drop, drop_drop. do 3 f_equal. lia.
Qed.
Lemma slices_ext o offs n data data' : chain o offs n → drop o data = drop o data' →
  slices o offs data = slices o offs data'.
Proof.
  revert o. induction offs as [|o' offs IH]; intros o Hc E; [done|]. destruct Hc as [Hlt Hc]. simpl.
  f_equal; [by rewrite E|]. apply IH; [done|].
  replace o' with (o + (o' - o))%nat by lia. by rewrite <-!drop_drop, E.
Qed.
(** Replacing what is between two neighbouring offsets replaces one segment. *)
Lemma slices_update o offs n data i a b s : chain o offs n → (n ≤ length data)%nat →
  (o :: offs) !! i = Some a → offs !! i = Some b → length s = (b - a)%nat →
  slices o offs (take a data ++ s ++ drop b data) = <[i := s]> (slices o offs data).
Proof.
  revert o i. induction offs as [|o' offs IH]; intros o i Hc Hn Ha Hb Hs; [done|].
  destruct Hc as [Hlt Hc]. pose proof (chain_bounds _ _ _ Hc) as [Hle Hall].
  destruct i as [|i]; simpl in Ha, Hb |- *.
  - injection Ha as <-. injection Hb as <-. f_equal.
    + rewrite drop_app_length' by (rewrite length_take; lia).
      by rewrite take_app_length' by lia.
    + apply (slices_ext _ _ n); [done|]. rewrite (assoc_L (++)), drop_app_length'; [done|].
      rewrite length_app, length_take. lia.
  - assert (Hoa : (o' ≤ a)%nat).
    { destruct i as [|i]; simpl in Ha; [injection Ha as <-; lia|].
      apply (Forall_lookup_1 _ _ _ _ Hall) in Ha. lia. }
    assert (Hab : (a ≤ length data)%nat).
    { destruct i as [|i]; simpl in Ha; [injection Ha as <-; lia|].
      apply (Forall_lookup_1 _ _ _ _ Hall) in Ha. lia. }
    f_equal; [|by apply IH].
    rewrite drop_app_le by (rewrite length_take; lia). rewrite skipn_firstn_comm.
    rewrite take_app_le by (rewrite length_take, length_drop; lia).
    rewrite take_take. f_equal. lia.
Qed.
End slices.

Section parallel_sort_correct.
Context `{StdAlgorithmsLaws, PoolScheduleRuns} (comparator : TripleValue → TripleValue → bool)
  `{!StrictWeakOrder comparator}.

Lemma length_std_sort (l : list TripleValue) : length (std_sort comparator l) = length l.
Proof. by rewrite std_sort_perm. Qed.

(** The tasks sort the segments they name. *)
Lemma sort_segment_spec offs n data i : chain 0 offs n → (n ≤ length data)%nat →
  (i < length offs)%nat → ∃ data',
    sort_segment comparator (0%nat :: offs) data i = Ret data' ∧ length data' = length data ∧
    slices 0 offs data' = alter (std_sort comparator) i (slices 0 offs data) ∧
    drop n data' = drop n data.
Proof.
  intros Hc Hn Hi. pose proof (chain_bounds _ _ _ Hc) as [_ Hall].
  destruct (lookup_lt_is_Some_2 offs i Hi) as [b Hb].
  destruct (lookup_lt_is_Some_2 (0%nat :: offs) i ltac:(simpl; lia)) as [a Ha].
  assert (Hab : (a ≤ b ≤ n)%nat ∧ slices 0 offs data !! i = Some (take (b - a) (drop a data))).
  { clear Hall Hi. revert a b i Ha Hb. generalize 0%nat as o, Hc. clear Hc.
    induction offs as [|o' offs IH]; intros o Hc a b i Ha Hb; [done|].
    destruct Hc as [Hlt Hc]. pose proof (chain_bounds _ _ _ Hc) as [Hle _].
    destruct i as [|i]; simpl in *; [simplify_eq; split; [lia|done]|by apply (IH o')]. }
  destruct Hab as [Hab Hslice].
  set (s := std_sort comparator (take (b - a) (drop a data))).
  assert (Hs : length s = (b - a)%nat)
    by (unfold s; rewrite length_std_sort, length_take, length_drop; lia).
  exists (take a data ++ s ++ drop b data). unfold sort_segment. rewrite Ha.
  change ((0%nat :: offs) !! S i) with (offs !! i). rewrite Hb. split_and!; [done| | |].
  - rewrite !length_app, Hs, length_take, length_drop. lia.
  - rewrite (slices_update 0 offs n data i a b s) by done.
    apply list_eq. intros j. destruct (decide (j = i)) as [->|].
    + rewrite list_lookup_insert_eq, list_lookup_alter_eq, Hslice by (by rewrite length_slices). done.
    + by rewrite list_lookup_insert_ne, list_lookup_alter_ne.
  - rewrite (assoc_L (++)). replace n with (length (take a data ++ s) + (n - b))%nat at 1
      by (rewrite length_app, length_take; lia).
    rewrite <-drop_drop, drop_app_length, drop_drop. f_equal. lia.
Qed.

Lemma run_tasks_spec offs data tasks : chain 0 offs (length data) → NoDup tasks →
  Forall (λ i, i < length offs)%nat tasks → ∃ data',
    run_tasks comparator (0%nat :: offs) data tasks = Ret data' ∧ length data' = length data ∧
    ∀ i s, slices 0 offs data !! i = Some s →
      slices 0 offs data' !! i = Some (if decide (i ∈ tasks) then std_sort comparator s else s).
Proof.
  revert data. induction tasks as [|i tasks IH]; intros data Hc Hnd Hin.
  { exists data. split_and!; [done..|]. intros i s Hs. by rewrite decide_False by apply not_elem_of_nil. }
  apply NoDup_cons in Hnd as [Hni Hnd]. apply Forall_cons in Hin as [Hi Hin].
  destruct (sort_segment_spec offs (length data) data i Hc ltac:(done) Hi) as (d1 & E1 & Hl1 & Hs1 & _).
  destruct (IH d1) as (d2 & E2 & Hl2 & Hs2); [by rewrite Hl1|done..|].
  exists d2. simpl. rewrite E1. simpl. split_and!; [done|congruence|]. intros j s Hj.
  destruct (decide (j = i)) as [->|Hne].
  - rewrite (Hs2 i (std_sort comparator s)); [|by rewrite Hs1, list_lookup_alter_eq, Hj].
    rewrite decide_False by done. by rewrite decide_True by (by left).
  - rewrite (Hs2 j s); [|by rewrite Hs1, list_lookup_alter_ne].
    f_equal. apply decide_ext. rewrite elem_of_cons. naive_solver.
Qed.

(** When every segment has its task, each is sorted. *)
Lemma run_all_tasks offs data tasks : chain 0 offs (length data) → tasks ≡ₚ seq 0 (length offs) →
  ∃ data', run_tasks comparator (0%nat :: offs) data tasks = Ret data' ∧
    length data' = length data ∧ data' ≡ₚ data ∧
    Forall (sorted comparator) (slices 0 offs data').
Proof.
  intros Hc Hp. destruct (run_tasks_spec offs data tasks) as (d & E & Hl & Hs); [done| | |].
  { rewrite Hp. apply NoDup_seq. }
  { rewrite Hp. apply Forall_seq. lia. }
  assert (Hsl : slices 0 offs d = std_sort comparator <$> slices 0 offs data).
  { apply list_eq. intros i. rewrite list_lookup_fmap.
    destruct (slices 0 offs data !! i) as [s|] eqn:Ei.
    - rewrite (Hs _ _ Ei), decide_True; [done|]. rewrite Hp. apply elem_of_seq.
      apply lookup_lt_Some in Ei. rewrite length_slices in Ei. lia.
    - apply lookup_ge_None in Ei. apply lookup_ge_None. by rewrite length_slices in *. }
  assert (Hcat : ∀ data : list TripleValue, chain 0 offs (length data) → concat (slices 0 offs data) = data).
  { intros l Hl'. rewrite (concat_slices 0 offs l (length l)) by done.
    by rewrite drop_0, Nat.sub_0_r, firstn_all. }
  exists d. split_and!; [done|done| |].
  - rewrite <-(Hcat d), <-(Hcat data), Hsl by (done || by rewrite Hl).
    generalize (slices 0 offs data). intros l. induction l as [|s l IH]; [done|].
    rewrite fmap_cons. simpl. by rewrite std_sort_perm, IH.
  - rewrite Hsl. apply Forall_fmap, Forall_true. intros s. by apply std_sort_sorted.
Qed.

(** *** The merge *)

Lemma strict_PairComp {B} (a b : TripleValue * B) :
  strict (PairComp comparator) a b = comparator b.1 a.1.
Proof.
  unfold strict, PairComp. destruct (comparator a.1 b.1) eqn:E; simpl.
  - symmetry. by apply swo_asym.
  - by rewrite negb_involutive.
Qed.
#[export] Instance PairComp_strict {B} : StrictWeakOrder (strict (PairComp (B := B) comparator)).
Proof.
  constructor.
  - intros a b. rewrite !strict_PairComp. by apply swo_asym.
  - intros a b c. unfold le. rewrite !strict_PairComp. intros Hab Hbc.
    by apply (swo_trans comparator c.1 b.1 a.1).
Qed.
(** Popping the entry of a run from a queue that stands for [runs], and pushing one. *)
Lemma pop_run {B} (entry_run : TripleValue * B → list TripleValue → Prop) q x q' runs :
  (∀ e r, entry_run e r → ∃ r', r = e.1 :: r') → is_heap (PairComp comparator) q →
  pq_pop (PairComp comparator) q = Some (x, q') → Forall2 entry_run q runs →
  is_heap (PairComp comparator) q' ∧ ∃ r rest, runs ≡ₚ (x.1 :: r) :: rest ∧ entry_run x (x.1 :: r) ∧
    Forall2 entry_run q' rest ∧ Forall (not_below comparator x.1) rest.
Proof.
  intros Hhead Hq E Hr. pose proof (pq_pop_spec (PairComp comparator) q Hq) as Hs. rewrite E in Hs.
  destruct Hs as (Hp & Hq' & Hle). split; [done|].
  destruct (Permutation_Forall2 Hp Hr) as (runs' & Hp' & Hr').
  apply Forall2_cons_inv_l in Hr' as (r0 & rest & Hx & Hrest & ->).
  destruct (Hhead _ _ Hx) as [r ->]. exists r, rest. split_and!; [done..|].
  clear -Hle Hrest Hhead StrictWeakOrder0. induction Hrest as [|y r q rest Hy _ IH]; [constructor|].
  apply Forall_cons in Hle as [Hxy Hle]. constructor; [|by apply IH].
  destruct (Hhead _ _ Hy) as [r' ->]. unfold ge in Hxy. by rewrite strict_PairComp in Hxy.
Qed.
Lemma push_entry {B} (entry_run : TripleValue * B → list TripleValue → Prop) e r q runs :
  is_heap (PairComp comparator) q → Forall2 entry_run q runs → entry_run e r →
  is_heap (PairComp comparator) (pq_push (PairComp comparator) e q) ∧
  ∃ runs', Forall2 entry_run (pq_push (PairComp comparator) e q) runs' ∧ runs' ≡ₚ r :: runs.
Proof.
  intros Hq Hr He. destruct (pq_push_spec (PairComp comparator) e q Hq) as [Hq' Hp]. split; [done|].
  assert (Hc : Forall2 entry_run (e :: q) (r :: runs)) by by constructor.
  destruct (Permutation_Forall2 (symmetry Hp) Hc) as (runs' & Hp' & Hr').
  by exists runs'.
Qed.
Lemma pop_nothing {B} (q : list (TripleValue * B)) :
  is_heap (PairComp comparator) q → pq_pop (PairComp comparator) q = None → q = [].
Proof. intros Hq E. pose proof (pq_pop_spec (PairComp comparator) q Hq) as Hs. by rewrite E in Hs. Qed.

(** The rest of the segment that an entry of the queue is in. *)
Inductive run_at (offsets_set : gset nat) (data : list TripleValue) : nat → list TripleValue → Prop :=
  | run_at_last o : S o ∈ offsets_set → run_at offsets_set data o []
  | run_at_next o y r : S o ∉ offsets_set → data !! S o = Some y →
      run_at offsets_set data (S o) r → run_at offsets_set data o (y :: r).
Definition entry_run (offsets_set : gset nat) (data : list TripleValue)
    (e : TripleValue * nat) (r : list TripleValue) : Prop :=
  ∃ r', r = e.1 :: r' ∧ run_at offsets_set data e.2 r'.

Lemma merge_segments_spec fuel os data q runs res : is_heap (PairComp comparator) q →
  Forall2 (entry_run os data) q runs → (length (concat runs) ≤ fuel)%nat →
  ∃ out, merge_segments comparator fuel os data q res = Ret (res ++ out) ∧
    merges comparator runs out.
Proof.
  revert q runs res. induction fuel as [|fuel IH]; intros q runs res Hq Hr Hf; simpl.
  all: destruct (pq_pop (PairComp comparator) q) as [[[x o] q']|] eqn:E;
    [|apply pop_nothing in E as ->; [|done]; apply Forall2_nil_inv_l in Hr as ->;
      exists []; split; [by rewrite app_nil_r|constructor]].
  all: destruct (pop_run (entry_run os data) _ _ _ _ ltac:(by intros e r (r' & -> & _); eauto) Hq E Hr)
    as (Hq' & r & rest & Hp & (r' & [= <-] & Hrun) & Hrest & Hle); simpl in *;
    rewrite Hp in Hf; simpl in Hf; rewrite length_app in Hf.
  { lia. }
  destruct Hrun as [o Ho|o y r Ho Hy Hrun].
  - rewrite decide_True by done. destruct (IH q' rest (res ++ [x]) Hq' Hrest) as (out & Eo & Hm); [lia|].
    exists (x :: out). split; [by rewrite Eo, <-(assoc_L (++))|]. by eapply (merges_head _ _ x []).
  - rewrite decide_False, Hy by done. simpl.
    destruct (push_entry (entry_run os data) (y, S o) (y :: r) q' rest) as (Hq2 & runs2 & Hr2 & Hp2);
      [done|done|by exists r|].
    destruct (IH _ runs2 (res ++ [x]) Hq2 Hr2) as (out & Eo & Hm).
    { rewrite Hp2. simpl in *. rewrite length_app. lia. }
    exists (x :: out). split; [by rewrite Eo, <-(assoc_L (++))|].
    eapply (merges_head _ _ x (y :: r)); [done|done|]. by eapply merges_runs.
Qed.

Lemma run_at_slice os data n o : (∀ p, o < p < o + S n → p ∉ os)%nat → (o + S n)%nat ∈ os →
  (o + n < length data)%nat → run_at os data o (take n (drop (S o) data)).
Proof.
  revert o. induction n as [|n IH]; intros o Hgap Hend Hl.
  { constructor. by rewrite Nat.add_1_r in Hend. }
  destruct (lookup_lt_is_Some_2 data (S o)) as [y Hy]; [lia|].
  rewrite (drop_S _ y) by done. simpl. constructor; [apply Hgap; lia|done|].
  apply IH; [|by rewrite <-plus_n_Sm in Hend|lia]. intros p Hp. apply Hgap. lia.
Qed.
Lemma push_heads_spec os data offs : ∀ o q runs, chain o offs (length data) →
  (∀ p, o < p → p ∈ os ↔ p ∈ offs)%nat → is_heap (PairComp comparator) q → Forall2 (entry_run os data) q runs →
  ∃ q' runs', push_heads comparator data (take (length offs) (o :: offs)) q = Ret q' ∧
    is_heap (PairComp comparator) q' ∧ Forall2 (entry_run os data) q' runs' ∧ runs' ≡ₚ runs ++ slices o offs data.
Proof.
  induction offs as [|o' offs IH]; intros o q runs Hc Hos Hq Hr.
  { exists q, runs. by rewrite app_nil_r. }
  destruct Hc as [Hlt Hc]. pose proof (chain_bounds _ _ _ Hc) as [Hle Hall].
  destruct (lookup_lt_is_Some_2 data o) as [x Hx]; [lia|].
  destruct (push_entry (entry_run os data) (x, o) (take (o' - o) (drop o data)) q runs) as (Hq2 & runs2 & Hr2 & Hp2);
    [done|done| |].
  { rewrite (drop_S _ x) by done.
    replace (o' - o)%nat with (S (o' - S o)) by lia. simpl. eexists. split; [done|]. simpl.
    apply run_at_slice; [| |lia].
    + intros p Hp. rewrite Hos, elem_of_cons by lia. intros [->|Hin]; [lia|].
      rewrite Forall_forall in Hall. apply Hall in Hin. lia.
    + replace (o + S (o' - S o))%nat with o' by lia. rewrite Hos by lia. by left. }
  destruct (IH o' (pq_push (PairComp comparator) (x, o) q) runs2 Hc) as (q' & runs' & E & Hq' & Hr' & Hp'); [|done..|].
  { intros p Hp. rewrite Hos, elem_of_cons by lia. intuition lia. }
  exists q', runs'. split; [|split; [done|split; [done|]]].
  - change (take (length (o' :: offs)) (o :: o' :: offs)) with (o :: take (length offs) (o' :: offs)).
    simpl push_heads. rewrite Hx. exact E.
  - rewrite Hp', Hp2. simpl. by rewrite Permutation_middle.
Qed.
Lemma push_all_heads os data offs : chain 0 offs (length data) → (∀ p, 0 < p → p ∈ os ↔ p ∈ offs)%nat →
  ∃ q runs, push_heads comparator data (take (length offs) (0%nat :: offs)) [] = Ret q ∧
    is_heap (PairComp comparator) q ∧ Forall2 (entry_run os data) q runs ∧ runs ≡ₚ slices 0 offs data.
Proof. intros Hc Hos. by apply (push_heads_spec os data offs 0 [] []). Qed.

Lemma segment_holds_one segment_size : sizeof_TripleValue ≤ segment_size →
  segment_size / sizeof_TripleValue ≠ 0.
Proof. intros Hs. pose proof (Z.div_str_pos segment_size sizeof_TripleValue). unfold sizeof_TripleValue in *. lia. Qed.

Lemma parallel_sort_sorts data max_workers segment_size :
  0 < max_workers < 2 ^ 31 → sizeof_TripleValue ≤ segment_size →
  ∃ out, parallel_sort comparator data max_workers segment_size = Ret out ∧
    out ≡ₚ data ∧ sorted comparator out.
Proof.
  intros Hw Hseg. unfold parallel_sort.
  rewrite decide_False by (by apply segment_holds_one).
  set (offs := offsets_after_first segment_size (length data)).
  assert (Hlen : (1 ≤ length offs)%nat) by (unfold offs, offsets_after_first; rewrite length_app; simpl; lia).
  simpl length. change (tail (0%nat :: offs)) with offs. replace (S (length offs) - 1)%nat with (length offs) by lia.
  rewrite u64_id by width. case_decide as E1.
  { eexists. split_and!; [done|apply std_sort_perm|by apply std_sort_sorted]. }
  assert (Hdata : (0 < length data)%nat).
  { destruct data; [|simpl; lia]. unfold offs in E1. simpl in E1. lia. }
  pose proof (offsets_chain segment_size _ Hdata) as Hc. fold offs in Hc.
  set (n := Z.to_nat (s32 (Z.min max_workers (Z.of_nat (length offs))))).
  assert (Hn : (0 < n)%nat) by (unfold n, s32; rewrite to_signed_nonneg; lia).
  destruct (pool_order_run n (seq 0 (length offs))) as (s & Hr & Hf & Ex).
  destruct (run_all_tasks offs data (executed s)) as (d & Ed & Hl & Hp & Hs); [done| |].
  { by apply (finished_executes n). }
  rewrite Ex in Ed. rewrite Ed. cbn [mbind outcome_bind].
  rewrite <-Hl in Hc. destruct (push_all_heads (list_to_set offs) d offs Hc) as (q & runs & Eq & Hheap & Hq & Hrp).
  { intros p _. apply elem_of_list_to_set. }
  rewrite Eq. cbn [mbind outcome_bind].
  pose proof (concat_slices 0 offs d _ Hc) as Hcat. rewrite drop_0, Nat.sub_0_r, firstn_all in Hcat.
  destruct (merge_segments_spec (length d) (list_to_set offs) d q runs [] Hheap Hq)
    as (out & Eo & Hm); [by rewrite Hrp, Hcat|]. apply (merges_runs _ _ _ _ Hrp) in Hm.
  rewrite Eo. exists out. split_and!; [done| |by eapply merges_sorted].
  by rewrite (merges_perm _ _ _ Hm), Hcat.
Qed.

(** [parallel_sort] returns the elements of the vector in order: whatever
    order the pool runs the segments' tasks in and however [std::sort] and the
    queue place equal elements, for a strict weak order, a positive number of
    workers and segments of at least one triple. *)
Theorem parallel_sort_correct data max_workers segment_size :
  0 < max_workers < 2 ^ 31 → sizeof_TripleValue ≤ segment_size →
  ∃ out, parallel_sort comparator data max_workers segment_size = Ret out ∧
    out ≡ₚ data ∧ sorted comparator out.
Proof. apply parallel_sort_sorts. Qed.

(** Without workers the segments are not sorted: a vector of one segment comes
    back as it was. *)
Theorem no_workers_no_sort data segment_size :
  sizeof_TripleValue ≤ segment_size → data ≠ [] →
  sizeof_TripleValue * (Z.of_nat (length data) + 1) < segment_size < 2 ^ 64 →
  parallel_sort comparator data 0 segment_size = Ret data.
Proof.
  intros Hseg Hne Hone. unfold parallel_sort, offsets_after_first.
  rewrite decide_False by (by apply segment_holds_one).
  assert (Hcut : ∀ n acc i, 0 ≤ acc → acc + sizeof_TripleValue * Z.of_nat n < segment_size →
    cut_offsets segment_size acc i n = []).
  { unfold sizeof_TripleValue in *. induction n as [|n IH]; intros acc i Ha Hs; [done|]. simpl.
    rewrite u64_id by (unfold sizeof_TripleValue; width).
    rewrite decide_False by (unfold sizeof_TripleValue; lia).
    apply IH; unfold sizeof_TripleValue; lia. }
  rewrite Hcut by (unfold sizeof_TripleValue in *; lia).
  destruct (pool_order_run 0 [0%nat]) as (s & Hr & _ & Ex).
  rewrite (no_workers_run_nothing _ _ Hr) in Ex. cbn [app length Nat.sub seq].
  change (u64 0) with 0. rewrite decide_False by done. change (Z.to_nat (s32 (Z.min 0 _))) with 0%nat.
  rewrite <-Ex. cbn [run_tasks mbind outcome_bind].
  assert (Hc : chain 0 [length data] (length data)) by (by destruct data; [|split; [simpl; lia|]]).
  destruct (push_all_heads (list_to_set [length data]) data [length data] Hc) as (q & runs & Eq & Hheap & Hq & Hrp).
  { intros p _. apply elem_of_list_to_set. }
  cbn [length tail] in *. rewrite Eq. cbn [mbind outcome_bind].
  destruct (merge_segments_spec (length data) _ data q runs [] Hheap Hq) as (out & Eo & Hm).
  - rewrite Hrp, (concat_slices _ _ _ _ Hc), drop_0, length_take. lia.
  - rewrite Eo. f_equal. apply (merges_runs _ _ _ _ Hrp) in Hm. simpl in Hm. rewrite Nat.sub_0_r, firstn_all in Hm.
    by eapply merges_one.
Qed.
End parallel_sort_correct.

(** ** One implementation of the parameters *)

(** Merge sort; a pool whose first worker does all ([pool_finishes]). *)
#[export] Instance list_algorithms : StdAlgorithms := {|
  std_sort A lt l := merge_sort (le lt) l
|}.
#[export] Instance first_worker_schedule : PoolSchedule := λ n tasks,
  match n with O => [] | S _ => tasks end.
#[export] Instance list_algorithms_laws : StdAlgorithmsLaws.
Proof.
  constructor; simpl.
  - intros A lt l. apply merge_sort_Permutation.
  - intros A lt ? l. apply (StronglySorted_merge_sort (le lt)).
Qed.
#[export] Instance first_worker_runs_tasks : PoolScheduleRuns.
Proof. intros n tasks. apply pool_finishes. Qed.

(** The order scripts/triple_external_sort.cpp and the tests sort by. *)
Definition Comparator (lhs rhs : TripleValue) : bool := bool_decide (second lhs < second rhs).
#[export] Instance Comparator_order : StrictWeakOrder Comparator.
Proof.
  constructor; unfold le, Comparator.
  - intros a b. rewrite bool_decide_eq_true, bool_decide_eq_false. lia.
  - intros a b c. rewrite !bool_decide_eq_false. lia.
Qed.

Local Notation T a b := (mkTriple a b a).
Example sort_two_segments :
  parallel_sort Comparator [T 1 9; T 2 4; T 3 7; T 4 1] 2 48 =
  Ret [T 4 1; T 2 4; T 3 7; T 1 9].
Proof. vm_compute. reflexivity. Qed.
Example sort_without_workers :
  parallel_sort Comparator [T 1 9; T 2 4] 0 10000 = Ret [T 1 9; T 2 4].
Proof. vm_compute. reflexivity. Qed.

Lemma parallel_sort_correct_witness : ∃ out,
  parallel_sort Comparator [T 1 9; T 2 4; T 3 7; T 4 1] 2 48 = Ret out ∧
  out ≡ₚ [T 1 9; T 2 4; T 3 7; T 4 1] ∧ sorted Comparator out.
Proof.
  apply (parallel_sort_correct Comparator); unfold sizeof_TripleValue; lia.
Defined.
