(* ===== verification/ExternalSort.v ===== *)
(** * algorithms/triple_external_sort.hpp: sorting a file of triples

    [external_sort_triples]: the input is cut into parts that fit the memory,
    each is sorted ([parallel_sort]) and written to a file, and the files are
    merged [max_files] at a time until one is left. The file system is a map from
    names to contents. *)
From Stdlib Require Import Ascii.
From stdpp Require Import strings pretty stringmap.
From S2P Require Import Prelude Streams ParallelWorker PriorityQueue TripleSort.

Local Open Scope Z_scope.

(** ** Files *)

Abbreviation files := (gmap string (list Z)).

(** What the process meets: the names an [ofstream] can open, the pairs of names
    [rename] accepts, and [mkstemp], which gives a descriptor and a name. *)
Class Host := {
  writable : string → bool;
  renamable : string → string → bool;
  mkstemp : files → string → Z * string
}.

(** [lhs / rhs] of std::filesystem::path. *)
Definition is_absolute (p : string) : bool :=
  match p with String c _ => bool_decide (c = "/"%char) | EmptyString => false end.
Fixpoint ends_with_slash (p : string) : bool :=
  match p with
  | EmptyString => false
  | String c EmptyString => bool_decide (c = "/"%char)
  | String _ p => ends_with_slash p
  end.
Definition path_join (lhs rhs : string) : string :=
  if is_absolute rhs then rhs else
  match lhs with
  | EmptyString => rhs
  | _ => if ends_with_slash lhs then lhs +:+ rhs else lhs +:+ "/" +:+ rhs
  end.

Section external_sort.
Context `{Host, StdAlgorithms, PoolSchedule} (comparator : TripleValue → TripleValue → bool).

(** An [ofstream] truncates what it opens; what is written to one that did not
    open is lost. *)
Definition open_out (name : string) (fs : files) : files :=
  if writable name then <[name := []]> fs else fs.
Definition write_out (name : string) (w : wr ()) : st files () := λ fs,
  '(_, bytes) ← file_of w; Ret ((), if writable name then <[name := bytes]> fs else fs).

(** [fs::rename]. *)
Definition rename (from to : string) : st files () := λ fs,
  match fs !! from with
  | Some d => if renamable from to then Ret ((), <[to := d]> (delete from fs)) else Throw FilesystemError
  | None => Throw FilesystemError
  end.

(** ** split_file *)

(** The variables of [split_file] that [create_file_part] updates. *)
Record split_state := mkSplit {
  accumulated_size : Z;
  data : list TripleValue;
  current_file_index : Z;
  filenames : list string
}.

Definition part_name (input_filename tmp_dir : string) (i : Z) : string :=
  path_join tmp_dir (input_filename +:+ "-p" +:+ pretty i).

Definition create_file_part (input_filename tmp_dir : string) (workers segment_size : Z)
    (s : split_state) : st files split_state := λ fs,
  next_index ← int_chk (current_file_index s + 1);
  let filename := part_name input_filename tmp_dir (current_file_index s) in
  let fs := open_out filename fs in
  sorted_data ← parallel_sort comparator (data s) workers segment_size;
  '(_, fs) ← write_out filename (write_triples sorted_data) fs;
  Ret (mkSplit 0 [] next_index (filenames s ++ [filename]), fs).

Fixpoint split_loop (input_filename tmp_dir : string) (workers segment_size mem_budget_bound : Z)
    (fuel : nat) (input_file : istream) (filedata : FileData) (s : split_state)
    : st files split_state :=
  if finished filedata then mret s else
  match fuel with
  | O => lift UB
  | S fuel =>
      r ← lift (read_triple filedata input_file);
      let '((triple, filedata), input_file) := r in
      s ← (if decide (mem_budget_bound ≤ accumulated_size s)
           then create_file_part input_filename tmp_dir workers segment_size s else mret s);
      split_loop input_filename tmp_dir workers segment_size mem_budget_bound fuel input_file filedata
        (mkSplit (u64 (accumulated_size s + sizeof_TripleValue)) (data s ++ [triple])
           (current_file_index s) (filenames s))
  end.

(** The memory left for the triples of a part, the vector and the set of offsets
    of [parallel_sort] taken off. *)
Definition mem_budget_bound (memory_budget segment_size : Z) : Z :=
  let offsets_upper_bound_qty := u64 (memory_budget / segment_size + 1) in
  let offsets_size_ub := u64 (offsets_upper_bound_qty * 8) in
  let offsets_set_size_ub := u64 (offsets_upper_bound_qty * (8 + 8)) in
  let extra_structs_budget := u64 (offsets_size_ub + offsets_set_size_ub) in
  if decide (extra_structs_budget < memory_budget) then memory_budget - extra_structs_budget
  else extra_structs_budget.

(** [max_size] of a vector of triples. *)
Definition max_triples : Z := (2 ^ 63 - 1) / sizeof_TripleValue.

Definition split_file (input_filename tmp_dir : string) (memory_budget workers segment_size : Z)
    : st files (list string) := λ fs,
  '(size, input_file) ← read_u64 (get_reader (fs !! input_filename));
  let filedata := mkFileData size 0 in
  if decide (max_triples < u64 (Z.min (memory_budget / sizeof_TripleValue) size + 10))
  then Throw StdLengthError else
  if decide (segment_size = 0) then UB else
  '(s, fs) ← split_loop input_filename tmp_dir workers segment_size
              (mem_budget_bound memory_budget segment_size) (Z.to_nat size) input_file filedata
              (mkSplit 0 [] 0 []) fs;
  '(s, fs) ← (if decide (0 < accumulated_size s)
              then create_file_part input_filename tmp_dir workers segment_size s fs else Ret (s, fs));
  Ret (filenames s, fs).

(** ** merge_pass *)

(** [fill_with_file]: triples of a file are appended to its block until the block
    has [block_size] bytes; a file read to its end is closed. *)
Fixpoint fill_loop (block_size : Z) (fuel : nat) (accumulated_size : Z)
    (data_block : list TripleValue) (input_file : istream) (filedata : FileData)
    : outcome (list TripleValue * option istream * FileData) :=
  if decide (accumulated_size < block_size) then
    if finished filedata then Ret (data_block, None, filedata) else
    match fuel with
    | O => UB
    | S fuel =>
        '((triple, filedata), input_file) ← read_triple filedata input_file;
        fill_loop block_size fuel (u64 (accumulated_size + sizeof_TripleValue))
          (data_block ++ [triple]) input_file filedata
    end
  else Ret (data_block, Some input_file, filedata).
Definition fill_with_file (block_size : Z) (data_block : list TripleValue) (input_file : istream)
    (filedata : FileData) : outcome (list TripleValue * option istream * FileData) :=
  fill_loop block_size (Z.to_nat (fd_size filedata - current_triple filedata)) 0
    data_block input_file filedata.

(** The vectors of [merge_pass], one entry per file, and its queue. *)
Record merge_state := mkMerge {
  blocks : list (list TripleValue);
  opened_files : list (option istream);
  files_data : list FileData;
  pqueue : list (TripleValue * nat)
}.

Definition push_front_of (index : nat) (s : merge_state) : outcome merge_state :=
  b ← deref (blocks s !! index);
  match b with
  | x :: b => Ret (mkMerge (<[index := b]> (blocks s)) (opened_files s) (files_data s)
                     (pq_push (PairComp comparator) (x, index) (pqueue s)))
  | [] => UB
  end.
Definition block_update (block_size : Z) (index : nat) (s : merge_state) : outcome merge_state :=
  b ← deref (blocks s !! index);
  f ← deref (opened_files s !! index);
  match b, f with
  | [], Some file =>
      fd ← deref (files_data s !! index);
      '(b, f, fd) ← fill_with_file block_size [] file fd;
      let s := mkMerge (<[index := b]> (blocks s)) (<[index := f]> (opened_files s))
                 (<[index := fd]> (files_data s)) (pqueue s) in
      match b with [] => Ret s | _ => push_front_of index s end
  | [], None => Ret s
  | _, _ => push_front_of index s
  end.
Fixpoint update_blocks (block_size : Z) (indices : list nat) (s : merge_state) : outcome merge_state :=
  match indices with
  | [] => Ret s
  | i :: indices => s ← block_update block_size i s; update_blocks block_size indices s
  end.

(** The triples written while the queue is not empty. *)
Fixpoint merge_files (block_size : Z) (fuel : nat) (s : merge_state) (out : list TripleValue)
    : outcome (list TripleValue) :=
  match pq_pop (PairComp comparator) (pqueue s) with
  | None => Ret out
  | Some ((x, index), q) =>
      match fuel with
      | O => UB
      | S fuel =>
          s ← block_update block_size index (mkMerge (blocks s) (opened_files s) (files_data s) q);
          merge_files block_size fuel s (out ++ [x])
      end
  end.

(** The first block of every file. *)
Fixpoint open_runs (block_size : Z) (readers : list istream)
    : outcome (list (list TripleValue) * list (option istream) * list FileData) :=
  match readers with
  | [] => Ret ([], [], [])
  | r :: readers =>
      '(size, r) ← read_u64 r;
      '(b, f, fd) ← fill_with_file block_size [] r (mkFileData size 0);
      '(bs, fs, fds) ← open_runs block_size readers;
      Ret (b :: bs, f :: fs, fd :: fds)
  end.

(** The files [filenames[start..end)], each with a buffer. *)
Fixpoint open_files (filenames : list string) (buffers : list Z) (fs : files) (start n i : nat)
    : outcome (list istream) :=
  match n with
  | O => Ret []
  | S n =>
      name ← deref (filenames !! (start + i)%nat);
      _ ← deref (buffers !! i);
      readers ← open_files filenames buffers fs start n (S i);
      Ret (get_reader (fs !! name) :: readers)
  end.

(** [remove(filenames.at(i).c_str())] for the same files. *)
Fixpoint remove_files (filenames : list string) (i n : nat) : st files () := λ fs,
  match n with
  | O => Ret ((), fs)
  | S n =>
      match filenames !! i with
      | Some name => remove_files filenames (S i) n (delete name fs)
      | None => Throw StdOutOfRange
      end
  end.

(** The name [mkstemp] leaves in [mut_fname_template] is used through [c_str()],
    so the zero that ends its copy does not count. A buffer is its size. *)
Definition merge_pass (filenames : list string) (start end_ : nat) (tmp_dir : string)
    (block_size : Z) (buffers : list Z) : st files string := λ fs,
  let '(created, result_filename) := mkstemp fs (path_join tmp_dir "m_XXXXXX") in
  let fs := if decide (created < 0) then fs else <[result_filename := []]> fs in
  if decide (created = 0) then Throw RuntimeError else
  let fs := open_out result_filename fs in
  _ ← deref (last buffers);
  readers ← open_files filenames buffers fs start (end_ - start) 0;
  '(bs, os, fds) ← open_runs block_size readers;
  let total_size := u64 (sumZ (fd_size <$> fds)) in
  s ← update_blocks block_size (seq 0 (length bs)) (mkMerge bs os fds []);
  out ← merge_files block_size (Z.to_nat (sumZ (fd_size <$> fds))) s [];
  '(_, fs) ← write_out result_filename
              (write_u64 total_size;; loop (λ _ t, write_to_file t) () out) fs;
  '(_, fs) ← remove_files filenames start (end_ - start) fs;
  Ret (result_filename, fs).

(** ** merge_bottom_up and external_sort_triples *)

Definition level_passes (filenames_size max_files : Z) : Z :=
  s32 (filenames_size / u64 max_files + (if decide (filenames_size mod u64 max_files = 0) then 0 else 1)).

(** One pass of the level. *)
Definition add_pass (filenames : list string) (tmp_dir : string) (max_files block_size : Z)
    (buffers : list Z) (result_filenames : list string) (current_pass : nat) : st files (list string) :=
  start ← lift (int_chk (Z.of_nat current_pass * max_files));
  next ← lift (int_chk ((Z.of_nat current_pass + 1) * max_files));
  pass_file ← merge_pass filenames (Z.to_nat start)
                (Z.to_nat (Z.min next (s32 (Z.of_nat (length filenames))))) tmp_dir block_size buffers;
  mret (result_filenames ++ [pass_file]).
Definition merge_bottom_up (filenames : list string) (tmp_dir : string) (max_files block_size : Z)
    (buffers : list Z) : st files (list string) :=
  let size := Z.of_nat (length filenames) in
  if decide (max_files = 0) then lift UB else
  loop (add_pass filenames tmp_dir max_files block_size buffers)
    [] (seq 0 (Z.to_nat (level_passes size max_files))).

Definition init_buffers (max_files block_size : Z) : outcome (list Z) :=
  n ← int_chk (max_files + 1);
  if decide (0 < n ∧ 2 ^ 63 - 1 < block_size) then Throw StdLengthError
  else Ret (replicate (Z.to_nat n) block_size).

(** The loop over the levels; [None]: still merging after [fuel] levels. *)
Fixpoint merge_levels (tmp_dir : string) (max_files block_size : Z) (buffers : list Z)
    (fuel : nat) (current_filenames : list string) : st files (option (list string)) :=
  if decide (1 < length current_filenames)%nat then
    match fuel with
    | O => mret None
    | S fuel =>
        current_filenames ← merge_bottom_up current_filenames tmp_dir max_files block_size buffers;
        merge_levels tmp_dir max_files block_size buffers fuel current_filenames
    end
  else mret (Some current_filenames).

Definition external_sort_triples (fuel : nat) (input_filename output_filename tmp_dir : string)
    (workers max_files memory_budget block_size segment_size : Z) : st files (option ()) :=
  buffers ← lift (init_buffers max_files block_size);
  _ ← lift (deref (buffers !! 0%nat));
  _ ← lift (deref (buffers !! Z.to_nat max_files));
  names ← split_file input_filename tmp_dir memory_budget workers segment_size;
  m ← merge_levels tmp_dir max_files block_size buffers fuel names;
  match m with
  | None => mret None
  | Some names => f ← lift (deref (names !! 0%nat)); rename f output_filename;; mret (Some ())
  end.
End external_sort.

(** ** Files of triples *)

(** A file system with files of triples on top of [rest]. *)
Abbreviation runs_of := (list (string * list TripleValue)).
Definition store (al : runs_of) (rest : files) : files :=
  foldr (λ p m, <[p.1 := triples_file p.2]> m) rest al.
Definition store_wf (al : runs_of) (rest : files) : Prop :=
  NoDup al.*1 ∧ Forall (λ n, rest !! n = None) al.*1.

Section store.
Implicit Types (al : runs_of) (rest : files).

Lemma store_lookup al rest n r : NoDup al.*1 → (n, r) ∈ al → store al rest !! n = Some (triples_file r).
Proof.
  induction al as [|[n' r'] al IH]; intros Hnd Hin; [by apply not_elem_of_nil in Hin|].
  simpl in *. apply NoDup_cons in Hnd as [Hni Hnd]. apply elem_of_cons in Hin as [[= -> ->]|Hin].
  - apply lookup_insert_eq.
  - rewrite lookup_insert_ne; [by apply IH|]. intros ->. apply Hni. apply list_elem_of_fmap. by exists (n, r).
Qed.
Lemma store_lookup_ne al rest n : n ∉ al.*1 → store al rest !! n = rest !! n.
Proof.
  induction al as [|[n' r'] al IH]; intros Hni; [done|]. simpl in *.
  apply not_elem_of_cons in Hni as [Hne Hni]. rewrite lookup_insert_ne by done. by apply IH.
Qed.
Lemma store_app al al' rest : store (al ++ al') rest = store al (store al' rest).
Proof. unfold store. by rewrite foldr_app. Qed.
Lemma store_insert al rest n d : n ∉ al.*1 → store al (<[n := d]> rest) = <[n := d]> (store al rest).
Proof.
  induction al as [|[n' r'] al IH]; intros Hni; [done|]. simpl in *.
  apply not_elem_of_cons in Hni as [Hne Hni]. rewrite IH by done. by apply insert_insert_ne.
Qed.
Lemma store_delete al rest n : n ∉ al.*1 → store al (delete n rest) = delete n (store al rest).
Proof.
  induction al as [|[n' r'] al IH]; intros Hni; [done|]. simpl in *.
  apply not_elem_of_cons in Hni as [Hne Hni]. rewrite IH by done. by rewrite delete_insert_ne.
Qed.
(** A file is added, or taken away. *)
Lemma store_add al rest n r : n ∉ al.*1 →
  <[n := triples_file r]> (store al rest) = store (al ++ [(n, r)]) (delete n rest).
Proof.
  intros Hni. rewrite store_app. simpl. rewrite store_insert by done.
  rewrite store_delete by done. by rewrite insert_delete_eq.
Qed.
Lemma store_add_wf al rest n r : store_wf al rest → n ∉ al.*1 →
  store_wf (al ++ [(n, r)]) (delete n rest).
Proof.
  intros [Hnd Hf] Hni. split; rewrite fmap_app; simpl.
  - apply NoDup_app. split_and!; [done| |apply NoDup_singleton].
    intros x Hx ->%list_elem_of_singleton. done.
  - apply Forall_app. split; [weaken Hf; rewrite lookup_delete_None; by right|].
    constructor; [apply lookup_delete_eq|constructor].
Qed.
Lemma store_remove n r al rest : store_wf ((n, r) :: al) rest →
  delete n (store ((n, r) :: al) rest) = store al rest.
Proof.
  intros [Hnd Hf]. simpl in *. apply NoDup_cons in Hnd as [Hni _]. apply Forall_cons in Hf as [Hn _].
  rewrite delete_insert_id; [done|]. by rewrite store_lookup_ne.
Qed.
Lemma store_wf_cons n r al rest : store_wf ((n, r) :: al) rest → store_wf al rest.
Proof. intros [Hnd Hf]. split; [by apply NoDup_cons in Hnd as []|by apply Forall_cons in Hf as []]. Qed.

(** The files of [mid] are removed. *)
Lemma remove_files_spec mid pre names post rest fs : store_wf (mid ++ post) rest →
  fs = store (mid ++ post) rest → (∀ i n, mid.*1 !! i = Some n → names !! (pre + i)%nat = Some n) →
  remove_files names pre (length mid) fs = Ret ((), store post rest).
Proof.
  revert pre fs. induction mid as [|[n r] mid IH]; intros pre fs Hwf -> Hn; [done|].
  simpl. pose proof (Hn 0%nat n eq_refl) as H0. rewrite Nat.add_0_r in H0. rewrite H0.
  apply IH.
  - by eapply store_wf_cons.
  - by apply (store_remove n r (mid ++ post)).
  - intros i m Hi. replace (S pre + i)%nat with (pre + S i)%nat by lia. by apply (Hn (S i)).
Qed.
End store.

(** ** The merge of files *)

Section merge_correct.
Context `{Host, StdAlgorithmsLaws} (comparator : TripleValue → TripleValue → bool)
  `{!StrictWeakOrder comparator}.

(** A reader before the triples [unread], or closed after the last. *)
Definition reader_ok (f : option istream) (fd : FileData) (unread : list TripleValue) : Prop :=
  Forall triple_ok unread ∧
  match f with
  | Some s => (∃ pre, s = stream_at pre (unread ≫= triple_bytes)) ∧
      0 ≤ current_triple fd ∧ in_u 64 (fd_size fd) ∧
      fd_size fd - current_triple fd = Z.of_nat (length unread)
  | None => unread = []
  end.

Lemma fill_loop_spec bs fuel acc b s fd unread : reader_ok (Some s) fd unread →
  (length unread ≤ fuel)%nat → ∃ got rest f fd',
    fill_loop bs fuel acc b s fd = Ret (b ++ got, f, fd') ∧ unread = got ++ rest ∧
    reader_ok f fd' rest ∧ fd_size fd' = fd_size fd ∧ (acc < bs → unread ≠ [] → got ≠ []).
Proof.
  revert acc b s fd unread. induction fuel as [|fuel IH]; intros acc b s fd unread Hok Hf.
  all: pose proof Hok as (Hall & [pre ->] & Hc & Hsz & Hn); simpl; case_decide as Hacc;
    [|exists [], unread, (Some (stream_at pre (unread ≫= triple_bytes))), fd;
      rewrite app_nil_r; by split_and!].
  all: destruct unread as [|x unread]; simpl in Hf.
  2: lia.
  1, 2: exists [], [], None, fd; unfold finished; rewrite bool_decide_true by (simpl in Hn; lia);
    rewrite app_nil_r; by split_and!.
  apply Forall_cons in Hall as [Hx Hall]. simpl length in Hn.
  unfold finished. rewrite bool_decide_false by lia.
  rewrite read_triple_at by (done || width). cbn [mbind outcome_bind].
  destruct (IH (u64 (acc + sizeof_TripleValue)) (b ++ [x]) (stream_at (pre ++ triple_bytes x) (unread ≫= triple_bytes))
    (mkFileData (fd_size fd) (current_triple fd + 1)) unread) as (got & rest & f & fd' & E & -> & Hok' & Hs & _).
  { split; [done|]. split; [by eexists|]. simpl. split_and!; [lia|done|lia]. }
  { lia. }
  exists (x :: got), rest, f, fd'. rewrite E, <-(assoc_L (++)). by split_and!.
Qed.
Lemma fill_with_file_spec bs s fd unread : 0 < bs → reader_ok (Some s) fd unread → ∃ got rest f fd',
    fill_with_file bs [] s fd = Ret (got, f, fd') ∧ unread = got ++ rest ∧
    reader_ok f fd' rest ∧ fd_size fd' = fd_size fd ∧ (unread ≠ [] → got ≠ []).
Proof.
  intros Hbs Hok. pose proof Hok as (_ & _ & _ & _ & Hn).
  destruct (fill_loop_spec bs (Z.to_nat (fd_size fd - current_triple fd)) 0 [] s fd unread Hok)
    as (got & rest & f & fd' & E & Hu & Hok' & Hs & Hg); [lia|].
  exists got, rest, f, fd'. split_and!; auto.
Qed.

(** The triples of file [i] that have not been in the queue. *)
Definition file_pending (s : merge_state) (i : nat) (r : list TripleValue) : Prop :=
  ∃ b f fd unread, blocks s !! i = Some b ∧ opened_files s !! i = Some f ∧
    files_data s !! i = Some fd ∧ reader_ok f fd unread ∧ r = b ++ unread.
Definition same_file (i : nat) (s s' : merge_state) : Prop :=
  blocks s' !! i = blocks s !! i ∧ opened_files s' !! i = opened_files s !! i ∧
  files_data s' !! i = files_data s !! i.
Lemma same_file_pending i s s' r : same_file i s s' → file_pending s i r → file_pending s' i r.
Proof. intros (E1 & E2 & E3) (b & f & fd & u & ? & ? & ? & ?). exists b, f, fd, u. by rewrite E1, E2, E3. Qed.

Lemma push_front_spec i s x b f fd unread : blocks s !! i = Some (x :: b) →
  opened_files s !! i = Some f → files_data s !! i = Some fd → reader_ok f fd unread → ∃ s',
    push_front_of comparator i s = Ret s' ∧ pqueue s' = pq_push (PairComp comparator) (x, i) (pqueue s) ∧
    file_pending s' i (b ++ unread) ∧ ∀ j, j ≠ i → same_file j s s'.
Proof.
  intros Hb Hf Hfd Hok. unfold push_front_of. rewrite Hb. eexists. split; [done|]. simpl.
  split_and!; [done| |].
  - exists b, f, fd, unread. simpl. split_and!; [|done..].
    by rewrite list_lookup_insert_eq by (by eapply lookup_lt_Some).
  - intros j Hne. split_and!; simpl; [by rewrite list_lookup_insert_ne|done..].
Qed.
Lemma block_update_spec bs i s r : 0 < bs → file_pending s i r → ∃ s',
  block_update comparator bs i s = Ret s' ∧ (∀ j, j ≠ i → same_file j s s') ∧
  match r with
  | [] => pqueue s' = pqueue s ∧ file_pending s' i []
  | x :: r => pqueue s' = pq_push (PairComp comparator) (x, i) (pqueue s) ∧ file_pending s' i r
  end.
Proof.
  intros Hbs (b & f & fd & unread & Hb & Hf & Hfd & Hok & ->). unfold block_update.
  rewrite Hb, Hf. cbn [deref mbind outcome_bind]. destruct b as [|x b].
  - destruct f as [file|].
    + rewrite Hfd. cbn [deref mbind outcome_bind].
      destruct (fill_with_file_spec bs file fd unread Hbs Hok) as (got & rest & f' & fd' & E & -> & Hok' & _ & Hg).
      rewrite E. cbn [mbind outcome_bind].
      set (s1 := mkMerge (<[i := got]> (blocks s)) (<[i := f']> (opened_files s))
                   (<[i := fd']> (files_data s)) (pqueue s)).
      assert (Hs1 : blocks s1 !! i = Some got ∧ opened_files s1 !! i = Some f' ∧ files_data s1 !! i = Some fd').
      { split_and!; simpl; rewrite list_lookup_insert_eq; done || by eapply lookup_lt_Some. }
      assert (Hs2 : ∀ j, j ≠ i → same_file j s s1)
        by (intros j Hne; split_and!; simpl; by rewrite list_lookup_insert_ne).
      destruct Hs1 as (Hb1 & Hf1 & Hfd1). destruct got as [|x got].
      * destruct rest as [|y rest]; [|by destruct (Hg ltac:(done))].
        exists s1. do 2 (split; [done|]). simpl. split; [done|]. by exists [], f', fd', [].
      * destruct (push_front_spec i s1 x got f' fd' rest Hb1 Hf1 Hfd1 Hok') as (s2 & E2 & Hq & Hp & Hs).
        exists s2. rewrite E2. split; [done|]. split; [|done]. intros j Hne.
        destruct (Hs2 j Hne) as (? & ? & ?), (Hs j Hne) as (? & ? & ?). split_and!; congruence.
    + destruct Hok as [_ ->]. exists s. do 2 (split; [done|]). simpl. split; [done|].
      by exists [], None, fd, [].
  - destruct (push_front_spec i s x b f fd unread Hb Hf Hfd Hok) as (s' & E & Hq & Hp & Hs).
    exists s'. rewrite E. by do 2 (split; [done|]).
Qed.

(** What an entry of the queue stands for. *)
Definition entry_pending (s : merge_state) (e : TripleValue * nat) (r : list TripleValue) : Prop :=
  ∃ r', r = e.1 :: r' ∧ file_pending s e.2 r'.
Lemma entries_same s s' i q runs : (∀ j, j ≠ i → same_file j s s') → i ∉ q.*2 →
  Forall2 (entry_pending s) q runs → Forall2 (entry_pending s') q runs.
Proof.
  intros Hs Hni Hq. induction Hq as [|e r q runs (r' & -> & Hr) _ IH]; constructor.
  - exists r'. split; [done|]. eapply same_file_pending; [|done]. apply Hs. intros <-. apply Hni. by left.
  - apply IH. intros Hin. apply Hni. by right.
Qed.

(** A queue that stands for the runs of the files it has entries of. *)
Record queue_ok (s : merge_state) (runs : list (list TripleValue)) : Prop := {
  qo_heap : is_heap (PairComp comparator) (pqueue s);
  qo_entries : Forall2 (entry_pending s) (pqueue s) runs;
  qo_files : NoDup (pqueue s).*2
}.
Lemma block_queue bs i s r runs : 0 < bs → file_pending s i r → i ∉ (pqueue s).*2 → queue_ok s runs → ∃ s' runs',
  block_update comparator bs i s = Ret s' ∧ (∀ j, j ≠ i → same_file j s s') ∧
  queue_ok s' runs' ∧ runs' ≡ₚ push_run r runs ∧ (∀ j, j ∈ (pqueue s').*2 → j = i ∨ j ∈ (pqueue s).*2).
Proof.
  intros Hbs Hr Hni [Hh He Hnd]. destruct (block_update_spec bs i s r Hbs Hr) as (s' & Es & Hsame & Hcase).
  exists s'. assert (He' : Forall2 (entry_pending s') (pqueue s) runs) by by apply (entries_same s s' i).
  destruct r as [|x r]; destruct Hcase as [Eq Hr'].
  - exists runs. do 2 (split; [done|]). split; [by split; rewrite Eq|]. split; [done|]. rewrite Eq. tauto.
  - destruct (push_entry comparator (entry_pending s') (x, i) (x :: r) (pqueue s) runs)
      as (Hh' & runs' & Hr2 & Hp); [done|done|by exists r|].
    destruct (pq_push_spec (PairComp comparator) (x, i) (pqueue s) Hh) as [_ Hq]. rewrite <-Eq in *.
    exists runs'. do 2 (split; [done|]). split; [split; [done|done|]|split; [done|]].
    + rewrite Hq. simpl. by constructor.
    + intros j. rewrite Hq. simpl. by rewrite elem_of_cons.
Qed.

Lemma merge_files_spec bs fuel : ∀ s runs res, 0 < bs → queue_ok s runs →
  (length (concat runs) ≤ fuel)%nat → ∃ out,
    merge_files comparator bs fuel s res = Ret (res ++ out) ∧ merges comparator runs out.
Proof.
  induction fuel as [|fuel IH]; intros s runs res Hbs [Hh Hr Hnd] Hf; simpl.
  all: destruct (pq_pop (PairComp comparator) (pqueue s)) as [[[x i] q']|] eqn:E;
    [|apply (pop_nothing comparator) in E; [|done]; rewrite E in Hr; apply Forall2_nil_inv_l in Hr as ->;
      exists []; split; [by rewrite app_nil_r|constructor]].
  all: destruct (pop_run comparator (entry_pending s) _ _ _ _ ltac:(by intros e r (r' & -> & _); eauto) Hh E Hr)
    as (Hh' & r & rest & Hp & (r' & [= <-] & Hrun) & Hrest & Hle); simpl in *;
    rewrite Hp in Hf; simpl in Hf; rewrite length_app in Hf.
  { lia. }
  assert (Hq : pqueue s ≡ₚ (x, i) :: q').
  { pose proof (pq_pop_spec (PairComp comparator) (pqueue s) Hh) as Hs. rewrite E in Hs. apply Hs. }
  rewrite Hq in Hnd. simpl in Hnd. apply NoDup_cons in Hnd as [Hni Hnd].
  set (s0 := mkMerge (blocks s) (opened_files s) (files_data s) q').
  destruct (block_queue bs i s0 r rest Hbs Hrun Hni) as (s' & runs' & Es & _ & Hok & Hp' & _); [by split|].
  rewrite Es. simpl. destruct (IH s' runs' (res ++ [x]) Hbs Hok) as (out & Eo & Hm).
  { rewrite Hp', concat_push_run, length_app. lia. }
  exists (x :: out). split; [by rewrite Eo, <-(assoc_L (++))|].
  eapply merges_head; [done|done|]. by eapply merges_runs.
Qed.

(** The first entries of the files, and of those from [k] on. *)
Lemma update_blocks_spec bs runs : 0 < bs → ∀ k s done_runs,
  (∀ i r, runs !! i = Some r → file_pending s (k + i) r) →
  queue_ok s done_runs → Forall (λ i, i < k)%nat (pqueue s).*2 → ∃ s' runs',
    update_blocks comparator bs (seq k (length runs)) s = Ret s' ∧ queue_ok s' runs' ∧
    concat runs' ≡ₚ concat done_runs ++ concat runs ∧
    (∀ lt, Forall (sorted lt) runs → Forall (sorted lt) done_runs → Forall (sorted lt) runs').
Proof.
  intros Hbs. induction runs as [|r runs IH]; intros k s done_runs Hruns Hok Hlt.
  { exists s, done_runs. simpl. by rewrite app_nil_r. }
  pose proof (Hruns 0%nat r eq_refl) as Hr. rewrite Nat.add_0_r in Hr.
  assert (Hni : k ∉ (pqueue s).*2) by (intros Hin; rewrite Forall_forall in Hlt; apply Hlt in Hin; lia).
  destruct (block_queue bs k s r done_runs Hbs Hr Hni Hok) as (s1 & runs1 & E1 & Hsame & Hok1 & Hp1 & Hin1).
  destruct (IH (S k) s1 runs1) as (s' & runs' & E & Hok' & Hcat & Hsort).
  - intros i r' Hi. rewrite Nat.add_succ_comm. eapply same_file_pending; [apply Hsame; lia|].
    by apply (Hruns (S i)).
  - done.
  - rewrite Forall_forall in *. intros j Hj. destruct (Hin1 j Hj) as [->|Hj']; [lia|]. apply Hlt in Hj'. lia.
  - exists s', runs'. simpl. rewrite E1. cbn [mbind outcome_bind]. split; [done|]. split; [done|]. split.
    + rewrite Hcat, Hp1, concat_push_run. simpl. solve_Permutation.
    + intros lt [Hsr Hs]%Forall_cons Hd. apply Hsort; [done|]. rewrite Hp1. destruct r; [done|by constructor].
Qed.

Lemma read_count r : in_u 64 (Z.of_nat (length r)) → read_u64 (stream_at [] (triples_file r)) =
  Ret (Z.of_nat (length r), stream_at ([] ++ be_encode 8 (Z.of_nat (length r))) (r ≫= triple_bytes)).
Proof. intros Hlen. apply parses_at. by apply parses_u64. Qed.
Lemma open_runs_spec bs runs : 0 < bs →
  Forall (λ r, Forall triple_ok r ∧ in_u 64 (Z.of_nat (length r))) runs → ∃ bks os fds,
    open_runs bs ((λ r, stream_at [] (triples_file r)) <$> runs) = Ret (bks, os, fds) ∧
    length bks = length runs ∧ fd_size <$> fds = (Z.of_nat ∘ length) <$> runs ∧
    ∀ q i r, runs !! i = Some r → file_pending (mkMerge bks os fds q) i r.
Proof.
  intros Hbs. induction 1 as [|r runs [Hok Hlen] _ IH]; [by exists [], [], []|].
  destruct IH as (bks & os & fds & E & Hl & Hs & Hp). rewrite fmap_cons. cbn [open_runs].
  rewrite (read_count r) by done. cbn [mbind outcome_bind].
  destruct (fill_with_file_spec bs (stream_at ([] ++ be_encode 8 (Z.of_nat (length r))) (r ≫= triple_bytes))
    (mkFileData (Z.of_nat (length r)) 0) r) as (got & rest & f & fd & Ef & Hr & Hrok & Hfd & _); [done| |].
  { split; [done|]. split; [by eexists|]. simpl. split_and!; [lia|done|lia]. }
  rewrite Ef. cbn [mbind outcome_bind]. rewrite E. cbn [mbind outcome_bind].
  exists (got :: bks), (f :: os), (fd :: fds). split_and!; [done|by simpl; rewrite Hl| |].
  - rewrite !fmap_cons, Hs, Hfd. done.
  - intros q [|i] r' Hi; [injection Hi as <-; by exists got, f, fd, rest|].
    destruct (Hp q i r' Hi) as (b & f' & fd' & u & ?). by exists b, f', fd', u.
Qed.

Lemma open_files_spec (mid : runs_of) names buffers fs pre k :
  (∀ i n r, mid !! i = Some (n, r) →
     names !! (pre + (k + i))%nat = Some n ∧ fs !! n = Some (triples_file r)) →
  (k + length mid ≤ length buffers)%nat →
  open_files names buffers fs pre (length mid) k =
  Ret ((λ r, stream_at [] (triples_file r)) <$> mid.*2).
Proof.
  revert k. induction mid as [|[n r] mid IH]; intros k Hn Hl; [done|]. simpl.
  destruct (Hn 0%nat n r eq_refl) as [E1 E2]. rewrite Nat.add_0_r in E1. rewrite E1. simpl.
  destruct (lookup_lt_is_Some_2 buffers k) as [z Hz]; [simpl in Hl; lia|]. rewrite Hz. simpl.
  rewrite IH; [by rewrite E2| |simpl in Hl; lia].
  intros i n' r' Hi. destruct (Hn (S i) n' r' Hi) as [E3 E4]. split; [|done].
  by rewrite <-E3, Nat.add_succ_comm.
Qed.

(** [mkstemp] makes a new file in [tmp_dir] that can be written. *)
Definition mkstemp_works (tmp_dir : string) : Prop := ∀ fs : files,
  0 < (mkstemp fs (path_join tmp_dir "m_XXXXXX")).1 ∧
  fs !! (mkstemp fs (path_join tmp_dir "m_XXXXXX")).2 = None ∧
  writable (mkstemp fs (path_join tmp_dir "m_XXXXXX")).2 = true.
(** A run as the files hold it. *)
Definition run_ok (r : list TripleValue) : Prop := Forall triple_ok r ∧ sorted comparator r.

Lemma write_merged out n : n = Z.of_nat (length out) →
  emits (write_u64 n;; loop (λ _ t, write_to_file t) () out) (triples_file out) ().
Proof.
  intros ->. unfold triples_file. eapply emits_bind; [apply emits_u64|].
  apply emits_loop_unit. intros x _. apply emits_triple.
Qed.
Lemma sumZ_lengths {A} (ls : list (list A)) :
  sumZ ((Z.of_nat ∘ length) <$> ls) = Z.of_nat (length (concat ls)).
Proof.
  induction ls as [|l ls IH]; [done|]. rewrite fmap_cons, sumZ_cons, IH. simpl.
  rewrite length_app. lia.
Qed.
Lemma run_length_le {A} (ls : list (list A)) l : l ∈ ls → (length l ≤ length (concat ls))%nat.
Proof.
  induction ls as [|l' ls IH]; intros Hl; [by apply not_elem_of_nil in Hl|]. simpl. rewrite length_app.
  apply elem_of_cons in Hl as [->|Hl]; [lia|]. apply IH in Hl. lia.
Qed.

Lemma merge_pass_spec names pre mid post rest fs tmp bs buffers :
  mkstemp_works tmp → 0 < bs → store_wf (mid ++ post) rest → fs = store (mid ++ post) rest →
  (∀ i n, mid.*1 !! i = Some n → names !! (pre + i)%nat = Some n) →
  Forall run_ok mid.*2 → in_u 64 (Z.of_nat (length (concat mid.*2))) →
  (length mid < length buffers)%nat → ∃ new out,
    merge_pass comparator names pre (pre + length mid) tmp bs buffers fs =
      Ret (new, store (post ++ [(new, out)]) rest) ∧
    store_wf (post ++ [(new, out)]) rest ∧ out ≡ₚ concat mid.*2 ∧ run_ok out.
Proof.
  intros Hmk Hbs Hwf Efs Hn Hok Hlen Hbuf. unfold merge_pass.
  destruct (Hmk fs) as (Hfd & Hfresh & Hw).
  destruct (mkstemp fs (path_join tmp "m_XXXXXX")) as [created new]. simpl in *.
  rewrite !decide_False by lia. unfold open_out. rewrite Hw, insert_insert_eq.
  destruct (last buffers) as [z|] eqn:Elast; [|apply last_None in Elast as ->; simpl in Hbuf; lia].
  cbn [deref mbind outcome_bind]. replace (pre + length mid - pre)%nat with (length mid) by lia.
  assert (Hnew : new ∉ (mid ++ post).*1).
  { intros ([n r] & -> & Hin)%list_elem_of_fmap. rewrite Efs in Hfresh. simpl in Hfresh.
    rewrite (store_lookup _ rest n r) in Hfresh by (done || apply Hwf). done. }
  rewrite (open_files_spec mid); [| |lia].
  2: { intros i n r Hi. split; [apply (Hn i n); by rewrite list_lookup_fmap, Hi|].
       assert (Hin : (n, r) ∈ mid ++ post)
         by (apply elem_of_app; left; by eapply list_elem_of_lookup_2).
       rewrite lookup_insert_ne; [subst fs; apply store_lookup; [apply Hwf|done]|].
       intros ->. apply Hnew, list_elem_of_fmap. by exists (n, r). }
  cbn [mbind outcome_bind]. destruct (open_runs_spec bs mid.*2 Hbs) as (bks & os & fds & E & Hl & Hs & Hp).
  { rewrite Forall_forall in *. intros r Hr. split; [by apply Hok|].
    apply run_length_le in Hr. width. }
  rewrite E. cbn [mbind outcome_bind]. rewrite Hl, Hs, sumZ_lengths.
  destruct (update_blocks_spec bs mid.*2 Hbs 0 (mkMerge bks os fds []) [])
    as (s & runs & Es & Hq & Hcat & Hsort); [by intros i r Hi; apply Hp|by split; try constructor|constructor|].
  rewrite Es. cbn [mbind outcome_bind]. simpl in Hcat.
  destruct (merge_files_spec bs (Z.to_nat (Z.of_nat (length (concat mid.*2)))) s runs [] Hbs Hq)
    as (out & Eo & Hm); [rewrite Hcat; lia|].
  rewrite Eo. cbn [mbind outcome_bind app]. pose proof (merges_perm _ _ _ Hm) as Hperm. rewrite Hcat in Hperm.
  unfold write_out. rewrite (file_of_emits _ (triples_file out) ()), Hw
    by (apply write_merged; rewrite u64_id, Hperm; done).
  cbn [mbind outcome_bind]. rewrite insert_insert_eq, Efs, store_add by done.
  pose proof (store_add_wf _ _ new out Hwf Hnew) as Hwf'.
  rewrite (delete_id rest new) in * by (by rewrite <-(store_lookup_ne (mid ++ post)), <-Efs).
  rewrite <-(assoc_L (++)) in *. rewrite (remove_files_spec mid pre names _ rest _ Hwf' eq_refl) by done.
  exists new, out. cbn [mbind outcome_bind]. split_and!; [done| |done|split].
  - clear -Hwf'. destruct Hwf' as [Hnd Hf]. rewrite fmap_app in Hnd, Hf.
    split; [by apply NoDup_app in Hnd as (_ & _ & ?)|by apply Forall_app in Hf as [_ ?]].
  - rewrite Hperm. apply Forall_concat, (Forall_impl _ _ _ Hok). by intros ? [? _].
  - eapply merges_sorted; [done..|]. apply Hsort; [|done].
    apply (Forall_impl _ _ _ Hok). by intros ? [_ ?].
Qed.

(** *** The levels *)

Lemma level_passes_spec n m : 0 <= n < 2 ^ 31 → 0 < m < 2 ^ 31 →
  0 ≤ level_passes n m ∧ n ≤ level_passes n m * m < n + m.
Proof.
  intros Hn Hm. unfold level_passes. rewrite u64_id by width.
  pose proof (Z.div_mod n m ltac:(lia)). pose proof (Z.mod_pos_bound n m ltac:(lia)).
  assert (0 ≤ n / m) by (apply Z.div_pos; lia). assert (n / m ≤ n) by (apply Z.div_le_upper_bound; nia).
  unfold s32. case_decide.
  - rewrite to_signed_nonneg by lia. nia.
  - assert (n / m < n ∨ n / m = 0) by (destruct (decide (m = 1)) as [->|]; [rewrite Z.mod_1_r in *; lia|nia]).
    rewrite to_signed_nonneg by lia. nia.
Qed.
Lemma int_chk_ok x : - 2 ^ 31 ≤ x < 2 ^ 31 → int_chk x = Ret x.
Proof. intros Hx. unfold int_chk. by rewrite decide_True. Qed.

(** What the level of merges says of the files [al], on top of [rest]. *)
Definition level_ok (al : runs_of) (rest : files) : Prop :=
  store_wf al rest ∧ Forall run_ok al.*2 ∧ in_u 64 (Z.of_nat (length (concat al.*2))).

Lemma level_ok_merge mid post rest new out : level_ok (mid ++ post) rest →
  store_wf (post ++ [(new, out)]) rest → out ≡ₚ concat mid.*2 → run_ok out →
  level_ok (post ++ [(new, out)]) rest ∧
  concat (post ++ [(new, out)]).*2 ≡ₚ concat (mid ++ post).*2.
Proof.
  intros (_ & Hok & Hlen) Hwf Hp Hrun. rewrite fmap_app in Hok. apply Forall_app in Hok as [_ Hok].
  assert (E : concat (post ++ [(new, out)]).*2 ≡ₚ concat (mid ++ post).*2).
  { rewrite !fmap_app, !concat_app. simpl. rewrite app_nil_r, Hp. apply Permutation_app_comm. }
  split; [|done]. split; [done|]. rewrite E. split; [|done].
  rewrite fmap_app. apply Forall_app. split; [done|]. by constructor.
Qed.

Section level.
Context (tmp_dir : string) (Hmk : mkstemp_works tmp_dir) (m : nat) (block_size : Z)
  (Hm : (0 < m)%nat) (Hbs : 0 < block_size) (buffers : list Z) (Hbuf : length buffers = S m).

Lemma add_pass_eq names results c fs : (c * m < length names)%nat →
  Z.of_nat (length names) + Z.of_nat m < 2 ^ 31 →
  add_pass comparator names tmp_dir (Z.of_nat m) block_size buffers results c fs =
  '(f, fs) ← merge_pass comparator names (c * m) (c * m + m `min` (length names - c * m))
               tmp_dir block_size buffers fs; Ret (results ++ [f], fs).
Proof.
  intros Hc Hint. unfold add_pass, mbind at 1 2 3, st_bind at 1 2 3, lift.
  rewrite !int_chk_ok by nia. cbn [fmap outcome_fmap]. unfold s32. rewrite to_signed_nonneg by lia.
  replace (Z.to_nat (Z.of_nat c * Z.of_nat m)) with (c * m)%nat by lia.
  replace (Z.to_nat _) with (c * m + m `min` (length names - c * m))%nat by lia. done.
Qed.

Lemma passes_spec al rest k c new_runs P : (c + k = P)%nat → (P * m < length al + m)%nat →
  Z.of_nat (length al) + Z.of_nat m < 2 ^ 31 → level_ok (drop (c * m) al ++ new_runs) rest → ∃ al',
  loop (add_pass comparator al.*1 tmp_dir (Z.of_nat m) block_size buffers)
    new_runs.*1 (seq c k) (store (drop (c * m) al ++ new_runs) rest) =
    Ret (al'.*1, store (drop (P * m) al ++ al') rest) ∧
  level_ok (drop (P * m) al ++ al') rest ∧ (length al' = length new_runs + k)%nat ∧
  concat (drop (P * m) al ++ al').*2 ≡ₚ concat (drop (c * m) al ++ new_runs).*2.
Proof.
  revert c new_runs. induction k as [|k IH]; intros c new_runs HP HPm Hint Hok.
  { rewrite Nat.add_0_r in HP. subst P. exists new_runs. split_and!; [done|apply Hok..|lia|done]. }
  assert (Hcm : (c * m < length al)%nat) by nia.
  cbn [seq loop]. unfold mbind at 1, st_bind at 1. rewrite add_pass_eq by (rewrite ?length_fmap; nia).
  set (mid := take m (drop (c * m) al)). set (post := drop m (drop (c * m) al)).
  assert (Hsplit : drop (c * m) al = mid ++ post) by (symmetry; apply take_drop).
  assert (Hmid : length mid = (m `min` (length al - c * m))%nat)
    by (unfold mid; by rewrite length_take, length_drop).
  rewrite length_fmap, <-Hmid.
  rewrite Hsplit, <-(assoc_L (++)) in Hok |- *. pose proof Hok as (Hwf & Hrun & Hlen).
  rewrite fmap_app in Hrun. apply Forall_app in Hrun as [Hrun _].
  destruct (merge_pass_spec al.*1 (c * m) mid (post ++ new_runs) rest _ tmp_dir block_size buffers
    Hmk Hbs Hwf eq_refl) as (new & out & E & Hwf' & Hp & Hout); [|done| |lia|].
  { intros i n Hi. rewrite <-(take_drop (c * m) al), Hsplit, fmap_app, fmap_app.
    rewrite lookup_app_r by (rewrite length_fmap, length_take; lia).
    rewrite length_fmap, length_take, lookup_app_l.
    - by replace (c * m + i - Nat.min (c * m) (length al))%nat with i by lia.
    - apply lookup_lt_Some in Hi. rewrite length_fmap in *. lia. }
  { rewrite fmap_app, concat_app, length_app in Hlen. width. }
  rewrite E. destruct (level_ok_merge mid (post ++ new_runs) rest new out Hok Hwf' Hp Hout) as [Hok' Hcat].
  rewrite <-(assoc_L (++)) in Hok', Hcat |- *.
  assert (Hpost : post = drop (S c * m) al) by (unfold post; rewrite drop_drop; f_equal; lia).
  rewrite Hpost in Hok', Hcat |- *.
  destruct (IH (S c) (new_runs ++ [(new, out)])) as (al' & E' & Hok2 & Hl & Hcat2); [lia|done..|].
  exists al'. rewrite <-E', fmap_app. split_and!; [done|apply Hok2..| |].
  - rewrite Hl, length_app. simpl. lia.
  - by rewrite Hcat2, Hcat.
Qed.

Lemma merge_bottom_up_spec al rest : level_ok al rest →
  Z.of_nat (length al) + Z.of_nat m < 2 ^ 31 → ∃ al',
    merge_bottom_up comparator al.*1 tmp_dir (Z.of_nat m) block_size buffers (store al rest) =
      Ret (al'.*1, store al' rest) ∧
    level_ok al' rest ∧ (length al ≤ length al' * m < length al + m)%nat ∧
    concat al'.*2 ≡ₚ concat al.*2.
Proof.
  intros Hok Hint. unfold merge_bottom_up. rewrite decide_False, length_fmap by lia.
  destruct (level_passes_spec (Z.of_nat (length al)) (Z.of_nat m)) as [HP HPm]; [lia..|].
  set (P := Z.to_nat (level_passes (Z.of_nat (length al)) (Z.of_nat m))).
  assert (HPm' : (length al ≤ P * m < length al + m)%nat) by (unfold P; nia).
  destruct (passes_spec al rest P 0 [] P) as (al' & E & Hok' & Hl & Hcat); [done|lia|lia| |].
  { simpl. by rewrite drop_0, app_nil_r. }
  simpl in E, Hcat. rewrite drop_0, app_nil_r in E, Hcat.
  rewrite (drop_ge al) in * by lia. exists al'. rewrite E. simpl in *. rewrite Hl.
  do 2 (split; [done|]). by split.
Qed.

(** Levels of at least two files at a time end with one file. *)
Lemma merge_levels_spec fuel al rest : level_ok al rest → (1 < m)%nat → al ≠ [] →
  Z.of_nat (length al) + Z.of_nat m < 2 ^ 31 → (length al ≤ S fuel)%nat → ∃ name out,
    merge_levels comparator tmp_dir (Z.of_nat m) block_size buffers fuel al.*1 (store al rest) =
      Ret (Some [name], store [(name, out)] rest) ∧
    level_ok [(name, out)] rest ∧ out ≡ₚ concat al.*2.
Proof.
  intros Hok Hm2 Hne Hint. revert al Hok Hne Hint.
  induction fuel as [|fuel IH]; intros al Hok Hne Hint Hf; simpl; rewrite length_fmap; case_decide as Hl;
    try lia.
  1, 3: destruct al as [|[n r] [|]]; simpl in Hl; [done| |lia]; exists n, r; simpl; rewrite app_nil_r;
    by split.
  destruct (merge_bottom_up_spec al rest Hok Hint) as (al' & E & Hok' & Hlen & Hcat).
  unfold mbind at 1, st_bind at 1. rewrite E.
  destruct (IH al' Hok') as (name & out & E' & Hout & Hp); [by intros ->; simpl in Hlen; lia|nia|nia|].
  exists name, out. rewrite E'. split_and!; [done|apply Hout..|]. by rewrite Hp.
Qed.

(** One file at a time, two files stay two files. *)
Lemma merge_levels_one fuel al rest : level_ok al rest → m = 1%nat → (1 < length al)%nat →
  Z.of_nat (length al) + Z.of_nat m < 2 ^ 31 → ∃ fs,
    merge_levels comparator tmp_dir (Z.of_nat m) block_size buffers fuel al.*1 (store al rest) =
      Ret (None, fs).
Proof.
  intros Hok Hm1 Hl Hint. revert al Hok Hl Hint.
  induction fuel as [|fuel IH]; intros al Hok Hl Hint; simpl; rewrite length_fmap, decide_True by done;
    [by eexists|].
  destruct (merge_bottom_up_spec al rest Hok Hint) as (al' & E & Hok' & Hlen & _).
  unfold mbind at 1, st_bind at 1. rewrite E. apply IH; [done|nia|nia].
Qed.
End level.
End merge_correct.

(** ** The parts *)

Lemma path_join_inj tmp a b c : path_join tmp (a +:+ "-p" +:+ b) = path_join tmp (a +:+ "-p" +:+ c) → b = c.
Proof.
  assert (Habs : ∀ x, is_absolute (a +:+ "-p" +:+ x) = is_absolute a) by (by destruct a).
  unfold path_join. rewrite !Habs. intros E. apply (inj (String.append "-p")), (inj (String.append a)).
  destruct (is_absolute a); [done|]. destruct tmp as [|ch tmp]; [done|].
  destruct (ends_with_slash _); [by apply (inj (String.append (String ch tmp)))|].
  by apply (inj (String.append (String ch tmp))), (inj (String.append "/")) in E.
Qed.

Definition without (names : list string) (fs : files) : files := foldl (λ m n, delete n m) fs names.
Lemma without_snoc names n fs : without (names ++ [n]) fs = delete n (without names fs).
Proof. unfold without. by rewrite foldl_app. Qed.
Lemma lookup_without names fs n : n ∈ names → without names fs !! n = None.
Proof.
  induction names as [|x names IH] using rev_ind; intros Hn; [by apply not_elem_of_nil in Hn|].
  rewrite without_snoc. apply elem_of_app in Hn as [Hn| ->%list_elem_of_singleton];
    [|apply lookup_delete_eq]. apply lookup_delete_None. right. by apply IH.
Qed.
Lemma lookup_without_ne names fs n : n ∉ names → without names fs !! n = fs !! n.
Proof.
  induction names as [|x names IH] using rev_ind; intros Hn; [done|].
  apply not_elem_of_app in Hn as [Hn Hx]. rewrite list_elem_of_singleton in Hx.
  rewrite without_snoc, lookup_delete_ne by done. by apply IH.
Qed.

Section split_correct.
Context `{Host, StdAlgorithmsLaws, PoolScheduleRuns}
  (comparator : TripleValue → TripleValue → bool) `{!StrictWeakOrder comparator}.
Context (input_filename tmp_dir : string) (workers segment_size : Z)
  (Hworkers : 0 < workers < 2 ^ 31) (Hseg : sizeof_TripleValue ≤ segment_size)
  (Hwritable : ∀ i, writable (part_name input_filename tmp_dir i) = true).

Definition parts (k : nat) : list string :=
  (λ i, part_name input_filename tmp_dir (Z.of_nat i)) <$> seq 0 k.
Lemma parts_S k : parts (S k) = parts k ++ [part_name input_filename tmp_dir (Z.of_nat k)].
Proof. unfold parts. by rewrite seq_S, fmap_app. Qed.
Lemma parts_NoDup k : NoDup (parts k).
Proof.
  apply @NoDup_fmap_2; [|apply NoDup_seq]. intros i j E. apply path_join_inj, (inj pretty) in E. lia.
Qed.

(** The files and the variables of [split_file] when [consumed] has been read. *)
Definition split_ok (fs0 : files) (bound : Z) (s : split_state) (fs : files)
    (consumed : list TripleValue) (al : runs_of) : Prop :=
  fs = store al (without (parts (length al)) fs0) ∧ al.*1 = parts (length al) ∧
  filenames s = parts (length al) ∧ current_file_index s = Z.of_nat (length al) ∧
  Forall (run_ok comparator) al.*2 ∧ concat al.*2 ++ data s ≡ₚ consumed ∧
  Forall triple_ok (data s) ∧
  accumulated_size s = sizeof_TripleValue * Z.of_nat (length (data s)) ∧
  bound * Z.of_nat (length al) ≤
    sizeof_TripleValue * (Z.of_nat (length consumed) - Z.of_nat (length (data s))).

Lemma create_file_part_spec fs0 bound s fs consumed al : split_ok fs0 bound s fs consumed al →
  Z.of_nat (length al) + 1 < 2 ^ 31 → in_u 64 (Z.of_nat (length (data s))) → ∃ out,
    create_file_part comparator input_filename tmp_dir workers segment_size s fs =
      Ret (mkSplit 0 [] (Z.of_nat (length al) + 1) (parts (S (length al))),
           store (al ++ [(part_name input_filename tmp_dir (Z.of_nat (length al)), out)])
             (without (parts (S (length al))) fs0)) ∧
    out ≡ₚ data s ∧ run_ok comparator out.
Proof.
  intros (-> & Hal & Hn & Hi & _ & _ & Hd & _) Hk Hlen. unfold create_file_part.
  rewrite Hi, int_chk_ok by lia. cbn [mbind outcome_bind].
  destruct (parallel_sort_sorts comparator (data s) workers segment_size Hworkers Hseg)
    as (out & E & Hp & Hs).
  rewrite E. cbn [mbind outcome_bind]. unfold write_out.
  rewrite (file_of_emits _ (triples_file out) ()) by (apply emits_triples; by rewrite Hp).
  cbn [mbind outcome_bind]. unfold open_out. rewrite Hwritable, insert_insert_eq, Hn.
  exists out. rewrite store_add, <-without_snoc, <-!parts_S.
  - split_and!; [done|done|]. split; [by rewrite Hp|done].
  - rewrite Hal. pose proof (parts_NoDup (S (length al))) as Hnd. rewrite parts_S in Hnd.
    apply NoDup_app in Hnd as (_ & Hni & _). intros Hin. by apply (Hni _ Hin), list_elem_of_singleton.
Qed.

Lemma create_keeps_ok fs0 bound s fs consumed al : split_ok fs0 bound s fs consumed al →
  Z.of_nat (length al) + 1 < 2 ^ 31 → in_u 64 (Z.of_nat (length (data s))) →
  bound ≤ accumulated_size s → ∃ s' fs' p,
    create_file_part comparator input_filename tmp_dir workers segment_size s fs = Ret (s', fs') ∧
    data s' = [] ∧ split_ok fs0 bound s' fs' consumed (al ++ [p]).
Proof.
  intros Hok Hk Hlen Hb. destruct (create_file_part_spec _ _ _ _ _ _ Hok Hk Hlen) as (out & E & Hp & Hr).
  destruct Hok as (_ & Hal & _ & _ & Hruns & Hcat & _ & Hacc & Hbk).
  do 3 eexists. split; [exact E|]. split; [done|]. unfold split_ok. simpl.
  rewrite !fmap_app, length_app, Nat.add_1_r, Hal. simpl.
  split_and!; [done|by rewrite parts_S|done|lia| | |done|done|].
  - apply Forall_app. split; [done|by constructor].
  - rewrite concat_app, app_nil_r. simpl. rewrite app_nil_r. by rewrite Hp.
  - rewrite Hacc in Hb. nia.
Qed.

(** The parts and the files of one more level fit an [int]. *)
Definition parts_fit (bound : Z) (n m : nat) : Prop :=
  sizeof_TripleValue * Z.of_nat n < bound * (2 ^ 31 - 2 - Z.of_nat m) ∧ Z.of_nat m < 2 ^ 31 - 2 ∧
  sizeof_TripleValue * (Z.of_nat n + 10) < 2 ^ 63.
Lemma parts_fit_length fs0 bound s fs consumed al n m : split_ok fs0 bound s fs consumed al →
  parts_fit bound n m → (length consumed ≤ n)%nat → Z.of_nat (length al) + Z.of_nat m < 2 ^ 31 - 2.
Proof.
  intros (_ & _ & _ & _ & _ & _ & _ & _ & Hb) (Hn & Hm & _) Hl. unfold sizeof_TripleValue in *.
  assert (0 < bound) by nia. nia.
Qed.
Lemma split_ok_data fs0 bound s fs consumed al : split_ok fs0 bound s fs consumed al →
  (length (data s) ≤ length consumed)%nat.
Proof. intros (_ & _ & _ & _ & _ & Hcat & _). rewrite <-Hcat, length_app. lia. Qed.

Lemma split_push fs0 bound s fs consumed al x : split_ok fs0 bound s fs consumed al → triple_ok x →
  in_u 64 (sizeof_TripleValue * (Z.of_nat (length consumed) + 1)) →
  split_ok fs0 bound (mkSplit (u64 (accumulated_size s + sizeof_TripleValue)) (data s ++ [x])
    (current_file_index s) (filenames s)) fs (consumed ++ [x]) al.
Proof.
  intros Hok Hx Hlen. pose proof (split_ok_data _ _ _ _ _ _ Hok) as Hd.
  destruct Hok as (Hfs & Hal & Hn & Hi & Hruns & Hcat & Ht & Hacc & Hb). unfold split_ok. simpl.
  rewrite !length_app. simpl. unfold sizeof_TripleValue in *. split_and!; try done.
  - by rewrite (assoc_L (++)), Hcat.
  - apply Forall_app. by split; [|constructor].
  - rewrite Hacc, u64_id by width. lia.
  - lia.
Qed.

Lemma split_loop_spec fs0 bound m n fuel pre fd s fs consumed al unread :
  split_ok fs0 bound s fs consumed al → Forall triple_ok unread →
  fd_size fd - current_triple fd = Z.of_nat (length unread) → 0 ≤ current_triple fd →
  in_u 64 (fd_size fd) → (length unread ≤ fuel)%nat → length (consumed ++ unread) = n →
  parts_fit bound n m → ∃ s' fs' al',
    split_loop comparator input_filename tmp_dir workers segment_size bound fuel
      (stream_at pre (unread ≫= triple_bytes)) fd s fs = Ret (s', fs') ∧
    split_ok fs0 bound s' fs' (consumed ++ unread) al' ∧ (length al ≤ length al')%nat ∧
    (unread ≠ [] ∨ data s ≠ [] → data s' ≠ []) ∧
    (al' = [] → unread ≠ [] → sizeof_TripleValue * (Z.of_nat n - 1) < bound).
Proof.
  revert pre fd s fs consumed al fuel.
  induction unread as [|x unread IH]; intros pre fd s fs consumed al fuel Hok Ht Hfd Hc Hsz Hf Hn Hfit.
  { exists s, fs, al. rewrite app_nil_r. simpl in Hfd.
    destruct fuel; simpl; unfold finished; rewrite bool_decide_true by lia;
      (do 3 (split; [done|])); (split; [by intros [?|?]|done]). }
  destruct fuel as [|fuel]; [simpl in Hf; lia|]. simpl in Hfd. simpl.
  unfold finished. rewrite bool_decide_false by lia. apply Forall_cons in Ht as [Hx Ht].
  rewrite length_app in Hn. simpl in Hn.
  unfold mbind at 1, st_bind at 1, lift. change (triple_bytes x ++ _) with ((x :: unread) ≫= triple_bytes).
  rewrite read_triple_at by (done || width). cbn [fmap outcome_fmap].
  unfold mbind at 1, st_bind at 1.
  pose proof Hfit as (_ & _ & Hlen). unfold sizeof_TripleValue in Hlen.
  pose proof (split_ok_data _ _ _ _ _ _ Hok) as Hd.
  assert (Hstep : ∃ s1 fs1 al1,
    (if decide (bound ≤ accumulated_size s)
     then create_file_part comparator input_filename tmp_dir workers segment_size s
     else mret s) fs = Ret (s1, fs1) ∧ split_ok fs0 bound s1 fs1 consumed al1 ∧
    (length al ≤ length al1)%nat ∧
    (al1 = [] → sizeof_TripleValue * Z.of_nat (length consumed) < bound)).
  { case_decide as Hb.
    - pose proof (parts_fit_length _ _ _ _ _ _ n m Hok Hfit ltac:(lia)) as Hk.
      destruct (create_keeps_ok _ _ _ _ _ _ Hok) as (s1 & fs1 & p & E & _ & Hok1); [lia|width|done|].
      exists s1, fs1, (al ++ [p]). rewrite length_app. split_and!; [done|apply Hok1..|lia|].
      intros E'. by apply app_eq_nil in E' as [_ ?].
    - exists s, fs, al. split; [done|]. split; [done|]. split; [done|]. intros ->.
      destruct Hok as (_ & _ & _ & _ & _ & Hcat & _ & Hacc & _). simpl in Hcat.
      apply Permutation_length in Hcat. lia. }
  destruct Hstep as (s1 & fs1 & al1 & -> & Hok1 & Hl1 & Hone).
  pose proof (split_push _ _ _ _ _ _ x Hok1 Hx ltac:(unfold sizeof_TripleValue; width)) as Hok2.
  destruct (IH (pre ++ triple_bytes x) (mkFileData (fd_size fd) (current_triple fd + 1)) _ _ _ _ fuel Hok2 Ht)
    as (s' & fs' & al' & E & Hok' & Hl' & Hne & Htwo); [simpl; lia..| | | |done|]; [done|simpl in Hf; lia| |].
  { rewrite length_app, length_app. simpl. lia. }
  exists s', fs', al'. rewrite <-(assoc_L (++)) in Hok'. split_and!; [exact E|apply Hok'..|lia| |].
  - intros _. apply Hne. right. simpl. intros E'. by apply app_eq_nil in E' as [_ ?].
  - intros -> _. destruct unread as [|y unread]; [|by apply Htwo].
    destruct al1; [|simpl in Hl'; lia]. specialize (Hone eq_refl). simpl in Hn. lia.
Qed.

Lemma split_file_spec fs0 l memory_budget m bound : fs0 !! input_filename = Some (triples_file l) →
  Forall triple_ok l → l ≠ [] → bound = mem_budget_bound memory_budget segment_size →
  0 ≤ memory_budget → parts_fit bound (length l) m → ∃ al,
    split_file comparator input_filename tmp_dir memory_budget workers segment_size fs0 =
      Ret (parts (length al), store al (without (parts (length al)) fs0)) ∧
    al.*1 = parts (length al) ∧ level_ok comparator al (without (parts (length al)) fs0) ∧ al ≠ [] ∧
    Z.of_nat (length al) + Z.of_nat m < 2 ^ 31 ∧ concat al.*2 ≡ₚ l ∧
    (bound ≤ sizeof_TripleValue * (Z.of_nat (length l) - 1) → (1 < length al)%nat).
Proof.
  intros Hin Hl Hne Hbound Hmb Hfit. pose proof Hfit as (_ & _ & Hlen).
  unfold sizeof_TripleValue in Hlen. unfold split_file. rewrite Hin.
  change (get_reader (Some (triples_file l))) with (stream_at [] (triples_file l)).
  rewrite read_count by width. cbn [mbind outcome_bind].
  assert (Hmin : 0 ≤ Z.min (memory_budget / sizeof_TripleValue) (Z.of_nat (length l)) ≤ Z.of_nat (length l)).
  { pose proof (Z.div_pos memory_budget sizeof_TripleValue). unfold sizeof_TripleValue in *. lia. }
  assert (Hmax : max_triples = 384307168202282325) by reflexivity.
  rewrite decide_False by (rewrite Hmax, u64_id by width; lia).
  rewrite decide_False by (unfold sizeof_TripleValue in Hseg; lia). rewrite <-Hbound.
  assert (Hok0 : split_ok fs0 bound (mkSplit 0 [] 0 []) fs0 [] []) by (unfold split_ok; simpl; split_and!; try done; lia).
  destruct (split_loop_spec fs0 bound m (length l) (Z.to_nat (Z.of_nat (length l)))
    ([] ++ be_encode 8 (Z.of_nat (length l))) (mkFileData (Z.of_nat (length l)) 0) _ _ _ _ l Hok0 Hl)
    as (s & fs & al & E & Hok & _ & Hd & Htwo); [simpl; lia|done|simpl; width|lia|done|done|].
  rewrite E. cbn [mbind outcome_bind]. simpl app in Hok.
  pose proof (split_ok_data _ _ _ _ _ _ Hok) as Hdl.
  assert (Hacc : 0 < accumulated_size s).
  { destruct Hok as (_ & _ & _ & _ & _ & _ & _ & -> & _). specialize (Hd (or_introl Hne)).
    destruct (data s); [done|]. unfold sizeof_TripleValue. simpl length. lia. }
  rewrite decide_True by done.
  pose proof (parts_fit_length _ _ _ _ _ _ (length l) m Hok Hfit ltac:(lia)) as Hk.
  destruct (create_file_part_spec fs0 bound s fs l al Hok) as (out & Ec & Hp & Hr); [lia|width|].
  rewrite Ec. cbn [mbind outcome_bind].
  destruct Hok as (_ & Hal & _ & _ & Hruns & Hcat & _ & _ & _).
  set (al' := al ++ [(part_name input_filename tmp_dir (Z.of_nat (length al)), out)]).
  assert (Hlen' : length al' = S (length al)) by (unfold al'; rewrite length_app; simpl; lia).
  assert (Hal' : al'.*1 = parts (length al')) by (rewrite Hlen', parts_S, <-Hal; unfold al'; by rewrite fmap_app).
  assert (Hcat' : concat al'.*2 ≡ₚ l)
    by (unfold al'; rewrite fmap_app, concat_app; simpl; by rewrite app_nil_r, Hp).
  exists al'. rewrite Hlen' in *. split; [done|]. split; [done|]. split; [|split; [|split; [|split]]].
  - split; [split; rewrite Hal'; [apply parts_NoDup|apply Forall_forall; intros x; apply lookup_without]|].
    split; [|rewrite Hcat'; width]. unfold al'. rewrite fmap_app. apply Forall_app. split; [done|by constructor].
  - intros E'. by rewrite E' in Hlen'.
  - lia.
  - done.
  - intros Hb. destruct al as [|p al]; [|simpl; lia]. specialize (Htwo eq_refl Hne). lia.
Qed.
End split_correct.

(** ** external_sort_triples *)

Section external_sort_correct.
Context `{Host, StdAlgorithmsLaws, PoolScheduleRuns}
  (comparator : TripleValue → TripleValue → bool) `{!StrictWeakOrder comparator}.

(** What the caller and the host provide: parameters in the range of their types
    and not degenerate, an input file that is what it says, names that can be
    written. *)
Record sort_input (input_filename output_filename tmp_dir : string)
    (workers max_files memory_budget block_size segment_size : Z)
    (l : list TripleValue) (fs : files) : Prop := {
  si_workers : 0 < workers < 2 ^ 31;
  si_max_files : 0 < max_files < 2 ^ 31 - 2;
  si_budget : 0 ≤ memory_budget;
  si_block : 0 < block_size < 2 ^ 63;
  si_segment : sizeof_TripleValue ≤ segment_size;
  si_input : fs !! input_filename = Some (triples_file l);
  si_triples : Forall triple_ok l;
  si_fit : parts_fit (mem_budget_bound memory_budget segment_size) (length l) (Z.to_nat max_files);
  si_parts : ∀ i, writable (part_name input_filename tmp_dir i) = true;
  si_mkstemp : mkstemp_works tmp_dir;
  si_rename : ∀ name, renamable name output_filename = true
}.

(** The steps up to the loop over the levels. *)
Lemma external_sort_split input output tmp workers m memory_budget block_size segment_size l fs :
  sort_input input output tmp workers (Z.of_nat m) memory_budget block_size segment_size l fs →
  l ≠ [] → ∃ al rest buffers,
    (∀ fuel, external_sort_triples comparator fuel input output tmp workers (Z.of_nat m) memory_budget
      block_size segment_size fs =
    (r ← merge_levels comparator tmp (Z.of_nat m) block_size buffers fuel al.*1;
     match r with
     | None => mret None
     | Some names => f ← lift (deref (names !! 0%nat)); rename f output;; mret (Some ())
     end) (store al rest)) ∧
    length buffers = S m ∧ level_ok comparator al rest ∧ al ≠ [] ∧
    Z.of_nat (length al) + Z.of_nat m < 2 ^ 31 ∧ concat al.*2 ≡ₚ l ∧
    (mem_budget_bound memory_budget segment_size ≤ sizeof_TripleValue * (Z.of_nat (length l) - 1) →
     (1 < length al)%nat) ∧
    rest = without (parts input tmp (length al)) fs.
Proof.
  intros [Hw Hm Hb Hbs Hseg Hin Hl Hfit Hparts _ _] Hne. rewrite Nat2Z.id in Hfit.
  destruct (split_file_spec comparator input tmp workers segment_size Hw Hseg Hparts fs l memory_budget m
    _ Hin Hl Hne eq_refl Hb Hfit) as (al & E & Hal & Hok & Hnil & Hint & Hcat & Htwo).
  exists al, (without (parts input tmp (length al)) fs), (replicate (S m) block_size).
  split; [intros fuel|by rewrite length_replicate]. unfold external_sort_triples, init_buffers.
  rewrite int_chk_ok by lia. cbn [mbind outcome_bind]. rewrite decide_False by lia.
  replace (Z.to_nat (Z.of_nat m + 1)) with (S m) by lia. rewrite Nat2Z.id.
  unfold mbind at 1 2 3 4, st_bind at 1 2 3 4, lift. cbn [fmap outcome_fmap].
  rewrite !lookup_replicate_2 by lia. cbn [deref fmap outcome_fmap]. by rewrite E, <-Hal.
Qed.

Lemma external_sort_spec input output tmp workers max_files memory_budget block_size
    segment_size l fs :
  sort_input input output tmp workers max_files memory_budget block_size segment_size l fs →
  l ≠ [] → 1 < max_files → ∃ k, ∀ fuel, (k ≤ S fuel)%nat → ∃ out,
    external_sort_triples comparator fuel input output tmp workers max_files memory_budget
      block_size segment_size fs =
    Ret (Some (), <[output := triples_file out]> (without (parts input tmp k) fs)) ∧
    out ≡ₚ l ∧ sorted comparator out.
Proof.
  intros Hsi Hne Hm2. pose proof Hsi as [_ Hm _ Hbs _ _ _ _ _ Hmk Hren].
  replace max_files with (Z.of_nat (Z.to_nat max_files)) in * by lia. set (m := Z.to_nat max_files) in *.
  destruct (external_sort_split _ _ _ _ _ _ _ _ _ _ Hsi Hne)
    as (al & rest & buffers & Ees & Hbuf & Hok & Hnil & Hint & Hcat & _ & ->).
  exists (length al). intros fuel Hfuel. rewrite Ees. clear Ees.
  destruct (merge_levels_spec comparator tmp Hmk m block_size ltac:(lia) ltac:(lia) buffers Hbuf fuel al _
    Hok ltac:(lia) Hnil Hint Hfuel) as (name & out & E & [Hwf [Hrun _]] & Hp).
  unfold mbind at 1, st_bind at 1. rewrite E. cbn [lookup list_lookup deref].
  unfold mbind at 1 2, st_bind at 1 2, lift. cbn [fmap outcome_fmap]. unfold rename.
  rewrite (store_lookup _ _ name out) by (apply Hwf || by left). rewrite Hren.
  rewrite (store_remove name out []) by done. exists out. split; [done|].
  split; [by rewrite Hp|]. by apply Forall_singleton in Hrun as [_ ?].
Qed.

(** C15: When the pool runs every vector's tasks to the end ([PoolScheduleRuns]; a pool may hang
    instead, [ParallelWorker.pool_can_hang]), [external_sort_triples] writes to the output file the
    triples of the input in order, leaving no file of its own behind: the files afterwards are those
    there were, without the [k] parts, and the output. Fewer levels of merging than there are parts
    are enough, for at least two files a pass. The queues of the merges are the heaps of
    PriorityQueue.v, with the comparator of the code, which is not strict. *)
Theorem external_sort_correct input output tmp workers max_files memory_budget block_size
    segment_size l fs :
  sort_input input output tmp workers max_files memory_budget block_size segment_size l fs →
  l ≠ [] → 1 < max_files → ∃ k, ∀ fuel, (k ≤ S fuel)%nat → ∃ out,
    external_sort_triples comparator fuel input output tmp workers max_files memory_budget
      block_size segment_size fs =
    Ret (Some (), <[output := triples_file out]> (without (parts input tmp k) fs)) ∧
    out ≡ₚ l ∧ sorted comparator out.
Proof. apply external_sort_spec. Qed.

(** With [max_files] one the levels never end: as soon as the input takes two
    parts every level merges each file with itself, and no number of levels is
    enough. *)
Theorem one_file_at_a_time_never_ends fuel input output tmp workers memory_budget block_size
    segment_size l fs :
  sort_input input output tmp workers 1 memory_budget block_size segment_size l fs →
  mem_budget_bound memory_budget segment_size ≤ sizeof_TripleValue * (Z.of_nat (length l) - 1) →
  ∃ fs', external_sort_triples comparator fuel input output tmp workers 1 memory_budget
           block_size segment_size fs = Ret (None, fs').
Proof.
  intros Hsi Htwo. pose proof Hsi as [_ _ _ Hbs _ _ _ Hfit _ Hmk _].
  assert (Hne : l ≠ []).
  { intros ->. destruct Hfit as (Hfit & _). unfold sizeof_TripleValue in *. simpl in *. lia. }
  destruct (external_sort_split _ _ _ _ 1 _ _ _ _ _ Hsi Hne)
    as (al & rest & buffers & Ees & Hbuf & Hok & _ & Hint & _ & Hal & _).
  destruct (merge_levels_one comparator tmp Hmk 1 block_size ltac:(lia) ltac:(lia) buffers Hbuf fuel al rest
    Hok eq_refl (Hal Htwo) Hint) as [fs' E].
  exists fs'. change 1 with (Z.of_nat 1). rewrite Ees. unfold mbind at 1, st_bind at 1. by rewrite E.
Qed.

(** An empty input has no part, and the first of none is read. *)
Theorem empty_input_undefined fuel input output tmp workers m memory_budget block_size segment_size fs :
  sort_input input output tmp workers (Z.of_nat m) memory_budget block_size segment_size [] fs →
  external_sort_triples comparator fuel input output tmp workers (Z.of_nat m) memory_budget
    block_size segment_size fs = UB.
Proof.
  intros [_ Hm Hb Hbs Hseg Hin _ _ _ _ _].
  unfold external_sort_triples, init_buffers. rewrite int_chk_ok by lia. cbn [mbind outcome_bind].
  rewrite decide_False by lia. replace (Z.to_nat (Z.of_nat m + 1)) with (S m) by lia. rewrite Nat2Z.id.
  unfold mbind at 1 2 3 4, st_bind at 1 2 3 4, lift. cbn [fmap outcome_fmap].
  rewrite !lookup_replicate_2 by lia. cbn [deref fmap outcome_fmap]. unfold split_file. rewrite Hin.
  change (get_reader (Some (triples_file []))) with (stream_at [] (triples_file [])).
  rewrite read_count by done. cbn [mbind outcome_bind length].
  assert (Hmin : Z.min (memory_budget / sizeof_TripleValue) (Z.of_nat 0) = 0).
  { pose proof (Z.div_pos memory_budget sizeof_TripleValue). unfold sizeof_TripleValue in *. lia. }
  rewrite Hmin. rewrite decide_False by by vm_compute.
  rewrite decide_False by (unfold sizeof_TripleValue in Hseg; lia). by destruct fuel.
Qed.
End external_sort_correct.

(** ** A host, and an input in three parts *)

#[export] Instance toy_host : Host := {|
  writable _ := true;
  renamable _ _ := true;
  mkstemp fs template := (3, fresh_string template fs)
|}.
Lemma toy_mkstemp tmp_dir : mkstemp_works tmp_dir.
Proof. intros fs. split_and!; [done|apply fresh_string_fresh|done]. Qed.

Local Notation T a := (mkTriple a a a).
Definition toy_triples : list TripleValue := [T 9; T 4; T 7; T 1; T 8; T 2].
Definition toy_files : files := <["in" := triples_file toy_triples]> ∅.
Lemma toy_sort_input m : 0 < m < 2 ^ 30 →
  sort_input "in" "out" "tmp" 2 m 97 30 48 toy_triples toy_files.
Proof.
  intros Hm. constructor; try done; try lia.
  - unfold toy_triples, triple_ok, in_u. repeat constructor; done.
  - change (mem_budget_bound 97 48) with 25. unfold parts_fit, sizeof_TripleValue. simpl length. lia.
  - apply toy_mkstemp.
Qed.

Example toy_sorted :
  external_sort_triples Comparator 2 "in" "out" "tmp" 2 2 97 30 48 toy_files =
  Ret (Some (), <["out" := triples_file [T 1; T 2; T 4; T 7; T 8; T 9]]> toy_files).
Proof. vm_compute. reflexivity. Qed.

Lemma external_sort_correct_witness : ∃ k, ∀ fuel, (k ≤ S fuel)%nat → ∃ out,
  external_sort_triples Comparator fuel "in" "out" "tmp" 2 2 97 30 48 toy_files =
    Ret (Some (), <["out" := triples_file out]> (without (parts "in" "tmp" k) toy_files)) ∧
  out ≡ₚ toy_triples ∧ sorted Comparator out.
Proof.
  apply (external_sort_correct Comparator "in" "out" "tmp" 2 2 97 30 48);
    [apply toy_sort_input; lia|done|lia].
Defined.
Lemma one_file_at_a_time_never_ends_witness : ∃ fs',
  external_sort_triples Comparator 1000 "in" "out" "tmp" 2 1 97 30 48 toy_files = Ret (None, fs').
Proof.
  apply (one_file_at_a_time_never_ends Comparator 1000 "in" "out" "tmp" 2 97 30 48 toy_triples);
    [apply toy_sort_input; lia|by vm_compute].
Defined.
