(* ===== verification/Builder.v ===== *)
(** * core/builder: building an index file

    [PredicatesIndexFileBuilder] writes the index file of a sequence of triples
    in which those of a predicate are together: the tree of each predicate goes
    to a temporary stream with its size and digest, and from there to the index
    file, behind the header. The triples and the trees come through the two feed
    interfaces of the folder. *)
From S2P Require Import Prelude Streams Memory Blocks K2Tree Scanners Hashing PriorityQueue TripleSort PredicatesIndex.

Local Open Scope Z_scope.

(** ** TriplesFeedSortedByPredicate.hpp and TriplesFeedSBPFromIstream.cpp *)

Class TriplesFeedSortedByPredicate (F : Type) := {
  feed_has_next : F → bool;
  feed_get_next : F → outcome (RDFTriple * F);
  triples_number : F → Z
}.

Record TriplesFeedSBPFromIstream := mkSBP { sbp_is : istream; _triples_number : Z; cnt : Z }.
Definition new_TriplesFeedSBPFromIstream (ifs : istream) : outcome TriplesFeedSBPFromIstream :=
  '(n, ifs) ← read_u64 ifs; Ret (mkSBP ifs n 0).
Definition sbp_get_next (f : TriplesFeedSBPFromIstream) : outcome (RDFTriple * TriplesFeedSBPFromIstream) :=
  '(subject, ifs) ← read_u64 (sbp_is f);
  '(predicate, ifs) ← read_u64 ifs;
  '(object, ifs) ← read_u64 ifs;
  Ret (Scanners.mkTriple subject predicate object, mkSBP ifs (_triples_number f) (u64 (cnt f + 1))).
#[export] Instance sbp_feed : TriplesFeedSortedByPredicate TriplesFeedSBPFromIstream := {|
  feed_has_next f := bool_decide (cnt f < _triples_number f);
  feed_get_next := sbp_get_next;
  triples_number := _triples_number
|}.

(** ** K2TreesFeed.hpp *)

(** [K2TreeContainer{}] has no tree. [get_next] may loop over another feed; the
    fuel bounds that loop, and [None] is running out of it. *)
Record K2TreeContainer := mkContainer { kc_predicate : Z; kc_tree : option K2TreeMixed }.
Class K2TreesFeed (F : Type) := {
  k2feed_has_next : F → bool;
  k2feed_get_next : nat → F → outcome (option (K2TreeContainer * F))
}.

Section builder.
Context `{BlockLib, K2Lib, OpenSSL}.

(** ** K2TreesFeedFromSortedTriplesFeed.cpp *)

Record K2TreesFeedFromSortedTriplesFeed (F : Type) := mkKFeed {
  kf_feed : F;
  kf_config : K2TreeConfig;
  carry_triple : option RDFTriple;
  triple_cnt : Z
}.
#[global] Arguments mkKFeed {F}.
#[global] Arguments kf_feed {F}.
#[global] Arguments kf_config {F}.
#[global] Arguments carry_triple {F}.
#[global] Arguments triple_cnt {F}.

Section feed.
Context {F : Type} `{TriplesFeedSortedByPredicate F}.

Definition new_K2TreesFeedFromSortedTriplesFeed (feed : F) (config : K2TreeConfig)
    : K2TreesFeedFromSortedTriplesFeed F := mkKFeed feed config None 0.
Definition kf_has_next (k : K2TreesFeedFromSortedTriplesFeed F) : bool :=
  bool_decide (triple_cnt k < triples_number (kf_feed k)).

(** The loop over the feed; [predicate] is the container's. *)
Fixpoint take_group (fuel : nat) (first : bool) (last_predicate predicate : Z) (op : K2TreeBulkOp)
    (k : K2TreesFeedFromSortedTriplesFeed F)
    : outcome (option (Z * K2TreeBulkOp * K2TreesFeedFromSortedTriplesFeed F)) :=
  if negb (feed_has_next (kf_feed k)) then Ret (Some (predicate, op, k)) else
  match fuel with
  | O => Ret None
  | S fuel =>
      '(triple, feed) ← feed_get_next (kf_feed k);
      if negb first && negb (bool_decide (last_predicate = Scanners.predicate triple))
      then Ret (Some (predicate, op, mkKFeed feed (kf_config k) (Some triple) (triple_cnt k)))
      else take_group fuel false (Scanners.predicate triple) (Scanners.predicate triple)
             (bulk_insert (subject triple) (object triple) op)
             (mkKFeed feed (kf_config k) (carry_triple k) (u64 (triple_cnt k + 1)))
  end.
Definition next_group (fuel : nat) (k : K2TreesFeedFromSortedTriplesFeed F)
    : outcome (option (Z * K2TreeBulkOp * K2TreesFeedFromSortedTriplesFeed F)) :=
  let op := new_bulk (new_K2TreeMixed (kf_config k)) in
  match carry_triple k with
  | Some carry =>
      take_group fuel false (Scanners.predicate carry) (Scanners.predicate carry)
        (bulk_insert (subject carry) (object carry) op)
        (mkKFeed (kf_feed k) (kf_config k) (carry_triple k) (u64 (triple_cnt k + 1)))
  | None => take_group fuel true u64_max 0 op k
  end.
Definition kf_get_next (fuel : nat) (k : K2TreesFeedFromSortedTriplesFeed F)
    : outcome (option (K2TreeContainer * K2TreesFeedFromSortedTriplesFeed F)) :=
  if negb (kf_has_next k) then Ret (Some (mkContainer 0 None, k)) else
  m ← next_group fuel k;
  Ret (match m with
       | Some (predicate, op, k) => Some (mkContainer predicate (Some (bulk_tree op)), k)
       | None => None
       end).
#[global] Instance kf_k2feed : K2TreesFeed (K2TreesFeedFromSortedTriplesFeed F) := {|
  k2feed_has_next := kf_has_next;
  k2feed_get_next := kf_get_next
|}.
End feed.

(** ** PredicatesIndexFileBuilder.cpp *)

Definition write_ktree_with_size (k2tree : K2TreeMixed) : wr () :=
  '(sz, out_str) ← lift (file_of (write_to_ostream k2tree));
  write_u64 (measure_in_memory_size k2tree);;
  write_u64 sz;;
  os_write (md5calc out_str);;
  os_write (take (Z.to_nat sz) out_str).

(** One tree, from the temporary stream to the index file. *)
Definition copy_tree_to_index (acc : gmap Z PredicateMetadata * istream) (predicate_id : Z)
    : wr (gmap Z PredicateMetadata * istream) :=
  '(total_bytes, tmp) ← lift (read_u64 acc.2);
  '(k2tree_serialized_size, tmp) ← lift (read_u64 tmp);
  offset ← tellp;
  let '(md5_read, tmp) := is_read 16 tmp in
  let '(buf, tmp) := is_read (Z.to_nat k2tree_serialized_size) tmp in
  if is_fail tmp then lift (Throw RuntimeError) else
  if decide (md5_read ≠ md5calc buf) then lift (Throw RuntimeError) else
  os_write buf;;
  mret (<[predicate_id := mkMeta predicate_id (u64 (Z.of_nat offset)) k2tree_serialized_size
                            total_bytes 0 (md5calc buf)]> acc.1, tmp).

(** The second half of the three builders: the file, from the trees in the
    temporary stream. *)
Definition write_index (predicates_ids : list Z) (config : K2TreeConfig) (tmp : istream)
    : wr PredicatesCacheMetadata :=
  write_u64 (Z.of_nat (length predicates_ids));;
  config_write_to_ostream config;;
  metadata_start ← tellp;
  loop (λ _ _, metadata_write zero_metadata) () predicates_ids;;
  '(metadata_map, _) ← loop copy_tree_to_index
    (list_to_map ((λ p, (p, zero_metadata)) <$> predicates_ids), tmp) predicates_ids;
  to_restore ← tellp;
  seekp metadata_start;;
  loop (λ _ p, metadata_write (default zero_metadata (metadata_map !! p))) () predicates_ids;;
  seekp to_restore;;
  mret (mkCacheMetadata metadata_map predicates_ids config).

(** [tmp_stream.seekg(0)] once everything has been written. *)
Definition rewind (tmp_stream : ostream) : istream := IStream (os_data tmp_stream) 0 false.

(** The trees of a feed, written to the temporary stream. *)
Fixpoint write_trees {F} `{K2TreesFeed F} (fuel feed_fuel : nat) (feed : F) (predicates_ids : list Z)
    : wr (option (list Z)) :=
  if negb (k2feed_has_next feed) then mret (Some predicates_ids) else
  match fuel with
  | O => mret None
  | S fuel =>
      m ← lift (k2feed_get_next feed_fuel feed);
      match m with
      | None => mret None
      | Some (tree_container, feed) =>
          t ← lift (deref (kc_tree tree_container));
          write_ktree_with_size t;;
          write_trees fuel feed_fuel feed (predicates_ids ++ [kc_predicate tree_container])
      end
  end.

Definition build_with_k2tree_feed {F} `{K2TreesFeed F} (fuel : nat) (feed : F)
    (tmp_stream : ostream) (config : K2TreeConfig) : wr (option PredicatesCacheMetadata) :=
  '(m, tmp_stream) ← lift (write_trees fuel fuel feed [] tmp_stream);
  match m with
  | None => mret None
  | Some predicates_ids => m ← write_index predicates_ids config (rewind tmp_stream); mret (Some m)
  end.
Definition build_with_feed {F} `{TriplesFeedSortedByPredicate F} (fuel : nat) (feed : F)
    (tmp_stream : ostream) (config : K2TreeConfig) : wr (option PredicatesCacheMetadata) :=
  build_with_k2tree_feed fuel (new_K2TreesFeedFromSortedTriplesFeed feed config) tmp_stream config.
Definition build (fuel : nat) (input_file : istream) (tmp_stream : ostream) (config : K2TreeConfig)
    : wr (option PredicatesCacheMetadata) :=
  feed ← lift (new_TriplesFeedSBPFromIstream input_file);
  build_with_feed fuel feed tmp_stream config.

(** *** The two older builders *)

(** The variables of their first loop; [current] is the bulk operation on the
    current tree. *)
Record scan_state := mkScan {
  current : option K2TreeBulkOp;
  scanned_ids : list Z;
  current_predicate : Z;
  first_triple : bool;
  current_counter : Z;
  already_added : gset Z
}.
Definition write_current (s : scan_state) : wr () :=
  match current s with Some op => write_ktree_with_size (bulk_tree op) | None => mret () end.
Definition starts_tree (s : scan_state) (triple : TripleValue) : bool :=
  negb (bool_decide (second triple = current_predicate s)) || first_triple s.
Definition start_tree (config : K2TreeConfig) (triple : TripleValue) (s : scan_state) : wr scan_state :=
  write_current s;;
  mret (mkScan (Some (new_bulk (new_K2TreeMixed config))) (scanned_ids s ++ [second triple])
          (second triple) false 0 ({[ second triple ]} ∪ already_added s)).
Definition insert_current (triple : TripleValue) (s : scan_state) : outcome scan_state :=
  op ← deref (current s);
  Ret (mkScan (Some (bulk_insert (first triple) (third triple) op)) (scanned_ids s)
         (current_predicate s) (first_triple s) (u64 (current_counter s + 1)) (already_added s)).

Definition orig_step (config : K2TreeConfig) (triple : TripleValue) (s : scan_state) : wr scan_state :=
  s ← (if starts_tree s triple then start_tree config triple s else mret s);
  lift (insert_current triple s).
(** [build_debug] rejects a predicate that comes back and, with [slow_check], a
    tree that does not have a point per triple. *)
Definition debug_step (slow_check : bool) (config : K2TreeConfig) (triple : TripleValue)
    (s : scan_state) : wr scan_state :=
  s ← (if starts_tree s triple then
         if decide (second triple ∈ already_added s) then lift (Throw RuntimeError)
         else start_tree config triple s
       else mret s);
  s ← lift (insert_current triple s);
  if slow_check then
    op ← lift (deref (current s));
    scan_counter ← lift (scan_points (bulk_tree op) (λ n _, u64 (n + 1)) 0);
    if decide (scan_counter ≠ current_counter s) then lift (Throw RuntimeError) else mret s
  else mret s.

Fixpoint scan_input (step : TripleValue → scan_state → wr scan_state) (fuel : nat)
    (filedata : FileData) (input_file : istream) (s : scan_state) : wr (option scan_state) :=
  if finished filedata then mret (Some s) else
  match fuel with
  | O => mret None
  | S fuel =>
      '((triple, filedata), input_file) ← lift (read_triple filedata input_file);
      s ← step triple s;
      scan_input step fuel filedata input_file s
  end.
Definition scan_trees (step : TripleValue → scan_state → wr scan_state) (fuel : nat)
    (filedata : FileData) (input_file : istream) (s : scan_state) : wr (option (list Z)) :=
  m ← scan_input step fuel filedata input_file s;
  match m with
  | None => mret None
  | Some s => write_current s;; mret (Some (scanned_ids s))
  end.
Definition build_by (step : TripleValue → scan_state → wr scan_state) (fuel : nat)
    (input_file : istream) (tmp_stream : ostream) (config : K2TreeConfig)
    : wr (option PredicatesCacheMetadata) :=
  '(size, input_file) ← lift (read_u64 input_file);
  '(m, tmp_stream) ← lift (scan_trees step fuel (mkFileData size 0) input_file
                             (mkScan None [] 0 true 0 ∅) tmp_stream);
  match m with
  | None => mret None
  | Some predicates_ids => m ← write_index predicates_ids config (rewind tmp_stream); mret (Some m)
  end.
Definition build_orig (fuel : nat) (input_file : istream) (tmp_stream : ostream)
    (config : K2TreeConfig) : wr (option PredicatesCacheMetadata) :=
  build_by (orig_step config) fuel input_file tmp_stream config.
Definition build_debug (slow_check : bool) (fuel : nat) (input_file : istream) (tmp_stream : ostream)
    (config : K2TreeConfig) : wr (option PredicatesCacheMetadata) :=
  build_by (debug_step slow_check config) fuel input_file tmp_stream config.
End builder.

(** ** The groups of a sequence of triples *)

(** The points of the triples next to each other that have the same predicate. *)
Definition point_of (x : RDFTriple) : Z * Z := (subject x, object x).
Fixpoint groups (l : list RDFTriple) : list (Z * list (Z * Z)) :=
  match l with
  | [] => []
  | x :: l =>
      match groups l with
      | (p, ps) :: gs =>
          if decide (p = Scanners.predicate x) then (p, point_of x :: ps) :: gs
          else (Scanners.predicate x, [point_of x]) :: (p, ps) :: gs
      | [] => [(Scanners.predicate x, [point_of x])]
      end
  end.
Fixpoint span (p : Z) (l : list RDFTriple) : list (Z * Z) * list RDFTriple :=
  match l with
  | [] => ([], [])
  | x :: l' => if decide (p = Scanners.predicate x)
               then (point_of x :: (span p l').1, (span p l').2) else ([], l)
  end.

Lemma groups_head x l : ∃ ps gs, groups (x :: l) = (Scanners.predicate x, ps) :: gs.
Proof. simpl. repeat case_match; subst; eauto. Qed.
Lemma groups_span x l :
  groups (x :: l) = (Scanners.predicate x, point_of x :: (span (Scanners.predicate x) l).1) ::
                    groups (span (Scanners.predicate x) l).2.
Proof.
  revert x. induction l as [|y l IH]; intros x; [done|].
  change (groups (x :: y :: l)) with (match groups (y :: l) with
      | (p, ps) :: gs =>
          if decide (p = Scanners.predicate x) then (p, point_of x :: ps) :: gs
          else (Scanners.predicate x, [point_of x]) :: (p, ps) :: gs
      | [] => [(Scanners.predicate x, [point_of x])]
      end).
  simpl span. destruct (decide (Scanners.predicate x = Scanners.predicate y)) as [E|E].
  - rewrite (IH y), decide_True by done. by rewrite <-E.
  - destruct (groups_head y l) as (ps & gs & Eg). rewrite Eg, decide_False by congruence. by rewrite <-Eg.
Qed.
Lemma length_span p l : (length (span p l).2 ≤ length l)%nat.
Proof. induction l as [|x l IH]; [done|]. simpl. case_decide; simpl; lia. Qed.
Lemma length_groups l : (length (groups l) ≤ length l)%nat.
Proof.
  induction l as [|x l IH]; [done|]. simpl. destruct (groups l) as [|[p ps] gs]; simpl in *; [lia|].
  case_decide; simpl; lia.
Qed.
Lemma in_group_cons p0 ps0 (gs : list (Z * list (Z * Z))) p q :
  (∃ ps, (p, ps) ∈ (p0, ps0) :: gs ∧ q ∈ ps) ↔
  (p = p0 ∧ q ∈ ps0) ∨ ∃ ps, (p, ps) ∈ gs ∧ q ∈ ps.
Proof. setoid_rewrite elem_of_cons. naive_solver. Qed.
Lemma elem_of_groups l p q :
  (∃ ps, (p, ps) ∈ groups l ∧ q ∈ ps) ↔ ∃ x, x ∈ l ∧ Scanners.predicate x = p ∧ point_of x = q.
Proof.
  induction l as [|x l IH].
  { split; [intros (? & Hx & _)|intros (? & Hx & _)]; by apply not_elem_of_nil in Hx. }
  assert (Hsplit : (∃ ps, (p, ps) ∈ groups (x :: l) ∧ q ∈ ps) ↔
    (Scanners.predicate x = p ∧ point_of x = q) ∨ ∃ ps, (p, ps) ∈ groups l ∧ q ∈ ps).
  { simpl. destruct (groups l) as [|[p' ps'] gs]; [|case_decide as E]; subst;
      rewrite ?in_group_cons, ?elem_of_cons, ?elem_of_nil; try setoid_rewrite elem_of_nil; naive_solver. }
  rewrite Hsplit, IH. setoid_rewrite elem_of_cons. naive_solver.
Qed.

Lemma groups_nonempty l p ps : (p, ps) ∈ groups l → ∃ q, q ∈ ps.
Proof.
  induction l as [|x l IH]; [intros Hg; by apply not_elem_of_nil in Hg|]. simpl.
  destruct (groups l) as [|[p' ps'] gs]; [|case_decide]; rewrite !elem_of_cons.
  all: intros Hg; destruct_or?; simplify_eq; try (by exists (point_of x); left); auto;
    try (by apply IH; rewrite elem_of_cons; auto); by apply not_elem_of_nil in Hg.
Qed.
Lemma NoDup_fst_inj {A B} (l : list (A * B)) a b b' : NoDup l.*1 → (a, b) ∈ l → (a, b') ∈ l → b = b'.
Proof.
  induction l as [|[a0 b0] l IH]; intros Hnd Hb Hb'; [by apply not_elem_of_nil in Hb|].
  apply NoDup_cons in Hnd as [Hni Hnd]. simpl in Hni.
  assert (Hout : ∀ x, (a0, x) ∈ l → False) by (intros x Hx; apply Hni, list_elem_of_fmap; by exists (a0, x)).
  apply elem_of_cons in Hb as [Hb|Hb]; apply elem_of_cons in Hb' as [Hb'|Hb']; simplify_eq; auto;
    exfalso; eauto.
Qed.

(** Sorted by predicate, each predicate has one group. *)
Definition by_predicate (x y : RDFTriple) : Prop := Scanners.predicate x ≤ Scanners.predicate y.
Lemma groups_above z l : Forall (by_predicate z) l →
  Forall (λ p, Scanners.predicate z ≤ p) (groups l).*1.
Proof.
  induction 1 as [|x l Hx _ IH]; [constructor|]. simpl. unfold by_predicate in Hx.
  destruct (groups l) as [|[p ps] gs]; [by repeat constructor|].
  case_decide; simpl in *; [done|]. by constructor.
Qed.
Lemma sorted_groups l : StronglySorted by_predicate l → StronglySorted Z.lt (groups l).*1.
Proof.
  induction 1 as [|x l _ IH Hx]; [constructor|]. simpl. pose proof (groups_above x l Hx) as Ha.
  destruct (groups l) as [|[p ps] gs]; [by repeat constructor|].
  case_decide as E; simpl in *; [done|]. constructor; [done|].
  apply Forall_cons in Ha as [Hp _]. apply StronglySorted_inv in IH as [_ Hgs].
  constructor; [lia|]. weaken Hgs. lia.
Qed.
Lemma NoDup_groups l : StronglySorted by_predicate l → NoDup (groups l).*1.
Proof.
  intros Hl%sorted_groups. induction Hl as [|p gs _ IH Hp]; [constructor|]. constructor; [|done].
  rewrite Forall_forall in Hp. intros Hin%Hp. lia.
Qed.

(** ** What the feeds deliver *)

Section feeds.
Context `{BlockLib, K2Lib}.

(** The feed delivers [l], and counts [n] triples in all. *)
Inductive feeds {F} `{TriplesFeedSortedByPredicate F} (n : Z) : F → list RDFTriple → Prop :=
  | feeds_nil f : feed_has_next f = false → triples_number f = n → feeds n f []
  | feeds_cons f x f' l : feed_has_next f = true → triples_number f = n →
      feed_get_next f = Ret (x, f') → feeds n f' l → feeds n f (x :: l).
Inductive k2feeds {F} `{K2TreesFeed F} (fuel : nat) : F → list (Z * K2TreeMixed) → Prop :=
  | k2feeds_nil f : k2feed_has_next f = false → k2feeds fuel f []
  | k2feeds_cons f p t f' cs : k2feed_has_next f = true →
      k2feed_get_next fuel f = Ret (Some (mkContainer p (Some t), f')) → k2feeds fuel f' cs →
      k2feeds fuel f ((p, t) :: cs).

Definition insert_points (ps : list (Z * Z)) (t : K2TreeMixed) : K2TreeMixed :=
  fold_left run_op ((λ p, OpInsert p.1 p.2) <$> ps) t.
Definition group_tree (c : K2TreeConfig) (g : Z * list (Z * Z)) : Z * K2TreeMixed :=
  (g.1, insert_points g.2 (new_K2TreeMixed c)).

(** The stream of a file of triples. *)
Definition to_rdf (t : TripleValue) : RDFTriple :=
  Scanners.mkTriple (first t) (second t) (third t).
Lemma sbp_feeds pre l n k : Forall triple_ok l → in_u 64 n → 0 ≤ k → n - k = Z.of_nat (length l) →
  feeds n (mkSBP (stream_at pre (l ≫= triple_bytes)) n k) (to_rdf <$> l).
Proof.
  intros Hl Hn. revert pre k. induction Hl as [|x l Hx _ IH]; intros pre k Hk Hlen.
  { constructor; [|done]. simpl. apply bool_decide_false. simpl in Hlen. lia. }
  simpl in Hlen. rewrite fmap_cons.
  apply (feeds_cons n _ _ (mkSBP (stream_at (pre ++ triple_bytes x) (l ≫= triple_bytes)) n (k + 1))).
  - simpl. apply bool_decide_true. lia.
  - done.
  - unfold feed_get_next, sbp_feed, sbp_get_next. cbn [sbp_is _triples_number cnt].
    destruct Hx as (Ha & Hb & Hc). rewrite bind_cons.
    unfold triple_bytes at 1. rewrite <-!(assoc_L (++)).
    rewrite (parses_at _ _ _ _ _ (parses_u64 _ Ha)). cbn [mbind outcome_bind].
    rewrite (parses_at _ _ _ _ _ (parses_u64 _ Hb)). cbn [mbind outcome_bind].
    rewrite (parses_at _ _ _ _ _ (parses_u64 _ Hc)). cbn [mbind outcome_bind].
    simpl. rewrite u64_id by width. unfold triple_bytes. by rewrite <-!(assoc_L (++)).
  - apply IH; [lia|lia].
Qed.
Lemma new_sbp_feeds l : Forall triple_ok l → in_u 64 (Z.of_nat (length l)) → ∃ f,
  new_TriplesFeedSBPFromIstream (get_reader (Some (triples_file l))) = Ret f ∧
  feeds (Z.of_nat (length l)) f (to_rdf <$> l).
Proof.
  intros Hl Hn. unfold new_TriplesFeedSBPFromIstream.
  change (get_reader (Some (triples_file l))) with (stream_at [] (triples_file l)).
  unfold triples_file. rewrite (parses_at _ _ _ _ _ (parses_u64 _ Hn)). cbn [mbind outcome_bind].
  eexists. split; [done|]. apply sbp_feeds; [done|done|lia|lia].
Qed.

Section groups.
Context {F : Type} `{TriplesFeedSortedByPredicate F} (n : Z) (Hn : in_u 64 n) (c : K2TreeConfig).

(** The triples that are still to come: the one carried over, then the feed's. *)
Definition pending (k : K2TreesFeedFromSortedTriplesFeed F) (l : list RDFTriple) : Prop :=
  triples_number (kf_feed k) = n ∧ kf_config k = c ∧ 0 ≤ triple_cnt k ∧
  n - triple_cnt k = Z.of_nat (length l) ∧
  match l with
  | [] => True
  | x :: rest => match carry_triple k with
                 | Some carry => carry = x ∧ feeds n (kf_feed k) rest
                 | None => feeds n (kf_feed k) l
                 end
  end.

Lemma take_group_spec fuel p t k l : feeds n (kf_feed k) l → (length l ≤ fuel)%nat →
  kf_config k = c → 0 ≤ triple_cnt k → n - triple_cnt k = Z.of_nat (length l) → ∃ k',
    take_group fuel false p p (new_bulk t) k =
      Ret (Some (p, new_bulk (insert_points (span p l).1 t), k')) ∧ pending k' (span p l).2.
Proof.
  revert fuel t k. induction l as [|x l IH]; intros fuel t k Hf Hfuel Hcf Hpos Hcnt.
  - inversion Hf as [f Hnx Htn|]; subst. exists k. split; [destruct fuel; simpl; by rewrite Hnx|].
    by split_and!.
  - inversion Hf as [|f y f' l' Hnx Htn Hget Hf']; subst. destruct fuel as [|fuel]; [simpl in Hfuel; lia|].
    simpl. rewrite Hnx. simpl. rewrite Hget. simpl. simpl in Hfuel, Hcnt.
    rewrite bool_decide_decide. destruct (decide (p = Scanners.predicate x)) as [->|Hne]; simpl.
    + rewrite bulk_insert_new.
      destruct (IH fuel (run_op t (OpInsert (subject x) (object x)))
        (mkKFeed f' (kf_config k) (carry_triple k) (u64 (triple_cnt k + 1)))) as (k' & E & Hk');
        simpl; rewrite ?u64_id by width; [done|lia|done|lia|lia|].
      exists k'. by rewrite u64_id in E by width.
    + eexists. split; [done|]. split_and!; simpl; [by inversion Hf'; subst|done|done|done|by split].
Qed.

Lemma kf_get_next_spec fuel k x l : pending k (x :: l) → (S (length l) ≤ fuel)%nat → ∃ k',
  kf_has_next k = true ∧
  kf_get_next fuel k =
    Ret (Some (mkContainer (Scanners.predicate x)
      (Some (insert_points (point_of x :: (span (Scanners.predicate x) l).1) (new_K2TreeMixed c))), k')) ∧
  pending k' (span (Scanners.predicate x) l).2.
Proof.
  intros (Htn & Hc & Hpos & Hcnt & Hl) Hfuel. simpl in Hcnt.
  assert (Hnx : kf_has_next k = true) by (unfold kf_has_next; apply bool_decide_true; lia).
  assert (Hg : ∃ k', next_group fuel k = Ret (Some (Scanners.predicate x,
      new_bulk (insert_points (point_of x :: (span (Scanners.predicate x) l).1) (new_K2TreeMixed c)), k')) ∧
    pending k' (span (Scanners.predicate x) l).2).
  { unfold next_group. rewrite Hc. destruct (carry_triple k) as [carry|].
    - destruct Hl as [-> Hf]. rewrite bulk_insert_new.
      destruct (take_group_spec fuel (Scanners.predicate x)
        (run_op (new_K2TreeMixed c) (OpInsert (subject x) (object x)))
        (mkKFeed (kf_feed k) c (Some x) (u64 (triple_cnt k + 1))) l Hf) as (k' & E & Hk');
        simpl; rewrite ?u64_id by width; [lia|done|lia|lia|].
      exists k'. by rewrite u64_id in E by width.
    - inversion Hl as [|f y f' l' Hnf Htn' Hget Hf]; subst. destruct fuel as [|fuel]; [lia|].
      simpl. rewrite Hnf. simpl. rewrite Hget. simpl. rewrite bulk_insert_new, Hc.
      destruct (take_group_spec fuel (Scanners.predicate x)
        (run_op (new_K2TreeMixed c) (OpInsert (subject x) (object x)))
        (mkKFeed f' c (carry_triple k) (u64 (triple_cnt k + 1))) l Hf) as (k' & E & Hk');
        simpl; rewrite ?u64_id by width; [lia|done|lia|lia|].
      exists k'. by rewrite u64_id in E by width. }
  destruct Hg as (k' & E & Hk'). exists k'. split; [done|]. split; [|done].
  unfold kf_get_next. rewrite Hnx. simpl. by rewrite E.
Qed.

Lemma kf_feeds fuel k l : pending k l → (length l ≤ fuel)%nat →
  k2feeds fuel k (group_tree c <$> groups l).
Proof.
  revert k. remember (length l) as m eqn:Em. revert l Em.
  induction m as [m IH] using lt_wf_ind. intros l -> k Hk Hfuel.
  destruct l as [|x l].
  - constructor. destruct Hk as (Htn & _ & _ & Hcnt & _). simpl in *. unfold kf_has_next.
    apply bool_decide_false. simpl in Hcnt. lia.
  - destruct (kf_get_next_spec fuel k x l Hk Hfuel) as (k' & Hnx & E & Hk').
    pose proof (length_span (Scanners.predicate x) l) as Hs.
    rewrite groups_span, fmap_cons. eapply k2feeds_cons; [done|exact E|].
    apply (IH (length (span (Scanners.predicate x) l).2) ltac:(simpl; lia) _ eq_refl k' Hk').
    simpl in Hfuel. lia.
Qed.
End groups.
End feeds.

(** ** The file that is built *)

Section built.
Context `{Hp : Heap, Blk : BlockLib, !BlockLibLaws, Lib : K2Lib, !K2LibLaws, !MeasureLaws,
          Ssl : OpenSSL, !OpenSSLLaws}.

(** A tree in the temporary stream. *)
Definition tree_bytes (t : K2TreeMixed) : list Z :=
  match file_of (write_to_ostream t) with Ret (_, bytes) => bytes | _ => [] end.
Definition tree_record (t : K2TreeMixed) : list Z :=
  be_encode 8 (measure_in_memory_size t) ++ be_encode 8 (u64 (Z.of_nat (length (tree_bytes t)))) ++
  md5calc (tree_bytes t) ++ tree_bytes t.

Lemma tree_bytes_encodes t : tm_wf t → encodes t (tree_bytes t).
Proof.
  intros Hw. destruct (tree_codec create_null t Hw) as (bytes & _ & He & _).
  unfold tree_bytes. by rewrite (file_of_emits _ _ _ He).
Qed.
(** A tree that the format can hold. *)
Definition writable_tree (c : K2TreeConfig) (t : K2TreeMixed) : Prop :=
  tm_wf t ∧ good_tree c t ∧ in_u 64 (Z.of_nat (tm_mem t)) ∧ in_u 64 (Z.of_nat (length (tree_bytes t))).

Lemma emits_tree_record c t : writable_tree c t → emits (write_ktree_with_size t) (tree_record t) ().
Proof.
  intros (Hw & _ & _ & Hl). pose proof (tree_bytes_encodes t Hw) as He. unfold write_ktree_with_size.
  eapply (does_bind_r (H := write_effect)); [apply does_lift, (file_of_emits _ _ _ He)|]. simpl.
  rewrite u64_id, Nat2Z.id, firstn_all by done. unfold tree_record. rewrite u64_id by done.
  eapply emits_bind; [apply emits_u64|]. eapply emits_bind; [apply emits_u64|].
  eapply emits_bind; apply emits_write.
Qed.

Section copy.
Context (c : K2TreeConfig) (cs : list (Z * K2TreeMixed)).
Hypothesis cs_ok : Forall (λ pt, in_u 64 pt.1 ∧ writable_tree c pt.2) cs.
Hypothesis cs_once : NoDup cs.*1.

Definition tree_of (p : Z) : option K2TreeMixed := (list_to_map cs : gmap Z K2TreeMixed) !! p.
(** The temporary stream before the trees of [ids]. *)
Definition at_trees (ids : list Z) (s : istream) : Prop := ∃ pre,
  s = stream_at pre (ids ≫= λ p, match tree_of p with Some t => tree_record t | None => [] end).

Lemma tree_of_id p : p ∈ cs.*1 → ∃ t, tree_of p = Some t ∧ in_u 64 p ∧ writable_tree c t.
Proof.
  intros ([q t] & -> & Hin)%list_elem_of_fmap. exists t. rewrite Forall_forall in cs_ok.
  split; [by apply elem_of_list_to_map|]. by apply (cs_ok (q, t)).
Qed.

Lemma records_eq : cs ≫= (λ pt, tree_record pt.2) =
  cs.*1 ≫= λ p, match tree_of p with Some t => tree_record t | None => [] end.
Proof.
  assert (Hall : ∀ pt, pt ∈ cs → tree_of pt.1 = Some pt.2)
    by (intros [p t] Hin; by apply elem_of_list_to_map).
  revert Hall. generalize tree_of. clear. intros f. induction cs as [|[p t] cs' IH]; intros Hall; [done|].
  rewrite fmap_cons, !bind_cons. cbn [fst snd]. pose proof (Hall (p, t) ltac:(by left)) as Ht.
  simpl in Ht. rewrite Ht. f_equal.
  apply IH. intros pt Hpt. apply Hall. by right.
Qed.

Lemma copied_tree_spec p ps m s d1 : at_trees (p :: ps) s → p ∈ cs.*1 → ∃ bytes md s' t,
  copy_tree_to_index (m, s) p (os_end d1) = Ret ((<[p := md]> m, s'), os_end (d1 ++ bytes)) ∧
  at_trees ps s' ∧ entry_of c (λ p, pts <$> tree_of p) p (length d1) bytes md t.
Proof.
  intros [pre ->] Hin. destruct (tree_of_id p Hin) as (t & Et & Hid & Hwt). rewrite bind_cons, Et.
  set (post := ps ≫= _). pose proof Hwt as (Hw & Hg & Hm & Hl).
  pose proof (tree_bytes_encodes t Hw) as He. destruct (measure_law t Hw Hm) as [Hmem Hms].
  pose proof (MD5_digest (tree_bytes t)) as [Hmd5 _].
  exists (tree_bytes t), (mkMeta p (u64 (Z.of_nat (length d1))) (u64 (Z.of_nat (length (tree_bytes t))))
    (measure_in_memory_size t) 0 (md5calc (tree_bytes t))), (stream_at (pre ++ tree_record t) post), t.
  split; [|split; [by eexists|constructor; simpl; try done; by rewrite Et]].
  unfold copy_tree_to_index, tree_record. rewrite <-!(assoc_L (++)). cbn [fst snd].
  unfold mbind at 1, st_bind at 1, lift at 1.
  rewrite (parses_at _ _ _ _ _ (parses_u64 _ Hms)). cbn [fmap outcome_fmap].
  unfold mbind at 1, st_bind at 1, lift at 1.
  rewrite (parses_at _ _ _ _ _ (parses_u64 _ (u64_range _))). cbn [fmap outcome_fmap].
  unfold mbind at 1, st_bind at 1, tellp. simpl os_pos.
  rewrite is_read_at by done. rewrite u64_id, Nat2Z.id, is_read_at by done.
  rewrite decide_False by (intros Hne; by apply Hne). cbn [is_fail stream_at].
  unfold mbind, st_bind. rewrite (emits_at _ _ _ _ (emits_write (tree_bytes t))).
  by rewrite <-!(assoc_L (++)).
Qed.

(** The second half of the builders writes an index file of the trees [cs]. *)
Lemma write_index_spec : ∃ m' body,
  write_index cs.*1 c (stream_at [] (cs ≫= λ pt, tree_record pt.2)) (os_end []) =
    Ret (mkCacheMetadata m' cs.*1 c, os_end (layout c cs.*1 m' body)) ∧
  layout_ok c (λ p, pts <$> tree_of p) cs.*1 m' body.
Proof.
  destruct (layout_spec c (λ p, pts <$> tree_of p) cs.*1 copy_tree_to_index at_trees copied_tree_spec
    (stream_at [] (cs ≫= λ pt, tree_record pt.2)) (λ m _, mkCacheMetadata m cs.*1 c))
    as (m' & s' & body & E & _ & Hl).
  - exists []. f_equal. apply records_eq.
  - exists m', body. split; [exact E|done].
Qed.
End copy.

Lemma write_trees_spec {F} `{K2TreesFeed F} c fuel n (f : F) cs ids d : k2feeds fuel f cs →
  Forall (λ pt, in_u 64 pt.1 ∧ writable_tree c pt.2) cs → (length cs ≤ n)%nat →
  write_trees n fuel f ids (os_end d) =
  Ret (Some (ids ++ cs.*1), os_end (d ++ (cs ≫= λ pt, tree_record pt.2))).
Proof.
  intros Hf. revert n ids d. induction Hf as [f Hnx|f p t f' cs Hnx Hget _ IH]; intros n ids d Hok Hn.
  - destruct n; simpl; rewrite Hnx; simpl; by rewrite !app_nil_r.
  - destruct n as [|n]; [simpl in Hn; lia|]. apply Forall_cons in Hok as [[_ Hwt] Hok].
    cbn [write_trees]. rewrite Hnx. cbn [negb]. unfold mbind at 1, st_bind at 1, lift at 1. rewrite Hget.
    cbn [fmap outcome_fmap]. unfold mbind at 1, st_bind at 1, lift at 1.
    cbn [kc_tree deref fmap outcome_fmap kc_predicate]. unfold mbind at 1, st_bind at 1.
    rewrite (emits_at _ _ _ _ (emits_tree_record c t Hwt)), IH by (done || simpl in Hn; lia).
    rewrite bind_cons, fmap_cons, <-!(assoc_L (++)). done.
Qed.

(** The index file of the trees a feed delivers, each predicate once. *)
Lemma build_with_k2tree_feed_spec {F} `{K2TreesFeed F} c fuel (f : F) cs : k2feeds fuel f cs →
  Forall (λ pt, in_u 64 pt.1 ∧ writable_tree c pt.2) cs → NoDup cs.*1 → (length cs ≤ fuel)%nat →
  config_wf c → ∃ m data,
    build_with_k2tree_feed fuel f (os_end []) c (os_end []) = Ret (Some m, os_end data) ∧
    predicates_ids m = cs.*1 ∧
    (Z.of_nat (length data) < 2 ^ 63 → ∀ mm, ∃ i, new_PredicatesIndexCacheMD (Some data) mm = Ret i ∧
       metadata i = m ∧ index_ok data i ∧ ∀ p, main_points data i p = pts <$> tree_of cs p).
Proof.
  intros Hf Hok Hnd Hfuel Hc. destruct (write_index_spec c cs Hok Hnd) as (m' & body & E & Hl).
  exists (mkCacheMetadata m' cs.*1 c), (layout c cs.*1 m' body).
  split; [|split; [done|]].
  - unfold build_with_k2tree_feed. unfold mbind at 1, st_bind at 1, lift.
    rewrite (write_trees_spec c fuel fuel f cs [] [] Hf Hok Hfuel). cbn [fmap outcome_fmap app].
    unfold mbind at 1, st_bind at 1. unfold rewind, os_end at 1. cbn [os_data].
    change (IStream ?d 0 false) with (stream_at [] d). by rewrite E.
  - intros HD mm. destruct (open_layout c _ cs.*1 m' body Hl Hc) with (mm := mm)
      as (i & Ei & Hm & Hi & Hpts); [|done|].
    + intros p ([q t] & -> & Hin)%list_elem_of_fmap. rewrite Forall_forall in Hok. by apply Hok in Hin as [? _].
    + exists i. split_and!; [done..|]. intros p. rewrite Hpts. case_decide as Hin; [done|].
      unfold tree_of. by rewrite not_elem_of_list_to_map_1.
Qed.

(** *** A file of triples *)

(** The points of a predicate. *)
Definition points_of (p : Z) (l : list TripleValue) : gset (Z * Z) :=
  list_to_set ((λ t, (first t, third t)) <$> filter (λ t, second t = p) l).

(** A sorted file of triples whose coordinates fit the trees of the
    configuration, and whose trees fit the format. *)
Record build_input (c : K2TreeConfig) (l : list TripleValue) : Prop := {
  bi_config : config_wf c;
  bi_triples : Forall triple_ok l;
  bi_count : in_u 64 (Z.of_nat (length l));
  bi_sorted : sorted Comparator l;
  bi_coords : Forall (λ t, in_coords (config_qw c) (first t, third t)) l;
  bi_trees : Forall (λ g, let t := (group_tree c g).2 in tm_wf t ∧ in_u 64 (Z.of_nat (tm_mem t)) ∧
               in_u 64 (Z.of_nat (length (tree_bytes t)))) (groups (to_rdf <$> l))
}.

Lemma sorted_by_predicate l : sorted Comparator l → StronglySorted by_predicate (to_rdf <$> l).
Proof.
  induction 1 as [|x l _ IH Hx]; [constructor|]. rewrite fmap_cons. constructor; [done|].
  rewrite Forall_fmap. weaken Hx. unfold by_predicate, le, Comparator in *. simpl.
  rewrite bool_decide_eq_false in *. lia.
Qed.

Lemma elem_of_points_of p q l : q ∈ points_of p l ↔
  ∃ ps, (p, ps) ∈ groups (to_rdf <$> l) ∧ q ∈ ps.
Proof.
  rewrite elem_of_groups. unfold points_of. rewrite elem_of_list_to_set, list_elem_of_fmap.
  setoid_rewrite list_elem_of_filter. setoid_rewrite list_elem_of_fmap. split.
  - intros (t & -> & Hp' & Hin). exists (to_rdf t). split; [by exists t|done].
  - intros (x & (t & -> & Hin) & Hp' & <-). by exists t.
Qed.

Lemma group_tree_points c l g : build_input c l → g ∈ groups (to_rdf <$> l) →
  good_tree c (group_tree c g).2 ∧ pts (group_tree c g).2 = list_to_set g.2.
Proof.
  intros Hb Hg. destruct g as [p ps]. unfold group_tree, insert_points. simpl.
  destruct (new_tree_ok c) as [Hok Hnew].
  destruct (run_ops_spec ((λ p, OpInsert p.1 p.2) <$> ps) (new_K2TreeMixed c) Hok) as (Hok' & Hq & Hpt).
  - rewrite Forall_fmap. apply Forall_forall. intros q Hq.
    assert (Hin : q ∈ points_of p l) by (apply elem_of_points_of; by exists ps).
    unfold points_of in Hin. rewrite elem_of_list_to_set, list_elem_of_fmap in Hin.
    destruct Hin as (t & -> & [_ Ht]%list_elem_of_filter). simpl.
    pose proof (bi_coords c l Hb) as Hc. rewrite Forall_forall in Hc. by apply Hc.
  - split; [by split|]. rewrite Hpt, Hnew, spec_inserts. set_solver.
Qed.

Lemma build_trees_ok c l : build_input c l →
  Forall (λ pt, in_u 64 pt.1 ∧ writable_tree c pt.2) (group_tree c <$> groups (to_rdf <$> l)).
Proof.
  intros Hb. rewrite Forall_fmap. apply Forall_forall. intros [p ps] Hg. split.
  - simpl. destruct (groups_nonempty _ _ _ Hg) as [q Hq].
    destruct (proj1 (elem_of_groups (to_rdf <$> l) p q)) as (x & Hx & Hpx & _); [by exists ps|].
    apply list_elem_of_fmap in Hx as (t & -> & Ht). pose proof (bi_triples c l Hb) as Hok.
    rewrite Forall_forall in Hok. destruct (Hok t Ht) as (_ & Hs & _). by rewrite <-Hpx.
  - pose proof (bi_trees c l Hb) as Htr. rewrite Forall_forall in Htr.
    destruct (Htr _ Hg) as (Hw & Hm & Hl). split_and!; try done.
    by apply (group_tree_points c l).
Qed.

Lemma tree_of_groups c l p : build_input c l →
  pts <$> tree_of (group_tree c <$> groups (to_rdf <$> l)) p =
  if decide (p ∈ second <$> l) then Some (points_of p l) else None.
Proof.
  intros Hb. pose proof (NoDup_groups _ (sorted_by_predicate l (bi_sorted c l Hb))) as Hnd.
  assert (Hnd' : NoDup (group_tree c <$> groups (to_rdf <$> l)).*1)
    by (rewrite <-list_fmap_compose; exact Hnd).
  case_decide as Hin.
  - apply list_elem_of_fmap in Hin as (t & -> & Ht).
    destruct (proj2 (elem_of_groups (to_rdf <$> l) (second t) (first t, third t))) as (ps & Hg & _).
    { exists (to_rdf t). split; [|done]. apply list_elem_of_fmap. by exists t. }
    unfold tree_of. rewrite (elem_of_list_to_map_1 _ (second t) (group_tree c (second t, ps)).2 Hnd').
    2: { apply list_elem_of_fmap. by exists (second t, ps). }
    transitivity (Some (pts (group_tree c (second t, ps)).2)); [done|]. f_equal.
    rewrite (proj2 (group_tree_points c l _ Hb Hg)). simpl.
    apply set_eq. intros q. rewrite elem_of_list_to_set, elem_of_points_of. split; [by exists ps|].
    intros (ps' & Hg' & Hq). by rewrite (NoDup_fst_inj _ _ ps ps' Hnd Hg Hg').
  - unfold tree_of. rewrite not_elem_of_list_to_map_1; [done|]. intros Hin'.
    apply Hin. rewrite <-list_fmap_compose in Hin'.
    apply list_elem_of_fmap in Hin' as ([p' ps] & -> & Hg). simpl.
    destruct (groups_nonempty _ _ _ Hg) as [q Hq].
    destruct (proj1 (elem_of_groups (to_rdf <$> l) p' q)) as (x & Hx & Hpx & _); [by exists ps|].
    apply list_elem_of_fmap in Hx as (t & -> & Ht). rewrite <-Hpx. apply list_elem_of_fmap. by exists t.
Qed.

Lemma bind_fmap {A B C} (g : A → B) (f : B → list C) l : (g <$> l) ≫= f = l ≫= λ x, f (g x).
Proof. induction l as [|x l IH]; [done|]. by rewrite fmap_cons, !bind_cons, IH. Qed.
Lemma feed_pending c l (f : TriplesFeedSBPFromIstream) : feeds (Z.of_nat (length l)) f (to_rdf <$> l) →
  pending (Z.of_nat (length l)) c (new_K2TreesFeedFromSortedTriplesFeed f c) (to_rdf <$> l).
Proof.
  intros Hf. unfold pending, new_K2TreesFeedFromSortedTriplesFeed. simpl. rewrite length_fmap.
  split_and!; [by destruct Hf|done|lia|lia|]. by destruct l.
Qed.

(** The builders' result on an input: the metadata returned and the bytes of the
    index file. *)
Lemma build_spec c l fuel : build_input c l → (length l ≤ fuel)%nat → ∃ m data,
  build fuel (get_reader (Some (triples_file l))) (os_end []) c (os_end []) = Ret (Some m, os_end data) ∧
  NoDup (predicates_ids m) ∧
  (Z.of_nat (length data) < 2 ^ 63 → ∀ mm, ∃ i, new_PredicatesIndexCacheMD (Some data) mm = Ret i ∧
     metadata i = m ∧ index_ok data i ∧
     ∀ p, main_points data i p = if decide (p ∈ second <$> l) then Some (points_of p l) else None).
Proof.
  intros Hb Hfuel. pose proof Hb as [Hc Hl Hn Hs _ _].
  destruct (new_sbp_feeds l Hl Hn) as (f & Ef & Hf).
  destruct (build_with_k2tree_feed_spec c fuel (new_K2TreesFeedFromSortedTriplesFeed f c)
    (group_tree c <$> groups (to_rdf <$> l))) as (m & data & E & Hids & Hopen).
  - apply (kf_feeds (Z.of_nat (length l)) Hn c); [by apply feed_pending|by rewrite length_fmap].
  - by apply build_trees_ok.
  - rewrite <-list_fmap_compose. by apply NoDup_groups, sorted_by_predicate.
  - rewrite length_fmap. pose proof (length_groups (to_rdf <$> l)). rewrite length_fmap in *. lia.
  - done.
  - exists m, data. split; [|split].
    + unfold build. unfold mbind at 1, st_bind at 1, lift. by rewrite Ef.
    + rewrite Hids, <-list_fmap_compose. by apply NoDup_groups, sorted_by_predicate.
    + intros HD mm. destruct (Hopen HD mm) as (i & Ei & Hm & Hi & Hpts). exists i.
      split_and!; [done..|]. intros p. by rewrite Hpts, tree_of_groups.
Qed.

(** C16: The builder makes an index of its input. From a file of triples sorted by
    predicate [build] writes a file that opens as a well-formed index with the
    metadata it returned, in which every predicate of the input has exactly its
    points and no other predicate has a tree. *)
Theorem build_correct c l fuel : build_input c l → (length l ≤ fuel)%nat → ∃ m data,
  build fuel (get_reader (Some (triples_file l))) (os_end []) c (os_end []) = Ret (Some m, os_end data) ∧
  (Z.of_nat (length data) < 2 ^ 63 → ∀ mm, ∃ i, new_PredicatesIndexCacheMD (Some data) mm = Ret i ∧
     metadata i = m ∧ index_ok data i ∧
     ∀ p, main_points data i p = if decide (p ∈ second <$> l) then Some (points_of p l) else None).
Proof. intros Hb Hf. destruct (build_spec c l fuel Hb Hf) as (m & data & E & _ & Hopen). by exists m, data. Qed.

(** *** The older builders *)

(** The state of the older builders after some triples, in the tree of [p]. *)
Definition scanning (c : K2TreeConfig) (p : Z) (t : K2TreeMixed) (s : scan_state) : Prop :=
  current s = Some (new_bulk t) ∧ current_predicate s = p ∧ first_triple s = false ∧
  already_added s = list_to_set (scanned_ids s).

Section older.
Context (c : K2TreeConfig) (step : TripleValue → scan_state → wr scan_state).
(** [step] is that of [build_orig], on the predicates that do not come back. *)
Hypothesis step_eq : ∀ x s o, (starts_tree s x = true → second x ∉ already_added s) →
  step x s o = orig_step c x s o.

Definition records (gs : list (Z * list (Z * Z))) : list Z :=
  gs ≫= λ g, tree_record (group_tree c g).2.

Lemma step_same p t s x o : scanning c p t s → second x = p → ∃ s',
  step x s o = Ret (s', o) ∧ scanning c p (run_op t (OpInsert (first x) (third x))) s' ∧
  scanned_ids s' = scanned_ids s.
Proof.
  intros (Hc & Hp' & Hf & Ha) <-. rewrite step_eq.
  2: { unfold starts_tree. rewrite Hp', Hf, bool_decide_true by done. done. }
  unfold orig_step, starts_tree. rewrite Hp', Hf, bool_decide_true by done. cbn [negb orb].
  unfold mbind, st_bind, lift, insert_current, mret, st_ret. rewrite Hc. cbn [deref mbind outcome_bind].
  rewrite bulk_insert_new. eexists. split; [done|]. by split_and!.
Qed.
Lemma step_new s x d : starts_tree s x = true → second x ∉ already_added s → already_added s = list_to_set (scanned_ids s) →
  (∀ op, current s = Some op → writable_tree c (bulk_tree op)) → ∃ s',
  step x s (os_end d) = Ret (s', os_end (d ++ match current s with Some op => tree_record (bulk_tree op) | None => [] end)) ∧
  scanning c (second x) (run_op (new_K2TreeMixed c) (OpInsert (first x) (third x))) s' ∧
  scanned_ids s' = scanned_ids s ++ [second x].
Proof.
  intros Hs Hni Ha Hw. rewrite step_eq by done. unfold orig_step. rewrite Hs.
  unfold start_tree, write_current. unfold mbind, st_bind, lift.
  assert (E : match current s with Some op => write_ktree_with_size (bulk_tree op) | None => mret () end (os_end d) =
    Ret ((), os_end (d ++ match current s with Some op => tree_record (bulk_tree op) | None => [] end))).
  { destruct (current s) as [op|]; [|by rewrite app_nil_r].
    by rewrite (emits_at _ _ _ _ (emits_tree_record c _ (Hw op eq_refl))). }
  rewrite E. cbn [insert_current deref mbind outcome_bind current fmap outcome_fmap mret st_ret].
  unfold insert_current. cbn [deref mbind outcome_bind current fmap outcome_fmap mret st_ret].
  rewrite bulk_insert_new. eexists. split; [reflexivity|]. split; [|done].
  split_and!; simpl; [done..|]. rewrite Ha, list_to_set_app_L. set_solver.
Qed.

Lemma scan_trees_spec fuel pre fd l p t s d :
  scanning c p t s → Forall triple_ok l → (length l ≤ fuel)%nat → 0 ≤ current_triple fd →
  in_u 64 (fd_size fd) → fd_size fd - current_triple fd = Z.of_nat (length l) →
  NoDup (scanned_ids s ++ (groups (span p (to_rdf <$> l)).2).*1) →
  writable_tree c (insert_points (span p (to_rdf <$> l)).1 t) →
  Forall (λ g, writable_tree c (group_tree c g).2) (groups (span p (to_rdf <$> l)).2) →
  scan_trees step fuel fd (stream_at pre (l ≫= triple_bytes)) s (os_end d) =
  Ret (Some (scanned_ids s ++ (groups (span p (to_rdf <$> l)).2).*1),
       os_end (d ++ tree_record (insert_points (span p (to_rdf <$> l)).1 t) ++
                    records (groups (span p (to_rdf <$> l)).2))).
Proof.
  revert fuel pre fd p t s d.
  induction l as [|x l IH]; intros fuel pre fd p t s d Hs Hok Hf H0' Hsz Hlen Hnd Hw Hws; simpl in Hlen.
  - unfold scan_trees. destruct Hs as (Hc & _). unfold mbind at 1, st_bind at 1.
    assert (E : scan_input step fuel fd (stream_at pre ([] ≫= triple_bytes)) s (os_end d) =
      Ret (Some s, os_end d)).
    { destruct fuel; simpl; unfold finished; by rewrite bool_decide_true by lia. }
    rewrite E. unfold mbind, st_bind, write_current. rewrite Hc. simpl.
    rewrite (emits_at _ _ _ _ (emits_tree_record c t Hw)). unfold mret, st_ret.
    by rewrite !app_nil_r.
  - destruct fuel as [|fuel]; [simpl in Hf; lia|]. apply Forall_cons in Hok as [Hx Hok].
    assert (Estep : ∀ s' d', step x s (os_end d) = Ret (s', os_end d') →
      scan_trees step (S fuel) fd (stream_at pre ((x :: l) ≫= triple_bytes)) s (os_end d) =
      scan_trees step fuel (mkFileData (fd_size fd) (current_triple fd + 1))
        (stream_at (pre ++ triple_bytes x) (l ≫= triple_bytes)) s' (os_end d')).
    { intros s' d' E. unfold scan_trees. unfold mbind at 1, st_bind at 1.
      cbn [scan_input]. unfold finished at 1. rewrite bool_decide_false by lia.
      unfold mbind at 1, st_bind at 1, lift at 1. rewrite read_triple_at by (done || width).
      cbn [fmap outcome_fmap]. unfold mbind at 1, st_bind at 1. by rewrite E. }
    rewrite fmap_cons in *. simpl span in *.
    change (Scanners.predicate (to_rdf x)) with (second x) in *.
    destruct (decide (p = second x)) as [->|Hne].
    + destruct (step_same (second x) t s x (os_end d) Hs eq_refl) as (s' & E & Hs' & Eids).
      rewrite (Estep _ _ E), <-Eids.
      apply (IH fuel _ _ (second x) _ s' d Hs' Hok); simpl; try done; try lia; [simpl in Hf; lia|by rewrite Eids].
    + assert (Egs : groups (to_rdf x :: (to_rdf <$> l)) =
        (second x, point_of (to_rdf x) :: (span (second x) (to_rdf <$> l)).1) ::
        groups (span (second x) (to_rdf <$> l)).2) by apply groups_span.
      simpl fst in *. simpl snd in *. rewrite Egs in *. apply Forall_cons in Hws as [Hw1 Hws].
      rewrite fmap_cons in *. simpl fst in *. destruct Hs as (Hc & Hp' & Hft & Ha).
      destruct (step_new s x d) as (s' & E & Hs' & Eids); [| |done| |].
      * unfold starts_tree. by rewrite Hp', bool_decide_false.
      * rewrite Ha, elem_of_list_to_set. apply NoDup_app in Hnd as (_ & Hni & _).
        intros Hin. apply (Hni _ Hin). by left.
      * intros op Hop. rewrite Hc in Hop. injection Hop as <-. exact Hw.
      * rewrite (Estep _ _ E), Hc. rewrite (IH fuel _ _ (second x) _ s' _ Hs' Hok).
        -- rewrite Eids, <-!(assoc_L (++)). unfold records. by rewrite bind_cons.
        -- simpl in Hf. lia.
        -- simpl. lia.
        -- done.
        -- simpl. lia.
        -- by rewrite Eids, <-(assoc_L (++)).
        -- exact Hw1.
        -- exact Hws.
Qed.

Lemma build_by_spec fuel l o : build_input c l → (length l ≤ fuel)%nat →
  build_by step fuel (get_reader (Some (triples_file l))) (os_end []) c o =
  (m ← write_index (groups (to_rdf <$> l)).*1 c (stream_at [] (records (groups (to_rdf <$> l))));
   mret (Some m)) o.
Proof.
  intros Hb Hf. pose proof Hb as [_ Hok Hn Hs _ _].
  assert (E : scan_trees step fuel (mkFileData (Z.of_nat (length l)) 0)
      (stream_at (be_encode 8 (Z.of_nat (length l))) (l ≫= triple_bytes)) (mkScan None [] 0 true 0 ∅) (os_end []) =
    Ret (Some (groups (to_rdf <$> l)).*1, os_end (records (groups (to_rdf <$> l))))).
  { destruct l as [|x l]; [by destruct fuel|]. destruct fuel as [|fuel]; [simpl in Hf; lia|].
    pose proof (build_trees_ok c _ Hb) as Hws. rewrite Forall_fmap in Hws.
    pose proof (NoDup_groups _ (sorted_by_predicate _ Hs)) as Hnd.
    rewrite fmap_cons, groups_span in *. change (Scanners.predicate (to_rdf x)) with (second x) in *.
    rewrite fmap_cons in *. apply Forall_cons in Hws as [[_ Hw] Hws]. apply Forall_cons in Hok as [Hx Hok].
    destruct (step_new (mkScan None [] 0 true 0 ∅) x []) as (s' & E & Hs' & Eids);
      [by apply orb_true_r|apply not_elem_of_empty|done|done|].
    unfold scan_trees. unfold mbind at 1, st_bind at 1. cbn [scan_input]. unfold finished at 1.
    rewrite bool_decide_false by (simpl; lia). unfold mbind at 1, st_bind at 1, lift at 1.
    rewrite read_triple_at by (done || simpl; width). cbn [fmap outcome_fmap].
    unfold mbind at 1, st_bind at 1. rewrite E. simpl in E, Eids.
    pose proof (scan_trees_spec fuel (be_encode 8 (Z.of_nat (length (x :: l))) ++ triple_bytes x)
      (mkFileData (Z.of_nat (length (x :: l))) 1) l (second x) _ s' [] Hs' Hok) as Hspec.
    unfold scan_trees in Hspec. unfold mbind at 1, st_bind at 1 in Hspec.
    cbn [fd_size current_triple] in *. change (0 + 1) with 1. simpl app in *. rewrite Hspec; rewrite ?Eids.
    - unfold records. by rewrite bind_cons.
    - simpl in Hf. lia.
    - lia.
    - done.
    - simpl. lia.
    - done.
    - exact Hw.
    - apply (Forall_impl _ _ _ Hws). by intros g [_ ?]. }
  unfold build_by. unfold mbind at 1, st_bind at 1, lift at 1.
  change (get_reader (Some (triples_file l))) with (stream_at [] (triples_file l)). unfold triples_file.
  rewrite (parses_at _ _ _ _ _ (parses_u64 _ Hn)). cbn [fmap outcome_fmap app].
  unfold mbind at 1, st_bind at 1, lift at 1. by rewrite E.
Qed.
End older.

Lemma build_eq c fuel l o : build_input c l → (length l ≤ fuel)%nat →
  build fuel (get_reader (Some (triples_file l))) (os_end []) c o =
  (m ← write_index (groups (to_rdf <$> l)).*1 c (stream_at [] (records c (groups (to_rdf <$> l))));
   mret (Some m)) o.
Proof.
  intros Hb Hfuel. pose proof Hb as [_ Hl Hn _ _ _].
  destruct (new_sbp_feeds l Hl Hn) as (f & Ef & Hf).
  unfold build. unfold mbind at 1, st_bind at 1, lift. rewrite Ef. cbn [fmap outcome_fmap].
  unfold build_with_feed, build_with_k2tree_feed. unfold mbind at 1, st_bind at 1, lift.
  pose proof (feed_pending c l f Hf) as Hpend.
  rewrite (write_trees_spec c fuel fuel _ (group_tree c <$> groups (to_rdf <$> l)) [] []).
  - cbn [fmap outcome_fmap app]. unfold records. by rewrite <-list_fmap_compose, bind_fmap.
  - apply (kf_feeds (Z.of_nat (length l)) Hn c); [done|by rewrite length_fmap].
  - by apply build_trees_ok.
  - rewrite length_fmap. pose proof (length_groups (to_rdf <$> l)). rewrite length_fmap in *. lia.
Qed.

Lemma debug_step_eq c x s o : (starts_tree s x = true → second x ∉ already_added s) →
  debug_step false c x s o = orig_step c x s o.
Proof.
  intros Hni. unfold debug_step, orig_step. unfold mbind, st_bind.
  destruct (starts_tree s x); [rewrite decide_False by auto|].
  all: repeat case_match; by simplify_eq/=.
Qed.

Lemma builders_eq c l fuel o : build_input c l → (length l ≤ fuel)%nat →
  let input_file := get_reader (Some (triples_file l)) in
  build_orig fuel input_file (os_end []) c o = build fuel input_file (os_end []) c o ∧
  build_debug false fuel input_file (os_end []) c o = build fuel input_file (os_end []) c o.
Proof.
  intros Hb Hf input_file. unfold input_file, build_orig, build_debug.
  rewrite build_eq, !build_by_spec by (done || (intros; by apply debug_step_eq)). done.
Qed.

(** C29: The three builders agree: on a file of triples sorted by predicate
    [build], the deprecated [build_orig] and [build_debug] without the slow check
    write the same index file and return the same metadata. *)
Theorem builders_agree c l fuel o : build_input c l → (length l ≤ fuel)%nat →
  let input_file := get_reader (Some (triples_file l)) in
  build_orig fuel input_file (os_end []) c o = build fuel input_file (os_end []) c o ∧
  build_debug false fuel input_file (os_end []) c o = build fuel input_file (os_end []) c o.
Proof. apply builders_eq. Qed.
End built.

(** ** An input of two predicates *)
Section witnesses.
#[local] Existing Instance toy_block_lib.
#[local] Existing Instance toy_block_laws.
#[local] Existing Instance Toy.toy_k2_lib.
#[local] Existing Instance toy_measure_laws.
#[local] Existing Instance toy_openssl.
#[local] Existing Instance toy_openssl_laws.
#[local] Existing Instance toy_heap.

Definition two_predicates : list TripleValue := [mkTriple 5 4 7; mkTriple 3 4 2; mkTriple 1 9 6].

Example two_groups : groups (to_rdf <$> two_predicates) = [(4, [(5, 7); (3, 2)]); (9, [(1, 6)])].
Proof. reflexivity. Qed.
(** The tree of either predicate has one leaf, with the pairs as its words. *)
Definition one_leaf (xs : list Z) : k2node :=
  K2Leaf (Block 0 (Z.of_nat (length xs)) 0 xs [] []).
Lemma one_leaf_wf xs n : Forall (in_u 32) xs → in_u 16 (Z.of_nat (length xs)) → in_u 64 n →
  tm_wf (mkTree (K2Node [Some (one_leaf xs); None; None; None]) n 8 1 256).
Proof.
  intros Hxs Hl Hn. split; [|split; [done|computed]].
  split; [done|]. split; [done|]. apply Forall_cons.
  split; [split; [apply (Block_wf 0 xs [] []); try done; computed|computed]|by repeat constructor].
Qed.

Lemma two_predicates_trees :
  Forall (λ g, let t := (group_tree (mkConfig 8 256 1) g).2 in tm_wf t ∧ in_u 64 (Z.of_nat (tm_mem t)) ∧
    in_u 64 (Z.of_nat (length (tree_bytes t)))) (groups (to_rdf <$> two_predicates)).
Proof.
  rewrite two_groups. constructor; [|constructor; [|constructor]].
  all: split; [|computed].
  - apply (one_leaf_wf [5; 7; 3; 2] 2); [repeat constructor|..]; computed.
  - apply (one_leaf_wf [1; 6] 1); [repeat constructor|..]; computed.
Qed.

Lemma two_predicates_input : build_input (mkConfig 8 256 1) two_predicates.
Proof.
  constructor.
  - by vm_compute.
  - repeat constructor; done.
  - by vm_compute.
  - repeat constructor.
  - repeat constructor; by vm_compute.
  - exact two_predicates_trees.
Qed.

Lemma build_correct_witness : ∃ m data,
  build 3 (get_reader (Some (triples_file two_predicates))) (os_end []) (mkConfig 8 256 1) (os_end []) =
    Ret (Some m, os_end data) ∧
  (Z.of_nat (length data) < 2 ^ 63 → ∀ mm, ∃ i, new_PredicatesIndexCacheMD (Some data) mm = Ret i ∧
     metadata i = m ∧ index_ok data i ∧
     ∀ p, main_points data i p =
       if decide (p ∈ second <$> two_predicates) then Some (points_of p two_predicates) else None).
Proof. apply (build_correct (mkConfig 8 256 1) two_predicates 3); [exact two_predicates_input|simpl; lia]. Defined.

Lemma builders_agree_witness :
  let input_file := get_reader (Some (triples_file two_predicates)) in
  build_orig 3 input_file (os_end []) (mkConfig 8 256 1) (os_end []) =
    build 3 input_file (os_end []) (mkConfig 8 256 1) (os_end []) ∧
  build_debug false 3 input_file (os_end []) (mkConfig 8 256 1) (os_end []) =
    build 3 input_file (os_end []) (mkConfig 8 256 1) (os_end []).
Proof. apply (builders_agree (mkConfig 8 256 1) two_predicates 3); [exact two_predicates_input|simpl; lia]. Defined.
End witnesses.
