(* ===== verification/Session.v ===== *)
(** * network/server/session: update sessions

    A client opens a session, sends it triples to add and to delete, and commits
    it. [UpdaterSession] translates the ids, collects the points of each
    predicate in two trees and hands them to the log of the manager. The ids
    manager is reached through the interface of NodeIds.v. *)
From S2P Require Import Prelude Streams Memory Blocks K2Tree Scanners Fetcher Hashing Replacement CachedSource NodeIds UpdatesLog PredicatesIndex Fic Manager.

Local Open Scope Z_scope.

(** ** UpdaterSession.cpp *)

(** Each map owns the trees and the bulk operations on them. *)
Notation tmap_t := (gmap Z K2TreeBulkOp).
Record UpdaterSession := mkSession {
  added_triples : tmap_t;
  removed_triples : tmap_t;
  updater_k2tree_config : K2TreeConfig
}.
Definition get_initial_update_k2tree_config : K2TreeConfig := mkConfig 32 1024 0.
Definition new_UpdaterSession : UpdaterSession := mkSession ∅ ∅ get_initial_update_k2tree_config.

Section session.
Context `{Hp : Heap, Blk : BlockLib, Lib : K2Lib, Ssl : OpenSSL}.
Context {G : Type} `{Nis : !NodeIdsManager G}.

(** The map with a tree for [predicate_id]; the reference that the code returns
    is to its entry. *)
Definition get_tree_bulk_op_id (config : K2TreeConfig) (map_src : tmap_t) (predicate_id : Z) : tmap_t :=
  match map_src !! predicate_id with
  | None => <[predicate_id := new_bulk (new_K2TreeMixed config)]> map_src
  | Some _ => map_src
  end.
Definition get_tree_bulk_op (config : K2TreeConfig) (map_src : tmap_t) (triple_resource : TripleNodeId)
    (g : G) : outcome (Z * tmap_t * G) :=
  '(mapped_predicate, g) ← nis_get_id_or_create (id_argument (t_predicate triple_resource)) g;
  Ret (mapped_predicate, get_tree_bulk_op_id config map_src mapped_predicate, g).

Definition add_triple (t : TripleNodeId) (s : UpdaterSession) (g : G) : outcome (UpdaterSession * G) :=
  '(mapped_predicate, added, g) ← get_tree_bulk_op (updater_k2tree_config s) (added_triples s) t g;
  '(mapped_subject, g) ← nis_get_id_or_create (id_argument (t_subject t)) g;
  '(mapped_object, g) ← nis_get_id_or_create (id_argument (t_object t)) g;
  Ret (mkSession (alter (bulk_insert mapped_subject mapped_object) mapped_predicate added)
         (removed_triples s) (updater_k2tree_config s), g).

(** The id of the object is read from the subject. *)
Definition delete_triple (t : TripleNodeId) (s : UpdaterSession) (g : G) : outcome (UpdaterSession * G) :=
  let predicate_id := t_predicate t in
  if decide (node_data predicate_id = 0) then Ret (s, g) else
  let subject_id := t_subject t in
  if decide (node_data subject_id = 0) then Ret (s, g) else
  let object_id := t_subject t in
  if decide (node_data object_id = 0) then Ret (s, g) else
  '(mapped_subject, g) ← nis_get_id_or_create (id_argument subject_id) g;
  '(mapped_predicate, g) ← nis_get_id_or_create (id_argument predicate_id) g;
  '(mapped_object, g) ← nis_get_id_or_create (id_argument object_id) g;
  let removed := get_tree_bulk_op_id (updater_k2tree_config s) (removed_triples s) mapped_predicate in
  Ret (mkSession (added_triples s)
         (alter (bulk_insert mapped_subject mapped_object) mapped_predicate removed)
         (updater_k2tree_config s), g).

(** The two loops of [log_updates]. *)
Definition update_of_added (removed : tmap_t) (acc : list K2TreeUpdates * gset Z)
    (kv : Z * K2TreeBulkOp) : list K2TreeUpdates * gset Z :=
  match removed !! kv.1 with
  | Some del => (acc.1 ++ [mkUpdates kv.1 (Some (bulk_tree kv.2)) (Some (bulk_tree del))], {[ kv.1 ]} ∪ acc.2)
  | None => (acc.1 ++ [mkUpdates kv.1 (Some (bulk_tree kv.2)) None], acc.2)
  end.
Definition update_of_removed (visited_del : gset Z) (k2tree_updates : list K2TreeUpdates)
    (kv : Z * K2TreeBulkOp) : list K2TreeUpdates :=
  if decide (kv.1 ∈ visited_del) then k2tree_updates
  else k2tree_updates ++ [mkUpdates kv.1 None (Some (bulk_tree kv.2))].
Definition session_updates (s : UpdaterSession) : list K2TreeUpdates :=
  let '(k2tree_updates, visited_del) :=
    fold_left (update_of_added (removed_triples s)) (entries (added_triples s)) ([], ∅) in
  fold_left (update_of_removed visited_del) (entries (removed_triples s)) k2tree_updates.

(** The write lock of the task processor is an empty object. *)
Definition commit_updates {C : Type} `{!FullyIndexedCache C PredicatesIndexCacheMD}
    (s : UpdaterSession) (w : PCMWithLog C) : outcome (PCMWithLog C) :=
  log (session_updates s) w.

(** What a client asks of a session. *)
Inductive session_op := AddTriple (t : TripleNodeId) | DeleteTriple (t : TripleNodeId).
Definition session_step (sg : UpdaterSession * G) (op : session_op) : outcome (UpdaterSession * G) :=
  match op with
  | AddTriple t => add_triple t sg.1 sg.2
  | DeleteTriple t => delete_triple t sg.1 sg.2
  end.
End session.

(** ** What a session collects *)

(** The points of a predicate in a list of (predicate, point). *)
Definition points_at (p : Z) (l : list (Z * (Z * Z))) : list (Z * Z) := (filter (λ x, x.1 = p) l).*2.
Lemma points_at_snoc p l q x : points_at p (l ++ [(q, x)]) =
  points_at p l ++ (if decide (q = p) then [x] else []).
Proof.
  unfold points_at. rewrite filter_app, fmap_app. f_equal. rewrite filter_cons. simpl. by case_decide.
Qed.

Section collecting.
Context `{Hp : Heap, Blk : BlockLib, !BlockLibLaws, Lib : K2Lib, !K2LibLaws, Ssl : OpenSSL}.

Definition session_qw : K2QStateWrapper := config_qw get_initial_update_k2tree_config.

(** A map holds, for each predicate of the list, a tree of its points. *)
Definition tree_holds (ps : list (Z * Z)) (b : option K2TreeBulkOp) : Prop :=
  match b with
  | Some b => ps ≠ [] ∧ ∃ t, b = new_bulk t ∧ tree_at session_qw t ∧ pts t = list_to_set ps
  | None => ps = []
  end.
Definition map_holds (m : tmap_t) (l : list (Z * (Z * Z))) : Prop :=
  ∀ p, tree_holds (points_at p l) (m !! p).

Lemma map_holds_insert m l p s o : map_holds m l → in_coords session_qw (s, o) →
  map_holds (alter (bulk_insert s o) p (get_tree_bulk_op_id get_initial_update_k2tree_config m p))
    (l ++ [(p, (s, o))]).
Proof.
  intros Hm Hin q. rewrite points_at_snoc.
  assert (Ht : ∃ t, get_tree_bulk_op_id get_initial_update_k2tree_config m p !! p = Some (new_bulk t) ∧
    tree_at session_qw t ∧ pts t = list_to_set (points_at p l) ∧
    ∀ q, q ≠ p → get_tree_bulk_op_id get_initial_update_k2tree_config m p !! q = m !! q).
  { unfold get_tree_bulk_op_id. specialize (Hm p). destruct (m !! p) as [b|] eqn:Eb.
    - destruct Hm as (_ & t & -> & Ht & Hpt). by exists t.
    - exists (new_K2TreeMixed get_initial_update_k2tree_config). rewrite lookup_insert_eq, Hm.
      destruct (new_tree_ok get_initial_update_k2tree_config) as [Hok Hnew].
      split_and!; [done|by split|done|]. intros q' Hne. by rewrite lookup_insert_ne. }
  destruct Ht as (t & Et & [Hok Hq] & Hpt & Hother). destruct (decide (p = q)) as [<-|Hne].
  - rewrite lookup_alter_eq, Et. simpl. rewrite bulk_insert_new. split; [by destruct (points_at p l)|].
    destruct (run_ops_spec [OpInsert s o] t Hok) as (Hok' & Hq' & Hp').
    { constructor; [|done]. by rewrite Hq. }
    cbn [fold_left] in Hok', Hq', Hp'. exists (run_op t (OpInsert s o)). split; [done|]. split; [split; [exact Hok'|by rewrite Hq']|].
    rewrite Hp', Hpt. rewrite list_to_set_app_L. simpl. set_solver.
  - rewrite lookup_alter_ne, Hother, app_nil_r by done. apply Hm.
Qed.

Lemma map_holds_nil : map_holds ∅ [].
Proof. intros p. by rewrite lookup_empty. Qed.
End collecting.

(** ** The steps of a session *)

Section steps.
Context `{Hp : Heap, Blk : BlockLib, !BlockLibLaws, Lib : K2Lib, !K2LibLaws, Ssl : OpenSSL}.
Context {G : Type} `{Nis : !NodeIdsManager G, !NodeIdsManagerLaws G}.
Implicit Types g : G.

(** The nodes an operation translates, and the (predicate, point) it stands for
    once they have ids. *)
Definition skipped (t : TripleNodeId) : Prop := node_data (t_predicate t) = 0 ∨ node_data (t_subject t) = 0.
#[global] Instance skipped_dec t : Decision (skipped t).
Proof. unfold skipped. apply _. Defined.
Definition op_nodes (op : session_op) : list NodeId :=
  match op with
  | AddTriple t => [t_predicate t; t_subject t; t_object t]
  | DeleteTriple t => if decide (skipped t) then [] else [t_predicate t; t_subject t]
  end.
Definition translate g (n : NodeId) : Z := nis_get_id (id_argument n) g.
Definition added_point g (op : session_op) : option (Z * (Z * Z)) :=
  match op with
  | AddTriple t => Some (translate g (t_predicate t), (translate g (t_subject t), translate g (t_object t)))
  | DeleteTriple _ => None
  end.
Definition deleted_point g (op : session_op) : option (Z * (Z * Z)) :=
  match op with
  | AddTriple _ => None
  | DeleteTriple t =>
      if decide (skipped t) then None
      else Some (translate g (t_predicate t), (translate g (t_subject t), translate g (t_subject t)))
  end.

Definition has_id g (n : NodeId) : Prop := ∃ i, nis_maps g (id_argument n) i.
Definition extends g g' : Prop := ∀ r i, nis_maps g r i → nis_maps g' r i.

Lemma translate_maps g n i : nis_ok g → nis_maps g (id_argument n) i → translate g n = i.
Proof. apply nis_get_id_law. Qed.
Lemma translate_extends g g' n : nis_ok g → nis_ok g' → extends g g' → has_id g n →
  translate g' n = translate g n.
Proof.
  intros Hg Hg' He [i Hi]. by rewrite (translate_maps g n i), (translate_maps g' n i) by auto.
Qed.
Lemma points_extend g g' op : nis_ok g → nis_ok g' → extends g g' → Forall (has_id g) (op_nodes op) →
  added_point g' op = added_point g op ∧ deleted_point g' op = deleted_point g op.
Proof.
  intros Hg Hg' He. destruct op as [t|t]; simpl; [|case_decide; [done|]];
    rewrite ?Forall_cons; intros; destruct_and?; by rewrite !(translate_extends g g') by done.
Qed.

(** The session after some operations. *)
Record session_ok g (ops : list session_op) (s : UpdaterSession) : Prop := {
  so_added : map_holds (added_triples s) (omap (added_point g) ops);
  so_removed : map_holds (removed_triples s) (omap (deleted_point g) ops);
  so_config : updater_k2tree_config s = get_initial_update_k2tree_config;
  so_ids : Forall (λ op, Forall (has_id g) (op_nodes op)) ops
}.
Lemma session_ok_extends g g' ops s : nis_ok g → nis_ok g' → extends g g' →
  session_ok g ops s → session_ok g' ops s.
Proof.
  intros Hg Hg' He [Ha Hr Hc Hi].
  assert (E : omap (added_point g') ops = omap (added_point g) ops ∧
              omap (deleted_point g') ops = omap (deleted_point g) ops).
  { clear Ha Hr. induction Hi as [|op ops Hop _ [IH1 IH2]]; [done|]. simpl.
    destruct (points_extend g g' op) as [-> ->]; [done..|].
    split; case_match; [by f_equal|done|by f_equal|done]. }
  destruct E as [E1 E2]. constructor; rewrite ?E1, ?E2; [done..|].
  weaken Hi. intros Hn. weaken Hn. intros [i ?]. exists i. auto.
Qed.

(** [r] is the session after the operations [ops] and [op]. *)
Definition steps_to (n : nat) g (ops : list session_op) (op : session_op)
    (r : outcome (UpdaterSession * G)) : Prop :=
  ∃ s' g', r = Ret (s', g') ∧ nis_ok g' ∧ nis_room (2 ^ 32) n g' ∧ extends g g' ∧
    session_ok g' (ops ++ [op]) s'.

Lemma add_triple_spec n g ops s t : nis_ok g → nis_room (2 ^ 32) (3 + n) g →
  Forall (λ m, nis_accepts (2 ^ 32) (id_argument m)) (op_nodes (AddTriple t)) → session_ok g ops s →
  steps_to n g ops (AddTriple t) (add_triple t s g).
Proof.
  intros Hg Hroom Hacc Hs. pose proof (so_config _ _ _ Hs) as Hcfg. simpl in Hacc.
  rewrite !Forall_cons in Hacc. destruct Hacc as (A1 & A2 & A3 & _).
  destruct (nis_create_law _ _ g _ Hg Hroom A1) as (ip & g1 & E1 & Hg1 & R1 & M1 & I1 & X1).
  destruct (nis_create_law _ _ g1 _ Hg1 R1 A2) as (is' & g2 & E2 & Hg2 & R2 & M2 & I2 & X2).
  destruct (nis_create_law _ _ g2 _ Hg2 R2 A3) as (io & g3 & E3 & Hg3 & R3 & M3 & I3 & X3).
  unfold add_triple, get_tree_bulk_op. rewrite E1. cbn [mbind outcome_bind]. rewrite E2.
  cbn [mbind outcome_bind]. rewrite E3. cbn [mbind outcome_bind]. rewrite Hcfg.
  eexists _, g3. split; [done|]. split; [done|]. split; [done|].
  assert (Hx : extends g g3) by (intros ???; auto). split; [done|].
  assert (T : translate g3 (t_predicate t) = ip ∧ translate g3 (t_subject t) = is' ∧
              translate g3 (t_object t) = io) by (split_and!; apply translate_maps; auto).
  destruct T as (T1 & T2 & T3).
  destruct (session_ok_extends g g3 ops s Hg Hg3 Hx Hs) as [Ha Hr _ Hi].
  constructor; simpl; rewrite ?omap_app; simpl; rewrite ?app_nil_r, ?T1, ?T2, ?T3; [|done|done|..].
  + by apply map_holds_insert.
  + apply Forall_app. split; [done|]. apply Forall_singleton. simpl.
    rewrite !Forall_cons, Forall_nil. split_and!; [by (exists ip; auto)|by (exists is'; auto)|by exists io|done].
Qed.
Lemma delete_triple_spec n g ops s t : nis_ok g → nis_room (2 ^ 32) (3 + n) g →
  Forall (λ m, nis_accepts (2 ^ 32) (id_argument m)) (op_nodes (DeleteTriple t)) → session_ok g ops s →
  steps_to n g ops (DeleteTriple t) (delete_triple t s g).
Proof.
  intros Hg Hroom Hacc Hs. pose proof (so_config _ _ _ Hs) as Hcfg. simpl in Hacc.
  unfold delete_triple, skipped in *. case_decide as Hsk.
  { exists s, g. split; [destruct Hsk; repeat case_decide; done|]. split; [done|].
    split; [by do 3 apply nis_room_S|]. split; [by intros ??|]. destruct Hs as [Ha Hr _ Hi].
    constructor; simpl; rewrite ?omap_app; simpl; unfold skipped;
      rewrite ?decide_True, ?app_nil_r by done; [done..|];
      apply Forall_app; (split; [done|]); apply Forall_singleton; simpl; unfold skipped;
      by rewrite decide_True. }
  rewrite !Forall_cons in Hacc. destruct Hacc as (A1 & A2 & _).
  rewrite !decide_False by tauto.
  destruct (nis_create_law _ _ g _ Hg Hroom A2) as (is' & g1 & E1 & Hg1 & R1 & M1 & I1 & X1).
  destruct (nis_create_law _ _ g1 _ Hg1 R1 A1) as (ip & g2 & E2 & Hg2 & R2 & M2 & I2 & X2).
  destruct (nis_create_law _ _ g2 _ Hg2 R2 A2) as (io & g3 & E3 & Hg3 & R3 & M3 & I3 & X3).
  rewrite E1. cbn [mbind outcome_bind]. rewrite E2. cbn [mbind outcome_bind]. rewrite E3.
  cbn [mbind outcome_bind]. rewrite Hcfg. eexists _, g3. split; [done|]. split; [done|]. split; [done|].
  assert (Hx : extends g g3) by (intros ???; auto). split; [done|].
  assert (T1 : translate g3 (t_predicate t) = ip) by (apply translate_maps; auto).
  assert (T2 : translate g3 (t_subject t) = io) by (apply translate_maps; auto).
  assert (io = is') as -> by (rewrite <-T2; apply translate_maps; auto).
  destruct (session_ok_extends g g3 ops s Hg Hg3 Hx Hs) as [Ha Hr _ Hi].
  constructor; simpl; rewrite ?omap_app; simpl; unfold skipped;
    rewrite ?decide_False, ?app_nil_r, ?T1, ?T2 by done; [done| |done|..].
  + by apply map_holds_insert.
  + apply Forall_app. split; [done|]. apply Forall_singleton. simpl. unfold skipped.
    rewrite decide_False, !Forall_cons, Forall_nil by done. split_and!; [by (exists ip; auto)|by exists is'|done].
Qed.

Lemma run_session_spec g ops : nis_ok g → nis_room (2 ^ 32) (3 * length ops) g →
  Forall (λ op, Forall (λ m, nis_accepts (2 ^ 32) (id_argument m)) (op_nodes op)) ops →
  ∃ s g', foldM session_step (new_UpdaterSession, g) ops = Ret (s, g') ∧ nis_ok g' ∧
    extends g g' ∧ session_ok g' ops s.
Proof.
  intros Hg Hroom Hacc.
  assert (Hgen : ∀ done s g, nis_ok g → nis_room (2 ^ 32) (3 * length ops) g → session_ok g done s →
    ∃ s' g', foldM session_step (s, g) ops = Ret (s', g') ∧ nis_ok g' ∧ extends g g' ∧
      session_ok g' (done ++ ops) s').
  { clear g Hg Hroom. induction Hacc as [|op ops Hop _ IH]; intros prior s g Hg Hroom Hs.
    { exists s, g. rewrite app_nil_r. split_and!; [done..|by intros ??|done]. }
    assert (Hstep : steps_to (3 * length ops) g prior op (session_step (s, g) op)).
    { replace (3 * length (op :: ops))%nat with (3 + 3 * length ops)%nat in Hroom by (simpl; lia).
      destruct op; [by apply add_triple_spec|by apply delete_triple_spec]. }
    destruct Hstep as (s1 & g1 & E1 & Hg1 & R1 & X1 & Hs1).
    destruct (IH (prior ++ [op]) s1 g1 Hg1 R1 Hs1) as (s' & g' & E & Hg' & X' & Hs').
    exists s', g'. simpl. rewrite E1. cbn [mbind outcome_bind]. rewrite <-app_assoc in Hs'.
    split_and!; [done..|intros ???; auto|done]. }
  apply (Hgen []); [done..|]. constructor; [apply map_holds_nil..|done|constructor].
Qed.
End steps.


(** ** The updates of a session *)

Lemma filter_fmap_iff {A B} (f : A → B) (P : B → Prop) (Q : A → Prop)
    `{∀ y, Decision (P y), ∀ x, Decision (Q x)} (l : list A) :
  (∀ x, P (f x) ↔ Q x) → filter P (f <$> l) = f <$> filter Q l.
Proof.
  intros Hpq. induction l as [|x l IH]; [done|]. rewrite fmap_cons, !filter_cons, IH.
  do 2 case_decide; try done; exfalso; naive_solver.
Qed.

Section updates.
Context `{Hp : Heap, Blk : BlockLib, !BlockLibLaws, Lib : K2Lib, !K2LibLaws, Ssl : OpenSSL}.

Definition added_update (removed : tmap_t) (kv : Z * K2TreeBulkOp) : K2TreeUpdates :=
  mkUpdates kv.1 (Some (bulk_tree kv.2)) (bulk_tree <$> removed !! kv.1).
Definition removed_update (kv : Z * K2TreeBulkOp) : K2TreeUpdates :=
  mkUpdates kv.1 None (Some (bulk_tree kv.2)).

Lemma added_loop removed l us visited :
  ∃ visited', fold_left (update_of_added removed) l (us, visited) =
    (us ++ (added_update removed <$> l), visited') ∧
    ∀ p, p ∈ visited' ↔ p ∈ visited ∨ (p ∈ l.*1 ∧ is_Some (removed !! p)).
Proof.
  revert us visited. induction l as [|kv l IH]; intros us visited.
  { exists visited. rewrite app_nil_r. split; [done|]. simpl. set_solver. }
  simpl. unfold update_of_added at 2, added_update at 1. simpl.
  destruct (removed !! kv.1) as [b|] eqn:Eb; simpl;
    (edestruct IH as (visited' & -> & Hv); exists visited'; rewrite <-app_assoc; split; [done|]).
  - intros p. rewrite Hv. set_unfold. split; [|naive_solver].
    intros [[->|?]|?]; [right; by eauto|by left|naive_solver].
  - intros p. rewrite Hv. set_unfold. split; [naive_solver|].
    intros [?|[[->|?] [? ?]]]; [by left|congruence|by right].
Qed.
Lemma removed_loop visited l us :
  fold_left (update_of_removed visited) l us =
    us ++ (removed_update <$> filter (λ kv, kv.1 ∉ visited) l).
Proof.
  revert us. induction l as [|kv l IH]; intros us; [by rewrite app_nil_r|].
  simpl. rewrite filter_cons. unfold update_of_removed at 2.
  case_decide as Hd; [rewrite decide_False by tauto; by rewrite IH|].
  by rewrite decide_True, IH, fmap_cons, <-app_assoc.
Qed.

Lemma session_updates_eq s : ∃ visited : gset Z,
  session_updates s = (added_update (removed_triples s) <$> entries (added_triples s)) ++
    (removed_update <$> filter (λ kv, kv.1 ∉ visited) (entries (removed_triples s))) ∧
  ∀ p, p ∈ visited ↔ is_Some (added_triples s !! p) ∧ is_Some (removed_triples s !! p).
Proof.
  unfold session_updates.
  destruct (added_loop (removed_triples s) (entries (added_triples s)) [] ∅) as (visited & -> & Hv).
  exists visited. rewrite removed_loop. split; [done|]. intros p. rewrite Hv. split.
  - intros [?|[([k b] & -> & Hel)%list_elem_of_fmap Hr]]; [set_solver|].
    apply elem_of_entries in Hel. split; [by eexists|done].
  - intros [[b Hb] Hr]. right. split; [|done]. apply list_elem_of_fmap.
    exists (p, b). by rewrite elem_of_entries.
Qed.

(** A session has at most one update of a predicate, with both its trees. *)
Lemma updates_of_session p s : updates_of p (session_updates s) =
  match added_triples s !! p, removed_triples s !! p with
  | None, None => []
  | a, r => [mkUpdates p (bulk_tree <$> a) (bulk_tree <$> r)]
  end.
Proof.
  destruct (session_updates_eq s) as (visited & -> & Hin). rewrite updates_of_app. unfold updates_of.
  rewrite (filter_fmap_iff (added_update _) _ (λ kv, kv.1 = p)).
  2: { intros kv. unfold added_update, real_update, get_kind. simpl.
       split; [by intros []|]. intros E. split; [done|]. by destruct (_ !! _). }
  rewrite (filter_fmap_iff removed_update _ (λ kv, kv.1 = p)) 
    by (intros kv; unfold real_update, get_kind; simpl; split; [by intros []|done]).
  assert (Hswap : ∀ l : list (Z * K2TreeBulkOp), filter (λ kv, kv.1 = p) (filter (λ kv, kv.1 ∉ visited) l) =
    filter (λ kv, kv.1 ∉ visited) (filter (λ kv, kv.1 = p) l)).
  { intros l. rewrite !list_filter_filter. apply list_filter_iff. intros kv. tauto. }
  rewrite Hswap, !filter_entries.
  specialize (Hin p).
  destruct (added_triples s !! p) as [a|] eqn:Ea, (removed_triples s !! p) as [r|] eqn:Er;
    simpl; rewrite ?filter_cons; simpl; try case_decide as Hd; simpl; unfold added_update; simpl;
    rewrite ?Er; try done; exfalso; rewrite Hin in Hd; destruct Hd; try naive_solver.
  all: by split; eexists.
Qed.
(** Its trees are those of the session. *)
Lemma session_trees u s : u ∈ session_updates s → ∃ p,
  (k2tree_add u = None ∨ k2tree_add u = bulk_tree <$> added_triples s !! p) ∧
  k2tree_del u = bulk_tree <$> removed_triples s !! p.
Proof.
  destruct (session_updates_eq s) as (visited & -> & _). rewrite elem_of_app, !list_elem_of_fmap.
  intros [([p b] & -> & Hel%elem_of_entries)|([p b] & -> & [_ Hel%elem_of_entries]%list_elem_of_filter)];
    exists p; simpl; rewrite Hel; auto.
Qed.
End updates.

(** ** Committing a session *)

Section commit.
Context `{Hp : Heap, Blk : BlockLib, !BlockLibLaws, Lib : K2Lib, !K2LibLaws, Ssl : OpenSSL}.
Context {G : Type} `{Nis : !NodeIdsManager G, !NodeIdsManagerLaws G}.
Context {C : Type} `{FC : !FullyIndexedCache C PredicatesIndexCacheMD, FCL : !FullyIndexedCacheLaws C}.
Implicit Types (g : G) (w : PCMWithLog C).

(** What the operations add to a predicate, and delete from it, with the ids
    that [g] gives. *)
Definition additions g (ops : list session_op) (p : Z) : gset (Z * Z) :=
  list_to_set (points_at p (omap (added_point g) ops)).
Definition deletions g (ops : list session_op) (p : Z) : gset (Z * Z) :=
  list_to_set (points_at p (omap (deleted_point g) ops)).
Definition touched g (ops : list session_op) (p : Z) : Prop :=
  points_at p (omap (added_point g) ops) ≠ [] ∨ points_at p (omap (deleted_point g) ops) ≠ [].
#[global] Instance touched_dec g ops p : Decision (touched g ops p).
Proof. unfold touched. apply _. Defined.
(** [P] with the additions and without the deletions. *)
Definition session_effect g (ops : list session_op) (p : Z) (P : option (gset (Z * Z))) : option (gset (Z * Z)) :=
  if decide (touched g ops p) then Some ((default ∅ P ∪ additions g ops p) ∖ deletions g ops p) else P.

Lemma tree_holds_points ps b : tree_holds ps b →
  opt_pts (bulk_tree <$> b) = list_to_set ps ∧ (b = None ↔ ps = []).
Proof. destruct b as [b|]; simpl; [|by intros ->]. intros (Hne & t & -> & _ & Hpt). by split. Qed.

(** A deletion takes away points of the diagonal only. *)
Lemma deletions_diagonal g ops p x y : (x, y) ∈ deletions g ops p → x = y.
Proof.
  unfold deletions, points_at. rewrite elem_of_list_to_set.
  intros ([q [a b]] & [= <- <-] & [_ Hd]%list_elem_of_filter)%list_elem_of_fmap.
  apply list_elem_of_omap in Hd as ([t|t] & _ & Ht); [done|]. simpl in Ht. case_decide; by simplify_eq.
Qed.
Lemma session_effect_off_diagonal g ops p P x y : x ≠ y →
  (x, y) ∈ default ∅ (session_effect g ops p P) ↔ (x, y) ∈ default ∅ P ∪ additions g ops p.
Proof.
  intros Hne. unfold session_effect. case_decide as Ht; simpl.
  - rewrite elem_of_difference. split; [tauto|]. intros Hin. split; [done|]. intros Hd. by apply deletions_diagonal in Hd.
  - unfold touched, additions in *. destruct (points_at p (omap (added_point g) ops)) eqn:E; [set_solver|].
    destruct Ht. by left.
Qed.
Lemma session_applies g ops s p P : session_ok g ops s →
  apply_updates (updates_of p (session_updates s)) P = session_effect g ops p P.
Proof.
  intros [Ha Hr _ _]. rewrite updates_of_session. unfold session_effect, touched, additions, deletions.
  destruct (tree_holds_points _ _ (Ha p)) as [Pa Na], (tree_holds_points _ _ (Hr p)) as [Pr Nr].
  assert (He : apply_updates [mkUpdates p (bulk_tree <$> added_triples s !! p) (bulk_tree <$> removed_triples s !! p)] P =
    Some ((default ∅ P ∪ list_to_set (points_at p (omap (added_point g) ops))) ∖
          list_to_set (points_at p (omap (deleted_point g) ops)))).
  { unfold apply_updates, fold_effects, effect, update_of. simpl. by rewrite Pa, Pr. }
  destruct (added_triples s !! p) as [a|] eqn:Ea, (removed_triples s !! p) as [r|] eqn:Er.
  1-3: rewrite decide_True; [exact He|rewrite <-Na, <-Nr; auto].
  rewrite decide_False; [done|]. rewrite <-Na, <-Nr. tauto.
Qed.

Lemma tree_at_32 c t : 32 ≤ treedepth c → tree_at session_qw t → tree_fits (config_qw c) t.
Proof.
  intros Hd Ht%tree_at_fits. destruct Ht as [Hok Hf]. split; [done|].
  intros q [H1 H2]%Hf. unfold in_coords in *. simpl in *.
  pose proof (Z.pow_le_mono_r 2 32 (treedepth c)). lia.
Qed.
Lemma session_loggable c g ops s : 32 ≤ treedepth c → session_ok g ops s →
  Forall update_wf (session_updates s) → Forall (loggable (config_qw c)) (session_updates s).
Proof.
  intros Hd [Ha Hr _ _] Hwf. rewrite Forall_forall in *. intros u Hu. split; [by apply Hwf|].
  assert (Hfit : ∀ ps b, tree_holds ps b → opt_fits (config_qw c) (bulk_tree <$> b)).
  { intros ps [b|]; [|done]. intros (_ & t & -> & Ht & _). by apply tree_at_32. }
  destruct (session_trees u s Hu) as (p & Hadd & Hdel). unfold update_fits. simpl. rewrite Hdel.
  split; [destruct Hadd as [-> | ->]; [done|]|]; by eapply Hfit.
Qed.

(** Committing a session applies its operations. The terms of its triples
    get ids, which translate back to them; each predicate of the session ends
    with the points it had and those of the triples added, without those of the
    triples deleted, and the others keep theirs. What a deletion takes away is the
    point of the subject with itself. *)
Theorem session_correct d ops g w :
  nis_ok g → nis_room (2 ^ 32) (3 * length ops) g →
  Forall (λ op, Forall (λ n, nis_accepts (2 ^ 32) (id_argument n)) (op_nodes op)) ops →
  host_ok w → index_ok d (index_of w) → update_logger (index_of w) = true → log_open w →
  32 ≤ treedepth (k2tree_config (index_of w)) →
  ∃ s g', foldM session_step (new_UpdaterSession, g) ops = Ret (s, g') ∧
    (∀ op n, op ∈ ops → n ∈ op_nodes op →
       (nis_get_real_id (translate g' n) g').1 = id_argument n) ∧
    (Forall update_wf (session_updates s) →
     ∃ w', commit_updates s w = Ret w' ∧ host_ok w' ∧ index_ok d (index_of w') ∧
       ∀ p, index_points d w' p = session_effect g' ops p (index_points d w p)).
Proof.
  intros Hg Hroom Hacc Hw Hi Hul Ho Hd.
  destruct (run_session_spec g ops Hg Hroom Hacc) as (s & g' & E & Hg' & _ & Hs).
  exists s, g'. split; [done|]. split.
  { intros op n Hop Hn. pose proof (so_ids _ _ _ Hs) as Hids. rewrite Forall_forall in Hids.
    specialize (Hids op Hop). rewrite Forall_forall in Hids. destruct (Hids n Hn) as [i Hm].
    rewrite (translate_maps g' n i) by done.
    by destruct (nis_get_real_id_law g' _ i Hg' Hm) as (e & -> & _). }
  intros Hwf. destruct (log_map_spec d (session_updates s) w) as (w' & Ew & Hw' & Hi' & Hp'); [done..| |].
  { by apply (session_loggable _ g' ops). }
  exists w'. split_and!; [done..|]. intros p. by rewrite Hp', (session_applies g' ops).
Qed.

(** C33: Deleting a triple of the index does not delete it: the id of the object
    is read from the subject, so unless they are equal the point of the triple
    stays, and the point of the subject with itself is deleted instead. *)
Theorem deletion_misses_triple d t g w p i j P :
  nis_ok g → nis_room (2 ^ 32) 3 g →
  Forall (λ n, nis_accepts (2 ^ 32) (id_argument n)) (op_nodes (DeleteTriple t)) →
  nis_maps g (id_argument (t_predicate t)) p → nis_maps g (id_argument (t_subject t)) i →
  nis_maps g (id_argument (t_object t)) j → i ≠ j → ¬ skipped t →
  host_ok w → index_ok d (index_of w) → update_logger (index_of w) = true → log_open w →
  32 ≤ treedepth (k2tree_config (index_of w)) → index_points d w p = Some P → (i, j) ∈ P →
  ∃ s g', delete_triple t new_UpdaterSession g = Ret (s, g') ∧
    (Forall update_wf (session_updates s) →
     ∃ w' P', commit_updates s w = Ret w' ∧ index_points d w' p = Some P' ∧ (i, j) ∈ P' ∧ (i, i) ∉ P').
Proof.
  intros Hg Hroom Hacc Mp Mi Mj Hne Hsk Hw Hi Hul Ho Hd HP Hin.
  destruct (delete_triple_spec 0 g [] new_UpdaterSession t Hg Hroom Hacc)
    as (s & g' & E & Hg' & _ & Hx & Hs);
    [constructor; [apply map_holds_nil|apply map_holds_nil|done|constructor]|].
  exists s, g'. split; [done|]. intros Hwf.
  destruct (log_map_spec d (session_updates s) w) as (w' & Ew & _ & _ & Hp'); [done..| |].
  { by apply (session_loggable _ g' ([] ++ [DeleteTriple t])). }
  exists w'. eexists. rewrite Hp', HP, (session_applies g' ([] ++ [DeleteTriple t])) by done.
  assert (Hdel : deletions g' [DeleteTriple t] p = {[ (i, i) ]} ∧ touched g' [DeleteTriple t] p).
  { unfold deletions, touched. simpl. destruct (decide (skipped t)); [done|].
    rewrite (translate_maps g' _ p), (translate_maps g' _ i) by auto. unfold points_at.
    rewrite filter_cons, decide_True by done. simpl. split; [set_solver|by right]. }
  destruct Hdel as [Hdel Ht]. unfold session_effect. simpl app. rewrite decide_True, Hdel by done.
  split; [done|]. split; [done|]. unfold additions. simpl. set_solver.
Qed.
End commit.

(** ** Instances of the theorems *)
Section witnesses.
#[local] Existing Instance toy_block_lib.
#[local] Existing Instance toy_block_laws.
#[local] Existing Instance Toy.toy_k2_lib.
#[local] Existing Instance toy_openssl.
#[local] Existing Instance toy_heap.

(** Predicate 2, the id of 20, has the point of the terms 10 and 30. *)
Definition wide_tree : K2TreeMixed := mkTree (Toy.wrap 1 (Toy.pack [(0, 1)])) 1 32 1 256.
Definition wide_meta : PredicatesCacheMetadata := mkCacheMetadata ∅ [] (mkConfig 32 256 1).
Definition wide_file : list Z := header_bytes wide_meta.
Definition wide_index : PredicatesIndexCacheMD :=
  mkIndex (Some wide_file) (get_reader (Some wide_file)) wide_meta {[ 2 := Some wide_tree ]} {[ 2 ]}
    {[ 2 ]} (mkConfig 32 256 1) ∅ None true empty_manager.
Definition wide_manager : PCMWithLog FullyIndexedCacheImpl :=
  mkLogger (mkPCM wide_index FICFactory_create) None None (Some (be_encode 4 0)) None None
    (get_reader_writer (Some (be_encode 4 0))) ∅ (Some 0).

Lemma wide_good : good_tree (mkConfig 32 256 1) wide_tree.
Proof.
  split; [|done]. split; [|computed].
  change (Toy.valid (mkst 32 1 256) (root wide_tree)).
  apply (bool_decide_unpack (_ ∧ _)). by vm_compute.
Qed.
Lemma wide_index_ok : index_ok wide_file wide_index.
Proof.
  constructor; simpl; try done.
  - by exists 0%nat.
  - intros p. rewrite lookup_empty. split; [by intros ?%not_elem_of_nil|by intros []].
  - intros p o [<- <-]%lookup_singleton_Some. exists wide_tree. split; [done|exact wide_good].
  - intros p t [<- _]%lookup_singleton_Some. set_solver.
  - intros p ->%elem_of_singleton. by eexists.
  - intros p ->%elem_of_singleton. split; [set_solver|computed].
  - intros p [? [<- _]%lookup_singleton_Some]. left. set_solver.
Qed.
Lemma wide_ready : host_ok wide_manager ∧ log_open wide_manager.
Proof.
  split; [split|].
  - apply FICFactory_ok. eapply index_fetcher_ok, wide_index_ok.
  - exists []. constructor; [|done|by constructor|done]. intros p. simpl. by rewrite lookup_empty.
  - constructor; [by right|]. by exists 0.
Qed.
Lemma wide_ids : nis_ok toy_manager ∧ nis_room (2 ^ 32) 9 toy_manager.
Proof. split; [split; [exact toy_manager_ok|]|]; computed. Qed.

Definition terms (s p o : Z) : TripleNodeId := mkTripleNodeId (mkNodeId s) (mkNodeId p) (mkNodeId o).
Definition toy_session : list session_op :=
  [AddTriple (terms 10 20 30); AddTriple (terms 55 20 10); DeleteTriple (terms 30 20 10)].

Lemma session_correct_witness :
  ∃ s g', foldM session_step (new_UpdaterSession, toy_manager) toy_session = Ret (s, g') ∧
    (∀ op n, op ∈ toy_session → n ∈ op_nodes op →
       (nis_get_real_id (translate g' n) g').1 = id_argument n) ∧
    (Forall update_wf (session_updates s) →
     ∃ w', commit_updates s wide_manager = Ret w' ∧ host_ok w' ∧ index_ok wide_file (index_of w') ∧
       ∀ p, index_points wide_file w' p =
         session_effect g' toy_session p (index_points wide_file wide_manager p)).
Proof.
  apply (session_correct wide_file toy_session toy_manager wide_manager).
  - apply wide_ids.
  - apply wide_ids.
  - by repeat constructor.
  - apply wide_ready.
  - exact wide_index_ok.
  - done.
  - apply wide_ready.
  - done.
Defined.

Lemma deletion_misses_triple_witness :
  ∃ s g', delete_triple (terms 10 20 30) new_UpdaterSession toy_manager = Ret (s, g') ∧
    (Forall update_wf (session_updates s) →
     ∃ w' P', commit_updates s wide_manager = Ret w' ∧ index_points wide_file w' 2 = Some P' ∧
       (0, 1) ∈ P' ∧ (0, 0) ∉ P').
Proof.
  apply (deletion_misses_triple wide_file (terms 10 20 30) toy_manager wide_manager 2 0 1 {[ (0, 1) ]}).
  - apply wide_ids.
  - split; computed.
  - by repeat constructor.
  - right. done.
  - left. split; computed.
  - left. split; computed.
  - done.
  - unfold skipped. simpl. intros []; done.
  - apply wide_ready.
  - exact wide_index_ok.
  - done.
  - apply wide_ready.
  - done.
  - apply (bool_decide_unpack _). by vm_compute.
  - set_solver.
Defined.
End witnesses.
