(* ===== verification/Streaming.v ===== *)
(** * network/streaming: the streamers of one triple pattern

    A client asks for the triples that match a pattern and receives them in
    parts. Three streamers answer: one scans the tree lazily
    ([TriplePatternMatchingStreamer]), one scans it at once and sorts
    ([TPMSortedStreamer]), one scans an indexed predicate
    ([StreamerFromCachedSource]). The terms of the pattern and of the answers are
    external ids. *)
From S2P Require Import Prelude Streams Memory Blocks K2Tree Scanners Fetcher CachedSource NodeIds.

Local Open Scope Z_scope.

(** ** proto/response_msg.proto: the answers to a pattern *)

(** [matching_values]: a row of encoded ids per match. *)
Record StreamOfTriplesMatchingPatternResponse := mkStream {
  sr_channel_id : Z;
  sr_pattern_channel_id : Z;
  matching_values : list (list Z);
  last_result : bool;
  has_exact_response : bool;
  exact_response : bool
}.

(** ** Reading ids *)

(** [get_real_id] with the caller's [err_code] variable. *)
Definition real_id_of {G} `{NodeIdsManager G} (mapped_value : Z) (err_code : NidsErrCode) (g : G)
    : Z * NidsErrCode :=
  let '(v, e) := nis_get_real_id mapped_value g in (v, default err_code e).

(** A part of an answer: rows are added until they exceed the threshold. A row
    is what a matching pair becomes, [None] when it is skipped. *)
Section part.
Context {T : Type} `{Scanner T}.
Variables (row : Z * Z → option (list Z)) (threshold_part_size : Z).

Fixpoint fill_part (fuel : nat) (scanner : T) (acc_size : Z) (values : list (list Z))
    : outcome (option (list (list Z) * T)) :=
  match fuel with
  | O => Ret None
  | S fuel =>
      '(more, scanner) ← sc_has_next scanner;
      if (more : bool) then
        '(matching_pair_so, scanner) ← sc_next scanner;
        match row matching_pair_so with
        | None => fill_part fuel scanner acc_size values
        | Some match_ =>
            let acc_size := u64 (acc_size + 8 * Z.of_nat (length match_)) in
            if threshold_part_size <? acc_size then Ret (Some (values ++ [match_], scanner))
            else fill_part fuel scanner acc_size (values ++ [match_])
        end
      else Ret (Some (values, scanner))
  end.
End part.

(** ** I_TRMatchingStreamer.hpp *)

(** A streamer refers to the cache: the ids manager of type [G], which it does
    not change, and the fetcher of type [F]. *)
Class I_TRMatchingStreamer (G F S : Type) := {
  get_next_response : nat → G → S → F →
    outcome (option (StreamOfTriplesMatchingPatternResponse * S * F));
  get_pattern_channel_id : S → Z;
  get_channel_id : S → Z;
  all_sent : S → bool
}.

Section streamers.
Context `{Lib : K2Lib} {G : Type} `{Nis : !NodeIdsManager G} {F : Type} `{Fet : !K2TreeFetcher F}.

(** ** TriplePatternMatchingStreamer.cpp *)

Record TriplePatternMatchingStreamer := mkTPM {
  tpm_channel_id : Z;
  tpm_pattern_channel_id : Z;
  tpm_pattern : TripleNodeId;
  tpm_threshold : Z;
  tpm_first : bool;
  tpm_scanner : K2TreeScanner;
  tpm_subject_variable : bool;
  tpm_object_variable : bool;
  tpm_finished : bool
}.

(** The value, when it has an external id; the rows are [long]s. *)
Definition add_real_value (mapped_value : Z) (g : G) (data : list Z) : bool * list Z :=
  let '(original_value, err_code) := real_id_of mapped_value SUCCESS_ERR_CODE g in
  if decide (err_code ≠ SUCCESS_ERR_CODE) then (false, data) else (true, data ++ [u64 (s64 original_value)]).

(** A value without an external id is left out of its row. *)
Definition tpm_row (subject_variable object_variable : bool) (g : G) (p : Z * Z) : option (list Z) :=
  let data := if subject_variable then (add_real_value p.1 g []).2 else [] in
  Some (if object_variable then (add_real_value p.2 g data).2 else data).

(** The scanner of a pattern on the tree of its predicate. *)
Definition pattern_scanner (triple_pattern_node : TripleNodeId) (k2tree : K2TreeMixed) (g : G)
    : K2TreeScanner :=
  let subject_variable := is_any (t_subject triple_pattern_node) in
  let object_variable := is_any (t_object triple_pattern_node) in
  if subject_variable && object_variable then create_full_scanner k2tree
  else if subject_variable then
    create_band_scanner (nis_get_id (id_argument (t_object triple_pattern_node)) g) ROW_BAND_TYPE k2tree
  else if object_variable then
    create_band_scanner (nis_get_id (id_argument (t_subject triple_pattern_node)) g) COLUMN_BAND_TYPE k2tree
  else create_empty_scanner k2tree.

Definition initialize_scanner (triple_pattern_node : TripleNodeId) (g : G) (f : F)
    : outcome (K2TreeScanner * F) :=
  '(fetch_result, f) ← fetch_k2tree (nis_get_id (id_argument (t_predicate triple_pattern_node)) g) f;
  if negb (exists_tree fetch_result) then Ret (NullScanner, f)
  else
    k2tree ← fetch_get fetch_result;
    Ret (pattern_scanner triple_pattern_node k2tree g, f).

Definition new_TriplePatternMatchingStreamer (channel_id pattern_channel_id : Z)
    (triple_pattern_node : TripleNodeId) (threshold_part_size : Z) (g : G) (f : F)
    : outcome (TriplePatternMatchingStreamer * F) :=
  '(scanner, f) ← initialize_scanner triple_pattern_node g f;
  Ret (mkTPM channel_id pattern_channel_id triple_pattern_node threshold_part_size true scanner
         (is_any (t_subject triple_pattern_node)) (is_any (t_object triple_pattern_node)) false, f).

Definition tpm_move (s : TriplePatternMatchingStreamer) (scanner : K2TreeScanner) (finished : bool)
    : TriplePatternMatchingStreamer :=
  mkTPM (tpm_channel_id s) (tpm_pattern_channel_id s) (tpm_pattern s) (tpm_threshold s) false scanner
    (tpm_subject_variable s) (tpm_object_variable s) finished.

(** An exact match asks the tree about the ids of the pattern as they are. *)
Definition tpm_get_next_response (fuel : nat) (g : G) (s : TriplePatternMatchingStreamer)
    : outcome (option (StreamOfTriplesMatchingPatternResponse * TriplePatternMatchingStreamer)) :=
  if negb (tpm_subject_variable s) && negb (tpm_object_variable s) then
    k2tree ← get_tree (tpm_scanner s);
    Ret (Some (mkStream (tpm_channel_id s) (tpm_pattern_channel_id s) [] true true
                 (has (id_argument (t_subject (tpm_pattern s))) (id_argument (t_object (tpm_pattern s))) k2tree),
               tpm_move s (tpm_scanner s) true))
  else
    m ← fill_part (tpm_row (tpm_subject_variable s) (tpm_object_variable s) g) (tpm_threshold s)
          fuel (tpm_scanner s) 0 [];
    match m with
    | None => Ret None
    | Some (values, scanner) =>
        let last := negb (has_next scanner) in
        Ret (Some (mkStream (tpm_channel_id s) (tpm_pattern_channel_id s) values last false false,
                   tpm_move s scanner (last || tpm_finished s)))
    end.
#[global] Instance tpm_streamer : I_TRMatchingStreamer G F TriplePatternMatchingStreamer := {|
  get_next_response fuel g s f :=
    m ← tpm_get_next_response fuel g s;
    Ret (option_map (λ rs, (rs.1, rs.2, f)) m);
  get_pattern_channel_id := tpm_pattern_channel_id;
  get_channel_id := tpm_channel_id;
  all_sent := tpm_finished
|}.

(** ** TPMSortedStreamer.cpp *)

(** [DataResults]. *)
Record DataResults := mkData { pair_results : list (Z * Z); single_results : list Z }.
(** The streamer keeps a reference to the pattern it was created with: [so_pattern]
    is [None] once that object is gone. *)
Record TPMSortedStreamer := mkSorted {
  so_channel_id : Z;
  so_pattern_channel_id : Z;
  so_pattern : option TripleNodeId;
  so_threshold : Z;
  data_results : DataResults;
  current_sent : Z
}.

(** One pair in the loop of [get_all_data]; [err_code] lives across the loop. *)
Definition collect_pair (subject_variable object_variable : bool) (g : G)
    (acc : DataResults * NidsErrCode) (p : Z * Z) : DataResults * NidsErrCode :=
  let '(data, err_code) := acc in
  if subject_variable && object_variable then
    let '(subject, err_code) := real_id_of p.1 err_code g in
    if decide (err_code ≠ SUCCESS_ERR_CODE) then (data, err_code)
    else
      let '(object, err_code) := real_id_of p.2 err_code g in
      if decide (err_code ≠ SUCCESS_ERR_CODE) then (data, err_code)
      else (mkData (pair_results data ++ [(subject, object)]) (single_results data), err_code)
  else
    let '(v, err_code) := real_id_of (if subject_variable then p.1 else p.2) err_code g in
    if decide (err_code ≠ SUCCESS_ERR_CODE) then (data, err_code)
    else (mkData (pair_results data) (single_results data ++ [v]), err_code).
Definition get_all_data (fuel : nat) (subject_variable object_variable : bool) (g : G)
    (scanner : K2TreeScanner) : outcome (option DataResults) :=
  m ← (while_scan fuel (λ acc p, Ret (collect_pair subject_variable object_variable g acc p))
         (mkData [] [], SUCCESS_ERR_CODE) scanner : outcome (option (DataResults * NidsErrCode)));
  Ret (option_map fst m).

(** The order of [std::pair]. *)
Definition pair_le (a b : Z * Z) : Prop := a.1 < b.1 ∨ (a.1 = b.1 ∧ a.2 ≤ b.2).
#[global] Instance pair_le_dec a b : Decision (pair_le a b).
Proof. unfold pair_le. apply _. Defined.
Definition sort_data (data : DataResults) : DataResults :=
  mkData (merge_sort pair_le (pair_results data)) (merge_sort Z.le (single_results data)).

Definition new_TPMSortedStreamer (fuel : nat) (channel_id pattern_channel_id : Z)
    (triple_pattern_node : TripleNodeId) (threshold_part_size : Z) (g : G) (f : F)
    : outcome (option (TPMSortedStreamer * F)) :=
  let streamer := mkSorted channel_id pattern_channel_id (Some triple_pattern_node) threshold_part_size in
  '(fetch_result, f) ← fetch_k2tree (nis_get_id (id_argument (t_predicate triple_pattern_node)) g) f;
  if negb (exists_tree fetch_result) then Ret (Some (streamer (mkData [] []) 0, f))
  else
    k2tree ← fetch_get fetch_result;
    m ← get_all_data fuel (is_any (t_subject triple_pattern_node)) (is_any (t_object triple_pattern_node)) g
          (pattern_scanner triple_pattern_node k2tree g);
    match m with
    | None => Ret None
    | Some data => Ret (Some (streamer (sort_data data) 0, f))
    end.

(** The loop of a response, from position [i] on. *)
Fixpoint sorted_part (fuel : nat) (threshold_part_size : Z) (rows : list (list Z)) (i acc_size : Z)
    (values : list (list Z)) : list (list Z) * Z :=
  match fuel, rows with
  | S fuel, row :: rows =>
      if acc_size <? threshold_part_size
      then sorted_part fuel threshold_part_size rows (u64 (i + 1))
             (u64 (acc_size + 8 * Z.of_nat (length row)))
             (values ++ [row])
      else (values, i)
  | _, _ => (values, i)
  end.
(** [get_next_pairs_response] and [get_next_single_response]: neither moves
    [current_sent]. *)
Definition sorted_response (s : TPMSortedStreamer) (rows : list (list Z))
    : StreamOfTriplesMatchingPatternResponse :=
  let '(values, i) := sorted_part (length rows) (so_threshold s) (drop (Z.to_nat (current_sent s)) rows)
                        (current_sent s) 0 [] in
  mkStream (so_channel_id s) (so_pattern_channel_id s) values
    (bool_decide (Z.of_nat (length rows) ≤ i)) false false.
Definition pair_rows (d : DataResults) : list (list Z) := (λ p, [p.1; p.2]) <$> pair_results d.
Definition single_rows (d : DataResults) : list (list Z) := (λ v, [v]) <$> single_results d.
(** The answer when nothing was collected, whatever the pattern. *)
Definition get_empty_response (s : TPMSortedStreamer) (g : G) (f : F)
    : outcome (StreamOfTriplesMatchingPatternResponse * F) :=
  triple_pattern_node ← deref (so_pattern s);
  '(fetch_result, f) ← fetch_k2tree (nis_get_id (id_argument (t_predicate triple_pattern_node)) g) f;
  k2tree ← fetch_get fetch_result;
  Ret (mkStream (so_channel_id s) (so_pattern_channel_id s) [] true true
         (has (id_argument (t_subject triple_pattern_node)) (id_argument (t_object triple_pattern_node)) k2tree), f).
Definition sorted_get_next_response (s : TPMSortedStreamer) (g : G) (f : F)
    : outcome (StreamOfTriplesMatchingPatternResponse * F) :=
  match pair_results (data_results s), single_results (data_results s) with
  | _ :: _, _ => Ret (sorted_response s (pair_rows (data_results s)), f)
  | [], _ :: _ => Ret (sorted_response s (single_rows (data_results s)), f)
  | [], [] => get_empty_response s g f
  end.
Definition sorted_all_sent (s : TPMSortedStreamer) : bool :=
  let pairs := pair_results (data_results s) in
  let singles := single_results (data_results s) in
  (negb (bool_decide (pairs = [])) && bool_decide (Z.of_nat (length pairs) ≤ current_sent s)) ||
  (negb (bool_decide (singles = [])) && bool_decide (Z.of_nat (length singles) ≤ current_sent s)).
#[global] Instance sorted_streamer : I_TRMatchingStreamer G F TPMSortedStreamer := {|
  get_next_response _ g s f := '(r, f) ← sorted_get_next_response s g f; Ret (Some (r, s, f));
  get_pattern_channel_id := so_pattern_channel_id;
  get_channel_id := so_channel_id;
  all_sent := sorted_all_sent
|}.

(** ** StreamerFromCachedSource.cpp *)

(** CachedSourceScanner.hpp: one of the three cached scanners. *)
Inductive CachedSourceScanner :=
  | ScanPairs (s : CachedSubjectObjectScanner)
  | ScanObjects (s : CachedObjectScanner)
  | ScanSubjects (s : CachedSubjectScanner).
#[global] Instance cached_source_scanner : Scanner CachedSourceScanner := {|
  sc_has_next s :=
    match s with
    | ScanPairs s => '(b, s) ← sc_has_next s; Ret (b, ScanPairs s)
    | ScanObjects s => '(b, s) ← sc_has_next s; Ret (b, ScanObjects s)
    | ScanSubjects s => '(b, s) ← sc_has_next s; Ret (b, ScanSubjects s)
    end;
  sc_next s :=
    match s with
    | ScanPairs s => '(p, s) ← sc_next s; Ret (p, ScanPairs s)
    | ScanObjects s => '(p, s) ← sc_next s; Ret (p, ScanObjects s)
    | ScanSubjects s => '(p, s) ← sc_next s; Ret (p, ScanSubjects s)
    end
|}.

(** The source is the cache's: what a lookup changes in it, an empty vector for
    an unknown id, is kept in the streamer here. *)
Record StreamerFromCachedSource := mkFromCache {
  fc_source : FullyIndexedPredicate;
  fc_channel_id : Z;
  fc_pattern_channel_id : Z;
  fc_pattern : TripleNodeId;
  fc_threshold : Z;
  fc_finished : bool;
  fc_first : bool;
  fc_subject_variable : bool;
  fc_object_variable : bool;
  translated_subject : Z;
  translated_object : Z;
  fc_scanner : option CachedSourceScanner
}.

(** The scanner, the two translated ids and the source. *)
Definition cached_scanner_for (subject_variable object_variable : bool)
    (translated_subject translated_object : Z) (source : FullyIndexedPredicate)
    : outcome (option CachedSourceScanner * FullyIndexedPredicate) :=
  if subject_variable && object_variable then
    s ← new_CachedSubjectObjectScanner source; Ret (Some (ScanPairs s), cso_source s)
  else if negb subject_variable && negb object_variable then Ret (None, source)
  else if negb subject_variable then
    let '(s, source) := new_CachedObjectScanner source translated_subject in
    Ret (Some (ScanObjects s), source)
  else
    let '(s, source) := new_CachedSubjectScanner source translated_object in
    Ret (Some (ScanSubjects s), source).
Definition new_StreamerFromCachedSource (source : FullyIndexedPredicate)
    (channel_id current_pattern_channel_id : Z) (triple_pattern_node : TripleNodeId)
    (threshold_part_size : Z) (g : G) : outcome StreamerFromCachedSource :=
  let subject_variable := bool_decide (node_data (t_subject triple_pattern_node) = NODE_ANY) in
  let object_variable := bool_decide (node_data (t_object triple_pattern_node) = NODE_ANY) in
  let translated_subject := if subject_variable then u64 (-1)
    else nis_get_id (id_argument (t_subject triple_pattern_node)) g in
  let translated_object := if object_variable then u64 (-1)
    else nis_get_id (id_argument (t_object triple_pattern_node)) g in
  '(scanner, source) ← cached_scanner_for subject_variable object_variable translated_subject
                         translated_object source;
  Ret (mkFromCache source channel_id current_pattern_channel_id triple_pattern_node
         threshold_part_size false true subject_variable object_variable translated_subject
         translated_object scanner).

(** A pair with a value without an external id is skipped. *)
Definition cached_row (subject_variable object_variable : bool) (g : G) (p : Z * Z) : option (list Z) :=
  let '(valid, data) := if subject_variable then add_real_value p.1 g [] else (true, []) in
  let '(valid, data) := if object_variable then
                          if (valid : bool) then add_real_value p.2 g data else (false, data)
                        else (valid, data) in
  if valid then Some data else None.

Definition fc_move (s : StreamerFromCachedSource) (source : FullyIndexedPredicate)
    (scanner : option CachedSourceScanner) (finished : bool) : StreamerFromCachedSource :=
  mkFromCache source (fc_channel_id s) (fc_pattern_channel_id s) (fc_pattern s) (fc_threshold s)
    finished false (fc_subject_variable s) (fc_object_variable s) (translated_subject s)
    (translated_object s) scanner.
Definition fc_get_next_response (fuel : nat) (g : G) (s : StreamerFromCachedSource)
    : outcome (option (StreamOfTriplesMatchingPatternResponse * StreamerFromCachedSource)) :=
  let response := mkStream (fc_channel_id s) (fc_pattern_channel_id s) in
  if negb (fc_subject_variable s) && negb (fc_object_variable s) then
    let '(b, source) := fip_has (id_argument (t_subject (fc_pattern s)))
                          (id_argument (t_object (fc_pattern s))) (fc_source s) in
    Ret (Some (response [] true true b, fc_move s source (fc_scanner s) true))
  else
    scanner ← deref (fc_scanner s);
    m ← fill_part (cached_row (fc_subject_variable s) (fc_object_variable s) g) (fc_threshold s)
          fuel scanner 0 [];
    match m with
    | None => Ret None
    | Some (values, scanner) =>
        '(more, scanner) ← sc_has_next scanner;
        Ret (Some (response values (negb more) false false,
                   fc_move s (fc_source s) (Some scanner) (negb more || fc_finished s)))
    end.
#[global] Instance cached_streamer : I_TRMatchingStreamer G F StreamerFromCachedSource := {|
  get_next_response fuel g s f :=
    m ← fc_get_next_response fuel g s;
    Ret (option_map (λ rs, (rs.1, rs.2, f)) m);
  get_pattern_channel_id := fc_pattern_channel_id;
  get_channel_id := fc_channel_id;
  all_sent := fc_finished
|}.
End streamers.

(** ** What the parts of an answer hold *)

(** A scanner that [has_next] does not move, and the pairs it hands out. *)
Inductive yields `{Scanner T} : T → list (Z * Z) → Prop :=
  | yields_nil s : sc_has_next s = Ret (false, s) → yields s []
  | yields_cons s s' p l :
      sc_has_next s = Ret (true, s) → sc_next s = Ret (p, s') → yields s' l → yields s (p :: l).

Definition row_bytes (values : list (list Z)) : Z := sumZ ((λ r, 8 * Z.of_nat (length r)) <$> values).
Lemma row_bytes_cons r values : row_bytes (r :: values) = 8 * Z.of_nat (length r) + row_bytes values.
Proof. done. Qed.

Section parts.
Context {T : Type} `{Scanner T}.
Variables (row : Z * Z → option (list Z)) (threshold : Z).
Hypothesis row_short : ∀ p r, row p = Some r → (length r ≤ 2)%nat.
Hypothesis threshold_small : 0 ≤ threshold < 2 ^ 63.

(** A part takes a prefix of the pairs, of which there is one at least; it ends
    where the pairs do, or where the threshold is passed, by no more than a row. *)
Lemma fill_part_spec s l : yields s l → ∀ fuel acc values, (length l < fuel)%nat → 0 ≤ acc ≤ threshold →
  ∃ s' l1 l2, fill_part row threshold fuel s acc values = Ret (Some (values ++ omap row l1, s')) ∧
    l = l1 ++ l2 ∧ yields s' l2 ∧ (l ≠ [] → l1 ≠ []) ∧ acc + row_bytes (omap row l1) ≤ threshold + 16 ∧
    (l2 ≠ [] → threshold < acc + row_bytes (omap row l1)).
Proof.
  induction 1 as [s Hn|s s1 p l Hn Hx Hy IH]; intros fuel acc values Hf Hacc;
    (destruct fuel as [|fuel]; [simpl in Hf; lia|]); simpl; rewrite Hn; cbn [mbind outcome_bind].
  - exists s, [], []. simpl. rewrite app_nil_r. unfold row_bytes. simpl. split_and!; try done; [by constructor|lia].
  - rewrite Hx. cbn [mbind outcome_bind]. simpl in Hf. destruct (row p) as [r|] eqn:Er.
    + pose proof (row_short p r Er). rewrite u64_id by width. destruct (threshold <? _) eqn:Et.
      * exists s1, [p], l. simpl. rewrite Er. unfold row_bytes. simpl. split_and!; try done; lia.
      * destruct (IH fuel (acc + 8 * Z.of_nat (length r)) (values ++ [r])) as (s' & l1 & l2 & -> & -> & Hs & Hne & Hle & Hlt);
          [lia..|]. exists s', (p :: l1), l2. rewrite <-app_assoc.
        assert (E : omap row (p :: l1) = r :: omap row l1) by (simpl; by rewrite Er).
        rewrite E, row_bytes_cons. split_and!; [done..|lia|]. intros Hl. specialize (Hlt Hl). lia.
    + destruct (IH fuel acc values) as (s' & l1 & l2 & -> & -> & ? & ? & ? & ?); [lia..|].
      exists s', (p :: l1), l2. simpl. by rewrite Er.
Qed.
End parts.

(** ** Streaming a whole answer *)

(** A response of the channels [ids], the last one or not. *)
Definition part (ids : Z * Z) (threshold : Z) (last : bool) (r : StreamOfTriplesMatchingPatternResponse) : Prop :=
  (sr_channel_id r, sr_pattern_channel_id r) = ids ∧ last_result r = last ∧ has_exact_response r = false ∧
  row_bytes (matching_values r) ≤ threshold + 16 ∧
  (last = false → threshold < row_bytes (matching_values r)).
(** Responses that together hold [rows]: only the last one says so, and the
    others are as full as the threshold asks. *)
Definition whole_answer (ids : Z * Z) (threshold : Z) (rows : list (list Z))
    (rs : list StreamOfTriplesMatchingPatternResponse) : Prop :=
  rs ≫= matching_values = rows ∧
  ∃ init r, rs = init ++ [r] ∧ Forall (part ids threshold false) init ∧ part ids threshold true r.

Section client.
Context {G F St : Type} `{I_TRMatchingStreamer G F St}.

(** What a client does: it asks until a response says it is the last. *)
Fixpoint stream_all (n fuel : nat) (g : G) (s : St) (f : F)
    : outcome (option (list StreamOfTriplesMatchingPatternResponse)) :=
  match n with
  | O => Ret None
  | S n =>
      m ← get_next_response fuel g s f;
      match m with
      | None => Ret None
      | Some (r, s, f) =>
          if last_result r then Ret (Some [r])
          else rs ← stream_all n fuel g s f; Ret (option_map (cons r) rs)
      end
  end.

(** [n] requests, whatever the responses say. *)
Fixpoint stream_calls (n fuel : nat) (g : G) (s : St) (f : F)
    : outcome (option (list StreamOfTriplesMatchingPatternResponse * St * F)) :=
  match n with
  | O => Ret (Some ([], s, f))
  | S n =>
      m ← get_next_response fuel g s f;
      match m with
      | None => Ret None
      | Some (r, s, f) =>
          m ← stream_calls n fuel g s f;
          Ret (option_map (λ '(rs, s, f), (r :: rs, s, f)) m)
      end
  end.
(** A streamer that answers [r] and does not move answers [r] for ever. *)
Lemma stream_calls_fixed n fuel g s f r : get_next_response fuel g s f = Ret (Some (r, s, f)) →
  stream_calls n fuel g s f = Ret (Some (replicate n r, s, f)).
Proof. intros Er. induction n as [|n IH]; [done|]. simpl. rewrite Er. simpl. by rewrite IH. Qed.
Lemma stream_all_fixed n fuel g s f r : get_next_response fuel g s f = Ret (Some (r, s, f)) →
  last_result r = false → stream_all n fuel g s f = Ret None.
Proof. intros Er Hl. induction n as [|n IH]; [done|]. simpl. rewrite Er. simpl. by rewrite Hl, IH. Qed.

Lemma stream_all_spec (R : St → list (Z * Z) → Prop) row ids threshold g fuel :
  (∀ s f l, R s l → (length l < fuel)%nat → ∃ r s' l1 l2,
     get_next_response fuel g s f = Ret (Some (r, s', f)) ∧ l = l1 ++ l2 ∧ (l ≠ [] → l1 ≠ []) ∧
     matching_values r = omap row l1 ∧ part ids threshold (bool_decide (l2 = [])) r ∧
     (l2 ≠ [] → R s' l2)) →
  ∀ n s f l, R s l → (length l < fuel)%nat → (length l < n)%nat →
  ∃ rs, stream_all n fuel g s f = Ret (Some rs) ∧ whole_answer ids threshold (omap row l) rs.
Proof.
  intros Hstep. induction n as [|n IH]; intros s f l Hs Hf Hn; [lia|].
  destruct (Hstep s f l Hs Hf) as (r & s' & l1 & l2 & E & -> & Hne & Hv & Hp & Hs').
  simpl. rewrite E. cbn [mbind outcome_bind]. pose proof Hp as (_ & -> & _). case_bool_decide as Hl.
  - subst l2. exists [r]. rewrite app_nil_r. split; [done|]. split; [simpl; by rewrite app_nil_r|].
    by exists [], r.
  - rewrite length_app in *. assert (Hpos : (0 < length l1)%nat).
    { destruct l1; [|simpl; lia]. exfalso. apply Hne; [by destruct l2|done]. }
    destruct (IH s' f l2) as (rs & -> & Hrows & init & r' & -> & Hinit & Hr'); [auto|lia..|].
    exists (r :: init ++ [r']). split; [done|]. split.
    + rewrite bind_cons, Hv, omap_app. by f_equal.
    + exists (r :: init), r'. split_and!; [done|by constructor|done].
Qed.
End client.

(** ** The answer to a pattern *)

Lemma filter_all {A} (l : list A) : filter (λ _, True) l = l.
Proof. induction l as [|x l IH]; [done|]. by rewrite filter_cons_True, IH. Qed.

Section answers.
Context `{Lib : K2Lib, !K2LibLaws} {G : Type} `{Nis : !NodeIdsManager G, !NodeIdsManagerLaws G}.
Implicit Types (g : G) (t : TripleNodeId) (P : gset (Z * Z)).

(** The points have external ids, the constants internal ones in range. *)
Definition named g P : Prop := ∀ p, p ∈ P →
  (∃ r, nis_maps g r p.1 ∧ in_u 64 r) ∧ (∃ r, nis_maps g r p.2 ∧ in_u 64 r).
Definition node_known (qw : K2QStateWrapper) g (n : NodeId) : Prop :=
  is_any n = true ∨ 0 ≤ nis_get_id (id_argument n) g < 2 ^ st_tree_depth qw.

Definition matches_node g (n : NodeId) (c : Z) : Prop :=
  is_any n = true ∨ c = nis_get_id (id_argument n) g.
#[global] Instance matches_node_dec g n c : Decision (matches_node g n c).
Proof. unfold matches_node. apply _. Defined.
Definition matches_pattern g t (p : Z * Z) : Prop :=
  matches_node g (t_subject t) p.1 ∧ matches_node g (t_object t) p.2.
#[global] Instance matches_pattern_dec g t p : Decision (matches_pattern g t p).
Proof. unfold matches_pattern. apply _. Defined.
Definition has_variable t : Prop := is_any (t_subject t) = true ∨ is_any (t_object t) = true.
#[global] Instance has_variable_dec t : Decision (has_variable t).
Proof. unfold has_variable. apply _. Defined.

(** The row of a point: the external ids of what is variable in the pattern. *)
Definition real_id g (i : Z) : Z := (nis_get_real_id i g).1.
Definition answer_row g t (p : Z * Z) : list Z :=
  (if is_any (t_subject t) then [real_id g p.1] else []) ++
  (if is_any (t_object t) then [real_id g p.2] else []).
Definition answer g t P : list (list Z) :=
  answer_row g t <$> filter (matches_pattern g t) (elements P).

Lemma yields_tree (s : K2TreeScanner) l : delivers s l → yields s l.
Proof.
  induction 1 as [s s' Hn|s s1 s2 p l Hn Hx Hd IH].
  - constructor. injection Hn as E _. simpl. by rewrite E.
  - injection Hn as E <-. eapply yields_cons; [simpl; by rewrite E|exact Hx|exact IH].
Qed.

Lemma pattern_scanner_yields g t k P : tm_ok k → pts k = P → has_variable t →
  node_known (create_k2qw k) g (t_subject t) → node_known (create_k2qw k) g (t_object t) →
  ∃ l, yields (pattern_scanner t k g) l ∧ l ≡ₚ filter (matches_pattern g t) (elements P).
Proof.
  intros Hok <- Hv Hs Ho.
  assert (Hiff : ∀ Q `{∀ p, Decision (Q p)}, (∀ p, Q p ↔ matches_pattern g t p) →
    filter Q (elements (pts k)) = filter (matches_pattern g t) (elements (pts k)))
    by (intros Q HQ E; by apply list_filter_iff).
  unfold pattern_scanner. destruct (is_any (t_subject t)) eqn:Es, (is_any (t_object t)) eqn:Eo; simpl.
  - destruct (full_scanner_spec k Hok) as (l & Hd & Hl). exists l. split; [by apply yields_tree|].
    rewrite Hl, <-(Hiff (λ _, True) _); [by rewrite filter_all|].
    intros p. unfold matches_pattern, matches_node. rewrite Es, Eo. tauto.
  - destruct Ho as [|Ho]; [congruence|].
    destruct (band_enumerates k _ ROW_BAND_TYPE Hok Ho) as (h & l & _ & _ & Hd & Hl).
    eexists. split; [by apply yields_tree|]. rewrite Hl, (Hiff (in_band ROW_BAND_TYPE _) _); [done|].
    intros p. unfold matches_pattern, matches_node. rewrite Es, Eo. simpl. naive_solver.
  - destruct Hs as [|Hs]; [congruence|].
    destruct (band_enumerates k _ COLUMN_BAND_TYPE Hok Hs) as (h & l & _ & _ & Hd & Hl).
    eexists. split; [by apply yields_tree|]. rewrite Hl, (Hiff (in_band COLUMN_BAND_TYPE _) _); [done|].
    intros p. unfold matches_pattern, matches_node. rewrite Es, Eo. simpl. naive_solver.
  - destruct Hv; congruence.
Qed.

Lemma u64_s64 x : in_u 64 x → u64 (s64 x) = x.
Proof.
  intros Hx. unfold s64, to_signed. rewrite (uwrap_small 64 x) by done. unfold u64.
  case_decide; [by apply uwrap_small|]. unfold uwrap. replace (x - 2 ^ 64) with (x + (-1) * 2 ^ 64) by lia.
  rewrite Z.mod_add by lia. by apply Z.mod_small.
Qed.
Lemma real_id_known g r i : nis_ok g → nis_maps g r i →
  real_id_of i SUCCESS_ERR_CODE g = (r, SUCCESS_ERR_CODE) ∧ real_id g i = r.
Proof.
  intros Hg Hm. destruct (nis_get_real_id_law g r i Hg Hm) as (e & E & He).
  unfold real_id_of, real_id. rewrite E. by destruct e as [[]|].
Qed.
Lemma add_real_value_known g r i data : nis_ok g → nis_maps g r i → in_u 64 r →
  add_real_value i g data = (true, data ++ [real_id g i]).
Proof.
  intros Hg Hm Hr. unfold add_real_value. destruct (real_id_known g r i Hg Hm) as [-> ->].
  simpl. by rewrite u64_s64.
Qed.

Lemma rows_known g t P p : nis_ok g → named g P → p ∈ P →
  tpm_row (is_any (t_subject t)) (is_any (t_object t)) g p = Some (answer_row g t p) ∧
  cached_row (is_any (t_subject t)) (is_any (t_object t)) g p = Some (answer_row g t p).
Proof.
  intros Hg Hn Hp. destruct (Hn p Hp) as [(r1 & M1 & R1) (r2 & M2 & R2)].
  unfold tpm_row, cached_row, answer_row.
  destruct (is_any (t_subject t)), (is_any (t_object t));
    rewrite ?(add_real_value_known g r1 p.1), ?(add_real_value_known g r2 p.2) by done; done.
Qed.
Lemma rows_answer g t P l (row : Z * Z → option (list Z)) : nis_ok g → named g P →
  (∀ p, p ∈ P → row p = Some (answer_row g t p)) →
  l ≡ₚ filter (matches_pattern g t) (elements P) → omap row l ≡ₚ answer g t P.
Proof.
  intros Hg Hn Hrow Hl.
  assert (E : omap row l = answer_row g t <$> l).
  { assert (Hin : ∀ p, p ∈ l → p ∈ P).
    { intros p. rewrite Hl, list_elem_of_filter, elem_of_elements. tauto. }
    clear Hl. induction l as [|p l IH]; [done|]. simpl. rewrite Hrow by (apply Hin; by left).
    f_equal. apply IH. intros q Hq. apply Hin. by right. }
  rewrite E. unfold answer. by rewrite Hl.
Qed.
Lemma answer_row_short g t p : (length (answer_row g t p) ≤ 2)%nat.
Proof. unfold answer_row. rewrite length_app. repeat case_match; simpl; lia. Qed.
End answers.

(** ** The lazy streamer *)

Section lazy.
Context `{Lib : K2Lib, !K2LibLaws} {G : Type} `{Nis : !NodeIdsManager G, !NodeIdsManagerLaws G}.
Context {F : Type} `{Fet : !K2TreeFetcher F, !K2TreeFetcherLaws F}.
Implicit Types (g : G) (f : F) (t : TripleNodeId).

Lemma add_real_value_short i g data : (length (add_real_value i g data).2 ≤ S (length data))%nat.
Proof.
  unfold add_real_value. destruct (real_id_of _ _ _). case_decide; simpl; [lia|]. rewrite length_app. simpl. lia.
Qed.
Lemma tpm_row_short sv ov g p r : tpm_row sv ov g p = Some r → (length r ≤ 2)%nat.
Proof.
  intros [= <-]. pose proof (add_real_value_short p.1 g []).
  destruct sv, ov; simpl in *; try lia; etrans; try apply add_real_value_short; simpl; lia.
Qed.

(** Between two responses. *)
Definition streaming (ids : Z * Z) (threshold : Z) t (s : TriplePatternMatchingStreamer) (l : list (Z * Z)) : Prop :=
  (tpm_channel_id s, tpm_pattern_channel_id s) = ids ∧ tpm_threshold s = threshold ∧
  tpm_subject_variable s = is_any (t_subject t) ∧ tpm_object_variable s = is_any (t_object t) ∧
  tpm_finished s = false ∧ yields (tpm_scanner s) l.

Lemma yields_has_next (s : K2TreeScanner) l : yields s l → negb (has_next s) = bool_decide (l = []).
Proof. inversion 1 as [? Hn|? ? ? ? Hn]; injection Hn as ->; done. Qed.

Lemma streaming_step ids threshold t fuel g s f l : has_variable t → 0 ≤ threshold < 2 ^ 63 →
  streaming ids threshold t s l → (length l < fuel)%nat → ∃ r s' l1 l2,
  get_next_response fuel g s f = Ret (Some (r, s', f)) ∧ l = l1 ++ l2 ∧ (l ≠ [] → l1 ≠ []) ∧
  matching_values r = omap (tpm_row (is_any (t_subject t)) (is_any (t_object t)) g) l1 ∧
  part ids threshold (bool_decide (l2 = [])) r ∧ (l2 ≠ [] → streaming ids threshold t s' l2).
Proof.
  intros Hv Hth (Hids & Hth' & Hsv & Hov & Hfin & Hy) Hf.
  assert (Hne : negb (tpm_subject_variable s) && negb (tpm_object_variable s) = false).
  { rewrite Hsv, Hov. destruct Hv as [-> | ->]; simpl; [done|apply andb_false_r]. }
  destruct (fill_part_spec (T := K2TreeScanner) (tpm_row (is_any (t_subject t)) (is_any (t_object t)) g) threshold
    ltac:(intros; by eapply tpm_row_short) Hth _ _ Hy fuel 0 [] Hf ltac:(lia))
    as (sc & l1 & l2 & E & -> & Hy' & Hp & Hle & Hlt).
  simpl. unfold tpm_get_next_response. rewrite Hne, Hth', Hsv, Hov, E. cbn [mbind outcome_bind].
  rewrite (yields_has_next sc l2 Hy'). eexists _, _, l1, l2. split; [done|]. split; [done|]. split; [done|].
  split; [done|]. split.
  - split; [done|]. split; [done|]. split; [done|]. split; [exact Hle|]. intros ?%bool_decide_eq_false. by apply Hlt.
  - intros Hl2. split_and!; try done. simpl. by rewrite Hfin, bool_decide_false.
Qed.

(** A client that asks for a pattern with a variable, and goes on asking until
    told it has the last part, gets each match of the pattern once, with its external
    ids, in parts of bounded size of which only the last says it is the last. *)
Theorem stream_correct channel_id pattern_channel_id t threshold g f :
  let P := default ∅ (points_of f (nis_get_id (id_argument (t_predicate t)) g)) in
  nis_ok g → fetcher_ok f → has_variable t → named g P → 0 ≤ threshold < 2 ^ 63 →
  node_known (fetcher_qw f) g (t_subject t) → node_known (fetcher_qw f) g (t_object t) →
  ∃ s f', new_TriplePatternMatchingStreamer channel_id pattern_channel_id t threshold g f = Ret (s, f') ∧
    (∀ q, points_of f' q = points_of f q) ∧
    ∀ n fuel, (base.size P < n)%nat → (base.size P < fuel)%nat → ∃ rs rows,
      stream_all n fuel g s f' = Ret (Some rs) ∧
      whole_answer (channel_id, pattern_channel_id) threshold rows rs ∧ rows ≡ₚ answer g t P.
Proof.
  intros P Hg Hf Hv Hn Hth Hs Ho. unfold new_TriplePatternMatchingStreamer, initialize_scanner.
  destruct (fetch_law f (nis_get_id (id_argument (t_predicate t)) g) Hf) as (r & f' & -> & _ & Hq & _ & Hr).
  cbn [mbind outcome_bind].
  assert (Hsc : ∃ sc l, (if negb (exists_tree r) then Ret (NullScanner, f')
      else k2tree ← fetch_get r; Ret (pattern_scanner t k2tree g, f')) = Ret (sc, f') ∧
    yields sc l ∧ l ≡ₚ filter (matches_pattern g t) (elements P)).
  { unfold P. destruct (points_of f _) as [P0|]; unfold exists_tree.
    - destruct Hr as (-> & k & Ek & Hok & Hpt & Hqw). unfold fetch_get. rewrite Ek.
      cbn [negb deref mbind outcome_bind]. rewrite <-Hqw in Hs, Ho.
      destruct (pattern_scanner_yields g t k P0) as (l & Hy & Hl); [done..|]. by exists (pattern_scanner t k g), l.
    - destruct Hr as [-> _]. exists NullScanner, []. split; [done|]. split; [by constructor|].
      simpl. by rewrite elements_empty. }
  destruct Hsc as (sc & l & -> & Hy & Hl). cbn [mbind outcome_bind]. eexists _, f'. split; [done|].
  split; [done|]. intros n fuel Hn' Hfuel.
  assert (Hlen : (length l ≤ base.size P)%nat).
  { rewrite Hl. unfold base.size, set_size. apply length_filter. }
  set (s := mkTPM _ _ _ _ _ _ _ _ _).
  destruct (stream_all_spec (F := F) (streaming (channel_id, pattern_channel_id) threshold t)
    (tpm_row (is_any (t_subject t)) (is_any (t_object t)) g) (channel_id, pattern_channel_id) threshold g fuel
    (λ s f l Hs, streaming_step _ _ _ _ _ s f l Hv Hth Hs) n s f' l) as (rs & E & Hw); [done|lia|lia|].
  exists rs. eexists. split; [exact E|]. split; [exact Hw|].
  eapply rows_answer; [done..| |done]. intros p Hp. by apply (rows_known g t P).
Qed.
End lazy.

(** ** The streamer of an indexed predicate *)

Section cached.
Context `{Lib : K2Lib, !K2LibLaws} {G : Type} `{Nis : !NodeIdsManager G, !NodeIdsManagerLaws G} {F : Type}.
Implicit Types (g : G) (f : F) (t : TripleNodeId) (P : gset (Z * Z)).

Lemma cached_row_short sv ov g p r : cached_row sv ov g p = Some r → (length r ≤ 2)%nat.
Proof.
  unfold cached_row. pose proof (add_real_value_short p.1 g []) as H1.
  destruct sv; [destruct (add_real_value p.1 g []) as [v d]|set (v := true); set (d := [])];
    destruct ov; try (pose proof (add_real_value_short p.2 g d); destruct (add_real_value p.2 g d) as [v2 d2]);
    simpl in *; repeat case_match; intros [= <-]; simplify_eq; simpl in *; lia.
Qed.

Lemma yields_objects l p s : yields (ScanObjects (mkCOS l p s)) ((λ o, (s, o)) <$> drop p l).
Proof.
  remember (length l - p)%nat as n eqn:En. revert p En. induction n as [|n IH]; intros p En.
  - rewrite drop_ge by lia. apply yields_nil. simpl. by rewrite bool_decide_false by lia.
  - destruct (lookup_lt_is_Some_2 l p) as [x Hx]; [lia|]. rewrite (drop_S l x) by done.
    eapply yields_cons; simpl; [by rewrite bool_decide_true by lia|by rewrite Hx|apply IH; lia].
Qed.
Lemma yields_subjects l p o : yields (ScanSubjects (mkCSS l p o)) ((λ s, (s, o)) <$> drop p l).
Proof.
  remember (length l - p)%nat as n eqn:En. revert p En. induction n as [|n IH]; intros p En.
  - rewrite drop_ge by lia. apply yields_nil. simpl. by rewrite bool_decide_false by lia.
  - destruct (lookup_lt_is_Some_2 l p) as [x Hx]; [lia|]. rewrite (drop_S l x) by done.
    eapply yields_cons; simpl; [by rewrite bool_decide_true by lia|by rewrite Hx|apply IH; lia].
Qed.

Definition cached_streaming (ids : Z * Z) (threshold : Z) t (s : StreamerFromCachedSource) (l : list (Z * Z)) : Prop :=
  (fc_channel_id s, fc_pattern_channel_id s) = ids ∧ fc_threshold s = threshold ∧
  fc_subject_variable s = is_any (t_subject t) ∧ fc_object_variable s = is_any (t_object t) ∧
  ∃ sc, fc_scanner s = Some sc ∧ yields sc l.

Lemma yields_more (s : CachedSourceScanner) l : yields s l →
  sc_has_next s = Ret (negb (bool_decide (l = [])), s).
Proof. by inversion 1. Qed.

Lemma cached_step ids threshold t fuel g s f l : has_variable t → 0 ≤ threshold < 2 ^ 63 →
  cached_streaming ids threshold t s l → (length l < fuel)%nat → ∃ r s' l1 l2,
  get_next_response fuel g s f = Ret (Some (r, s', f)) ∧ l = l1 ++ l2 ∧ (l ≠ [] → l1 ≠ []) ∧
  matching_values r = omap (cached_row (is_any (t_subject t)) (is_any (t_object t)) g) l1 ∧
  part ids threshold (bool_decide (l2 = [])) r ∧ (l2 ≠ [] → cached_streaming ids threshold t s' l2).
Proof.
  intros Hv Hth (Hids & Hth' & Hsv & Hov & sc & Hsc & Hy) Hf.
  assert (Hne : negb (fc_subject_variable s) && negb (fc_object_variable s) = false).
  { rewrite Hsv, Hov. destruct Hv as [-> | ->]; simpl; [done|apply andb_false_r]. }
  destruct (fill_part_spec (T := CachedSourceScanner)
    (cached_row (is_any (t_subject t)) (is_any (t_object t)) g) threshold
    ltac:(intros; by eapply cached_row_short) Hth _ _ Hy fuel 0 [] Hf ltac:(lia))
    as (sc' & l1 & l2 & E & -> & Hy' & Hp & Hle & Hlt).
  simpl. unfold fc_get_next_response. rewrite Hne, Hth', Hsv, Hov, Hsc. cbn [deref mbind outcome_bind].
  rewrite E. cbn [mbind outcome_bind]. rewrite (yields_more sc' l2 Hy'). cbn [mbind outcome_bind].
  rewrite negb_involutive. eexists _, _, l1, l2. split; [done|]. split; [done|]. split; [done|].
  split; [done|]. split.
  - split; [done|]. split; [done|]. split; [done|]. split; [exact Hle|]. intros ?%bool_decide_eq_false. by apply Hlt.
  - intros Hl2. split_and!; try done. by exists sc'.
Qed.

(** For a pattern with one variable, the streamer of an indexed predicate gives
    the answer that the lazy streamer gives on the tree. *)
Theorem cached_stream_correct source channel_id pattern_channel_id t threshold g f P :
  nis_ok g → indexes source P → has_variable t →
  (is_any (t_subject t) = false ∨ is_any (t_object t) = false) → named g P → 0 ≤ threshold < 2 ^ 63 →
  ∃ s, new_StreamerFromCachedSource source channel_id pattern_channel_id t threshold g = Ret s ∧
    ∀ n fuel, (base.size P < n)%nat → (base.size P < fuel)%nat → ∃ rs rows,
      stream_all n fuel g s f = Ret (Some rs) ∧
      whole_answer (channel_id, pattern_channel_id) threshold rows rs ∧ rows ≡ₚ answer g t P.
Proof.
  intros Hg Hi Hv Hone Hn Hth.
  assert (Hsc : ∃ source' sc l, cached_scanner_for (is_any (t_subject t)) (is_any (t_object t))
      (if is_any (t_subject t) then u64 (-1) else nis_get_id (id_argument (t_subject t)) g)
      (if is_any (t_object t) then u64 (-1) else nis_get_id (id_argument (t_object t)) g) source =
      Ret (Some sc, source') ∧
    yields sc l ∧ l ≡ₚ filter (matches_pattern g t) (elements P)).
  { unfold cached_scanner_for.
    destruct (is_any (t_subject t)) eqn:Es, (is_any (t_object t)) eqn:Eo; simpl; try (by naive_solver).
    - unfold new_CachedSubjectScanner. set (x := nis_get_id _ g).
      destruct (get_subjects_spec x source P Hi) as (l & source' & -> & _ & Hnd & Hl).
      eexists source', _, _. split; [done|]. split; [apply yields_subjects|]. rewrite drop_0.
      apply NoDup_Permutation; [by apply NoDup_fmap_2; [intros ?? [= ?]|]|apply NoDup_filter, NoDup_elements|].
      intros [a b]. rewrite list_elem_of_filter, elem_of_elements, list_elem_of_fmap. setoid_rewrite Hl.
      unfold matches_pattern, matches_node. rewrite Es, Eo. simpl. fold x. naive_solver.
    - unfold new_CachedObjectScanner. set (x := nis_get_id _ g).
      destruct (get_objects_spec x source P Hi) as (l & source' & -> & _ & Hnd & Hl).
      eexists source', _, _. split; [done|]. split; [apply yields_objects|]. rewrite drop_0.
      apply NoDup_Permutation; [by apply NoDup_fmap_2; [intros ?? [= ?]|]|apply NoDup_filter, NoDup_elements|].
      intros [a b]. rewrite list_elem_of_filter, elem_of_elements, list_elem_of_fmap. setoid_rewrite Hl.
      unfold matches_pattern, matches_node. rewrite Es, Eo. simpl. fold x. naive_solver.
    - destruct Hv; congruence. }
  destruct Hsc as (source' & sc & l & E & Hy & Hl). unfold new_StreamerFromCachedSource.
  change (bool_decide (node_data (t_subject t) = NODE_ANY)) with (is_any (t_subject t)).
  change (bool_decide (node_data (t_object t) = NODE_ANY)) with (is_any (t_object t)).
  rewrite E. cbn [mbind outcome_bind]. eexists. split; [done|]. intros n fuel Hn' Hfuel.
  assert (Hlen : (length l ≤ base.size P)%nat).
  { rewrite Hl. unfold base.size, set_size. apply length_filter. }
  set (s := mkFromCache _ _ _ _ _ _ _ _ _ _ _ _).
  destruct (stream_all_spec (F := F) (cached_streaming (channel_id, pattern_channel_id) threshold t)
    (cached_row (is_any (t_subject t)) (is_any (t_object t)) g) (channel_id, pattern_channel_id) threshold g fuel
    (λ s f l Hs, cached_step _ _ _ _ _ s f l Hv Hth Hs) n s f l) as (rs & Ers & Hw); [|lia|lia|].
  { split_and!; try done. by exists sc. }
  exists rs. eexists. split; [exact Ers|]. split; [exact Hw|].
  eapply rows_answer; [done..| |done]. intros p Hp. by apply (rows_known g t P).
Qed.
End cached.

(** ** The sorting streamer *)

Definition data_rows (d : DataResults) : list (list Z) := pair_rows d ++ single_rows d.

Lemma row_bytes_app a b : row_bytes (a ++ b) = row_bytes a + row_bytes b.
Proof. unfold row_bytes. by rewrite fmap_app, sumZ_app. Qed.
Lemma row_bytes_nonneg rows : 0 ≤ row_bytes rows.
Proof. induction rows as [|r rows IH]; [done|]. rewrite row_bytes_cons. lia. Qed.

(** The rows of one part: as few as reach the threshold, or all of them. *)
Definition first_part (threshold : Z) (rows rows1 rows2 : list (list Z)) : Prop :=
  rows = rows1 ++ rows2 ∧ (rows2 ≠ [] → threshold ≤ row_bytes rows1) ∧
  ∀ init r, rows1 = init ++ [r] → row_bytes init < threshold.

(** The loop of a response takes rows while they are below the threshold. *)
Lemma sorted_part_spec threshold rows : Forall (λ r, (0 < length r ≤ 2)%nat) rows → 0 ≤ threshold < 2 ^ 62 →
  ∀ i acc values, 0 ≤ i → i + Z.of_nat (length rows) < 2 ^ 63 → 0 ≤ acc < threshold + 16 →
  ∃ rows1 rows2,
    sorted_part (length rows) threshold rows i acc values =
      (values ++ rows1, i + Z.of_nat (length rows1)) ∧
    first_part (threshold - acc) rows rows1 rows2.
Proof.
  intros Hrows Hth. induction Hrows as [|r rows Hr Hrows IH]; intros i acc values Hi Hlen Hacc.
  { exists [], []. simpl. rewrite app_nil_r, Z.add_0_r. split; [done|]. split; [done|]. split; [done|]. by intros []. }
  simpl. destruct (acc <? threshold) eqn:E.
  - rewrite !u64_id by (simpl in *; width).
    destruct (IH (i + 1) (acc + 8 * Z.of_nat (length r)) (values ++ [r])) as (rows1 & rows2 & -> & -> & H1 & H2);
      [simpl in *; lia..|].
    exists (r :: rows1), rows2. rewrite <-app_assoc. split; [simpl; f_equal; lia|].
    split; [done|]. rewrite row_bytes_cons. split; [intros Hne; specialize (H1 Hne); lia|].
    intros [|r' init] r0 Hinit; simplify_eq/=; [unfold row_bytes; simpl; lia|].
    rewrite row_bytes_cons. specialize (H2 init r0 eq_refl). lia.
  - exists [], (r :: rows). simpl. rewrite app_nil_r, Z.add_0_r.
    split; [done|]. split; [done|]. split; [unfold row_bytes; simpl; lia|]. by intros [].
Qed.

Lemma first_part_all threshold rows rows1 rows2 : Forall (λ r, (0 < length r ≤ 2)%nat) rows →
  first_part threshold rows rows1 rows2 → row_bytes rows ≤ threshold → rows2 = [].
Proof.
  intros Hrows (-> & H1 & _) Hle. destruct rows2 as [|r rows2]; [done|]. specialize (H1 ltac:(done)).
  apply Forall_app in Hrows as [_ Hr]. inversion Hr; subst. rewrite row_bytes_app, row_bytes_cons in Hle.
  pose proof (row_bytes_nonneg rows2). lia.
Qed.
Lemma first_part_bytes threshold rows rows1 rows2 : 0 < threshold → Forall (λ r, (0 < length r ≤ 2)%nat) rows →
  first_part threshold rows rows1 rows2 → row_bytes rows1 < threshold + 16.
Proof.
  intros Hth Hrows (-> & _ & H2). apply Forall_app in Hrows as [Hr _].
  destruct rows1 as [|r init _] using rev_ind; [unfold row_bytes; simpl; lia|].
  specialize (H2 init r eq_refl). apply Forall_app in Hr as [_ Hr]. inversion Hr; subst.
  rewrite row_bytes_app, row_bytes_cons. unfold row_bytes at 2. simpl. lia.
Qed.

(** A response is the first part of the rows, and says whether it is all of them. *)
Lemma sorted_response_spec s rows : Forall (λ r, (0 < length r ≤ 2)%nat) rows →
  0 < so_threshold s < 2 ^ 62 → Z.of_nat (length rows) < 2 ^ 62 → current_sent s = 0 →
  ∃ rows1 rows2, first_part (so_threshold s) rows rows1 rows2 ∧
    sorted_response s rows =
      mkStream (so_channel_id s) (so_pattern_channel_id s) rows1 (bool_decide (rows2 = [])) false false.
Proof.
  intros Hrows Hth Hlen Hcur. unfold sorted_response. rewrite Hcur, drop_0.
  destruct (sorted_part_spec (so_threshold s) rows Hrows ltac:(lia) 0 0 []) as (rows1 & rows2 & -> & Hp);
    [lia..|]. exists rows1, rows2. rewrite Z.sub_0_r in Hp. split; [done|]. simpl. f_equal.
  destruct Hp as (-> & _). apply bool_decide_ext. rewrite length_app. destruct rows2; simpl; split; (done || lia).
Qed.

(** Rows of one length, in the order of their ids. *)
Definition row_le (r r' : list Z) : Prop :=
  match r, r' with
  | [a], [b] => a ≤ b
  | [a; b], [c; d] => pair_le (a, b) (c, d)
  | _, _ => False
  end.
#[export] Instance pair_le_trans : Transitive pair_le.
Proof. intros [] [] []. unfold pair_le. simpl. lia. Qed.
#[export] Instance pair_le_total : Total pair_le.
Proof. intros [] []. unfold pair_le. simpl. lia. Qed.

Lemma sort_data_rows d : pair_results d = [] ∨ single_results d = [] →
  data_rows (sort_data d) ≡ₚ data_rows d ∧ StronglySorted row_le (data_rows (sort_data d)) ∧
  Forall (λ r, (0 < length r ≤ 2)%nat) (data_rows (sort_data d)) ∧
  (pair_results (sort_data d) = [] ∨ single_results (sort_data d) = []).
Proof.
  intros Hone. unfold data_rows, pair_rows, single_rows, sort_data. cbn [pair_results single_results].
  split; [by rewrite !merge_sort_Permutation|]. split; [|split].
  - destruct Hone as [-> | ->]; cbn [fmap list_fmap merge_sort]; rewrite ?app_nil_r; simpl app.
    + apply (StronglySorted_fmap _ Z.le); [done|]. apply StronglySorted_merge_sort; apply _.
    + apply (StronglySorted_fmap _ pair_le); [by intros [] []|]. apply StronglySorted_merge_sort; apply _.
  - apply Forall_app. split; rewrite Forall_fmap; apply Forall_forall; simpl; lia.
  - destruct Hone as [-> | ->]; auto.
Qed.

Section sorting.
Context `{Lib : K2Lib, !K2LibLaws} {G : Type} `{Nis : !NodeIdsManager G, !NodeIdsManagerLaws G}.
Context {F : Type} `{Fet : !K2TreeFetcher F, !K2TreeFetcherLaws F}.
Implicit Types (g : G) (f : F) (t : TripleNodeId) (P : gset (Z * Z)).

Lemma delivers_yields (s : K2TreeScanner) l : yields s l → delivers s l.
Proof. induction 1; [by eapply delivers_nil|by eapply delivers_cons]. Qed.

(** The pairs collected, when all of them have external ids. *)
Definition collected g t (l : list (Z * Z)) (d : DataResults) : DataResults :=
  let sv := is_any (t_subject t) in let ov := is_any (t_object t) in
  if sv && ov
  then mkData (pair_results d ++ ((λ p, (real_id g p.1, real_id g p.2)) <$> l)) (single_results d)
  else mkData (pair_results d) (single_results d ++ ((λ p, real_id g (if sv then p.1 else p.2)) <$> l)).
Lemma collect_known g t P l : nis_ok g → named g P → (∀ p, p ∈ l → p ∈ P) → ∀ d,
  fold_left (collect_pair (is_any (t_subject t)) (is_any (t_object t)) g) l (d, SUCCESS_ERR_CODE) =
  (collected g t l d, SUCCESS_ERR_CODE).
Proof.
  intros Hg Hn. induction l as [|p l IH]; intros Hin d.
  { unfold collected. simpl. destruct d, (is_any (t_subject t)), (is_any (t_object t)); simpl; by rewrite app_nil_r. }
  assert (Hp : collect_pair (is_any (t_subject t)) (is_any (t_object t)) g (d, SUCCESS_ERR_CODE) p =
    (collected g t [p] d, SUCCESS_ERR_CODE)).
  { destruct (Hn p ltac:(apply Hin; by left)) as [(r1 & M1 & _) (r2 & M2 & _)].
    destruct (real_id_known g r1 p.1 Hg M1) as [E1 F1], (real_id_known g r2 p.2 Hg M2) as [E2 F2].
    unfold collect_pair, collected. destruct (is_any (t_subject t)), (is_any (t_object t)); simpl;
      rewrite ?E1; simpl; rewrite ?E2; simpl; by rewrite ?F1, ?F2. }
  cbn [fold_left]. rewrite Hp, IH by (intros q Hq; apply Hin; by right). f_equal. unfold collected.
  destruct (is_any (t_subject t)), (is_any (t_object t)); simpl; by rewrite <-app_assoc.
Qed.
Lemma collected_rows g t l : has_variable t →
  data_rows (collected g t l (mkData [] [])) = answer_row g t <$> l ∧
  (pair_results (collected g t l (mkData [] [])) = [] ∨ single_results (collected g t l (mkData [] [])) = []).
Proof.
  intros Hv. unfold collected, data_rows, pair_rows, single_rows, answer_row.
  destruct (is_any (t_subject t)) eqn:Es, (is_any (t_object t)) eqn:Eo; simpl;
    [|..|destruct Hv; congruence]; rewrite ?app_nil_r, <-list_fmap_compose; split; try done; auto.
Qed.
(** What the sorting streamer holds: the rows of the answer, in order. *)
Lemma new_sorted_spec channel_id pattern_channel_id t threshold g f P :
  nis_ok g → fetcher_ok f → has_variable t → named g P →
  points_of f (nis_get_id (id_argument (t_predicate t)) g) = Some P →
  node_known (fetcher_qw f) g (t_subject t) → node_known (fetcher_qw f) g (t_object t) →
  ∃ d f', (∀ fuel, (base.size P < fuel)%nat →
      new_TPMSortedStreamer fuel channel_id pattern_channel_id t threshold g f =
      Ret (Some (mkSorted channel_id pattern_channel_id (Some t) threshold d 0, f'))) ∧
    data_rows d ≡ₚ answer g t P ∧ StronglySorted row_le (data_rows d) ∧
    Forall (λ r, (0 < length r ≤ 2)%nat) (data_rows d) ∧ (pair_results d = [] ∨ single_results d = []).
Proof.
  intros Hg Hf Hv Hn HP Hs Ho. unfold new_TPMSortedStreamer.
  destruct (fetch_law f (nis_get_id (id_argument (t_predicate t)) g) Hf) as (r & f' & -> & _ & _ & _ & Hr).
  rewrite HP in Hr. destruct Hr as (Hex & k & Ek & Hok & Hpt & Hqw). rewrite <-Hqw in Hs, Ho.
  destruct (pattern_scanner_yields g t k P) as (l & Hy & Hl); [done..|].
  destruct (collected_rows g t l Hv) as [Hrows Hone].
  destruct (sort_data_rows _ Hone) as (Hp & Hsorted & Hshort & Hone').
  exists (sort_data (collected g t l (mkData [] []))), f'. split; [|split_and!; try done].
  - intros fuel Hfuel. cbn [mbind outcome_bind]. unfold exists_tree, fetch_get, get_all_data.
    rewrite Hex, Ek. cbn [negb deref mbind outcome_bind].
    assert (Hlen : (length l ≤ base.size P)%nat) by (rewrite Hl; apply length_filter).
    rewrite (while_scan_delivers _ _ _ l) by (by apply delivers_yields || lia).
    rewrite foldM_ret, (collect_known g t P) by
      (try done; intros p; rewrite Hl, list_elem_of_filter, elem_of_elements; tauto).
    done.
  - rewrite Hp, Hrows. unfold answer. by rewrite Hl.
Qed.

(** The rows the next response starts from. *)
Lemma sorted_next s g f :
  pair_results (data_results s) = [] ∨ single_results (data_results s) = [] → data_rows (data_results s) ≠ [] →
  sorted_get_next_response s g f = Ret (sorted_response s (data_rows (data_results s)), f).
Proof.
  intros Hone Hne. unfold sorted_get_next_response, data_rows, pair_rows, single_rows in *.
  destruct (pair_results (data_results s)) as [|p ps], (single_results (data_results s)) as [|v vs]; try done.
  - simpl. by rewrite app_nil_r.
  - by destruct Hone.
Qed.

(** Nothing counts as sent: [current_sent] stays at zero. *)
Lemma not_all_sent s : current_sent s = 0 → sorted_all_sent s = false.
Proof.
  intros Hs. unfold sorted_all_sent. rewrite Hs.
  destruct (pair_results (data_results s)), (single_results (data_results s)); done.
Qed.

(** C37: The sorting streamer holds the matches in the order of their external ids. It
    answers every request alike, with the first part of them: as few as reach the threshold, or
    all. A client gets them all when they fit in one part; when they do not, the same first part
    comes for ever, none says it is the last, the streamer never counts as done, and the matches
    behind it are never sent. *)
Theorem sorted_stream_correct channel_id pattern_channel_id t threshold g f P :
  nis_ok g → fetcher_ok f → has_variable t → named g P →
  points_of f (nis_get_id (id_argument (t_predicate t)) g) = Some P → answer g t P ≠ [] →
  Z.of_nat (base.size P) < 2 ^ 62 → 0 < threshold < 2 ^ 62 →
  node_known (fetcher_qw f) g (t_subject t) → node_known (fetcher_qw f) g (t_object t) →
  ∃ s f' rows rows1 rows2, (∀ fuel, (base.size P < fuel)%nat →
      new_TPMSortedStreamer fuel channel_id pattern_channel_id t threshold g f = Ret (Some (s, f'))) ∧
    rows ≡ₚ answer g t P ∧ StronglySorted row_le rows ∧ first_part threshold rows rows1 rows2 ∧
    (row_bytes rows ≤ threshold → rows2 = []) ∧ (threshold + 16 ≤ row_bytes rows → rows2 ≠ []) ∧
    sorted_all_sent s = false ∧
    let r := mkStream channel_id pattern_channel_id rows1 (bool_decide (rows2 = [])) false false in
    (∀ n fuel, stream_calls n fuel g s f' = Ret (Some (replicate n r, s, f'))) ∧
    (rows2 = [] → rows1 = rows ∧ ∀ n fuel, stream_all (S n) fuel g s f' = Ret (Some [r])) ∧
    (rows2 ≠ [] → ∀ n fuel, stream_all n fuel g s f' = Ret None).
Proof.
  intros Hg Hf Hv Hn HP Hne Hsize Hth Hs Ho.
  destruct (new_sorted_spec channel_id pattern_channel_id t threshold g f P) as (d & f' & Hnew & Hp & Hsort & Hshort & Hone);
    [done..|]. set (s := mkSorted _ _ _ _ _ _) in Hnew.
  assert (Hrows : data_rows d ≠ []) by (intros E; rewrite E in Hp; by apply Permutation_nil in Hp).
  destruct (sorted_response_spec s (data_rows d)) as (rows1 & rows2 & Hpart & Er); [done..| |done|].
  { rewrite Hp. unfold answer. rewrite length_fmap.
    pose proof (length_filter (matches_pattern g t) (elements P)). unfold base.size, set_size in Hsize. simpl in *. lia. }
  assert (Enext : ∀ fuel, get_next_response fuel g s f' = Ret (Some (sorted_response s (data_rows d), s, f'))).
  { intros fuel. simpl. by rewrite sorted_next. }
  rewrite Er in Enext. exists s, f', (data_rows d), rows1, rows2. do 4 (split; [done|]).
  split; [by eapply first_part_all|]. split; [|split; [by apply not_all_sent|]].
  { intros Hge ->. apply first_part_bytes in Hpart as Hb; [|exact (proj1 Hth)|done]. destruct Hpart as (Ed & _).
    rewrite app_nil_r in Ed. change (so_threshold s) with threshold in Hb. rewrite Ed in Hge. lia. }
  cbv zeta. split; [|split].
  - intros n fuel. by apply stream_calls_fixed.
  - intros ->. split; [destruct Hpart as (-> & _); by rewrite app_nil_r|].
    intros n fuel. cbn [stream_all]. by rewrite Enext.
  - intros Hr n fuel. eapply stream_all_fixed; [apply Enext|]. simpl. by rewrite bool_decide_false.
Qed.
End sorting.

(** ** Patterns without variables, predicates without a tree *)

Section exact.
Context `{Lib : K2Lib, !K2LibLaws} {G : Type} `{Nis : !NodeIdsManager G, !NodeIdsManagerLaws G}.
Context {F : Type} `{Fet : !K2TreeFetcher F, !K2TreeFetcherLaws F}.
Implicit Types (g : G) (f : F) (t : TripleNodeId).

(** The only response to an exact request. *)
Definition exact_answer (ids : Z * Z) (b : bool) : StreamOfTriplesMatchingPatternResponse :=
  mkStream ids.1 ids.2 [] true true b.

(** Asked for a triple, all three streamers say whether the pair of its _external_
    ids is a point of the predicate's tree, whose coordinates are internal ids. *)
Theorem exact_match_untranslated channel_id pattern_channel_id t threshold g f source P :
  let x := id_argument (t_subject t) in
  let y := id_argument (t_object t) in
  let answers := [exact_answer (channel_id, pattern_channel_id) (bool_decide ((x, y) ∈ P))] in
  fetcher_ok f → ¬ has_variable t → indexes source P →
  points_of f (nis_get_id (id_argument (t_predicate t)) g) = Some P →
  in_coords (fetcher_qw f) (x, y) →
  (∃ s f', new_TriplePatternMatchingStreamer channel_id pattern_channel_id t threshold g f = Ret (s, f') ∧
     ∀ n fuel, stream_all (S n) fuel g s f' = Ret (Some answers)) ∧
  (∃ s f', (∀ fuel, (0 < fuel)%nat →
       new_TPMSortedStreamer fuel channel_id pattern_channel_id t threshold g f = Ret (Some (s, f'))) ∧
     ∀ n fuel, stream_all (S n) fuel g s f' = Ret (Some answers)) ∧
  (∃ s, new_StreamerFromCachedSource source channel_id pattern_channel_id t threshold g = Ret s ∧
     ∀ n fuel, stream_all (S n) fuel g s f = Ret (Some answers)).
Proof.
  intros x y answers Hf Hv Hi HP Hxy.
  assert (Es : is_any (t_subject t) = false) by (apply not_true_iff_false; intros E; apply Hv; by left).
  assert (Eo : is_any (t_object t) = false) by (apply not_true_iff_false; intros E; apply Hv; by right).
  destruct (fetch_law f (nis_get_id (id_argument (t_predicate t)) g) Hf) as (r & f' & Ef & Hf' & Hq & Hqw' & Hr).
  rewrite HP in Hr. destruct Hr as (Hex & k & Ek & Hok & Hpt & Hqw).
  assert (Hhas : has x y k = bool_decide ((x, y) ∈ P)) by (rewrite has_spec, Hpt by (done || by rewrite Hqw); done).
  split; [|split].
  - unfold new_TriplePatternMatchingStreamer, initialize_scanner, fetch_get, exists_tree, pattern_scanner.
    rewrite Ef, Es, Eo. cbn [mbind outcome_bind]. rewrite Hex, Ek. cbn [negb deref mbind outcome_bind].
    eexists _, f'. split; [done|]. intros n fuel. unfold answers. simpl. fold x y. by rewrite Hhas.
  - unfold new_TPMSortedStreamer, get_all_data, fetch_get, exists_tree, pattern_scanner.
    rewrite Ef, Es, Eo. cbn [mbind outcome_bind]. rewrite Hex, Ek. cbn [negb deref mbind outcome_bind].
    eexists _, f'. split; [intros [|fuel]; [lia|done]|]. intros n fuel.
    destruct (fetch_law f' (nis_get_id (id_argument (t_predicate t)) g) Hf') as (r2 & f2 & Ef2 & _ & _ & _ & Hr2).
    rewrite Hq, HP in Hr2. destruct Hr2 as (_ & k2 & Ek2 & Hok2 & Hpt2 & Hqw2).
    unfold answers. simpl. unfold sorted_get_next_response. cbn.
    unfold get_empty_response, fetch_get. cbn [so_pattern deref mbind outcome_bind]. rewrite Ef2. simpl. rewrite Ek2. simpl.
    fold x y. by rewrite has_spec, Hpt2 by (done || by rewrite Hqw2, Hqw').
  - unfold new_StreamerFromCachedSource.
    change (bool_decide (node_data (t_subject t) = NODE_ANY)) with (is_any (t_subject t)).
    change (bool_decide (node_data (t_object t) = NODE_ANY)) with (is_any (t_object t)).
    rewrite Es, Eo. simpl. eexists. split; [done|]. intros n fuel.
    destruct (fip_has_spec source P x y Hi) as (source' & E & _).
    simpl. unfold fc_get_next_response. simpl. fold x y. by rewrite E.
Qed.

(** For a predicate the store does not have, the lazy streamer tells a pattern with a
    variable that there are no matches, but throws when asked for a triple; the
    sorting streamer dereferences a null pointer whatever it is asked. *)
Theorem unknown_predicate_fails channel_id pattern_channel_id t threshold g f :
  fetcher_ok f → points_of f (nis_get_id (id_argument (t_predicate t)) g) = None →
  (∃ s f', new_TriplePatternMatchingStreamer channel_id pattern_channel_id t threshold g f = Ret (s, f') ∧
     ∀ n fuel, stream_all (S n) (S fuel) g s f' =
       if decide (has_variable t) then Ret (Some [mkStream channel_id pattern_channel_id [] true false false])
       else Throw RuntimeError) ∧
  (∃ s f', (∀ fuel, new_TPMSortedStreamer fuel channel_id pattern_channel_id t threshold g f = Ret (Some (s, f'))) ∧
     ∀ n fuel, stream_all (S n) fuel g s f' = UB).
Proof.
  intros Hf HP.
  destruct (fetch_law f (nis_get_id (id_argument (t_predicate t)) g) Hf) as (r & f' & Ef & Hf' & Hq & _ & Hr).
  rewrite HP in Hr. destruct Hr as [Hex Ek]. split.
  - unfold new_TriplePatternMatchingStreamer, initialize_scanner, exists_tree. rewrite Ef.
    cbn [mbind outcome_bind]. rewrite Hex. eexists _, f'. split; [done|]. intros n fuel.
    assert (Hv : has_variable t ↔ is_any (t_subject t) || is_any (t_object t) = true) by (by rewrite orb_true_iff).
    rewrite (decide_ext _ _ _ _ Hv). simpl. unfold tpm_get_next_response. simpl.
    destruct (is_any (t_subject t)), (is_any (t_object t)); done.
  - unfold new_TPMSortedStreamer, exists_tree. rewrite Ef. cbn [mbind outcome_bind]. rewrite Hex.
    eexists _, f'. split; [done|]. intros n fuel.
    destruct (fetch_law f' (nis_get_id (id_argument (t_predicate t)) g) Hf') as (r2 & f2 & Ef2 & _ & _ & _ & Hr2).
    rewrite Hq, HP in Hr2. destruct Hr2 as [_ Ek2].
    simpl. unfold sorted_get_next_response. cbn.
    unfold get_empty_response, fetch_get. cbn [so_pattern deref mbind outcome_bind]. rewrite Ef2. simpl. by rewrite Ek2.
Qed.
End exact.

(** ** Instances of the theorems *)
Section witnesses.
#[local] Existing Instance Toy.toy_k2_lib.

Definition stream_store : TreeMap := mkTreeMap {[ 7 := toy_points_tree ]} (mkst 8 1 256).
Lemma stream_store_ok : fetcher_ok stream_store.
Proof. intros p t. simpl. intros [<- <-]%lookup_singleton_Some. apply toy_points_tree_ok. Qed.
Lemma stream_named (P : gset (Z * Z)) : bool_decide (set_Forall (λ p, in_u 64 p.1 ∧ in_u 64 p.2) P) = true →
  named (mkIdentity) P.
Proof. intros HP%bool_decide_eq_true p Hp. destruct (HP p Hp). by split; eexists. Qed.

(** The predicate 7, indexed. *)
Definition stream_source : FullyIndexedPredicate :=
  match new_FullyIndexedPredicate toy_points_tree with Ret f => f | _ => mkFIP ∅ ∅ ∅ ∅ end.
Lemma stream_source_ok : indexes stream_source (pts toy_points_tree).
Proof.
  unfold stream_source. by destruct (build_indexes toy_points_tree (proj1 toy_points_tree_ok)) as (f & -> & Hi).
Qed.

(** (?x 7 ?y), (?x 7 5) and (3 7 5). *)
Definition all_pairs : TripleNodeId := mkTripleNodeId create_any (mkNodeId 7) create_any.
Definition one_object : TripleNodeId := mkTripleNodeId create_any (mkNodeId 7) (mkNodeId 5).
Definition one_triple : TripleNodeId := mkTripleNodeId (mkNodeId 3) (mkNodeId 7) (mkNodeId 5).

Lemma stream_correct_witness :
  let P := default ∅ (points_of stream_store (nis_get_id (id_argument (t_predicate all_pairs)) mkIdentity)) in
  ∃ s f', new_TriplePatternMatchingStreamer 4 0 all_pairs 16 mkIdentity stream_store = Ret (s, f') ∧
    (∀ q, points_of f' q = points_of stream_store q) ∧
    ∀ n fuel, (base.size P < n)%nat → (base.size P < fuel)%nat → ∃ rs rows,
      stream_all n fuel mkIdentity s f' = Ret (Some rs) ∧
      whole_answer (4, 0) 16 rows rs ∧ rows ≡ₚ answer mkIdentity all_pairs P.
Proof.
  apply (stream_correct 4 0 all_pairs 16 mkIdentity stream_store).
  - done.
  - exact stream_store_ok.
  - by left.
  - apply stream_named. by vm_compute.
  - computed.
  - by left.
  - by left.
Defined.

Lemma cached_stream_correct_witness :
  let P := pts toy_points_tree in
  ∃ s, new_StreamerFromCachedSource stream_source 4 0 one_object 16 mkIdentity = Ret s ∧
    ∀ n fuel, (base.size P < n)%nat → (base.size P < fuel)%nat → ∃ rs rows,
      stream_all n fuel mkIdentity s stream_store = Ret (Some rs) ∧
      whole_answer (4, 0) 16 rows rs ∧ rows ≡ₚ answer mkIdentity one_object P.
Proof.
  apply (cached_stream_correct stream_source 4 0 one_object 16 mkIdentity stream_store).
  - done.
  - exact stream_source_ok.
  - by left.
  - by right.
  - apply stream_named. by vm_compute.
  - computed.
Defined.

(** The matches do not fit in 32 bytes; they fit in 1000. *)
Lemma sorted_stream_correct_witness :
  (∃ s f' r, (∀ fuel, (base.size (pts toy_points_tree) < fuel)%nat →
      new_TPMSortedStreamer fuel 4 0 all_pairs 32 mkIdentity stream_store = Ret (Some (s, f'))) ∧
    32 ≤ row_bytes (matching_values r) ∧
    (∀ n fuel, stream_calls n fuel mkIdentity s f' = Ret (Some (replicate n r, s, f'))) ∧
    (∀ n fuel, stream_all n fuel mkIdentity s f' = Ret None)) ∧
  (∃ s f' r, (∀ fuel, (base.size (pts toy_points_tree) < fuel)%nat →
      new_TPMSortedStreamer fuel 4 0 all_pairs 1000 mkIdentity stream_store = Ret (Some (s, f'))) ∧
    matching_values r ≡ₚ answer mkIdentity all_pairs (pts toy_points_tree) ∧
    (∀ n fuel, stream_all (S n) fuel mkIdentity s f' = Ret (Some [r]))).
Proof.
  assert (Hsize : ∀ rows, rows ≡ₚ answer mkIdentity all_pairs (pts toy_points_tree) → row_bytes rows = 48).
  { intros rows Hp. transitivity (row_bytes (answer mkIdentity all_pairs (pts toy_points_tree))); [|by vm_compute].
    unfold row_bytes. apply sumZ_perm. by rewrite Hp. }
  split.
  - destruct (sorted_stream_correct 4 0 all_pairs 32 mkIdentity stream_store (pts toy_points_tree))
      as (s & f' & rows & rows1 & rows2 & Hnew & Hp & _ & Hpart & _ & Hover & _ & Hcalls & _ & Hall);
      [done|exact stream_store_ok|by left|apply stream_named; by vm_compute|reflexivity|by vm_compute|by vm_compute
      |computed|by left|by left|].
    assert (Hne : rows2 ≠ []) by (apply Hover; by rewrite Hsize).
    eexists s, f', _. split; [exact Hnew|]. split; [|split; [exact Hcalls|by apply Hall]].
    destruct Hpart as (_ & H1 & _). by apply H1.
  - destruct (sorted_stream_correct 4 0 all_pairs 1000 mkIdentity stream_store (pts toy_points_tree))
      as (s & f' & rows & rows1 & rows2 & Hnew & Hp & _ & Hpart & Hfit & _ & _ & _ & Hall & _);
      [done|exact stream_store_ok|by left|apply stream_named; by vm_compute|reflexivity|by vm_compute|by vm_compute
      |computed|by left|by left|].
    destruct Hall as [-> Hall]; [apply Hfit; by rewrite Hsize|].
    exists s, f', (mkStream 4 0 rows (bool_decide (rows2 = [])) false false). split; [exact Hnew|]. split; [exact Hp|exact Hall].
Defined.

Lemma exact_match_untranslated_witness :
  let answers := [exact_answer (4, 0) (bool_decide ((3, 5) ∈ pts toy_points_tree))] in
  (∃ s f', new_TriplePatternMatchingStreamer 4 0 one_triple 16 mkIdentity stream_store = Ret (s, f') ∧
     ∀ n fuel, stream_all (S n) fuel mkIdentity s f' = Ret (Some answers)) ∧
  (∃ s f', (∀ fuel, (0 < fuel)%nat →
       new_TPMSortedStreamer fuel 4 0 one_triple 16 mkIdentity stream_store = Ret (Some (s, f'))) ∧
     ∀ n fuel, stream_all (S n) fuel mkIdentity s f' = Ret (Some answers)) ∧
  (∃ s, new_StreamerFromCachedSource stream_source 4 0 one_triple 16 mkIdentity = Ret s ∧
     ∀ n fuel, stream_all (S n) fuel mkIdentity s stream_store = Ret (Some answers)).
Proof.
  apply (exact_match_untranslated 4 0 one_triple 16 mkIdentity stream_store stream_source (pts toy_points_tree)).
  - exact stream_store_ok.
  - by intros [|].
  - exact stream_source_ok.
  - reflexivity.
  - computed.
Defined.

Lemma unknown_predicate_fails_witness :
  let store := mkTreeMap ∅ (mkst 8 1 256) in
  (∃ s f', new_TriplePatternMatchingStreamer 4 0 one_triple 16 mkIdentity store = Ret (s, f') ∧
     ∀ n fuel, stream_all (S n) (S fuel) mkIdentity s f' =
       if decide (has_variable one_triple) then Ret (Some [mkStream 4 0 [] true false false])
       else Throw RuntimeError) ∧
  (∃ s f', (∀ fuel, new_TPMSortedStreamer fuel 4 0 one_triple 16 mkIdentity store = Ret (Some (s, f'))) ∧
     ∀ n fuel, stream_all (S n) fuel mkIdentity s f' = UB).
Proof.
  apply (unknown_predicate_fails 4 0 one_triple 16 mkIdentity (mkTreeMap ∅ (mkst 8 1 256))).
  - by intros p t.
  - reflexivity.
Defined.
End witnesses.
