(* ===== verification/BgpStreamer.v ===== *)
(** * network/streaming/BgpStreamer.cpp: the rows of a query, in batches

    The first request plans the query; every request hands out the next rows, as
    external ids and in the order of the variables the client asked for. *)
From S2P Require Import Prelude Streams Memory Blocks K2Tree Scanners Fetcher CachedSource.
From S2P Require Import NodeIds BGPOps BGPIterator BGPProcessor Streaming.

Local Open Scope Z_scope.

(** ** proto/response_msg.proto: BgpJoinResponse *)
Record BgpJoinResponse := mkJoin {
  br_channel_id : Z;
  bgp_response_row : list (list Z);
  is_last : bool
}.

Section streamer.
Context `{Clk : Clock, Lib : K2Lib} {G : Type} `{Nis : !NodeIdsManager G} {F : Type} `{Fet : !K2TreeFetcher F}.

(** [sent_first_batch] is not initialised by the constructor: it is [None] until it
    is first written. The processor keeps the fetcher it plans with; the time
    control is shared by the processor and the iterator. *)
Record BGPStreamer := mkBGPStreamer {
  bs_channel_id : Z;
  bs_first_batch_small : bool;
  processor : BGPProcessor (F := F);
  query_iterator : option QueryIterator;
  permutation_vec : list Z;
  sent_first_batch : option bool
}.

Definition new_BGPStreamer (channel_id : Z) (message : BGPMessage) (g : G) (f : F)
    (timeout_ms : Z) (readings : nat) : BGPStreamer :=
  mkBGPStreamer channel_id (first_batch_small message)
    (new_BGPProcessor (λ r, nis_get_id r g) message f new_VarIndexManager
       (new_TimeControl 1000 timeout_ms readings)) None [] None.

(** QueryIterator.hpp: the virtual calls. *)
Definition qi_has_next (it : QueryIterator) : bool :=
  match it with ItBGP it => it_has_next it | ItEmpty _ => empty_has_next end.
Definition qi_next (fuel : nat) (it : QueryIterator) : outcome (option (list Z * QueryIterator)) :=
  match it with
  | ItBGP it => m ← it_next fuel it; Ret (option_map (λ r, (r.1, ItBGP r.2)) m)
  | ItEmpty _ => row ← empty_next; Ret (Some (row, it))
  end.

(** The first call plans the query, on the fetcher as it is by then. *)
Definition start_query (fuel : nat) (s : BGPStreamer) (f : F)
    : outcome (option (QueryIterator * BGPStreamer * F)) :=
  match query_iterator s with
  | Some it => Ret (Some (it, s, f))
  | None =>
      m ← execute_it fuel (set_cm (processor s) f);
      match m with
      | None => Ret None
      | Some (it, p) =>
          let '(perm, p) := get_permutation_vec p in
          Ret (Some (it, mkBGPStreamer (bs_channel_id s) (bs_first_batch_small s) p (Some it) perm
                           (sent_first_batch s), cm p))
      end
  end.

(** The values of a row: the loop runs over the columns of the row, not over the
    variables asked for. *)
Fixpoint row_values (cols : list nat) (permutation_vec row : list Z) (g : G) : outcome (list Z) :=
  match cols with
  | [] => Ret []
  | i :: cols =>
      column ← cell permutation_vec (Z.of_nat i);
      cache_value ← cell row column;
      let '(real_value, err) := real_id_of cache_value SUCCESS_ERR_CODE g in
      if decide (err ≠ SUCCESS_ERR_CODE) then Throw RuntimeError
      else
        values ← row_values cols permutation_vec row g;
        Ret (real_value :: values)
  end.

Definition max_batch_count : Z := 10000000.
Definition first_batch_count : Z := 100.

(** Whether the loop stops after [batch_count] rows. *)
Definition batch_done (s : BGPStreamer) (batch_count : Z) : outcome bool :=
  sent ← deref (sent_first_batch s);
  Ret ((negb sent && bs_first_batch_small s && bool_decide (first_batch_count ≤ batch_count)) ||
       bool_decide (max_batch_count ≤ batch_count)).

Fixpoint batch_loop (fuel step_fuel : nat) (g : G) (s : BGPStreamer) (it : QueryIterator)
    (batch_count : Z) (rows : list (list Z)) : outcome (option (list (list Z) * QueryIterator)) :=
  match fuel with
  | O => Ret None
  | S fuel =>
      if qi_has_next it then
        m ← qi_next step_fuel it;
        match m with
        | None => Ret None
        | Some (row, it) =>
            values ← row_values (seq 0 (length row)) (permutation_vec s) row g;
            batch_count ← int_chk (batch_count + 1);
            done ← batch_done s batch_count;
            if (done : bool) then Ret (Some (rows ++ [values], it))
            else batch_loop fuel step_fuel g s it batch_count (rows ++ [values])
        end
      else Ret (Some (rows, it))
  end.

Definition get_next_message (fuel step_fuel : nat) (g : G) (s : BGPStreamer) (f : F)
    : outcome (option (BgpJoinResponse * BGPStreamer * F)) :=
  m ← start_query step_fuel s f;
  match m with
  | None => Ret None
  | Some (it, s, f) =>
      m ← batch_loop fuel step_fuel g s it 0 [];
      match m with
      | None => Ret None
      | Some (rows, it) =>
          Ret (Some (mkJoin (bs_channel_id s) rows (negb (qi_has_next it)),
                     mkBGPStreamer (bs_channel_id s) (bs_first_batch_small s) (processor s) (Some it)
                       (permutation_vec s) (Some true), f))
      end
  end.

(** The time control that the query is running under. *)
Definition cancel_query (s : BGPStreamer) : BGPStreamer :=
  let p := processor s in
  mkBGPStreamer (bs_channel_id s) (bs_first_batch_small s)
    (mkProcessor (bgp_message p) (cm p) (vim p) (header_values p) (header_vec p) (join_incidence p)
       (header_reverse_map p) (force_cancel (p_time_control p)))
    (match query_iterator s with
     | Some (ItBGP it) => Some (ItBGP (set_time it (force_cancel (time_control it))))
     | o => o
     end) (permutation_vec s) (sent_first_batch s).

(** What a client does: it asks for more until a response is the last. *)
Fixpoint join_all (n fuel step_fuel : nat) (g : G) (s : BGPStreamer) (f : F)
    : outcome (option (list BgpJoinResponse)) :=
  match n with
  | O => Ret None
  | S n =>
      m ← get_next_message fuel step_fuel g s f;
      match m with
      | None => Ret None
      | Some (r, s, f) =>
          if is_last r then Ret (Some [r])
          else rs ← join_all n fuel step_fuel g s f; Ret (option_map (cons r) rs)
      end
  end.
End streamer.

(** ** Rows and assignments

    The columns of the variables asked for, when they are the variables of the
    patterns, are all the columns: a row and the values of those variables are the
    same thing. *)

(** The variables with their values. *)
Definition assignment_of (vars : list (list Z)) (values : list Z) : gmap (list Z) Z :=
  list_to_map (zip vars values).
Definition node_value (a : gmap (list Z) Z) (node : BGPNode) : option Z :=
  if is_concrete node then Some (cache_node_id node) else a !! var_name node.
Definition triple_true (points : Z → option (gset (Z * Z))) (a : gmap (list Z) Z) (t : BGPTriple) : Prop :=
  ∃ P s o, points (predicate_of t) = Some P ∧ node_value a (b_subject t) = Some s ∧
    node_value a (b_object t) = Some o ∧ (s, o) ∈ P.
(** The values that solve the patterns, in the order of the variables. *)
Definition solves (points : Z → option (gset (Z * Z))) (d : Z) (ts : list BGPTriple)
    (vars : list (list Z)) (values : list Z) : Prop :=
  length values = length vars ∧ Forall (coord d) values ∧
  Forall (triple_true points (assignment_of vars values)) ts.

Lemma Forall_iff_in {A} (P Q : A → Prop) l : (∀ x, x ∈ l → P x ↔ Q x) → Forall P l ↔ Forall Q l.
Proof. intros HPQ. rewrite !Forall_forall. naive_solver. Qed.

Section columns.
Context (vi : gmap (list Z) Z) (rm : gmap Z Z) (n : nat) (names vars : list (list Z)).
Context (Hpl : planned vi rm n names) (Hnd : NoDup vars) (Hvars : ∀ x, x ∈ vars ↔ x ∈ names).

Definition cols : list nat := (λ x, Z.to_nat (column vi rm x)) <$> vars.
Definition pick (r : list Z) : list Z := (λ c, r !!! c) <$> cols.
Definition unpick (v : list Z) : list Z :=
  (λ k, default 0 ((list_to_map (zip cols v) : gmap nat Z) !! k)) <$> seq 0 n.

Lemma cols_perm : cols ≡ₚ seq 0 n.
Proof.
  apply NoDup_Permutation; [|apply NoDup_seq|].
  - unfold cols. apply NoDup_fmap_2_strong; [|done]. intros x y Hx%Hvars Hy%Hvars E.
    destruct (column_spec _ _ _ _ Hpl x Hx) as (_ & _ & _ & Px & _).
    destruct (column_spec _ _ _ _ Hpl y Hy) as (_ & _ & _ & Py & _).
    apply (column_inj _ _ _ _ Hpl); [done..|]. unfold is_pos in *. lia.
  - intros k. unfold cols. rewrite list_elem_of_fmap, elem_of_seq. split.
    + intros (x & -> & Hx%Hvars). destruct (column_spec _ _ _ _ Hpl x Hx) as (_ & _ & _ & Px & _).
      unfold is_pos in Px. lia.
    + intros Hk. destruct (column_onto _ _ _ _ Hpl k) as (x & Hx & E); [lia|]. exists x. by rewrite Hvars.
Qed.
Lemma NoDup_cols : NoDup cols.
Proof. rewrite cols_perm. apply NoDup_seq. Qed.
Lemma length_cols : length cols = n.
Proof. by rewrite cols_perm, length_seq. Qed.
Lemma length_vars : length vars = n.
Proof. rewrite <-length_cols. unfold cols. by rewrite length_fmap. Qed.
Lemma length_pick r : length (pick r) = n.
Proof. unfold pick. by rewrite length_fmap, length_cols. Qed.
Lemma length_unpick v : length (unpick v) = n.
Proof. unfold unpick. by rewrite length_fmap, length_seq. Qed.

(** Looking a key of a list without repetitions up among its values. *)
Lemma lookup_zip {K} `{Countable K} (ks : list K) (vs : list Z) i k v :
  NoDup ks → ks !! i = Some k → vs !! i = Some v → (list_to_map (zip ks vs) : gmap K Z) !! k = Some v.
Proof.
  intros Hks Hk Hv. apply elem_of_list_to_map_1'.
  - intros v' Hin. apply list_elem_of_lookup in Hin as [j Hj]. apply lookup_zip_Some in Hj as [Hj1 Hj2].
    assert (j = i) as -> by by eapply NoDup_lookup. congruence.
  - apply list_elem_of_lookup. exists i. by apply lookup_zip_Some.
Qed.

Lemma pick_lookup r i x : length r = n → vars !! i = Some x →
  pick r !! i = r !! Z.to_nat (column vi rm x) ∧ is_Some (pick r !! i).
Proof.
  intros Hr Hx. unfold pick, cols. rewrite !list_lookup_fmap, Hx. simpl.
  assert (Hin : x ∈ names) by (apply Hvars; by eapply list_elem_of_lookup_2).
  destruct (column_spec _ _ _ _ Hpl x Hin) as (_ & _ & _ & Px & _). unfold is_pos in Px.
  destruct (lookup_lt_is_Some_2 r (Z.to_nat (column vi rm x))) as [v E]; [lia|].
  rewrite E, (list_lookup_total_correct _ _ _ E). eauto.
Qed.
Lemma unpick_lookup v i x : length v = n → vars !! i = Some x →
  unpick v !! Z.to_nat (column vi rm x) = v !! i.
Proof.
  intros Hv Hx. assert (Hc : cols !! i = Some (Z.to_nat (column vi rm x))) by (unfold cols; by rewrite list_lookup_fmap, Hx).
  assert (Hin : Z.to_nat (column vi rm x) ∈ seq 0 n) by (rewrite <-cols_perm; by eapply list_elem_of_lookup_2).
  apply elem_of_seq in Hin. unfold unpick. rewrite list_lookup_fmap, lookup_seq_lt by lia. simpl.
  destruct (lookup_lt_is_Some_2 v i) as [y Ey]; [rewrite Hv, <-length_vars; by eapply lookup_lt_Some|].
  by rewrite (lookup_zip cols v i _ y NoDup_cols Hc Ey).
Qed.
Lemma pick_unpick v : length v = n → pick (unpick v) = v.
Proof.
  intros Hv. apply list_eq. intros i. destruct (vars !! i) as [x|] eqn:Ex.
  - destruct (pick_lookup (unpick v) i x (length_unpick v) Ex) as [-> _]. by apply unpick_lookup.
  - apply lookup_ge_None in Ex. rewrite length_vars in Ex.
    by rewrite !lookup_ge_None_2 by (rewrite ?length_pick; lia).
Qed.
Lemma pick_inj r r' : length r = n → length r' = n → pick r = pick r' → r = r'.
Proof.
  intros Hr Hr' E. apply list_eq. intros k. destruct (decide (k < n)%nat) as [Hk|Hk].
  - assert (Hin : k ∈ cols) by (rewrite cols_perm; apply elem_of_seq; lia).
    unfold cols in Hin. apply list_elem_of_fmap in Hin as (x & -> & [i Hi]%list_elem_of_lookup).
    rewrite <-(proj1 (pick_lookup r i x Hr Hi)), <-(proj1 (pick_lookup r' i x Hr' Hi)). by rewrite E.
  - by rewrite !lookup_ge_None_2 by lia.
Qed.

Lemma node_value_pick r node : length r = n → (∀ x, x ∈ node_vars node → x ∈ names) →
  term_value r (node_term vi rm node) = node_value (assignment_of vars (pick r)) node.
Proof.
  intros Hr Hx. unfold node_term, node_value, node_vars in *. destruct (is_concrete node); [done|]. simpl.
  specialize (Hx (var_name node) ltac:(by left)). rewrite <-Hvars in Hx.
  apply list_elem_of_lookup in Hx as [i Hi]. destruct (pick_lookup r i _ Hr Hi) as [E [y Ey]].
  rewrite <-E, Ey. symmetry. by apply (lookup_zip vars (pick r) i).
Qed.

Lemma solves_pick points d ts r : length r = n → (∀ x, x ∈ message_vars ts → x ∈ names) →
  complete_row n (coord d) r ∧ Forall (triple_holds points vi rm r) ts ↔ solves points d ts vars (pick r).
Proof.
  intros Hr Hts. unfold solves. rewrite length_pick, length_vars.
  assert (Ht : Forall (triple_holds points vi rm r) ts ↔ Forall (triple_true points (assignment_of vars (pick r))) ts).
  { apply Forall_iff_in. intros t Ht. unfold triple_holds, triple_true.
    assert (Hin : ∀ x, x ∈ triple_vars t → x ∈ names).
    { intros x Hx. apply Hts. unfold message_vars. apply list_elem_of_bind. eauto. }
    unfold triple_vars in Hin. by rewrite !node_value_pick by (done || intros; apply Hin; set_solver). }
  rewrite Ht. split.
  - intros [[_ Hc] ?]. split; [done|]. split; [|done]. apply Forall_lookup. intros i v Hv.
    assert (Hi : (i < n)%nat) by (rewrite <-(length_pick r); by eapply lookup_lt_Some).
    destruct (lookup_lt_is_Some_2 vars i) as [x Hx]; [by rewrite length_vars|].
    destruct (pick_lookup r i x Hr Hx) as [E _]. rewrite Hv in E.
    assert (Hk : (Z.to_nat (column vi rm x) < n)%nat) by (rewrite <-Hr; by eapply lookup_lt_Some).
    destruct (Hc _ Hk) as (v' & Ev & ?). congruence.
  - intros (_ & Hc & ?). split; [|done]. split; [done|]. intros k Hk.
    assert (Hin : k ∈ cols) by (rewrite cols_perm; apply elem_of_seq; lia).
    unfold cols in Hin. apply list_elem_of_fmap in Hin as (x & -> & [i Hi]%list_elem_of_lookup).
    destruct (pick_lookup r i x Hr Hi) as [E [y Ey]]. exists y. rewrite <-E. split; [done|].
    by eapply Forall_lookup_1.
Qed.
End columns.

(** ** Batches *)

Section batches.
Context `{Clk : Clock, Lib : K2Lib} {G : Type} `{Nis : !NodeIdsManager G} {F : Type} `{Fet : !K2TreeFetcher F}.
Implicit Types (g : G) (f : F) (s : BGPStreamer (F := F)).

(** The rows an iterator still has. *)
Inductive rows_left (step_fuel : nat) : QueryIterator → list (list Z) → Prop :=
  | left_nil it : qi_has_next it = false → rows_left step_fuel it []
  | left_cons it it' row rows : qi_has_next it = true → qi_next step_fuel it = Ret (Some (row, it')) →
      rows_left step_fuel it' rows → rows_left step_fuel it (row :: rows).
Lemma all_rows_left fuel step_fuel it rows :
  all_rows fuel step_fuel it = Ret (Some rows) → rows_left step_fuel (ItBGP it) rows.
Proof.
  revert it rows. induction fuel as [|fuel IH]; intros it rows; [done|]. cbn [all_rows].
  destruct (it_has_next it) eqn:E; [|intros [= <-]; by constructor].
  destruct (it_next step_fuel it) as [[[row it']|]| |] eqn:En; cbn [mbind outcome_bind]; try done.
  destruct (all_rows fuel step_fuel it') as [[rest|]| |] eqn:Er; cbn [mbind outcome_bind]; try done.
  intros [= <-]. eapply left_cons; [exact E| |by apply IH]. simpl. by rewrite En.
Qed.
Lemma left_more step_fuel it rows : rows_left step_fuel it rows →
  negb (qi_has_next it) = bool_decide (rows = []).
Proof. inversion 1 as [? E|? ? ? ? E]; by rewrite E. Qed.

(** What a client may see: full batches, of which the last one may be shorter and
    alone says it is the last. *)
Fixpoint batches (limit : Z) (rs : list BgpJoinResponse) : Prop :=
  match rs with
  | [] => False
  | [r] => is_last r = true ∧ Z.of_nat (length (bgp_response_row r)) ≤ limit
  | r :: rs => is_last r = false ∧ Z.of_nat (length (bgp_response_row r)) = limit ∧
      batches max_batch_count rs
  end.
Definition batch_limit (sent first_small : bool) : Z :=
  if negb sent && first_small then first_batch_count else max_batch_count.

(** A streamer in the middle of its answer. *)
Definition serving (step_fuel : nat) g s (tr : list Z → list Z) (it : QueryIterator) (rows : list (list Z)) : Prop :=
  rows_left step_fuel it rows ∧
  Forall (λ row, row_values (seq 0 (length row)) (permutation_vec s) row g = Ret (tr row)) rows.

Lemma batch_done_spec s b count : sent_first_batch s = Some b →
  batch_done s count = Ret (bool_decide (batch_limit b (bs_first_batch_small s) ≤ count)).
Proof.
  intros E. unfold batch_done, batch_limit. rewrite E. cbn [deref mbind outcome_bind]. f_equal.
  destruct (negb b && bs_first_batch_small s); simpl; [|done].
  unfold first_batch_count, max_batch_count. repeat case_bool_decide; simpl; (done || lia).
Qed.

Lemma batch_loop_spec step_fuel g s tr b : sent_first_batch s = Some b →
  let limit := batch_limit b (bs_first_batch_small s) in
  ∀ it rows, serving step_fuel g s tr it rows → ∀ fuel count acc,
  (length rows < fuel)%nat → 0 ≤ count < limit →
  ∃ it' rows1 rows2, rows = rows1 ++ rows2 ∧
    batch_loop fuel step_fuel g s it count acc = Ret (Some (acc ++ (tr <$> rows1), it')) ∧
    serving step_fuel g s tr it' rows2 ∧ count + Z.of_nat (length rows1) ≤ limit ∧
    (rows2 ≠ [] → count + Z.of_nat (length rows1) = limit).
Proof.
  intros Hb limit it rows [Hl Htr]. assert (Hlim : limit ≤ max_batch_count).
  { unfold limit, batch_limit, first_batch_count, max_batch_count. case_match; lia. }
  assert (Hmax : max_batch_count = 10000000) by done.
  induction Hl as [it Hn|it it1 row rows Hn Hx Hl IH]; intros fuel count acc Hf Hc;
    (destruct fuel as [|fuel]; [simpl in Hf; lia|]); cbn [batch_loop]; rewrite Hn.
  - exists it, [], []. rewrite fmap_nil, !app_nil_r. split_and!; try done; [split; by constructor|simpl; lia].
  - apply Forall_cons in Htr as [Hr Htr]. rewrite Hx. cbn [mbind outcome_bind]. rewrite Hr.
    unfold int_chk. rewrite decide_True by lia. cbn [mbind outcome_bind].
    rewrite (batch_done_spec s b) by done. fold limit. cbn [mbind outcome_bind]. case_bool_decide as Hd.
    + exists it1, [row], rows. split_and!; try done; simpl; lia.
    + simpl in Hf. destruct (IH Htr fuel (count + 1) (acc ++ [tr row])) as (it' & rows1 & rows2 & -> & -> & Hs & H1 & H2); [lia..|].
      exists it', (row :: rows1), rows2. rewrite <-app_assoc. split_and!; try done; simpl; [lia|].
      intros Hne. specialize (H2 Hne). lia.
Qed.

Lemma get_next_message_spec step_fuel g s f tr b it rows fuel :
  sent_first_batch s = Some b → query_iterator s = Some it → serving step_fuel g s tr it rows →
  (length rows < fuel)%nat →
  ∃ it' rows1 rows2, rows = rows1 ++ rows2 ∧
    get_next_message fuel step_fuel g s f =
      Ret (Some (mkJoin (bs_channel_id s) (tr <$> rows1) (bool_decide (rows2 = [])),
                 mkBGPStreamer (bs_channel_id s) (bs_first_batch_small s) (processor s) (Some it')
                   (permutation_vec s) (Some true), f)) ∧
    serving step_fuel g s tr it' rows2 ∧
    Z.of_nat (length rows1) ≤ batch_limit b (bs_first_batch_small s) ∧
    (rows2 ≠ [] → Z.of_nat (length rows1) = batch_limit b (bs_first_batch_small s)).
Proof.
  intros Hb Hit Hs Hf.
  destruct (batch_loop_spec step_fuel g s tr b Hb it rows Hs fuel 0 []) as (it' & rows1 & rows2 & -> & E & Hs' & H1 & H2);
    [done|unfold batch_limit, first_batch_count, max_batch_count; case_match; lia|].
  exists it', rows1, rows2. split; [done|]. split; [|by split_and!].
  unfold get_next_message, start_query. rewrite Hit. cbn [mbind outcome_bind]. rewrite E. cbn [mbind outcome_bind].
  by rewrite (left_more _ _ _ (proj1 Hs')).
Qed.

Lemma join_all_spec step_fuel g f tr fuel : ∀ n s b it rows,
  sent_first_batch s = Some b → query_iterator s = Some it → serving step_fuel g s tr it rows →
  (length rows < fuel)%nat → (length rows < n)%nat →
  ∃ rs, join_all n fuel step_fuel g s f = Ret (Some rs) ∧ rs ≫= bgp_response_row = tr <$> rows ∧
    batches (batch_limit b (bs_first_batch_small s)) rs ∧ Forall (λ r, br_channel_id r = bs_channel_id s) rs.
Proof.
  induction n as [|n IH]; intros s b it rows Hb Hit Hs Hf Hn; [lia|]. cbn [join_all].
  destruct (get_next_message_spec step_fuel g s f tr b it rows fuel Hb Hit Hs Hf)
    as (it' & rows1 & rows2 & -> & -> & Hs' & H1 & H2). cbn [mbind outcome_bind is_last]. case_bool_decide as Hl.
  - subst rows2. exists [mkJoin (bs_channel_id s) (tr <$> rows1) true]. rewrite app_nil_r. simpl.
    rewrite app_nil_r, length_fmap. by repeat (split || constructor).
  - specialize (H2 Hl). rewrite length_app in *.
    set (s' := mkBGPStreamer _ _ _ _ _ _).
    destruct (IH s' true it' rows2) as (rs & -> & Hrows & Hb' & Hid); [done|done|done|lia| |].
    { destruct rows1; simpl in *; [|lia]. revert H2. unfold batch_limit, first_batch_count, max_batch_count. case_match; lia. }
    eexists. split; [done|]. split; [by rewrite bind_cons, Hrows, fmap_app|].
    split; [|by constructor]. destruct rs as [|r rs]; [done|]. simpl. rewrite length_fmap.
    split; [done|]. split; [done|]. by destruct (bs_first_batch_small s).
Qed.
End batches.

(** ** A whole query over the wire *)

Section answers.
Context `{Clk : Clock, Lib : K2Lib, !K2LibLaws} {G : Type} `{Nis : !NodeIdsManager G, !NodeIdsManagerLaws G}.
Context {F : Type} `{Fet : !K2TreeFetcher F, !K2TreeFetcherLaws F}.
Implicit Types (g : G) (f : F) (m : BGPMessage).

(** A streamer whose member [sent_first_batch], which the constructor leaves alone, happens
    to hold [b]. *)
Definition holding (b : bool) (s : BGPStreamer (F := F)) : BGPStreamer (F := F) :=
  mkBGPStreamer (bs_channel_id s) (bs_first_batch_small s) (processor s) (query_iterator s)
    (permutation_vec s) (Some b).

(** The patterns of a message with the ids of its constants. *)
Definition asked g m : list BGPTriple := fill_triple (λ r, nis_get_id r g) <$> patterns m.
(** The queries covered: all predicates exist, every variable asked for occurs in
    the patterns, and the points have external ids. *)
Record servable g f m : Prop := {
  sv_ids : nis_ok g;
  sv_fetcher : fetcher_ok f;
  sv_supported : supported f (asked g m);
  sv_predicates t : t ∈ asked g m → predicate_of t ≠ 0 ∧ is_Some (points_of f (predicate_of t));
  sv_vars x : x ∈ var_names m → x ∈ message_vars (asked g m);
  sv_named q P : points_of f q = Some P → named g P
}.
(** The external ids of a solution. *)
Definition external g (v : list Z) : list Z := real_id g <$> v.
(** All the variables are asked for, once. *)
Definition all_variables g m : Prop :=
  NoDup (var_names m) ∧ ∀ x, x ∈ message_vars (asked g m) → x ∈ var_names m.

(** The columns of the names, read from a row. *)
Lemma row_values_spec g row (col : list Z → Z) names : nis_ok g →
  Forall (λ x, 0 ≤ col x ∧ ∃ v y, row !! Z.to_nat (col x) = Some v ∧ nis_maps g y v) names → ∀ pre k,
  row_values (seq (length pre) (length names + k)) (pre ++ (col <$> names)) row g =
  match k with
  | O => Ret ((λ x, real_id g (row !!! Z.to_nat (col x))) <$> names)
  | S _ => UB
  end.
Proof.
  intros Hg. induction 1 as [|x names (Hc & v & y & Hv & Hy) Hall IH]; intros pre k.
  - destruct k as [|k]; [done|]. simpl. unfold cell. rewrite decide_False, Nat2Z.id by lia.
    by rewrite app_nil_r, lookup_ge_None_2 by lia.
  - rewrite fmap_cons. cbn [length Nat.add seq row_values]. rewrite (cell_in _ _ (col x)) by (try rewrite Nat2Z.id; try apply list_lookup_middle; done || lia).
    cbn [mbind outcome_bind]. rewrite (cell_in _ _ v) by done. cbn [mbind outcome_bind].
    destruct (real_id_known g y v Hg Hy) as [-> Ey]. rewrite decide_False by tauto.
    specialize (IH (pre ++ [col x]) k). rewrite length_app, <-app_assoc in IH. cbn [length app] in IH.
    rewrite Nat.add_1_r in IH. rewrite IH. destruct k; [|done]. cbn [mbind outcome_bind]. rewrite fmap_cons.
    by rewrite (list_lookup_total_correct _ _ _ Hv), Ey.
Qed.

(** What a row holds has external ids. *)
Lemma row_named g f m vi rm n row x : servable g f m →
  planned vi rm n (message_vars (asked g m)) → length row = n →
  Forall (triple_holds (points_of f) vi rm row) (asked g m) → x ∈ message_vars (asked g m) →
  0 ≤ column vi rm x ∧ ∃ v y, row !! Z.to_nat (column vi rm x) = Some v ∧ nis_maps g y v.
Proof.
  intros Hs Hpl Hr Ht Hx. destruct (column_spec _ _ _ _ Hpl x Hx) as (_ & _ & _ & [Hpos _] & _).
  split; [done|]. unfold message_vars in Hx. apply list_elem_of_bind in Hx as (t & Hx & Hin).
  rewrite Forall_forall in Ht. destruct (Ht t Hin) as (P & s & o & HP & Es & Eo & Hso).
  destruct (sv_named _ _ _ Hs _ _ HP _ Hso) as [(r1 & M1 & _) (r2 & M2 & _)].
  unfold triple_vars, node_vars in Hx. unfold node_term in Es, Eo.
  destruct (is_concrete (b_subject t)), (is_concrete (b_object t)); simpl in *;
    repeat (apply elem_of_cons in Hx as [->|Hx]); try (by apply not_elem_of_nil in Hx); eauto.
Qed.

(** The query is planned: the iterator has the solutions. *)
Lemma query_started channel_id m g f timeout readings :
  servable g f m → live (new_TimeControl 1000 timeout readings) →
  ∃ enough, ∀ fuel, (enough ≤ fuel)%nat → ∃ it p' rows vi rm n,
    (∀ sent, start_query fuel (mkBGPStreamer channel_id (first_batch_small m)
         (processor (new_BGPStreamer channel_id m g f timeout readings)) None [] sent) f =
       Ret (Some (it, mkBGPStreamer channel_id (first_batch_small m) p' (Some it)
                        (column vi rm <$> var_names m) sent, cm p'))) ∧
    rows_left fuel it rows ∧ planned vi rm n (message_vars (asked g m)) ∧ NoDup rows ∧
    ∀ r, r ∈ rows ↔ complete_row n (coord (st_tree_depth (fetcher_qw f))) r ∧
           Forall (triple_holds (points_of f) vi rm r) (asked g m).
Proof.
  intros Hs Hl.
  destruct (execute_it_spec (λ r, nis_get_id r g) m f _ (sv_fetcher _ _ _ Hs) Hl (sv_supported _ _ _ Hs)
    (sv_predicates _ _ _ Hs)) as (enough & Hit). exists enough. intros fuel Hfuel.
  destruct (Hit fuel Hfuel) as (it & p' & rows & E & Hall & Hnd & Hrows & Hperm & Hpl & _).
  exists (ItBGP it), p', rows, (var_indexes (vim p')), (header_reverse_map p'), (length (header_vec p')).
  split; [|split; [|by split_and!]].
  - intros sent. unfold start_query. cbn [query_iterator processor new_BGPStreamer]. change (set_cm _ f) with
      (new_BGPProcessor (λ r, nis_get_id r g) m f new_VarIndexManager (new_TimeControl 1000 timeout readings)).
    rewrite E. cbn [mbind outcome_bind]. specialize (Hperm (sv_vars _ _ _ Hs)).
    by rewrite Hperm.
  - eapply all_rows_left, Hall. apply Nat.lt_succ_diag_r.
Qed.
(** A streamer that holds nothing reads it at the first row. *)
Lemma unset_first_row step_fuel g s tr it row rows fuel : sent_first_batch s = None →
  serving step_fuel g s tr it (row :: rows) → batch_loop (F := F) (S fuel) step_fuel g s it 0 [] = UB.
Proof.
  intros Hn [Hleft Hall]. apply Forall_inv in Hall. inversion Hleft as [|? it' ? ? Hmore Hnext _]; subst.
  cbn [batch_loop]. rewrite Hmore, Hnext. cbn [mbind outcome_bind]. rewrite Hall. cbn [mbind outcome_bind].
  unfold batch_done. by rewrite Hn.
Qed.

(** C9: A client that sends a query and asks for more until told it has the last batch. When
    nothing solves the patterns it gets one empty batch, the last. When something does, the server's
    behaviour is undefined: the first row makes it read [sent_first_batch], which its constructor
    does not initialise. Where that member happens to hold a value, the client gets every solution
    once, as external ids in the order of the variables it named, in batches that are full but for
    the last one; the value decides only whether the first batch may be a small one. *)
Theorem bgp_stream_correct channel_id m g f timeout readings :
  let s := new_BGPStreamer channel_id m g f timeout readings in
  servable g f m → all_variables g m → live (new_TimeControl 1000 timeout readings) →
  ∃ enough, ∀ step_fuel, (enough ≤ step_fuel)%nat → ∃ sols,
    NoDup sols ∧
    (∀ v, v ∈ sols ↔ solves (points_of f) (st_tree_depth (fetcher_qw f)) (asked g m) (var_names m) v) ∧
    ∀ n fuel, (length sols < n)%nat → (length sols < fuel)%nat →
      join_all n fuel step_fuel g s f =
        (if decide (sols = []) then Ret (Some [mkJoin channel_id [] true]) else UB) ∧
      ∀ b, ∃ rs, join_all n fuel step_fuel g (holding b s) f = Ret (Some rs) ∧
        rs ≫= bgp_response_row = external g <$> sols ∧
        batches (batch_limit b (first_batch_small m)) rs ∧ Forall (λ r, br_channel_id r = channel_id) rs.
Proof.
  intros s Hs [Hnd Hall] Hl.
  destruct (query_started channel_id m g f timeout readings Hs Hl) as (enough & Hstart).
  exists enough. intros step_fuel Hfuel.
  destruct (Hstart step_fuel Hfuel) as (it & p' & rows & vi & rm & n & Est & Hleft & Hpl & Hndr & Hrows).
  assert (Hiff : ∀ x, x ∈ var_names m ↔ x ∈ message_vars (asked g m)) by (split; [apply (sv_vars _ _ _ Hs)|apply Hall]).
  assert (Hlen : ∀ r, r ∈ rows → length r = n) by (intros r [[? _] _]%Hrows; done).
  exists (pick vi rm (var_names m) <$> rows). split; [|split].
  - apply NoDup_fmap_2_strong; [|done]. intros r r' Hr Hr'. by apply (pick_inj vi rm n (message_vars (asked g m))); auto.
  - intros v. rewrite list_elem_of_fmap. split.
    + intros (r & -> & Hr). apply (solves_pick vi rm n (message_vars (asked g m))); auto. by apply Hrows.
    + intros Hv. assert (Hvl : length v = n).
      { destruct Hv as [-> _]. by apply (length_vars vi rm n (message_vars (asked g m))). }
      exists (unpick vi rm n (var_names m) v). rewrite (pick_unpick vi rm n (message_vars (asked g m))) by done.
      split; [done|]. apply Hrows, (solves_pick vi rm n (message_vars (asked g m)) (var_names m)); try done.
      * apply length_unpick.
      * by rewrite (pick_unpick vi rm n (message_vars (asked g m))).
  - intros k fuel Hk Hf. rewrite length_fmap in Hk, Hf.
    set (s' := mkBGPStreamer channel_id (first_batch_small m) p' (Some it) (column vi rm <$> var_names m)).
    assert (Hserve : ∀ sent, serving step_fuel g (s' sent) (λ r, external g (pick vi rm (var_names m) r)) it rows).
    { intros sent. split; [exact Hleft|]. apply Forall_forall. intros r Hr.
      pose proof (row_values_spec g r (column vi rm) (var_names m) (sv_ids _ _ _ Hs)) as Hvals.
      specialize (Hvals ltac:(apply Forall_forall; intros x Hx; apply (row_named g f m vi rm n);
        [done|done|by apply Hlen|by apply Hrows|by apply Hiff])
        [] O). rewrite Nat.add_0_r in Hvals. simpl in Hvals.
      rewrite (Hlen r Hr), <-(length_vars vi rm n (message_vars (asked g m)) (var_names m)) by done.
      simpl. rewrite Hvals. f_equal. unfold external, pick, cols. by rewrite <-!list_fmap_compose. }
    destruct k as [|k]; [lia|]. split.
    + destruct fuel as [|fuel]; [lia|]. cbn [join_all]. unfold get_next_message.
      change (start_query step_fuel s f) with (start_query step_fuel (mkBGPStreamer channel_id (first_batch_small m)
        (processor (new_BGPStreamer channel_id m g f timeout readings)) None [] None) f). rewrite Est. fold (s' None).
      cbn [mbind outcome_bind]. destruct rows as [|row rows].
      * inversion Hleft as [? Hno|]; subst. cbn [batch_loop]. rewrite Hno. cbn [mbind outcome_bind]. by rewrite Hno.
      * rewrite (unset_first_row step_fuel g (s' None) _ _ _ _ _ eq_refl (Hserve None)). done.
    + intros b. destruct (join_all_spec step_fuel g (cm p') _ fuel (S k) (s' (Some b)) b it rows eq_refl eq_refl (Hserve _) Hf Hk)
        as (rs & E & Hr & Hb & Hid).
      exists rs. split; [|split; [by rewrite Hr, <-list_fmap_compose|by split]].
      rewrite <-E. cbn [join_all]. unfold get_next_message.
      change (start_query step_fuel (holding b s) f) with (start_query step_fuel (mkBGPStreamer channel_id (first_batch_small m)
        (processor (new_BGPStreamer channel_id m g f timeout readings)) None [] (Some b)) f). by rewrite Est.
Qed.

(** As written, the streamer is broken for every query with a solution: the first
    row makes it read [sent_first_batch], which nothing has written. And where
    that member happens to hold a value, a query that leaves a variable of its
    patterns out makes it read past the end of the permutation. *)
Theorem first_row_undefined channel_id m g f timeout readings :
  let s := new_BGPStreamer channel_id m g f timeout readings in
  servable g f m → NoDup (var_names m) → live (new_TimeControl 1000 timeout readings) →
  (∃ v, solves (points_of f) (st_tree_depth (fetcher_qw f)) (asked g m)
          (remove_dups (message_vars (asked g m))) v) →
  ∃ enough, ∀ step_fuel fuel, (enough ≤ step_fuel)%nat → (0 < fuel)%nat →
    get_next_message fuel step_fuel g s f = UB ∧
    ((∃ x, x ∈ message_vars (asked g m) ∧ x ∉ var_names m) → ∀ b,
     get_next_message fuel step_fuel g (holding b s) f = UB).
Proof.
  intros s Hs Hnd Hl [v Hv].
  destruct (query_started channel_id m g f timeout readings Hs Hl) as (enough & Hstart).
  exists enough. intros step_fuel fuel Hfuel Hf. destruct fuel as [|fuel]; [lia|].
  destruct (Hstart step_fuel Hfuel) as (it & p' & rows & vi & rm & n & Est & Hleft & Hpl & _ & Hrows).
  assert (Hset : ∀ x, x ∈ remove_dups (message_vars (asked g m)) ↔ x ∈ message_vars (asked g m)) by (intros; apply elem_of_remove_dups).
  pose proof (NoDup_remove_dups (message_vars (asked g m))) as Hnd'.
  pose proof (length_vars vi rm n _ _ Hpl Hnd' Hset) as Hn.
  assert (Hr : unpick vi rm n (remove_dups (message_vars (asked g m))) v ∈ rows).
  { apply Hrows, (solves_pick vi rm n (message_vars (asked g m)) (remove_dups (message_vars (asked g m)))); try done.
    - apply length_unpick.
    - rewrite (pick_unpick vi rm n (message_vars (asked g m))); try done. destruct Hv as [-> _]. done. }
  destruct Hleft as [it Hno|it it' row rows Hmore Hnext Hleft]; [by apply not_elem_of_nil in Hr|]. clear Hr.
  assert (Hrow : length row = n ∧ Forall (triple_holds (points_of f) vi rm row) (asked g m)).
  { destruct (Hrows row) as [[[? _] ?] _]; [by left|done]. }
  pose proof (row_values_spec g row (column vi rm) (var_names m) (sv_ids _ _ _ Hs)) as Hvals.
  specialize (Hvals ltac:(apply Forall_forall; intros x Hx; apply (row_named g f m vi rm n); try tauto; by apply (sv_vars _ _ _ Hs))
    [] (n - length (var_names m))%nat).
  assert (Hle : (length (var_names m) ≤ n)%nat).
  { rewrite <-Hn. apply submseteq_length, NoDup_submseteq; [done|]. intros x Hx%(sv_vars _ _ _ Hs). by apply Hset. }
  rewrite Nat.add_comm, Nat.sub_add in Hvals by done. cbn [length app] in Hvals.
  assert (Hub : ∀ sent, sent = None ∨ (n - length (var_names m) ≠ 0)%nat →
    get_next_message (S fuel) step_fuel g (mkBGPStreamer channel_id (first_batch_small m) (processor s) None [] sent) f = UB).
  { intros sent Hsent. unfold get_next_message. rewrite Est. cbn [mbind outcome_bind batch_loop permutation_vec].
    rewrite Hmore, Hnext. cbn [mbind outcome_bind]. rewrite (proj1 Hrow), Hvals.
    destruct (n - length (var_names m))%nat; [|done]. by destruct Hsent as [-> |]. }
  split; [by apply Hub; left|]. intros (x & Hx & Hnot) b. apply Hub. right.
  enough (length (x :: var_names m) ≤ n)%nat by (simpl in *; lia).
  rewrite <-Hn. apply submseteq_length, NoDup_submseteq; [by constructor|].
  intros y Hy. apply Hset. apply elem_of_cons in Hy as [->|Hy]; [done|by apply (sv_vars _ _ _ Hs)].
Qed.
End answers.

(** ** Cancelling *)

Section cancelled.
Context `{Clk : Clock, Lib : K2Lib} {G : Type} `{Nis : !NodeIdsManager G} {F : Type} `{Fet : !K2TreeFetcher F}.
Implicit Types (g : G) (f : F) (s : BGPStreamer (F := F)).

(** The query's time is over while a row is at hand. *)
Definition stale_query g s (values : list Z) : Prop :=
  ∃ it row b, query_iterator s = Some (ItBGP it) ∧ stale it row ∧ sent_first_batch s = Some b ∧
    row_values (seq 0 (length row)) (permutation_vec s) row g = Ret values.

Lemma stale_batch_loop g s row values b step_fuel : sent_first_batch s = Some b →
  row_values (seq 0 (length row)) (permutation_vec s) row g = Ret values →
  ∀ left count acc it fuel, stale it row → 0 ≤ count → (left < fuel)%nat →
  count + Z.of_nat left + 1 = batch_limit b (bs_first_batch_small s) →
  ∃ it', batch_loop fuel step_fuel g s (ItBGP it) count acc =
    Ret (Some (acc ++ replicate (S left) values, ItBGP it')) ∧ stale it' row.
Proof.
  intros Hb Hrow. assert (Hlim : batch_limit b (bs_first_batch_small s) ≤ 10000000).
  { unfold batch_limit, first_batch_count, max_batch_count. case_match; lia. }
  induction left as [|left IH]; intros count acc it0 [|fuel] Hst Hc Hf Hsum; try lia;
    destruct (stale_next it0 row step_fuel Hst) as (Hn & it1 & Hx & Hst1);
    cbn [batch_loop qi_has_next qi_next]; rewrite Hn, Hx; cbn [mbind outcome_bind option_map fst snd];
    rewrite Hrow; cbn [mbind outcome_bind]; unfold int_chk; rewrite decide_True by lia;
    cbn [mbind outcome_bind]; rewrite (batch_done_spec s b) by done; cbn [mbind outcome_bind].
  - rewrite bool_decide_true by lia. by exists it1.
  - rewrite bool_decide_false by lia.
    destruct (IH (count + 1) (acc ++ [values]) it1 fuel) as (it' & -> & Hst'); [done|lia..|].
    exists it'. by rewrite <-app_assoc.
Qed.

(** Once a query's time is over while a row is at hand (cancelling a query makes its
    time be over at the next reading of the clock), every response is a full batch of that row and says that more
    are to come. *)
Theorem stale_query_never_ends g s f values step_fuel fuel :
  stale_query g s values → (Z.to_nat max_batch_count < fuel)%nat →
  ∃ count s', get_next_message fuel step_fuel g s f =
      Ret (Some (mkJoin (bs_channel_id s) (replicate count values) false, s', f)) ∧
    (100 ≤ count)%nat ∧ stale_query g s' values.
Proof.
  intros (it & row & b & Hit & Hst & Hb & Hrow) Hf.
  set (limit := batch_limit b (bs_first_batch_small s)).
  assert (Hlim : 100 ≤ limit ≤ max_batch_count).
  { unfold limit, batch_limit, first_batch_count, max_batch_count. case_match; lia. }
  destruct (stale_batch_loop g s row values b step_fuel Hb Hrow (Z.to_nat (limit - 1)) 0 [] it fuel)
    as (it' & E & Hst'); [done|done|lia|fold limit; lia|].
  exists (S (Z.to_nat (limit - 1))). eexists. split; [|split; [lia|]].
  - unfold get_next_message, start_query. rewrite Hit. cbn [mbind outcome_bind]. rewrite E.
    cbn [mbind outcome_bind app]. simpl. destruct Hst' as (Hn & _). unfold it_has_next. by rewrite Hn.
  - by exists it', row, true.
Qed.
End cancelled.

(** ** Instances of the theorems *)
Section witnesses.
#[local] Existing Instance Toy.toy_k2_lib.
#[local] Existing Instance frozen_clock.

Lemma join_servable names : (∀ x, x ∈ names → x = [120] ∨ x = [121]) →
  servable mkIdentity toy_store (mkBGPMessage names (patterns toy_message) true).
Proof.
  intros Hnames. split.
  - done.
  - exact toy_store_ok.
  - split; [|computed]. repeat (apply Forall_cons; split; [split; [|split]; computed|]). by apply Forall_nil.
  - intros t Ht. apply list_elem_of_fmap in Ht as (t' & -> & Ht').
    repeat (apply elem_of_cons in Ht' as [->|Ht']; [split; [by vm_compute|by eexists]|]). by apply not_elem_of_nil in Ht'.
  - intros x Hx. vm_compute. destruct (Hnames x Hx) as [-> | ->]; set_solver.
  - intros q P. simpl. intros HP. apply fmap_Some in HP as (k & [<- <-]%lookup_singleton_Some & ->).
    apply stream_named. by vm_compute.
Qed.
Lemma join_live : live (new_TimeControl 1000 60000 0).
Proof. split; [reflexivity|intros k; vm_compute; discriminate]. Qed.

(** [x = 3], [y = 5] solves both patterns of the message, whatever the order of its variables. *)
Lemma toy_solves names : names = [[121]; [120]] →
  solves (points_of toy_store) (st_tree_depth (fetcher_qw toy_store))
    (asked mkIdentity (mkBGPMessage names (patterns toy_message) true)) names [5; 3].
Proof.
  intros ->. split; [by vm_compute|]. split; [repeat (apply Forall_cons; split; [computed|]); by apply Forall_nil|].
  repeat (apply Forall_cons; split; [|]); try (by apply Forall_nil); exists (pts toy_points_tree), 3, 5;
    (split_and!; [reflexivity|by vm_compute..]).
Qed.

Lemma bgp_stream_correct_witness :
  let s := new_BGPStreamer 1 toy_message mkIdentity toy_store 60000 0 in
  ∃ enough, ∀ step_fuel, (enough ≤ step_fuel)%nat → ∃ sols, NoDup sols ∧ [5; 3] ∈ sols ∧
    ∀ n fuel, (length sols < n)%nat → (length sols < fuel)%nat →
      join_all n fuel step_fuel mkIdentity s toy_store = UB ∧
      ∀ b, ∃ rs, join_all n fuel step_fuel mkIdentity (holding b s) toy_store = Ret (Some rs) ∧
        rs ≫= bgp_response_row = external mkIdentity <$> sols.
Proof.
  destruct (bgp_stream_correct 1 toy_message mkIdentity toy_store 60000 0) as (enough & Hq).
  - apply (join_servable [[121]; [120]]). set_solver.
  - split; [repeat constructor; set_solver|]. vm_compute. set_solver.
  - exact join_live.
  - exists enough. intros step_fuel Hf. destruct (Hq step_fuel Hf) as (sols & Hnd & Hsols & Hrun). exists sols.
    assert (Hin : [5; 3] ∈ sols) by (apply Hsols, (toy_solves [[121]; [120]]); computed).
    split; [done|]. split; [exact Hin|]. intros n fuel Hn Hfuel. destruct (Hrun n fuel Hn Hfuel) as [E Hb].
    rewrite decide_False in E by (intros ->; by apply not_elem_of_nil in Hin). split; [exact E|].
    intros b. destruct (Hb b) as (rs & Er & Hr & _). by exists rs.
Defined.

Lemma first_row_undefined_witness :
  let m := mkBGPMessage [[120]] (patterns toy_message) true in
  let s := new_BGPStreamer 1 m mkIdentity toy_store 60000 0 in
  ∃ enough, ∀ step_fuel fuel, (enough ≤ step_fuel)%nat → (0 < fuel)%nat →
    get_next_message fuel step_fuel mkIdentity s toy_store = UB ∧
    ((∃ x, x ∈ message_vars (asked mkIdentity m) ∧ x ∉ var_names m) → ∀ b,
     get_next_message fuel step_fuel mkIdentity (holding b s) toy_store = UB).
Proof.
  apply (first_row_undefined 1 (mkBGPMessage [[120]] (patterns toy_message) true) mkIdentity toy_store 60000 0).
  - apply join_servable. set_solver.
  - repeat constructor. set_solver.
  - exact join_live.
  - exists [3; 5]. split; [by vm_compute|]. split; [repeat (apply Forall_cons; split; [computed|]); by apply Forall_nil|].
    repeat (apply Forall_cons; split; [|]); try (by apply Forall_nil); exists (pts toy_points_tree), 3, 5;
      (split_and!; [reflexivity|by vm_compute|by vm_compute|by vm_compute]).
Defined.

Lemma stale_query_never_ends_witness :
  let p := processor (new_BGPStreamer 1 toy_message mkIdentity toy_store 60000 0) in
  let s := mkBGPStreamer 1 true p (Some (ItBGP (toy_stale 1 true))) [1; 0] (Some true) in
  ∃ count s', get_next_message (S (Z.to_nat max_batch_count)) 10 mkIdentity s toy_store =
      Ret (Some (mkJoin 1 (replicate count [5; 3]) false, s', toy_store)) ∧
    (100 ≤ count)%nat ∧ stale_query mkIdentity s' [5; 3].
Proof.
  apply (stale_query_never_ends mkIdentity (mkBGPStreamer 1 true
    (processor (new_BGPStreamer 1 toy_message mkIdentity toy_store 60000 0))
    (Some (ItBGP (toy_stale 1 true))) [1; 0] (Some true)) toy_store [5; 3] 10).
  - by exists (toy_stale 1 true), [3; 5], true.
  - apply Nat.lt_succ_diag_r.
Defined.
End witnesses.
