(* ===== verification/Channels.v ===== *)
(** * cache and network/streaming: the cache behind the server, and the channels

    [CacheContainerImpl] owns what the requests of all clients share: the manager of
    the predicates, which is used through its interface [PredicatesCacheManager], the
    ids, and the replacement strategy. A client locks predicates by opening a channel
    ([TripleMatchesPartStreamer]), on which it streams patterns. *)
From S2P Require Import Prelude Streams Memory Blocks K2Tree Scanners Fetcher Hashing Replacement CachedSource.
From S2P Require Import NodeIds UpdatesLog PredicatesIndex Fic Manager Streaming.

Local Open Scope Z_scope.

(** ** PredicatesCacheManager.hpp *)

(** What the server uses of a manager: its fetcher, its cache of indexed
    predicates, its log, and the keys the replacement strategy moves. *)
Class PredicatesCacheManager (W : Type) := {
  pcm_fetcher : K2TreeFetcher W;
  pcm_data : DataManager W;
  pcm_active : Z → W → bool;
  pcm_size : Z → W → Z;
  pcm_init_streamer_predicates : list Z → W → outcome W;
  pcm_fic_get : Z → W → option FullyIndexedPredicate;
  pcm_load_all : W → outcome W;
  pcm_log : list K2TreeUpdates → W → outcome W;
  pcm_full_sync : nat → W → outcome (option W)
}.
#[export] Hint Mode PredicatesCacheManager ! : typeclass_instances.
#[export] Existing Instance pcm_fetcher | 100.
#[export] Existing Instance pcm_data | 100.

Section impl.
Context `{Hp : Heap, Blk : BlockLib, Lib : K2Lib, Ssl : OpenSSL}.
Context {C : Type} `{FC : !FullyIndexedCache C PredicatesIndexCacheMD, FCW : !FullyIndexedCache C (PCMWithLog C)}.

(** The cache of indexed predicates fetches from the manager it belongs to; it only
    fetches trees that are in memory, which changes nothing else in the manager. *)
Definition impl_init_streamer_predicates (ps : list Z) (w : PCMWithLog C) : outcome (PCMWithLog C) :=
  '(c, w) ← init_streamer_predicates ps (fully_indexed_cache (data_merger w)) w;
  Ret (set_merger w (mkPCM (predicates_index (data_merger w)) c)).
#[global] Instance impl_pcm : PredicatesCacheManager (PCMWithLog C) := {|
  pcm_active p w := has_predicate_active p (index_of w);
  pcm_size := get_predicate_size;
  pcm_init_streamer_predicates := impl_init_streamer_predicates;
  pcm_fic_get p w := fic_get (F := PCMWithLog C) p (fully_indexed_cache (data_merger w));
  pcm_load_all := pcm_load_all_predicates;
  pcm_log := log;
  pcm_full_sync := full_sync_logs_and_memory_with_persistent
|}.
End impl.

(** ** CacheContainerImpl.hpp *)
Record CacheContainerImpl (W G : Type) := mkContainer {
  cc_pcm : W;
  nis : G;
  cc_replacement : AnyReplacement;
  strategy_id : REPLACEMENT_STRATEGY;
  sort_results : bool;
  timeout_ms : Z
}.
Arguments mkContainer {W G}. Arguments cc_pcm {W G}. Arguments nis {W G}. Arguments cc_replacement {W G}.
Arguments strategy_id {W G}. Arguments sort_results {W G}. Arguments timeout_ms {W G}.

Section container.
Context {W G : Type}.
Definition set_pcm (w : W) (c : CacheContainerImpl W G) : CacheContainerImpl W G :=
  mkContainer w (nis c) (cc_replacement c) (strategy_id c) (sort_results c) (timeout_ms c).
Definition set_nis (g : G) (c : CacheContainerImpl W G) : CacheContainerImpl W G :=
  mkContainer (cc_pcm c) g (cc_replacement c) (strategy_id c) (sort_results c) (timeout_ms c).
Definition set_replacement (r : AnyReplacement) (c : CacheContainerImpl W G) : CacheContainerImpl W G :=
  mkContainer (cc_pcm c) (nis c) r (strategy_id c) (sort_results c) (timeout_ms c).
Definition extract_loaded_predicates_from_sequence `{PredicatesCacheManager W}
    (input_predicates_ids : list Z) (c : CacheContainerImpl W G) : list Z :=
  filter (λ p, pcm_active p (cc_pcm c) = true) input_predicates_ids.

(** CacheContainerFactory.cpp, on the manager and the ids it has made. *)
Definition CacheContainerFactory_create `{PredicatesCacheManager W} (memory_budget_bytes : Z)
    (replacement_strategy : REPLACEMENT_STRATEGY) (has_sort_results : bool) (timeout : Z) (w : W) (g : G)
    : outcome (CacheContainerImpl W G) :=
  let container w := mkContainer w g (create_cache_replacement memory_budget_bytes replacement_strategy)
                       replacement_strategy has_sort_results timeout in
  if decide (replacement_strategy = NO_CACHING) then w ← pcm_load_all w; Ret (container w)
  else Ret (container w).
End container.

(** ** TripleMatchesPartStreamer.hpp *)

Section channels.
Context `{Lib : K2Lib} {W G : Type} `{Pcm : !PredicatesCacheManager W} `{Nis : !NodeIdsManager G}.
Notation container := (CacheContainerImpl W G).

(** The streamers of the patterns, behind their interface. *)
Inductive AnyMatchingStreamer :=
  | Lazy (s : TriplePatternMatchingStreamer)
  | Sorting (s : TPMSortedStreamer)
  | FromCache (s : StreamerFromCachedSource).

(** [std::map::operator[]] gives a null pointer to an unknown key. *)
Record TripleMatchesPartStreamer := mkPart {
  channel_id : Z;
  loaded_predicates : list Z;
  threshold_part_size : Z;
  current_pattern_channel_id : Z;
  triples_streamers_map : gmap Z (option AnyMatchingStreamer);
  is_done : bool
}.

#[global] Instance any_streamer : I_TRMatchingStreamer G W AnyMatchingStreamer := {|
  get_next_response fuel g s w :=
    match s with
    | Lazy s => m ← get_next_response fuel g s w; Ret (option_map (λ r, (r.1.1, Lazy r.1.2, r.2)) m)
    | Sorting s => m ← get_next_response fuel g s w; Ret (option_map (λ r, (r.1.1, Sorting r.1.2, r.2)) m)
    | FromCache s => m ← get_next_response (F := W) fuel g s w; Ret (option_map (λ r, (r.1.1, FromCache r.1.2, r.2)) m)
    end;
  get_pattern_channel_id s :=
    match s with Lazy s => tpm_pattern_channel_id s | Sorting s => so_pattern_channel_id s
               | FromCache s => fc_pattern_channel_id s end;
  get_channel_id s :=
    match s with Lazy s => tpm_channel_id s | Sorting s => so_channel_id s | FromCache s => fc_channel_id s end;
  all_sent s :=
    match s with Lazy s => tpm_finished s | Sorting s => sorted_all_sent s | FromCache s => fc_finished s end
|}.

Definition new_TripleMatchesPartStreamer (channel_id : Z) (loaded_predicates : list Z)
    (threshold_part_size : Z) (c : container) : outcome (TripleMatchesPartStreamer * container) :=
  w ← pcm_init_streamer_predicates loaded_predicates (cc_pcm c);
  Ret (mkPart channel_id loaded_predicates threshold_part_size 0 ∅ false, set_pcm w c).

(** The predicates as external ids. A row is added before its id is known to be
    right; [err_code] is not initialised, so reading it when [get_real_id] has not
    written it is undefined. *)
Fixpoint available_predicates (loaded_predicates : list Z) (g : G) : outcome (list Z) :=
  match loaded_predicates with
  | [] => Ret []
  | predicate :: loaded_predicates =>
      let '(real_node_id, err) := nis_get_real_id predicate g in
      err_code ← deref err;
      rest ← available_predicates loaded_predicates g;
      Ret ((if decide (err_code ≠ SUCCESS_ERR_CODE) then 0 else real_node_id) :: rest)
  end.

(** The streamer of a new pattern: from the cache when its predicate is indexed. *)
Definition new_matching_streamer (fuel : nat) (triple_pattern : TripleNodeId)
    (s : TripleMatchesPartStreamer) (c : container) : outcome (option (AnyMatchingStreamer * container)) :=
  let predicate_id_translated := nis_get_id (id_argument (t_predicate triple_pattern)) (nis c) in
  let id := current_pattern_channel_id s in
  match pcm_fic_get predicate_id_translated (cc_pcm c) with
  | Some source =>
      streamer ← new_StreamerFromCachedSource source (channel_id s) id triple_pattern
                   (threshold_part_size s) (nis c);
      Ret (Some (FromCache streamer, c))
  | None =>
      if sort_results c then
        m ← new_TPMSortedStreamer fuel (channel_id s) id triple_pattern (threshold_part_size s) (nis c) (cc_pcm c);
        Ret (option_map (λ r, (Sorting r.1, set_pcm r.2 c)) m)
      else
        '(streamer, w) ← new_TriplePatternMatchingStreamer (channel_id s) id triple_pattern
                           (threshold_part_size s) (nis c) (cc_pcm c);
        Ret (Some (Lazy streamer, set_pcm w c))
  end.

Definition set_streamers (s : TripleMatchesPartStreamer) (next : Z)
    (m : gmap Z (option AnyMatchingStreamer)) : TripleMatchesPartStreamer :=
  mkPart (channel_id s) (loaded_predicates s) (threshold_part_size s) next m (is_done s).
Definition start_streaming_matching_triples (fuel : nat) (triple_pattern : TripleNodeId)
    (s : TripleMatchesPartStreamer) (c : container)
    : outcome (option (AnyMatchingStreamer * TripleMatchesPartStreamer * container)) :=
  m ← new_matching_streamer fuel triple_pattern s c;
  match m with
  | None => Ret None
  | Some (streamer, c) =>
      next ← int_chk (current_pattern_channel_id s + 1);
      Ret (Some (streamer,
                 set_streamers s next (<[current_pattern_channel_id s := Some streamer]> (triples_streamers_map s)), c))
  end.
Definition clean_pattern_streamer (pattern_channel_id : Z) (s : TripleMatchesPartStreamer)
    : TripleMatchesPartStreamer :=
  set_streamers s (current_pattern_channel_id s) (delete pattern_channel_id (triples_streamers_map s)).
(** [*triples_streamers_map[pattern_channel_id]]. *)
Definition get_triple_pattern_streamer (pattern_channel_id : Z) (s : TripleMatchesPartStreamer)
    : outcome AnyMatchingStreamer :=
  deref (mjoin (triples_streamers_map s !! pattern_channel_id)).
End channels.

(** ** The ids of a streamer *)

Section ids.
Context `{Lib : K2Lib} {W G : Type} `{Pcm : !PredicatesCacheManager W} `{Nis : !NodeIdsManager G}.
Implicit Types (g : G) (w : W) (c : CacheContainerImpl W G) (st : AnyMatchingStreamer).

(** The channel and the pattern a streamer belongs to. *)
Definition ids_of st : Z * Z :=
  (get_channel_id (G := G) (F := W) st, get_pattern_channel_id (G := G) (F := W) st).

Lemma tpm_next_ids fuel g (s : TriplePatternMatchingStreamer) r s' : tpm_get_next_response fuel g s = Ret (Some (r, s')) →
  (tpm_channel_id s', tpm_pattern_channel_id s') = (tpm_channel_id s, tpm_pattern_channel_id s) ∧
  (sr_channel_id r, sr_pattern_channel_id r) = (tpm_channel_id s, tpm_pattern_channel_id s) ∧
  (tpm_finished s = false → tpm_finished s' = last_result r).
Proof.
  unfold tpm_get_next_response. intros Hr. unbind; simplify_eq/=; split_and!; try done.
  intros ->. apply orb_false_r.
Qed.
Lemma fc_next_ids fuel g (s : StreamerFromCachedSource) r s' : fc_get_next_response fuel g s = Ret (Some (r, s')) →
  (fc_channel_id s', fc_pattern_channel_id s') = (fc_channel_id s, fc_pattern_channel_id s) ∧
  (sr_channel_id r, sr_pattern_channel_id r) = (fc_channel_id s, fc_pattern_channel_id s) ∧
  (fc_finished s = false → fc_finished s' = last_result r).
Proof.
  unfold fc_get_next_response. intros Hr. unbind; simplify_eq/=; split_and!; try done.
  intros ->. apply orb_false_r.
Qed.
Lemma sorted_next_ids g w (s : TPMSortedStreamer) r w' : sorted_get_next_response s g w = Ret (r, w') →
  (sr_channel_id r, sr_pattern_channel_id r) = (so_channel_id s, so_pattern_channel_id s).
Proof.
  unfold sorted_get_next_response, get_empty_response, sorted_response. intros Hr.
  repeat case_match; unbind; simplify_eq/=; done.
Qed.

(** A streamer keeps its ids, answers under them, and does not say that all is
    sent before it has answered with a last part. *)
Lemma next_ids fuel g st w r st' w' : get_next_response fuel g st w = Ret (Some (r, st', w')) →
  ids_of st' = ids_of st ∧ (sr_channel_id r, sr_pattern_channel_id r) = ids_of st ∧
  (all_sent (G := G) (F := W) st = false → all_sent (G := G) (F := W) st' = true → last_result r = true).
Proof.
  destruct st as [st|st|st]; cbn; intros Hr; apply bind_inv in Hr as (m & Hm & Hr);
    destruct m as [[[r1 s1] w1]|]; simplify_eq/=; apply bind_inv in Hm as (m & Hm & Hr);
    (try destruct m as [[r2 s2]|]); simplify_eq/=; unfold ids_of; cbn.
  - apply tpm_next_ids in Hm as (E1 & E2 & E3). split_and!; try done. intros Hf Ht. rewrite <-E3; done.
  - destruct m as [r2 w2]. simplify_eq. apply sorted_next_ids in Hm. split_and!; try done. congruence.
  - apply fc_next_ids in Hm as (E1 & E2 & E3). split_and!; try done. intros Hf Ht. rewrite <-E3; done.
Qed.

Lemma sorted_not_sent (s : TPMSortedStreamer) : current_sent s = 0 → sorted_all_sent s = false.
Proof.
  intros Hs. unfold sorted_all_sent. rewrite Hs.
  by destruct (pair_results (data_results s)), (single_results (data_results s)).
Qed.
Lemma new_streamer_ids fuel t s c st c' : new_matching_streamer fuel t s c = Ret (Some (st, c')) →
  ids_of st = (channel_id s, current_pattern_channel_id s) ∧ all_sent (G := G) (F := W) st = false ∧
  ∃ w, c' = set_pcm w c.
Proof.
  assert (Hc : c = set_pcm (cc_pcm c) c) by by destruct c.
  unfold new_matching_streamer. destruct (pcm_fic_get _ _) as [source|]; [|destruct (sort_results c)].
  - unfold new_StreamerFromCachedSource. intros Hr. unbind. simplify_eq/=. split_and!; try done. by exists (cc_pcm c').
  - intros Hr. apply bind_inv in Hr as ([[so w]|] & Hm & Hr); simplify_eq/=. unfold new_TPMSortedStreamer in Hm.
    unbind; simplify_eq/=; split_and!; try done; (by apply sorted_not_sent) || by eexists.
  - unfold new_TriplePatternMatchingStreamer. intros Hr. unbind. simplify_eq/=. split_and!; try done. by eexists.
Qed.
Lemma start_ids fuel t s c st s' c' : start_streaming_matching_triples fuel t s c = Ret (Some (st, s', c')) →
  ids_of st = (channel_id s, current_pattern_channel_id s) ∧ all_sent (G := G) (F := W) st = false ∧
  s' = set_streamers s (current_pattern_channel_id s + 1)
         (<[current_pattern_channel_id s := Some st]> (triples_streamers_map s)) ∧ ∃ w, c' = set_pcm w c.
Proof.
  unfold start_streaming_matching_triples. intros Hr. apply bind_inv in Hr as ([[st0 c0]|] & Hm & Hr); [|done].
  apply bind_inv in Hr as (next & Hn & Hr). simplify_eq. unfold int_chk in Hn. case_decide; [|done]. injection Hn as <-.
  apply new_streamer_ids in Hm as (? & ? & ?). done.
Qed.
End ids.
