(* ===== verification/Server.v ===== *)
(** * network/server: requests, sessions and channels

    [ServerTask] serves one connection: it reads messages, calls the task processor
    that all connections share, and answers. [CacheServerTaskProcessor] registers the
    channels, the update sessions and the queries, and queues the predicates the
    replacement strategy should consider. A handler is one step here; the worker of
    that queue moves in smaller steps, between which handlers run. *)
From S2P Require Import Prelude Streams Memory Blocks K2Tree Scanners Fetcher Hashing Replacement CachedSource.
From S2P Require Import NodeIds BGPOps BGPIterator BGPProcessor UpdatesLog PredicatesIndex Fic Manager Session.
From S2P Require Import Streaming BgpStreamer Channels.

Local Open Scope Z_scope.

(** ** proto/: messages *)

(** message_type.proto. *)
Inductive MessageType :=
  | UNKNOWN | CONNECTION_END | RUN_QUERY | INVALID_QUERY_RESPONSE | RESULT_TABLE_PART_RESPONSE
  | RECEIVE_REMAINING_RESULT | TIMED_OUT_RESPONSE | CACHE_MISS | CACHE_REQUEST_SEPARATE_PREDICATES
  | EXTRACT_SEPARATE_PREDICATES_RESPONSE | DONE_WITH_PREDICATES_NOTIFY | STREAM_REQUEST_TRIPLE_PATTERN
  | STREAM_CONTINUE_TRIPLE_PATTERN | STREAM_OF_TRIPLES_MATCHING_PATTERN_RESPONSE
  | ACK_WITH_DONE_TRIPLES_STREAM | CACHE_REQUEST_START_UPDATE_TRIPLES | CACHE_DONE_UPDATE_TRIPLES
  | ACK_DONE_UPDATE_TRIPLES | ACCEPT_UPDATE_REQUEST | TRIPLES_UPDATE_BATCH | BATCH_RECEIVED_RESPONSE
  | SYNC_LOGS_WITH_INDEXES_REQUEST | SYNC_LOGS_WITH_INDEXES_RESPONSE | REQUEST_BGP_JOIN
  | RESPONSE_BGP_JOIN | REQUEST_MORE_BGP_JOIN | CANCEL_QUERY | ACK_CANCEL_QUERY | BAD_REQ.

#[global] Instance MessageType_eq_dec : EqDecision MessageType.
Proof. solve_decision. Defined.

(** request_msg.proto and sparql_tree.proto. *)
Record TripleNodeIdEnc := mkEnc { enc_subject : Z; enc_predicate : Z; enc_object : Z }.
Inductive NodePattern := ConcreteNodeId (id : Z) | VariableName (name : list Z) | NodePatternNotSet.
Record TriplePattern := mkTriplePattern {
  subject_node_pattern : NodePattern; predicate_node_pattern : NodePattern; object_node_pattern : NodePattern
}.
Record RequestBGPJoin := mkRequestBGPJoin {
  variable_names : list (list Z); triple_patterns : list TriplePattern; first_small : bool
}.
Inductive RequestBody :=
  | RequestNotSet
  | ConnectionEndRequest (end_ : bool)
  | CacheRequestSeparatePredicates (predicates : list Z)
  | DoneWithPredicatesNotify (channel_id : Z)
  | StreamRequestTriplePattern (channel_id : Z) (triple_node : TripleNodeIdEnc)
  | StreamContinueTriplePattern (channel_id pattern_channel_id : Z)
  | CacheRequestStartUpdateTriples
  | CacheDoneUpdateTriples (update_id : Z)
  | TriplesUpdateBatch (update_id : Z) (triples_to_add triples_to_delete : list TripleNodeIdEnc)
  | BgpJoin (join : RequestBGPJoin)
  | ContinueBgpJoin (channel_id : Z)
  | CancelQueryRequest (channel_id : Z).
Record CacheRequest := mkRequest { request_type : MessageType; request : RequestBody }.

(** The accessors of a oneof give the default message when another case is set. *)
Definition cache_request_separate_predicates (r : CacheRequest) : list Z :=
  match request r with CacheRequestSeparatePredicates ps => ps | _ => [] end.
Definition done_with_predicates_notify (r : CacheRequest) : Z :=
  match request r with DoneWithPredicatesNotify c => c | _ => 0 end.
Definition stream_request_triple_pattern (r : CacheRequest) : Z * TripleNodeIdEnc :=
  match request r with StreamRequestTriplePattern c t => (c, t) | _ => (0, mkEnc 0 0 0) end.
Definition stream_continue_triple_pattern (r : CacheRequest) : Z * Z :=
  match request r with StreamContinueTriplePattern c pc => (c, pc) | _ => (0, 0) end.
Definition cache_done_update_triples (r : CacheRequest) : Z :=
  match request r with CacheDoneUpdateTriples u => u | _ => 0 end.
Definition triples_update_batch (r : CacheRequest) : Z * list TripleNodeIdEnc * list TripleNodeIdEnc :=
  match request r with TriplesUpdateBatch u a d => (u, a, d) | _ => (0, [], []) end.
Definition bgp_join (r : CacheRequest) : RequestBGPJoin :=
  match request r with BgpJoin j => j | _ => mkRequestBGPJoin [] [] false end.
Definition continue_bgp_join (r : CacheRequest) : Z :=
  match request r with ContinueBgpJoin c => c | _ => 0 end.
Definition cancel_query_request (r : CacheRequest) : Z :=
  match request r with CancelQueryRequest c => c | _ => 0 end.

(** response_msg.proto. *)
Inductive ResponseBody :=
  | ResponseNotSet
  | ConnectionEndResponse (end_ : bool)
  | InvalidQueryResponse
  | ExtractSeparatePredicatesResponse (id : Z) (available_predicates : list Z)
  | StreamOfTriples (r : StreamOfTriplesMatchingPatternResponse)
  | AckDoneWithChannel
  | AcceptUpdateRequest (update_id : Z)
  | AckDoneUpdate
  | BatchReceivedResponse (update_id : Z)
  | BgpJoinResponseBody (r : BgpJoinResponse)
  | AckCancelQuery (channel_id : Z).
Record CacheResponse := mkResponse { response_type : MessageType; response : ResponseBody }.

(** messages/utils.cpp. *)
Definition proto_triple_to_internal (t : TripleNodeIdEnc) : TripleNodeId :=
  mkTripleNodeId (mkNodeId (s64 (enc_subject t))) (mkNodeId (s64 (enc_predicate t)))
    (mkNodeId (s64 (enc_object t))).
(** The id of a variable is not initialised: what it holds is a parameter. *)
Class Indeterminate := indeterminate_id : Z.
Section bgp_messages.
Context `{Indeterminate}.
Definition proto_to_bgp_node (pattern : NodePattern) : BGPNode :=
  match pattern with
  | VariableName name => mkNode false name indeterminate_id (u64 (-1))
  | ConcreteNodeId id => mkNode true [] id (u64 (-1))
  | NodePatternNotSet => mkNode true [] 0 (u64 (-1))
  end.
Definition proto_to_bgp_triple (t : TriplePattern) : BGPTriple :=
  mkBGPTriple (proto_to_bgp_node (subject_node_pattern t)) (proto_to_bgp_node (predicate_node_pattern t))
    (proto_to_bgp_node (object_node_pattern t)).
Definition proto_to_bgp_message (j : RequestBGPJoin) : BGPMessage :=
  mkBGPMessage (variable_names j) (proto_to_bgp_triple <$> triple_patterns j) (first_small j).
End bgp_messages.

(** [SerializeAsString] is generated code. *)
Class Protobuf := SerializeAsString : CacheResponse → list Z.

(** [send_response]: the size, the digest and the bytes of the message. *)
Definition send_response `{Protobuf, OpenSSL} (cache_response : CacheResponse) : outcome (list Z) :=
  let serialized := SerializeAsString cache_response in
  '(_, ss) ← (write_u64 (Z.of_nat (length serialized));;
              os_write (md5calc serialized);; os_write serialized) (os_end []);
  Ret (os_data ss).

(** ** CacheServerTaskProcessor.hpp *)
Section server.
Context `{Clk : Clock, Hp : Heap, Blk : BlockLib, Lib : K2Lib, Ssl : OpenSSL, Prt : Protobuf, Ind : Indeterminate}.
Context {W G : Type} `{Pcm : !PredicatesCacheManager W} `{Nis : !NodeIdsManager G}.
Notation container := (CacheContainerImpl W G).

(** The maps from ids to objects: [operator[]] gives a null pointer to an unknown
    id. [replacement_tasks] is the queue of the ReplacementTaskProcessor. *)
Record CacheServerTaskProcessor := mkTasks {
  cache : container;
  replacement_tasks : list (list Z);
  current_triples_streamers_channel_id : Z;
  triples_streamer_map : gmap Z (option TripleMatchesPartStreamer);
  updaters_sessions : gmap Z (option UpdaterSession);
  current_update_session_id : Z;
  current_bgp_streamers_channel_id : Z;
  bgp_streamers_map : gmap Z (BGPStreamer (F := W))
}.
Implicit Type p : CacheServerTaskProcessor.
Definition new_CacheServerTaskProcessor (c : container) : CacheServerTaskProcessor :=
  mkTasks c [] 0 ∅ ∅ 0 0 ∅.
Definition DEFAULT_THRESHOLD_PART_SZ : Z := 100000000.

Definition set_cache (c : container) p : CacheServerTaskProcessor :=
  mkTasks c (replacement_tasks p) (current_triples_streamers_channel_id p) (triples_streamer_map p)
    (updaters_sessions p) (current_update_session_id p) (current_bgp_streamers_channel_id p) (bgp_streamers_map p).
Definition set_channels (next : Z) (m : gmap Z (option TripleMatchesPartStreamer)) p : CacheServerTaskProcessor :=
  mkTasks (cache p) (replacement_tasks p) next m (updaters_sessions p) (current_update_session_id p)
    (current_bgp_streamers_channel_id p) (bgp_streamers_map p).
Definition set_sessions (next : Z) (m : gmap Z (option UpdaterSession)) p : CacheServerTaskProcessor :=
  mkTasks (cache p) (replacement_tasks p) (current_triples_streamers_channel_id p) (triples_streamer_map p)
    m next (current_bgp_streamers_channel_id p) (bgp_streamers_map p).
Definition set_queries (next : Z) (m : gmap Z (BGPStreamer (F := W))) p : CacheServerTaskProcessor :=
  mkTasks (cache p) (replacement_tasks p) (current_triples_streamers_channel_id p) (triples_streamer_map p)
    (updaters_sessions p) (current_update_session_id p) next m.

(** ** ReplacementTaskProcessor.cpp and ReplacementTask.cpp *)
Definition add_task (predicates : list Z) p : CacheServerTaskProcessor :=
  mkTasks (cache p) (replacement_tasks p ++ [predicates]) (current_triples_streamers_channel_id p)
    (triples_streamer_map p) (updaters_sessions p) (current_update_session_id p)
    (current_bgp_streamers_channel_id p) (bgp_streamers_map p).
Definition hit_predicate (c : container) (predicate : Z) : outcome container :=
  '(_, r, w) ← any_hit_key predicate (pcm_size predicate (cc_pcm c)) (cc_replacement c) (cc_pcm c);
  Ret (set_replacement r (set_pcm w c)).
Definition set_replacement_tasks (tasks : list (list Z)) p : CacheServerTaskProcessor :=
  mkTasks (cache p) tasks (current_triples_streamers_channel_id p) (triples_streamer_map p) (updaters_sessions p)
    (current_update_session_id p) (current_bgp_streamers_channel_id p) (bgp_streamers_map p).
(** The worker of the queue: between tasks, between the predicates of one, or in the call
    that hits one; the requests of the clients are served between its steps. *)
Inductive ReplacementWorker :=
  | Idle
  | Between (predicates : list Z)
  | Hitting (predicate size : Z) (h : hit_state) (predicates : list Z).
Definition replacement_step (worker : ReplacementWorker) p
    : outcome (ReplacementWorker * CacheServerTaskProcessor) :=
  match worker with
  | Idle =>
      match replacement_tasks p with
      | [] => Ret (Idle, p)
      | predicates :: tasks => Ret (Between predicates, set_replacement_tasks tasks p)
      end
  | Between [] => Ret (Idle, p)
  | Between (predicate :: predicates) =>
      Ret (Hitting predicate (pcm_size predicate (cc_pcm (cache p))) Called predicates, p)
  | Hitting predicate size h predicates =>
      '(h, r, w) ← any_hit_step predicate size h (cc_replacement (cache p)) (cc_pcm (cache p));
      Ret (match h with Finished _ => Between predicates | _ => Hitting predicate size h predicates end,
           set_cache (set_replacement r (set_pcm w (cache p))) p)
  end.
(** A task that nothing interrupts, up to its end; [None] is for the lack of fuel. *)
Fixpoint run_task (fuel : nat) (worker : ReplacementWorker) p : outcome (option CacheServerTaskProcessor) :=
  match worker, fuel with
  | Idle, _ => Ret (Some p)
  | _, O => Ret None
  | _, S fuel => '(worker, p) ← replacement_step worker p; run_task fuel worker p
  end.
Definition mark_used (predicates : list Z) (c : container) : outcome container :=
  r ← foldM (λ r q, any_mark_using q r) (cc_replacement c) predicates;
  Ret (set_replacement r c).
Definition mark_ready_all (predicates : list Z) (c : container) : container :=
  set_replacement (fold_left (λ r q, any_mark_ready q r) predicates (cc_replacement c)) c.

(** ** CacheServerTaskProcessor.cpp *)
Definition create_triples_streamer (loaded_predicates : list Z) p
    : outcome (TripleMatchesPartStreamer * CacheServerTaskProcessor) :=
  let id := current_triples_streamers_channel_id p in
  '(streamer, c) ← new_TripleMatchesPartStreamer id loaded_predicates DEFAULT_THRESHOLD_PART_SZ (cache p);
  next ← int_chk (id + 1);
  Ret (streamer, set_channels next (<[id := Some streamer]> (triples_streamer_map p)) (set_cache c p)).
Definition get_triple_streamer (channel_id : Z) p : outcome TripleMatchesPartStreamer :=
  deref (mjoin (triples_streamer_map p !! channel_id)).
Definition put_triple_streamer (channel_id : Z) (s : TripleMatchesPartStreamer) p : CacheServerTaskProcessor :=
  set_channels (current_triples_streamers_channel_id p)
    (<[channel_id := Some s]> (triples_streamer_map p)) p.
Definition has_triple_streamer (channel_id : Z) p : bool :=
  bool_decide (is_Some (triples_streamer_map p !! channel_id)).
(** The streamer is destroyed, which marks its predicates ready. *)
Definition clean_triple_streamer (channel_id : Z) p : CacheServerTaskProcessor :=
  let c :=
    match mjoin (triples_streamer_map p !! channel_id) with
    | Some streamer => mark_ready_all (loaded_predicates streamer) (cache p)
    | None => cache p
    end in
  set_channels (current_triples_streamers_channel_id p) (delete channel_id (triples_streamer_map p))
    (set_cache c p).
Definition begin_update_session p : outcome (Z * CacheServerTaskProcessor) :=
  let update_id := current_update_session_id p in
  next ← int_chk (update_id + 1);
  Ret (update_id, set_sessions next (<[update_id := Some new_UpdaterSession]> (updaters_sessions p)) p).
Definition get_updater (updater_id : Z) p : outcome UpdaterSession :=
  deref (mjoin (updaters_sessions p !! updater_id)).
Definition put_updater (updater_id : Z) (s : UpdaterSession) p : CacheServerTaskProcessor :=
  set_sessions (current_update_session_id p) (<[updater_id := Some s]> (updaters_sessions p)) p.
Definition sync_to_persistent (fuel : nat) p : outcome (option CacheServerTaskProcessor) :=
  m ← pcm_full_sync fuel (cc_pcm (cache p));
  Ret (option_map (λ w, set_cache (set_pcm w (cache p)) p) m).
Definition get_bgp_streamer (message : BGPMessage) (readings : nat) p
    : outcome (BGPStreamer (F := W) * CacheServerTaskProcessor) :=
  id ← int_chk (current_bgp_streamers_channel_id p + 1);
  let streamer := new_BGPStreamer id message (nis (cache p)) (cc_pcm (cache p))
                    (timeout_ms (cache p)) readings in
  Ret (streamer, set_queries id (<[id := streamer]> (bgp_streamers_map p)) p).
Definition get_existing_bgp_streamer (channel_id : Z) p : option (BGPStreamer (F := W)) :=
  bgp_streamers_map p !! channel_id.
Definition put_bgp_streamer (channel_id : Z) (s : BGPStreamer (F := W)) p : CacheServerTaskProcessor :=
  set_queries (current_bgp_streamers_channel_id p) (<[channel_id := s]> (bgp_streamers_map p)) p.
Definition clean_bgp_streamer (channel_id : Z) p : CacheServerTaskProcessor :=
  set_queries (current_bgp_streamers_channel_id p) (delete channel_id (bgp_streamers_map p)) p.

(** ** ServerTask.cpp: the handlers

    A handler answers with the new state and one message; [None] is for the lack of
    fuel. *)
Notation handled := (outcome (option (CacheServerTaskProcessor * CacheResponse))).
Definition answer_with (type : MessageType) (body : ResponseBody) p : handled :=
  Ret (Some (p, mkResponse type body)).

Definition process_connection_end p : handled :=
  answer_with CONNECTION_END (ConnectionEndResponse true) p.

Definition translated_predicates (message : CacheRequest) p : list Z :=
  (λ id, nis_get_id (u64 (s64 id)) (nis (cache p))) <$> cache_request_separate_predicates message.
(** The predicates that are in memory, which are marked; the others are queued. *)
Definition lock_predicates (predicates_requested : list Z) p : outcome (list Z * CacheServerTaskProcessor) :=
  if decide (strategy_id (cache p) = NO_CACHING) then Ret (predicates_requested, p)
  else
    let loaded_predicates := extract_loaded_predicates_from_sequence predicates_requested (cache p) in
    c ← mark_used loaded_predicates (cache p);
    let p := set_cache c p in
    Ret (loaded_predicates,
     if decide (length loaded_predicates < length predicates_requested)%nat
     then add_task (ascending (list_to_set predicates_requested ∖ list_to_set loaded_predicates)) p
     else p).
Definition process_predicates_lock_for_triple_stream (message : CacheRequest) p : handled :=
  '(loaded_predicates, p) ← lock_predicates (translated_predicates message p) p;
  '(triples_streamer, p) ← create_triples_streamer loaded_predicates p;
  available ← available_predicates (Channels.loaded_predicates triples_streamer) (nis (cache p));
  answer_with EXTRACT_SEPARATE_PREDICATES_RESPONSE
    (ExtractSeparatePredicatesResponse (channel_id triples_streamer) available) p.

(** The pattern a streamer was created with is a temporary of the request: it dies
    with the statement that creates the streamer. *)
Definition pattern_dies (s : AnyMatchingStreamer) : AnyMatchingStreamer :=
  match s with
  | Sorting s => Sorting (mkSorted (so_channel_id s) (so_pattern_channel_id s) None (so_threshold s)
                            (data_results s) (current_sent s))
  | _ => s
  end.
(** The next part of a pattern; its streamer is dropped when it says all is sent. *)
Definition stream_next (fuel : nat) (channel_id pattern_channel_id : Z) (streamer : AnyMatchingStreamer)
    (s : TripleMatchesPartStreamer) p : handled :=
  m ← get_next_response fuel (nis (cache p)) streamer (cc_pcm (cache p));
  match m with
  | None => Ret None
  | Some (r, streamer, w) =>
      let s := set_streamers s (current_pattern_channel_id s)
                 (<[pattern_channel_id := Some streamer]> (triples_streamers_map s)) in
      let s := if all_sent (G := G) (F := W) streamer then clean_pattern_streamer pattern_channel_id s else s in
      answer_with STREAM_OF_TRIPLES_MATCHING_PATTERN_RESPONSE (StreamOfTriples r)
        (put_triple_streamer channel_id s (set_cache (set_pcm w (cache p)) p))
  end.
Definition process_stream_request_triple_pattern (fuel : nat) (message : CacheRequest) p : handled :=
  let '(channel_id, triple_node) := stream_request_triple_pattern message in
  triples_streamer ← get_triple_streamer channel_id p;
  m ← start_streaming_matching_triples fuel (proto_triple_to_internal triple_node) triples_streamer (cache p);
  match m with
  | None => Ret None
  | Some (streamer, triples_streamer, c) =>
      stream_next fuel channel_id (get_pattern_channel_id (G := G) (F := W) streamer)
        (pattern_dies streamer) triples_streamer (set_cache c p)
  end.
Definition process_stream_continue_triple_pattern (fuel : nat) (message : CacheRequest) p : handled :=
  let '(channel_id, pattern_channel_id) := stream_continue_triple_pattern message in
  triples_streamer ← get_triple_streamer channel_id p;
  streamer ← get_triple_pattern_streamer pattern_channel_id triples_streamer;
  stream_next fuel channel_id pattern_channel_id streamer triples_streamer p.
Definition process_done_with_predicates_notify (message : CacheRequest) p : handled :=
  answer_with ACK_WITH_DONE_TRIPLES_STREAM AckDoneWithChannel
    (clean_triple_streamer (done_with_predicates_notify message) p).

Definition process_request_start_update_triples p : handled :=
  '(update_id, p) ← begin_update_session p;
  answer_with ACCEPT_UPDATE_REQUEST (AcceptUpdateRequest update_id) p.
Definition process_done_update_triples (message : CacheRequest) p : handled :=
  updater ← get_updater (cache_done_update_triples message) p;
  w ← pcm_log (session_updates updater) (cc_pcm (cache p));
  answer_with ACK_DONE_UPDATE_TRIPLES AckDoneUpdate (set_cache (set_pcm w (cache p)) p).
Definition batch_ops (add del : list TripleNodeIdEnc) : list session_op :=
  ((λ t, AddTriple (proto_triple_to_internal t)) <$> add) ++
  ((λ t, DeleteTriple (proto_triple_to_internal t)) <$> del).
Definition process_update_triples_batch (message : CacheRequest) p : handled :=
  let '(update_id, triples_to_add, triples_to_delete) := triples_update_batch message in
  updater ← get_updater update_id p;
  '(updater, g) ← foldM session_step (updater, nis (cache p)) (batch_ops triples_to_add triples_to_delete);
  answer_with BATCH_RECEIVED_RESPONSE (BatchReceivedResponse update_id)
    (put_updater update_id updater (set_cache (set_nis g (cache p)) p)).
Definition process_sync_logs_with_indexes (fuel : nat) p : handled :=
  m ← sync_to_persistent fuel p;
  match m with
  | None => Ret None
  | Some p => answer_with SYNC_LOGS_WITH_INDEXES_RESPONSE ResponseNotSet p
  end.

(** The next batch of a query, which is dropped with its last batch. *)
Definition query_next (fuel step_fuel : nat) (streamer : BGPStreamer (F := W)) p : handled :=
  m ← get_next_message fuel step_fuel (nis (cache p)) streamer (cc_pcm (cache p));
  match m with
  | None => Ret None
  | Some (next_message, streamer, w) =>
      let id := bs_channel_id streamer in
      let p := put_bgp_streamer id streamer (set_cache (set_pcm w (cache p)) p) in
      answer_with RESPONSE_BGP_JOIN (BgpJoinResponseBody next_message)
        (if is_last next_message then clean_bgp_streamer id p else p)
  end.
Definition process_request_bgp_join (fuel step_fuel readings : nat) (message : CacheRequest) p : handled :=
  '(bgp_streamer, p) ← get_bgp_streamer (proto_to_bgp_message (bgp_join message)) readings p;
  query_next fuel step_fuel bgp_streamer p.
Definition process_request_more_bgp_join (fuel step_fuel : nat) (message : CacheRequest) p : handled :=
  match get_existing_bgp_streamer (s32 (continue_bgp_join message)) p with
  | None => answer_with BAD_REQ ResponseNotSet p
  | Some streamer => query_next fuel step_fuel streamer p
  end.
Definition process_request_cancel_query (message : CacheRequest) p : handled :=
  let channel_id := cancel_query_request message in
  let p :=
    match get_existing_bgp_streamer (s32 channel_id) p with
    | Some streamer => put_bgp_streamer (s32 channel_id) (cancel_query streamer) p
    | None => p
    end in
  answer_with ACK_CANCEL_QUERY (AckCancelQuery channel_id) p.

(** [process_next] on a message: the handler of its type; other types are ignored. *)
Definition handle (fuel step_fuel readings : nat) (message : CacheRequest) p : option handled :=
  match request_type message with
  | CONNECTION_END => Some (process_connection_end p)
  | CACHE_REQUEST_SEPARATE_PREDICATES => Some (process_predicates_lock_for_triple_stream message p)
  | STREAM_REQUEST_TRIPLE_PATTERN => Some (process_stream_request_triple_pattern fuel message p)
  | STREAM_CONTINUE_TRIPLE_PATTERN => Some (process_stream_continue_triple_pattern fuel message p)
  | DONE_WITH_PREDICATES_NOTIFY => Some (process_done_with_predicates_notify message p)
  | CACHE_REQUEST_START_UPDATE_TRIPLES => Some (process_request_start_update_triples p)
  | CACHE_DONE_UPDATE_TRIPLES => Some (process_done_update_triples message p)
  | TRIPLES_UPDATE_BATCH => Some (process_update_triples_batch message p)
  | SYNC_LOGS_WITH_INDEXES_REQUEST => Some (process_sync_logs_with_indexes fuel p)
  | REQUEST_BGP_JOIN => Some (process_request_bgp_join fuel step_fuel readings message p)
  | REQUEST_MORE_BGP_JOIN => Some (process_request_more_bgp_join fuel step_fuel message p)
  | CANCEL_QUERY => Some (process_request_cancel_query message p)
  | _ => None
  end.

(** ServerTask.hpp: the task of one connection, and what it has sent. *)
Record ServerTask := mkServerTask { finished : bool; sent : list (list Z) }.
(** [message] is what [get_next_message] gives: [None] when the connection is over. *)
Definition process_next (fuel step_fuel readings : nat) (message : option CacheRequest)
    (s : ServerTask) p : outcome (option (ServerTask * CacheServerTaskProcessor)) :=
  match message with
  | None => Ret (Some (mkServerTask true (sent s), p))
  | Some message =>
      match handle fuel step_fuel readings message p with
      | None => Ret (Some (s, p))
      | Some handled =>
          m ← handled;
          match m with
          | None => Ret None
          | Some (p, cache_response) =>
              result ← send_response cache_response;
              Ret (Some (mkServerTask (finished s) (sent s ++ [result]), p))
          end
      end
  end.
(** [process]: the messages of the connection; the loop ends when they do. *)
Fixpoint process (fuel step_fuel readings : nat) (messages : list CacheRequest)
    (s : ServerTask) p : outcome (option (ServerTask * CacheServerTaskProcessor)) :=
  if finished s then Ret (Some (s, p))
  else
    m ← process_next fuel step_fuel readings (head messages) s p;
    match m, messages with
    | None, _ => Ret None
    | Some r, [] => Ret (Some r)
    | Some (s, p), _ :: messages => process fuel step_fuel readings messages s p
    end.
End server.

(** ** Frames *)

Section frames.
Context `{Ssl : OpenSSL, !OpenSSLLaws, Prt : Protobuf}.

Definition frame (body : list Z) : list Z :=
  be_encode 8 (Z.of_nat (length body)) ++ md5calc body ++ body.
Lemma send_response_spec r : send_response r = Ret (frame (SerializeAsString r)).
Proof.
  unfold send_response. set (body := SerializeAsString r).
  assert (Hw : emits (write_u64 (Z.of_nat (length body));; os_write (md5calc body);; os_write body) (frame body) ()).
  { eapply emits_bind; [apply emits_u64|]. eapply emits_bind; apply emits_write. }
  by rewrite (emits_at _ _ _ [] Hw).
Qed.

(** What a client does: it reads the size, the digest and as many bytes, and checks
    that the bytes have that digest; and so on for the responses it expects. *)
Definition read_bytes (n : nat) : rd (list Z) := λ s, Ret (is_read n s).
Definition receive_response : rd (option (list Z)) :=
  size ← read_u64;
  digest ← read_bytes 16;
  body ← read_bytes (Z.to_nat size);
  mret (if decide (md5calc body = digest) then Some body else None).
Definition receive_responses (n : nat) : rd (list (option (list Z))) :=
  loop (λ acc (_ : nat), r ← receive_response; mret (acc ++ [r])) [] (seq 0 n).

Lemma parses_bytes w : parses (read_bytes (length w)) w w.
Proof. apply parses_intro. intros pre post. unfold read_bytes. by rewrite is_read_at. Qed.
Lemma parses_frame body : Z.of_nat (length body) < 2 ^ 64 →
  parses receive_response (frame body) (Some body).
Proof.
  intros Hlen. unfold receive_response, frame. eapply parses_bind; [apply parses_u64; width|].
  destruct (MD5_digest body) as [Hmd _]. unfold md5calc. rewrite Nat2Z.id.
  eapply parses_bind; [rewrite <-Hmd; apply parses_bytes|].
  eapply parses_eq; [eapply parses_bind_ret; apply parses_bytes|done|]. by rewrite decide_True.
Qed.

(** C36: The bytes sent for a sequence of responses are read back as those responses: a
    client that reads as many frames finds each body whole and with its digest. *)
Theorem frames_roundtrip rs :
  Forall (λ r, Z.of_nat (length (SerializeAsString r)) < 2 ^ 64) rs →
  ∃ sent, Forall2 (λ r bytes, send_response r = Ret bytes) rs sent ∧
    parses (receive_responses (length rs)) (concat sent) ((λ r, Some (SerializeAsString r)) <$> rs).
Proof.
  intros Hrs. exists ((λ r, frame (SerializeAsString r)) <$> rs). split.
  - clear Hrs. induction rs; constructor; [apply send_response_spec|done].
  - eapply parses_eq.
    + apply (parses_count _ (λ r, frame (SerializeAsString r)) (λ acc r, acc ++ [Some (SerializeAsString r)])).
      intros r acc Hr. rewrite Forall_forall in Hrs. by apply (parses_bind_ret receive_response (λ r, acc ++ [r])), parses_frame, Hrs.
    + clear. induction rs as [|r rs IH]; [done|]. rewrite bind_cons, fmap_cons, IH. done.
    + assert (Hfold : ∀ acc, fold_left (λ acc r, acc ++ [Some (SerializeAsString r)]) rs acc =
        acc ++ ((λ r, Some (SerializeAsString r)) <$> rs)).
      { clear. induction rs as [|r rs IH]; intros acc; [by rewrite app_nil_r|]. cbn [fold_left].
        by rewrite IH, <-app_assoc. }
      apply Hfold.
Qed.
End frames.

(** ** Types of the answers *)

(** The case of the oneof that a response of each type carries. *)
Definition well_typed (r : CacheResponse) : Prop :=
  match response r with
  | ConnectionEndResponse _ => response_type r = CONNECTION_END
  | InvalidQueryResponse => response_type r = INVALID_QUERY_RESPONSE
  | ExtractSeparatePredicatesResponse _ _ => response_type r = EXTRACT_SEPARATE_PREDICATES_RESPONSE
  | StreamOfTriples _ => response_type r = STREAM_OF_TRIPLES_MATCHING_PATTERN_RESPONSE
  | AckDoneWithChannel => response_type r = ACK_WITH_DONE_TRIPLES_STREAM
  | AcceptUpdateRequest _ => response_type r = ACCEPT_UPDATE_REQUEST
  | AckDoneUpdate => response_type r = ACK_DONE_UPDATE_TRIPLES
  | BatchReceivedResponse _ => response_type r = BATCH_RECEIVED_RESPONSE
  | BgpJoinResponseBody _ => response_type r = RESPONSE_BGP_JOIN
  | AckCancelQuery _ => response_type r = ACK_CANCEL_QUERY
  | ResponseNotSet => response_type r = SYNC_LOGS_WITH_INDEXES_RESPONSE ∨ response_type r = BAD_REQ
  end.
(** The types of response a type of request may get; none is ignored. *)
Definition reply_types (t : MessageType) : list MessageType :=
  match t with
  | CONNECTION_END => [CONNECTION_END]
  | CACHE_REQUEST_SEPARATE_PREDICATES => [EXTRACT_SEPARATE_PREDICATES_RESPONSE]
  | STREAM_REQUEST_TRIPLE_PATTERN | STREAM_CONTINUE_TRIPLE_PATTERN => [STREAM_OF_TRIPLES_MATCHING_PATTERN_RESPONSE]
  | DONE_WITH_PREDICATES_NOTIFY => [ACK_WITH_DONE_TRIPLES_STREAM]
  | CACHE_REQUEST_START_UPDATE_TRIPLES => [ACCEPT_UPDATE_REQUEST]
  | CACHE_DONE_UPDATE_TRIPLES => [ACK_DONE_UPDATE_TRIPLES]
  | TRIPLES_UPDATE_BATCH => [BATCH_RECEIVED_RESPONSE]
  | SYNC_LOGS_WITH_INDEXES_REQUEST => [SYNC_LOGS_WITH_INDEXES_RESPONSE]
  | REQUEST_BGP_JOIN => [RESPONSE_BGP_JOIN]
  | REQUEST_MORE_BGP_JOIN => [RESPONSE_BGP_JOIN; BAD_REQ]
  | CANCEL_QUERY => [ACK_CANCEL_QUERY]
  | _ => []
  end.
Definition replies (message : CacheRequest) (r : CacheResponse) : Prop :=
  response_type r ∈ reply_types (request_type message) ∧ well_typed r.

Section typing.
Context `{Clk : Clock, Hp : Heap, Blk : BlockLib, Lib : K2Lib, Ssl : OpenSSL, Prt : Protobuf, Ind : Indeterminate}.
Context {W G : Type} `{Pcm : !PredicatesCacheManager W} `{Nis : !NodeIdsManager G}.
Implicit Type p : CacheServerTaskProcessor (W := W) (G := G).

Lemma stream_next_type fuel k pk st s p p' r : stream_next fuel k pk st s p = Ret (Some (p', r)) →
  ∃ b, r = mkResponse STREAM_OF_TRIPLES_MATCHING_PATTERN_RESPONSE (StreamOfTriples b).
Proof. unfold stream_next, answer_with. intros Hr. unbind. by eexists. Qed.
Lemma query_next_type fuel step_fuel st p p' r : query_next fuel step_fuel st p = Ret (Some (p', r)) →
  ∃ b, r = mkResponse RESPONSE_BGP_JOIN (BgpJoinResponseBody b).
Proof. unfold query_next, answer_with. intros Hr. unbind. by eexists. Qed.

Lemma handle_replies fuel step_fuel readings message p p' r :
  handle fuel step_fuel readings message p = Some (Ret (Some (p', r))) → replies message r.
Proof.
  unfold handle, replies, well_typed. destruct (request_type message) eqn:Et; try done; intros Hr; simpl;
    apply (inj Some) in Hr; revert Hr.
  - unfold process_connection_end, answer_with. intros Hr. unbind. split; [by left|done].
  - unfold process_predicates_lock_for_triple_stream, answer_with. intros Hr. unbind. split; [by left|done].
  - unfold process_done_with_predicates_notify, answer_with. intros Hr. unbind. split; [by left|done].
  - unfold process_stream_request_triple_pattern. intros Hr. unbind.
    apply stream_next_type in Hr as [? ->]. split; [by left|done].
  - unfold process_stream_continue_triple_pattern. intros Hr. unbind.
    apply stream_next_type in Hr as [? ->]. split; [by left|done].
  - unfold process_request_start_update_triples, answer_with. intros Hr. unbind. split; [by left|done].
  - unfold process_done_update_triples, answer_with. intros Hr. unbind. split; [by left|done].
  - unfold process_update_triples_batch, answer_with. intros Hr. unbind. split; [by left|done].
  - unfold process_sync_logs_with_indexes, answer_with. intros Hr. unbind. split; [by left|simpl; auto].
  - unfold process_request_bgp_join. intros Hr. unbind.
    apply query_next_type in Hr as [? ->]. split; [by left|done].
  - unfold process_request_more_bgp_join, answer_with. intros Hr. unbind.
    + apply query_next_type in Hr as [? ->]. split; [by left|done].
    + split; [by right; left|simpl; auto].
  - unfold process_request_cancel_query, answer_with. intros Hr. unbind. split; [by left|done].
Qed.

(** The requests of a connection that are answered. *)
Definition answered (messages : list CacheRequest) : list CacheRequest :=
  filter (λ m, reply_types (request_type m) ≠ []) messages.

Lemma replies_from fuel step_fuel readings messages : ∀ p s, finished s = false → ∃ served rest rs p1,
  messages = served ++ rest ∧ Forall2 replies (answered served) rs ∧
  process fuel step_fuel readings served s p =
    Ret (Some (mkServerTask true (sent s ++ ((λ r, frame (SerializeAsString r)) <$> rs)), p1)) ∧
  match rest with
  | [] => True
  | message :: _ => ∃ h, handle fuel step_fuel readings message p1 = Some h ∧ (∀ r, h ≠ Ret (Some r)) ∧
      process fuel step_fuel readings messages s p = (h ≫= λ _, Ret None)
  end.
Proof.
  induction messages as [|message messages IH]; intros p s Hs.
  { exists [], [], [], p. cbn. rewrite Hs, app_nil_r. by split_and!; [|constructor| |]. }
  destruct (handle fuel step_fuel readings message p) as [h|] eqn:Eh.
  2: { destruct (IH p s Hs) as (served & rest & rs & p1 & -> & Hrs & E & Hrest). exists (message :: served), rest, rs, p1.
       assert (Hstep : ∀ ms, process fuel step_fuel readings (message :: ms) s p = process fuel step_fuel readings ms s p).
       { intros ms. cbn [process head]. rewrite Hs. unfold process_next. by rewrite Eh. }
       split; [done|]. split; [|by rewrite !Hstep]. unfold answered. rewrite filter_cons, decide_False; [done|].
       intros Hne. revert Eh. unfold handle. by destruct (request_type message). }
  destruct h as [[[p' r]|]| |].
  2-4: exists [], (message :: messages), [], p; cbn [process head]; rewrite Hs, app_nil_r; (split_and!; [done|constructor|done|]);
    eexists; (split; [exact Eh|]); (split; [done|]); unfold process_next; by rewrite Eh.
  set (s1 := mkServerTask (finished s) (sent s ++ [frame (SerializeAsString r)])).
  assert (Hstep : ∀ ms, process fuel step_fuel readings (message :: ms) s p = process fuel step_fuel readings ms s1 p').
  { intros ms. cbn [process head]. rewrite Hs. unfold process_next. rewrite Eh. cbn [mbind outcome_bind]. by rewrite send_response_spec. }
  destruct (IH p' s1 Hs) as (served & rest & rs & p1 & -> & Hrs & E & Hrest). exists (message :: served), rest, (r :: rs), p1.
  split; [done|]. split; [|rewrite !Hstep, E; by rewrite fmap_cons, cons_middle, app_assoc].
  assert (Hreply := handle_replies _ _ _ _ _ _ _ Eh). unfold answered. rewrite filter_cons, decide_True; [by constructor|].
  intros E0. destruct Hreply as [Hin _]. rewrite E0 in Hin. by apply not_elem_of_nil in Hin.
Qed.

(** C24: What the server sends on a connection: for some number of messages, in order, it
    answers each request by one response, whose type is the one for that request and whose body
    is of that type, and ignores messages of other types. These are all the messages, or the
    handler of the next one gives no answer (it throws, is undefined or runs out of fuel),
    which is how the connection ends. *)
Theorem replies_typed fuel step_fuel readings messages p : ∃ served rest rs p1,
  messages = served ++ rest ∧ Forall2 replies (answered served) rs ∧
  process fuel step_fuel readings served (mkServerTask false []) p =
    Ret (Some (mkServerTask true ((λ r, frame (SerializeAsString r)) <$> rs), p1)) ∧
  match rest with
  | [] => True
  | message :: _ => ∃ h, handle fuel step_fuel readings message p1 = Some h ∧ (∀ r, h ≠ Ret (Some r)) ∧
      process fuel step_fuel readings messages (mkServerTask false []) p = (h ≫= λ _, Ret None)
  end.
Proof. exact (replies_from fuel step_fuel readings messages p (mkServerTask false []) eq_refl). Qed.
End typing.

(** ** The registries *)

Section registries.
Context `{Clk : Clock, Hp : Heap, Blk : BlockLib, Lib : K2Lib, Ssl : OpenSSL, Prt : Protobuf, Ind : Indeterminate}.
Context {W G : Type} `{Pcm : !PredicatesCacheManager W} `{Nis : !NodeIdsManager G}.
Notation tasks := (CacheServerTaskProcessor (W := W) (G := G)).
Implicit Types (p : tasks) (c : CacheContainerImpl W G).

(** A channel and the streamers of its patterns are registered under their ids,
    which are below the next ones. *)
Definition pattern_ok (k : Z) (next : Z) (kv : Z * option AnyMatchingStreamer) : Prop :=
  0 ≤ kv.1 < next ∧ ∃ st, kv.2 = Some st ∧ ids_of (W := W) (G := G) st = (k, kv.1).
Definition channel_ok (next : Z) (kv : Z * option TripleMatchesPartStreamer) : Prop :=
  0 ≤ kv.1 < next ∧ ∃ s, kv.2 = Some s ∧ channel_id s = kv.1 ∧ 0 ≤ current_pattern_channel_id s ∧
    ∀ pk o, triples_streamers_map s !! pk = Some o → pattern_ok kv.1 (current_pattern_channel_id s) (pk, o).
(** How often the open channels have a predicate. *)
Definition channel_uses (q : Z) (o : option TripleMatchesPartStreamer) : Z :=
  match o with Some s => times q (loaded_predicates s) | None => 0 end.
Definition open_uses (m : gmap Z (option TripleMatchesPartStreamer)) (q : Z) : Z :=
  sumZ ((λ kv, channel_uses q kv.2) <$> map_to_list m).

Record server_ok p : Prop := {
  so_counters : 0 ≤ current_triples_streamers_channel_id p ∧ 0 ≤ current_update_session_id p ∧
    0 ≤ current_bgp_streamers_channel_id p;
  so_channels k o : triples_streamer_map p !! k = Some o →
    channel_ok (current_triples_streamers_channel_id p) (k, o);
  so_updaters k o : updaters_sessions p !! k = Some o → 0 ≤ k < current_update_session_id p ∧ is_Some o;
  so_queries k s : bgp_streamers_map p !! k = Some s →
    0 < k ≤ current_bgp_streamers_channel_id p ∧ bs_channel_id s = k;
  so_strategy : strategy_id (cache p) = NO_CACHING ↔ in_use_of (cc_replacement (cache p)) = None;
  so_locks : locks_are (cc_replacement (cache p)) (open_uses (triples_streamer_map p))
}.

Lemma open_uses_insert m k s q : m !! k = None →
  open_uses (<[k := Some s]> m) q = open_uses m q + times q (loaded_predicates s).
Proof.
  intros Hk. unfold open_uses. rewrite (sumZ_perm _ _ (fmap_Permutation _ _ _ (map_to_list_insert m k (Some s) Hk))).
  rewrite fmap_cons, sumZ_cons. simpl. lia.
Qed.
Lemma open_uses_delete m k o q : m !! k = Some o → open_uses (delete k m) q = open_uses m q - channel_uses q o.
Proof.
  intros Hk. rewrite <-(insert_delete_id m k o Hk) at 2. unfold open_uses.
  rewrite (sumZ_perm _ _ (fmap_Permutation _ _ _ (map_to_list_insert (delete k m) k o (lookup_delete_eq m k)))).
  rewrite fmap_cons, sumZ_cons. simpl. lia.
Qed.
(** A channel that keeps its predicates keeps its uses. *)
Lemma open_uses_replace m k s s' q : m !! k = Some (Some s) → loaded_predicates s' = loaded_predicates s →
  open_uses (<[k := Some s']> m) q = open_uses m q.
Proof.
  intros Hk El. rewrite <-(insert_delete_eq m). rewrite open_uses_insert by apply lookup_delete_eq.
  rewrite (open_uses_delete _ _ _ _ Hk), El. simpl. lia.
Qed.
Lemma open_uses_nonneg m q : 0 ≤ open_uses m q.
Proof.
  unfold open_uses. apply sumZ_nonneg, Forall_fmap, Forall_forall. intros [k [s|]] _; simpl; [|lia].
  unfold times. lia.
Qed.
Lemma open_uses_in m k s q : m !! k = Some (Some s) → times q (loaded_predicates s) ≤ open_uses m q.
Proof.
  intros Hk. pose proof (open_uses_delete _ _ _ q Hk). pose proof (open_uses_nonneg (delete k m) q).
  simpl in *. lia.
Qed.

Lemma server_ok_cache p c : server_ok p → strategy_id c = strategy_id (cache p) →
  cc_replacement c = cc_replacement (cache p) → server_ok (set_cache c p).
Proof. intros [] Es Er. split; simpl; try done; by rewrite ?Es, ?Er. Qed.
(** An open channel whose patterns change. *)
Lemma put_channel_ok p k s0 s : server_ok p → triples_streamer_map p !! k = Some (Some s0) →
  loaded_predicates s = loaded_predicates s0 →
  channel_ok (current_triples_streamers_channel_id p) (k, Some s) → server_ok (put_triple_streamer k s p).
Proof.
  intros [] Hk El Hs. split; simpl; try done.
  - intros k' o. rewrite lookup_insert. case_decide; [intros [= <-]; by subst|auto].
  - eapply locks_ext; [|done]. intros q. symmetry. by eapply open_uses_replace.
Qed.

Lemma lock_predicates_ok ps p l p' : server_ok p → lock_predicates ps p = Ret (l, p') →
  locks_are (cc_replacement (cache p')) (λ q, open_uses (triples_streamer_map p) q + times q l) ∧
  (strategy_id (cache p') = NO_CACHING ↔ in_use_of (cc_replacement (cache p')) = None) ∧
  nis (cache p') = nis (cache p) ∧ ∃ r tasks, p' = mkTasks (set_replacement r (cache p)) tasks
    (current_triples_streamers_channel_id p) (triples_streamer_map p) (updaters_sessions p)
    (current_update_session_id p) (current_bgp_streamers_channel_id p) (bgp_streamers_map p).
Proof.
  intros Hok. unfold lock_predicates. case_decide as Hst.
  - intros [= -> ->]. assert (Hnone := proj1 (so_strategy _ Hok) Hst). split; [intros m; congruence|].
    split; [apply Hok|]. split; [done|]. exists (cc_replacement (cache p')), (replacement_tasks p').
    by destruct p' as [[]].
  - set (loaded := extract_loaded_predicates_from_sequence ps (cache p)).
    intros Hr. apply bind_inv in Hr as (c & Hc & [= <- <-]). unfold mark_used in Hc.
    apply bind_inv in Hc as (r & Hu & [= <-]). assert (Hl := mark_all_using loaded _ _ _ (so_locks _ Hok) Hu).
    apply mark_all_kind in Hu.
    case_decide; simpl; (split; [exact Hl|]); (split; [rewrite Hu; apply Hok|]); (split; [done|]);
      by eexists _, _.
Qed.

Lemma channel_fresh p : server_ok p → triples_streamer_map p !! current_triples_streamers_channel_id p = None.
Proof.
  intros Hok. destruct (triples_streamer_map p !! _) as [o|] eqn:E; [|done].
  apply (so_channels _ Hok) in E as [? _]. simpl in *. lia.
Qed.

(** What the response tells the client: the ids of what was created are new, the
    others are those of the request. *)
Definition announced (message : CacheRequest) p p' (r : CacheResponse) : Prop :=
  match response r with
  | ExtractSeparatePredicatesResponse id _ =>
      triples_streamer_map p !! id = None ∧ is_Some (triples_streamer_map p' !! id)
  | AcceptUpdateRequest id =>
      updaters_sessions p !! id = None ∧ updaters_sessions p' !! id = Some (Some new_UpdaterSession)
  | StreamOfTriples b =>
      ∃ s, triples_streamer_map p !! sr_channel_id b = Some (Some s) ∧
      if decide (request_type message = STREAM_REQUEST_TRIPLE_PATTERN)
      then sr_channel_id b = (stream_request_triple_pattern message).1 ∧
           triples_streamers_map s !! sr_pattern_channel_id b = None
      else (sr_channel_id b, sr_pattern_channel_id b) = stream_continue_triple_pattern message
  | BgpJoinResponseBody b =>
      if decide (request_type message = REQUEST_BGP_JOIN)
      then bgp_streamers_map p !! br_channel_id b = None
      else br_channel_id b = s32 (continue_bgp_join message)
  | BatchReceivedResponse id => id = (triples_update_batch message).1.1
  | AckCancelQuery id => id = cancel_query_request message
  | _ => True
  end.
Definition handled_ok (message : CacheRequest) p (h : outcome (option (tasks * CacheResponse))) : Prop :=
  ∀ p' r, h = Ret (Some (p', r)) → server_ok p' ∧ announced message p p' r.

Lemma lock_handler_ok message p : server_ok p →
  handled_ok message p (process_predicates_lock_for_triple_stream message p).
Proof.
  intros Hok p' r. unfold process_predicates_lock_for_triple_stream. intros Hr.
  apply bind_inv in Hr as ([l p1] & El & Hr). revert Hr.
  destruct (lock_predicates_ok _ _ _ _ Hok El) as (Hlocks & Hst & _ & r1 & ts & ->). clear El.
  unfold create_triples_streamer, new_TripleMatchesPartStreamer, answer_with. intros Hr. unbind. simpl in *.
  repeat match goal with H : int_chk _ = Ret _ |- _ => apply int_chk_inv in H as -> end.
  pose proof (channel_fresh p Hok) as Hfresh. destruct Hok as [(? & ? & ?) Hc Hu Hq _ _]. split.
  - split; simpl; try done; [lia| |].
    + intros k o. rewrite lookup_insert. case_decide; [intros [= <-]|intros Hk]; subst.
      * split; [simpl; lia|]. eexists. split; [done|]. split; [done|]. split; [done|]. intros pk o. simpl. by rewrite lookup_empty.
      * destruct (Hc k o Hk) as [? ?]. split; [simpl in *; lia|done].
    + eapply locks_ext; [|exact Hlocks]. intros q. by rewrite open_uses_insert.
  - split; [done|]. unfold set_channels. cbn [triples_streamer_map]. rewrite lookup_insert_eq. by eexists.
Qed.

Lemma stream_next_ok fuel k pk st s s0 p p' r : server_ok p → triples_streamer_map p !! k = Some (Some s0) →
  loaded_predicates s = loaded_predicates s0 → channel_ok (current_triples_streamers_channel_id p) (k, Some s) →
  0 ≤ pk < current_pattern_channel_id s → ids_of (W := W) (G := G) st = (k, pk) →
  stream_next fuel k pk st s p = Ret (Some (p', r)) →
  server_ok p' ∧ ∃ b, response r = StreamOfTriples b ∧ (sr_channel_id b, sr_pattern_channel_id b) = (k, pk).
Proof.
  intros Hok Hk El (Hr0 & s1 & [= <-] & Hid & Hcur & Hpat) Hpk Hids. unfold stream_next, answer_with. intros Hr.
  apply bind_inv in Hr as ([[[b st'] w]|] & Hm & Hr); [|done]. injection Hr as <- <-.
  apply next_ids in Hm as (Eids & Ebody & _). rewrite Hids in Eids, Ebody. split; [|by eexists].
  eapply put_channel_ok; [|exact Hk| |].
  - by apply server_ok_cache.
  - case_match; exact El.
  - split; [done|]. eexists. split; [done|]. set (m := <[pk := Some st']> (triples_streamers_map s)).
    assert (Hm : ∀ x o, m !! x = Some o → pattern_ok k (current_pattern_channel_id s) (x, o)).
    { intros x o. unfold m. rewrite lookup_insert. destruct (decide (pk = x)) as [<-|]; [|by apply Hpat].
      intros [= <-]. split; [exact Hpk|]. by exists st'. }
    match goal with |- context [if ?sent then _ else _] => destruct sent end;
      (split; [exact Hid|]); (split; [exact Hcur|]); [|exact Hm].
    intros x o. cbn [triples_streamers_map clean_pattern_streamer set_streamers]. rewrite lookup_delete_Some.
    intros [_ ?]. by apply Hm.
Qed.

Lemma start_handler_ok fuel message p : server_ok p → request_type message = STREAM_REQUEST_TRIPLE_PATTERN →
  handled_ok message p (process_stream_request_triple_pattern fuel message p).
Proof.
  intros Hok Ht p' r. unfold process_stream_request_triple_pattern, announced.
  destruct (stream_request_triple_pattern message) as [k t]. intros Hr. unfold get_triple_streamer in Hr.
  apply bind_inv in Hr as (s & Hs & Hr). destruct (triples_streamer_map p !! k) as [[s0|]|] eqn:Hk; try done.
  injection Hs as ->. apply bind_inv in Hr as ([[[st s1] c]|] & Hm & Hr); [|done].
  apply start_ids in Hm as (Hids & _ & -> & w & ->).
  destruct (so_channels _ Hok k (Some s) Hk) as (Hr0 & s2 & [= <-] & Hid & Hcur & Hpat). simpl in Hid.
  assert (Hfresh : triples_streamers_map s !! current_pattern_channel_id s = None).
  { destruct (triples_streamers_map s !! _) as [o|] eqn:E; [|done]. apply Hpat in E as [? _]. simpl in *. lia. }
  unfold ids_of in Hids. apply pair_equal_spec in Hids as [Hk1 Hk2]. rewrite Hk2 in Hr. eapply stream_next_ok in Hr.
  - destruct Hr as [? (b & Eb & [= Eb1 Eb2])]. split; [done|]. rewrite Eb. exists s. rewrite Ht, decide_True by done. by rewrite Eb1, Eb2.
  - by apply server_ok_cache.
  - exact Hk.
  - done.
  - split; [done|]. eexists. split; [done|]. split; [exact Hid|]. split; [simpl; lia|]. intros x o. cbn [triples_streamers_map set_streamers].
    rewrite lookup_insert. destruct (decide (_ = x)) as [<-|].
    + intros [= <-]. split; [simpl; lia|]. exists st. split; [done|]. unfold ids_of. by rewrite Hk1, Hk2, Hid.
    + intros Hx. destruct (Hpat x o Hx) as [? ?]. split; [simpl in *; lia|done].
  - simpl. lia.
  - unfold ids_of. rewrite <-Hk2. rewrite <-Hid, <-Hk1. by destruct st.
Qed.
Lemma continue_handler_ok fuel message p : server_ok p → request_type message = STREAM_CONTINUE_TRIPLE_PATTERN →
  handled_ok message p (process_stream_continue_triple_pattern fuel message p).
Proof.
  intros Hok Ht p' r. unfold process_stream_continue_triple_pattern, announced.
  destruct (stream_continue_triple_pattern message) as [k pk]. intros Hr.
  unfold get_triple_streamer, get_triple_pattern_streamer in Hr.
  apply bind_inv in Hr as (s & Hs & Hr). destruct (triples_streamer_map p !! k) as [[s0|]|] eqn:Hk; try done.
  injection Hs as ->. apply bind_inv in Hr as (st & Hst & Hr).
  destruct (triples_streamers_map s !! pk) as [[st0|]|] eqn:Hpk; try done. injection Hst as ->.
  pose proof (so_channels _ Hok k (Some s) Hk) as Hch.
  destruct Hch as (Hr0 & s2 & [= <-] & Hid & Hcur & Hpat). destruct (Hpat _ _ Hpk) as (Hlt & st2 & [= <-] & Hids).
  eapply stream_next_ok in Hr; [|done..|by apply (so_channels _ Hok)|exact Hlt|exact Hids].
  destruct Hr as [? (b & Eb & Hb)]. split; [done|]. rewrite Eb. exists s. rewrite Ht, decide_False by done.
  split; [|exact Hb]. by injection Hb as -> _.
Qed.
Lemma done_handler_ok message p : server_ok p →
  handled_ok message p (process_done_with_predicates_notify message p).
Proof.
  intros Hok p' r [= <- <-]. split; [|done]. unfold clean_triple_streamer.
  set (k := done_with_predicates_notify message). destruct (triples_streamer_map p !! k) as [o|] eqn:Hk.
  - destruct (so_channels _ Hok _ _ Hk) as (_ & s & E & _). simpl in E. subst o. cbn [mjoin option_join].
    assert (Hle : ∀ q, times q (loaded_predicates s) ≤ open_uses (triples_streamer_map p) q) by (intros q; by eapply open_uses_in).
    destruct Hok as [? Hc ? ? Hst Hl]. split; simpl; try done.
    + intros k' o. rewrite lookup_delete_Some. intros [_ ?]. by apply Hc.
    + rewrite Hst. clear. generalize (cc_replacement (cache p)). induction (loaded_predicates s) as [|q l IH]; intros rep; [done|].
      simpl. rewrite <-IH. by destruct rep.
    + eapply locks_ext; [|apply mark_all_ready, Hle; exact Hl]. intros q. simpl. by rewrite (open_uses_delete _ _ _ _ Hk).
  - cbn [mjoin option_join]. rewrite delete_id by done. by destruct p, Hok.
Qed.

Lemma begin_handler_ok message p : server_ok p → handled_ok message p (process_request_start_update_triples p).
Proof.
  intros [(? & ? & ?) ? Hu ? ? ?] p' r. unfold process_request_start_update_triples, begin_update_session, answer_with.
  intros Hr. unbind. repeat match goal with H : int_chk _ = Ret _ |- _ => apply int_chk_inv in H as -> end. split.
  - split; simpl; try done; [lia|]. intros k o. rewrite lookup_insert. case_decide; [intros [= <-]; subst; split; [lia|done]|].
    intros Hk. destruct (Hu k o Hk). split; [lia|done].
  - split; [|by apply lookup_insert_eq]. destruct (updaters_sessions p !! _) as [o|] eqn:E; [|done]. apply Hu in E. lia.
Qed.
Lemma commit_handler_ok message p : server_ok p → handled_ok message p (process_done_update_triples message p).
Proof.
  intros Hok p' r. unfold process_done_update_triples, answer_with. intros Hr. unbind. split; [|done].
  by apply server_ok_cache.
Qed.
Lemma batch_handler_ok message p : server_ok p → handled_ok message p (process_update_triples_batch message p).
Proof.
  intros Hok p' r. unfold process_update_triples_batch, announced. destruct (triples_update_batch message) as [[k add] del].
  unfold get_updater, answer_with. intros Hr. apply bind_inv in Hr as (s & Hs & Hr).
  destruct (updaters_sessions p !! k) as [o|] eqn:Hk; [|done]. apply bind_inv in Hr as ([s' g] & _ & Hr). simplify_eq/=.
  split; [|done]. destruct Hok as [? ? Hu ? ? ?]. split; simpl; try done. intros k' o'. rewrite lookup_insert.
  case_decide; [|by apply Hu]. subst. intros [= <-]. split; [|done]. by apply (Hu _ _ Hk).
Qed.
Lemma sync_handler_ok fuel message p : server_ok p → handled_ok message p (process_sync_logs_with_indexes fuel p).
Proof.
  intros Hok p' r. unfold process_sync_logs_with_indexes, sync_to_persistent, answer_with. intros Hr. unbind.
  split; [|done]. destruct x0 as [w|]; simplify_eq/=. by apply server_ok_cache.
Qed.

Lemma next_message_ids fuel step_fuel g (st : BGPStreamer (F := W)) w r st' w' :
  get_next_message fuel step_fuel g st w = Ret (Some (r, st', w')) →
  bs_channel_id st' = bs_channel_id st ∧ br_channel_id r = bs_channel_id st.
Proof.
  unfold get_next_message. intros Hr. apply bind_inv in Hr as ([[[it s1] w1]|] & Hs & Hr); [|done].
  unbind. simplify_eq/=. revert Hs. unfold start_query. intros Hs. unbind; by simplify_eq/=.
Qed.
Lemma query_next_ok fuel step_fuel st k p p' r : server_ok p → 0 < k ≤ current_bgp_streamers_channel_id p →
  bs_channel_id st = k → query_next fuel step_fuel st p = Ret (Some (p', r)) →
  server_ok p' ∧ ∃ b, response r = BgpJoinResponseBody b ∧ br_channel_id b = k.
Proof.
  intros [? ? ? Hq ? ?] Hk Eid. unfold query_next, answer_with. intros Hr.
  apply bind_inv in Hr as ([[[b st'] w]|] & Hm & Hr); [|done]. apply next_message_ids in Hm as [E1 E2].
  rewrite Eid in E1, E2. rewrite E1 in Hr. injection Hr as <- <-. split; [|by eexists].
  assert (Hput : ∀ x s, <[k := st']> (bgp_streamers_map p) !! x = Some s →
    0 < x ≤ current_bgp_streamers_channel_id p ∧ bs_channel_id s = x).
  { intros x s. rewrite lookup_insert. destruct (decide (k = x)) as [<-|]; [by intros [= <-]|by apply Hq]. }
  destruct (is_last b); split; simpl; try done. intros x s. rewrite lookup_delete_Some. intros [_ ?]. by apply Hput.
Qed.
Lemma join_handler_ok fuel step_fuel readings message p : server_ok p → request_type message = REQUEST_BGP_JOIN →
  handled_ok message p (process_request_bgp_join fuel step_fuel readings message p).
Proof.
  intros Hok Ht p' r. unfold process_request_bgp_join, get_bgp_streamer. intros Hr.
  apply bind_inv in Hr as ([st p1] & Hg & Hr). apply bind_inv in Hg as (id & Hid & Hg).
  apply int_chk_inv in Hid as ->. injection Hg as <- <-. revert Hr.
  set (p1 := set_queries _ _ _). intros Hr.
  destruct Hok as [Hcur ? ? Hq ? ?]. assert (Hok1 : server_ok p1).
  { split; simpl; try done; [lia|]. intros x s. rewrite lookup_insert. destruct (decide (_ = x)) as [<-|].
    - intros [= <-]. split; [lia|done].
    - intros Hx. destruct (Hq x s Hx). split; [lia|done]. }
  eapply (query_next_ok _ _ _ (current_bgp_streamers_channel_id p + 1)) in Hr as [? (b & Eb & Ek)];
    [|done|simpl; lia|done].
  split; [done|]. unfold announced. rewrite Eb, Ht, decide_True, Ek by done.
  destruct (bgp_streamers_map p !! _) as [s|] eqn:E; [|done]. apply Hq in E. lia.
Qed.
Lemma more_handler_ok fuel step_fuel message p : server_ok p → request_type message = REQUEST_MORE_BGP_JOIN →
  handled_ok message p (process_request_more_bgp_join fuel step_fuel message p).
Proof.
  intros Hok Ht p' r. unfold process_request_more_bgp_join, get_existing_bgp_streamer, answer_with.
  destruct (bgp_streamers_map p !! _) as [st|] eqn:E; [|by intros [= <- <-]]. intros Hr.
  destruct (so_queries _ Hok _ _ E) as [Hk Eid]. eapply query_next_ok in Hr as [? (b & Eb & Ek)]; [|done..].
  split; [done|]. unfold announced. by rewrite Eb, Ht, decide_False, Ek by done.
Qed.
Lemma cancel_handler_ok message p : server_ok p → handled_ok message p (process_request_cancel_query message p).
Proof.
  intros Hok p' r. unfold process_request_cancel_query, get_existing_bgp_streamer, answer_with.
  intros [= <- <-]. split; [|done]. destruct (bgp_streamers_map p !! _) as [st|] eqn:E; [|done].
  destruct Hok as [? ? ? Hq ? ?]. split; simpl; try done. intros x s. rewrite lookup_insert.
  destruct (decide (_ = x)) as [<-|]; [|by apply Hq]. intros [= <-]. by apply (Hq _ _ E).
Qed.

Lemma handle_ok fuel step_fuel readings message p p' r : server_ok p →
  handle fuel step_fuel readings message p = Some (Ret (Some (p', r))) →
  server_ok p' ∧ announced message p p' r.
Proof.
  intros Hok. unfold handle. destruct (request_type message) eqn:Et; try done; intros Hr; apply (inj Some) in Hr.
  - by injection Hr as <- <-.
  - by eapply lock_handler_ok.
  - by eapply done_handler_ok.
  - by eapply start_handler_ok.
  - by eapply continue_handler_ok.
  - by eapply begin_handler_ok.
  - by eapply commit_handler_ok.
  - by eapply batch_handler_ok.
  - by eapply sync_handler_ok.
  - by eapply join_handler_ok.
  - by eapply more_handler_ok.
  - by eapply cancel_handler_ok.
Qed.

(** ** Replacement tasks *)

(** A task that nothing interrupts hits its predicates in turn. *)
Definition ends worker p (R : outcome (option tasks)) : Prop :=
  ∃ enough, ∀ fuel, (enough ≤ fuel)%nat → run_task fuel worker p = R.
Lemma ends_hit q size ps (R : AnyReplacement → W → outcome (option tasks)) n : ∀ h p X,
  run_steps (any_hit_step q size) n h (cc_replacement (cache p)) (cc_pcm (cache p)) = Some <$> X →
  (∀ b, h ≠ Finished b) →
  (∀ b r w, X = Ret (b, r, w) → ends (Between ps) (set_cache (set_replacement r (set_pcm w (cache p))) p) (R r w)) →
  ends (Hitting q size h ps) p ('(_, r, w) ← X; R r w).
Proof.
  induction n as [|n IH]; intros h p X Hrun Hh HR; [by destruct h, X; try done; destruct (Hh b)|].
  assert (Hs : run_steps (any_hit_step q size) (S n) h (cc_replacement (cache p)) (cc_pcm (cache p)) =
    ('(h, c, d) ← any_hit_step q size h (cc_replacement (cache p)) (cc_pcm (cache p));
     run_steps (any_hit_step q size) n h c d)) by (destruct h; try done; by destruct (Hh b)).
  rewrite Hs in Hrun. clear Hs.
  destruct (any_hit_step q size h _ _) as [[[h' r'] w']| |] eqn:E; cbn [mbind outcome_bind] in Hrun;
    [|destruct X; simplify_eq/=; exists 1%nat; intros [|fuel] Hf; [lia|]; cbn [run_task replacement_step]; by rewrite E..].
  assert (Hnext : ends (match h' with Finished _ => Between ps | _ => Hitting q size h' ps end)
    (set_cache (set_replacement r' (set_pcm w' (cache p))) p) ('(_, r, w) ← X; R r w)).
  { assert (Hfin : (∃ b, h' = Finished b) ∨ ∀ b, h' ≠ Finished b) by (destruct h'; eauto).
    destruct Hfin as [[b ->]|Hne].
    - rewrite run_finished in Hrun. destruct X as [[[b1 r1] w1]| |]; try done. simpl in Hrun. simplify_eq. by eapply HR.
    - specialize (IH h' (set_cache (set_replacement r' (set_pcm w' (cache p))) p) X Hrun Hne HR). destruct h'; try exact IH. by edestruct Hne. }
  destruct Hnext as [enough Hnext]. exists (S enough). intros [|fuel] Hf; [lia|]. cbn [run_task replacement_step].
  rewrite E. cbn [mbind outcome_bind]. apply Hnext. lia.
Qed.
Theorem task_hits ps : ∀ p, ∃ enough, ∀ fuel, (enough ≤ fuel)%nat →
  run_task fuel (Between ps) p = (λ c, Some (set_cache c p)) <$> foldM hit_predicate (cache p) ps.
Proof.
  induction ps as [|q ps IH]; intros p.
  { exists 1%nat. intros [|fuel] Hf; [lia|]. cbn. destruct fuel; by destruct p. }
  set (size := pcm_size q (cc_pcm (cache p))).
  destruct (any_hit_steps q size (cc_replacement (cache p)) (cc_pcm (cache p))) as [n Hn].
  destruct (ends_hit q size ps (λ r w, (λ c, Some (set_cache c p)) <$> foldM hit_predicate (set_replacement r (set_pcm w (cache p))) ps)
    n Called p _ (Hn n ltac:(lia)) ltac:(done)) as [enough Hends].
  { intros b r w _. exact (IH (set_cache (set_replacement r (set_pcm w (cache p))) p)). }
  exists (S enough). intros [|fuel] Hf; [lia|]. cbn [run_task replacement_step mbind outcome_bind]. fold size.
  rewrite Hends by lia. cbn [foldM].
  assert (E : hit_predicate (cache p) q = ('(_, r, w) ← any_hit_key q size (cc_replacement (cache p)) (cc_pcm (cache p));
    Ret (set_replacement r (set_pcm w (cache p))))) by done. rewrite E.
  by destruct (any_hit_key q size _ _) as [[[b r] w]| |].
Qed.

(** The server moves by requests, of any client, and by the steps of the worker of its
    queue, in any order. *)
Inductive request_step : tasks → tasks → Prop :=
  | request_served fuel step_fuel readings message p p' r :
      handle fuel step_fuel readings message p = Some (Ret (Some (p', r))) → request_step p p'.
Inductive server_step : ReplacementWorker * tasks → ReplacementWorker * tasks → Prop :=
  | step_request worker p p' : request_step p p' → server_step (worker, p) (worker, p')
  | step_worker worker p worker' p' : replacement_step worker p = Ret (worker', p') →
      server_step (worker, p) (worker', p').

Lemma new_server_ok budget strategy sort timeout w g c :
  CacheContainerFactory_create budget strategy sort timeout w g = Ret c → server_ok (new_CacheServerTaskProcessor c).
Proof.
  intros Hc. assert (Hs : ∃ w, c = mkContainer w g (create_cache_replacement budget strategy) strategy sort timeout).
  { revert Hc. unfold CacheContainerFactory_create. case_decide; intros Hr; unbind; simplify_eq; by eexists. }
  destruct Hs as [w' ->]. split; simpl; try done; [by destruct strategy|].
  intros m. destruct strategy; simpl; [done|..]; intros [= <-] q; by rewrite lookup_empty.
Qed.
(** A step of the worker leaves the channels alone, and the registries right; it changes the
    data by loading a predicate, or by dropping one it has found free. *)
Lemma replacement_step_inv worker p worker' p' : replacement_step worker p = Ret (worker', p') → server_ok p →
  server_ok p' ∧ triples_streamer_map p' = triples_streamer_map p ∧
  (cc_pcm (cache p') = cc_pcm (cache p) ∨
   (∃ q, dm_retrieve_key q (cc_pcm (cache p)) = Ret (cc_pcm (cache p'))) ∨
   ∃ q size it n er q' ps, worker = Hitting q' size (Dropping q it n er) ps ∧
     dm_remove_key q (cc_pcm (cache p)) = Ret (cc_pcm (cache p'))) ∧
  ∀ q q' size it n er ps, worker' = Hitting q' size (Dropping q it n er) ps → open_uses (triples_streamer_map p) q = 0.
Proof.
  intros Hs Hok. destruct worker as [|[|q ps]|q size h ps]; simpl in Hs.
  - destruct (replacement_tasks p) as [|ps tasks]; injection Hs as <- <-; (split; [by destruct Hok|]); by split_and!; [|left|].
  - injection Hs as <- <-. by split_and!; [| |left|].
  - injection Hs as <- <-. by split_and!; [| |left|].
  - apply bind_inv in Hs as ([[h' r] w] & Hs & [= <- <-]). apply any_hit_step_inv in Hs as (Hu & Hd & Hq).
    destruct Hok as [? ? ? ? Hstr Hl]. split; [|split; [done|split]].
    + split; simpl; try done; [by rewrite Hu|]. intros m Hm. apply Hl. by rewrite <-Hu.
    + simpl. destruct Hd as [->|[Hd|(q1 & it & n & er & -> & Hd)]]; [by left|right; left; by exists q|].
      right; right. by exists q1, size, it, n, er, q, ps.
    + intros q1 q' size' it n er ps' E. assert (Eh : h' = Dropping q1 it n er) by (destruct h'; by simplify_eq).
      destruct (Hq _ _ _ _ Eh) as (m & Hm & Hnone). destruct (Hl m Hm q1) as [_ E1]. rewrite Hnone in E1. by case_decide.
Qed.
Lemma request_ok p p' : server_ok p → request_step p p' → server_ok p'.
Proof. intros Hok Hr. destruct Hr. by eapply handle_ok. Qed.
Lemma reached_ok s s' : server_ok s.2 → rtc server_step s s' → server_ok s'.2.
Proof.
  intros Hok Hr. induction Hr as [|s s1 s' Hs _ IH]; [done|]. apply IH.
  destruct Hs as [worker p p1 Hs|worker p worker' p' Hs]; [by eapply request_ok|]. by eapply replacement_step_inv in Hs as [? _].
Qed.

(** C7: The registries of a server stay right, whatever requests it has served since it was
    created, and however the steps of its replacement tasks came in between: the channels, the sessions and the queries are registered
    under their own ids, which are below the next ones; and the predicates in use are
    those of the open channels. What a client is told agrees: a new channel, session,
    query or pattern has an id that nothing open has, and every other answer carries
    the ids of its request. *)
Theorem registries_ok budget strategy sort timeout w g c worker p fuel step_fuel readings message p' r :
  CacheContainerFactory_create budget strategy sort timeout w g = Ret c →
  rtc server_step (Idle, new_CacheServerTaskProcessor c) (worker, p) →
  handle fuel step_fuel readings message p = Some (Ret (Some (p', r))) →
  server_ok p ∧ server_ok p' ∧ announced message p p' r.
Proof.
  intros Hc Hr Hh. assert (Hok : server_ok p).
  { apply (reached_ok _ _) in Hr; [done|]. by eapply new_server_ok. }
  split; [done|]. by eapply handle_ok.
Qed.

(** Only a request for predicates opens a channel on one. *)
Lemma stream_next_uses fuel k pk st s s0 p p' r q : stream_next fuel k pk st s p = Ret (Some (p', r)) →
  triples_streamer_map p !! k = Some (Some s0) → loaded_predicates s = loaded_predicates s0 →
  open_uses (triples_streamer_map p') q = open_uses (triples_streamer_map p) q.
Proof.
  unfold stream_next, answer_with. intros Hr Hk El. apply bind_inv in Hr as ([[[b st'] w]|] & _ & Hr); [|done].
  injection Hr as <- <-. apply (open_uses_replace _ _ s0); [done|]. by case_match.
Qed.
Lemma query_next_uses fuel step_fuel st p p' r : query_next fuel step_fuel st p = Ret (Some (p', r)) →
  triples_streamer_map p' = triples_streamer_map p.
Proof. unfold query_next, answer_with. intros Hr. unbind. by case_match. Qed.
Lemma other_requests_uses fuel step_fuel readings message p p' r q :
  handle fuel step_fuel readings message p = Some (Ret (Some (p', r))) →
  request_type message ≠ CACHE_REQUEST_SEPARATE_PREDICATES →
  open_uses (triples_streamer_map p') q ≤ open_uses (triples_streamer_map p) q.
Proof.
  unfold handle. intros Hh Ht. destruct (request_type message); try done; apply (inj Some) in Hh; revert Hh.
  - unfold process_connection_end, answer_with. intros [= <- <-]. reflexivity.
  - unfold process_done_with_predicates_notify, answer_with, clean_triple_streamer. intros [= <- <-].
    cbn [triples_streamer_map set_channels]. set (k := done_with_predicates_notify message).
    destruct (triples_streamer_map p !! k) as [o|] eqn:Hk.
    + rewrite (open_uses_delete _ _ _ _ Hk). destruct o as [s|]; simpl; [unfold times|]; lia.
    + by rewrite delete_id.
  - unfold process_stream_request_triple_pattern, get_triple_streamer. destruct (stream_request_triple_pattern message) as [k t].
    intros Hr. apply bind_inv in Hr as (s & Hs & Hr). destruct (triples_streamer_map p !! k) as [[s0|]|] eqn:Hk; try done.
    injection Hs as ->. apply bind_inv in Hr as ([[[st s1] c]|] & Hm & Hr); [|done]. apply start_ids in Hm as (_ & _ & -> & _).
    by apply (stream_next_uses _ _ _ _ _ s _ _ _ q) in Hr as ->.
  - unfold process_stream_continue_triple_pattern, get_triple_streamer. destruct (stream_continue_triple_pattern message) as [k pk].
    intros Hr. apply bind_inv in Hr as (s & Hs & Hr). destruct (triples_streamer_map p !! k) as [[s0|]|] eqn:Hk; try done.
    injection Hs as ->. apply bind_inv in Hr as (st & _ & Hr). by apply (stream_next_uses _ _ _ _ _ s _ _ _ q) in Hr as ->.
  - unfold process_request_start_update_triples, begin_update_session, answer_with. intros Hr. by unbind.
  - unfold process_done_update_triples, answer_with. intros Hr. by unbind.
  - unfold process_update_triples_batch, answer_with. destruct (triples_update_batch message) as [[k add] del]. intros Hr.
    apply bind_inv in Hr as (s & _ & Hr). apply bind_inv in Hr as ([s' g] & _ & [= <- <-]). done.
  - unfold process_sync_logs_with_indexes, sync_to_persistent, answer_with. intros Hr.
    apply bind_inv in Hr as (m & Hm & Hr). apply bind_inv in Hm as (m' & _ & [= <-]). by destruct m'; simplify_eq/=.
  - unfold process_request_bgp_join, get_bgp_streamer. intros Hr. apply bind_inv in Hr as ([st p1] & Hg & Hr).
    apply bind_inv in Hg as (id & _ & [= <- <-]). by apply query_next_uses in Hr as ->.
  - unfold process_request_more_bgp_join, answer_with. destruct (get_existing_bgp_streamer _ p); [|by intros [= <- <-]].
    by intros ->%query_next_uses.
  - unfold process_request_cancel_query, answer_with. intros [= <- <-]. by destruct (get_existing_bgp_streamer _ p).
Qed.

(** Among the requests served from [p] to [p'] is one that locks [q], which was free. *)
Definition locked_between (q : Z) p p' : Prop :=
  ∃ fuel step_fuel readings message p1 p2 r, rtc request_step p p1 ∧
    request_type message = CACHE_REQUEST_SEPARATE_PREDICATES ∧
    handle fuel step_fuel readings message p1 = Some (Ret (Some (p2, r))) ∧
    open_uses (triples_streamer_map p1) q = 0 ∧ 0 < open_uses (triples_streamer_map p2) q ∧ rtc request_step p2 p'.
Lemma lock_found q p p' : rtc request_step p p' → open_uses (triples_streamer_map p) q = 0 →
  open_uses (triples_streamer_map p') q = 0 ∨ locked_between q p p'.
Proof.
  induction 1 as [|p p1 p' Hs Hr IH]; intros Hq; [by left|].
  destruct (decide (open_uses (triples_streamer_map p1) q = 0)) as [Hq1|Hne].
  - destruct (IH Hq1) as [?|(fuel & sf & rd & message & p2 & p3 & r & H1 & H2)]; [by left|]. right.
    exists fuel, sf, rd, message, p2, p3, r. split; [by eapply rtc_l|done].
  - right. destruct Hs as [fuel sf rd message p p1 r Hh]. exists fuel, sf, rd, message, p, p1, r.
    pose proof (open_uses_nonneg (triples_streamer_map p1) q). split_and!; try done; [|lia].
    destruct (decide (request_type message = CACHE_REQUEST_SEPARATE_PREDICATES)) as [|Ht]; [done|].
    apply (other_requests_uses _ _ _ _ _ _ _ q) in Hh; [lia|done].
Qed.

(** A worker about to drop [q] has found it free, and only requests were served since. *)
Definition drop_tested (start s : ReplacementWorker * tasks) : Prop :=
  ∀ q q' size it n er ps, s.1 = Hitting q' size (Dropping q it n er) ps →
  ∃ worker0 p0 p1, rtc server_step start (worker0, p0) ∧ replacement_step worker0 p0 = Ret (s.1, p1) ∧
    open_uses (triples_streamer_map p0) q = 0 ∧ open_uses (triples_streamer_map p1) q = 0 ∧ rtc request_step p1 s.2.
Lemma reached_drop_tested start s : server_ok start.2 → (∀ q' size h ps, start.1 ≠ Hitting q' size h ps) →
  rtc server_step start s → drop_tested start s.
Proof.
  intros Hok Hstart. revert s. apply (rtc_ind_r (drop_tested start) start); [intros q q' size it n er ps E; by apply Hstart in E|].
  intros s s' Hr Hs IH q q' size it n er ps E.
  destruct Hs as [worker p p' Hs|worker p worker' p' Hs]; cbn [fst snd] in *.
  - destruct (IH q q' size it n er ps E) as (w0 & p0 & p1 & ? & ? & ? & ? & ?). exists w0, p0, p1. split_and!; try done. by eapply rtc_r.
  - exists worker, p, p'. assert (Hokp : server_ok p) by (by eapply (reached_ok start (worker, p))).
    destruct (replacement_step_inv _ _ _ _ Hs Hokp) as (_ & Hm & _ & Hq). split_and!; try done; [by eapply Hq|rewrite Hm; by eapply Hq].
Qed.

(** C13: What the worker of the replacement tasks does to the predicates in memory, in any
    interleaving of its steps with requests since the server was created: a step leaves
    them alone, loads one, or evicts one. It evicts only a predicate that no open channel
    held when it looked, with nothing but requests in between: when one of these has locked
    the predicate it is evicted all the same, and otherwise no channel holds it still. *)
Theorem locked_not_evicted budget strategy sort timeout w g c worker p worker' p' :
  CacheContainerFactory_create budget strategy sort timeout w g = Ret c →
  let start := (Idle, new_CacheServerTaskProcessor c) in
  rtc server_step start (worker, p) → replacement_step worker p = Ret (worker', p') →
  cc_pcm (cache p') = cc_pcm (cache p) ∨
  (∃ q, dm_retrieve_key q (cc_pcm (cache p)) = Ret (cc_pcm (cache p'))) ∨
  ∃ q worker0 p0 p1, dm_remove_key q (cc_pcm (cache p)) = Ret (cc_pcm (cache p')) ∧
    rtc server_step start (worker0, p0) ∧ open_uses (triples_streamer_map p0) q = 0 ∧
    replacement_step worker0 p0 = Ret (worker, p1) ∧ rtc request_step p1 p ∧
    (open_uses (triples_streamer_map p) q = 0 ∨ locked_between q p1 p).
Proof.
  intros Hc start Hr Hs. assert (Hok0 : server_ok start.2) by by eapply new_server_ok.
  assert (Hok := reached_ok _ _ Hok0 Hr). cbn [snd] in Hok.
  destruct (replacement_step_inv _ _ _ _ Hs Hok) as (_ & _ & [?|[?|(q & size & it & n & er & q' & ps & E & Hd)]] & _); [by left|by right; left|].
  right; right. destruct (reached_drop_tested start (worker, p) Hok0 ltac:(done) Hr q q' size it n er ps E) as (w0 & p0 & p1 & H1 & H2 & H3 & H4 & H5).
  exists q, w0, p0, p1. split_and!; try done. by apply lock_found.
Qed.
End registries.

(** ** Instances of the theorems *)

(** A manager of trees in memory, without a log or an index of its own. *)
Definition toy_data : DataManager TreeMap := {|
  dm_remove_key k w := Ret (mkTreeMap (delete k (tree_map w)) (tree_map_qw w));
  dm_retrieve_key k w := Ret (mkTreeMap (<[k := toy_points_tree]> (tree_map w)) (tree_map_qw w))
|}.
Definition toy_trees `{K2Lib} : PredicatesCacheManager TreeMap := {|
  pcm_fetcher := tree_map_fetcher;
  pcm_data := toy_data;
  pcm_active p w := bool_decide (is_Some (tree_map w !! p));
  pcm_size _ _ := 60;
  pcm_init_streamer_predicates _ w := Ret w;
  pcm_fic_get _ _ := None;
  pcm_load_all w := Ret w;
  pcm_log _ w := Ret w;
  pcm_full_sync _ w := Ret (Some w)
|}.
(** A body that tells the types and the ids of responses apart. *)
Definition toy_protobuf : Protobuf := λ r,
  match response r with
  | ExtractSeparatePredicatesResponse id ps => [13; u8 id; Z.of_nat (length ps)]
  | StreamOfTriples b => [19; u8 (sr_channel_id b); u8 (sr_pattern_channel_id b)]
  | AcceptUpdateRequest id => [24; u8 id]
  | BatchReceivedResponse id => [26; u8 id]
  | BgpJoinResponseBody b => [30; u8 (br_channel_id b)]
  | _ => [28]
  end.
Definition toy_indeterminate : Indeterminate := 77.

Section witnesses.
#[local] Existing Instance toy_block_lib.
#[local] Existing Instance Toy.toy_k2_lib.
#[local] Existing Instance toy_openssl.
#[local] Existing Instance toy_openssl_laws.
#[local] Existing Instance toy_heap.
#[local] Existing Instance frozen_clock.
#[local] Existing Instance toy_protobuf.
#[local] Existing Instance toy_indeterminate.
#[local] Existing Instance toy_trees.

(** A client holds the predicate 7 on the channel 0; the predicate 9 was missing. *)
Definition toy_channel : TripleMatchesPartStreamer := mkPart 0 [7] DEFAULT_THRESHOLD_PART_SZ 0 ∅ false.
Definition server_on {G} `{!NodeIdsManager G} (w : TreeMap) (g : G) (sorted : bool) : CacheServerTaskProcessor (W := TreeMap) (G := G) :=
  mkTasks (mkContainer w g (AnyFrequency toy_cache) FREQUENCY sorted 60000) [[9]] 1
    {[ 0 := Some toy_channel ]} ∅ 0 0 ∅.
Lemma server_on_ok {G} `{!NodeIdsManager G} w (g : G) sorted : server_ok (server_on w g sorted).
Proof.
  split; simpl; try done.
  - intros k o [<- <-]%lookup_singleton_Some. split; [simpl; lia|]. exists toy_channel. by split_and!.
  - intros m [= <-] q. assert (E : open_uses {[ 0 := Some toy_channel ]} q = if decide (7 = q) then 1 else 0).
    { unfold open_uses. rewrite map_to_list_singleton. cbn [fmap list_fmap channel_uses snd toy_channel loaded_predicates].
      unfold sumZ. cbn [fold_right]. rewrite times_cons. change (times q []) with 0. lia. }
    rewrite E. case_decide; subst; [done|]. split; [done|]. by rewrite lookup_singleton_ne.
Qed.

(** The terms 10 and 30 have the ids 0 and 1; the predicates 1 and 7 are in memory. *)
Definition toy_server : CacheServerTaskProcessor :=
  server_on (mkTreeMap {[ 1 := toy_points_tree; 7 := toy_points_tree ]} (mkst 8 1 256)) toy_manager false.

Lemma frames_roundtrip_witness :
  let rs := [mkResponse CONNECTION_END (ConnectionEndResponse true);
             mkResponse ACCEPT_UPDATE_REQUEST (AcceptUpdateRequest 3)] in
  ∃ sent, Forall2 (λ r bytes, send_response r = Ret bytes) rs sent ∧
    parses (receive_responses (length rs)) (concat sent) ((λ r, Some (SerializeAsString r)) <$> rs).
Proof. apply frames_roundtrip. repeat constructor. Defined.

(** Two predicates are asked for, of which one is there; a message is ignored; then the client
    asks for more of a pattern on a channel that is not open, and says that it ends. *)
Definition toy_lock : CacheRequest :=
  mkRequest CACHE_REQUEST_SEPARATE_PREDICATES (CacheRequestSeparatePredicates [30; 10]).
Definition toy_messages : list CacheRequest :=
  [toy_lock; mkRequest INVALID_QUERY_RESPONSE RequestNotSet;
   mkRequest STREAM_CONTINUE_TRIPLE_PATTERN (StreamContinueTriplePattern 5 0);
   mkRequest CONNECTION_END (ConnectionEndRequest true)].
Lemma replies_typed_witness : process 0 0 0 toy_messages (mkServerTask false []) toy_server = UB ∧
  ∃ served rest rs p1, toy_messages = served ++ rest ∧ Forall2 replies (answered served) rs ∧ served ≠ toy_messages ∧
    process 0 0 0 served (mkServerTask false []) toy_server =
      Ret (Some (mkServerTask true ((λ r, frame (SerializeAsString r)) <$> rs), p1)).
Proof.
  split; [reflexivity|].
  destruct (replies_typed 0 0 0 toy_messages toy_server) as (served & rest & rs & p1 & E & Hrs & Hp & _).
  exists served, rest, rs, p1. split; [exact E|]. split; [exact Hrs|]. split; [|exact Hp]. intros ->. discriminate Hp.
Defined.

(** A new server, whose first client locks a predicate. *)
Definition created_container : CacheContainerImpl TreeMap NodeIdsManagerImpl :=
  mkContainer (mkTreeMap {[ 1 := toy_points_tree ]} (mkst 8 1 256)) toy_manager (create_cache_replacement 1000 LRU)
    LRU false 60000.
Definition toy_handled : CacheServerTaskProcessor * CacheResponse :=
  match handle 0 0 0 toy_lock (new_CacheServerTaskProcessor created_container) with
  | Some (Ret (Some r)) => r
  | _ => (toy_server, mkResponse UNKNOWN ResponseNotSet)
  end.
Lemma registries_ok_witness :
  server_ok (new_CacheServerTaskProcessor created_container) ∧ server_ok toy_handled.1 ∧
  announced toy_lock (new_CacheServerTaskProcessor created_container) toy_handled.1 toy_handled.2.
Proof.
  apply (registries_ok 1000 LRU false 60000 (mkTreeMap {[ 1 := toy_points_tree ]} (mkst 8 1 256)) toy_manager
    created_container Idle (new_CacheServerTaskProcessor created_container) 0 0 0 toy_lock).
  - reflexivity.
  - apply rtc_refl.
  - reflexivity.
Defined.

(** The requests and the steps of the worker ([None]) of a run. *)
Fixpoint play (run : list (option CacheRequest)) (s : ReplacementWorker * CacheServerTaskProcessor (W := TreeMap) (G := NodeIdsManagerImpl))
    : option (ReplacementWorker * CacheServerTaskProcessor (W := TreeMap) (G := NodeIdsManagerImpl)) :=
  match run with
  | [] => Some s
  | None :: run => match replacement_step s.1 s.2 with Ret s => play run s | _ => None end
  | Some m :: run => match handle 0 0 0 m s.2 with Some (Ret (Some (p, _))) => play run (s.1, p) | _ => None end
  end.
Lemma play_reaches run : ∀ s s', play run s = Some s' → rtc server_step s s'.
Proof.
  induction run as [|[m|] run IH]; intros [worker p] s' E; cbn [play fst snd] in E; [by injection E as <-| |].
  - destruct (handle 0 0 0 m p) as [[[[p1 r]|]| |]|] eqn:Eh; try done.
    eapply rtc_l, IH, E. by apply step_request, (request_served 0 0 0 m _ _ r).
  - destruct (replacement_step worker p) as [[w1 p1]| |] eqn:Es; try done. eapply rtc_l, IH, E. by apply step_worker.
Qed.
Definition lock_of (term : Z) : option CacheRequest :=
  Some (mkRequest CACHE_REQUEST_SEPARATE_PREDICATES (CacheRequestSeparatePredicates [term])).
(** A server with room for one predicate. A client asks for the predicate 0, which is loaded;
    another for the predicate 1, and the worker finds that 0 is free to go. *)
Definition tight_container : CacheContainerImpl TreeMap NodeIdsManagerImpl :=
  mkContainer (mkTreeMap ∅ (mkst 8 1 256)) toy_manager (create_cache_replacement 100 LRU) LRU false 60000.
Definition tight_start : ReplacementWorker * CacheServerTaskProcessor (W := TreeMap) (G := NodeIdsManagerImpl) :=
  (Idle, new_CacheServerTaskProcessor tight_container).
Definition before_drop : list (option CacheRequest) :=
  [lock_of 10] ++ replicate 6 None ++ [lock_of 30] ++ replicate 4 None.
Definition tight_free := default tight_start (play before_drop tight_start).
(** Then a client locks it, before the worker goes on. *)
Definition tight_locked := default tight_start (play (before_drop ++ [lock_of 10]) tight_start).

Definition stepped (s : ReplacementWorker * CacheServerTaskProcessor (W := TreeMap) (G := NodeIdsManagerImpl)) :=
  match replacement_step s.1 s.2 with Ret s => s | _ => s end.
Lemma stepped_step s : match replacement_step s.1 s.2 with Ret _ => true | _ => false end = true →
  replacement_step s.1 s.2 = Ret ((stepped s).1, (stepped s).2).
Proof. unfold stepped. by destruct (replacement_step s.1 s.2) as [[]| |]. Qed.

Lemma locked_not_evicted_witness :
  tree_map (cc_pcm (cache tight_free.2)) !! 0 = Some toy_points_tree ∧
  let p := tight_free.2 in let p' := (stepped tight_free).2 in
  tree_map (cc_pcm (cache p')) !! 0 = None ∧
  (cc_pcm (cache p') = cc_pcm (cache p) ∨
   (∃ q, dm_retrieve_key q (cc_pcm (cache p)) = Ret (cc_pcm (cache p'))) ∨
   ∃ q worker0 p0 p1, dm_remove_key q (cc_pcm (cache p)) = Ret (cc_pcm (cache p')) ∧
     rtc server_step tight_start (worker0, p0) ∧ open_uses (triples_streamer_map p0) q = 0 ∧
     replacement_step worker0 p0 = Ret (tight_free.1, p1) ∧ rtc request_step p1 p ∧
     (open_uses (triples_streamer_map p) q = 0 ∨ locked_between q p1 p)).
Proof.
  split; [by vm_compute|]. split; [by vm_compute|].
  apply (locked_not_evicted 100 LRU false 60000 (mkTreeMap ∅ (mkst 8 1 256)) toy_manager tight_container tight_free.1
    tight_free.2 (stepped tight_free).1).
  - reflexivity.
  - apply (play_reaches before_drop). by vm_compute.
  - apply stepped_step. by vm_compute.
Defined.

(** A predicate that a client locks after the worker has found it free is evicted while the
    client's channel holds it. *)
Theorem locked_in_between_evicted : ∃ worker p worker' p' s,
  rtc server_step tight_start (worker, p) ∧
  triples_streamer_map p !! 2 = Some (Some s) ∧ loaded_predicates s = [0] ∧
  tree_map (cc_pcm (cache p)) !! 0 = Some toy_points_tree ∧
  replacement_step worker p = Ret (worker', p') ∧
  triples_streamer_map p' !! 2 = Some (Some s) ∧ tree_map (cc_pcm (cache p')) !! 0 = None.
Proof.
  exists tight_locked.1, tight_locked.2, (stepped tight_locked).1, (stepped tight_locked).2,
    (mkPart 2 [0] DEFAULT_THRESHOLD_PART_SZ 0 ∅ false).
  split; [apply (play_reaches (before_drop ++ [lock_of 10])); by vm_compute|].
  split; [by vm_compute|]. split; [done|]. split; [by vm_compute|]. split; [apply stepped_step; by vm_compute|].
  split; by vm_compute.
Qed.
End witnesses.
