(* ===== verification/Serving.v ===== *)
(** * What a client gets from the server

    The handlers one after the other: a pattern served part by part on an open
    channel, an update session from its start to its commit, requests with ids that
    the server does not know. *)
From S2P Require Import Prelude Streams Memory Blocks K2Tree Scanners Fetcher Hashing Replacement CachedSource.
From S2P Require Import NodeIds BGPOps BGPIterator BGPProcessor UpdatesLog PredicatesIndex Fic Manager Session.
From S2P Require Import Streaming BgpStreamer Channels Server.

Local Open Scope Z_scope.

(** ** Patterns *)

Section patterns.
Context `{Clk : Clock, Hp : Heap, Blk : BlockLib, Lib : K2Lib, !K2LibLaws, Ssl : OpenSSL, Prt : Protobuf, Ind : Indeterminate}.
Context {W G : Type} `{Pcm : !PredicatesCacheManager W} `{Nis : !NodeIdsManager G, !NodeIdsManagerLaws G}.
Context `{!K2TreeFetcherLaws W}.
Notation tasks := (CacheServerTaskProcessor (W := W) (G := G)).
Implicit Types (p : tasks) (s : TripleMatchesPartStreamer) (st : AnyMatchingStreamer).

Definition start_request (channel_id : Z) (t : TripleNodeIdEnc) : CacheRequest :=
  mkRequest STREAM_REQUEST_TRIPLE_PATTERN (StreamRequestTriplePattern channel_id t).
Definition continue_request (channel_id pattern_channel_id : Z) : CacheRequest :=
  mkRequest STREAM_CONTINUE_TRIPLE_PATTERN (StreamContinueTriplePattern channel_id pattern_channel_id).

(** The client: it asks for the pattern, then for more of what the last part says it
    belongs to, until it has the last one. *)
Fixpoint receive_parts (n fuel step_fuel readings : nat) (message : CacheRequest) p
    : outcome (option (list StreamOfTriplesMatchingPatternResponse * tasks)) :=
  match n, handle fuel step_fuel readings message p with
  | S n, Some handled =>
      m ← handled;
      match m with
      | Some (p, mkResponse _ (StreamOfTriples r)) =>
          if last_result r then Ret (Some ([r], p))
          else
            rest ← receive_parts n fuel step_fuel readings
                     (continue_request (sr_channel_id r) (sr_pattern_channel_id r)) p;
            Ret (option_map (λ rs, (r :: rs.1, rs.2)) rest)
      | _ => Ret None
      end
  | _, _ => Ret None
  end.

(** The rest of the channel, and of the server, is as it was. *)
Definition only_pattern (k pk : Z) s p p' : Prop :=
  nis (cache p') = nis (cache p) ∧
  ∃ s', triples_streamer_map p' = <[k := Some s']> (triples_streamer_map p) ∧
    ∀ pk', pk' ≠ pk → triples_streamers_map s' !! pk' = triples_streamers_map s !! pk'.

(** One part: the streamer moves on, and stays registered while it has more. *)
Lemma stream_next_part fuel k pk st s p r st' w : ids_of (W := W) (G := G) st = (k, pk) →
  all_sent (G := G) (F := W) st = false →
  get_next_response fuel (nis (cache p)) st (cc_pcm (cache p)) = Ret (Some (r, st', w)) →
  ∃ s' p', stream_next fuel k pk st s p =
      Ret (Some (p', mkResponse STREAM_OF_TRIPLES_MATCHING_PATTERN_RESPONSE (StreamOfTriples r))) ∧
    (sr_channel_id r, sr_pattern_channel_id r) = (k, pk) ∧ ids_of (W := W) (G := G) st' = (k, pk) ∧
    triples_streamer_map p' = <[k := Some s']> (triples_streamer_map p) ∧
    nis (cache p') = nis (cache p) ∧ cc_pcm (cache p') = w ∧
    (∀ pk', pk' ≠ pk → triples_streamers_map s' !! pk' = triples_streamers_map s !! pk') ∧
    (last_result r = false → all_sent (G := G) (F := W) st' = false ∧ triples_streamers_map s' !! pk = Some (Some st')).
Proof.
  intros Hids Hsent Hr. unfold stream_next. rewrite Hr. cbn [mbind outcome_bind].
  destruct (next_ids _ _ _ _ _ _ _ Hr) as (E1 & E2 & E3). rewrite Hids in E1, E2. unfold answer_with.
  eexists _, _. split; [done|]. split; [done|]. split; [done|]. split; [done|]. split; [done|]. split; [done|]. split.
  - intros pk' Hne. match goal with |- context [if ?b then _ else _] => destruct b end;
      cbn [clean_pattern_streamer set_streamers triples_streamers_map];
      rewrite ?lookup_delete_ne by done; by rewrite lookup_insert_ne.
  - intros Hl. assert (Hs : all_sent (G := G) (F := W) st' = false).
    { apply not_true_iff_false. intros Hs. rewrite (E3 Hsent Hs) in Hl. done. }
    split; [done|]. rewrite Hs. cbn [set_streamers triples_streamers_map]. by rewrite lookup_insert_eq.
Qed.

(** The server serves what the streamer of a pattern streams. *)
Lemma receive_streams step_fuel readings k pk fuel : ∀ n st s p p0 message rs,
  handle fuel step_fuel readings message p0 = Some (stream_next fuel k pk st s p) →
  ids_of (W := W) (G := G) st = (k, pk) → all_sent (G := G) (F := W) st = false →
  stream_all n fuel (nis (cache p)) st (cc_pcm (cache p)) = Ret (Some rs) →
  ∃ p', receive_parts n fuel step_fuel readings message p0 = Ret (Some (rs, p')) ∧ only_pattern k pk s p p'.
Proof.
  induction n as [|n IH]; intros st s p p0 message rs Hh Hids Hsent Hall; [done|]. cbn [stream_all] in Hall.
  apply bind_inv in Hall as ([[[r st'] w]|] & Hr & Hall); [|done].
  destruct (stream_next_part fuel k pk st s p r st' w Hids Hsent Hr)
    as (s1 & p1 & E & Hb & Hids' & Hmap & Hnis & Hw & Hother & Hgo).
  cbn [receive_parts]. rewrite Hh, E. cbn [mbind outcome_bind]. destruct (last_result r).
  - injection Hall as <-. exists p1. split; [done|]. split; [done|]. by exists s1.
  - destruct (Hgo eq_refl) as [Hsent' Hst']. apply bind_inv in Hall as ([rs'|] & Hall & E2); [|done].
    simpl in E2. injection E2 as <-.
    destruct (IH st' s1 p1 p1 (continue_request (sr_channel_id r) (sr_pattern_channel_id r)) rs') as (p' & -> & Hn' & s' & Hmap' & Hother');
      [|done|done|by rewrite Hnis, Hw|].
    { apply pair_equal_spec in Hb as [-> ->]. unfold handle. cbn. unfold process_stream_continue_triple_pattern, get_triple_streamer, get_triple_pattern_streamer. cbn.
      rewrite Hmap, lookup_insert_eq. cbn. by rewrite Hst'. }
    exists p'. split; [done|]. split; [by rewrite Hn'|]. exists s'. split.
    + by rewrite Hmap', Hmap, insert_insert_eq.
    + intros pk' Hne. by rewrite Hother', Hother.
Qed.

Lemma stream_all_lazy fuel g : ∀ n (st : TriplePatternMatchingStreamer) (w : W),
  stream_all n fuel g (Lazy st) w = stream_all n fuel g st w.
Proof.
  induction n as [|n IH]; intros st w; [done|]. cbn -[tpm_get_next_response].
  destruct (tpm_get_next_response fuel g st) as [[[r st']|]| |]; try done. cbn. by rewrite IH.
Qed.
Lemma stream_all_cached fuel g : ∀ n (st : StreamerFromCachedSource) (w : W),
  stream_all n fuel g (FromCache st) w = stream_all n fuel g st w.
Proof.
  induction n as [|n IH]; intros st w; [done|]. cbn -[fc_get_next_response].
  destruct (fc_get_next_response fuel g st) as [[[r st']|]| |]; try done. cbn. by rewrite IH.
Qed.

(** The patterns covered: with a variable, on terms that are known. The matches are
    those of the index when the predicate is indexed, and the pattern then has one
    variable; otherwise those of the tree, with lazy streamers. *)
Definition pattern_served (t : TripleNodeId) (P : gset (Z * Z)) p : Prop :=
  let g := nis (cache p) in let w := cc_pcm (cache p) in
  let predicate := nis_get_id (id_argument (t_predicate t)) g in
  nis_ok g ∧ has_variable t ∧ named g P ∧
  match pcm_fic_get predicate w with
  | Some source => indexes source P ∧ (is_any (t_subject t) = false ∨ is_any (t_object t) = false)
  | None => fetcher_ok w ∧ sort_results (cache p) = false ∧ P = default ∅ (points_of w predicate) ∧
      node_known (fetcher_qw w) g (t_subject t) ∧ node_known (fetcher_qw w) g (t_object t)
  end.

(** C2: A client that asks for a pattern on a channel it has open, and for more until it is
    told it has the last part, gets each match of the pattern once, with its external
    ids, in parts of bounded size that carry the ids of the channel and of the
    pattern; all other channels, and the other patterns of this one, are as they were. *)
Theorem served_pattern k te p s P :
  let t := proto_triple_to_internal te in
  server_ok p → triples_streamer_map p !! k = Some (Some s) →
  0 ≤ threshold_part_size s < 2 ^ 63 → current_pattern_channel_id s + 1 < 2 ^ 31 → pattern_served t P p →
  ∀ n fuel step_fuel readings, (base.size P < n)%nat → (base.size P < fuel)%nat → ∃ rs rows p',
    receive_parts n fuel step_fuel readings (start_request k te) p = Ret (Some (rs, p')) ∧
    whole_answer (k, current_pattern_channel_id s) (threshold_part_size s) rows rs ∧
    rows ≡ₚ answer (nis (cache p)) t P ∧ only_pattern k (current_pattern_channel_id s) s p p'.
Proof.
  intros t Hok Hk Hth Hnext (Hg & Hv & Hn & Hcase) n fuel step_fuel readings Hn' Hfuel.
  destruct (so_channels _ Hok k (Some s) Hk) as (_ & s2 & [= <-] & Hid & Hcur & _). simpl in Hid.
  set (pk := current_pattern_channel_id s) in *. set (g := nis (cache p)) in *.
  assert (Hnew : ∃ st w rs rows, new_matching_streamer fuel t s (cache p) = Ret (Some (st, set_pcm w (cache p))) ∧
    pattern_dies st = st ∧ stream_all n fuel g st w = Ret (Some rs) ∧
    whole_answer (k, pk) (threshold_part_size s) rows rs ∧ rows ≡ₚ answer g t P).
  { unfold new_matching_streamer. fold g pk. destruct (pcm_fic_get _ _) as [source|].
    - destruct Hcase as [Hi Hone].
      destruct (cached_stream_correct source (channel_id s) pk t (threshold_part_size s) g (cc_pcm (cache p)) P) as (st & E & Hst); [done..|].
      destruct (Hst n fuel Hn' Hfuel) as (rs & rows & Hall & Hw & Hp'). exists (FromCache st), (cc_pcm (cache p)), rs, rows.
      rewrite E, stream_all_cached, <-Hid. split_and!; try done. by destruct (cache p).
    - destruct Hcase as (Hf & -> & -> & Hs & Ho).
      destruct (stream_correct (channel_id s) pk t (threshold_part_size s) g (cc_pcm (cache p))) as (st & w & E & _ & Hst); [done..|].
      destruct (Hst n fuel Hn' Hfuel) as (rs & rows & Hall & Hw & Hp'). exists (Lazy st), w, rs, rows.
      rewrite E, stream_all_lazy, <-Hid. by split_and!. }
  destruct Hnew as (st & w & rs & rows & Hst & Hdies & Hall & Hw & Hrows).
  destruct (new_streamer_ids _ _ _ _ _ _ Hst) as (Hids & Hsent & _). rewrite Hid in Hids.
  set (s1 := set_streamers s (pk + 1) (<[pk := Some st]> (triples_streamers_map s))).
  destruct (receive_streams step_fuel readings k pk fuel n st s1 (set_cache (set_pcm w (cache p)) p) p
    (start_request k te) rs) as (p' & E & Hnis & s' & Hmap & Hother); [|done..|].
  - unfold handle. cbn [request_type start_request]. f_equal. unfold process_stream_request_triple_pattern.
    cbn [start_request stream_request_triple_pattern request]. unfold get_triple_streamer. rewrite Hk. cbn [mjoin option_join deref mbind outcome_bind].
    unfold start_streaming_matching_triples. fold t. rewrite Hst. cbn [mbind outcome_bind]. fold pk.
    unfold int_chk. rewrite decide_True by lia. cbn [mbind outcome_bind]. rewrite Hdies.
    unfold ids_of in Hids. apply pair_equal_spec in Hids as [_ Hpk]. by rewrite Hpk.
  - exists rs, rows, p'. split; [exact E|]. split; [exact Hw|]. split; [exact Hrows|].
    split; [exact Hnis|]. exists s'. split; [exact Hmap|]. intros pk' Hne.
    rewrite Hother by done. unfold s1. cbn [triples_streamers_map set_streamers]. by rewrite lookup_insert_ne.
Qed.
End patterns.

(** ** Requests that fail *)

Section failures.
Context `{Clk : Clock, Hp : Heap, Blk : BlockLib, Lib : K2Lib, !K2LibLaws, Ssl : OpenSSL, Prt : Protobuf, Ind : Indeterminate}.
Context {W G : Type} `{Pcm : !PredicatesCacheManager W} `{Nis : !NodeIdsManager G}.
Context `{!K2TreeFetcherLaws W}.
Notation tasks := (CacheServerTaskProcessor (W := W) (G := G)).
Implicit Types (p : tasks) (message : CacheRequest).

(** The ids a message refers to are not those of anything open. *)
Definition unknown_channel k p : Prop := mjoin (triples_streamer_map p !! k) = None.
Definition unknown_session k p : Prop := mjoin (updaters_sessions p !! k) = None.

(** C40: Ids the server does not know: a request on an unknown channel, for an unknown
    pattern of a channel, or in an unknown session dereferences a null pointer. Only
    for queries is the client told, and closing an unknown channel is acknowledged;
    nothing changes then. *)
Theorem unknown_ids fuel step_fuel readings message p :
  let response := handle fuel step_fuel readings message p in
  match request_type message with
  | STREAM_REQUEST_TRIPLE_PATTERN =>
      unknown_channel (stream_request_triple_pattern message).1 p → response = Some UB
  | STREAM_CONTINUE_TRIPLE_PATTERN =>
      (unknown_channel (stream_continue_triple_pattern message).1 p ∨
       ∃ s, triples_streamer_map p !! (stream_continue_triple_pattern message).1 = Some (Some s) ∧
         mjoin (triples_streamers_map s !! (stream_continue_triple_pattern message).2) = None) → response = Some UB
  | CACHE_DONE_UPDATE_TRIPLES => unknown_session (cache_done_update_triples message) p → response = Some UB
  | TRIPLES_UPDATE_BATCH => unknown_session (triples_update_batch message).1.1 p → response = Some UB
  | REQUEST_MORE_BGP_JOIN => bgp_streamers_map p !! s32 (continue_bgp_join message) = None →
      response = Some (Ret (Some (p, mkResponse BAD_REQ ResponseNotSet)))
  | CANCEL_QUERY => bgp_streamers_map p !! s32 (cancel_query_request message) = None →
      response = Some (Ret (Some (p, mkResponse ACK_CANCEL_QUERY (AckCancelQuery (cancel_query_request message)))))
  | DONE_WITH_PREDICATES_NOTIFY => triples_streamer_map p !! done_with_predicates_notify message = None →
      response = Some (Ret (Some (p, mkResponse ACK_WITH_DONE_TRIPLES_STREAM AckDoneWithChannel)))
  | _ => True
  end.
Proof.
  simpl. unfold handle. destruct (request_type message); try done.
  - intros Hk. unfold process_done_with_predicates_notify, clean_triple_streamer. rewrite Hk. simpl.
    rewrite delete_id by done. by destruct p.
  - intros Hk. unfold process_stream_request_triple_pattern, get_triple_streamer.
    destruct (stream_request_triple_pattern message). simpl in Hk. by rewrite Hk.
  - intros Hk. unfold process_stream_continue_triple_pattern, get_triple_streamer.
    destruct (stream_continue_triple_pattern message). simpl in Hk. destruct Hk as [Hk|(s & Hk & Hpk)]; rewrite Hk; [done|].
    cbn. unfold get_triple_pattern_streamer. by rewrite Hpk.
  - intros Hk. unfold process_done_update_triples, get_updater. by rewrite Hk.
  - intros Hk. unfold process_update_triples_batch, get_updater.
    destruct (triples_update_batch message) as [[? ?] ?]. simpl in Hk. by rewrite Hk.
  - intros Hk. unfold process_request_more_bgp_join, get_existing_bgp_streamer. by rewrite Hk.
  - intros Hk. unfold process_request_cancel_query, get_existing_bgp_streamer. by rewrite Hk.
Qed.

(** With sorted results, asking the server whether it has a triple is undefined: the
    streamer answers such a request by looking at the pattern again, which it holds by
    reference and which the request has destroyed by then. *)
Theorem sorted_exact_dangles k te p s fuel step_fuel readings :
  let t := proto_triple_to_internal te in
  let predicate := nis_get_id (id_argument (t_predicate t)) (nis (cache p)) in
  triples_streamer_map p !! k = Some (Some s) → sort_results (cache p) = true →
  pcm_fic_get predicate (cc_pcm (cache p)) = None → fetcher_ok (cc_pcm (cache p)) → ¬ has_variable t → (0 < fuel)%nat →
  handle fuel step_fuel readings (start_request k te) p = Some UB.
Proof.
  intros t predicate Hk Hsort Hnone Hf Hv Hfuel. unfold handle. cbn [request_type start_request]. f_equal.
  unfold process_stream_request_triple_pattern. cbn [start_request stream_request_triple_pattern request].
  unfold get_triple_streamer. rewrite Hk. cbn [mjoin option_join deref mbind outcome_bind].
  unfold start_streaming_matching_triples, new_matching_streamer. fold t predicate. rewrite Hnone, Hsort.
  assert (Hnew : ∃ w, new_TPMSortedStreamer fuel (channel_id s) (current_pattern_channel_id s) t (threshold_part_size s)
      (nis (cache p)) (cc_pcm (cache p)) =
    Ret (Some (mkSorted (channel_id s) (current_pattern_channel_id s) (Some t) (threshold_part_size s) (mkData [] []) 0, w))).
  { unfold new_TPMSortedStreamer, exists_tree. fold predicate.
    destruct (fetch_law (cc_pcm (cache p)) predicate Hf) as (r & w & -> & _ & _ & _ & Hr). exists w.
    cbn [mbind outcome_bind]. destruct (points_of _ predicate) as [P|].
    - destruct Hr as (Hex & tree & Etree & _). unfold fetch_get, exists_tree, pattern_scanner, get_all_data. rewrite Hex, Etree.
      assert (Es : is_any (t_subject t) = false) by (apply not_true_iff_false; intros E; apply Hv; by left).
      assert (Eo : is_any (t_object t) = false) by (apply not_true_iff_false; intros E; apply Hv; by right).
      rewrite Es, Eo. by destruct fuel; [lia|].
    - destruct Hr as [Hex _]. by rewrite Hex. }
  destruct Hnew as [w ->]. cbn [mbind outcome_bind option_map fst snd].
  unfold int_chk. by case_decide.
Qed.

Lemma available_undefined l g q : q ∈ l → (nis_get_real_id (G := G) q g).2 = None → available_predicates l g = UB.
Proof.
  intros Hq Hnone. induction l as [|x l IH]; [by apply not_elem_of_nil in Hq|]. cbn [available_predicates].
  destruct (nis_get_real_id x g) as [v [e|]] eqn:E; [|done]. cbn [deref mbind outcome_bind].
  apply elem_of_cons in Hq as [->|Hq]; [by rewrite E in Hnone|]. by rewrite IH.
Qed.

Definition lock_request (predicates : list Z) : CacheRequest :=
  mkRequest CACHE_REQUEST_SEPARATE_PREDICATES (CacheRequestSeparatePredicates predicates).
(** Locking a predicate that is in memory is undefined when the ids manager finds its
    external id without writing that it did, as for every id given out at run time:
    the answer reads an error code that nothing has initialised. *)
Theorem lock_undefined fuel step_fuel readings predicates p l p1 w q :
  let message := lock_request predicates in
  lock_predicates (translated_predicates message p) p = Ret (l, p1) → q ∈ l →
  (nis_get_real_id q (nis (cache p))).2 = None →
  pcm_init_streamer_predicates l (cc_pcm (cache p1)) = Ret w →
  handle fuel step_fuel readings message p = Some UB.
Proof.
  intros message El Hq Hnone Hinit. unfold handle. cbn [message lock_request request_type]. f_equal.
  unfold process_predicates_lock_for_triple_stream. fold message. rewrite El. cbn [mbind outcome_bind].
  assert (Hnis : nis (cache p1) = nis (cache p)).
  { revert El. unfold lock_predicates, mark_used. case_decide; [by intros [= <- <-]|]. intros Hr. unbind; case_match; done. }
  unfold create_triples_streamer, new_TripleMatchesPartStreamer. rewrite Hinit. cbn [mbind outcome_bind].
  unfold int_chk. case_decide; [|done]. cbn [mbind outcome_bind Channels.loaded_predicates].
  change (nis (cache _)) with (nis (cache p1)). by rewrite (available_undefined l _ q) by (by rewrite ?Hnis).
Qed.
End failures.

(** ** Update sessions *)

Section updates.
Context `{Clk : Clock, Hp : Heap, Blk : BlockLib, !BlockLibLaws, Lib : K2Lib, !K2LibLaws, Ssl : OpenSSL, Prt : Protobuf, Ind : Indeterminate}.
Context {C : Type} `{FC : !FullyIndexedCache C PredicatesIndexCacheMD, FCL : !FullyIndexedCacheLaws C}.
Context `{FCW : !FullyIndexedCache C (PCMWithLog C)}.
Context {G : Type} `{Nis : !NodeIdsManager G, !NodeIdsManagerLaws G}.
Notation tasks := (CacheServerTaskProcessor (W := PCMWithLog C) (G := G)).
Implicit Types (p : tasks).

Definition begin_request : CacheRequest := mkRequest CACHE_REQUEST_START_UPDATE_TRIPLES CacheRequestStartUpdateTriples.
Definition batch_request (id : Z) (add del : list TripleNodeIdEnc) : CacheRequest :=
  mkRequest TRIPLES_UPDATE_BATCH (TriplesUpdateBatch id add del).
Definition commit_request (id : Z) : CacheRequest := mkRequest CACHE_DONE_UPDATE_TRIPLES (CacheDoneUpdateTriples id).

(** C4: An update session over the wire, from its start to its commit: the client gets the id of
    the session, the batch changes no tree, and the commit adds the points of the triples added.
    Of each triple deleted it takes away the point of its subject paired with itself, and nothing
    else: a point off the diagonal that was there, or is added, is there after the commit, also
    when it is the point of a deleted triple. *)
Theorem served_update d add del p fuel step_fuel readings :
  let id := current_update_session_id p in
  let ops := batch_ops add del in let w := cc_pcm (cache p) in let g := nis (cache p) in
  id + 1 < 2 ^ 31 → 0 ≤ id → nis_ok g → nis_room (2 ^ 32) (3 * length ops) g →
  Forall (λ op, Forall (λ n, nis_accepts (2 ^ 32) (id_argument n)) (op_nodes op)) ops →
  host_ok w → index_ok d (index_of w) → update_logger (index_of w) = true → log_open w →
  32 ≤ treedepth (k2tree_config (index_of w)) →
  ∃ p1 p2 s,
    handle fuel step_fuel readings begin_request p =
      Some (Ret (Some (p1, mkResponse ACCEPT_UPDATE_REQUEST (AcceptUpdateRequest id)))) ∧
    handle fuel step_fuel readings (batch_request id add del) p1 =
      Some (Ret (Some (p2, mkResponse BATCH_RECEIVED_RESPONSE (BatchReceivedResponse id)))) ∧
    cc_pcm (cache p2) = w ∧ updaters_sessions p2 !! id = Some (Some s) ∧
    (Forall update_wf (session_updates s) → ∃ p3,
       handle fuel step_fuel readings (commit_request id) p2 =
         Some (Ret (Some (p3, mkResponse ACK_DONE_UPDATE_TRIPLES AckDoneUpdate))) ∧
       nis (cache p3) = nis (cache p2) ∧ host_ok (cc_pcm (cache p3)) ∧ index_ok d (index_of (cc_pcm (cache p3))) ∧
       (∀ q, index_points d (cc_pcm (cache p3)) q = session_effect (nis (cache p3)) ops q (index_points d w q)) ∧
       ∀ q x y, x ≠ y → (x, y) ∈ default ∅ (index_points d (cc_pcm (cache p3)) q) ↔
         (x, y) ∈ default ∅ (index_points d w q) ∪ additions (nis (cache p3)) ops q).
Proof.
  intros id ops w g Hid Hid0 Hg Hroom Hacc Hw Hi Hul Ho Hd.
  destruct (session_correct d ops g w Hg Hroom Hacc Hw Hi Hul Ho Hd) as (s & g' & E & _ & Hcommit).
  set (p1 := set_sessions (id + 1) (<[id := Some new_UpdaterSession]> (updaters_sessions p)) p).
  set (p2 := put_updater id s (set_cache (set_nis g' (cache p1)) p1)). exists p1, p2, s.
  assert (Hs : updaters_sessions p2 !! id = Some (Some s)) by apply lookup_insert_eq.
  split; [|split; [|split; [done|split; [exact Hs|]]]].
  - unfold handle. cbn [begin_request request_type]. unfold process_request_start_update_triples, begin_update_session.
    fold id. unfold int_chk. by rewrite decide_True by lia.
  - unfold handle. cbn [batch_request request_type]. unfold process_update_triples_batch. cbn [triples_update_batch batch_request request].
    unfold get_updater, p1. cbn [set_sessions updaters_sessions]. rewrite lookup_insert_eq.
    cbn [mjoin option_join deref mbind outcome_bind]. fold p1. change (nis (cache p1)) with g. fold ops. rewrite E.
    cbn [mbind outcome_bind]. done.
  - intros Hwf. destruct (Hcommit Hwf) as (w' & Ew & Hw' & Hi' & Hpts). unfold commit_updates in Ew.
    exists (set_cache (set_pcm w' (cache p2)) p2).
    split; [|split; [done|split; [done|split; [done|split; [exact Hpts|]]]]].
    2: { intros q x y Hne. change (cc_pcm (cache _)) with w'. rewrite Hpts. by apply session_effect_off_diagonal. }
    unfold handle. cbn [commit_request request_type]. unfold process_done_update_triples, get_updater. cbn [cache_done_update_triples commit_request request].
    rewrite Hs. cbn [mjoin option_join deref mbind outcome_bind]. change (cc_pcm (cache p2)) with w.
    cbn [pcm_log impl_pcm]. rewrite Ew. done.
Qed.
End updates.

(** ** Instances of the theorems *)

Section witnesses.
#[local] Existing Instance toy_block_lib.
#[local] Existing Instance toy_block_laws.
#[local] Existing Instance Toy.toy_k2_lib.
#[local] Existing Instance toy_openssl.
#[local] Existing Instance toy_heap.
#[local] Existing Instance frozen_clock.
#[local] Existing Instance toy_protobuf.
#[local] Existing Instance toy_indeterminate.
#[local] Existing Instance toy_trees.

(** (?x 7 ?y), and (3 7 5). *)
Definition wire_pairs : TripleNodeIdEnc := mkEnc NODE_ANY 7 NODE_ANY.
Definition wire_triple : TripleNodeIdEnc := mkEnc 3 7 5.

Lemma served_pattern_witness :
  let p := server_on stream_store mkIdentity false in
  ∃ rs rows p',
    receive_parts 20 20 0 0 (start_request 0 wire_pairs) p = Ret (Some (rs, p')) ∧
    whole_answer (0, 0) DEFAULT_THRESHOLD_PART_SZ rows rs ∧
    rows ≡ₚ answer mkIdentity all_pairs (pts toy_points_tree) ∧ only_pattern 0 0 toy_channel p p'.
Proof.
  apply (served_pattern 0 wire_pairs (server_on stream_store mkIdentity false) toy_channel (pts toy_points_tree)).
  - apply server_on_ok.
  - reflexivity.
  - computed.
  - reflexivity.
  - split; [done|]. split; [by left|]. split; [apply stream_named; by vm_compute|].
    split; [exact stream_store_ok|]. split; [done|]. split; [reflexivity|]. split; by left.
  - apply Nat.ltb_lt. by vm_compute.
  - apply Nat.ltb_lt. by vm_compute.
Defined.

Lemma unknown_ids_witness :
  handle 5 5 0 (continue_request 8 0) (server_on stream_store mkIdentity false) = Some UB.
Proof. apply (unknown_ids 5 5 0 (continue_request 8 0) (server_on stream_store mkIdentity false)). by left. Defined.

Lemma sorted_exact_dangles_witness :
  handle 5 5 0 (start_request 0 wire_triple) (server_on stream_store mkIdentity true) = Some UB.
Proof.
  apply (sorted_exact_dangles 0 wire_triple (server_on stream_store mkIdentity true) toy_channel).
  - reflexivity.
  - reflexivity.
  - reflexivity.
  - exact stream_store_ok.
  - by intros [|].
  - lia.
Defined.

Lemma lock_undefined_witness :
  handle 5 5 0 (lock_request [7])
    (server_on stream_store mkIdentity false) = Some UB.
Proof.
  eapply (lock_undefined 5 5 0 [7] (server_on stream_store mkIdentity false) [7] _ stream_store 7).
  - reflexivity.
  - by left.
  - reflexivity.
  - reflexivity.
Defined.

Definition update_server : CacheServerTaskProcessor (W := PCMWithLog FullyIndexedCacheImpl) (G := NodeIdsManagerImpl) :=
  mkTasks (mkContainer wide_manager toy_manager (AnyFrequency toy_cache) FREQUENCY false 60000) [] 0 ∅ ∅ 0 0 ∅.
Lemma served_update_witness :
  let add := [mkEnc 10 20 30; mkEnc 55 20 10] in let del := [mkEnc 30 20 10] in
  ∃ p1 p2 s,
    handle 0 0 0 begin_request update_server =
      Some (Ret (Some (p1, mkResponse ACCEPT_UPDATE_REQUEST (AcceptUpdateRequest 0)))) ∧
    handle 0 0 0 (batch_request 0 add del) p1 =
      Some (Ret (Some (p2, mkResponse BATCH_RECEIVED_RESPONSE (BatchReceivedResponse 0)))) ∧
    cc_pcm (cache p2) = wide_manager ∧ updaters_sessions p2 !! 0 = Some (Some s) ∧
    (Forall update_wf (session_updates s) → ∃ p3,
       handle 0 0 0 (commit_request 0) p2 =
         Some (Ret (Some (p3, mkResponse ACK_DONE_UPDATE_TRIPLES AckDoneUpdate))) ∧
       nis (cache p3) = nis (cache p2) ∧ host_ok (cc_pcm (cache p3)) ∧ index_ok wide_file (index_of (cc_pcm (cache p3))) ∧
       (∀ q, index_points wide_file (cc_pcm (cache p3)) q =
         session_effect (nis (cache p3)) (batch_ops add del) q (index_points wide_file wide_manager q)) ∧
       ∀ q x y, x ≠ y → (x, y) ∈ default ∅ (index_points wide_file (cc_pcm (cache p3)) q) ↔
         (x, y) ∈ default ∅ (index_points wide_file wide_manager q) ∪ additions (nis (cache p3)) (batch_ops add del) q).
Proof.
  apply (served_update wide_file [mkEnc 10 20 30; mkEnc 55 20 10] [mkEnc 30 20 10] update_server 0 0 0).
  - reflexivity.
  - reflexivity.
  - apply wide_ids.
  - apply wide_ids.
  - by repeat constructor.
  - apply wide_ready.
  - exact wide_index_ok.
  - done.
  - apply wide_ready.
  - done.
Defined.
End witnesses.
