(* ===== verification/Connection.v ===== *)
(** * network/messages and ClientReqHandlerImpl: requests from a socket

    A request comes as the size of its body, four bytes, and the body, which the
    socket delivers in pieces of any size and with interruptions. *)
From S2P Require Import Prelude Streams Memory Blocks K2Tree Scanners Fetcher Hashing Replacement CachedSource.
From S2P Require Import NodeIds BGPOps BGPIterator BGPProcessor UpdatesLog PredicatesIndex Fic Manager Session.
From S2P Require Import Streaming BgpStreamer Channels Server.

Local Open Scope Z_scope.

(** ** The socket

    [recv] belongs to the system: it gives at most as many bytes as asked for, none
    at the end of the stream or when none are asked for, or an error. *)
Inductive recv_result := Received (bytes : list Z) | RecvError (interrupted : bool).
Class Socket (K : Type) := { recv : Z → K → recv_result * K }.

(** A connection that works: what is still to come, and how often a call may be
    interrupted until it is there. *)
Class SocketLaws (K : Type) `{Socket K} := {
  incoming : K → list Z;
  patience : K → nat;
  recv_law n s : 0 ≤ n → ∃ r s', recv n s = (r, s') ∧
    match r with
    | RecvError interrupted => interrupted = true ∧ incoming s' = incoming s ∧ (patience s' < patience s)%nat
    | Received bytes => incoming s = bytes ++ incoming s' ∧ Z.of_nat (length bytes) ≤ n ∧ patience s' = patience s ∧
        (bytes = [] ↔ n = 0 ∨ incoming s = [])
    end
}.

(** [ParseFromArray] is generated code. *)
Class ProtobufParser := ParseFromArray : list Z → CacheRequest.

Section connection.
Context `{Parser : ProtobufParser} {K : Type} `{Sock : !Socket K}.

(** ** messages/utils.cpp and ClientReqHandlerImpl.cpp

    [buffer] is the part of the buffer that has been read; [None] stands for [false]. *)
Fixpoint read_nbytes_from_socket (fuel : nat) (bytes_to_read : Z) (buffer : list Z) (s : K)
    : option (option (list Z) * K) :=
  match fuel with
  | O => None
  | S fuel =>
      match recv (bytes_to_read - Z.of_nat (length buffer)) s with
      | (RecvError interrupted, s) =>
          if negb interrupted then Some (None, s) else read_nbytes_from_socket fuel bytes_to_read buffer s
      | (Received [], s) => Some (None, s)
      | (Received bytes, s) =>
          if decide (Z.of_nat (length buffer) + Z.of_nat (length bytes) = bytes_to_read)
          then Some (Some (buffer ++ bytes), s)
          else read_nbytes_from_socket fuel bytes_to_read (buffer ++ bytes) s
      end
  end.

(** [ntohl] reads the bytes as a big-endian number. *)
Definition get_next_message (fuel : nat) (s : K) : option (option CacheRequest * K) :=
  '(was_read, s) ← read_nbytes_from_socket fuel 4 [] s;
  match was_read with
  | None => Some (None, s)
  | Some bytes =>
      '(was_read, s) ← read_nbytes_from_socket fuel (be_decode bytes) [] s;
      match was_read with
      | None => Some (None, s)
      | Some buffer => Some (Some (ParseFromArray buffer), s)
      end
  end.
End connection.

(** ** ServerTask.cpp: [process] on its connection *)
Section serving.
Context `{Clk : Clock, Hp : Heap, Blk : BlockLib, Lib : K2Lib, Ssl : OpenSSL, Prt : Protobuf, Ind : Indeterminate}.
Context {W G : Type} `{Pcm : !PredicatesCacheManager W} `{Nis : !NodeIdsManager G}.
Context `{Parser : ProtobufParser} {K : Type} `{Sock : !Socket K}.
Notation tasks := (CacheServerTaskProcessor (W := W) (G := G)).

Fixpoint serve (n sock_fuel fuel step_fuel readings : nat) (sock : K) (task : ServerTask) (p : tasks)
    : outcome (option (K * (ServerTask * tasks))) :=
  match n with
  | O => Ret None
  | S n =>
      if finished task then Ret (Some (sock, (task, p)))
      else
        match get_next_message sock_fuel sock with
        | None => Ret None
        | Some (message, sock) =>
            m ← process_next fuel step_fuel readings message task p;
            match m with
            | None => Ret None
            | Some (task, p) => serve n sock_fuel fuel step_fuel readings sock task p
            end
        end
  end.
End serving.

(** ** Reading *)

Section reading.
Context `{Parser : ProtobufParser} {K : Type} `{Sock : !Socket K, !SocketLaws K}.
Implicit Type s : K.

(** However the bytes come, those asked for are read and no others. *)
Lemma read_nbytes_spec n rest : ∀ fuel body buffer s,
  incoming s = body ++ rest → body ≠ [] → Z.of_nat (length buffer + length body) = n →
  (length body + patience s < fuel)%nat →
  ∃ s', read_nbytes_from_socket fuel n buffer s = Some (Some (buffer ++ body), s') ∧
    incoming s' = rest ∧ (patience s' ≤ patience s)%nat.
Proof.
  induction fuel as [|fuel IH]; intros body buffer s Hin Hne Hn Hf; [lia|]. cbn [read_nbytes_from_socket].
  destruct (recv_law (n - Z.of_nat (length buffer)) s) as (r & s1 & -> & Hr); [lia|].
  assert (Hpos : (0 < length body)%nat) by (destruct body; [done|simpl; lia]).
  destruct r as [bytes|b].
  - destruct Hr as (Hs1 & Hle & Hp & Hnil). destruct bytes as [|x bytes].
    { destruct (proj1 Hnil eq_refl) as [?|E]; [lia|]. rewrite Hin in E. by destruct body. }
    rewrite Hin in Hs1. set (bs := x :: bytes) in *.
    assert (Hpre : ∃ more, body = bs ++ more ∧ incoming s1 = more ++ rest).
    { exists (drop (length bs) body). split.
      - rewrite <-(take_drop (length bs) body) at 1. f_equal.
        rewrite <-(take_app_le body rest) by lia. by rewrite Hs1, take_app_length.
      - apply (app_inv_head bs). rewrite <-Hs1, app_assoc. f_equal.
        rewrite <-(take_drop (length bs) body) at 1. f_equal. rewrite <-(take_app_le body rest) by lia.
        by rewrite Hs1, take_app_length. }
    destruct Hpre as (more & -> & Hmore). rewrite length_app in *. case_decide as Hd.
    + assert (more = []) as -> by (destruct more; [done|simpl in *; lia]). exists s1. rewrite app_nil_r.
      split; [done|]. split; [done|lia].
    + destruct (IH more (buffer ++ bs) s1) as (s' & -> & Hrest & Hpat); [done| |rewrite length_app; lia| |].
      { intros ->. rewrite length_nil in *. lia. }
      { unfold bs in *. simpl in *. lia. }
      exists s'. rewrite <-app_assoc. split; [done|]. split; [done|lia].
  - destruct Hr as (-> & Hs1 & Hlt). cbn [negb]. destruct (IH body buffer s1) as (s' & E & Hrest & Hpat);
      [by rewrite Hs1|done..|lia|]. exists s'. split; [exact E|]. split; [done|lia].
Qed.

(** When the stream ends before, and when nothing is asked for, reading fails. *)
Lemma read_nbytes_ends n : ∀ fuel buffer s,
  n = Z.of_nat (length buffer) ∨ Z.of_nat (length buffer + length (incoming s)) < n →
  (length (incoming s) + patience s < fuel)%nat →
  ∃ s', read_nbytes_from_socket fuel n buffer s = Some (None, s').
Proof.
  induction fuel as [|fuel IH]; intros buffer s Hcase Hf; [lia|]. cbn [read_nbytes_from_socket].
  destruct (recv_law (n - Z.of_nat (length buffer)) s) as (r & s1 & -> & Hr); [lia|].
  destruct r as [[|x bytes]|b].
  - by exists s1.
  - destruct Hr as (Hs1 & _ & Hpat & Hnil). destruct Hcase as [->|Hlt].
    { assert (x :: bytes = []); [|done]. apply Hnil. left. lia. }
    set (bs := x :: bytes) in *. rewrite Hs1, length_app in *. rewrite decide_False by lia. apply IH.
    + right. rewrite length_app. lia.
    + unfold bs in *. simpl in *. lia.
  - destruct Hr as (-> & Hs1 & Hlt). cbn [negb]. apply IH; rewrite Hs1; [done|lia].
Qed.

(** What a client sends for a request whose body is [body]. *)
Definition request_frame (body : list Z) : list Z := be_encode 4 (Z.of_nat (length body)) ++ body.

Lemma next_message_spec fuel s body rest :
  incoming s = request_frame body ++ rest → body ≠ [] → Z.of_nat (length body) < 2 ^ 32 →
  (length (incoming s) + patience s < fuel)%nat →
  ∃ s', get_next_message fuel s = Some (Some (ParseFromArray body), s') ∧
    incoming s' = rest ∧ (patience s' ≤ patience s)%nat.
Proof.
  unfold request_frame. rewrite <-app_assoc. intros Hin Hne Hlen Hf. rewrite Hin in Hf.
  rewrite !length_app, length_be_encode in Hf. unfold get_next_message.
  destruct (read_nbytes_spec 4 (body ++ rest) fuel (be_encode 4 (Z.of_nat (length body))) [] s) as (s1 & -> & Hs1 & Hp1);
    [done|done|by rewrite length_be_encode|rewrite length_be_encode; lia|].
  cbn [mbind option_bind app]. rewrite be_decode_encode by (unfold in_u; simpl; lia).
  destruct (read_nbytes_spec (Z.of_nat (length body)) rest fuel body [] s1) as (s2 & -> & Hs2 & Hp2);
    [done|done|done|lia|]. exists s2. cbn. split; [done|]. split; [done|lia].
Qed.

(** Where requests end: with a request that has no body, or with the stream, in the
    middle of a request or not. *)
Definition cut (rest : list Z) : Prop :=
  (∃ more, rest = request_frame [] ++ more) ∨
  ∃ body k, rest = take k (request_frame body) ∧ (k < length (request_frame body))%nat ∧ Z.of_nat (length body) < 2 ^ 32.
Lemma no_message_spec fuel s : cut (incoming s) → (length (incoming s) + patience s < fuel)%nat →
  ∃ s', get_next_message fuel s = Some (None, s').
Proof.
  unfold get_next_message. intros [[more Hin]|(body & k & Hin & Hk & Hlen)] Hf.
  - unfold request_frame in Hin. rewrite app_nil_r in Hin. rewrite Hin, length_app, length_be_encode in Hf.
    destruct (read_nbytes_spec 4 more fuel (be_encode 4 0) [] s) as (s1 & -> & Hs1 & Hp1);
      [done|done|done|rewrite length_be_encode; lia|].
    cbn [mbind option_bind app]. change (be_decode (be_encode 4 0)) with 0.
    destruct (read_nbytes_ends 0 fuel [] s1) as (s2 & ->); [by left|rewrite Hs1; lia|]. by exists s2.
  - set (header := be_encode 4 (Z.of_nat (length body))). assert (Hh : length header = 4%nat) by apply length_be_encode.
    unfold request_frame in Hin, Hk. fold header in Hin, Hk. rewrite length_app, Hh in Hk.
    destruct (decide (k < 4)%nat) as [Hlt|Hge].
    + destruct (read_nbytes_ends 4 fuel [] s) as (s1 & ->); [|done|by exists s1]. right.
      rewrite Hin, length_take, length_app, Hh. simpl length. lia.
    + rewrite take_app_ge in Hin by lia. rewrite Hh in Hin. rewrite Hin, length_app, Hh, length_take in Hf.
      destruct (read_nbytes_spec 4 (take (k - 4) body) fuel header [] s) as (s1 & -> & Hs1 & Hp1);
        [done|by intros E; rewrite E in Hh|by rewrite Hh|lia|].
      cbn [mbind option_bind app]. unfold header. rewrite be_decode_encode by (unfold in_u; simpl; lia).
      destruct (read_nbytes_ends (Z.of_nat (length body)) fuel [] s1) as (s2 & ->); [| |by exists s2];
        rewrite Hs1, length_take; [right; simpl length; lia|lia].
Qed.
End reading.

(** ** A whole connection *)

Section whole.
Context `{Clk : Clock, Hp : Heap, Blk : BlockLib, Lib : K2Lib, Ssl : OpenSSL, Prt : Protobuf, Ind : Indeterminate}.
Context {W G : Type} `{Pcm : !PredicatesCacheManager W} `{Nis : !NodeIdsManager G}.
Context `{Parser : ProtobufParser} {K : Type} `{Sock : !Socket K, !SocketLaws K}.

Lemma connection_spec sock bodies rest n sock_fuel fuel step_fuel readings
    (p : CacheServerTaskProcessor (W := W) (G := G)) :
  incoming sock = concat (request_frame <$> bodies) ++ rest → cut rest →
  Forall (λ body, body ≠ [] ∧ Z.of_nat (length body) < 2 ^ 32) bodies →
  (S (length bodies) < n)%nat → (length (incoming sock) + patience sock < sock_fuel)%nat →
  (m ← serve n sock_fuel fuel step_fuel readings sock (mkServerTask false []) p; Ret (option_map snd m)) =
  process fuel step_fuel readings (ParseFromArray <$> bodies) (mkServerTask false []) p.
Proof.
  generalize (mkServerTask false []). intros task Hin Hcut Hall. revert sock task p n Hin.
  induction Hall as [|body bodies [Hne Hlen] Hall IH]; intros sock task p n Hin Hn Hf;
    (destruct n as [|n]; [simpl in Hn; lia|]); cbn [serve fmap list_fmap process];
    (destruct (finished task); [done|]).
  - simpl in Hin. destruct (no_message_spec sock_fuel sock) as (s' & ->); [by rewrite Hin|done|].
    cbn [head process_next mbind outcome_bind]. destruct n as [|n]; [simpl in Hn; lia|]. done.
  - cbn [fmap list_fmap concat] in Hin. rewrite <-app_assoc in Hin.
    destruct (next_message_spec sock_fuel sock body _ Hin Hne Hlen Hf) as (s' & -> & Hs' & Hp').
    cbn [head]. destruct (process_next _ _ _ _ task p) as [[[task' p']|]| |]; cbn [mbind outcome_bind]; try done.
    apply IH; [done|simpl in Hn; lia|]. rewrite Hs'. rewrite Hin, length_app in Hf. lia.
Qed.

(** C14: However the bytes of a connection arrive, the server does what it does on the list
    of the requests in them, errors included: up to the end of the stream, where a
    request that is cut short is dropped, or up to a request without a body, which the
    server takes for the end and so leaves what follows unanswered. *)
Theorem connection_served sock bodies rest n sock_fuel fuel step_fuel readings
    (p : CacheServerTaskProcessor (W := W) (G := G)) :
  incoming sock = concat (request_frame <$> bodies) ++ rest → cut rest →
  Forall (λ body, body ≠ [] ∧ Z.of_nat (length body) < 2 ^ 32) bodies →
  (S (length bodies) < n)%nat → (length (incoming sock) + patience sock < sock_fuel)%nat →
  (m ← serve n sock_fuel fuel step_fuel readings sock (mkServerTask false []) p; Ret (option_map snd m)) =
  process fuel step_fuel readings (ParseFromArray <$> bodies) (mkServerTask false []) p.
Proof. apply connection_spec. Qed.
End whole.

(** ** A concrete socket: pieces of bytes as they arrive, and interruptions *)
Notation arrivals := (list (option (list Z))).
Fixpoint arrive (n : Z) (s : arrivals) : recv_result * arrivals :=
  match s with
  | [] => (Received [], [])
  | None :: s => (RecvError true, s)
  | Some [] :: s => arrive n s
  | Some bytes :: s =>
      if decide (Z.of_nat (length bytes) ≤ n) then (Received bytes, s)
      else (Received (take (Z.to_nat n) bytes), Some (drop (Z.to_nat n) bytes) :: s)
  end.
#[export] Instance arrivals_socket : Socket arrivals := {| recv := arrive |}.
#[export, refine] Instance arrivals_laws : SocketLaws arrivals := {|
  incoming s := concat (default [] <$> s);
  patience s := length (filter (λ o, o = None) s)
|}.
Proof.
  intros n s Hn. simpl. induction s as [|o s IH].
  { eexists _, _. split; [done|]. split; [done|]. split; [simpl; lia|]. split; [done|]. split; [by right|done]. }
  rewrite !filter_cons. destruct o as [[|x bytes]|]; simpl.
  - exact IH.
  - set (bs := x :: bytes). change (S (length bytes)) with (length bs). case_decide as Hd; eexists _, _; (split; [done|]).
    + split_and!; [done|lia|done|]. split; [done|]. intros [->|E]; [simpl in Hd; lia|done].
    + simpl. rewrite filter_cons. simpl. split_and!.
      * rewrite app_assoc, take_drop. done.
      * rewrite length_take. lia.
      * done.
      * split.
        -- intros E. left. destruct (Z.to_nat n) eqn:En; [lia|done].
        -- intros [->|E]; [done|]. done.
  - eexists _, _. split; [done|]. split_and!; [done|done|simpl; lia].
Defined.

Section witnesses.
#[local] Existing Instance toy_block_lib.
#[local] Existing Instance Toy.toy_k2_lib.
#[local] Existing Instance toy_openssl.
#[local] Existing Instance toy_heap.
#[local] Existing Instance frozen_clock.
#[local] Existing Instance toy_protobuf.
#[local] Existing Instance toy_indeterminate.
#[local] Existing Instance toy_trees.

(** Requests of one byte, their type. *)
Definition toy_parser : ProtobufParser := λ bytes,
  match bytes with
  | [1] => mkRequest CONNECTION_END (ConnectionEndRequest true)
  | [15] => mkRequest CACHE_REQUEST_START_UPDATE_TRIPLES CacheRequestStartUpdateTriples
  | _ => mkRequest UNKNOWN RequestNotSet
  end.
#[local] Existing Instance toy_parser.

(** Two requests in pieces, an empty one, and one that is never read. *)
Definition toy_arrivals : arrivals := [Some [0; 0]; None; Some [0; 1; 15; 0; 0; 0]; Some [1; 1; 0; 0; 0; 0; 0; 0; 0; 1; 15]].
Lemma connection_served_witness :
  (m ← serve 5 50 0 0 0 toy_arrivals (mkServerTask false []) toy_server; Ret (option_map snd m)) =
  process 0 0 0 (ParseFromArray <$> [[15]; [1]]) (mkServerTask false []) toy_server.
Proof.
  apply (connection_served toy_arrivals [[15]; [1]] [0; 0; 0; 0; 0; 0; 0; 1; 15]).
  - reflexivity.
  - left. by exists [0; 0; 0; 1; 15].
  - by repeat constructor.
  - simpl. lia.
  - vm_compute. lia.
Defined.
End witnesses.
