(* ===== verification/ServerWorker.v ===== *)
(** * network/server/ServerWorker.cpp: workers and queues of tasks

    The workers of the server, and the one of the replacement tasks, as a transition
    system. A worker holds its own mutex all the time, running its tasks included,
    except while it waits; so a step is one operation of a worker, or one operation of
    another thread on the queue or on a worker. *)
From S2P Require Import Prelude.

Section workers.
Context {T : Type}.

(** ** ServerWorker *)
Inductive worker_pc :=
  | Starting             (* the unique_lock of [main_loop] *)
  | Testing              (* the condition waited for *)
  | Sleeping             (* about to release the mutex and wait *)
  | Blocked
  | Woken                (* notified, acquiring the mutex again *)
  | Ready                (* after the wait *)
  | Working (t : T)
  | Ended.
Record ServerWorker := mkWorker { pc : worker_pc; running : bool; stopped : bool }.
Definition new_ServerWorker : ServerWorker := mkWorker Starting true false.

(** What another thread does to the workers and to their queue: [process_request] and
    [add_task] push a task and notify, [stop] sets the flags and notifies under the mutex
    and joins the thread, [pause] clears a flag. *)
Inductive call := Push (t : T) | Notify (i : nat) | Halt (i : nat) | Join (i : nat) | Pause (i : nat).
Definition process_request (workers_count : nat) (t : T) : list call := Push t :: (Notify <$> seq 0 workers_count).
Definition stop (i : nat) : list call := [Halt i; Join i].
Definition pause (i : nat) : list call := [Pause i].

(** [executed]: the tasks that have run, in the order they ended; [callers]: what each
    of the other threads still does. *)
Record processor := mkProcessor {
  tasks : list T; workers : list ServerWorker; callers : list (list call); executed : list T
}.
Definition start_workers (workers_count : nat) (threads : list (list call)) : processor :=
  mkProcessor [] (replicate workers_count new_ServerWorker) threads [].

Definition set_worker (i : nat) (w : ServerWorker) (s : processor) : processor :=
  mkProcessor (tasks s) (<[i := w]> (workers s)) (callers s) (executed s).
Definition go (w : ServerWorker) (p : worker_pc) : ServerWorker := mkWorker p (running w) (stopped w).
Definition notify (w : ServerWorker) : ServerWorker :=
  match pc w with Blocked => go w Woken | _ => w end.
(** The mutex of a worker is free. *)
Definition unlocked (w : ServerWorker) : bool :=
  match pc w with Starting | Blocked | Woken | Ended => true | _ => false end.

(** [main_loop]. *)
Definition main_loop (i : nat) (w : ServerWorker) (s : processor) : option processor :=
  match pc w with
  | Starting | Woken => Some (set_worker i (go w Testing) s)
  | Testing =>
      Some (set_worker i (go w (if running w && bool_decide (tasks s ≠ []) then Ready else Sleeping)) s)
  | Sleeping => Some (set_worker i (go w Blocked) s)
  | Ready =>
      Some (if stopped w then set_worker i (go w Ended) s
            else match tasks s with
                 | [] => set_worker i (go w Testing) s
                 | t :: ts => set_worker i (go w (Working t)) (mkProcessor ts (workers s) (callers s) (executed s))
                 end)
  | Working t =>
      Some (set_worker i (go w Testing) (mkProcessor (tasks s) (workers s) (callers s) (executed s ++ [t])))
  | Blocked | Ended => None
  end.

Definition call_step (c : call) (s : processor) : option processor :=
  match c with
  | Push t => Some (mkProcessor (tasks s ++ [t]) (workers s) (callers s) (executed s))
  | Notify i => w ← workers s !! i; Some (set_worker i (notify w) s)
  | Halt i => w ← workers s !! i;
      if unlocked w then Some (set_worker i (notify (mkWorker (pc w) true true)) s) else None
  | Join i => w ← workers s !! i; match pc w with Ended => Some s | _ => None end
  | Pause i => w ← workers s !! i;
      if unlocked w then Some (set_worker i (mkWorker (pc w) false (stopped w)) s) else None
  end.
Definition caller_step (j : nat) (s : processor) : option processor :=
  match callers s !! j with
  | Some (c :: cs) =>
      s ← call_step c s; Some (mkProcessor (tasks s) (workers s) (<[j := cs]> (callers s)) (executed s))
  | _ => None
  end.
Definition worker_step (i : nat) (s : processor) : option processor := w ← workers s !! i; main_loop i w s.
(** A worker may also wake up without a notification. *)
Definition spurious_step (i : nat) (s : processor) : option processor :=
  w ← workers s !! i; match pc w with Blocked => Some (set_worker i (go w Woken) s) | _ => None end.

Inductive step : processor → processor → Prop :=
  | step_caller j s s' : caller_step j s = Some s' → step s s'
  | step_worker i s s' : worker_step i s = Some s' → step s s'.
Inductive any_step : processor → processor → Prop :=
  | any_step_step s s' : step s s' → any_step s s'
  | any_step_spurious i s s' : spurious_step i s = Some s' → any_step s s'.

(** ** Every task is somewhere *)

Definition held (w : ServerWorker) : list T := match pc w with Working t => [t] | _ => [] end.
Definition pushed (c : call) : list T := match c with Push t => [t] | _ => [] end.
Definition to_push (threads : list (list call)) : list T := threads ≫= λ cs, cs ≫= pushed.
Definition all_tasks (s : processor) : list T := tasks s ++ (workers s ≫= held) ++ executed s ++ to_push (callers s).

Lemma bind_insert {A B} (f : A → list B) (l : list A) i x y : l !! i = Some x →
  f x ++ (<[i := y]> l ≫= f) ≡ₚ f y ++ (l ≫= f).
Proof.
  intros Hx. rewrite insert_take_drop by (by eapply lookup_lt_Some).
  rewrite <-(take_drop_middle l i x Hx) at 3. rewrite !bind_app, !bind_cons. solve_Permutation.
Qed.
Lemma moved_tasks i w w' a b (ws : list ServerWorker) : ws !! i = Some w → held w = a → held w' = b →
  a ++ (<[i := w']> ws ≫= held) ≡ₚ b ++ (ws ≫= held).
Proof. intros Hw <- <-. by apply bind_insert. Qed.
Lemma held_same i w w' (ws : list ServerWorker) : ws !! i = Some w → held w' = held w →
  <[i := w']> ws ≫= held ≡ₚ ws ≫= held.
Proof. intros Hw E. apply (Permutation_app_inv_l (held w)). by eapply moved_tasks. Qed.
Lemma held_notify w : held (notify w) = held w.
Proof. unfold notify, held. by destruct (pc w) eqn:E; simpl; rewrite ?E. Qed.
Lemma held_pc w p : pc w = p → held w = match p with Working t => [t] | _ => [] end.
Proof. by intros <-. Qed.

Lemma worker_tasks i s s' : worker_step i s = Some s' → all_tasks s' ≡ₚ all_tasks s.
Proof.
  unfold worker_step, main_loop. destruct (workers s !! i) as [w|] eqn:Hw; [|done]. cbn [mbind option_bind].
  assert (Hsame : ∀ p, held (go w p) = held w → all_tasks (set_worker i (go w p) s) ≡ₚ all_tasks s).
  { intros p E. unfold all_tasks. simpl. by rewrite (held_same i w). }
  destruct (pc w) as [| | | | | |t|] eqn:Ep; pose proof (held_pc w _ Ep) as Hh; simpl in Hh; intros [= <-];
    try (apply Hsame; rewrite Hh; unfold go, held; simpl; by repeat case_match).
  - destruct (stopped w); [apply Hsame; by rewrite Hh|].
    destruct (tasks s) as [|t ts] eqn:Et; [apply Hsame; by rewrite Hh|].
    pose proof (moved_tasks i w (go w (Working t)) [] [t] (workers s) Hw Hh eq_refl) as Hb. simpl in Hb.
    unfold all_tasks. simpl. rewrite Hb, Et. solve_Permutation.
  - pose proof (moved_tasks i w (go w Testing) [t] [] (workers s) Hw Hh eq_refl) as Hb. simpl in Hb.
    unfold all_tasks. simpl. rewrite <-Hb. solve_Permutation.
Qed.
Lemma call_tasks c s s' : call_step c s = Some s' →
  all_tasks s' ≡ₚ all_tasks s ++ pushed c ∧ callers s' = callers s.
Proof.
  assert (Hw : ∀ i w w', workers s !! i = Some w → held w' = held w →
    all_tasks (set_worker i w' s) ≡ₚ all_tasks s ++ [] ∧ callers (set_worker i w' s) = callers s).
  { intros i w w' Hw E. split; [|done]. rewrite app_nil_r. unfold all_tasks. simpl. by rewrite (held_same i w). }
  destruct c as [t|i|i|i|i]; simpl.
  - intros [= <-]. split; [|done]. unfold all_tasks. simpl. solve_Permutation.
  - destruct (workers s !! i) as [w|] eqn:E; [|done]. intros [= <-]. eapply Hw; [done|apply held_notify].
  - destruct (workers s !! i) as [w|] eqn:E; [|done]. simpl. destruct (unlocked w); intros [= <-].
    eapply Hw; [done|]. by rewrite held_notify.
  - destruct (workers s !! i) as [w|]; [|done]. simpl. destruct (pc w); intros [= <-]. by rewrite app_nil_r.
  - destruct (workers s !! i) as [w|] eqn:E; [|done]. simpl. destruct (unlocked w); intros [= <-]. by eapply Hw.
Qed.
Lemma caller_tasks j s s' : caller_step j s = Some s' → all_tasks s' ≡ₚ all_tasks s.
Proof.
  unfold caller_step. destruct (callers s !! j) as [[|c cs]|] eqn:Hj; [done| |done].
  destruct (call_step c s) as [s1|] eqn:E; [|done]. intros [= <-]. apply call_tasks in E as [Ht Hc].
  unfold all_tasks in *. simpl. unfold to_push in *. rewrite Hc in *.
  pose proof (bind_insert (λ cs, cs ≫= pushed) (callers s) j (c :: cs) cs Hj) as Hb. cbn beta in Hb. rewrite bind_cons in Hb.
  apply (Permutation_app_inv_l (pushed c ++ (cs ≫= pushed))).
  transitivity ((cs ≫= pushed) ++ (tasks s1 ++ (workers s1 ≫= held) ++ executed s1 ++ (callers s ≫= λ cs, cs ≫= pushed))).
  - rewrite <-!app_assoc in Hb. rewrite <-app_assoc. transitivity (tasks s1 ++ (workers s1 ≫= held) ++ executed s1 ++
      (pushed c ++ (cs ≫= pushed) ++ (<[j:=cs]> (callers s) ≫= λ cs, cs ≫= pushed))); [solve_Permutation|].
    rewrite Hb. solve_Permutation.
  - rewrite Ht. solve_Permutation.
Qed.
Lemma woken_tasks i s s' : spurious_step i s = Some s' → all_tasks s' ≡ₚ all_tasks s.
Proof.
  unfold spurious_step. destruct (workers s !! i) as [w|] eqn:Hw; [|done]. simpl.
  destruct (pc w) eqn:Ep; intros [= <-]. unfold all_tasks. simpl. rewrite (held_same i w); [done..|].
  by rewrite (held_pc w _ Ep).
Qed.

(** However the threads move, no task of the server is lost or run twice: those the
    threads pushed and push are in the queue, running, run, or still to be pushed. *)
Theorem tasks_kept n threads s : rtc any_step (start_workers n threads) s →
  tasks s ++ (workers s ≫= held) ++ executed s ++ to_push (callers s) ≡ₚ to_push threads.
Proof.
  assert (Hs : ∀ s s', any_step s s' → all_tasks s' ≡ₚ all_tasks s).
  { intros s1 s2 [? ? [? ? ? E|? ? ? E]|? ? ? E]; [by eapply caller_tasks|by eapply worker_tasks|by eapply woken_tasks]. }
  assert (Hinit : all_tasks (start_workers n threads) = to_push threads).
  { unfold all_tasks. simpl. by induction n. }
  intros Hr. rewrite <-Hinit. clear Hinit. change (all_tasks s ≡ₚ all_tasks (start_workers n threads)).
  induction Hr as [|s1 s2 s3 H1 _ IH]; [done|]. by rewrite IH, (Hs _ _ H1).
Qed.

(** ** What may never happen *)

(** A run of the threads: [inl] for another thread, [inr] for a worker. *)
Definition actor_step (a : nat + nat) (s : processor) : option processor :=
  match a with inl j => caller_step j s | inr i => worker_step i s end.
Fixpoint run (actors : list (nat + nat)) (s : processor) : option processor :=
  match actors with [] => Some s | a :: actors => s ← actor_step a s; run actors s end.
Lemma run_steps actors s s' : run actors s = Some s' → rtc any_step s s'.
Proof.
  revert s. induction actors as [|a actors IH]; intros s; cbn [run]; [by intros [= ->]|].
  destruct (actor_step a s) as [s1|] eqn:E; [|done]. simpl. intros Hr. eapply rtc_l; [|by apply IH].
  destruct a as [j|i]; apply any_step_step; [by eapply step_caller|by eapply step_worker].
Qed.

(** C38: The notification of a new task can be lost, since it is given without the mutex: a
    worker that has seen an empty queue and does not wait yet misses it. The task is
    then in the queue, everything waits, and no thread moves. *)
Theorem notification_lost t : ∃ s,
  rtc any_step (start_workers 1 [process_request 1 t]) s ∧ tasks s = [t] ∧ callers s = [[]] ∧ ∀ s', ¬ step s s'.
Proof.
  exists (mkProcessor [t] [mkWorker Blocked true false] [[]] []). split; [|split; [done|split; [done|]]].
  - by apply (run_steps [inr 0%nat; inr 0%nat; inl 0%nat; inl 0%nat; inr 0%nat]).
  - intros s' Hs. inversion Hs as [j ? ? E|i ? ? E]; subst.
    + destruct j as [|[|j]]; done.
    + destruct i as [|[|i]]; done.
Qed.

(** One worker, before it is stopped, and when it has nothing left to run. *)
Definition serving (s : processor) : Prop :=
  (∃ w cs, workers s = [w] ∧ stopped w = false ∧ pc w ≠ Ended ∧ (pc w = Ready → tasks s ≠ []) ∧
     callers s = [cs ++ stop 0] ∧ Forall (λ c, match c with Push _ | Notify _ => True | _ => False end) cs) ∨
  callers s = [[Join 0]] ∨ callers s = [[]].
Definition idle (s : processor) : Prop :=
  ∃ w, workers s = [w] ∧ tasks s = [] ∧ pc w ≠ Ready ∧ pc w ≠ Ended ∧ (callers s = [stop 0] ∨ callers s = [[Join 0]]).

Lemma one_worker (P : nat → ServerWorker → Prop) (w : ServerWorker) : P 0%nat w → ∀ i w', [w] !! i = Some w' → P i w'.
Proof. intros HP [|i] w' E; [by injection E as <-|done]. Qed.
Lemma serving_step s s' : serving s → any_step s s' → serving s'.
Proof.
  intros Hs Hstep. destruct Hs as [(w & cs & Hw & Hst & Hne & Hrd & Hc & Hcs)|Hc].
  - destruct Hstep as [s s' [j s0 s1 E|i s0 s1 E]|i s s' E].
    + unfold caller_step in E. rewrite Hc in E. destruct j as [|j]; [|done]. cbn [lookup list_lookup] in E.
      destruct Hcs as [|c cs Hc1 Hcs]; cbn [app stop] in E.
      * destruct (call_step (Halt 0) s0) as [s2|] eqn:E2; [|done]. injection E as <-. right. left. simpl.
        apply call_tasks in E2 as [_ ->]. by rewrite Hc.
      * destruct (call_step c s0) as [s2|] eqn:E2; [|done]. injection E as <-. left.
        pose proof (call_tasks _ _ _ E2) as [_ Hc2]. destruct c as [t|i|?|?|?]; try done; simpl in E2.
        -- injection E2 as <-. exists w, cs. simpl. rewrite Hc. split_and!; try done. intros _. by destruct (tasks s0).
        -- rewrite Hw in E2. destruct i as [|i]; [|done]. simpl in E2. injection E2 as <-. exists (notify w), cs.
           simpl. rewrite Hw, Hc. unfold notify.
           destruct (pc w) eqn:Ep; simpl; rewrite ?Ep; by split_and!.
    + unfold worker_step in E. rewrite Hw in E. destruct i as [|i]; [|done]. simpl in E. left.
      assert (Hgo : ∀ p ts e, p ≠ Ended → (p = Ready → ts ≠ []) →
        ∃ w0 cs0, workers (set_worker 0 (go w p) (mkProcessor ts (workers s0) (callers s0) e)) = [w0] ∧ stopped w0 = false ∧
          pc w0 ≠ Ended ∧ (pc w0 = Ready → ts ≠ []) ∧ callers s0 = [cs0 ++ stop 0] ∧
          Forall (λ c, match c with Push _ | Notify _ => True | _ => False end) cs0).
      { intros p ts e Hp Hr. exists (go w p), cs. simpl. rewrite Hw. by split_and!. }
      unfold main_loop in E. rewrite Hst in E. destruct (pc w) eqn:Ep; try done.
      * injection E as <-. by apply (Hgo Testing (tasks s0) (executed s0)).
      * injection E as <-. case_bool_decide as Hb; [|rewrite andb_false_r; by apply (Hgo Sleeping (tasks s0) (executed s0))].
        destruct (running w); [by apply (Hgo Ready (tasks s0) (executed s0))|by apply (Hgo Sleeping (tasks s0) (executed s0))].
      * injection E as <-. by apply (Hgo Blocked (tasks s0) (executed s0)).
      * injection E as <-. by apply (Hgo Testing (tasks s0) (executed s0)).
      * destruct (tasks s0) as [|t ts] eqn:Et; [by destruct (Hrd eq_refl)|]. injection E as <-.
        by apply (Hgo (Working t) ts (executed s0)).
      * injection E as <-. by apply (Hgo Testing (tasks s0) (executed s0 ++ [t])).
    + unfold spurious_step in E. rewrite Hw in E. destruct i as [|i]; [|done]. simpl in E.
      destruct (pc w) eqn:Ep; try done. injection E as <-. left. exists (go w Woken), cs. simpl. rewrite Hw. by split_and!.
  - right. destruct Hstep as [s s' [j s0 s1 E|i s0 s1 E]|i s s' E].
    + unfold caller_step in E. destruct Hc as [Hc|Hc]; rewrite Hc in E; destruct j as [|j]; try done. cbn [lookup list_lookup] in E.
      destruct (call_step (Join 0) s0) as [s2|] eqn:E2; [|done]. injection E as <-. right. simpl.
      apply call_tasks in E2 as [_ ->]. by rewrite Hc.
    + assert (callers s1 = callers s0) as ->; [|done]. revert E. unfold worker_step, main_loop.
      destruct (workers s0 !! i) as [w|]; [|done]. simpl. destruct (pc w); intros [= <-]; try done. by repeat case_match.
    + assert (callers s' = callers s) as ->; [|done]. revert E. unfold spurious_step.
      destruct (workers s !! i) as [w|]; [|done]. simpl. by destruct (pc w); intros [= <-].
Qed.
Lemma idle_step s s' : idle s → any_step s s' → idle s'.
Proof.
  intros (w & Hw & Ht & Hr & He & Hc) Hstep. destruct Hstep as [s s' [j s0 s1 E|i s0 s1 E]|i s s' E].
  - unfold caller_step in E. destruct Hc as [Hc|Hc]; rewrite Hc in E; destruct j as [|j]; try done; simpl in E;
      rewrite Hw in E; simpl in E.
    + destruct (unlocked w); [|done]. injection E as <-. exists (notify (mkWorker (pc w) true true)). simpl. rewrite Hw, Hc.
      unfold notify. simpl. destruct (pc w) eqn:Ep; simpl; split_and!; try done; by right.
    + by destruct (pc w).
  - unfold worker_step in E. rewrite Hw in E. destruct i as [|i]; [|done]. simpl in E.
    assert (Hgo : ∀ p e, p ≠ Ready → p ≠ Ended →
      idle (set_worker 0 (go w p) (mkProcessor (tasks s0) (workers s0) (callers s0) e))).
    { intros p e Hp1 Hp2. exists (go w p). simpl. rewrite Hw. by split_and!. }
    unfold main_loop in E. destruct (pc w) eqn:Ep; try done; injection E as <-.
    + by apply (Hgo Testing (executed s0)).
    + rewrite bool_decide_false, andb_false_r by (intros ?; done). by apply (Hgo Sleeping (executed s0)).
    + by apply (Hgo Blocked (executed s0)).
    + by apply (Hgo Testing (executed s0)).
    + by apply (Hgo Testing (executed s0 ++ [t])).
  - unfold spurious_step in E. rewrite Hw in E. destruct i as [|i]; [|done]. simpl in E.
    destruct (pc w) eqn:Ep; try done. injection E as <-. exists (go w Woken). simpl. rewrite Hw. by split_and!.
Qed.

(** C39: Stopping a worker that has run all its tasks never returns: the thread waits for the
    queue to hold a task again before it looks whether it is stopped, and [stop] waits
    for the thread. *)
Theorem stop_never_returns ts s s' :
  rtc any_step (start_workers 1 [(ts ≫= process_request 1) ++ stop 0]) s →
  callers s = [stop 0] → tasks s = [] → rtc any_step s s' → callers s' ≠ [[]].
Proof.
  intros Hr Hc Ht Hs'. assert (Hserve : serving s).
  { assert (Hinit : serving (start_workers 1 [(ts ≫= process_request 1) ++ stop 0])).
    { left. exists new_ServerWorker, (ts ≫= process_request 1). split_and!; try done. clear.
      induction ts as [|t ts IH]; [done|]. by repeat constructor. }
    clear Hc Ht Hs'. induction Hr as [|s1 s2 s3 H1 _ IH]; [done|]. apply IH. by eapply serving_step. }
  assert (Hidle : idle s).
  { destruct Hserve as [(w & cs & Hw & _ & He & Hrd & _)|[E|E]]; [|by rewrite E in Hc..].
    exists w. split_and!; try done; [|by left]. intros E. by apply Hrd. }
  clear Hr Hc Ht Hserve. induction Hs' as [s|s1 s2 s3 H1 _ IH]; [|apply IH; by eapply idle_step].
  destruct Hidle as (_ & _ & _ & _ & _ & [E|E]); by rewrite E.
Qed.
End workers.

(** ** Instances of the theorems *)
Lemma tasks_kept_witness :
  let s := mkProcessor [8] [mkWorker (Working 7) true false] [[]] [] in
  tasks s ++ (workers s ≫= held) ++ executed s ++ to_push (callers s) ≡ₚ [7; 8].
Proof.
  apply (tasks_kept 1 [process_request 1 7 ++ process_request 1 8]).
  by apply (run_steps ([inl 0; inl 0; inr 0; inr 0; inr 0; inl 0; inl 0]%nat)).
Defined.
(** The worker is told to stop, wakes up and waits again. *)
Lemma stop_never_returns_witness :
  let s' := mkProcessor [] [mkWorker Blocked true true] [[Join 0]] [7] in
  rtc any_step (mkProcessor [] [mkWorker Blocked true false] [stop 0] [7]) s' ∧ callers s' ≠ [[]].
Proof.
  intros s'. assert (Hs' : rtc any_step (mkProcessor [] [mkWorker Blocked true false] [stop 0] [7]) s').
  { by apply (run_steps ([inl 0; inr 0; inr 0; inr 0]%nat)). }
  split; [exact Hs'|].
  apply (stop_never_returns [7] (mkProcessor [] [mkWorker Blocked true false] [stop 0] [7])); [|done|done|exact Hs'].
  by apply (run_steps ([inl 0; inl 0; inr 0; inr 0; inr 0; inr 0; inr 0; inr 0]%nat)).
Defined.
