(* ===== verification/SearchPaths.v ===== *)
(** * core/algorithms: paths in the graph of the triples

    [find_n_paths] enumerates the paths of a given number of edges in the graph whose
    edges are the triples of the predicates of the index, in depth-first order, until
    it has as many as it was asked for. The search is a recursion on the edges left
    inside two loops, over the points of a band and over the predicates; [adds] is the
    contract that composes along all of them. *)
From S2P Require Import Prelude Streams Memory Blocks K2Tree Scanners Fetcher Hashing.
From S2P Require Import UpdatesLog PredicatesIndex.

Local Open Scope Z_scope.

#[export] Instance RDFTriple_countable : Countable RDFTriple.
Proof.
  refine (inj_countable' (λ t, (subject t, predicate t, object t)) (λ x, mkTriple x.1.1 x.1.2 x.2) _).
  by intros [].
Defined.

(** The first item with a given key. *)
Lemma first_of {A B} (f : A → B) `{EqDecision B} l k : k ∈ f <$> l →
  ∃ d x r, l = d ++ x :: r ∧ f x = k ∧ k ∉ f <$> d.
Proof.
  intros (d & r & E & Hn)%list_elem_of_split_l.
  apply fmap_app_inv in E as (d' & r' & -> & E & ->).
  destruct r' as [|x r']; [done|]. injection E as -> ->. by exists d', x, r'.
Qed.
Lemma first_unique {A B} (f : A → B) d1 x1 r1 d2 x2 r2 : d1 ++ x1 :: r1 = d2 ++ x2 :: r2 →
  f x1 = f x2 → f x1 ∉ f <$> d1 → f x2 ∉ f <$> d2 → length d1 = length d2.
Proof.
  revert d2. induction d1 as [|z d1 IH]; intros [|z2 d2]; simpl; [done|..]; intros [= -> E] Hf H1 H2.
  - set_solver.
  - set_solver.
  - f_equal. apply IH; set_solver.
Qed.

(** ** core/algorithms/DirectedPath.cpp *)

Record DirectedPath := mkPath { edges : list RDFTriple }.
#[export] Instance DirectedPath_eq_dec : EqDecision DirectedPath.
Proof. solve_decision. Defined.

(** [operator==], without its test that both are the same object. *)
Definition path_eqb (x other : DirectedPath) : bool :=
  bool_decide (length (edges other) = length (edges x)) &&
  forallb (λ e, triple_eqb e.1 e.2) (zip (edges x) (edges other)).

(** [operator<]: the loop over the common length, and the comparison of the sizes. *)
Fixpoint edges_ltb (x other : list RDFTriple) : bool :=
  match x, other with
  | lhs :: x, rhs :: other => if triple_eqb lhs rhs then edges_ltb x other else triple_ltb lhs rhs
  | [], _ :: _ => true
  | _, [] => false
  end.
Definition path_ltb (x other : DirectedPath) : bool := edges_ltb (edges x) (edges other).

(** [hash]: a shift by 64 or more is undefined. *)
Fixpoint path_hash_from (result cnt : Z) (l : list RDFTriple) : outcome Z :=
  match l with
  | [] => Ret result
  | v :: l =>
      let cnt := cnt + 1 in
      if decide (cnt < 64)
      then path_hash_from (Z.lxor result (u64 (get_hash v * u64 (Z.shiftl 31 cnt)))) cnt l
      else UB
  end.
Definition path_hash (x : DirectedPath) : outcome Z := path_hash_from 0 0 (edges x).

(** The order of the edges, carried to lists. *)
Lemma triple_eqb_spec x y : triple_eqb x y = true ↔ x = y.
Proof.
  unfold triple_eqb. rewrite !andb_true_iff, !bool_decide_eq_true.
  destruct x, y. simpl. split; [intros [[-> ->] ->]; done|by intros [= -> -> ->]].
Qed.
Lemma triple_ltb_trans x y z : triple_ltb x y = true → triple_ltb y z = true → triple_ltb x z = true.
Proof. rewrite !triple_ltb_spec. lia. Qed.
Lemma triple_ltb_total x y : triple_ltb x y = true ∨ x = y ∨ triple_ltb y x = true.
Proof.
  rewrite !triple_ltb_spec. destruct x as [s p o], y as [s' p' o']. simpl.
  destruct (decide (s = s' ∧ p = p' ∧ o = o')) as [(-> & -> & ->)|]; [by right; left|]. lia.
Qed.
Lemma triple_ltb_irrefl x : triple_ltb x x = false.
Proof. apply not_true_iff_false. rewrite triple_ltb_spec. lia. Qed.
Lemma path_eqb_spec x y : path_eqb x y = true ↔ x = y.
Proof.
  destruct x as [l], y as [k]. unfold path_eqb. simpl. rewrite andb_true_iff, bool_decide_eq_true.
  split; [|intros [= ->]; split; [done|induction k; simpl; [done|]; apply andb_true_iff; by rewrite triple_eqb_spec]].
  intros [Hl He]. f_equal. revert k Hl He.
  induction l as [|a l IH]; intros [|b k]; simpl; try done. intros [= Hl] [->%triple_eqb_spec He]%andb_true_iff.
  f_equal. by apply IH.
Qed.
Lemma edges_ltb_cons a b x y :
  edges_ltb (a :: x) (b :: y) = true ↔ triple_ltb a b = true ∨ (a = b ∧ edges_ltb x y = true).
Proof.
  simpl. destruct (triple_eqb a b) eqn:E.
  - apply triple_eqb_spec in E as ->. rewrite triple_ltb_irrefl. naive_solver.
  - assert (a ≠ b) by (intros Hab%triple_eqb_spec; congruence). naive_solver.
Qed.
Lemma edges_ltb_irrefl x : edges_ltb x x = false.
Proof.
  induction x as [|a x IH]; [done|]. apply not_true_iff_false.
  rewrite edges_ltb_cons, triple_ltb_irrefl, IH. naive_solver.
Qed.
Lemma edges_ltb_trans x y z : edges_ltb x y = true → edges_ltb y z = true → edges_ltb x z = true.
Proof.
  revert y z. induction x as [|a x IH]; intros [|b y] [|c z]; try done. rewrite !edges_ltb_cons.
  intros [H1|[-> H1]] [H2|[-> H2]]; eauto using triple_ltb_trans.
Qed.
Lemma edges_ltb_total x y : edges_ltb x y = true ∨ x = y ∨ edges_ltb y x = true.
Proof.
  revert y. induction x as [|a x IH]; intros [|b y]; [by right; left|by left|by right; right|].
  rewrite !edges_ltb_cons. destruct (triple_ltb_total a b) as [|[->|]]; [tauto| |tauto].
  destruct (IH y) as [|[->|]]; tauto.
Qed.

(** The hash shifts by the position of each edge: it is defined for fewer than 64. *)
Lemma path_hash_long x : (64 ≤ length (edges x))%nat ↔ path_hash x = UB.
Proof.
  unfold path_hash. assert (Hg : ∀ l r (c : nat), (c ≤ 63)%nat →
    path_hash_from r (Z.of_nat c) l = UB ↔ (64 ≤ c + length l)%nat).
  { induction l as [|v l IH]; intros r c Hc; simpl; [split; [done|lia]|]. case_decide.
    - replace (Z.of_nat c + 1) with (Z.of_nat (S c)) by lia. rewrite IH by lia. lia.
    - split; [lia|done]. }
  by rewrite (Hg (edges x) 0 0%nat) by lia.
Qed.

(** ** Loops that a [return] or a [break] ends

    [for_until body acc l] runs [body] on the items of [l]; the body says whether to
    leave the loop. [None]: out of fuel. *)
Fixpoint for_until {A B} (body : A → B → outcome (option (bool * A))) (acc : A) (l : list B)
    : outcome (option A) :=
  match l with
  | [] => Ret (Some acc)
  | x :: l =>
      r ← body acc x;
      match r with
      | None => Ret None
      | Some (true, acc) => Ret (Some acc)
      | Some (false, acc) => for_until body acc l
      end
  end.
Fixpoint scan_until `{Scanner T} {A} (fuel : nat) (body : A → Z * Z → outcome (option (bool * A)))
    (acc : A) (s : T) : outcome (option A) :=
  match fuel with
  | O => Ret None
  | S fuel =>
      '(b, s) ← sc_has_next s;
      if (b : bool) then
        '(p, s) ← sc_next s;
        r ← body acc p;
        match r with
        | None => Ret None
        | Some (true, acc) => Ret (Some acc)
        | Some (false, acc) => scan_until fuel body acc s
        end
      else Ret (Some acc)
  end.

Lemma scan_until_delivers `{Scanner T} {A} (body : A → Z * Z → outcome (option (bool * A))) acc s l fuel :
  delivers s l → (length l < fuel)%nat → scan_until fuel body acc s = for_until body acc l.
Proof.
  intros Hd. revert acc fuel.
  induction Hd as [s s' Hn|s s1 s2 p l Hn Hx Hd IH]; intros acc fuel Hf;
    (destruct fuel as [|fuel]; [simpl in Hf; lia|]); simpl; rewrite Hn; simpl; [done|].
  rewrite Hx. simpl. destruct (body acc p) as [[[[] ?]|]| |]; simpl; try done.
  apply IH. simpl in Hf. lia.
Qed.

(** ** core/algorithms/search_paths.cpp *)

(** What the search changes: the paths found, the edges of the current path, and the
    store, in which a fetch may load a tree. *)
Record Search (F : Type) := mkSearch {
  paths : list DirectedPath;
  visited_edges : gset RDFTriple;
  store : F
}.
Arguments mkSearch {F}. Arguments paths {F}. Arguments visited_edges {F}. Arguments store {F}.

Section search.
Context `{Lib : K2Lib} {F : Type} `{Fetch : !K2TreeFetcher F}.

Definition add_path (current_path : list RDFTriple) (σ : Search F) : Search F :=
  mkSearch (paths σ ++ [mkPath current_path]) (visited_edges σ) (store σ).
Definition set_visited (v : gset RDFTriple) (σ : Search F) : Search F := mkSearch (paths σ) v (store σ).
Definition set_store (f : F) (σ : Search F) : Search F := mkSearch (paths σ) (visited_edges σ) f.

(** The comparison of [std::sort]: decreasing order by number of points. *)
Definition by_decreasing_size (l_predicate r_predicate : Z) (f : F) : outcome (bool * F) :=
  '(lfetched, f) ← fetch_k2tree l_predicate f;
  if negb (exists_tree lfetched) then Throw RuntimeError
  else if negb (loaded lfetched) then Throw RuntimeError
  else
    '(rfetched, f) ← fetch_k2tree r_predicate f;
    if negb (exists_tree rfetched) then Throw RuntimeError
    else if negb (loaded rfetched) then Throw RuntimeError
    else
      l ← fetch_get lfetched; r ← fetch_get rfetched;
      Ret (bool_decide (size r < size l), f).

(** [std::sort], as an insertion sort: which order the ids of equally large trees get
    is not specified. *)
Fixpoint sort_insert (p : Z) (l : list Z) (f : F) : outcome (list Z * F) :=
  match l with
  | [] => Ret ([p], f)
  | q :: l =>
      '(less, f) ← by_decreasing_size p q f;
      if (less : bool) then Ret (p :: q :: l, f)
      else '(l, f) ← sort_insert p l f; Ret (q :: l, f)
  end.
Fixpoint sort_ids (l : list Z) (f : F) : outcome (list Z * F) :=
  match l with
  | [] => Ret ([], f)
  | p :: l => '(l, f) ← sort_ids l f; sort_insert p l f
  end.

Definition enough (max_paths : Z) (σ : Search F) : bool :=
  bool_decide (max_paths ≤ s32 (Z.of_nat (length (paths σ)))).

(** The body of [while (bscanner->has_next())]; [rec] is the recursive call on a path,
    a subject, the state, a tree, its predicate and the edges so far. The copy of
    [current_path] is the function's own. *)
Definition visit_edge
    (rec : list RDFTriple → Z → Search F → K2TreeMixed → Z → Z → outcome (option (Search F)))
    (sp_subject current_predicate curr_path_size max_path_size max_paths : Z) (sorted_predicates : list Z)
    (acc : list RDFTriple * Search F) (point : Z * Z)
    : outcome (option (bool * (list RDFTriple * Search F))) :=
  let '(current_path, σ) := acc in
  let '(subj2, obj2) := point in
  if decide (sp_subject ≠ subj2) then UB else
  let triple := mkTriple sp_subject current_predicate obj2 in
  if decide (triple ∈ visited_edges σ) then Ret (Some (false, (current_path, σ)))
  else if decide (curr_path_size = max_path_size - 1) then
    current_path ← arr_set current_path (Z.to_nat curr_path_size) triple;
    let σ := add_path current_path σ in
    Ret (Some (enough max_paths σ, (current_path, σ)))
  else
    let σ := set_visited ({[ triple ]} ∪ visited_edges σ) σ in
    current_path ← arr_set current_path (Z.to_nat curr_path_size) triple;
    r ← for_until (λ σ pred_value,
          '(pred_fetch_result, f) ← fetch_k2tree pred_value (store σ);
          tree_selected ← fetch_get pred_fetch_result;
          m ← rec current_path obj2 (set_store f σ) tree_selected pred_value (curr_path_size + 1);
          Ret (option_map (λ σ, (false, σ)) m)) σ sorted_predicates;
    Ret (option_map (λ σ, (false, (current_path, set_visited (visited_edges σ ∖ {[ triple ]}) σ))) r).

(** [first_subject] is passed along and never used. *)
Fixpoint find_paths_subj_origin (fuel : nat) (max_path_size max_paths : Z) (sorted_predicates : list Z)
    (current_path : list RDFTriple) (sp_subject : Z) (σ : Search F) (current_k2tree : K2TreeMixed)
    (current_predicate curr_path_size : Z) : outcome (option (Search F)) :=
  match fuel with
  | O => Ret None
  | S fuel =>
      if enough max_paths σ then Ret (Some σ)
      else
        r ← scan_until fuel
              (visit_edge (find_paths_subj_origin fuel max_path_size max_paths sorted_predicates)
                 sp_subject current_predicate curr_path_size max_path_size max_paths sorted_predicates)
              (current_path, σ) (create_band_scanner sp_subject COLUMN_BAND_TYPE current_k2tree);
        Ret (option_map snd r)
  end.

(** The body of the loop over the points of a predicate: each subject starts once.
    [std::vector<RDFTriple> current_path(n)] refuses a negative size. *)
Definition start_path (fuel : nat) (n max_number : Z) (sorted_predicate_ids : list Z) (p : Z)
    (k2tree : K2TreeMixed) (acc : gset Z * Search F) (point : Z * Z)
    : outcome (option (bool * (gset Z * Search F))) :=
  let '(subjects, σ) := acc in
  let '(subj, obj) := point in
  if decide (subj ∈ subjects) then Ret (Some (false, (subjects, σ)))
  else if decide (n < 0) then Throw StdLengthError
  else
    let current_path := replicate (Z.to_nat n) (mkTriple 0 0 0) in
    m ← find_paths_subj_origin fuel n max_number sorted_predicate_ids current_path subj σ k2tree p 0;
    Ret (option_map (λ σ, (enough max_number σ, ({[ subj ]} ∪ subjects, σ))) m).

(** The body of the loop over the predicates; a failed assertion aborts, which is not
    told from undefined behaviour. *)
Definition start_predicate (fuel : nat) (n max_number : Z) (sorted_predicate_ids : list Z)
    (σ : Search F) (p : Z) : outcome (option (bool * Search F)) :=
  '(fetched, f) ← fetch_k2tree p (store σ);
  k2tree ← fetch_get fetched;
  r ← scan_until fuel (start_path fuel n max_number sorted_predicate_ids p k2tree)
        (∅, set_visited ∅ (set_store f σ)) (create_full_scanner k2tree);
  Ret (option_map (λ r, (false, r.2)) r).

Definition search_ids (fuel : nat) (n max_number : Z) (predicate_ids : list Z) (f : F)
    : outcome (option (list DirectedPath * F)) :=
  '(sorted_predicate_ids, f) ← sort_ids predicate_ids f;
  r ← for_until (start_predicate fuel n max_number sorted_predicate_ids) (mkSearch [] ∅ f)
        sorted_predicate_ids;
  Ret (option_map (λ σ, (paths σ, store σ)) r).
End search.

Section index.
Context `{Hp : Heap, Blk : BlockLib, Lib : K2Lib, Ssl : OpenSSL} {H : Type} `{UH : !UpdatesLogHost H}.

(** [find_n_paths], on the index of the manager it is given. *)
Definition find_n_paths (fuel : nat) (n max_number : Z) (h : H)
    : outcome (option (list DirectedPath * H)) :=
  search_ids fuel n max_number (get_predicates_ids (index_of h)) h.
End index.

(** ** The paths of a graph

    The edges are the triples of the predicates [ids], whose points are [Pt]. *)
Section graph.
Variables (Pt : Z → option (gset (Z * Z))) (ids : list Z).

Definition edge (t : RDFTriple) : Prop :=
  predicate t ∈ ids ∧ ∃ P, Pt (predicate t) = Some P ∧ (subject t, object t) ∈ P.

(** Consecutive edges from [s]. *)
Fixpoint walk (s : Z) (l : list RDFTriple) : Prop :=
  match l with [] => True | t :: l => edge t ∧ subject t = s ∧ walk (object t) l end.

(** A path of [n] edges, none of them twice. *)
Definition is_path (n : nat) (x : DirectedPath) : Prop :=
  length (edges x) = n ∧ NoDup (edges x) ∧ ∃ s, walk s (edges x).

(** The paths that a call of the search is to find: they go on from [pre] with [k] more
    edges, the first of them from [s] and of predicate [p]. *)
Definition path_with (pre : list RDFTriple) (t : RDFTriple) (k : nat) (x : DirectedPath) : Prop :=
  ∃ l, edges x = pre ++ t :: l ∧ length l = k ∧ walk (subject t) (t :: l) ∧ NoDup (pre ++ t :: l).
Definition extends_path (pre : list RDFTriple) (s p : Z) (k : nat) (x : DirectedPath) : Prop :=
  ∃ t, subject t = s ∧ predicate t = p ∧ path_with pre t k x.

Lemma path_with_inj pre t t' k x : path_with pre t k x → path_with pre t' k x → t = t'.
Proof. intros (l & E & _) (l' & E' & _). rewrite E in E'. by simplify_list_eq. Qed.
Lemma extends_path_inj pre s p s' p' k x :
  extends_path pre s p k x → extends_path pre s' p' k x → s = s' ∧ p = p'.
Proof.
  intros (t & <- & <- & Ht) (t' & <- & <- & Ht'). by rewrite (path_with_inj _ _ _ _ _ Ht Ht').
Qed.

(** One edge more: the last one of a path, or one that leads on to the others. *)
Lemma path_with_last pre t x : edge t → NoDup pre → t ∉ pre →
  path_with pre t 0 x ↔ x = mkPath (pre ++ [t]).
Proof.
  intros Ht Hnd Hn. split.
  - intros ([|] & E & El & _); [|done]. destruct x. by f_equal.
  - intros ->. exists []. do 2 (split; [done|]). split; [done|]. apply NoDup_app.
    split_and!; [done| |apply NoDup_singleton]. by intros y Hy ->%list_elem_of_singleton.
Qed.
Lemma path_with_next pre t k x : edge t →
  path_with pre t (S k) x ↔ ∃ q, q ∈ ids ∧ extends_path (pre ++ [t]) (object t) q k x.
Proof.
  intros Ht. split.
  - intros ([|t' l] & E & El & (_ & _ & Hw) & Hnd); [done|]. simpl in Hw.
    destruct Hw as (He & Hs & Hw). exists (predicate t'). split; [apply He|]. exists t'.
    do 2 (split; [done|]). exists l. rewrite <-app_assoc. simpl in *. split_and!; [done|lia|done..].
  - intros (q & _ & t' & Hs & _ & l & E & El & Hw & Hnd). rewrite <-app_assoc in *. simpl in *.
    destruct Hw as (He & _ & Hw). exists (t' :: l). simpl. split_and!; try done. lia.
Qed.
Lemma path_with_visited pre t k x : path_with pre t k x → t ∉ pre.
Proof.
  intros (l & _ & _ & _ & (_ & Hd & _)%NoDup_app) Hin. apply (Hd _ Hin). by left.
Qed.
Lemma path_with_edge pre t k x : path_with pre t k x → edge t.
Proof. by intros (l & _ & _ & (He & _) & _). Qed.
Lemma is_path_extends n x : is_path (S n) x ↔ ∃ p s, p ∈ ids ∧ extends_path [] s p n x.
Proof.
  split.
  - intros (El & Hnd & s & Hw). destruct x as [[|t l]]; [done|]. simpl in *.
    exists (predicate t), (subject t). split; [apply Hw|]. exists t. do 2 (split; [done|]).
    exists l. simpl. split_and!; [done|lia|apply Hw|done|apply Hw|done].
  - intros (p & s & Hp & t & _ & _ & l & E & El & Hw & Hnd). unfold is_path. rewrite E.
    split_and!; [simpl; lia|done|by exists (subject t)].
Qed.
End graph.

(** ** What the search adds *)
Section adds.
Context {F : Type}.
Variable max_paths : Z.

(** From [σ] to [σ'], the search has found new paths, each once and all as [T] says; it
    has found all of those unless it has as many paths as it was asked for. *)
Definition adds (T : DirectedPath → Prop) (σ σ' : Search F) : Prop :=
  ∃ new, paths σ' = paths σ ++ new ∧ NoDup new ∧ (∀ x, x ∈ new → T x) ∧
    (Z.of_nat (length (paths σ')) < max_paths → ∀ x, T x → x ∈ new).

Lemma adds_iff T T' σ σ' : (∀ x, T x ↔ T' x) → adds T σ σ' → adds T' σ σ'.
Proof. intros HT (new & E & Hnd & Hin & Hall). exists new. naive_solver. Qed.
Lemma adds_nothing (T : DirectedPath → Prop) σ : (∀ x, ¬ T x) → adds T σ σ.
Proof. intros HT. exists []. rewrite app_nil_r. split_and!; [done|constructor|set_solver|naive_solver]. Qed.
Lemma adds_full T σ : max_paths ≤ Z.of_nat (length (paths σ)) → adds T σ σ.
Proof.
  intros Hf. exists []. rewrite app_nil_r. split_and!; [done|constructor|set_solver|]. lia.
Qed.
Lemma adds_mono T σ σ' : adds T σ σ' → (length (paths σ) ≤ length (paths σ'))%nat.
Proof. intros (new & -> & _). rewrite length_app. lia. Qed.
Lemma adds_trans T1 T2 σ1 σ2 σ3 : (∀ x, T1 x → T2 x → False) →
  adds T1 σ1 σ2 → adds T2 σ2 σ3 → adds (λ x, T1 x ∨ T2 x) σ1 σ3.
Proof.
  intros Hd H1 H2. pose proof (adds_mono _ _ _ H2) as Hle.
  destruct H1 as (n1 & E1 & Hn1 & Hi1 & Ha1), H2 as (n2 & E2 & Hn2 & Hi2 & Ha2).
  exists (n1 ++ n2). split_and!.
  - by rewrite E2, E1, app_assoc.
  - apply NoDup_app. split_and!; [done| |done]. intros x Hx1 Hx2. eapply Hd; eauto.
  - intros x [Hx|Hx]%elem_of_app; eauto.
  - intros Hlt x [Hx|Hx]; apply elem_of_app; [left; apply Ha1; [lia|done]|right; by apply Ha2].
Qed.
(** Only the paths matter. *)
Lemma adds_same T σ σ' τ τ' : paths τ = paths σ → paths τ' = paths σ' → adds T σ σ' → adds T τ τ'.
Proof. unfold adds. by intros -> ->. Qed.

Context `{Lib : K2Lib} `{!K2LibLaws} `{Fetch : !K2TreeFetcher F} `{FL : !K2TreeFetcherLaws F}.
Variables (Pt : Z → option (gset (Z * Z))) (qw : K2QStateWrapper).

Definition store_ok (f : F) : Prop :=
  fetcher_ok f ∧ (∀ q, points_of f q = Pt q) ∧ fetcher_qw f = qw.
Record search_ok (v : gset RDFTriple) (σ : Search F) : Prop := {
  so_store : store_ok (store σ);
  so_visited : visited_edges σ = v;
  so_found : Z.of_nat (length (paths σ)) ≤ max_paths
}.

(** The loops: item [x], reached after the items [d], adds [T d x]. *)
Lemma for_until_adds {A B} (body : A → B → outcome (option (bool * A))) (proj : A → Search F)
    v (l : list B) (J : list B → A → Prop) (T : list B → B → DirectedPath → Prop) a :
  (∀ d x r a, l = d ++ x :: r → J d a → search_ok v (proj a) →
    ∃ stop a', body a x = Ret (Some (stop, a')) ∧ search_ok v (proj a') ∧
      adds (T d x) (proj a) (proj a') ∧
      if stop : bool then max_paths ≤ Z.of_nat (length (paths (proj a'))) else J (d ++ [x]) a') →
  (∀ d1 x1 r1 d2 x2 r2 y, l = d1 ++ x1 :: r1 → l = d2 ++ x2 :: r2 →
    T d1 x1 y → T d2 x2 y → length d1 = length d2) →
  J [] a → search_ok v (proj a) →
  ∃ a', for_until body a l = Ret (Some a') ∧ search_ok v (proj a') ∧
    adds (λ y, ∃ d x r, l = d ++ x :: r ∧ T d x y) (proj a) (proj a').
Proof.
  revert J T a. induction l as [|x l IH]; intros J T a Hbody Hdis HJ Hok.
  { exists a. split_and!; [done..|]. apply adds_nothing. by intros y ([|] & ? & ? & ? & _). }
  destruct (Hbody [] x l a eq_refl HJ Hok) as (stop & a1 & E1 & Hok1 & Hadd1 & Hstop).
  assert (Hsplit : ∀ y, (∃ d x' r, x :: l = d ++ x' :: r ∧ T d x' y) ↔
    T [] x y ∨ ∃ d x' r, l = d ++ x' :: r ∧ T (x :: d) x' y).
  { intros y. split.
    - intros ([|z d] & x' & r & E & HT); injection E as -> ->; [by left|right; by eexists _, _, _].
    - intros [HT|(d & x' & r & -> & HT)]; [by exists [], x, l|by exists (x :: d), x', r]. }
  assert (Hone : ∀ y, T [] x y → (∃ d x' r, l = d ++ x' :: r ∧ T (x :: d) x' y) → False).
  { intros y HT (d & x' & r & -> & HT').
    by pose proof (Hdis [] x _ (x :: d) x' r y eq_refl eq_refl HT HT'). }
  simpl. rewrite E1. cbn [mbind outcome_bind]. destruct stop.
  - exists a1. split_and!; [done..|]. eapply adds_iff; [by intros y; symmetry; apply Hsplit|].
    eapply adds_trans; [exact Hone|exact Hadd1|by apply adds_full].
  - destruct (IH (λ d, J (x :: d)) (λ d, T (x :: d)) a1) as (a2 & E2 & Hok2 & Hadd2); [| |done..|].
    + intros d x' r b -> HJ'. apply (Hbody (x :: d) x' r b eq_refl HJ').
    + intros d1 x1 r1 d2 x2 r2 y E1' E2' H1 H2. apply (f_equal (cons x)) in E1', E2'.
      pose proof (Hdis (x :: d1) x1 r1 (x :: d2) x2 r2 y E1' E2' H1 H2). simpl in *. lia.
    + exists a2. split_and!; [done..|]. eapply adds_iff; [by intros y; symmetry; apply Hsplit|].
      by eapply adds_trans.
Qed.

(** The predicates in turn: which one a path belongs to is in the path. *)
Lemma for_each_adds {B} (body : Search F → B → outcome (option (bool * Search F))) v (l : list B)
    (T : B → DirectedPath → Prop) σ :
  NoDup l → (∀ x x' y, T x y → T x' y → x = x') →
  (∀ x τ, x ∈ l → search_ok v τ →
    ∃ τ', body τ x = Ret (Some (false, τ')) ∧ search_ok v τ' ∧ adds (T x) τ τ') →
  search_ok v σ →
  ∃ σ', for_until body σ l = Ret (Some σ') ∧ search_ok v σ' ∧ adds (λ y, ∃ x, x ∈ l ∧ T x y) σ σ'.
Proof.
  intros Hnd Hdis Hbody Hσ.
  destruct (for_until_adds body (λ σ, σ) v l (λ _ _, True) (λ _, T) σ) as (σ' & E & Hok & Hadd); [| |done..|].
  - intros d x r τ El _ Hτ. destruct (Hbody x τ) as (τ' & E & Hok & Hadd); [rewrite El; set_solver|done|].
    by exists false, τ'.
  - intros d1 x1 r1 d2 x2 r2 y E1 E2 H1 H2. pose proof (Hdis _ _ _ H1 H2) as ->.
    eapply (NoDup_lookup l); [exact Hnd|rewrite E1; by apply list_lookup_middle|rewrite E2; by apply list_lookup_middle].
  - exists σ'. split_and!; [done..|]. eapply adds_iff; [|exact Hadd]. intros y. split.
    + intros (d & x & r & -> & HT). exists x. set_solver.
    + intros (x & (d & r & El)%list_elem_of_split & HT). by exists d, x, r.
Qed.
Lemma enough_spec v σ : 0 ≤ max_paths < 2 ^ 31 → search_ok v σ → enough max_paths σ = bool_decide (max_paths ≤ Z.of_nat (length (paths σ))).
Proof.
  intros Hmax [_ _ Hf]. unfold enough, s32. by rewrite to_signed_nonneg by lia.
Qed.
End adds.

(** ** The search is correct *)
Section correct.
Context `{Lib : K2Lib} `{!K2LibLaws} {F : Type} `{Fetch : !K2TreeFetcher F} `{FL : !K2TreeFetcherLaws F}.
Variables (Pt : Z → option (gset (Z * Z))) (qw : K2QStateWrapper) (max_paths : Z).
Variables (ids sorted : list Z) (N n : nat).
Hypothesis max_range : 0 ≤ max_paths < 2 ^ 31.
Hypothesis ids_known : ∀ p, p ∈ ids → ∃ P, Pt p = Some P ∧ (base.size P ≤ N)%nat.
Hypothesis ids_nodup : NoDup ids.
Hypothesis sorted_perm : sorted ≡ₚ ids.

Notation store_ok := (store_ok Pt qw).
Notation search_ok := (search_ok max_paths Pt qw).
Notation adds := (adds max_paths).
Notation path_with := (path_with Pt ids).
Notation extends_path := (extends_path Pt ids).

Definition tree_of (p : Z) (t : K2TreeMixed) : Prop :=
  p ∈ ids ∧ tm_ok t ∧ create_k2qw t = qw ∧ Pt p = Some (pts t).
Definition is_coord (s : Z) : Prop := 0 ≤ s < 2 ^ st_tree_depth qw.

Lemma fetch_tree p f : p ∈ ids → store_ok f →
  ∃ f' r t, fetch_k2tree p f = Ret (r, f') ∧ loaded r = true ∧ fetch_result r = Some t ∧
    store_ok f' ∧ tree_of p t.
Proof.
  intros Hin (Hf & Hpt & Hq). destruct (fetch_law f p Hf) as (r & f' & E & Hf' & Hpt' & Hq' & Hr).
  destruct (ids_known p Hin) as (P & HP & _). rewrite Hpt, HP in Hr.
  destruct Hr as (Hx & t & Ht & Hok & HP' & Hqt). exists f', r, t. unfold loaded. rewrite Hx, Ht.
  do 3 (split; [done|]). split; [split_and!; [done| |congruence]|].
  - intros q. by rewrite Hpt', Hpt.
  - split_and!; [done..| |]; congruence.
Qed.

Lemma tree_points p t x : tree_of p t → x ∈ pts t →
  edge Pt ids (mkTriple x.1 p x.2) ∧ is_coord x.1 ∧ is_coord x.2.
Proof.
  intros (Hin & Hok & Hq & HP) Hx. split.
  - split; [done|]. exists (pts t). destruct x. done.
  - apply elem_of_pts in Hx. unfold is_coord. rewrite <-Hq.
    by eapply Forall_forall in Hx; [|by eapply scan_range, Hok].
Qed.
Lemma tree_size p t : tree_of p t → (length (elements (pts t)) ≤ N)%nat.
Proof.
  intros (Hin & _ & _ & HP). destruct (ids_known p Hin) as (P & HP' & Hle).
  rewrite HP in HP'. by injection HP' as <-.
Qed.

(** The points of a subject, and all points, once each. *)
Lemma band_points p t s : tree_of p t → is_coord s →
  ∃ l, delivers (create_band_scanner s COLUMN_BAND_TYPE t) l ∧ NoDup l ∧ (length l ≤ N)%nat ∧
    ∀ x, x ∈ l ↔ x.1 = s ∧ x ∈ pts t.
Proof.
  intros Ht Hs. pose proof (tree_size p t Ht) as Hle. destruct Ht as (_ & Hok & Hq & _).
  destruct (band_enumerates t s COLUMN_BAND_TYPE Hok) as (_ & l & _ & _ & Hd & Hp).
  { unfold is_coord in Hs. rewrite <-Hq in Hs. exact Hs. }
  eexists. split; [exact Hd|]. split_and!.
  - rewrite Hp. apply NoDup_filter, NoDup_elements.
  - rewrite Hp. etrans; [apply length_filter|exact Hle].
  - intros x. rewrite Hp, list_elem_of_filter, elem_of_elements. done.
Qed.
Lemma full_points p t : tree_of p t →
  ∃ l, delivers (create_full_scanner t) l ∧ (length l ≤ N)%nat ∧ ∀ x, x ∈ l ↔ x ∈ pts t.
Proof.
  intros Ht. destruct (full_scanner_spec t (proj1 (proj2 Ht))) as (l & Hd & Hp). exists l.
  split; [done|]. split; [by rewrite Hp, (tree_size p t Ht)|]. intros x. by rewrite Hp, elem_of_elements.
Qed.

(** The current path: its first edges are [pre], and it has room for [n]. *)
Definition path_ok (pre cp : list RDFTriple) : Prop := take (length pre) cp = pre ∧ length cp = n.
Lemma path_ok_set pre cp t k : path_ok pre cp → (length pre + S k = n)%nat →
  ∃ cp', arr_set cp (length pre) t = Ret cp' ∧ path_ok pre cp' ∧ path_ok (pre ++ [t]) cp'.
Proof.
  intros [Ht El] Hk. unfold arr_set, path_ok. rewrite decide_True by lia. eexists. split; [done|].
  rewrite length_insert, length_app, Nat.add_1_r. split_and!; [|done| |done].
  - by rewrite take_insert_ge.
  - rewrite (take_S_r _ _ t) by (apply list_lookup_insert_eq; lia). by rewrite take_insert_ge, Ht.
Qed.
Lemma path_ok_full pre cp : path_ok pre cp → length pre = n → cp = pre.
Proof. intros [E El] Hn. by rewrite Hn, take_ge in E by lia. Qed.

(** The contract of the recursive call, [k] edges after the one it starts with. *)
Definition finds (rec : list RDFTriple → Z → Search F → K2TreeMixed → Z → Z → outcome (option (Search F)))
    (k : nat) : Prop :=
  ∀ pre cp s σ t p, (length pre + S k = n)%nat → path_ok pre cp → NoDup pre →
    search_ok (list_to_set pre) σ → tree_of p t → is_coord s →
    ∃ σ', rec cp s σ t p (Z.of_nat (length pre)) = Ret (Some σ') ∧
      search_ok (list_to_set pre) σ' ∧ adds (extends_path pre s p k) σ σ'.

Lemma search_set_store v f σ : search_ok v σ → store_ok f → search_ok v (set_store f σ).
Proof. by intros [? ? ?] ?. Qed.
Lemma search_set_visited v v' σ : search_ok v σ → search_ok v' (set_visited v' σ).
Proof. by intros [? ? ?]. Qed.

(** One more edge, and the paths that go on from it. *)
Lemma next_predicates rec k pre cp σ t : finds rec k → (length pre + S (S k) = n)%nat →
  path_ok (pre ++ [t]) cp → NoDup (pre ++ [t]) → edge Pt ids t → is_coord (object t) →
  search_ok (list_to_set (pre ++ [t])) σ →
  ∃ σ', for_until (λ σ pred_value,
          '(pred_fetch_result, f) ← fetch_k2tree pred_value (store σ);
          tree_selected ← fetch_get pred_fetch_result;
          m ← rec cp (object t) (set_store f σ) tree_selected pred_value (Z.of_nat (length pre) + 1);
          Ret (option_map (λ σ, (false, σ)) m)) σ sorted = Ret (Some σ') ∧
    search_ok (list_to_set (pre ++ [t])) σ' ∧ adds (path_with pre t (S k)) σ σ'.
Proof.
  intros Hrec Hn Hcp Hnd He Hc Hσ.
  match goal with |- context [for_until ?b σ sorted] =>
    destruct (for_each_adds max_paths Pt qw b (list_to_set (pre ++ [t])) sorted
      (λ q, extends_path (pre ++ [t]) (object t) q k) σ) as (σ' & E & Hok & Hadd) end;
    [by rewrite sorted_perm| | |done|].
  - intros q q' y H1 H2. by destruct (extends_path_inj _ _ _ _ _ _ _ _ _ H1 H2).
  - intros q τ Hq Hτ. rewrite sorted_perm in Hq.
    destruct (fetch_tree q (store τ) Hq (so_store _ _ _ _ _ Hτ)) as (f & fr & tq & E & _ & Ef & Hf & Htq).
    destruct (Hrec (pre ++ [t]) cp (object t) (set_store f τ) tq q) as (τ' & E' & Hτ' & Ha); try done.
    { rewrite length_app. simpl. lia. }
    { by apply search_set_store. }
    exists τ'. rewrite E. unfold fetch_get. cbn [mbind outcome_bind]. rewrite Ef. cbn [deref mbind outcome_bind].
    replace (Z.of_nat (length pre) + 1) with (Z.of_nat (length (pre ++ [t]))) by (rewrite length_app; simpl; lia).
    by rewrite E'.
  - exists σ'. split_and!; [done..|]. eapply adds_iff; [|exact Hadd]. intros y.
    rewrite path_with_next by done. by setoid_rewrite sorted_perm.
Qed.

(** What holds of the path and the state before each edge. *)
Definition before_edge (pre : list RDFTriple) (k : nat) (acc : list RDFTriple * Search F) : Prop :=
  path_ok pre acc.1 ∧ (k = 0%nat → Z.of_nat (length (paths acc.2)) < max_paths).

Lemma visit_last rec pre p s o cp σ (t := mkTriple s p o) : (length pre + 1 = n)%nat → NoDup pre →
  edge Pt ids t → t ∉ pre → before_edge pre 0 (cp, σ) → search_ok (list_to_set pre) σ →
  ∃ stop acc', visit_edge rec s p (Z.of_nat (length pre)) (Z.of_nat n) max_paths sorted (cp, σ) (s, o) =
      Ret (Some (stop, acc')) ∧
    search_ok (list_to_set pre) acc'.2 ∧ adds (path_with pre t 0) σ acc'.2 ∧
    if stop : bool then max_paths ≤ Z.of_nat (length (paths acc'.2)) else before_edge pre 0 acc'.
Proof.
  intros Hn Hnd He Hnew [Hcp Hroom] Hσ. specialize (Hroom eq_refl). simpl in Hcp, Hroom.
  destruct (path_ok_set pre cp t 0 Hcp Hn) as (cp' & E & Hcp' & Hfull).
  apply path_ok_full in Hfull; [|rewrite length_app; simpl; lia]. subst cp'.
  assert (Hok : search_ok (list_to_set pre) (add_path (pre ++ [t]) σ)).
  { destruct Hσ as [? ? _]. constructor; [done..|]. simpl. rewrite length_app. simpl. lia. }
  unfold visit_edge. cbv zeta. fold t. rewrite decide_False by tauto. rewrite (so_visited _ _ _ _ _ Hσ).
  rewrite decide_False by by rewrite elem_of_list_to_set. rewrite decide_True by lia.
  rewrite Nat2Z.id, E. cbn [mbind outcome_bind]. eexists _, _. split; [done|]. split; [exact Hok|].
  rewrite (enough_spec _ _ _ _ _ max_range Hok). split.
  - exists [mkPath (pre ++ [t])]. split_and!; [done|apply NoDup_singleton| |].
    + intros y ->%list_elem_of_singleton. by apply path_with_last.
    + intros _ y Hy. apply list_elem_of_singleton. by apply path_with_last in Hy.
  - case_bool_decide; [done|]. split; [done|]. simpl in *. lia.
Qed.

Lemma visit_next rec k pre p s o cp σ (t := mkTriple s p o) : finds rec k →
  (length pre + S (S k) = n)%nat → NoDup pre → edge Pt ids t → is_coord o → t ∉ pre →
  before_edge pre (S k) (cp, σ) → search_ok (list_to_set pre) σ →
  ∃ acc', visit_edge rec s p (Z.of_nat (length pre)) (Z.of_nat n) max_paths sorted (cp, σ) (s, o) =
      Ret (Some (false, acc')) ∧
    search_ok (list_to_set pre) acc'.2 ∧ adds (path_with pre t (S k)) σ acc'.2 ∧ before_edge pre (S k) acc'.
Proof.
  intros Hrec Hn Hnd He Hc Hnew [Hcp _] Hσ. simpl in Hcp.
  destruct (path_ok_set pre cp t (S k) Hcp Hn) as (cp' & E & Hcp' & Hnext).
  assert (Hset : {[ t ]} ∪ list_to_set pre = list_to_set (pre ++ [t]) :> gset RDFTriple) by set_solver.
  destruct (next_predicates rec k pre cp' (set_visited ({[ t ]} ∪ visited_edges σ) σ) t Hrec Hn)
    as (σ' & E' & Hσ' & Hadd); [done| |done..| |].
  { apply NoDup_app. split_and!; [done| |apply NoDup_singleton]. by intros y Hy ->%list_elem_of_singleton. }
  { rewrite (so_visited _ _ _ _ _ Hσ), Hset. by eapply search_set_visited. }
  unfold visit_edge. cbv zeta. fold t. rewrite decide_False by tauto.
  rewrite decide_False by by rewrite (so_visited _ _ _ _ _ Hσ), elem_of_list_to_set.
  rewrite decide_False by lia. rewrite Nat2Z.id, E. cbn [mbind outcome_bind].
  simpl in E'. rewrite E'. cbn [mbind outcome_bind option_map]. eexists. split; [done|]. simpl.
  split; [|split; [by eapply adds_same; [| |exact Hadd]|by split]].
  rewrite (so_visited _ _ _ _ _ Hσ').
  replace (list_to_set (pre ++ [t]) ∖ {[t]}) with (list_to_set pre : gset RDFTriple) by set_solver.
  by eapply search_set_visited.
Qed.

Lemma visit_edge_spec rec k pre p s o cp σ : (∀ k', k = S k' → finds rec k') →
  (length pre + S k = n)%nat → NoDup pre → edge Pt ids (mkTriple s p o) → is_coord o →
  before_edge pre k (cp, σ) → search_ok (list_to_set pre) σ →
  ∃ stop acc', visit_edge rec s p (Z.of_nat (length pre)) (Z.of_nat n) max_paths sorted (cp, σ) (s, o) =
      Ret (Some (stop, acc')) ∧
    search_ok (list_to_set pre) acc'.2 ∧ adds (path_with pre (mkTriple s p o) k) σ acc'.2 ∧
    if stop : bool then max_paths ≤ Z.of_nat (length (paths acc'.2)) else before_edge pre k acc'.
Proof.
  intros Hrec Hn Hnd He Hc Hb Hσ. destruct (decide (mkTriple s p o ∈ pre)) as [Hin|Hnew].
  - exists false, (cp, σ). unfold visit_edge. rewrite decide_False by tauto.
    rewrite decide_True by by rewrite (so_visited _ _ _ _ _ Hσ), elem_of_list_to_set.
    split; [done|]. split; [done|]. split; [|done]. apply adds_nothing.
    intros y Hy. by apply path_with_visited in Hy.
  - destruct k as [|k]; [by apply visit_last|].
    destruct (visit_next rec k pre p s o cp σ) as (acc' & E & ?); [by apply Hrec|done..|]. by exists false, acc'.
Qed.

(** A call of the search, given that its recursive calls find what they are to. *)
Lemma find_paths_step k fuel : (N < fuel)%nat →
  (∀ k', k = S k' → finds (find_paths_subj_origin fuel (Z.of_nat n) max_paths sorted) k') →
  finds (find_paths_subj_origin (S fuel) (Z.of_nat n) max_paths sorted) k.
Proof.
  intros Hf Hrec pre cp s σ t p Hn Hcp Hnd Hσ Ht Hs. cbn [find_paths_subj_origin].
  rewrite (enough_spec _ _ _ _ _ max_range Hσ). case_bool_decide as Hfull.
  { exists σ. do 2 (split; [done|]). by apply adds_full. }
  destruct (band_points p t s Ht Hs) as (l & Hd & Hl & Hle & Hin).
  rewrite (scan_until_delivers _ _ _ _ _ Hd) by lia.
  destruct (for_until_adds max_paths Pt qw
    (visit_edge (find_paths_subj_origin fuel (Z.of_nat n) max_paths sorted) s p
       (Z.of_nat (length pre)) (Z.of_nat n) max_paths sorted) snd (list_to_set pre) l
    (λ _, before_edge pre k) (λ _ x, path_with pre (mkTriple s p x.2) k) (cp, σ)) as ([cp' σ'] & E & Hok & Hadd).
  - intros d [s' o] r [cp1 σ1] El Hb Hσ1.
    destruct (Hin (s', o)) as [[Es Hx] _]; [rewrite El; set_solver|]. simpl in Es. subst s'.
    destruct (tree_points p t (s, o) Ht Hx) as (He & _ & Ho). by apply visit_edge_spec.
  - intros d1 [s1 o1] r1 d2 [s2 o2] r2 y E1 E2 H1 H2.
    pose proof (path_with_inj _ _ _ _ _ _ _ H1 H2) as [= Eo]. simpl in Eo. subst o2.
    assert (s1 = s2) as ->.
    { destruct (Hin (s1, o1)) as [[Es1 _] _]; [rewrite E1; set_solver|].
      destruct (Hin (s2, o1)) as [[Es2 _] _]; [rewrite E2; set_solver|]. simpl in *. congruence. }
    eapply (NoDup_lookup l); [exact Hl|rewrite E1; by apply list_lookup_middle|rewrite E2; by apply list_lookup_middle].
  - split; [done|]. intros _. simpl. lia.
  - done.
  - exists σ'. rewrite E. split_and!; [done..|]. eapply adds_iff; [|exact Hadd]. intros y. split.
    + intros (d & x & r & El & HT). by exists (mkTriple s p x.2).
    + intros (e & <- & <- & HT). pose proof (path_with_edge _ _ _ _ _ _ HT) as (_ & P & HP & Hx).
      destruct Ht as (_ & _ & _ & HP'). rewrite HP in HP'. injection HP' as ->.
      destruct (list_elem_of_split _ _ (proj2 (Hin (subject e, object e)) (conj eq_refl Hx))) as (d & r & El).
      exists d, (subject e, object e), r. by destruct e.
Qed.
Lemma find_paths_finds k fuel : (S (N + k) < fuel)%nat →
  finds (find_paths_subj_origin fuel (Z.of_nat n) max_paths sorted) k.
Proof.
  revert fuel. induction k as [|k IH]; (intros [|fuel] Hf; [lia|]); apply find_paths_step; [lia|done|lia|].
  intros k' [= <-]. apply IH. lia.
Qed.

(** The subjects that have been started are those of the points before. *)
Lemma start_path_spec fuel k d p t x subjects σ : (S (N + k) < fuel)%nat → S k = n → tree_of p t →
  x ∈ pts t → subjects = list_to_set d.*1 → search_ok ∅ σ →
  ∃ stop acc', start_path fuel (Z.of_nat n) max_paths sorted p t (subjects, σ) x = Ret (Some (stop, acc')) ∧
    search_ok ∅ acc'.2 ∧ adds (λ y, x.1 ∉ d.*1 ∧ extends_path [] x.1 p k y) σ acc'.2 ∧
    if stop : bool then max_paths ≤ Z.of_nat (length (paths acc'.2))
    else acc'.1 = list_to_set (d ++ [x]).*1.
Proof.
  intros Hf Hk Ht Hx -> Hσ. destruct (tree_points p t x Ht Hx) as (_ & Hs & _). destruct x as [s o].
  unfold start_path. simpl in Hs. rewrite fmap_app, list_to_set_app_L.
  destruct (decide (s ∈ d.*1)) as [Hin|Hnew].
  - rewrite decide_True by by apply elem_of_list_to_set. exists false, (list_to_set d.*1, σ).
    split; [done|]. split; [done|]. split; [by apply adds_nothing; tauto|]. simpl.
    apply (elem_of_list_to_set (C := gset Z)) in Hin. set_solver.
  - rewrite decide_False by by rewrite elem_of_list_to_set. rewrite decide_False by lia.
    destruct (find_paths_finds k fuel Hf [] (replicate n (mkTriple 0 0 0)) s σ t p)
      as (σ' & E & Hok & Hadd); [simpl; lia|split; [by destruct n|by rewrite length_replicate]|constructor|done..|].
    rewrite Nat2Z.id. change (Z.of_nat (length [])) with 0 in E. rewrite E. cbn [mbind outcome_bind option_map].
    eexists _, _. split; [done|]. split; [done|]. rewrite (enough_spec _ _ _ _ _ max_range Hok). split.
    + eapply adds_iff; [|exact Hadd]. naive_solver.
    + case_bool_decide; simpl; [done|set_solver].
Qed.

Lemma start_predicate_spec fuel k p σ : (S (N + k) < fuel)%nat → S k = n → p ∈ ids → search_ok ∅ σ →
  ∃ σ', start_predicate fuel (Z.of_nat n) max_paths sorted σ p = Ret (Some (false, σ')) ∧
    search_ok ∅ σ' ∧ adds (λ y, ∃ s, extends_path [] s p k y) σ σ'.
Proof.
  intros Hf Hk Hin Hσ. destruct (fetch_tree p (store σ) Hin (so_store _ _ _ _ _ Hσ)) as (f & r & t & E & _ & Er & Hst & Ht).
  destruct (full_points p t Ht) as (l & Hd & Hle & Hl).
  destruct (for_until_adds max_paths Pt qw (start_path fuel (Z.of_nat n) max_paths sorted p t) snd ∅ l
    (λ d acc, acc.1 = list_to_set d.*1) (λ d x y, x.1 ∉ d.*1 ∧ extends_path [] x.1 p k y)
    (∅, set_visited ∅ (set_store f σ))) as ([subj σ'] & E' & Hok & Hadd).
  - intros d x r' [subjects τ] El Hsub Hτ. apply start_path_spec; try done. apply Hl. rewrite El. set_solver.
  - intros d1 x1 r1 d2 x2 r2 y E1 E2 [Hn1 H1] [Hn2 H2].
    destruct (extends_path_inj _ _ _ _ _ _ _ _ _ H1 H2) as [Hx _].
    by eapply (first_unique fst); [rewrite <-E1|..].
  - done.
  - by apply search_set_visited with (v := ∅), search_set_store.
  - exists σ'. unfold start_predicate. rewrite E. unfold fetch_get. cbn [mbind outcome_bind]. rewrite Er.
    cbn [deref mbind outcome_bind]. rewrite (scan_until_delivers _ _ _ _ _ Hd) by lia. rewrite E'.
    split; [done|]. split; [done|]. eapply adds_iff; [|by eapply adds_same; [| |exact Hadd]].
    intros y. split; [naive_solver|]. intros [s Hy].
    assert (Hs : s ∈ l.*1).
    { destruct Hy as (e & <- & He' & HT). destruct (path_with_edge _ _ _ _ _ _ HT) as (_ & P & HP & Hx).
      rewrite He' in HP. destruct Ht as (_ & _ & _ & HP'). rewrite HP in HP'. injection HP' as ->.
      apply list_elem_of_fmap. exists (subject e, object e). split; [done|]. by apply Hl. }
    destruct (first_of fst _ _ Hs) as (d & x & r' & El & <- & Hn). by exists d, x, r'.
Qed.
End correct.

(** ** The order of the predicates *)
Section sorting.
Context `{Lib : K2Lib} `{!K2LibLaws} {F : Type} `{Fetch : !K2TreeFetcher F} `{FL : !K2TreeFetcherLaws F}.
Variables (Pt : Z → option (gset (Z * Z))) (qw : K2QStateWrapper) (ids : list Z) (N : nat).
Hypothesis ids_known : ∀ p, p ∈ ids → ∃ P, Pt p = Some P ∧ (base.size P <= N)%nat.

Notation store_ok := (store_ok Pt qw).
Notation fetch_tree := (fetch_tree Pt qw ids N ids_known).

(** The counter of a tree of predicate [p], and the order of the counters. *)
Definition weight (p : Z) : Z := match Pt p with Some P => u64 (Z.of_nat (base.size P)) | None => 0 end.
Definition heavier (p q : Z) : Prop := weight q ≤ weight p.

Lemma by_decreasing_size_spec p q f : p ∈ ids → q ∈ ids → store_ok f →
  ∃ f', by_decreasing_size p q f = Ret (bool_decide (weight q < weight p), f') ∧ store_ok f'.
Proof.
  intros Hp Hq Hf. destruct (fetch_tree p f Hp Hf) as (f1 & r1 & t1 & E1 & L1 & R1 & Hf1 & T1).
  destruct (fetch_tree q f1 Hq Hf1) as (f2 & r2 & t2 & E2 & L2 & R2 & Hf2 & T2).
  assert (Hw : ∀ p t, tree_of Pt qw ids p t → size t = weight p).
  { intros p' t (_ & [_ Hc] & _ & HP). unfold weight. by rewrite HP. }
  pose proof (andb_prop _ _ L1) as [X1 _]. pose proof (andb_prop _ _ L2) as [X2 _].
  exists f2. split; [|done]. unfold by_decreasing_size, exists_tree, fetch_get.
  rewrite E1. cbn [mbind outcome_bind]. rewrite X1, L1, E2. cbn [mbind outcome_bind negb].
  rewrite X2, L2, R1, R2. simpl. by rewrite (Hw _ _ T1), (Hw _ _ T2).
Qed.

Lemma sort_insert_spec p l f : p ∈ ids → l ⊆ ids → store_ok f → StronglySorted heavier l →
  ∃ l' f', sort_insert p l f = Ret (l', f') ∧ store_ok f' ∧ l' ≡ₚ p :: l ∧ StronglySorted heavier l'.
Proof.
  intros Hp. revert f. induction l as [|q l IH]; intros f Hl Hf Hs; simpl.
  { exists [p], f. split_and!; [done..|]. repeat constructor. }
  destruct (by_decreasing_size_spec p q f Hp) as (f1 & E1 & Hf1); [set_solver|done|].
  rewrite E1. cbn [mbind outcome_bind]. apply StronglySorted_inv in Hs as [Hs Hq]. case_bool_decide as Hw.
  - exists (p :: q :: l), f1. split_and!; [done..|]. repeat constructor; try done.
    + unfold heavier. lia.
    + eapply Forall_impl; [exact Hq|]. unfold heavier. intros x Hx. simpl in Hx. lia.
  - destruct (IH f1) as (l' & f' & E & Hf' & Hperm & Hs'); [set_solver|done|done|].
    rewrite E. exists (q :: l'), f'. split_and!; [done..| |].
    + rewrite Hperm. apply Permutation_swap.
    + constructor; [done|]. rewrite Hperm. constructor; [|done]. unfold heavier. lia.
Qed.

(** The ids are sorted by decreasing number of points. *)
Lemma sort_ids_spec l f : l ⊆ ids → store_ok f →
  ∃ l' f', sort_ids l f = Ret (l', f') ∧ store_ok f' ∧ l' ≡ₚ l ∧ StronglySorted heavier l'.
Proof.
  intros Hl Hf. induction l as [|p l IH]; simpl.
  { exists [], f. split_and!; [done..|]. constructor. }
  destruct IH as (l1 & f1 & E1 & Hf1 & Hp1 & Hs1); [set_solver|].
  destruct (sort_insert_spec p l1 f1) as (l2 & f2 & E2 & Hf2 & Hp2 & Hs2); [set_solver| |done|done|].
  { intros x Hx. rewrite Hp1 in Hx. set_solver. }
  rewrite E1. cbn [mbind outcome_bind]. exists l2, f2. split_and!; [done..| |done]. by rewrite Hp2, Hp1.
Qed.

Lemma search_ids_spec (max n fuel : nat) f : NoDup ids → Z.of_nat max < 2 ^ 31 → (S (N + n) < fuel)%nat →
  store_ok f →
  ∃ found f', search_ids fuel (Z.of_nat (S n)) (Z.of_nat max) ids f = Ret (Some (found, f')) ∧ store_ok f' ∧
    NoDup found ∧ (length found ≤ max)%nat ∧ (∀ x, x ∈ found → is_path Pt ids (S n) x) ∧
    ((length found < max)%nat → ∀ x, is_path Pt ids (S n) x → x ∈ found).
Proof.
  intros Hnd Hmax Hfuel Hf. destruct (sort_ids_spec ids f) as (l & f1 & E1 & Hf1 & Hperm & _); [done..|].
  destruct (for_each_adds (Z.of_nat max) Pt qw (start_predicate fuel (Z.of_nat (S n)) (Z.of_nat max) l) ∅ l
    (λ p y, ∃ s, extends_path Pt ids [] s p n y) (mkSearch [] ∅ f1))
    as (σ & E2 & [Hst _ Hle] & new & Epaths & Hn & Hin & Hall).
  - by rewrite Hperm.
  - intros p p' y [s Hy] [s' Hy']. by destruct (extends_path_inj _ _ _ _ _ _ _ _ _ Hy Hy').
  - intros p τ Hp Hτ. rewrite Hperm in Hp.
    by apply (start_predicate_spec Pt qw (Z.of_nat max) ids l N (S n)); try done; lia.
  - split; simpl; [done|done|lia].
  - simpl in Epaths. exists new, (store σ). unfold search_ids. rewrite E1. cbn [mbind outcome_bind].
    rewrite E2. cbn [mbind outcome_bind option_map]. rewrite Epaths in *. split_and!; [done..|lia| |].
    + intros x Hx. apply is_path_extends. destruct (Hin x Hx) as (p & Hp & s & Hy).
      exists p, s. split; [by rewrite <-Hperm|done].
    + intros Hlt x (p & s & Hp & Hx)%is_path_extends. apply Hall; [lia|]. exists p.
      split; [by rewrite Hperm|by exists s].
Qed.
End sorting.

(** ** The theorems *)

(** [operator==] of paths is equality, and [operator<] is a strict total order. *)
Theorem paths_ordered x y z :
  (path_eqb x y = true ↔ x = y) ∧ path_ltb x x = false ∧
  (path_ltb x y = true → path_ltb y z = true → path_ltb x z = true) ∧
  (path_ltb x y = true ∨ x = y ∨ path_ltb y x = true).
Proof.
  split; [apply path_eqb_spec|]. split; [apply edges_ltb_irrefl|]. split; [apply edges_ltb_trans|].
  destruct (edges_ltb_total (edges x) (edges y)) as [|[E|]]; [by left| |by right; right].
  right. left. destruct x, y. by f_equal.
Qed.

Section index_search.
Context `{Hp : Heap, Blk : BlockLib, !BlockLibLaws, Lib : K2Lib, !K2LibLaws, Ssl : OpenSSL}.
Context {Host : Type} `{UH : UpdatesLogHost Host, HL : !UpdatesLogHostLaws Host}.

Lemma ids_have_points (h : Host) p : fetcher_ok h → p ∈ get_predicates_ids (index_of h) →
  ∃ P, points_of h p = Some P.
Proof.
  intros (_ & d & Hi) Hin. apply (ix_ids d _ Hi) in Hin as [md Hmd].
  simpl. unfold index_points. rewrite Hmd.
  destruct (predicates (index_of h) !! p) as [[t|]|]; by eexists.
Qed.

Lemma find_n_paths_spec (h : Host) (n max_number fuel : nat) :
  let ids := get_predicates_ids (index_of h) in
  fetcher_ok h → NoDup ids → (0 < n)%nat → Z.of_nat max_number < 2 ^ 31 → (n < fuel)%nat →
  (∀ p P, points_of h p = Some P → (base.size P + n < fuel)%nat) →
  ∃ found h', find_n_paths fuel (Z.of_nat n) (Z.of_nat max_number) h = Ret (Some (found, h')) ∧
    fetcher_ok h' ∧ (∀ p, points_of h' p = points_of h p) ∧
    NoDup found ∧ (length found ≤ max_number)%nat ∧
    (∀ x, x ∈ found → is_path (points_of h) ids n x) ∧
    ((length found < max_number)%nat → ∀ x, is_path (points_of h) ids n x → x ∈ found).
Proof.
  intros ids Hf Hnd Hn Hmax Hfuel Hsize. destruct n as [|n]; [lia|].
  assert (Hids : ∀ p, p ∈ ids → ∃ P, points_of h p = Some P ∧ (base.size P <= fuel - S (S n))%nat).
  { intros p Hin. destruct (ids_have_points h p Hf Hin) as [P EP].
    exists P. split; [done|]. specialize (Hsize p P EP). lia. }
  destruct (search_ids_spec (points_of h) (fetcher_qw h) ids _ Hids max_number n fuel h)
    as (found & h' & E & (Hf' & Hpt & _) & Hrest); [done|done|lia|done|].
  by exists found, h'.
Qed.

(** C19: [find_n_paths] returns paths of exactly [n] edges that go along the triples of
    the index and use none twice; it returns each once, at most [max_number] of them,
    and all there are when there are fewer than that. The points of the predicates are
    not changed. *)
Theorem find_n_paths_correct (h : Host) (n max_number fuel : nat) :
  let ids := get_predicates_ids (index_of h) in
  fetcher_ok h → NoDup ids → (0 < n)%nat → Z.of_nat max_number < 2 ^ 31 → (n < fuel)%nat →
  (∀ p P, points_of h p = Some P → (base.size P + n < fuel)%nat) →
  ∃ found h', find_n_paths fuel (Z.of_nat n) (Z.of_nat max_number) h = Ret (Some (found, h')) ∧
    fetcher_ok h' ∧ (∀ p, points_of h' p = points_of h p) ∧
    NoDup found ∧ (length found ≤ max_number)%nat ∧
    (∀ x, x ∈ found → is_path (points_of h) ids n x) ∧
    ((length found < max_number)%nat → ∀ x, is_path (points_of h) ids n x → x ∈ found).
Proof. apply find_n_paths_spec. Qed.
End index_search.

(** ** Instances of the theorems *)
Section witnesses.
#[local] Existing Instance toy_block_lib.
#[local] Existing Instance toy_block_laws.
#[local] Existing Instance Toy.toy_k2_lib.
#[local] Existing Instance toy_openssl.
#[local] Existing Instance toy_heap.

(** The triples [(1, 2, 3)], [(3, 4, 5)] and [(3, 4, 7)]. *)
Definition toy_edge_tree (l : list (Z * Z)) : K2TreeMixed :=
  fold_left (λ t p, run_op t (OpInsert p.1 p.2)) l (new_K2TreeMixed (mkConfig 8 256 1)).
Definition toy_graph : TreeMap :=
  mkTreeMap {[ 2 := toy_edge_tree [(1, 3)]; 4 := toy_edge_tree [(3, 5); (3, 7)] ]} (mkst 8 1 256).

Example two_paths :
  fmap (option_map fst) (search_ids 20 2 5 [2; 4] toy_graph) =
  Ret (Some [mkPath [mkTriple 1 2 3; mkTriple 3 4 5]; mkPath [mkTriple 1 2 3; mkTriple 3 4 7]]).
Proof. by vm_compute. Qed.
Example one_path :
  fmap (option_map fst) (search_ids 20 2 1 [2; 4] toy_graph) =
  Ret (Some [mkPath [mkTriple 1 2 3; mkTriple 3 4 5]]).
Proof. by vm_compute. Qed.
(** No edges: the first edge found is written past the end of an empty vector. *)
Example zero_edges : search_ids 20 0 5 [2; 4] toy_graph = UB.
Proof. by vm_compute. Qed.
Example negative_edges : search_ids 20 (-1) 5 [2; 4] toy_graph = Throw StdLengthError.
Proof. by vm_compute. Qed.
(** One predicate is not compared with anything, so nothing refuses a missing tree. *)
Example missing_tree :
  search_ids 20 2 5 [9] toy_graph = UB ∧ search_ids 20 2 5 [2; 9] toy_graph = Throw RuntimeError.
Proof. by vm_compute. Qed.

Lemma toy_tree_size : base.size (pts toy_tree) = 2%nat.
Proof. by vm_compute. Qed.
Lemma toy_points p P : points_of toy_index p = Some P → P = pts toy_tree.
Proof.
  change (points_of toy_index p) with (index_points toy_file toy_index p).
  unfold index_points, logged, is_stored_in_updates_log.
  change (update_logger (index_of toy_index)) with false. cbn [andb].
  change (predicates (index_of toy_index)) with ({[ 9 := Some toy_tree ]} : gmap Z (option K2TreeMixed)).
  change (metadata_map (metadata (index_of toy_index))) with ({[ 4 := toy_md ]} : gmap Z PredicateMetadata).
  rewrite !lookup_singleton. repeat case_decide; [congruence| |done].
  rewrite (stored_pts_spec _ _ _ _ toy_stored). congruence.
Qed.
Lemma find_n_paths_correct_witness :
  ∃ found h', find_n_paths 20 1 5 toy_index = Ret (Some (found, h')) ∧
    fetcher_ok h' ∧ (∀ p, points_of h' p = points_of toy_index p) ∧
    NoDup found ∧ (length found ≤ 5)%nat ∧
    (∀ x, x ∈ found → is_path (points_of toy_index) [4] 1 x) ∧
    ((length found < 5)%nat → ∀ x, is_path (points_of toy_index) [4] 1 x → x ∈ found).
Proof.
  refine (find_n_paths_correct toy_index 1 5 20 _ _ _ _ _ _); [|apply NoDup_singleton|lia|lia|lia|].
  - split; [done|]. exists toy_file. exact toy_index_ok.
  - intros p P HP. rewrite (toy_points p P HP), toy_tree_size. lia.
Defined.
End witnesses.
