(* ===== verification/Ingest.v ===== *)
(** * scripts and utils/sort: from triples in text to an index

    The programs that make the files of the server, one after the other: triples as
    text become a binary file ([convert_triples_to_binary]), its ids a sorted file
    without duplicates ([triples_to_sorted_node_ids], over a library for sorting), the
    triples are translated to positions in it ([translate_triples_to_nseq]), sorted by
    predicate ([triple_external_sort]) and built into an index file
    ([build_k2tree_index]). A program is what its [main] does with the parsed options,
    on the map from names to files of ExternalSort.v. *)
From Stdlib Require Import Ascii.
From stdpp Require Import strings.
From S2P Require Import Prelude Streams Memory Blocks K2Tree Scanners Hashing NodeIds PredicatesIndex.
From S2P Require Import ParallelWorker PriorityQueue TripleSort ExternalSort Builder.

Local Open Scope Z_scope.

(** ** scripts/convert_triples_to_binary.cpp *)

(** The lines that [std::getline] gives, one after the other; the last one may end
    without the delimiter. *)
Fixpoint getlines_from (delim : Z) (line s : list Z) : list (list Z) :=
  match s with
  | [] => match line with [] => [] | _ => [line] end
  | c :: s =>
      if decide (c = delim) then line :: getlines_from delim [] s
      else getlines_from delim (line ++ [c]) s
  end.
Definition getlines (delim : Z) (s : list Z) : list (list Z) := getlines_from delim [] s.

(** [std::stoul]: white space, a sign and digits; what follows them is ignored. *)
Definition is_space (c : Z) : bool := bool_decide (9 ≤ c ≤ 13) || bool_decide (c = 32).
Definition is_digit (c : Z) : bool := bool_decide (48 ≤ c ≤ 57).
Fixpoint skip_space (s : list Z) : list Z :=
  match s with c :: s' => if is_space c then skip_space s' else s | [] => [] end.
Fixpoint read_digits (n : option Z) (s : list Z) : option Z :=
  match s with
  | c :: s => if is_digit c then read_digits (Some (default 0 n * 10 + (c - 48))) s else n
  | [] => n
  end.
Definition minus_sign : Z := 45.
Definition plus_sign : Z := 43.
Definition stoul (s : list Z) : outcome Z :=
  let s := skip_space s in
  let negative := bool_decide (head s = Some minus_sign) in
  let s := if negative || bool_decide (head s = Some plus_sign) then tail s else s in
  match read_digits None s with
  | None => Throw StdInvalidArgument
  | Some n =>
      if decide (2 ^ 64 ≤ n) then Throw StdOutOfRange else Ret (if negative then u64 (- n) else n)
  end.

Definition newline : Z := 10.
Definition comma : Z := 44.

(** A line: [numbers] has room for three, and is not initialised. *)
Definition parse_line (line : list Z) : outcome TripleValue :=
  numbers ← foldM (λ numbers number_string,
                     n ← stoul number_string;
                     if decide (length numbers < 3)%nat then Ret (numbers ++ [n]) else UB)
              [] (getlines comma line);
  match numbers with [a; b; c] => Ret (mkTriple a b c) | _ => UB end.

Section convert.
Context `{Host}.

(** An [ifstream] on a file that is not there has no lines. *)
Definition convert_triples_to_binary (input_file output_file : string) : st files () := λ fs,
  let fs := open_out output_file fs in
  let lines := getlines newline (default [] (fs !! input_file)) in
  write_out output_file
    (write_u64 (Z.of_nat (length lines));;
     loop (λ _ line, t ← lift (parse_line line); write_to_file t) () lines) fs.
End convert.

(** ** utils/sort: the files of ids, for the sorting library *)

(** ULConnectorWHeaderCustomSerialization.hpp. *)
Definition ul_less (lhs rhs : Z) : bool := bool_decide (lhs < rhs).
Definition ul_read_value : rd Z := read_u64.
Definition ul_write (value : Z) : wr () := write_u64 value.

(** ULHeaderIOHandlerCustomSerialization.hpp: [Reader::read_value] says whether there
    was a value to read; [Writer] writes the number of elements before them, and again
    when it is known. *)
Record Reader := mkReader { counter : Z; sz : Z }.
Definition new_Reader : rd Reader := sz ← read_u64; mret (mkReader 0 sz).
Definition read_value (r : Reader) : rd (bool * Z * Reader) :=
  out ← ul_read_value;
  let counter := u64 (counter r + 1) in
  mret (bool_decide (counter ≤ sz r), out, mkReader counter (sz r)).

Record Writer := mkWriter { elements_in_file : Z; header_pos : nat }.
Definition new_Writer (elements_in_file : Z) : wr Writer :=
  header_pos ← tellp;
  write_u64 elements_in_file;;
  mret (mkWriter elements_in_file header_pos).
Definition write_value (w : Writer) (input : Z) : wr () := ul_write input.
Definition fix_headers (w : Writer) (input : Z) : wr Writer :=
  offset ← tellp;
  seekp (header_pos w);;
  write_u64 input;;
  seekp offset;;
  mret (mkWriter input (header_pos w)).

(** A file of ids: their number, then the ids. It is what NodesSequence reads. *)
Definition ids_file (l : list Z) : list Z := be_encode 8 (Z.of_nat (length l)) ++ (l ≫= be_encode 8).

(** ** utils/sort/triples_to_node_ids_file.cpp *)

(** The library that sorts the file; the arguments are those of [ExternalSort::sort].
    Asked to remove duplicates, it leaves in the output file the ids of the input in
    increasing order. *)
Class ExternalSortLib := external_sort_ids :
  string → string → string → Z → Z → Z → Z → bool → st files ().
Class ExternalSortLaws `{ExternalSortLib} : Prop := external_sort_law
  input_file output_file tmp_dir workers max_files memory_budget block_size l (fs : files) :
  fs !! input_file = Some (ids_file l) → Forall (in_u 64) l → in_u 64 (Z.of_nat (length l)) →
  input_file ≠ output_file → 0 < workers → 1 < max_files → 0 < block_size →
  ∃ fs' l', external_sort_ids input_file output_file tmp_dir workers max_files memory_budget block_size
              true fs = Ret ((), fs') ∧
    fs' !! output_file = Some (ids_file l') ∧ sorted_ids l' ∧ (∀ x, x ∈ l' ↔ x ∈ l) ∧
    ∀ name, name ≠ output_file → fs' !! name = fs !! name.

(** [while (!filedata.finished())] over the triples of a file, written as [body] says. *)
Fixpoint each_triple (body : TripleValue → wr ()) (fuel : nat) (filedata : FileData) (ifs : istream)
    : wr () :=
  if finished filedata then mret () else
  match fuel with
  | O => lift UB
  | S fuel =>
      r ← lift (read_triple filedata ifs);
      let '((triple, filedata), ifs) := r in
      body triple;;
      each_triple body fuel filedata ifs
  end.

Record TriplesToNodeIdsSortParams := mkParams {
  p_input_file : string; p_output_file : string; p_workers : Z; p_memory_budget : Z
}.

(** [fs::path::parent_path]: what is before the last slash, or the root. *)
Fixpoint before_slash (p : string) : string :=
  match p with
  | EmptyString => ""
  | String c p =>
      if bool_decide ("/"%char ∈ String.list_ascii_of_string p) then String c (before_slash p) else ""
  end.
Definition parent_path (p : string) : string :=
  match before_slash p with
  | EmptyString => if is_absolute p then "/" else ""
  | parent => parent
  end.

Section node_ids.
Context `{Host, ExternalSortLib}.

(** The exit code, one when the input is not there. Directories are not modelled. *)
Definition triples_to_sorted_node_ids (params : TriplesToNodeIdsSortParams) : st files Z := λ fs,
  match fs !! p_input_file params with
  | None => Ret (1, fs)
  | Some _ =>
      let output_file := p_output_file params in
      let fs := open_out output_file fs in
      '(size, ifs) ← read_u64 (get_reader (fs !! p_input_file params));
      let total_nodes := u64 (size * 3) in
      '(_, fs) ← write_out output_file
        (write_u64 total_nodes;;
         each_triple (λ triple, write_u64 (first triple);; write_u64 (second triple);;
                                write_u64 (third triple))
           (Z.to_nat size) (mkFileData size 0) ifs) fs;
      let dir_path := path_join (parent_path output_file) "tmpdir" in
      let tmp_sorted := output_file +:+ "-sorted" in
      '(_, fs) ← external_sort_ids output_file tmp_sorted dir_path (p_workers params) 10
                  (p_memory_budget params) 4096 true fs;
      let fs := delete output_file fs in
      '(_, fs) ← rename tmp_sorted output_file fs;
      Ret (0, fs)
  end.
End node_ids.

(** ** scripts/translate_triples_to_nseq.cpp *)

Section translate.
Context `{Host}.

(** The position of an id that is not in the sequence is [NOT_FOUND_NODEID]. *)
Definition translate_triple (nodes_sequence : list Z) (triple : TripleValue) : TripleValue :=
  mkTriple (seq_get_id nodes_sequence (first triple)) (seq_get_id nodes_sequence (second triple))
    (seq_get_id nodes_sequence (third triple)).

Definition translate_triples_to_nseq (input_file output_file nodes_sequence_file : string) : st files Z := λ fs,
  if decide (fs !! input_file = None) then Ret (1, fs)
  else if decide (fs !! nodes_sequence_file = None) then Ret (1, fs)
  else
    let fs := open_out output_file fs in
    let ifs := get_reader (fs !! input_file) in
    '(nodes_sequence, _) ← seq_from_input_stream (get_reader (fs !! nodes_sequence_file));
    '(size, ifs) ← read_u64 ifs;
    '(_, fs) ← write_out output_file
      (write_u64 size;;
       each_triple (λ triple, write_to_file (translate_triple nodes_sequence triple))
         (Z.to_nat size) (mkFileData size 0) ifs) fs;
    Ret (0, fs).
End translate.

(** ** scripts/extract_triples_binary.cpp: back to text *)

(** [operator<<] writes a number in decimal; 20 digits are enough for 64 bits. *)
Fixpoint decimal (fuel : nat) (n : Z) : list Z :=
  match fuel with
  | O => []
  | S fuel => if decide (n < 10) then [48 + n] else decimal fuel (n / 10) ++ [48 + n mod 10]
  end.
Definition decimal_u64 : Z → list Z := decimal 20.
Definition text_line (t : TripleValue) : list Z :=
  decimal_u64 (first t) ++ [comma] ++ decimal_u64 (second t) ++ [comma] ++ decimal_u64 (third t).
(** The text of triples. *)
Definition text_file (l : list TripleValue) : list Z := l ≫= λ t, text_line t ++ [newline].

Section extract.
Context `{Host}.

Definition extract_triples_binary (input_file output_file : string) : st files () := λ fs,
  let fs := open_out output_file fs in
  '(size, ifs) ← read_u64 (get_reader (fs !! input_file));
  write_out output_file
    (each_triple (λ triple, os_write (text_line triple ++ [newline])) (Z.to_nat size) (mkFileData size 0) ifs) fs.
End extract.

(** ** scripts/triple_external_sort.cpp *)
Section sort.
Context `{Host, StdAlgorithms, PoolSchedule}.

Definition triple_external_sort (fuel : nat) (input_file output_file tmp_dir : string)
    (workers max_memory : Z) : st files (option ()) := λ fs,
  external_sort_triples Comparator fuel input_file output_file tmp_dir workers 10 max_memory 8192
    10000000 (open_out output_file fs).
End sort.

(** ** scripts/build_k2tree_index.cpp *)
Section index.
Context `{Host, Heap, BlockLib, K2Lib, OpenSSL}.

(** The temporary file is one that can be opened. *)
Definition build_k2tree_index (fuel : nat) (input_file output_file : string) (config : K2TreeConfig)
    : st files (option ()) := λ fs,
  match fs !! input_file with
  | None => Throw RuntimeError
  | Some _ =>
      let tmp_fname := output_file +:+ ".tmp" in
      let fs := open_out output_file fs in
      '(m, bytes) ← file_of (build fuel (get_reader (fs !! input_file)) (os_end []) config);
      match m with
      | None => Ret (None, fs)
      | Some _ =>
          '(_, fs) ← write_out output_file (os_write bytes) fs;
          Ret (Some (), delete tmp_fname fs)
      end
  end.
End index.

(** ** Reading and writing the files *)

Lemma decimal_digits fuel n : 0 ≤ n → Forall (λ c, is_digit c = true) (decimal fuel n).
Proof.
  revert n. induction fuel as [|fuel IH]; intros n Hn; simpl; [constructor|].
  assert (Hd : ∀ d, 0 ≤ d < 10 → is_digit (48 + d) = true) by (intros d Hd; apply bool_decide_eq_true; lia).
  case_decide; [by repeat constructor; apply Hd|]. apply Forall_app. split.
  - apply IH, Z.div_pos; lia.
  - repeat constructor. apply Hd, Z.mod_pos_bound. lia.
Qed.
Lemma decimal_cons fuel n : decimal (S fuel) n ≠ [].
Proof. simpl. case_decide; [done|]. by intros [_ ?]%app_nil. Qed.

(** Digits are read from the left, and [decimal] writes them from the right. *)
Lemma read_decimal fuel n rest : 0 ≤ n < 10 ^ Z.of_nat fuel → (0 < fuel)%nat →
  read_digits None (decimal fuel n ++ rest) = read_digits (Some n) rest.
Proof.
  revert n rest. induction fuel as [|fuel IH]; intros n rest Hn Hf; [lia|]. simpl decimal.
  assert (Hd : ∀ d, 0 ≤ d < 10 → is_digit (48 + d) = true) by (intros d Hd; apply bool_decide_eq_true; lia).
  case_decide as Hlt.
  - cbn [app read_digits]. rewrite Hd by lia. cbn [default]. do 2 f_equal. lia.
  - pose proof (Z.mod_pos_bound n 10 ltac:(lia)) as Hm.
    assert (0 < fuel)%nat by (destruct fuel; [simpl in Hn; lia|lia]).
    rewrite <-app_assoc, IH; [|split; [apply Z.div_pos; lia|]|done].
    + cbn [app read_digits]. rewrite Hd by lia. cbn [default from_option id]. do 2 f_equal.
      pose proof (Z.div_mod n 10). lia.
    + apply Z.div_lt_upper_bound; [lia|]. rewrite Nat2Z.inj_succ, Z.pow_succ_r in Hn by lia. lia.
Qed.

Lemma stoul_decimal n : in_u 64 n → stoul (decimal_u64 n) = Ret n.
Proof.
  intros Hn. unfold decimal_u64.
  pose proof (decimal_digits 20 n ltac:(apply Hn)) as Hd. pose proof (decimal_cons 19 n) as Hne.
  pose proof (read_decimal 20 n [] ltac:(unfold in_u in Hn; lia) ltac:(lia)) as Hr.
  rewrite app_nil_r in Hr. cbn [read_digits] in Hr.
  destruct (decimal 20 n) as [|c s]; [done|]. apply Forall_cons in Hd as [Hc _].
  assert (Hb : 48 ≤ c ≤ 57) by by apply bool_decide_eq_true in Hc.
  unfold stoul. cbn [skip_space].
  assert (is_space c = false) as ->.
  { unfold is_space. rewrite !bool_decide_eq_false_2 by lia. done. }
  cbn [head]. rewrite !bool_decide_eq_false_2 by (unfold minus_sign, plus_sign; intros [=]; lia).
  cbn [orb]. rewrite Hr. by rewrite decide_False by (unfold in_u in Hn; lia).
Qed.

(** Lines, and the fields of a line. *)
Lemma getlines_line delim acc l s : delim ∉ l →
  getlines_from delim acc (l ++ delim :: s) = (acc ++ l) :: getlines delim s.
Proof.
  revert acc. induction l as [|c l IH]; intros acc Hn; simpl.
  - rewrite decide_True by done. by rewrite app_nil_r.
  - apply not_elem_of_cons in Hn as [Hc Hn]. rewrite decide_False by done.
    rewrite IH by done. by rewrite <-app_assoc.
Qed.
Lemma getlines_last delim acc l : delim ∉ l → acc ++ l ≠ [] → getlines_from delim acc l = [acc ++ l].
Proof.
  revert acc. induction l as [|c l IH]; intros acc Hn Hne; simpl.
  - rewrite app_nil_r in *. by destruct acc.
  - apply not_elem_of_cons in Hn as [Hc Hn]. rewrite decide_False by done.
    rewrite IH; [by rewrite <-app_assoc|done|by destruct acc].
Qed.
Lemma decimal_no n c : in_u 64 n → is_digit c = false → c ∉ decimal_u64 n.
Proof.
  intros Hn Hc Hin. pose proof (decimal_digits 20 n ltac:(apply Hn)) as Hd.
  rewrite Forall_forall in Hd. by rewrite (Hd c Hin) in Hc.
Qed.
Lemma parse_text_line t : triple_ok t → parse_line (text_line t) = Ret t.
Proof.
  intros (H1 & H2 & H3). unfold parse_line, text_line, getlines. cbn [app].
  rewrite getlines_line by by apply decimal_no. cbn [app]. unfold getlines.
  rewrite getlines_line by by apply decimal_no. cbn [app]. unfold getlines.
  rewrite getlines_last; [|by apply decimal_no|apply decimal_cons].
  cbn [app foldM]. rewrite !stoul_decimal by done. by destruct t.
Qed.
Lemma text_line_no t : triple_ok t → newline ∉ text_line t.
Proof.
  intros (H1 & H2 & H3). unfold text_line. rewrite !not_elem_of_app, !list_elem_of_singleton.
  split_and!; by (apply decimal_no || done).
Qed.
Lemma getlines_text l : Forall triple_ok l → getlines newline (text_file l) = text_line <$> l.
Proof.
  induction 1 as [|t l Ht _ IH]; [done|]. unfold text_file. rewrite bind_cons, <-app_assoc.
  unfold getlines. cbn [app]. rewrite getlines_line by by apply text_line_no. cbn [app fmap list_fmap]. by f_equal.
Qed.

Section files.
Context `{Host}.

Lemma write_out_emits name (w : wr ()) bytes fs : writable name = true → emits w bytes () →
  write_out name w fs = Ret ((), <[name := bytes]> fs).
Proof. intros Hw Hb. unfold write_out. by rewrite (file_of_emits _ _ _ Hb), Hw. Qed.

(** The text of triples becomes a file of them. *)
Lemma convert_spec input output l fs : fs !! input = Some (text_file l) → input ≠ output →
  writable output = true → Forall triple_ok l →
  convert_triples_to_binary input output fs = Ret ((), <[output := triples_file l]> fs).
Proof.
  intros Hin Hne Hw Hl. unfold convert_triples_to_binary, open_out. rewrite Hw.
  rewrite lookup_insert_ne by done. rewrite Hin. cbn [default from_option id]. rewrite getlines_text by done.
  rewrite (write_out_emits _ _ (triples_file l)); [by rewrite insert_insert_eq|done|].
  unfold triples_file. rewrite length_fmap. eapply emits_bind; [apply emits_u64|].
  eapply emits_eq; [apply (emits_loop_unit _ (λ line, match parse_line line with Ret t => triple_bytes t | _ => [] end))| |done].
  - intros line (t & -> & Hin')%list_elem_of_fmap. rewrite Forall_forall in Hl.
    rewrite parse_text_line by by apply Hl. apply emits_triple.
  - clear Hin. induction Hl as [|t l Ht _ IH]; [done|]. cbn [fmap list_fmap].
    rewrite !bind_cons, parse_text_line by done. by f_equal.
Qed.

(** What the loops over the triples of a file write. *)
Lemma each_triple_emits (body : TripleValue → wr ()) (bytes : TripleValue → list Z) l : ∀ fd pre,
  (∀ t, t ∈ l → emits (body t) (bytes t) ()) → Forall triple_ok l → 0 ≤ current_triple fd →
  fd_size fd = current_triple fd + Z.of_nat (length l) → in_u 64 (fd_size fd) →
  emits (each_triple body (length l) fd (stream_at pre (l ≫= triple_bytes))) (l ≫= bytes) ().
Proof.
  induction l as [|t l IH]; intros fd pre Hb Hl Hc Hs Hu; cbn [each_triple length]; unfold finished.
  - rewrite bool_decide_true by (simpl in Hs; lia). apply emits_ret.
  - rewrite bool_decide_false by (simpl in Hs; lia). apply Forall_cons in Hl as [Ht Hl].
    rewrite read_triple_at by (done || unfold in_u in *; simpl in Hs; lia).
    change (emits (body t;; each_triple body (length l) (mkFileData (fd_size fd) (current_triple fd + 1))
      (stream_at (pre ++ triple_bytes t) (l ≫= triple_bytes))) ((t :: l) ≫= bytes) ()).
    rewrite bind_cons. eapply emits_bind; [apply Hb; by left|]. apply IH; simpl in *; try done; try lia.
    intros x Hx. apply Hb. by right.
Qed.

Lemma read_count_file l : in_u 64 (Z.of_nat (length l)) →
  read_u64 (get_reader (Some (triples_file l))) =
  Ret (Z.of_nat (length l), stream_at (be_encode 8 (Z.of_nat (length l))) (l ≫= triple_bytes)).
Proof.
  intros Hl. unfold triples_file.
  change (get_reader (Some (?a ++ ?b))) with (stream_at [] (a ++ b)).
  by rewrite (parses_at _ _ _ _ _ (parses_u64 _ Hl)).
Qed.

Lemma extract_spec input output l fs : fs !! input = Some (triples_file l) → input ≠ output →
  writable output = true → Forall triple_ok l → in_u 64 (Z.of_nat (length l)) →
  extract_triples_binary input output fs = Ret ((), <[output := text_file l]> fs).
Proof.
  intros Hin Hne Hw Hl Hlen. unfold extract_triples_binary, open_out. rewrite Hw, lookup_insert_ne, Hin by done.
  rewrite read_count_file by done. cbn [mbind outcome_bind]. rewrite Nat2Z.id.
  rewrite (write_out_emits _ _ (text_file l)); [by rewrite insert_insert_eq|done|].
  apply (each_triple_emits _ (λ t, text_line t ++ [newline])); simpl; [|done|lia|lia|done].
  intros t _. apply emits_write.
Qed.

(** C28: Text and binary files of triples are the same triples: converting a text and
    extracting the result gives the text again, and extracting a binary file and
    converting the result gives the file again. *)
Theorem text_roundtrip a b c l fs :
  a ≠ b → b ≠ c → writable b = true → writable c = true →
  Forall triple_ok l → in_u 64 (Z.of_nat (length l)) →
  (fs !! a = Some (text_file l) →
   (convert_triples_to_binary a b;; extract_triples_binary b c) fs =
   Ret ((), <[c := text_file l]> (<[b := triples_file l]> fs))) ∧
  (fs !! a = Some (triples_file l) →
   (extract_triples_binary a b;; convert_triples_to_binary b c) fs =
   Ret ((), <[c := triples_file l]> (<[b := text_file l]> fs))).
Proof.
  intros Hab Hbc Hb Hc Hl Hlen. split; intros Ha; unfold mbind, st_bind.
  - rewrite (convert_spec _ _ l) by done. apply extract_spec; try done. apply lookup_insert_eq.
  - rewrite (extract_spec _ _ l) by done. apply convert_spec; try done. apply lookup_insert_eq.
Qed.

(** The ids of the triples of a file. *)
Definition nodes_of (l : list TripleValue) : list Z := l ≫= λ t, [first t; second t; third t].
Lemma length_nodes_of l : length (nodes_of l) = (length l * 3)%nat.
Proof. induction l; [done|]. unfold nodes_of in *. rewrite bind_cons. simpl. lia. Qed.
Lemma nodes_of_bytes l : nodes_of l ≫= be_encode 8 = l ≫= triple_bytes.
Proof.
  induction l as [|t l IH]; [done|]. unfold nodes_of in *. rewrite !bind_cons, <-IH. unfold triple_bytes.
  cbn [app]. rewrite !bind_cons. by rewrite <-!app_assoc.
Qed.
Lemma elem_of_nodes_of x l : x ∈ nodes_of l ↔ ∃ t, t ∈ l ∧ (x = first t ∨ x = second t ∨ x = third t).
Proof.
  unfold nodes_of. rewrite list_elem_of_bind. setoid_rewrite elem_of_cons. setoid_rewrite elem_of_cons.
  setoid_rewrite list_elem_of_singleton. naive_solver.
Qed.
Lemma nodes_of_range l : Forall triple_ok l → Forall (in_u 64) (nodes_of l).
Proof.
  rewrite !Forall_forall. intros Hl x (t & Ht & Hx)%elem_of_nodes_of.
  destruct (Hl t Ht) as (? & ? & ?). by destruct Hx as [->|[->| ->]].
Qed.

Lemma longer_name (name suffix : string) : suffix ≠ "" → name +:+ suffix ≠ name.
Proof. intros Hs. induction name as [|c name IH]; [done|]. simpl. by intros [= ?]. Qed.

Lemma node_ids_spec `{ExternalSortLib, !ExternalSortLaws} params l fs :
  let output := p_output_file params in let tmp := output +:+ "-sorted" in
  fs !! p_input_file params = Some (triples_file l) → p_input_file params ≠ output →
  writable output = true → renamable tmp output = true → Forall triple_ok l →
  Z.of_nat (length l) * 3 < 2 ^ 64 → 0 < p_workers params →
  ∃ fs' ids, triples_to_sorted_node_ids params fs = Ret (0, fs') ∧
    fs' !! output = Some (ids_file ids) ∧ sorted_ids ids ∧ (∀ x, x ∈ ids ↔ x ∈ nodes_of l) ∧
    ∀ name, name ≠ output → name ≠ tmp → fs' !! name = fs !! name.
Proof.
  intros output tmp Hin Hne Hw Hren Hl Hlen Hwk. unfold triples_to_sorted_node_ids, open_out. fold output.
  rewrite Hin, Hw. rewrite lookup_insert_ne, Hin by done.
  rewrite read_count_file by (unfold in_u; lia). cbn [mbind outcome_bind].
  rewrite (u64_id (Z.of_nat (length l) * 3)) by (unfold in_u; lia). rewrite Nat2Z.id.
  rewrite (write_out_emits _ _ (ids_file (nodes_of l))); [|done|].
  2: { unfold ids_file. rewrite length_nodes_of, Nat2Z.inj_mul. eapply emits_bind; [apply emits_u64|].
    rewrite nodes_of_bytes. apply (each_triple_emits _ triple_bytes); simpl; [|done|lia|lia|unfold in_u; lia].
    intros t _. unfold triple_bytes. repeat (eapply emits_bind; [apply emits_u64|]). apply emits_u64. }
  assert (Htmp : output ≠ tmp) by (apply not_eq_sym; by apply longer_name).
  destruct (external_sort_law output tmp (path_join (parent_path output) "tmpdir") (p_workers params) 10
    (p_memory_budget params) 4096 (nodes_of l) (<[output := ids_file (nodes_of l)]> (<[output := []]> fs)))
    as (fs1 & ids & E & Hout & Hs & Hx & Hrest); [apply lookup_insert_eq|by apply nodes_of_range| |done|done|lia|lia|].
  { rewrite length_nodes_of. unfold in_u. lia. }
  cbn [mbind outcome_bind]. fold tmp. rewrite E. cbn [mbind outcome_bind]. unfold rename.
  rewrite lookup_delete_ne, Hout, Hren by done. eexists _, ids. split; [done|].
  split; [apply lookup_insert_eq|]. split; [done|]. split; [done|]. intros name Hn1 Hn2.
  rewrite lookup_insert_ne, !lookup_delete_ne, Hrest, !lookup_insert_ne by done. done.
Qed.

Lemma translate_spec input output nodes ids l fs :
  fs !! input = Some (triples_file l) → fs !! nodes = Some (ids_file ids) →
  input ≠ output → nodes ≠ output → writable output = true → Forall triple_ok l →
  in_u 64 (Z.of_nat (length l)) → in_u 64 (Z.of_nat (length ids)) → Forall (in_u 64) ids →
  translate_triples_to_nseq input output nodes fs =
  Ret (0, <[output := triples_file (translate_triple ids <$> l)]> fs).
Proof.
  intros Hin Hnodes Hne1 Hne2 Hw Hl Hlen Hids Hids'. unfold translate_triples_to_nseq, open_out.
  rewrite decide_False by by rewrite Hin. rewrite decide_False by by rewrite Hnodes. rewrite Hw.
  rewrite !lookup_insert_ne, Hin, Hnodes by done.
  change (get_reader (Some (ids_file ids))) with (stream_at [] (ids_file ids)).
  pose proof (parses_at _ _ _ [] [] (seq_parses ids Hids Hids')) as Hp. rewrite app_nil_r in Hp.
  unfold ids_file. rewrite Hp. cbn [mbind outcome_bind].
  rewrite read_count_file by done. cbn [mbind outcome_bind]. rewrite Nat2Z.id.
  rewrite (write_out_emits _ _ (triples_file (translate_triple ids <$> l))); [|done|].
  { cbn [mbind outcome_bind]. by rewrite insert_insert_eq. }
  unfold triples_file. rewrite length_fmap. eapply emits_bind; [apply emits_u64|].
  eapply emits_eq; [apply (each_triple_emits _ (λ t, triple_bytes (translate_triple ids t)))| |done];
    simpl; [|done|lia|lia|done|].
  - intros t _. apply emits_triple.
  - clear. induction l as [|t l IH]; [done|]. cbn [fmap list_fmap]. rewrite !bind_cons. by rewrite IH.
Qed.
End files.

(** ** The interface of the sorting library reads and writes those files *)

(** A client that takes [n] values. *)
Fixpoint read_values (n : nat) (r : Reader) : rd (list (bool * Z) * Reader) :=
  match n with
  | O => mret ([], r)
  | S n =>
      '(more, out, r) ← read_value r;
      '(values, r) ← read_values n r;
      mret ((more, out) :: values, r)
  end.
Lemma read_values_spec l : ∀ r pre post, Forall (in_u 64) l → 0 ≤ counter r →
  sz r = counter r + Z.of_nat (length l) → in_u 64 (sz r) →
  read_values (length l) r (stream_at pre ((l ≫= be_encode 8) ++ post)) =
  Ret (((λ x, (true, x)) <$> l, mkReader (sz r) (sz r)), stream_at (pre ++ (l ≫= be_encode 8)) post).
Proof.
  induction l as [|x l IH]; intros r pre post Hl Hc Hs Hr; cbn [read_values length].
  - simpl in *. rewrite app_nil_r. destruct r as [c z]. simpl in *. by replace c with z by lia.
  - apply Forall_cons in Hl as [Hx Hl]. rewrite bind_cons, <-app_assoc. unfold read_value, ul_read_value.
    unfold mbind, st_bind, mret, st_ret. rewrite (parses_at _ _ _ _ _ (parses_u64 _ Hx)).
    cbn [length] in Hs. rewrite Nat2Z.inj_succ in Hs. rewrite (u64_id (counter r + 1)) by (unfold in_u in *; lia).
    rewrite bool_decide_true by lia. rewrite IH; cbn [sz counter]; [by rewrite app_assoc|done|lia|lia|done].
Qed.

(** What [Writer] writes for a list of ids, the number of them known at the end, is the
    file of ids; and [Reader] gives back the ids of that file, one after the other, and
    then says that there are no more. *)
Theorem ids_file_codec l pre post : Forall (in_u 64) l → in_u 64 (Z.of_nat (length l) + 1) →
  (∃ w, (w ← new_Writer 0; loop (λ _ x, write_value w x) () l;; fix_headers w (Z.of_nat (length l)))
          (os_end pre) = Ret (w, os_end (pre ++ ids_file l))) ∧
  (∃ r s s' x, (r ← new_Reader; read_values (length l) r) (stream_at pre (ids_file l ++ post)) =
     Ret (((λ x, (true, x)) <$> l, r), s) ∧
   ∃ r', read_value r s = Ret ((false, x, r'), s')).
Proof.
  intros Hl Hn. assert (Hn' : in_u 64 (Z.of_nat (length l))) by (unfold in_u in *; lia). split.
  - eexists. unfold new_Writer, fix_headers, write_value, ul_write, tellp, seekp, mbind, st_bind, mret, st_ret.
    rewrite (emits_at _ _ _ _ (emits_u64 0)). cbn [header_pos].
    rewrite (emits_at _ _ _ _ (emits_loop_unit write_u64 (be_encode 8) l (λ x _, emits_u64 x))).
    unfold os_end at 1. cbn [os_pos os_data]. unfold os_end at 1. cbn [os_pos os_data]. unfold write_u64.
    rewrite <-(assoc_L (++) _ (be_encode 8 0)), os_write_patch by (by rewrite !length_be_encode).
    unfold os_end, ids_file. cbn [os_data]. do 3 f_equal. cbn [os_pos]. rewrite !length_app, !length_be_encode. lia.
  - unfold ids_file. unfold mbind at 1, st_bind at 1. unfold new_Reader. unfold mbind at 1, st_bind at 1.
    rewrite <-app_assoc, (parses_at _ _ _ _ _ (parses_u64 _ Hn')). unfold mret at 1, st_ret at 1.
    rewrite read_values_spec by (simpl; done || lia || unfold in_u in *; lia).
    set (s := stream_at ((pre ++ be_encode 8 (Z.of_nat (length l))) ++ (l ≫= be_encode 8)) post).
    destruct (read_u64 s) as [[x s']| |] eqn:E.
    + eexists _, s, s', x. split; [done|]. unfold read_value, ul_read_value, mbind, st_bind. cbn [sz counter]. rewrite E.
      rewrite u64_id by done. rewrite bool_decide_false by lia. by eexists.
    + unfold read_u64, read_zeroed in E. by destruct (is_read _ _).
    + unfold read_u64, read_zeroed in E. by destruct (is_read _ _).
Qed.

(** ** From the text of triples to an index *)

(** Positions in the sequence of ids. *)
Lemma seq_get_id_at ids x : sorted_ids ids → Z.of_nat (length ids) < u64_max → x ∈ ids →
  ∃ i, seq_get_id ids x = Z.of_nat i ∧ ids !! i = Some x ∧ (i < length ids)%nat.
Proof.
  intros Hs Hl (i & Hi)%list_elem_of_lookup. pose proof (lookup_lt_Some _ _ _ Hi) as Hlt.
  exists i. split; [|done]. apply (seq_get_id_correct ids x (Z.of_nat i)); [done|done|lia|]. by rewrite Nat2Z.id.
Qed.
Lemma seq_get_id_inj ids x y : sorted_ids ids → Z.of_nat (length ids) < u64_max → x ∈ ids → y ∈ ids →
  seq_get_id ids x = seq_get_id ids y → x = y.
Proof.
  intros Hs Hl Hx Hy E. destruct (seq_get_id_at ids x Hs Hl Hx) as (i & Ei & Hi & _).
  destruct (seq_get_id_at ids y Hs Hl Hy) as (j & Ej & Hj & _). assert (i = j) as -> by lia. congruence.
Qed.
Lemma sorted_ids_NoDup ids : sorted_ids ids → NoDup ids.
Proof.
  induction 1 as [|x ids _ IH Hx]; constructor; [|done]. rewrite Forall_forall in Hx. intros Hin.
  specialize (Hx x Hin). lia.
Qed.
Lemma strict_sorted l : NoDup l → StronglySorted Z.le l → sorted_ids l.
Proof.
  intros Hnd Hs. induction Hs as [|x l Hs IH Hx]; constructor; apply NoDup_cons in Hnd as [Hn Hnd].
  - by apply IH.
  - rewrite Forall_forall in *. intros y Hy. specialize (Hx y Hy).
    assert (x ≠ y) by (by intros ->). lia.
Qed.

Section ingest.
Context `{Host, ExternalSortLib, StdAlgorithms, PoolSchedule, Heap, BlockLib, K2Lib, OpenSSL}.

(** The programs one after the other; [None]: out of fuel. *)
Definition ingest (fuel : nat) (text bin nodes translated sorted tmp_dir index : string)
    (workers memory : Z) (config : K2TreeConfig) : st files (option ()) :=
  convert_triples_to_binary text bin;;
  _ ← triples_to_sorted_node_ids (mkParams bin nodes workers memory);
  _ ← translate_triples_to_nseq bin translated nodes;
  r ← triple_external_sort fuel translated sorted tmp_dir workers memory;
  match r with
  | None => mret None
  | Some _ => build_k2tree_index fuel sorted index config
  end.
End ingest.

(** The trees of the triples fit the format. *)
Definition trees_fit `{BlockLib, K2Lib} (config : K2TreeConfig) (out : list TripleValue) : Prop :=
  Forall (λ g, let t := (group_tree config g).2 in tm_wf t ∧ in_u 64 (Z.of_nat (tm_mem t)) ∧
             in_u 64 (Z.of_nat (length (tree_bytes t)))) (groups (to_rdf <$> out)).

(** What the triples [l] have to satisfy: they are few enough for the sizes to fit, and
    so are their ids and trees for the configuration; and the files are different. *)
Record ingest_input `{Host, BlockLib, K2Lib} (text bin nodes translated sorted tmp_dir index : string)
    (workers memory : Z) (config : K2TreeConfig) (l : list TripleValue) (fs : files) : Prop := {
  in_text : fs !! text = Some (text_file l);
  in_some : l ≠ [];
  in_triples : Forall triple_ok l;
  in_count : Z.of_nat (length l) * 3 < u64_max;
  in_workers : 0 < workers < 2 ^ 31;
  in_memory : 0 ≤ memory;
  in_names : NoDup [text; bin; nodes; nodes +:+ "-sorted"; translated; sorted];
  in_index : index ∉ [sorted; nodes] ∧ index +:+ ".tmp" ≠ nodes;
  in_files : ∀ name, writable name = true;
  in_rename : ∀ name, renamable name sorted = true ∧ renamable name nodes = true;
  in_parts : ∀ i, part_name translated tmp_dir i ≠ nodes;
  in_mkstemp : mkstemp_works tmp_dir;
  in_fit : parts_fit (mem_budget_bound memory 10000000) (length l) 10;
  in_config : config_wf config;
  in_ids : Z.of_nat (base.size (list_to_set (nodes_of l) : gset Z)) ≤ 2 ^ st_tree_depth (config_qw config);
  in_trees : ∀ ids out, sorted_ids ids → (∀ x, x ∈ ids ↔ x ∈ nodes_of l) →
    out ≡ₚ translate_triple ids <$> l → PriorityQueue.sorted Comparator out → trees_fit config out
}.

(** The ids and the translated triples. *)
Section translated.
Context (l : list TripleValue) (ids : list Z) (Hs : sorted_ids ids) (Hids : ∀ x, x ∈ ids ↔ x ∈ nodes_of l).

Lemma ids_count : length ids = base.size (list_to_set (nodes_of l) : gset Z).
Proof.
  assert ((list_to_set (nodes_of l) : gset Z) = list_to_set ids) as ->
    by (apply set_eq; intros x; by rewrite !elem_of_list_to_set, Hids).
  symmetry. apply size_list_to_set. by apply sorted_ids_NoDup.
Qed.
Lemma ids_length : (length ids ≤ length l * 3)%nat.
Proof.
  rewrite <-length_nodes_of. apply submseteq_length, NoDup_submseteq; [by apply sorted_ids_NoDup|].
  intros x. by rewrite Hids.
Qed.
Hypothesis Hl : Z.of_nat (length l) * 3 < u64_max.
Lemma ids_few : Z.of_nat (length ids) < u64_max.
Proof. pose proof ids_length. lia. Qed.

Lemma translated_bounds t : t ∈ l →
  let t' := translate_triple ids t in let n := Z.of_nat (length ids) in
  0 ≤ first t' < n ∧ 0 ≤ second t' < n ∧ 0 ≤ third t' < n.
Proof.
  intros Ht. assert (Hb : ∀ x, x ∈ nodes_of l → 0 ≤ seq_get_id ids x < Z.of_nat (length ids)).
  { intros x Hx. apply Hids in Hx. destruct (seq_get_id_at ids x Hs ids_few Hx) as (i & -> & _ & ?). lia. }
  simpl. split_and!; apply Hb, elem_of_nodes_of; exists t; tauto.
Qed.
Lemma translated_input `{BlockLib, K2Lib} config out : config_wf config →
  Z.of_nat (length ids) ≤ 2 ^ st_tree_depth (config_qw config) →
  out ≡ₚ translate_triple ids <$> l → PriorityQueue.sorted Comparator out → trees_fit config out → build_input config out.
Proof.
  intros Hc Hd Hp Hsort Htrees. pose proof ids_few as Hfew. unfold u64_max in *. constructor; try done.
  - rewrite Hp, Forall_fmap, Forall_forall. intros t Ht. pose proof (translated_bounds t Ht).
    unfold compose, triple_ok, in_u. simpl in *. lia.
  - rewrite Hp, length_fmap. unfold in_u. lia.
  - rewrite Hp, Forall_fmap, Forall_forall. intros t Ht. pose proof (translated_bounds t Ht).
    unfold compose, in_coords. simpl in *. lia.
Qed.

Lemma translated_points out s p o : out ≡ₚ translate_triple ids <$> l → s ∈ ids → p ∈ ids → o ∈ ids →
  (seq_get_id ids s, seq_get_id ids o) ∈ points_of (seq_get_id ids p) out ↔ mkTriple s p o ∈ l.
Proof.
  intros Hp Hs' Hp' Ho'. unfold points_of. rewrite elem_of_list_to_set, list_elem_of_fmap. split.
  - intros (t & E & [Et Ht]%list_elem_of_filter). rewrite Hp, list_elem_of_fmap in Ht.
    destruct Ht as (u & -> & Hu). injection E as Es Eo. simpl in *.
    assert (Hin : first u ∈ ids ∧ second u ∈ ids ∧ third u ∈ ids)
      by (rewrite !Hids; split_and!; apply elem_of_nodes_of; exists u; tauto).
    destruct Hin as (H1 & H2 & H3).
    apply seq_get_id_inj in Es, Eo, Et; try done; try apply ids_few. subst. by destruct u.
  - intros Hin. exists (translate_triple ids (mkTriple s p o)). split; [done|]. apply list_elem_of_filter.
    split; [done|]. rewrite Hp. by apply list_elem_of_fmap_2.
Qed.
End translated.

Section ingest_correct.
Context `{Hst : Host, Lib1 : ExternalSortLib, !ExternalSortLaws, StdAlgorithmsLaws, PoolScheduleRuns}.
Context `{Heap, BlockLib, !BlockLibLaws, Lib : K2Lib, !K2LibLaws, Ssl : OpenSSL, !OpenSSLLaws, !MeasureLaws}.

(** The last program. *)
Lemma build_index_spec fuel input index config out fs : fs !! input = Some (triples_file out) →
  input ≠ index → writable index = true → build_input config out → (length out ≤ fuel)%nat →
  ∃ data, build_k2tree_index fuel input index config fs =
      Ret (Some (), delete (index +:+ ".tmp") (<[index := data]> fs)) ∧
    (Z.of_nat (length data) < 2 ^ 63 → ∀ mm, ∃ i, new_PredicatesIndexCacheMD (Some data) mm = Ret i ∧
       index_ok data i ∧ NoDup (get_predicates_ids i) ∧
       ∀ p, main_points data i p = if decide (p ∈ second <$> out) then Some (points_of p out) else None).
Proof.
  intros Hin Hne Hw Hb Hf. destruct (build_spec config out fuel Hb Hf) as (m & data & E & Hnd & Hopen).
  exists data. split.
  2: { intros HD mm. destruct (Hopen HD mm) as (i & Ei & Hm & Hi). exists i. unfold get_predicates_ids.
       rewrite Hm. by destruct Hi. }
  unfold build_k2tree_index, open_out. rewrite Hin, Hw, lookup_insert_ne, Hin by done.
  unfold file_of at 1. change (OStream [] 0) with (os_end []). rewrite E. cbn [mbind outcome_bind os_data os_end].
  rewrite (write_out_emits index _ data); [|done|apply emits_write].
  cbn [mbind outcome_bind]. by rewrite insert_insert_eq.
Qed.

(** The programs before the sort. *)
Lemma ingest_front text bin nodes translated sorted tmp_dir index workers memory config l fs :
  ingest_input text bin nodes translated sorted tmp_dir index workers memory config l fs →
  ∃ fs3 ids, (∀ k : st files (option ()),
      (convert_triples_to_binary text bin;;
       _ ← triples_to_sorted_node_ids (mkParams bin nodes workers memory);
       _ ← translate_triples_to_nseq bin translated nodes; k) fs = k fs3) ∧
    fs3 !! translated = Some (triples_file (translate_triple ids <$> l)) ∧
    fs3 !! nodes = Some (ids_file ids) ∧ sorted_ids ids ∧ ∀ x, x ∈ ids ↔ x ∈ nodes_of l.
Proof.
  intros [Hin Hne Hl Hcount Hwk Hmem Hnames _ Hw Hren _ _ _ _ _ _].
  rewrite !NoDup_cons, !not_elem_of_cons in Hnames. destruct_and!.
  assert (Hu : Z.of_nat (length l) * 3 < 2 ^ 64) by (unfold u64_max in Hcount; lia).
  set (fs1 := <[bin := triples_file l]> fs).
  destruct (node_ids_spec (mkParams bin nodes workers memory) l fs1) as (fs2 & ids & E2 & Hn2 & Hs & Hx & Hrest2);
    simpl in *; [apply lookup_insert_eq|done|done|apply Hren|done|lia|lia|].
  exists (<[translated := triples_file (translate_triple ids <$> l)]> fs2), ids.
  pose proof (ids_length l ids Hs Hx) as Hlen. split; [intros k|].
  - unfold mbind at 1, st_bind at 1. rewrite (convert_spec _ _ l) by done. fold fs1.
    unfold mbind at 1, st_bind at 1. rewrite E2. unfold mbind, st_bind.
    rewrite (translate_spec _ _ _ ids l); try done.
    + by rewrite Hrest2; [apply lookup_insert_eq|..].
    + by unfold in_u; lia.
    + by unfold in_u; lia.
    + apply Forall_forall. intros x Hin'. apply Hx in Hin'. by eapply Forall_forall in Hin'; [|by apply nodes_of_range].
  - rewrite lookup_insert_eq, lookup_insert_ne by done. done.
Qed.

Lemma ingest_spec text bin nodes translated sorted tmp_dir index workers memory config l fs :
  ingest_input text bin nodes translated sorted tmp_dir index workers memory config l fs →
  ∃ k, ∀ fuel, (k ≤ S fuel)%nat → (length l ≤ fuel)%nat → ∃ fs' ids data,
    ingest fuel text bin nodes translated sorted tmp_dir index workers memory config fs = Ret (Some (), fs') ∧
    fs' !! nodes = Some (ids_file ids) ∧ sorted_ids ids ∧ (∀ x, x ∈ ids ↔ x ∈ nodes_of l) ∧
    fs' !! index = Some data ∧
    (Z.of_nat (length data) < 2 ^ 63 → ∀ mm, ∃ i, new_PredicatesIndexCacheMD (Some data) mm = Ret i ∧
       index_ok data i ∧ ∀ s p o, s ∈ ids → p ∈ ids → o ∈ ids →
         (seq_get_id ids s, seq_get_id ids o) ∈ default ∅ (main_points data i (seq_get_id ids p)) ↔
         mkTriple s p o ∈ l).
Proof.
  intros Hin. destruct (ingest_front _ _ _ _ _ _ _ _ _ _ _ _ Hin) as (fs3 & ids & E3 & Htr & Hn & Hs & Hx).
  destruct Hin as [_ Hne Hl Hcount Hwk Hmem Hnames [Hidx Htmp] Hw Hren Hparts Hmk Hfit Hc Hids Htrees].
  rewrite !NoDup_cons, !not_elem_of_cons in Hnames. rewrite !not_elem_of_cons in Hidx. destruct_and!.
  pose proof (ids_few l ids Hs Hx Hcount) as Hfew. rewrite <-(ids_count l ids Hs Hx) in Hids.
  destruct (external_sort_spec Comparator translated sorted tmp_dir workers 10 memory 8192 10000000
    (translate_triple ids <$> l) (<[sorted := []]> fs3)) as [k Hsort]; [|by destruct l|lia|].
  { constructor; try done; try lia.
    - by rewrite lookup_insert_ne.
    - rewrite Forall_fmap, Forall_forall. intros t Ht. pose proof (translated_bounds l ids Hs Hx Hcount t Ht).
      unfold compose, triple_ok, in_u, u64_max in *. simpl in *. lia.
    - by rewrite length_fmap.
    - intros name. apply Hren. }
  exists k. intros fuel Hk Hfuel. destruct (Hsort fuel Hk) as (out & E4 & Hp & Hso).
  destruct (build_index_spec fuel sorted index config out (<[sorted := triples_file out]>
    (without (parts translated tmp_dir k) (<[sorted := []]> fs3)))) as (data & E5 & Hopen).
  { apply lookup_insert_eq. } { done. } { done. }
  { apply (translated_input l ids Hs Hx Hcount); [done..|by eapply Htrees]. }
  { by rewrite Hp, length_fmap. }
  eexists _, ids, data. split; [|split; [|split; [done|split; [done|split]]]].
  - unfold ingest. rewrite E3. unfold triple_external_sort, open_out, mbind, st_bind. rewrite Hw, E4. exact E5.
  - rewrite lookup_delete_ne, !lookup_insert_ne by done. rewrite lookup_without_ne; [by rewrite lookup_insert_ne by done|].
    unfold parts. intros (j & E & _)%list_elem_of_fmap. by destruct (Hparts (Z.of_nat j)).
  - rewrite lookup_delete_ne by by apply longer_name. apply lookup_insert_eq.
  - intros HD mm. destruct (Hopen HD mm) as (i & Ei & Hi & _ & Hpts). exists i. split; [done|]. split; [done|].
    intros s p o Hs' Hp' Ho'. rewrite <-(translated_points l ids Hs Hx Hcount out s p o) by done. rewrite Hpts.
    case_decide as Hd; simpl; [done|]. split; [set_solver|]. intros Hq. destruct Hd.
    unfold points_of in Hq. apply elem_of_list_to_set, list_elem_of_fmap in Hq as (t & _ & [<- Ht]%list_elem_of_filter).
    by apply list_elem_of_fmap_2.
Qed.

(** The programs make, from a text of triples, the files of a server: a sorted file
    of the ids in the triples, and an index file that opens. In that index the tree of
    a predicate has the points of exactly the triples of the text, at the positions of
    their ids. *)
Theorem ingest_correct text bin nodes translated sorted tmp_dir index workers memory config l fs :
  ingest_input text bin nodes translated sorted tmp_dir index workers memory config l fs →
  ∃ k, ∀ fuel, (k ≤ S fuel)%nat → (length l ≤ fuel)%nat → ∃ fs' ids data,
    ingest fuel text bin nodes translated sorted tmp_dir index workers memory config fs = Ret (Some (), fs') ∧
    fs' !! nodes = Some (ids_file ids) ∧ sorted_ids ids ∧ (∀ x, x ∈ ids ↔ x ∈ nodes_of l) ∧
    fs' !! index = Some data ∧
    (Z.of_nat (length data) < 2 ^ 63 → ∀ mm, ∃ i, new_PredicatesIndexCacheMD (Some data) mm = Ret i ∧
       index_ok data i ∧ ∀ s p o, s ∈ ids → p ∈ ids → o ∈ ids →
         (seq_get_id ids s, seq_get_id ids o) ∈ default ∅ (main_points data i (seq_get_id ids p)) ↔
         mkTriple s p o ∈ l).
Proof. apply ingest_spec. Qed.
End ingest_correct.

(** ** Instances of the theorems *)
Section witnesses.
#[local] Existing Instance toy_block_lib.
#[local] Existing Instance toy_block_laws.
#[local] Existing Instance Toy.toy_k2_lib.
#[local] Existing Instance toy_measure_laws.
#[local] Existing Instance toy_openssl.
#[local] Existing Instance toy_openssl_laws.
#[local] Existing Instance toy_heap.

(** A library that sorts the file in memory. *)
#[local] Instance toy_sort_lib : ExternalSortLib :=
  λ input_file output_file _ _ _ _ _ _ fs,
    '(l, _) ← seq_from_input_stream (get_reader (fs !! input_file));
    Ret ((), <[output_file := ids_file (merge_sort Z.le (elements (list_to_set l : gset Z)))]> fs).
#[local] Instance toy_sort_laws : ExternalSortLaws.
Proof.
  intros input output tmp workers maxf mem block l fs Hin Hl Hlen Hne _ _ _.
  set (s := list_to_set l : gset Z). exists (<[output := ids_file (merge_sort Z.le (elements s))]> fs), (merge_sort Z.le (elements s)).
  split_and!.
  - unfold external_sort_ids, toy_sort_lib. rewrite Hin.
    change (get_reader (Some (ids_file l))) with (stream_at [] (ids_file l)).
    pose proof (parses_at _ _ _ [] [] (seq_parses l Hlen Hl)) as Hp. rewrite app_nil_r in Hp.
    fold (ids_file l) in Hp. by rewrite Hp.
  - apply lookup_insert_eq.
  - apply strict_sorted; [rewrite merge_sort_Permutation; apply NoDup_elements|].
    apply (StronglySorted_merge_sort Z.le).
  - intros x. rewrite merge_sort_Permutation, elem_of_elements. apply elem_of_list_to_set.
  - intros name Hname. by rewrite lookup_insert_ne.
Qed.

Definition toy_lines : list TripleValue := [mkTriple 10 5 30; mkTriple 30 7 10].
Definition toy_text : files := <["in" := text_file toy_lines]> ∅.
Example toy_text_bytes : text_file [mkTriple 10 5 30] = [49; 48; 44; 53; 44; 51; 48; 10].
Proof. reflexivity. Qed.

Lemma text_roundtrip_witness :
  toy_text !! "in" = Some (text_file toy_lines) ∧
  (convert_triples_to_binary "in" "bin";; extract_triples_binary "bin" "out") toy_text =
  Ret ((), <["out" := text_file toy_lines]> (<["bin" := triples_file toy_lines]> toy_text)).
Proof.
  split; [done|]. refine (proj1 (text_roundtrip "in" "bin" "out" toy_lines toy_text _ _ _ _ _ _) _); try done.
  repeat constructor; done.
Defined.

(** Bad lines: a field that is no number, one too many, one too few. *)
Example bad_lines :
  parse_line [49; 44; 120; 44; 50] = Throw StdInvalidArgument ∧
  parse_line [49; 44; 49; 44; 49; 44; 49] = UB ∧ parse_line [49; 44; 49] = UB.
Proof. done. Qed.

Lemma toy_ids ids : sorted_ids ids → (∀ x, x ∈ ids ↔ x ∈ nodes_of toy_lines) → ids = [5; 7; 10; 30].
Proof.
  intros Hs Hx. assert (AntiSymm (=) Z.lt) by (intros x y; lia).
  apply (StronglySorted_unique Z.lt); [done|repeat constructor|].
  apply NoDup_Permutation; [by apply sorted_ids_NoDup|by apply (bool_decide_unpack _); vm_compute|].
  intros x. rewrite Hx. unfold nodes_of, toy_lines. simpl. set_solver.
Qed.
Lemma toy_trees ids out : sorted_ids ids → (∀ x, x ∈ ids ↔ x ∈ nodes_of toy_lines) →
  out ≡ₚ translate_triple ids <$> toy_lines → PriorityQueue.sorted Comparator out → trees_fit (mkConfig 8 256 1) out.
Proof.
  intros Hs Hx Hp Hso. rewrite (toy_ids ids Hs Hx) in Hp.
  change (translate_triple [5; 7; 10; 30] <$> toy_lines) with [mkTriple 2 0 3; mkTriple 3 1 2] in Hp.
  symmetry in Hp. apply Permutation_length_2_inv in Hp as [-> | ->].
  - unfold trees_fit.
    change (groups (to_rdf <$> [mkTriple 2 0 3; mkTriple 3 1 2])) with [(0, [(2, 3)]); (1, [(3, 2)])].
    constructor; [|constructor; [|constructor]]; (split; [|computed]).
    + apply (one_leaf_wf [2; 3] 1); [repeat constructor|..]; computed.
    + apply (one_leaf_wf [3; 2] 1); [repeat constructor|..]; computed.
  - apply StronglySorted_inv in Hso as [_ Hso]. by apply Forall_cons in Hso as [Hso _].
Qed.
Lemma toy_ingest_input :
  ingest_input "in" "bin" "ids" "tr" "sorted" "tmp" "index" 2 1000000000 (mkConfig 8 256 1) toy_lines toy_text.
Proof.
  constructor; try done; try lia.
  - repeat constructor; done.
  - by apply (bool_decide_unpack _); vm_compute.
  - split; [by apply (bool_decide_unpack _); vm_compute|done].
  - apply toy_mkstemp.
  - apply toy_trees.
Qed.
Lemma ingest_correct_witness :
  ∃ k, ∀ fuel, (k ≤ S fuel)%nat → (length toy_lines ≤ fuel)%nat → ∃ fs' ids data,
    ingest fuel "in" "bin" "ids" "tr" "sorted" "tmp" "index" 2 1000000000 (mkConfig 8 256 1) toy_text =
      Ret (Some (), fs') ∧
    fs' !! "ids" = Some (ids_file ids) ∧ sorted_ids ids ∧ (∀ x, x ∈ ids ↔ x ∈ nodes_of toy_lines) ∧
    fs' !! "index" = Some data ∧
    (Z.of_nat (length data) < 2 ^ 63 → ∀ mm, ∃ i, new_PredicatesIndexCacheMD (Some data) mm = Ret i ∧
       index_ok data i ∧ ∀ s p o, s ∈ ids → p ∈ ids → o ∈ ids →
         (seq_get_id ids s, seq_get_id ids o) ∈ default ∅ (main_points data i (seq_get_id ids p)) ↔
         mkTriple s p o ∈ toy_lines).
Proof. apply (ingest_correct "in" "bin" "ids" "tr" "sorted" "tmp"). exact toy_ingest_input. Defined.
End witnesses.
