(* ===== verification/RandomData.v ===== *)
(** * core/util_algorithms: random choices and random datasets

    [fisher_yates] chooses distinct numbers with a partial shuffle that is never written
    out; [generate_random_dataset] makes the index file and the ids of a random dataset
    with it, through the feed of trees that the builder takes. The sources of randomness
    are a parameter. *)
From S2P Require Import Prelude Streams Memory Blocks K2Tree Scanners Hashing NodeIds PriorityQueue TripleSort.
From S2P Require Import PredicatesIndex Builder Ingest.

Local Open Scope Z_scope.

(** [std::rand] and [std::uniform_int_distribution] on the generator of
    [random_generate]. *)
Class RandomSource (R : Type) := {
  std_rand : R → Z * R;
  random_generate : Z → Z → R → Z * R
}.
Class RandomSourceLaws (R : Type) `{RandomSource R} : Prop := {
  std_rand_range r : 0 ≤ (std_rand r).1 < 2 ^ 31;
  random_generate_range start end_ r : start ≤ end_ → start ≤ (random_generate start end_ r).1 ≤ end_
}.

(** ** core/util_algorithms/fisher_yates.cpp *)

Section fisher_yates.
Context {R : Type} `{RandomSource R}.

Definition fisher_yates_step (choice_set_size : Z) (state : gmap Z Z) (i : Z) : st R (gmap Z Z) := λ r,
  let '(v, r) := std_rand r in
  let left := u64 (choice_set_size - i) in
  if decide (left = 0) then UB
  else
    let random_number := u64 (v mod left + i) in
    let which_rand := default random_number (state !! random_number) in
    let which_i := default i (state !! i) in
    Ret (<[random_number := which_i]> (<[i := which_rand]> state), r).

(** The second loop reads with [operator[]], which gives zero for an absent key. *)
Definition fisher_yates (result_size choice_set_size : Z) : st R (list Z) :=
  let indices := Z.of_nat <$> seq 0 (Z.to_nat result_size) in
  state ← loop (fisher_yates_step choice_set_size) ∅ indices;
  mret ((λ i, u64 (default 0 (state !! i) + 1)) <$> indices).
End fisher_yates.

(** ** core/util_algorithms/random_dataset_generation.cpp *)

(** [K2TreeFeedRandom], with the generator it draws from. *)
Record K2TreeFeedRandom (R : Type) := mkRFeed {
  triples_per_predicate : Z;
  remaining : Z;
  node_ids_sz : Z;
  rf_predicates : list Z;
  rf_config : K2TreeConfig;
  pred_cnt : Z;
  generator : R
}.
#[global] Arguments mkRFeed {R}.
#[global] Arguments triples_per_predicate {R}.
#[global] Arguments remaining {R}.
#[global] Arguments node_ids_sz {R}.
#[global] Arguments rf_predicates {R}.
#[global] Arguments rf_config {R}.
#[global] Arguments pred_cnt {R}.
#[global] Arguments generator {R}.

Section random_data.
Context {R : Type} `{RandomSource R} `{BlockLib, K2Lib, OpenSSL}.

(** [do ... while (!was_inserted)]; [None]: out of fuel. *)
Fixpoint insert_new_point (fuel : nat) (node_ids_sz : Z) (op : K2TreeBulkOp) (r : R)
    : option (K2TreeBulkOp * R) :=
  match fuel with
  | O => None
  | S fuel =>
      let '(col, r) := random_generate 0 (u64 (node_ids_sz - 1)) r in
      let '(row, r) := random_generate 0 (u64 (node_ids_sz - 1)) r in
      let '(was_inserted, op) := bulk_insert_was_inserted col row op in
      if (was_inserted : bool) then Some (op, r) else insert_new_point fuel node_ids_sz op r
  end.
Fixpoint insert_new_points (fuel : nat) (n : nat) (node_ids_sz : Z) (op : K2TreeBulkOp) (r : R)
    : option (K2TreeBulkOp * R) :=
  match n with
  | O => Some (op, r)
  | S n =>
      match insert_new_point fuel node_ids_sz op r with
      | None => None
      | Some (op, r) => insert_new_points fuel n node_ids_sz op r
      end
  end.
Definition random_insert_n_points (fuel : nat) (points_num node_ids_sz : Z) (op : K2TreeBulkOp) (r : R)
    : option (K2TreeBulkOp * R) := insert_new_points fuel (Z.to_nat points_num) node_ids_sz op r.

Definition random_has_next (f : K2TreeFeedRandom R) : bool :=
  bool_decide (pred_cnt f < Z.of_nat (length (rf_predicates f))).
Definition random_get_next (fuel : nat) (f : K2TreeFeedRandom R)
    : outcome (option (K2TreeContainer * K2TreeFeedRandom R)) :=
  let op := new_bulk (new_K2TreeMixed (rf_config f)) in
  match random_insert_n_points fuel (triples_per_predicate f) (node_ids_sz f) op (generator f) with
  | None => Ret None
  | Some (op, r) =>
      let more :=
        if decide (u64 (pred_cnt f + 1) = Z.of_nat (length (rf_predicates f)))
        then random_insert_n_points fuel (remaining f) (node_ids_sz f) op r else Some (op, r) in
      match more with
      | None => Ret None
      | Some (op, r) =>
          predicate ← deref (rf_predicates f !! Z.to_nat (pred_cnt f));
          Ret (Some (mkContainer predicate (Some (bulk_tree op)),
                     mkRFeed (triples_per_predicate f) (remaining f) (node_ids_sz f) (rf_predicates f)
                       (rf_config f) (u64 (pred_cnt f + 1)) r))
      end
  end.
#[global] Instance random_feed : K2TreesFeed (K2TreeFeedRandom R) := {|
  k2feed_has_next := random_has_next;
  k2feed_get_next := random_get_next
|}.

(** What [generate_random_dataset] chooses: the ids of the resources, and the positions
    that are predicates. *)
Definition choose_resources (resources_num : Z) : st R (list Z * list Z) :=
  node_ids ← fisher_yates resources_num (2 ^ 63);
  let node_ids := merge_sort Z.le node_ids in
  let predicates_count :=
    if decide (10 < Z.of_nat (length node_ids)) then Z.of_nat (length node_ids) / 10 else 1 in
  predicate_ids_selection ← fisher_yates predicates_count (Z.of_nat (length node_ids));
  mret (node_ids, merge_sort Z.le predicate_ids_selection).

(** The bytes of the index file and of the file of ids; [None]: out of fuel. *)
Definition generate_random_dataset (fuel : nat) (config : K2TreeConfig) (triples_num resources_num : Z)
    (r : R) : outcome (option (list Z * list Z)) :=
  '((node_ids, predicate_ids_selection), r) ← choose_resources resources_num r;
  let predicates := Z.of_nat (length predicate_ids_selection) in
  if decide (predicates = 0) then UB
  else
    let feed := mkRFeed (triples_num / predicates) (triples_num mod predicates)
                  (Z.of_nat (length node_ids)) predicate_ids_selection config 0 r in
    '(m, trees) ← file_of (build_with_k2tree_feed fuel feed (os_end []) config);
    match m with
    | None => Ret None
    | Some _ =>
        '(_, nodeids) ← file_of (seq_serialize node_ids);
        Ret (Some (trees, nodeids))
    end.

(** Random triples as text. *)
Definition make_concrete_resource (prefix : list Z) (resource_id : Z) : list Z :=
  [60] ++ prefix ++ decimal_u64 resource_id ++ [62].
Definition nt_line (prefix predicate : list Z) (p : Z * Z) : list Z :=
  make_concrete_resource prefix p.1 ++ [32] ++ predicate ++ [32] ++ make_concrete_resource prefix p.2 ++
  [32; 46; newline].
Definition nt_config : K2TreeConfig := mkConfig 32 128 10.

Fixpoint nt_predicates (fuel : nat) (points_per_predicate resources_num : Z) (prefix : list Z)
    (resources predicates_pos : list Z) (indices : list nat) (output : list Z) (r : R)
    : outcome (option (list Z)) :=
  match indices with
  | [] => Ret (Some output)
  | i :: indices =>
      match random_insert_n_points fuel points_per_predicate resources_num
              (new_bulk (new_K2TreeMixed nt_config)) r with
      | None => Ret None
      | Some (bulk_op, r) =>
          let scanner := create_full_scanner (bulk_tree bulk_op) in
          pos ← deref (predicates_pos !! i);
          resource ← deref (resources !! Z.to_nat pos);
          let predicate := make_concrete_resource prefix resource in
          m ← while_scan fuel (λ output p, Ret (output ++ nt_line prefix predicate p)) output scanner;
          match m with
          | None => Ret None
          | Some output =>
              nt_predicates fuel points_per_predicate resources_num prefix resources predicates_pos
                indices output r
          end
      end
  end.
Definition random_nt_data_generate (fuel : nat) (triples_num resources_num : Z) (prefix : list Z) (r : R)
    : outcome (option (list Z)) :=
  '(resources, r) ← fisher_yates resources_num resources_num r;
  let points_per_predicate := triples_num / 20 in
  if decide (points_per_predicate = 0) then UB
  else
    let predicates_count := triples_num / points_per_predicate in
    '(predicates_pos, r) ← fisher_yates predicates_count (Z.of_nat (length resources)) r;
    nt_predicates fuel points_per_predicate resources_num prefix resources predicates_pos
      (seq 0 (Z.to_nat predicates_count)) [] r.
End random_data.

(** ** fisher_yates chooses distinct numbers *)

(** The shuffle the state stands for: positions that are not in it are where they were. *)
Definition shuffled (state : gmap Z Z) (x : Z) : Z := default x (state !! x).

Section shuffle.
Context {R : Type} `{RandomSource R, !RandomSourceLaws R}.

Record shuffle_ok (n choice_set_size : Z) (state : gmap Z Z) : Prop := {
  sh_inj x y : shuffled state x = shuffled state y → x = y;
  sh_range x : 0 ≤ x < choice_set_size → 0 ≤ shuffled state x < choice_set_size;
  sh_done j : 0 ≤ j < n → is_Some (state !! j)
}.

(** A step exchanges two positions. *)
Lemma shuffled_swap state i j x :
  shuffled (<[j := shuffled state i]> (<[i := shuffled state j]> state)) x =
  shuffled state (if decide (x = j) then i else if decide (x = i) then j else x).
Proof.
  unfold shuffled at 1. rewrite lookup_insert. case_decide as Hj; [subst j; by rewrite decide_True|].
  rewrite decide_False by congruence. rewrite lookup_insert. case_decide as Hi.
  - subst i. by rewrite decide_True.
  - by rewrite decide_False by congruence.
Qed.
Lemma fisher_yates_step_spec choice_set_size state i r : shuffle_ok i choice_set_size state →
  0 ≤ i < choice_set_size → choice_set_size < 2 ^ 64 →
  ∃ state' r', fisher_yates_step choice_set_size state i r = Ret (state', r') ∧
    shuffle_ok (i + 1) choice_set_size state'.
Proof.
  intros [Hinj Hrange Hdone] Hi Hc. unfold fisher_yates_step.
  pose proof (std_rand_range r) as Hv. destruct (std_rand r) as [v r'] eqn:Er. simpl in Hv.
  rewrite (u64_id (choice_set_size - i)) by (unfold in_u; lia). rewrite decide_False by lia.
  pose proof (Z.mod_pos_bound v (choice_set_size - i) ltac:(lia)) as Hm.
  rewrite u64_id by (unfold in_u; lia). set (j := v mod (choice_set_size - i) + i).
  assert (Hj : i ≤ j < choice_set_size) by (unfold j; lia).
  change (default j (state !! j)) with (shuffled state j).
  change (default i (state !! i)) with (shuffled state i).
  eexists _, r'. split; [done|]. constructor.
  - intros x y. rewrite !shuffled_swap. intros E%Hinj. repeat case_decide; congruence.
  - intros x Hx. rewrite shuffled_swap. apply Hrange. repeat case_decide; lia.
  - intros k Hk. destruct (decide (k = j)) as [->|]; [rewrite lookup_insert_eq; by eexists|].
    rewrite lookup_insert_ne by done. destruct (decide (k = i)) as [->|]; [rewrite lookup_insert_eq; by eexists|].
    rewrite lookup_insert_ne by done. apply Hdone. lia.
Qed.
Lemma fisher_yates_loop choice_set_size n : ∀ k state r, shuffle_ok (Z.of_nat k) choice_set_size state →
  Z.of_nat (k + n) ≤ choice_set_size < 2 ^ 64 →
  ∃ state' r', loop (fisher_yates_step choice_set_size) state (Z.of_nat <$> seq k n) r = Ret (state', r') ∧
    shuffle_ok (Z.of_nat (k + n)) choice_set_size state'.
Proof.
  induction n as [|n IH]; intros k state r Hok Hc; simpl.
  - exists state, r. by rewrite Nat.add_0_r.
  - destruct (fisher_yates_step_spec choice_set_size state (Z.of_nat k) r Hok) as (s1 & r1 & E & Hok1); [lia..|].
    unfold mbind, st_bind. rewrite E. replace (Z.of_nat k + 1) with (Z.of_nat (S k)) in Hok1 by lia.
    destruct (IH (S k) s1 r1 Hok1) as (s2 & r2 & E2 & Hok2); [lia|]. exists s2, r2. split; [exact E2|].
    by rewrite <-plus_n_Sm.
Qed.

Lemma fisher_yates_loop_short choice_set_size n : ∀ k state r, shuffle_ok (Z.of_nat k) choice_set_size state →
  Z.of_nat k ≤ choice_set_size < Z.of_nat (k + n) → choice_set_size < 2 ^ 64 →
  loop (fisher_yates_step choice_set_size) state (Z.of_nat <$> seq k n) r = UB.
Proof.
  induction n as [|n IH]; intros k state r Hok Hk Hc; simpl; [lia|]. unfold mbind, st_bind.
  destruct (decide (Z.of_nat k = choice_set_size)) as [<-|Hne].
  - unfold fisher_yates_step. destruct (std_rand r). by rewrite Z.sub_diag, decide_True.
  - destruct (fisher_yates_step_spec choice_set_size state (Z.of_nat k) r Hok) as (s1 & r1 & E & Hok1); [lia..|].
    rewrite E. replace (Z.of_nat k + 1) with (Z.of_nat (S k)) in Hok1 by lia. apply IH; [done|lia|done].
Qed.
Lemma nothing_shuffled choice_set_size : shuffle_ok 0 choice_set_size ∅.
Proof.
  constructor; unfold shuffled.
  - intros x y. by rewrite !lookup_empty.
  - intros x. by rewrite lookup_empty.
  - lia.
Qed.

Lemma fisher_yates_spec result_size choice_set_size r :
  0 ≤ result_size ≤ choice_set_size → choice_set_size < 2 ^ 64 →
  ∃ l r', fisher_yates result_size choice_set_size r = Ret (l, r') ∧
    Z.of_nat (length l) = result_size ∧ NoDup l ∧ Forall (λ x, 1 ≤ x ≤ choice_set_size) l.
Proof.
  intros Hn Hc. unfold fisher_yates. set (n := Z.to_nat result_size).
  destruct (fisher_yates_loop choice_set_size n 0 ∅ r (nothing_shuffled _)) as (s & r' & E & [Hinj Hrange Hdone]); [lia|].
  unfold mbind, st_bind. rewrite E. eexists _, r'. split; [done|]. rewrite !length_fmap, length_seq. split; [lia|].
  assert (Hval : ∀ i, i ∈ Z.of_nat <$> seq 0 n → u64 (default 0 (s !! i) + 1) = shuffled s i + 1 ∧
    0 ≤ shuffled s i < choice_set_size).
  { intros i (j & -> & Hj)%list_elem_of_fmap. apply elem_of_seq in Hj.
    destruct (Hdone (Z.of_nat j)) as [v Hv]; [lia|]. pose proof (Hrange (Z.of_nat j) ltac:(lia)) as Hr.
    unfold shuffled in *. rewrite Hv in *. simpl in *. split; [|done]. apply u64_id. unfold in_u. lia. }
  split.
  - apply NoDup_fmap_2_strong; [|apply NoDup_fmap; [apply _|apply NoDup_seq]].
    intros x y Hx Hy. destruct (Hval x Hx) as [-> _], (Hval y Hy) as [-> _]. intros. apply Hinj. lia.
  - apply Forall_fmap, Forall_forall. intros i Hi. destruct (Hval i Hi) as [E' ?]. unfold compose. rewrite E'. lia.
Qed.

(** [fisher_yates] returns as many numbers as it is asked for, distinct and between
    one and the size of the set it chooses from, whatever is drawn; a choice of more
    numbers than there are divides by zero. *)
Theorem fisher_yates_correct result_size choice_set_size r :
  0 ≤ result_size → 0 ≤ choice_set_size < 2 ^ 64 →
  (result_size ≤ choice_set_size → ∃ l r', fisher_yates result_size choice_set_size r = Ret (l, r') ∧
     Z.of_nat (length l) = result_size ∧ NoDup l ∧ Forall (λ x, 1 ≤ x ≤ choice_set_size) l) ∧
  (choice_set_size < result_size → fisher_yates result_size choice_set_size r = UB).
Proof.
  intros Hn Hc. split; [intros; by apply fisher_yates_spec; lia|].
  intros Hlt. unfold fisher_yates. unfold mbind, st_bind.
  by rewrite (fisher_yates_loop_short _ _ 0 ∅ r (nothing_shuffled _)) by lia.
Qed.
End shuffle.

(** ** The points of a random tree *)

Definition in_square (n : Z) (p : Z * Z) : Prop := 0 ≤ p.1 < n ∧ 0 ≤ p.2 < n.

Section draws.
Context {R : Type} `{RandomSource R}.

(** The pairs drawn by the loop that inserts a point, [k] of them. *)
Fixpoint draw_pairs (k : nat) (n : Z) (r : R) : list (Z * Z) :=
  match k with
  | O => []
  | S k =>
      let '(col, r) := random_generate 0 (u64 (n - 1)) r in
      let '(row, r) := random_generate 0 (u64 (n - 1)) r in
      (col, row) :: draw_pairs k n r
  end.
(** As long as there is a pair that has not come up, one comes up within [fuel] draws. *)
Definition finds_new (fuel : nat) (n : Z) : Prop := ∀ r (P : gset (Z * Z)),
  (∀ p, p ∈ P → in_square n p) → Z.of_nat (base.size P) < n * n → ∃ p, p ∈ draw_pairs fuel n r ∧ p ∉ P.
End draws.

Section random_trees.
Context {R : Type} `{RandomSource R, !RandomSourceLaws R}.
Context `{Hp : Heap, Blk : BlockLib, !BlockLibLaws, Lib : K2Lib, !K2LibLaws, !MeasureLaws,
          Ssl : OpenSSL, !OpenSSLLaws}.
Variables (config : K2TreeConfig) (n : Z).
Hypothesis n_range : 0 < n < 2 ^ 64.
Hypothesis n_fits : n ≤ 2 ^ st_tree_depth (config_qw config).

(** The tree of some points of the square. *)
Definition square_tree (t : K2TreeMixed) : Prop := ∃ ps,
  Forall (in_square n) ps ∧ t = Builder.insert_points ps (new_K2TreeMixed config).

Lemma square_tree_new : square_tree (new_K2TreeMixed config).
Proof. by exists []. Qed.
Lemma square_tree_insert t p : square_tree t → in_square n p → square_tree (run_op t (OpInsert p.1 p.2)).
Proof.
  intros (ps & Hps & ->) Hp'. exists (ps ++ [p]). split; [by apply Forall_app; split; [|constructor]|].
  unfold Builder.insert_points. by rewrite fmap_app, fold_left_app.
Qed.
Lemma square_tree_ok t : square_tree t →
  good_tree config t ∧ ∀ p, p ∈ pts t → in_square n p.
Proof.
  intros (ps & Hps & ->). destruct (new_tree_ok config) as [Hok Hnew]. unfold Builder.insert_points.
  destruct (run_ops_spec ((λ p, OpInsert p.1 p.2) <$> ps) (new_K2TreeMixed config) Hok) as (Hok' & Hq & Hpt).
  - rewrite Forall_fmap. eapply Forall_impl; [exact Hps|]. intros [c r] [Hc Hr]. simpl in *.
    change (create_k2qw (new_K2TreeMixed config)) with (config_qw config). unfold in_coords. simpl in *. lia.
  - split; [by split|]. intros p. rewrite Hpt, Hnew, spec_inserts. rewrite Forall_forall in Hps.
    rewrite elem_of_union, elem_of_list_to_set. intros [|]; [set_solver|by apply Hps].
Qed.

Lemma insert_new_point_spec fuel : ∀ t r, square_tree t →
  (∃ p, p ∈ draw_pairs fuel n r ∧ p ∉ pts t) →
  ∃ t' r', insert_new_point fuel n (new_bulk t) r = Some (new_bulk t', r') ∧ square_tree t' ∧
    base.size (pts t') = S (base.size (pts t)).
Proof.
  induction fuel as [|fuel IH]; intros t r Ht (p & Hin & Hnew); simpl in *; [by apply not_elem_of_nil in Hin|].
  pose proof (random_generate_range 0 (u64 (n - 1)) r) as Hcol.
  destruct (random_generate 0 (u64 (n - 1)) r) as [col r1]. simpl in Hcol.
  pose proof (random_generate_range 0 (u64 (n - 1)) r1) as Hrow.
  destruct (random_generate 0 (u64 (n - 1)) r1) as [row r2]. simpl in Hrow.
  rewrite u64_id in Hcol, Hrow by (unfold in_u; lia).
  assert (Hsq : in_square n (col, row)) by (split; simpl; lia).
  destruct (square_tree_ok t Ht) as [[Hok Hq] _].
  pose proof (insert_spec col row t Hok) as Hins.
  rewrite Hq in Hins. specialize (Hins ltac:(unfold in_coords; destruct Hsq; simpl in *; lia)).
  pose proof (square_tree_insert t (col, row) Ht Hsq) as Ht'.
  pose proof (bulk_insert_new col row t) as Hb. unfold bulk_insert_was_inserted, new_bulk in *. simpl in *.
  unfold insert, insert_with, insert_was_inserted in *. cbn [bulk_tree bulk_stw] in *.
  destruct (insert_was_inserted_with (create_k2qw t) col row t) as [was t'] eqn:Ei.
  destruct Hins as (Hok' & Hq' & -> & Hpts). simpl in Ht'.
  assert (Eq : create_k2qw t' = create_k2qw t) by congruence. case_bool_decide as Hout.
  - exists t', r2. split; [by rewrite Eq|]. split; [done|].
    rewrite Hpts, size_union by set_solver. by rewrite size_singleton.
  - destruct (IH t' r2 Ht') as (t2 & r3 & E & Ht2 & Hsize).
    { exists p. apply elem_of_cons in Hin as [->|Hin]; [done|]. split; [done|]. rewrite Hpts. set_solver. }
    exists t2, r3. split; [by rewrite <-E, <-Eq|]. split; [done|].
    rewrite Hsize, Hpts. do 2 f_equal. set_solver.
Qed.

Section finding.
Variable fuel : nat.
Hypothesis draws : finds_new fuel n (R := R).

Lemma insert_new_points_spec k : ∀ t r, square_tree t →
  Z.of_nat (base.size (pts t) + k) ≤ n * n →
  ∃ t' r', insert_new_points fuel k n (new_bulk t) r = Some (new_bulk t', r') ∧ square_tree t' ∧
    base.size (pts t') = (base.size (pts t) + k)%nat.
Proof.
  induction k as [|k IH]; intros t r Ht Hk; simpl.
  - exists t, r. split_and!; [done..|lia].
  - destruct (insert_new_point_spec fuel t r Ht) as (t1 & r1 & E1 & Ht1 & Hs1).
    { apply draws; [apply square_tree_ok, Ht|lia]. }
    rewrite E1. destruct (IH t1 r1 Ht1) as (t2 & r2 & E2 & Ht2 & Hs2); [lia|].
    exists t2, r2. split_and!; [done..|lia].
Qed.

(** A tree of the feed; the last one gets the points that remain. *)
Definition points_for (f : K2TreeFeedRandom R) : Z :=
  triples_per_predicate f +
  (if decide (pred_cnt f + 1 = Z.of_nat (length (rf_predicates f))) then remaining f else 0).
Record feed_ok (f : K2TreeFeedRandom R) : Prop := {
  rf_config_eq : rf_config f = config;
  rf_ids : node_ids_sz f = n;
  rf_per : 0 ≤ triples_per_predicate f;
  rf_rem : 0 ≤ remaining f;
  rf_room : triples_per_predicate f + remaining f ≤ n * n;
  rf_few : Z.of_nat (length (rf_predicates f)) < 2 ^ 64;
  rf_cnt : 0 ≤ pred_cnt f ≤ Z.of_nat (length (rf_predicates f))
}.
Definition next_feed (f : K2TreeFeedRandom R) (r : R) : K2TreeFeedRandom R :=
  mkRFeed (triples_per_predicate f) (remaining f) (node_ids_sz f) (rf_predicates f) (rf_config f)
    (pred_cnt f + 1) r.

Lemma random_get_next_spec f p : feed_ok f → rf_predicates f !! Z.to_nat (pred_cnt f) = Some p →
  ∃ t r, random_get_next fuel f = Ret (Some (mkContainer p (Some t), next_feed f r)) ∧ square_tree t ∧
    Z.of_nat (base.size (pts t)) = points_for f ∧ feed_ok (next_feed f r).
Proof.
  intros [Hc Hi Hper Hrem Hroom Hfew Hcnt] Hlook. pose proof (lookup_lt_Some _ _ _ Hlook) as Hlt.
  assert (Hpos : pred_cnt f < Z.of_nat (length (rf_predicates f))) by lia.
  unfold random_get_next, random_insert_n_points. rewrite Hc, Hi, Hlook, (u64_id (pred_cnt f + 1)) by (unfold in_u; lia).
  assert (Hempty : base.size (pts (new_K2TreeMixed config)) = 0%nat)
    by (destruct (new_tree_ok config) as [_ ->]; apply size_empty).
  destruct (insert_new_points_spec (Z.to_nat (triples_per_predicate f)) (new_K2TreeMixed config) (generator f)
    square_tree_new) as (t1 & r1 & E1 & Ht1 & Hs1); [lia|]. rewrite E1. unfold points_for.
  assert (Hnext : ∀ r, feed_ok (next_feed f r)) by (intros r; by constructor; simpl; try lia).
  unfold next_feed in *. rewrite Hc, Hi in *.
  case_decide.
  - destruct (insert_new_points_spec (Z.to_nat (remaining f)) t1 r1 Ht1) as (t2 & r2 & E2 & Ht2 & Hs2); [lia|].
    rewrite E2. exists t2, r2. split_and!; [done|done|lia|apply Hnext].
  - exists t1, r1. split_and!; [done|done|lia|apply Hnext].
Qed.

(** All trees of the feed. *)
Lemma random_feeds m : ∀ f, feed_ok f → pred_cnt f + Z.of_nat m = Z.of_nat (length (rf_predicates f)) →
  ∃ cs, k2feeds fuel f cs ∧ cs.*1 = drop (Z.to_nat (pred_cnt f)) (rf_predicates f) ∧
    Forall (λ pt, square_tree pt.2) cs ∧
    Z.of_nat (sum_list (base.size <$> (pts <$> cs.*2))) =
      Z.of_nat m * triples_per_predicate f + (if decide (m = 0)%nat then 0 else remaining f).
Proof.
  induction m as [|m IH]; intros f Hok Hm.
  - exists []. split_and!; [|rewrite drop_ge; [done|lia]|constructor|done].
    constructor. simpl. unfold random_has_next. apply bool_decide_eq_false. lia.
  - destruct (lookup_lt_is_Some_2 (rf_predicates f) (Z.to_nat (pred_cnt f))) as [p Hlook].
    { pose proof (rf_cnt f Hok). lia. }
    destruct (random_get_next_spec f p Hok Hlook) as (t & r & E & Ht & Hs & Hok').
    destruct (IH (next_feed f r) Hok') as (cs & Hcs & Hids & Hsq & Hsum); [simpl; lia|].
    exists ((p, t) :: cs). split_and!.
    + eapply k2feeds_cons; [|exact E|exact Hcs]. simpl. unfold random_has_next. apply bool_decide_eq_true. lia.
    + rewrite fmap_cons, Hids. simpl. pose proof (rf_cnt f Hok).
      replace (Z.to_nat (pred_cnt f + 1)) with (S (Z.to_nat (pred_cnt f))) by lia. by rewrite <-(drop_S _ _ _ Hlook).
    + by constructor.
    + change (base.size <$> (pts <$> ((p, t) :: cs).*2)) with (base.size (pts t) :: (base.size <$> (pts <$> cs.*2))).
      change (sum_list (?x :: ?l)) with (x + sum_list l)%nat. rewrite Nat2Z.inj_add, Hs, Hsum.
      unfold points_for, next_feed. cbn [triples_per_predicate remaining].
      rewrite Nat2Z.inj_succ, Z.mul_succ_l, (decide_False (P := S m = 0%nat)) by lia. repeat case_decide; lia.
Qed.
End finding.
End random_trees.

(** ** generate_random_dataset makes the files of a server *)

Section dataset.
Context {R : Type} `{RandomSource R, !RandomSourceLaws R}.
Context `{Hp : Heap, Blk : BlockLib, !BlockLibLaws, Lib : K2Lib, !K2LibLaws, !MeasureLaws,
          Ssl : OpenSSL, !OpenSSLLaws}.

(** The number of predicates among [n] resources. *)
Definition predicates_among (n : Z) : Z := if decide (10 < n) then n / 10 else 1.
Lemma predicates_among_range n : 0 < n → 1 ≤ predicates_among n ≤ n.
Proof.
  intros Hn. unfold predicates_among. case_decide; [|lia]. pose proof (Z.div_mod n 10 ltac:(lia)).
  pose proof (Z.mod_pos_bound n 10 ltac:(lia)). lia.
Qed.

Lemma sorted_choice (l : list Z) : NoDup l → sorted_ids (merge_sort Z.le l).
Proof.
  intros Hl. apply strict_sorted; [by rewrite merge_sort_Permutation|]. apply (StronglySorted_merge_sort Z.le).
Qed.
Lemma choose_resources_spec resources_num r : 0 < resources_num ≤ 2 ^ 63 → ∃ ids sel r',
  choose_resources resources_num r = Ret ((ids, sel), r') ∧
  sorted_ids ids ∧ Z.of_nat (length ids) = resources_num ∧ Forall (λ x, 1 ≤ x ≤ 2 ^ 63) ids ∧
  NoDup sel ∧ Z.of_nat (length sel) = predicates_among resources_num ∧ Forall (λ p, 1 ≤ p ≤ resources_num) sel.
Proof.
  intros Hn. unfold choose_resources.
  destruct (fisher_yates_spec resources_num (2 ^ 63) r) as (l & r1 & E1 & Hl & Hnd & Hr); [lia..|].
  unfold mbind at 1, st_bind at 1. rewrite E1.
  assert (Hlen : Z.of_nat (length (merge_sort Z.le l)) = resources_num) by (by rewrite merge_sort_Permutation).
  rewrite Hlen. fold (predicates_among resources_num).
  pose proof (predicates_among_range resources_num ltac:(lia)) as Hm.
  destruct (fisher_yates_spec (predicates_among resources_num) resources_num r1) as (l2 & r2 & E2 & Hl2 & Hnd2 & Hr2); [lia..|].
  unfold mbind at 1, st_bind at 1. rewrite E2. eexists _, _, r2. split; [done|].
  split_and!; [by apply sorted_choice|done| |by rewrite merge_sort_Permutation..|]; by rewrite merge_sort_Permutation.
Qed.

(** What a random dataset is made from: there are enough positions for the triples, the
    generator brings up a pair that has not come up, and a tree fits its record. *)
Record random_input (fuel : nat) (config : K2TreeConfig) (triples_num resources_num : Z) : Prop := {
  ri_config : config_wf config;
  ri_resources : 0 < resources_num ≤ 2 ^ 63;
  ri_fits : resources_num ≤ 2 ^ st_tree_depth (config_qw config);
  ri_triples : 0 ≤ triples_num;
  ri_room : triples_num / predicates_among resources_num + triples_num mod predicates_among resources_num
            ≤ resources_num * resources_num;
  ri_draws : finds_new fuel resources_num (R := R);
  ri_fuel : predicates_among resources_num ≤ Z.of_nat fuel;
  ri_trees t : square_tree config resources_num t →
    tm_wf t ∧ in_u 64 (Z.of_nat (tm_mem t)) ∧ in_u 64 (Z.of_nat (length (tree_bytes t)))
}.

(** The points of a predicate in an index. *)
Definition number_of_points (data : list Z) (i : PredicatesIndexCacheMD) (p : Z) : nat :=
  base.size (default ∅ (main_points data i p)).

Lemma sum_over_ids (cs : list (Z * K2TreeMixed)) : NoDup cs.*1 →
  (λ p, base.size (default (∅ : gset (Z * Z)) (pts <$> tree_of cs p))) <$> cs.*1 =
  base.size <$> (pts <$> cs.*2).
Proof.
  intros Hnd. rewrite <-!list_fmap_compose. apply list_fmap_ext. intros i [p t] Hi. unfold compose, tree_of. simpl.
  by rewrite (elem_of_list_to_map_1 cs p t) by (done || by eapply list_elem_of_lookup_2).
Qed.
Lemma tree_of_is_Some (cs : list (Z * K2TreeMixed)) p : is_Some (tree_of cs p) ↔ p ∈ cs.*1.
Proof.
  unfold tree_of. split.
  - intros [t Ht]. apply elem_of_list_to_map_2 in Ht. by apply (list_elem_of_fmap_2 fst) in Ht.
  - intros Hin. destruct (list_to_map cs !! p) eqn:El; [by eexists|]. by apply not_elem_of_list_to_map in El.
Qed.

Lemma generate_random_dataset_spec fuel config triples_num resources_num r :
  random_input fuel config triples_num resources_num → ∃ trees ids sel,
    generate_random_dataset fuel config triples_num resources_num r = Ret (Some (trees, ids_file ids)) ∧
    sorted_ids ids ∧ Z.of_nat (length ids) = resources_num ∧ Forall (λ x, 1 ≤ x ≤ 2 ^ 63) ids ∧
    NoDup sel ∧ Z.of_nat (length sel) = predicates_among resources_num ∧
    Forall (λ p, 1 ≤ p ≤ resources_num) sel ∧
    (Z.of_nat (length trees) < 2 ^ 63 → ∀ mm, ∃ i, new_PredicatesIndexCacheMD (Some trees) mm = Ret i ∧
       index_ok trees i ∧ (∀ p, is_Some (main_points trees i p) ↔ p ∈ sel) ∧
       Z.of_nat (sum_list (number_of_points trees i <$> sel)) = triples_num).
Proof.
  intros [Hc Hn Hfits Htn Hroom Hdraws Hfuel Htrees].
  destruct (choose_resources_spec resources_num r Hn) as (ids & sel & r' & E & Hs & Hlen & Hids & Hnd & Hsel & Hrange).
  pose proof (predicates_among_range resources_num ltac:(lia)) as Hm.
  set (f := mkRFeed (triples_num / predicates_among resources_num) (triples_num mod predicates_among resources_num)
              resources_num sel config 0 r').
  destruct (random_feeds config resources_num ltac:(lia) Hfits fuel Hdraws (length sel) f)
    as (cs & Hcs & Hcid & Hsq & Hsum); [|done|].
  { pose proof (Z.div_pos triples_num (predicates_among resources_num)).
    pose proof (Z.mod_pos_bound triples_num (predicates_among resources_num)).
    constructor; simpl; (done || lia). }
  simpl in Hcid. rewrite drop_0 in Hcid.
  assert (Hk : length cs = length sel) by (by rewrite <-Hcid, length_fmap).
  destruct (build_with_k2tree_feed_spec config fuel f cs) as (m & data & Eb & _ & Hopen); [done| |by rewrite Hcid|lia|done|].
  { apply Forall_forall. intros [p t] Hin. split; simpl.
    - assert (Hp' : p ∈ sel) by (rewrite <-Hcid; by apply (list_elem_of_fmap_2 fst)  in Hin).
      rewrite Forall_forall in Hrange. apply Hrange in Hp'. unfold in_u. lia.
    - rewrite Forall_forall in Hsq. apply Hsq in Hin. simpl in Hin. destruct (Htrees t Hin) as (? & ? & ?).
      split_and!; try done. apply (square_tree_ok config resources_num ltac:(lia) Hfits), Hin. }
  exists data, ids, sel. split_and!; try done.
  - unfold generate_random_dataset. rewrite E. cbn [mbind outcome_bind].
    rewrite Hsel, decide_False by lia. rewrite Hlen. fold f.
    assert (Ef : file_of (build_with_k2tree_feed fuel f (os_end []) config) = Ret (Some m, data)).
    { unfold file_of. change (OStream [] 0) with (os_end []). by rewrite Eb. }
    rewrite Ef. cbn [mbind outcome_bind].
    by rewrite (file_of_emits _ _ _ (seq_serialize_emits ids)).
  - intros HD mm. destruct (Hopen HD mm) as (i & Ei & _ & Hi & Hpts). exists i. split_and!; [done..| |].
    + intros p. by rewrite Hpts, <-Hcid, fmap_is_Some, tree_of_is_Some.
    + rewrite (list_fmap_ext (number_of_points data i) (λ p, base.size (default ∅ (pts <$> tree_of cs p))) sel)
        by (intros; unfold number_of_points; by rewrite Hpts).
      rewrite <-Hcid, sum_over_ids by (by rewrite Hcid). rewrite Hsum. cbn [triples_per_predicate remaining f].
      rewrite decide_False by lia. rewrite Hsel. pose proof (Z.div_mod triples_num (predicates_among resources_num)). lia.
Qed.

(** C27: A random dataset is a dataset of a server. [generate_random_dataset] ends with a
    sorted file of as many distinct ids as it is asked for, none of them zero, and an
    index file that opens. The trees of the index are those of the chosen predicates,
    and they hold as many triples as it is asked for in all. *)
Theorem generate_random_dataset_correct fuel config triples_num resources_num r :
  random_input fuel config triples_num resources_num → ∃ trees ids sel,
    generate_random_dataset fuel config triples_num resources_num r = Ret (Some (trees, ids_file ids)) ∧
    sorted_ids ids ∧ Z.of_nat (length ids) = resources_num ∧ Forall (λ x, 1 ≤ x ≤ 2 ^ 63) ids ∧
    NoDup sel ∧ Z.of_nat (length sel) = predicates_among resources_num ∧
    Forall (λ p, 1 ≤ p ≤ resources_num) sel ∧
    (Z.of_nat (length trees) < 2 ^ 63 → ∀ mm, ∃ i, new_PredicatesIndexCacheMD (Some trees) mm = Ret i ∧
       index_ok trees i ∧ (∀ p, is_Some (main_points trees i p) ↔ p ∈ sel) ∧
       Z.of_nat (sum_list (number_of_points trees i <$> sel)) = triples_num).
Proof. apply generate_random_dataset_spec. Qed.
End dataset.

(** ** Random triples as text *)

Section random_text.
Context {R : Type} `{RandomSource R, !RandomSourceLaws R}.
Context `{Blk : BlockLib, !BlockLibLaws, Lib : K2Lib, !K2LibLaws, !MeasureLaws, Ssl : OpenSSL, !OpenSSLLaws}.
Variables (fuel : nat) (n per : Z) (prefix : list Z).
Hypothesis n_range : 0 < n ≤ 2 ^ 32.
Hypothesis per_range : 0 ≤ per ≤ n * n.
Hypothesis draws : finds_new fuel n (R := R).
Hypothesis per_fuel : per < Z.of_nat fuel.

(** The lines of some predicates and their pairs. *)
Definition nt_file (gs : list (Z * list (Z * Z))) : list Z :=
  gs ≫= λ g, g.2 ≫= nt_line prefix (make_concrete_resource prefix g.1).
(** The pairs written for a position that is a predicate. *)
Definition nt_group (resources : list Z) (pos : Z) (g : Z * list (Z * Z)) : Prop :=
  resources !! Z.to_nat pos = Some g.1 ∧ NoDup g.2 ∧ Z.of_nat (length g.2) = per ∧ Forall (in_square n) g.2.

Lemma nt_lines predicate l output :
  foldM (λ output p, Ret (output ++ nt_line prefix predicate p)) output l =
  Ret (output ++ (l ≫= nt_line prefix predicate)).
Proof.
  rewrite foldM_ret. f_equal. revert output. induction l as [|p l IH]; intros output; [by rewrite app_nil_r|].
  rewrite bind_cons, app_assoc. apply IH.
Qed.

Lemma nt_predicates_spec resources predicates_pos indices poss : length resources = Z.to_nat n →
  Forall2 (λ i pos, predicates_pos !! i = Some pos) indices poss → Forall (λ pos, 1 ≤ pos ≤ n) poss →
  ∀ output r, let result := nt_predicates fuel per n prefix resources predicates_pos indices output r in
    (n ∈ poss → result = UB) ∧
    (n ∉ poss → ∃ gs, result = Ret (Some (output ++ nt_file gs)) ∧ Forall2 (nt_group resources) poss gs).
Proof.
  intros Hlen Hall. induction Hall as [|i pos indices poss Hi _ IH]; intros Hpos output r; cbn [nt_predicates].
  - split; [set_solver|]. intros _. exists []. split; [by rewrite app_nil_r|constructor].
  - apply Forall_cons in Hpos as [Hp Hpos]. unfold random_insert_n_points.
    destruct (insert_new_points_spec nt_config n ltac:(lia) (proj2 n_range) fuel draws (Z.to_nat per)
      (new_K2TreeMixed nt_config) r (square_tree_new nt_config n)) as (t & r' & E & Ht & Hs).
    { destruct (new_tree_ok nt_config) as [_ ->]. rewrite size_empty. lia. }
    rewrite E, Hi. cbn [deref mbind outcome_bind].
    destruct (decide (pos = n)) as [->|Hne].
    + rewrite lookup_ge_None_2 by lia. split; [done|]. intros []. by left.
    + destruct (lookup_lt_is_Some_2 resources (Z.to_nat pos)) as [x Hx]; [lia|]. rewrite Hx. cbn [deref mbind outcome_bind].
      destruct (square_tree_ok nt_config n ltac:(lia) (proj2 n_range) t Ht) as [[Hok _] Hsq].
      destruct (full_scanner_spec t Hok) as (l & Hd & Hl).
      assert (Hlen' : Z.of_nat (length l) = per).
      { rewrite Hl. change (length (elements (pts t))) with (base.size (pts t)). rewrite Hs.
        destruct (new_tree_ok nt_config) as [_ ->]. rewrite size_empty. lia. }
      cbn [bulk_tree new_bulk]. rewrite (while_scan_delivers _ _ _ l) by (done || lia). rewrite nt_lines.
      cbn [fmap outcome_fmap mbind outcome_bind].
      destruct (IH Hpos (output ++ (l ≫= nt_line prefix (make_concrete_resource prefix x))) r') as [Hub Hret].
      split; [intros [Heq|Hin]%elem_of_cons; [congruence|by apply Hub]|].
      intros [_ Hnin]%not_elem_of_cons. destruct (Hret Hnin) as (gs & E' & Hgs). exists ((x, l) :: gs).
      split; [rewrite E'; unfold nt_file; by rewrite bind_cons, app_assoc|]. constructor; [|done].
      split_and!; [done|rewrite Hl; apply NoDup_elements|done|].
      apply Forall_forall. intros p. cbn [snd]. rewrite Hl. intros Hp'%elem_of_elements. by apply Hsq.
Qed.

(** [random_nt_data_generate] reads past the resources when the last position is among
    the predicates it chooses. Otherwise it writes as many lines per predicate as it
    should, with no pair twice. *)
Theorem random_nt_data_correct triples_num r : 20 ≤ triples_num → per = triples_num / 20 →
  triples_num / per ≤ n → ∃ resources sel,
    NoDup resources ∧ Z.of_nat (length resources) = n ∧ Forall (λ x, 1 ≤ x ≤ n) resources ∧
    NoDup sel ∧ Z.of_nat (length sel) = triples_num / per ∧ Forall (λ pos, 1 ≤ pos ≤ n) sel ∧
    let result := random_nt_data_generate fuel triples_num n prefix r in
    (n ∈ sel → result = UB) ∧
    (n ∉ sel → ∃ gs, result = Ret (Some (nt_file gs)) ∧ Forall2 (nt_group resources) sel gs).
Proof.
  intros Htn Hper Hcount.
  assert (Hpos : 1 ≤ per) by (subst per; by apply Z.div_le_lower_bound; lia).
  pose proof (Z.div_pos triples_num per ltac:(lia) ltac:(lia)) as Hge.
  destruct (fisher_yates_spec n n r) as (resources & r1 & E1 & Hlen & Hnd & Hr); [lia..|].
  destruct (fisher_yates_spec (triples_num / per) n r1) as (sel & r2 & E2 & Hlen2 & Hnd2 & Hr2); [lia..|].
  exists resources, sel. split_and!; try done. cbv zeta.
  assert (E : random_nt_data_generate fuel triples_num n prefix r =
    nt_predicates fuel per n prefix resources sel (seq 0 (length sel)) [] r2).
  { unfold random_nt_data_generate. rewrite E1. cbn [mbind outcome_bind]. rewrite <-Hper, decide_False by lia.
    rewrite Hlen, E2. cbn [mbind outcome_bind]. by rewrite <-Hlen2, Nat2Z.id. }
  rewrite E. apply nt_predicates_spec; [lia| |done].
  apply Forall2_same_length_lookup_2; [apply length_seq|]. intros i j pos Hj Hp'.
  apply lookup_seq in Hj as [-> _]. done.
Qed.
End random_text.

(** ** Instances of the theorems *)
Section witnesses.
#[local] Existing Instance toy_block_lib.
#[local] Existing Instance toy_block_laws.
#[local] Existing Instance Toy.toy_k2_lib.
#[local] Existing Instance toy_measure_laws.
#[local] Existing Instance toy_openssl.
#[local] Existing Instance toy_openssl_laws.
#[local] Existing Instance toy_heap.

(** A generator of eight states; whichever it is in, the next eight draws below two are
    all four pairs. *)
Definition toy_state : Type := bool * bool * bool.
Definition toy_next (r : toy_state) : toy_state :=
  let '(a, b, c) := r in (xorb a (b && c), xorb b c, negb c).
Definition toy_draw (r : toy_state) : Z :=
  let '(a, b, c) := r in Z.b2z (if a then xorb b c else b).
#[local] Instance toy_source : RandomSource toy_state := {|
  std_rand r := (toy_draw r, toy_next r);
  random_generate start end_ r := (Z.min end_ (start + toy_draw r), toy_next r)
|}.
Lemma toy_draw_range r : 0 ≤ toy_draw r ≤ 1.
Proof. destruct r as [[[] []] []]; done. Qed.
#[local] Instance toy_source_laws : RandomSourceLaws toy_state.
Proof.
  constructor.
  - intros r. pose proof (toy_draw_range r). unfold std_rand, toy_source, fst. lia.
  - intros s e r Hse. pose proof (toy_draw_range r). unfold random_generate, toy_source, fst. lia.
Qed.

Lemma fisher_yates_correct_witness :
  (3 ≤ 5 → ∃ l r', fisher_yates 3 5 (false, false, false) = Ret (l, r') ∧
     Z.of_nat (length l) = 3 ∧ NoDup l ∧ Forall (λ x, 1 ≤ x ≤ 5) l) ∧
  (5 < 3 → fisher_yates 3 5 (false, false, false) = UB).
Proof. apply (fisher_yates_correct 3 5 (false, false, false)); lia. Defined.
Example too_many : fisher_yates 6 5 (false, false, false) = UB.
Proof. reflexivity. Qed.

(** Every tree of points of the square of two by two. *)
Definition square : list (Z * Z) := [(0, 0); (0, 1); (1, 0); (1, 1)].
Lemma in_square_2 p : in_square 2 p ↔ p ∈ square.
Proof.
  destruct p as [c r]. unfold in_square, square. simpl. rewrite !elem_of_cons. split.
  - intros [Hc Hr]. assert (c = 0 ∨ c = 1) as [-> | ->] by lia; assert (r = 0 ∨ r = 1) as [-> | ->] by lia; tauto.
  - intros [E|[E|[E|[E|E]]]]; [..|by apply not_elem_of_nil in E]; inversion E; lia.
Qed.
Lemma toy_draws_all p r : p ∈ square → p ∈ draw_pairs 4 2 r.
Proof.
  intros Hp. apply (proj1 (Forall_forall (λ p, p ∈ draw_pairs 4 2 r) square)); [|done].
  apply (bool_decide_unpack _). by destruct r as [[[] []] []]; vm_compute.
Qed.
Lemma toy_finds : finds_new 4 2 (R := toy_state).
Proof.
  intros r P HP Hs. destruct (decide (Forall (λ p, p ∈ P) square)) as [Hall|Hnot].
  - assert (Hsub : list_to_set square ⊆ P).
    { intros p Hp. rewrite elem_of_list_to_set in Hp. rewrite Forall_forall in Hall. by apply Hall. }
    apply subseteq_size in Hsub. change (base.size (list_to_set square : gset (Z * Z))) with 4%nat in Hsub. lia.
  - apply not_Forall_Exists in Hnot; [|apply _]. apply Exists_exists in Hnot as (p & Hp & Hn).
    exists p. split; [by apply toy_draws_all|done].
Qed.

(** A tree of [toy_k2_lib] by the list of its points. *)
Definition tree_at (l : list (Z * Z)) : K2TreeMixed :=
  mkTree (if decide (l = []) then K2Null else Toy.wrap 1 (Toy.pack l)) (Z.of_nat (length l)) 8 1 256.
Lemma points_tree_at l : Toy.points (mkst 8 1 256) (root (tree_at l)) = l.
Proof. unfold tree_at. simpl. case_decide as E; [by subst|]. apply (Toy.points_store (mkst 8 1 256)). Qed.
Lemma insert_tree_at l p : NoDup l → (length l < 5)%nat →
  run_op (tree_at l) (OpInsert p.1 p.2) = tree_at (if decide (p ∈ l) then l else l ++ [p]).
Proof.
  intros Hnd Hl. destruct p as [c r]. simpl. unfold insert, insert_with, insert_was_inserted_with. simpl.
  change (create_k2qw (tree_at l)) with (mkst 8 1 256).
  change (if decide (l = []) then K2Null else _) with (root (tree_at l)). rewrite !points_tree_at.
  case_decide; [done|]. cbn [snd negb]. unfold set_root, tree_at. simpl.
  rewrite (decide_False (P := l ++ [(c, r)] = [])) by (by destruct l).
  unfold Toy.store. f_equal. rewrite length_app. simpl. rewrite u64_id by (unfold in_u; lia). lia.
Qed.
Lemma square_trees_2 t : square_tree (mkConfig 8 256 1) 2 t → ∃ l, NoDup l ∧ l ⊆ square ∧ t = tree_at l.
Proof.
  intros (ps & Hps & ->). induction ps as [|p ps IH] using rev_ind.
  - exists []. split_and!; [constructor|set_solver|done].
  - apply Forall_app in Hps as [Hps [Hp' _]%Forall_cons]. destruct (IH Hps) as (l & Hnd & Hsub & E).
    assert (Hlen : (length l ≤ 4)%nat) by (apply (submseteq_length l square), NoDup_submseteq; [done|set_solver]).
    unfold Builder.insert_points. rewrite fmap_app, fold_left_app. simpl.
    unfold Builder.insert_points in E. rewrite E.
    eexists. split; [|split; [|apply (insert_tree_at l p); [done|lia]]]; case_decide.
    + done.
    + apply NoDup_app. split_and!; [done|set_solver|apply NoDup_singleton].
    + done.
    + apply in_square_2 in Hp'. set_solver.
Qed.

(** The lists of at most [k] points of the square. *)
Fixpoint lists_upto (k : nat) : list (list (Z * Z)) :=
  match k with
  | O => [[]]
  | S k => [] :: (square ≫= λ p, cons p <$> lists_upto k)
  end.
Lemma elem_of_lists_upto k : ∀ l, (length l ≤ k)%nat → l ⊆ square → l ∈ lists_upto k.
Proof.
  induction k as [|k IH]; intros [|p l] Hl Hsub; simpl length in *; [set_solver|lia|set_solver|].
  change (lists_upto (S k)) with ([] :: (square ≫= λ p, cons p <$> lists_upto k)).
  apply elem_of_cons. right. apply list_elem_of_bind. exists p. split; [|set_solver].
  apply list_elem_of_fmap_2, IH; [lia|set_solver].
Qed.
Lemma small_trees : Forall (λ l, in_u 64 (Z.of_nat (tm_mem (tree_at l))) ∧
  in_u 64 (Z.of_nat (length (tree_bytes (tree_at l))))) (lists_upto 4).
Proof. apply (bool_decide_unpack _). by vm_compute. Qed.
Lemma tree_at_wf l : (length l ≤ 4)%nat → l ⊆ square → tm_wf (tree_at l).
Proof.
  intros Hl Hsub. destruct l as [|p l].
  - split; [|split; [done|computed]]. split; [done|]. split; [done|]. by repeat constructor.
  - assert (Hin : Forall (in_u 32) ((p :: l) ≫= λ p, [p.1; p.2])).
    { apply Forall_forall. intros x (q & Hx & Hq)%list_elem_of_bind. apply Hsub, in_square_2 in Hq as [? ?].
      apply elem_of_cons in Hx as [->|Hx%list_elem_of_singleton]; [|subst x]; unfold in_u; lia. }
    assert (Hlen : Z.of_nat (length ((p :: l) ≫= λ p, [p.1; p.2])) = 2 * Z.of_nat (length (p :: l))).
    { clear. induction (p :: l) as [|q k IH]; [done|]. rewrite bind_cons, length_app, Nat2Z.inj_add, IH. simpl length. lia. }
    unfold tree_at. rewrite decide_False by done. unfold Toy.wrap, Toy.pack. simpl Toy.wrap. rewrite <-Hlen.
    apply (one_leaf_wf _ _ Hin); unfold in_u; simpl length in *; lia.
Qed.

Lemma toy_random_input : random_input (R := toy_state) 4 (mkConfig 8 256 1) 3 2.
Proof.
  constructor; try done; try exact toy_finds.
  intros t (l & Hnd & Hsub & ->)%square_trees_2.
  assert (Hl : (length l ≤ 4)%nat) by (apply (submseteq_length l square), NoDup_submseteq; [done|set_solver]).
  split; [by apply tree_at_wf|]. pose proof small_trees as Hs. rewrite Forall_forall in Hs.
  by apply Hs, elem_of_lists_upto.
Qed.
Lemma generate_random_dataset_correct_witness : ∃ trees ids sel,
  generate_random_dataset 4 (mkConfig 8 256 1) 3 2 (false, false, false) = Ret (Some (trees, ids_file ids)) ∧
  sorted_ids ids ∧ Z.of_nat (length ids) = 2 ∧ Forall (λ x, 1 ≤ x ≤ 2 ^ 63) ids ∧
  NoDup sel ∧ Z.of_nat (length sel) = predicates_among 2 ∧ Forall (λ p, 1 ≤ p ≤ 2) sel ∧
  (Z.of_nat (length trees) < 2 ^ 63 → ∀ mm, ∃ i, new_PredicatesIndexCacheMD (Some trees) mm = Ret i ∧
     index_ok trees i ∧ (∀ p, is_Some (main_points trees i p) ↔ p ∈ sel) ∧
     Z.of_nat (sum_list (number_of_points trees i <$> sel)) = 3).
Proof. apply (generate_random_dataset_correct 4 (mkConfig 8 256 1) 3 2 (false, false, false)). exact toy_random_input. Defined.
End witnesses.
