(* ===== verification/Startup.v ===== *)
(** * scripts: the options of the programs, and the start of the server

    The [main] of each program: it reads the options that getopt_long finds, given here
    as a list, and does what Ingest.v says with them; that of scripts/cache_server.cpp
    makes the server of the files it is given. *)
From Stdlib Require Import Ascii.
From stdpp Require Import strings.
From S2P Require Import Prelude Streams Memory Blocks K2Tree Scanners Fetcher Hashing Replacement CachedSource.
From S2P Require Import NodeIds UpdatesLog PredicatesIndex Fic Manager ParallelWorker PriorityQueue TripleSort ExternalSort.
From S2P Require Import BGPOps BGPIterator BGPProcessor Builder Session Streaming BgpStreamer Channels Server ServerWorker Ingest.

Local Open Scope Z_scope.

(** ** Options *)

(** What [getopt_long] returns until it returns -1, with what [optarg] points to. *)
Notation options := (list (ascii * option string)).
(** The options seen, which the code keeps in a flag each. *)
Notation seen := (list ascii).

Definition bytes_of (s : string) : list Z :=
  (λ c, Z.of_N (N_of_ascii c)) <$> String.list_ascii_of_string s.
(** A [std::string] made from a null pointer is undefined. *)
Definition string_arg (optarg : option string) : outcome string := deref optarg.
Definition stoul_arg (optarg : option string) : outcome Z := s ← string_arg optarg; stoul (bytes_of s).

(** [std::stoi]. *)
Definition stoi (s : list Z) : outcome Z :=
  let s := skip_space s in
  let negative := bool_decide (head s = Some minus_sign) in
  let s := if negative || bool_decide (head s = Some plus_sign) then tail s else s in
  match read_digits None s with
  | None => Throw StdInvalidArgument
  | Some n =>
      let n := if negative then - n else n in
      if decide (- 2 ^ 31 ≤ n < 2 ^ 31) then Ret n else Throw StdOutOfRange
  end.
Definition stoi_arg (optarg : option string) : outcome Z := s ← string_arg optarg; stoi (bytes_of s).

(** The loop of every [parse_cmd_line], and its tests for the options it requires. *)
Definition parse_options {A} (step : A * seen → ascii * option string → outcome (A * seen)) (out : A)
    (required : list ascii) (opts : options) : outcome A :=
  '(out, has) ← foldM step (out, []) opts;
  if decide (Forall (λ c, c ∈ has) required) then Ret out else Throw RuntimeError.

(** ** convert_triples_to_binary.cpp and extract_triples_binary.cpp *)

Record io_options := mkIO { io_input_file : string; io_output_file : string }.
Definition io_step (s : io_options * seen) (o : ascii * option string) : outcome (io_options * seen) :=
  let '(mkIO i f, has) := s in let '(opt, optarg) := o in
  if decide (opt = "i"%char) then v ← string_arg optarg; Ret (mkIO v f, opt :: has)
  else if decide (opt = "o"%char) then v ← string_arg optarg; Ret (mkIO i v, opt :: has)
  else Ret s.
Definition io_parse : options → outcome io_options := parse_options io_step (mkIO "" "") ["i"; "o"]%char.

Definition convert_main `{Host} (opts : options) : st files () :=
  parsed ← lift (io_parse opts); convert_triples_to_binary (io_input_file parsed) (io_output_file parsed).
Definition extract_main `{Host} (opts : options) : st files () :=
  parsed ← lift (io_parse opts); extract_triples_binary (io_input_file parsed) (io_output_file parsed).

(** ** translate_triples_to_nseq.cpp *)

Record translate_options := mkTranslate {
  tr_input_file : string; tr_output_file : string; tr_nodes_sequence_file : string
}.
Definition translate_step (s : translate_options * seen) (o : ascii * option string)
    : outcome (translate_options * seen) :=
  let '(mkTranslate i f n, has) := s in let '(opt, optarg) := o in
  if decide (opt = "i"%char) then v ← string_arg optarg; Ret (mkTranslate v f n, opt :: has)
  else if decide (opt = "o"%char) then v ← string_arg optarg; Ret (mkTranslate i v n, opt :: has)
  else if decide (opt = "n"%char) then v ← string_arg optarg; Ret (mkTranslate i f v, opt :: has)
  else Ret s.
Definition translate_parse : options → outcome translate_options :=
  parse_options translate_step (mkTranslate "" "" "") ["i"; "o"; "n"]%char.
Definition translate_main `{Host} (opts : options) : st files Z :=
  parsed ← lift (translate_parse opts);
  translate_triples_to_nseq (tr_input_file parsed) (tr_output_file parsed) (tr_nodes_sequence_file parsed).

(** ** node_ids_set_from_triples_set.cpp *)

Definition node_ids_step (s : TriplesToNodeIdsSortParams * seen) (o : ascii * option string)
    : outcome (TriplesToNodeIdsSortParams * seen) :=
  let '(mkParams i f w m, has) := s in let '(opt, optarg) := o in
  if decide (opt = "i"%char) then v ← string_arg optarg; Ret (mkParams v f w m, opt :: has)
  else if decide (opt = "o"%char) then v ← string_arg optarg; Ret (mkParams i v w m, opt :: has)
  else if decide (opt = "w"%char) then v ← stoi_arg optarg; Ret (mkParams i f v m, opt :: has)
  else if decide (opt = "m"%char) then v ← stoul_arg optarg; Ret (mkParams i f w v, opt :: has)
  else Ret s.
Definition node_ids_parse : options → outcome TriplesToNodeIdsSortParams :=
  parse_options node_ids_step (mkParams "" "" 0 0) ["i"; "o"; "w"; "m"]%char.
Definition node_ids_main `{Host, ExternalSortLib} (opts : options) : st files Z :=
  parsed ← lift (node_ids_parse opts); triples_to_sorted_node_ids parsed.

(** ** triple_external_sort.cpp *)

(** [std::filesystem::temp_directory_path] and mkdtemp, on a template. *)
Class TempDir := { temp_directory_path : string; mkdtemp : string → option string }.

(** [file >> token] for words; [ignore] to the end of the line. *)
Fixpoint take_word (word s : list Z) : list Z * list Z :=
  match s with
  | c :: s' => if is_space c then (word, s) else take_word (word ++ [c]) s'
  | [] => (word, [])
  end.
Fixpoint ignore_line (s : list Z) : list Z :=
  match s with c :: s => if decide (c = newline) then s else ignore_line s | [] => [] end.
Fixpoint mem_total_of (fuel : nat) (file : list Z) : Z :=
  match fuel with
  | O => 0
  | S fuel =>
      match take_word [] (skip_space file) with
      | ([], _) => 0
      | (token, file) =>
          if decide (token = bytes_of "MemTotal:")
          then match stoul file with Ret mem => mem | _ => 0 end
          else mem_total_of fuel (ignore_line file)
      end
  end.
Definition get_mem_total (fs : files) : Z :=
  let file := default [] (fs !! "/proc/meminfo") in mem_total_of (length file) file.

Record sort_options := mkSort {
  so_input_file : string; so_output_file : string; so_tmp_dir : string; so_max_memory : Z; so_workers : Z
}.
(** The arguments of the last three are optional. *)
Definition sort_step (s : sort_options * seen) (o : ascii * option string) : outcome (sort_options * seen) :=
  let '(mkSort i f t m w, has) := s in let '(opt, optarg) := o in
  if decide (opt = "i"%char) then v ← string_arg optarg; Ret (mkSort v f t m w, opt :: has)
  else if decide (opt = "o"%char) then v ← string_arg optarg; Ret (mkSort i v t m w, opt :: has)
  else match optarg with
  | None => Ret s
  | Some v =>
      if decide (opt = "t"%char) then Ret (mkSort i f v m w, opt :: has)
      else if decide (opt = "m"%char) then v ← stoul (bytes_of v); Ret (mkSort i f t v w, opt :: has)
      else if decide (opt = "w"%char) then v ← stoi (bytes_of v); Ret (mkSort i f t m v, opt :: has)
      else Ret s
  end.
Definition sort_parse `{TempDir} (opts : options) (fs : files) : outcome sort_options :=
  '(mkSort i f t m w, has) ← foldM sort_step (mkSort "" "" "" 0 0, []) opts;
  if decide ("i"%char ∉ has) then Throw RuntimeError
  else if decide ("o"%char ∉ has) then Throw RuntimeError
  else
    t ← (if decide ("t"%char ∈ has) then Ret t
         else match mkdtemp (path_join temp_directory_path "tmpsort_XXXXXXXXXX") with
              | None => Throw RuntimeError
              | Some tmp_dir => Ret tmp_dir
              end);
    let m := if decide ("m"%char ∈ has) then m
             else let mem_total := get_mem_total fs in
                  if decide (0 < mem_total) then mem_total / 2 else 1000000000 in
    let w := if decide ("w"%char ∈ has) then w else 1 in
    Ret (mkSort i f t m w).
Definition sort_main `{Host, StdAlgorithms, PoolSchedule, TempDir} (fuel : nat) (opts : options)
    : st files (option ()) := λ fs,
  parsed ← sort_parse opts fs;
  triple_external_sort fuel (so_input_file parsed) (so_output_file parsed) (so_tmp_dir parsed)
    (so_workers parsed) (so_max_memory parsed) fs.

(** ** build_k2tree_index.cpp *)

Record build_options := mkBuild {
  bo_input_file : string; bo_output_file : string; bo_max_node_count : Z; bo_cut_depth : Z; bo_tree_depth : Z
}.
(** An [int] becomes a [uint32_t]. *)
Definition build_step (s : build_options * seen) (o : ascii * option string) : outcome (build_options * seen) :=
  let '(mkBuild i f n c t, has) := s in let '(opt, optarg) := o in
  if decide (opt = "i"%char) then v ← string_arg optarg; Ret (mkBuild v f n c t, opt :: has)
  else if decide (opt = "o"%char) then v ← string_arg optarg; Ret (mkBuild i v n c t, opt :: has)
  else if decide (opt = "N"%char) then v ← stoi_arg optarg; Ret (mkBuild i f (u32 v) c t, opt :: has)
  else if decide (opt = "C"%char) then v ← stoi_arg optarg; Ret (mkBuild i f n (u32 v) t, opt :: has)
  else if decide (opt = "T"%char) then v ← stoi_arg optarg; Ret (mkBuild i f n c (u32 v), opt :: has)
  else Ret s.
Definition build_parse : options → outcome build_options :=
  parse_options build_step (mkBuild "" "" 0 0 0) ["i"; "o"; "N"; "C"; "T"]%char.
Definition build_main `{Host, Heap, BlockLib, K2Lib, OpenSSL} (fuel : nat) (opts : options)
    : st files (option ()) :=
  parsed ← lift (build_parse opts);
  build_k2tree_index fuel (bo_input_file parsed) (bo_output_file parsed)
    (mkConfig (bo_tree_depth parsed) (bo_max_node_count parsed) (bo_cut_depth parsed)).

(** ** cache_server.cpp *)

(** [std::tolower] on a [char]; a negative one is undefined. *)
Definition to_lower (c : Z) : outcome Z :=
  if decide (128 ≤ c) then UB else Ret (if decide (65 ≤ c ≤ 90) then c + 32 else c).
Definition strategy_of (s : string) : outcome REPLACEMENT_STRATEGY :=
  l ← foldM (λ l c, c ← to_lower c; Ret (l ++ [c])) [] (bytes_of s);
  Ret (if decide (l = bytes_of "lru") then LRU
       else if decide (l = bytes_of "frequency") then FREQUENCY
       else NO_CACHING).

Record server_options := mkOptions {
  op_index_file : string; op_node_ids_file : string; op_mapped_node_ids_filename : string;
  op_memory_budget_bytes : Z; op_port : Z; op_workers_count : Z; op_timeout_ms : Z;
  op_replacement_strategy : REPLACEMENT_STRATEGY;
  op_update_log_filename : string; op_node_ids_logs_filename : string;
  op_has_fic : bool; op_has_sort_results : bool
}.
Definition server_step (s : server_options * seen) (o : ascii * option string)
    : outcome (server_options * seen) :=
  let '(mkOptions i n d b p w t r u l f q, has) := s in let '(opt, optarg) := o in
  if decide (opt = "I"%char) then v ← string_arg optarg; Ret (mkOptions v n d b p w t r u l f q, opt :: has)
  else if decide (opt = "N"%char) then v ← string_arg optarg; Ret (mkOptions i v d b p w t r u l f q, opt :: has)
  else if decide (opt = "M"%char) then v ← string_arg optarg; Ret (mkOptions i n v b p w t r u l f q, opt :: has)
  else if decide (opt = "L"%char) then v ← string_arg optarg; Ret (mkOptions i n d b p w t r u v f q, opt :: has)
  else if decide (opt = "m"%char) then v ← stoul_arg optarg; Ret (mkOptions i n d v p w t r u l f q, opt :: has)
  else if decide (opt = "p"%char) then v ← stoi_arg optarg; Ret (mkOptions i n d b v w t r u l f q, opt :: has)
  else if decide (opt = "w"%char) then v ← stoi_arg optarg; Ret (mkOptions i n d b p v t r u l f q, opt :: has)
  else if decide (opt = "R"%char) then
    v ← string_arg optarg; v ← strategy_of v; Ret (mkOptions i n d b p w t v u l f q, opt :: has)
  else if decide (opt = "U"%char) then v ← string_arg optarg; Ret (mkOptions i n d b p w t r v l f q, opt :: has)
  else if decide (opt = "F"%char) then Ret (mkOptions i n d b p w t r u l true q, has)
  else if decide (opt = "S"%char) then Ret (mkOptions i n d b p w t r u l f true, has)
  else if decide (opt = "T"%char) then v ← stoi_arg optarg; Ret (mkOptions i n d b p w v r u l f q, opt :: has)
  else Ret s.
Definition no_options : server_options := mkOptions "" "" "" 0 0 0 0 NO_CACHING "" "" false false.
Definition server_required : seen := ["I"; "N"; "M"; "L"; "m"; "p"; "w"; "R"; "U"; "T"]%char.
Definition server_parse : options → outcome server_options :=
  parse_options server_step no_options server_required.

(** cache/CacheArgs.hpp. *)
Record CacheArgs := mkArgs {
  index_filename : string;
  memory_budget_bytes : Z;
  replacement_strategy : REPLACEMENT_STRATEGY;
  update_log_filename : string;
  node_ids_filename : string;
  mapped_node_ids_filename : string;
  node_ids_logs_filename : string;
  has_fic : bool;
  has_sort_results : bool;
  timeout_ms : Z
}.
Definition cache_args (parsed : server_options) : CacheArgs :=
  mkArgs (op_index_file parsed) (op_memory_budget_bytes parsed) (op_replacement_strategy parsed)
    (op_update_log_filename parsed) (op_node_ids_file parsed) (op_mapped_node_ids_filename parsed)
    (op_node_ids_logs_filename parsed) (op_has_fic parsed) (op_has_sort_results parsed) (op_timeout_ms parsed).

(** NodeIdsManagerFactory.cpp. *)
Definition NodeIdsManagerFactory_create (args : CacheArgs) (fs : files) : outcome NodeIdsManagerImpl :=
  new_NodeIdsManagerImpl (fs !! node_ids_filename args) (fs !! mapped_node_ids_filename args)
    (fs !! node_ids_logs_filename args) (fs !! (node_ids_logs_filename args +:+ ".counter")).

Section cache_server.
Context `{Clk : Clock, Hp : Heap, Blk : BlockLib, Lib : K2Lib, Ssl : OpenSSL, Prt : Protobuf, Ind : Indeterminate}.

(** CacheServer.hpp; [cs_tasks] is what the workers share. *)
Record CacheServer (C : Type) `{!FullyIndexedCache C PredicatesIndexCacheMD, !FullyIndexedCache C (PCMWithLog C)} :=
  mkServer {
    cs_port : Z;
    cs_tasks : CacheServerTaskProcessor (W := PCMWithLog C) (G := NodeIdsManagerImpl);
    cs_workers : nat
  }.
#[global] Arguments mkServer {C _ _}.
#[global] Arguments cs_port {C _ _}.
#[global] Arguments cs_tasks {C _ _}.
#[global] Arguments cs_workers {C _ _}.

Section start.
Context {C : Type} `{!FullyIndexedCache C PredicatesIndexCacheMD, !FullyIndexedCache C (PCMWithLog C)}.

(** UpdatesLoggerFilesManager.cpp names the files of the log. *)
Definition create_manager (args : CacheArgs) (fs : files) (mm : MemoryManager) (fic : C)
    : outcome (PCMWithLog C) :=
  PCMFactory_create (fs !! index_filename args) (fs !! update_log_filename args)
    (fs !! (update_log_filename args +:+ ".offsets")) (fs !! (update_log_filename args +:+ ".meta")) mm fic.
Definition create_container (args : CacheArgs) (fs : files) (mm : MemoryManager) (fic : C)
    : outcome (CacheContainerImpl (PCMWithLog C) NodeIdsManagerImpl) :=
  w ← create_manager args fs mm fic;
  g ← NodeIdsManagerFactory_create args fs;
  CacheContainerFactory_create (memory_budget_bytes args) (replacement_strategy args)
    (has_sort_results args) (timeout_ms args) w g.
(** The port and the number of workers are narrowed by [CacheServer]'s constructor. *)
Definition new_CacheServer (cache : CacheContainerImpl (PCMWithLog C) NodeIdsManagerImpl)
    (port workers_count : Z) : CacheServer C :=
  mkServer (u16 port) (new_CacheServerTaskProcessor cache) (Z.to_nat (u8 workers_count)).
Definition start_with (parsed : server_options) (fs : files) (mm : MemoryManager) (fic : C)
    : outcome (CacheServer C) :=
  cache ← create_container (cache_args parsed) fs mm fic;
  Ret (new_CacheServer cache (op_port parsed) (op_workers_count parsed)).
End start.

(** The class of the cache of indexed predicates depends on an option. *)
Inductive AnyServer :=
  | WithFic (s : CacheServer FullyIndexedCacheImpl)
  | WithoutFic (s : CacheServer NoFIC).
Definition server_main (opts : options) (fs : files) (mm : MemoryManager) : outcome AnyServer :=
  parsed ← server_parse opts;
  if decide (fs !! op_index_file parsed = None) then Throw RuntimeError
  else if decide (fs !! op_node_ids_file parsed = None) then Throw RuntimeError
  else if op_has_fic parsed then WithFic <$> start_with parsed fs mm FICFactory_create
  else WithoutFic <$> start_with parsed fs mm mkNoFIC.
End cache_server.

(** ** What the options say, whatever their order *)

Lemma foldM_snoc {A B} (f : A → B → outcome A) a l x :
  foldM f a (l ++ [x]) = (a' ← foldM f a l; f a' x).
Proof.
  revert a. induction l as [|y l IH]; intros a; simpl; [by destruct (f a x)|].
  destruct (f a y); simpl; [apply IH|done..].
Qed.

(** The value of an option: that of its last occurrence. *)
Definition last_arg (c : ascii) (opts : options) : option (option string) :=
  snd <$> last (filter (λ o, o.1 = c) opts).
Definition value_of {A} (dflt : A) (read : option string → outcome A) (c : ascii) (opts : options) : A :=
  match last_arg c opts with
  | Some a => match read a with Ret v => v | _ => dflt end
  | None => dflt
  end.
Definition given (c : ascii) (opts : options) : bool := bool_decide (c ∈ opts.*1).
Lemma value_of_snoc {A} (dflt : A) read c opts o :
  value_of dflt read c (opts ++ [o]) =
  if decide (o.1 = c) then match read o.2 with Ret v => v | _ => dflt end else value_of dflt read c opts.
Proof.
  unfold value_of, last_arg. rewrite filter_app, filter_cons, filter_nil. case_decide.
  - by rewrite last_snoc.
  - by rewrite app_nil_r.
Qed.
Lemma given_snoc c opts o : given c (opts ++ [o]) = if decide (o.1 = c) then true else given c opts.
Proof.
  unfold given. case_decide as E.
  - apply bool_decide_eq_true. rewrite fmap_app, elem_of_app. right. subst c. by left.
  - apply bool_decide_ext. rewrite fmap_app, elem_of_app. simpl. rewrite list_elem_of_singleton. naive_solver.
Qed.

Definition strategy_arg (optarg : option string) : outcome REPLACEMENT_STRATEGY :=
  s ← string_arg optarg; strategy_of s.
Definition server_options_of (opts : options) : server_options :=
  mkOptions (value_of "" string_arg "I" opts) (value_of "" string_arg "N" opts)
    (value_of "" string_arg "M" opts) (value_of 0 stoul_arg "m" opts) (value_of 0 stoi_arg "p" opts)
    (value_of 0 stoi_arg "w" opts) (value_of 0 stoi_arg "T" opts) (value_of NO_CACHING strategy_arg "R" opts)
    (value_of "" string_arg "U" opts) (value_of "" string_arg "L" opts) (given "F" opts) (given "S" opts).
(** The arguments can be read. *)
Definition readable {A} (read : option string → outcome A) (a : option string) : Prop := ∃ v, read a = Ret v.
Definition server_arg_ok (o : ascii * option string) : Prop :=
  (o.1 ∈ ["I"; "N"; "M"; "U"; "L"]%char → readable string_arg o.2) ∧
  (o.1 = "m"%char → readable stoul_arg o.2) ∧
  (o.1 ∈ ["p"; "w"; "T"]%char → readable stoi_arg o.2) ∧
  (o.1 = "R"%char → readable strategy_arg o.2).

(** A step sets one option and leaves the others. *)
Lemma server_step_spec opts has o : server_arg_ok o →
  ∃ has', server_step (server_options_of opts, has) o = Ret (server_options_of (opts ++ [o]), has') ∧
    ∀ c, c ∈ server_required → c ∈ has' ↔ c = o.1 ∨ c ∈ has.
Proof.
  intros (Hs & Hm & Hi & HR). destruct o as [opt optarg]. unfold strategy_arg in *. cbn [fst snd] in *.
  unfold server_options_of. rewrite !value_of_snoc, !given_snoc. cbn [fst snd]. unfold server_step.
  change (strategy_arg optarg) with (s ← string_arg optarg; strategy_of s).
  repeat match goal with
  | |- context [if decide (opt = ?c) then _ else _] =>
      destruct (decide (opt = c)) as [->|?]; [rewrite ?decide_True by done; rewrite ?decide_False by done|]
  end.
  all: match goal with
  | |- context [strategy_of] => destruct (HR eq_refl) as [v E]; destruct (string_arg _); cbn [mbind outcome_bind] in *;
      [rewrite E|done..]
  | |- context [string_arg _ ≫= _] => destruct (Hs ltac:(by repeat (left || right))) as [v E]; rewrite E
  | |- context [stoul_arg _ ≫= _] => destruct (Hm eq_refl) as [v E]; rewrite E
  | |- context [stoi_arg _ ≫= _] => destruct (Hi ltac:(by repeat (left || right))) as [v E]; rewrite E
  | _ => idtac
  end; cbn [mbind outcome_bind].
  all: eexists; split; [reflexivity|]; intros c Hc; try apply elem_of_cons.
  all: split; [by right|intros [->|?]; [|done]]; exfalso; unfold server_required in Hc;
    repeat (apply elem_of_cons in Hc as [?|Hc]; [congruence|]); by apply not_elem_of_nil in Hc.
Qed.

Lemma server_steps opts : Forall server_arg_ok opts →
  ∃ has, foldM server_step (no_options, []) opts = Ret (server_options_of opts, has) ∧
    ∀ c, c ∈ server_required → c ∈ has ↔ c ∈ opts.*1.
Proof.
  induction opts as [|o opts IH] using rev_ind; intros Hok.
  - exists []. split; [done|]. intros c _. done.
  - apply Forall_app in Hok as [Hok [Ho _]%Forall_cons]. destruct (IH Hok) as (has & E & Hhas).
    destruct (server_step_spec opts has o Ho) as (has' & E' & Hhas'). exists has'.
    rewrite foldM_snoc, E. split; [exact E'|]. intros c Hc. rewrite Hhas', Hhas by done.
    rewrite fmap_app, elem_of_app. simpl. rewrite list_elem_of_singleton. tauto.
Qed.
Lemma server_parse_spec opts : Forall server_arg_ok opts →
  server_parse opts =
  if decide (Forall (λ c, c ∈ opts.*1) server_required) then Ret (server_options_of opts) else Throw RuntimeError.
Proof.
  intros Hok. unfold server_parse, parse_options. destruct (server_steps opts Hok) as (has & -> & Hhas).
  cbn [mbind outcome_bind]. assert (Hiff : Forall (λ c, c ∈ has) server_required ↔ Forall (λ c, c ∈ opts.*1) server_required).
  { rewrite !Forall_forall. split; intros Hall c Hc; apply Hhas, Hall; done. }
  repeat case_decide; tauto.
Qed.

(** The options of the server mean what they say in any order: when their arguments
    can be read, parsing gives for each option the value of its last occurrence, and it
    throws if and only if an option that is required is not given. *)
Theorem server_options_correct opts : Forall server_arg_ok opts →
  server_parse opts =
  if decide (Forall (λ c, c ∈ opts.*1) server_required) then Ret (server_options_of opts) else Throw RuntimeError.
Proof. apply server_parse_spec. Qed.

(** ** The server of the files *)

(** Ids that no session has added to. *)
Definition fresh_ids (ids : list Z) : NodeIdsManagerImpl :=
  mkManager ids (new_NodesMapImpl ∅) (seq_get_last_assigned ids) 0 [] (OStream [] 0).
Lemma new_fresh_ids ids : Forall (in_u 64) ids → in_u 64 (Z.of_nat (length ids)) →
  new_NodeIdsManagerImpl (Some (ids_file ids)) None None None = Ret (fresh_ids ids).
Proof.
  intros Hids Hlen. unfold new_NodeIdsManagerImpl.
  change (get_reader (Some (ids_file ids))) with (stream_at [] (ids_file ids)).
  pose proof (parses_at _ _ _ [] [] (seq_parses ids Hlen Hids)) as Hp. rewrite app_nil_r in Hp.
  unfold ids_file. rewrite Hp. cbn [mbind outcome_bind]. reflexivity.
Qed.
Lemma fresh_ids_ok ids : sorted_ids ids → Z.of_nat (length ids) < u64_max →
  ids_ok (fresh_ids ids) ∧ next_id (fresh_ids ids) = Z.of_nat (length ids) ∧
  ∀ x, get_id x (fresh_ids ids) = seq_get_id ids x.
Proof.
  intros Hs Hlen. assert (Hn : next_id (fresh_ids ids) = Z.of_nat (length ids)).
  { unfold next_id, fresh_ids. simpl. unfold seq_get_last_assigned, u64, uwrap.
    rewrite Zplus_mod_idemp_l, Z.sub_add. apply Z.mod_small. unfold u64_max in Hlen. lia. }
  split; [|split; [done|]].
  - by constructor; rewrite ?Hn.
  - intros x. unfold get_id. simpl. case_decide as E; [done|].
    unfold map_get_id. simpl. by rewrite lookup_empty, E.
Qed.

Section startup.
Context `{Clk : Clock, Hp : Heap, Blk : BlockLib, Lib : K2Lib, Ssl : OpenSSL, Prt : Protobuf, Ind : Indeterminate}.

(** The files a server starts with for the first time: an index that opens, ids, and
    neither ids added nor updates logged. *)
Record first_start (o : server_options) (fs : files) (mm : MemoryManager) (i : PredicatesIndexCacheMD)
    (ids : list Z) : Prop := {
  fs_index : is_Some (fs !! op_index_file o);
  fs_opens : new_PredicatesIndexCacheMD (fs !! op_index_file o) mm = Ret i;
  fs_ids : fs !! op_node_ids_file o = Some (ids_file ids);
  fs_range : Forall (in_u 64) ids;
  fs_few : Z.of_nat (length ids) < u64_max;
  fs_mapped : fs !! op_mapped_node_ids_filename o = None;
  fs_ids_log : fs !! op_node_ids_logs_filename o = None;
  fs_counter : fs !! (op_node_ids_logs_filename o +:+ ".counter") = None;
  fs_log : fs !! op_update_log_filename o = None;
  fs_offsets : fs !! (op_update_log_filename o +:+ ".offsets") = None;
  fs_meta : fs !! (op_update_log_filename o +:+ ".meta") = None
}.

Section start.
Context {C : Type} `{!FullyIndexedCache C PredicatesIndexCacheMD, !FullyIndexedCache C (PCMWithLog C)}.

(** The manager of an index that was just opened. *)
Definition opened_manager (i : PredicatesIndexCacheMD) (fic : C) : PCMWithLog C :=
  mkLogger (mkPCM (set_update_logger i) fic) None None None None None (get_reader_writer None) ∅ None.
Lemma create_manager_spec o fs mm i ids fic : first_start o fs mm i ids →
  create_manager (cache_args o) fs mm fic = Ret (opened_manager i fic).
Proof.
  intros [Hidx Hopen _ _ _ _ _ _ Hlog Hoff Hmeta]. unfold create_manager, cache_args.
  cbn [index_filename update_log_filename]. rewrite Hlog, Hoff, Hmeta.
  unfold PCMFactory_create. cbn [new_UpdatesLoggerImpl retrieve_offsets_map mbind outcome_bind].
  rewrite Hopen. reflexivity.
Qed.
(** The state of a server that has just started, and who it serves it with. *)
Definition started (o : server_options) (i : PredicatesIndexCacheMD) (ids : list Z) (fic : C) : CacheServer C :=
  new_CacheServer (mkContainer (opened_manager i fic) (fresh_ids ids)
    (create_cache_replacement (op_memory_budget_bytes o) (op_replacement_strategy o))
    (op_replacement_strategy o) (op_has_sort_results o) (op_timeout_ms o)) (op_port o) (op_workers_count o).
Lemma start_with_spec o fs mm i ids fic : first_start o fs mm i ids → op_replacement_strategy o ≠ NO_CACHING →
  start_with o fs mm fic = Ret (started o i ids fic).
Proof.
  intros Hf Hs. unfold start_with, create_container. rewrite (create_manager_spec o fs mm i ids) by done.
  cbn [mbind outcome_bind]. unfold NodeIdsManagerFactory_create, cache_args.
  cbn [node_ids_filename mapped_node_ids_filename node_ids_logs_filename memory_budget_bytes
    replacement_strategy has_sort_results timeout_ms].
  destruct Hf as [_ _ Hids Hrange Hfew Hm Hl Hc _ _ _]. rewrite Hids, Hm, Hl, Hc.
  rewrite new_fresh_ids by (done || unfold in_u, u64_max in *; lia). cbn [mbind outcome_bind].
  unfold CacheContainerFactory_create. by rewrite decide_False by done.
Qed.
End start.

Lemma server_main_spec opts fs mm i ids : Forall server_arg_ok opts →
  Forall (λ c, c ∈ opts.*1) server_required → let o := server_options_of opts in
  first_start o fs mm i ids → op_replacement_strategy o ≠ NO_CACHING →
  server_main opts fs mm = Ret (if op_has_fic o then WithFic (started o i ids FICFactory_create)
                                else WithoutFic (started o i ids mkNoFIC)).
Proof.
  intros Hok Hreq o Hf Hs. unfold server_main. rewrite server_parse_spec, decide_True by done.
  cbn [mbind outcome_bind]. fold o. pose proof Hf as [[d Hd] _ Hids _ _ _ _ _ _ _ _].
  rewrite Hd, decide_False by done. rewrite Hids, decide_False by done.
  destruct (op_has_fic o); by rewrite (start_with_spec o fs mm i ids).
Qed.
End startup.

(** What a server that was just started holds. *)
Section opened.
Context `{Hp : Heap, Blk : BlockLib, !BlockLibLaws, Lib : K2Lib, !K2LibLaws, Ssl : OpenSSL}.
Context {C : Type} `{FC : !FullyIndexedCache C PredicatesIndexCacheMD, FCL : !FullyIndexedCacheLaws C}.

Lemma opened_ok data i (fic : C) : index_ok data i → fic_ok fic (set_update_logger i) →
  let w := opened_manager i fic in
  host_ok w ∧ index_ok data (index_of w) ∧ ∀ p, index_points data w p = main_points data i p.
Proof.
  intros Hi Hfic w. assert (Hi' : index_ok data (set_update_logger i)) by (destruct Hi; by constructor).
  split; [|split; [done|]].
  - split; [exact Hfic|]. exists []. constructor; [|done|by constructor|done].
    intros p. simpl. by rewrite lookup_empty.
  - intros p. unfold index_points, main_points, logged. simpl.
    assert (Hlog : is_stored_in_updates_log p w = false).
    { unfold is_stored_in_updates_log. simpl. unfold UpdatesLog.has_predicate_stored. simpl.
      by rewrite lookup_empty. }
    rewrite Hlog. destruct (predicates i !! p) as [[t|]|]; [done|..];
      by destruct (metadata_map (metadata i) !! p).
Qed.
End opened.

(** ** A server without workers *)

Lemma no_worker_step {T} (s s' : processor (T := T)) : any_step s s' → workers s = [] →
  workers s' = [] ∧ executed s' = executed s.
Proof.
  intros Hs Hw. destruct Hs as [s s' Hs|i s s' Hc]; [destruct Hs as [j s s' Hc|i s s' Hc]|].
  - unfold caller_step in Hc. destruct (callers s !! j) as [[|c cs]|]; [done| |done].
    destruct (call_step c s) as [s1|] eqn:E; [|done]. injection Hc as <-. simpl.
    destruct c; simpl in E; rewrite ?Hw in E; [by injection E as <-|done..].
  - unfold worker_step in Hc. by rewrite Hw in Hc.
  - unfold spurious_step in Hc. by rewrite Hw in Hc.
Qed.
Lemma no_workers_idle {T} threads (s : processor (T := T)) :
  rtc any_step (start_workers 0 threads) s → executed s = [].
Proof.
  intros Hr. assert (Hinv : workers s = [] ∧ executed s = []); [|by destruct Hinv].
  remember (start_workers 0 threads) as s0 eqn:E0.
  assert (H0 : workers s0 = [] ∧ executed s0 = []) by (by subst s0). clear E0.
  induction Hr as [|s1 s2 s3 Hs _ IH]; [done|]. destruct H0 as [Hw He].
  apply IH. destruct (no_worker_step s1 s2 Hs Hw) as [? ->]. done.
Qed.

Section no_workers.
Context `{Clk : Clock, Hp : Heap, Blk : BlockLib, Lib : K2Lib, Ssl : OpenSSL, Prt : Protobuf, Ind : Indeterminate}.
Definition workers_of (s : AnyServer) : nat :=
  match s with WithFic s => cs_workers s | WithoutFic s => cs_workers s end.

(** C35: The number of workers is narrowed to eight bits, so a server told to start with
    256 workers, or a multiple of it, starts with none: whatever its other threads do,
    no task ever runs, so no connection is served. *)
Theorem no_workers opts fs mm i ids : Forall server_arg_ok opts →
  Forall (λ c, c ∈ opts.*1) server_required → let o := server_options_of opts in
  first_start o fs mm i ids → op_replacement_strategy o ≠ NO_CACHING → op_workers_count o mod 256 = 0 →
  ∃ s, server_main opts fs mm = Ret s ∧
    ∀ T threads (p : processor (T := T)), rtc any_step (start_workers (workers_of s) threads) p → executed p = [].
Proof.
  intros Hok Hreq o Hf Hs Hw. eexists. split; [by apply (server_main_spec opts fs mm i ids)|].
  intros T threads p Hr. assert (Hz : Z.to_nat (u8 (op_workers_count o)) = 0%nat).
  { unfold u8, uwrap. change (2 ^ 8) with 256. by rewrite Hw. }
  apply (no_workers_idle threads). rewrite <-Hz. fold o in Hr.
  destruct (op_has_fic o); exact Hr.
Qed.
End no_workers.

(** ** From text to a server *)

Section text.
Context `{Clk : Clock, Hp : Heap, Blk : BlockLib, !BlockLibLaws, Lib : K2Lib, !K2LibLaws, !MeasureLaws,
          Ssl : OpenSSL, !OpenSSLLaws, Prt : Protobuf, Ind : Indeterminate}.

(** What a server shares between its clients: the ids and the points, whichever class
    its cache of indexed predicates has. *)
Definition ids_of (s : AnyServer) : NodeIdsManagerImpl :=
  match s with WithFic s => nis (cache (cs_tasks s)) | WithoutFic s => nis (cache (cs_tasks s)) end.
Definition points_served (data : list Z) (s : AnyServer) (p : Z) : option (gset (Z * Z)) :=
  match s with
  | WithFic s => index_points data (cc_pcm (cache (cs_tasks s))) p
  | WithoutFic s => index_points data (cc_pcm (cache (cs_tasks s))) p
  end.
Definition any_server_ok (data : list Z) (s : AnyServer) : Prop :=
  match s with
  | WithFic s => server_ok (cs_tasks s) ∧
      host_ok (cc_pcm (cache (cs_tasks s))) ∧ index_ok data (index_of (cc_pcm (cache (cs_tasks s))))
  | WithoutFic s => server_ok (cs_tasks s) ∧
      host_ok (cc_pcm (cache (cs_tasks s))) ∧ index_ok data (index_of (cc_pcm (cache (cs_tasks s))))
  end.

Lemma started_ok data o i ids : index_ok data i → op_replacement_strategy o ≠ NO_CACHING →
  let s := if op_has_fic o then WithFic (started o i ids FICFactory_create)
           else WithoutFic (started o i ids mkNoFIC) in
  any_server_ok data s ∧ ids_of s = fresh_ids ids ∧ ∀ p, points_served data s p = main_points data i p.
Proof.
  intros Hi Hs. cbv zeta.
  assert (Hf : fetcher_ok (set_update_logger i)).
  { eapply index_fetcher_ok. destruct Hi. by constructor. }
  destruct (op_has_fic o).
  - destruct (opened_ok data i FICFactory_create Hi (FICFactory_ok _ Hf)) as (Hh & Hi' & Hpt).
    split; [|split; [done|exact Hpt]]. split; [|done]. eapply new_server_ok.
    unfold CacheContainerFactory_create. by rewrite (decide_False (P := op_replacement_strategy o = NO_CACHING)).
  - assert (Hn : fic_ok mkNoFIC (set_update_logger i)) by exact Hf.
    destruct (opened_ok data i mkNoFIC Hi Hn) as (Hh & Hi' & Hpt).
    split; [|split; [done|exact Hpt]]. split; [|done]. eapply new_server_ok.
    unfold CacheContainerFactory_create. by rewrite (decide_False (P := op_replacement_strategy o = NO_CACHING)).
Qed.

(** Nothing was added to the ids and nothing was logged yet. *)
Definition no_history (o : server_options) (fs : files) : Prop :=
  fs !! op_mapped_node_ids_filename o = None ∧ fs !! op_node_ids_logs_filename o = None ∧
  fs !! (op_node_ids_logs_filename o +:+ ".counter") = None ∧ fs !! op_update_log_filename o = None ∧
  fs !! (op_update_log_filename o +:+ ".offsets") = None ∧ fs !! (op_update_log_filename o +:+ ".meta") = None.

Context `{Hst : Host, Ext : ExternalSortLib, !ExternalSortLaws, StdAlgorithmsLaws, PoolScheduleRuns}.

(** C3: From a text of triples to a server of them. After the programs that prepare the
    files, the server starts on the two files they made: its state is well formed, and in the
    points it serves the triples of the text, and no others, are found at the ids that
    its ids manager gives to their terms. *)
Theorem text_served text bin nodes translated sorted tmp_dir index workers memory config l fs opts :
  ingest_input text bin nodes translated sorted tmp_dir index workers memory config l fs →
  Forall server_arg_ok opts → Forall (λ c, c ∈ opts.*1) server_required →
  let o := server_options_of opts in
  op_index_file o = index → op_node_ids_file o = nodes → op_replacement_strategy o ≠ NO_CACHING →
  ∃ k, ∀ fuel, (k ≤ S fuel)%nat → (length l ≤ fuel)%nat → ∃ fs' data ids,
    ingest fuel text bin nodes translated sorted tmp_dir index workers memory config fs = Ret (Some (), fs') ∧
    fs' !! index = Some data ∧ fs' !! nodes = Some ids ∧
    (Z.of_nat (length data) < 2 ^ 63 → ∀ files mm,
       files !! index = Some data → files !! nodes = Some ids → no_history o files → ∃ server,
       server_main opts files mm = Ret server ∧ any_server_ok data server ∧ ids_ok (ids_of server) ∧
       ∀ s p r, s ∈ nodes_of l → p ∈ nodes_of l → r ∈ nodes_of l →
         let id x := get_id x (ids_of server) in
         (id s, id r) ∈ default ∅ (points_served data server (id p)) ↔ mkTriple s p r ∈ l).
Proof.
  intros Hin Hok Hreq o Hidx Hnodes Hst'. destruct (ingest_spec _ _ _ _ _ _ _ _ _ _ _ _ Hin) as [k Hk].
  exists k. intros fuel Hf1 Hf2. destruct (Hk fuel Hf1 Hf2) as (fs' & ids & data & E & Hn & Hs & Hx & Hi & Hopen).
  exists fs', data, (ids_file ids). split_and!; [done..|]. intros HD files mm Hfi Hfn (Hm & Hl & Hc & Hu & Ho & Hmeta).
  destruct (Hopen HD mm) as (i & Ei & Hiok & Hpts).
  assert (Hfew : Z.of_nat (length ids) < u64_max) by (eapply ids_few; [done..|apply Hin]).
  destruct (fresh_ids_ok ids Hs Hfew) as (Hids & _ & Hget).
  destruct (started_ok data o i ids Hiok Hst') as (Hsrv & Eids & Epts).
  eexists. split; [|split; [exact Hsrv|split; [by rewrite Eids|]]].
  - apply (server_main_spec opts files mm i ids); [done..| |done]. fold o. constructor; rewrite ?Hidx, ?Hnodes, ?Hfi; try done.
    apply Forall_forall. intros x Hx'. apply Hx in Hx'.
    eapply Forall_forall; [apply nodes_of_range, Hin|done].
  - intros s p r Hs' Hp' Hr'. cbv zeta. rewrite Eids, Epts, !Hget. apply Hpts; by apply Hx.
Qed.
End text.

(** ** Instances of the theorems *)
Section witnesses.
#[local] Existing Instance toy_block_lib.
#[local] Existing Instance toy_block_laws.
#[local] Existing Instance Toy.toy_k2_lib.
#[local] Existing Instance toy_measure_laws.
#[local] Existing Instance toy_openssl.
#[local] Existing Instance toy_openssl_laws.
#[local] Existing Instance toy_heap.
#[local] Existing Instance frozen_clock.
#[local] Existing Instance toy_protobuf.
#[local] Existing Instance toy_indeterminate.
#[local] Existing Instance toy_sort_lib.
#[local] Existing Instance toy_sort_laws.

Instance readable_dec {A} (read : option string → outcome A) a : Decision (readable read a).
Proof. unfold readable. destruct (read a) as [v| |]; [left; by exists v|right; by intros [? ?]..]. Defined.

Definition toy_options (workers : string) : options :=
  [("w"%char, Some "8"); ("I"%char, Some "index"); ("N"%char, Some "ids"); ("M"%char, Some "mapped"); ("L"%char, Some "ids.log"); ("m"%char, Some "1000");
   ("p"%char, Some "1234"); ("R"%char, Some "LRU"); ("U"%char, Some "updates"); ("T"%char, Some "60000"); ("F"%char, None); ("w"%char, Some workers)].
Example toy_parsed : server_parse (toy_options "2") =
  Ret (mkOptions "index" "ids" "mapped" 1000 1234 2 60000 LRU "updates" "ids.log" true false).
Proof. reflexivity. Qed.
Example no_timeout : server_parse [("I"%char, Some "index")] = Throw RuntimeError.
Proof. reflexivity. Qed.
Example timeout_without_argument : server_parse [("T"%char, None)] = UB.
Proof. reflexivity. Qed.
(** The amount is in kilobytes, and is taken for bytes. *)
Example meminfo : mem_total_of 100 (bytes_of "MemTotal:       16316412 kB") = 16316412.
Proof. reflexivity. Qed.

Lemma toy_args w : w ∈ ["2"; "256"] → Forall server_arg_ok (toy_options w).
Proof.
  intros Hw. repeat (apply elem_of_cons in Hw as [->|Hw]; [by apply (bool_decide_unpack _); vm_compute|]).
  by apply not_elem_of_nil in Hw.
Qed.
Lemma toy_required w : Forall (λ c, c ∈ (toy_options w).*1) server_required.
Proof. by apply (bool_decide_unpack _); vm_compute. Qed.
Lemma server_options_correct_witness :
  server_parse (toy_options "2") =
  if decide (Forall (λ c, c ∈ (toy_options "2").*1) server_required) then Ret (server_options_of (toy_options "2"))
  else Throw RuntimeError.
Proof. apply (server_options_correct (toy_options "2")). apply toy_args. by left. Defined.

Lemma text_served_witness : ∃ k, ∀ fuel, (k ≤ S fuel)%nat → (length toy_lines ≤ fuel)%nat → ∃ fs' data ids,
  ingest fuel "in" "bin" "ids" "tr" "sorted" "tmp" "index" 2 1000000000 (mkConfig 8 256 1) toy_text = Ret (Some (), fs') ∧
  (Z.of_nat (length data) < 2 ^ 63 → ∃ server,
     server_main (toy_options "2") {[ "index" := data; "ids" := ids ]} empty_manager = Ret server ∧
     any_server_ok data server ∧
     (get_id 10 (ids_of server), get_id 30 (ids_of server)) ∈
       default ∅ (points_served data server (get_id 5 (ids_of server))) ∧
     (get_id 30 (ids_of server), get_id 10 (ids_of server)) ∉
       default ∅ (points_served data server (get_id 5 (ids_of server)))).
Proof.
  destruct (text_served "in" "bin" "ids" "tr" "sorted" "tmp" "index" 2 1000000000 (mkConfig 8 256 1) toy_lines toy_text
    (toy_options "2") toy_ingest_input) as [k Hk]; [apply toy_args; by left|apply toy_required|done..|].
  exists k. intros fuel Hf1 Hf2. destruct (Hk fuel Hf1 Hf2) as (fs' & data & ids & E & _ & _ & Hserve).
  exists fs', data, ids. split; [done|]. intros HD.
  destruct (Hserve HD {[ "index" := data; "ids" := ids ]} empty_manager) as (s & Es & Hs & _ & Hpts).
  - reflexivity.
  - reflexivity.
  - repeat split.
  - exists s. split_and!; [done..| |].
    + apply (Hpts 10 5 30); [by apply (bool_decide_unpack _); vm_compute..|by left].
    + intros Hin. apply (Hpts 30 5 10) in Hin; [|by apply (bool_decide_unpack _); vm_compute..].
      by apply (bool_decide_pack _) in Hin; vm_compute in Hin.
Defined.

Definition toy_files : files := {[ "index" := toy_file; "ids" := ids_file [10; 30] ]}.
Lemma no_workers_witness : ∃ s, server_main (toy_options "256") toy_files empty_manager = Ret s ∧
  ∀ T threads (p : processor (T := T)), rtc any_step (start_workers (workers_of s) threads) p → executed p = [].
Proof.
  eapply (no_workers (toy_options "256") toy_files empty_manager _ [10; 30]); [apply toy_args; by right; left|apply toy_required| |done|done].
  constructor; [eexists; vm_compute; reflexivity|vm_compute; reflexivity|vm_compute; reflexivity| |done|vm_compute; reflexivity..].
  repeat constructor; done.
Defined.
End witnesses.
