(* ===== verification/Accept.v ===== *)
(** * network/server: accepting connections

    TCPServerConnection.cpp, the loop of the main thread that accepts the connections of
    clients and hands them to the workers, and CacheServer.cpp, which starts both. The
    calls of the system are parameters: what they return. *)
From S2P Require Import Prelude Memory Blocks K2Tree Hashing PredicatesIndex Fic Manager BGPProcessor Server.
From S2P Require Import ServerWorker Startup.

Local Open Scope Z_scope.

(** ** TCPServerConnection.cpp *)

(** Whether the calls that open a socket, bind it to a port and listen on it succeed. *)
Class Listening := { socket_opens : bool; binds : Z → bool; listens : bool }.
Inductive start_error := CantEstablishSocket (port : Z) | CantBindToPort (port : Z) | CantStartListening (port : Z).

(** A turn of the loop: what [is_running] says, and the socket of a client, unless
    [accept] fails. After the last turn [accept] does not return. *)
Record turn := mkTurn { is_running : bool; accepted : option Z }.
Fixpoint accept_loop (workers_count : nat) (turns : list turn) : list (call (T := Z)) :=
  match turns with
  | [] => []
  | t :: turns =>
      if is_running t then
        match accepted t with
        | None => accept_loop workers_count turns
        | Some client_socket_fd => process_request workers_count client_socket_fd ++ accept_loop workers_count turns
        end
      else []
  end.
Definition start_connection `{Listening} (port : Z) (workers_count : nat) (turns : list turn)
    : start_error + list (call (T := Z)) :=
  if negb socket_opens then inl (CantEstablishSocket port)
  else if negb (binds port) then inl (CantBindToPort port)
  else if negb listens then inl (CantStartListening port)
  else inr (accept_loop workers_count turns).

(** ** CacheServer.cpp *)
Section start.
Context `{Clk : Clock, Hp : Heap, Blk : BlockLib, Lib : K2Lib, Ssl : OpenSSL, Prt : Protobuf, Ind : Indeterminate}.
Context {C : Type} `{!FullyIndexedCache C PredicatesIndexCacheMD, !FullyIndexedCache C (PCMWithLog C)}.

(** [start]: the workers, and the loop in this thread. *)
Definition start `{Listening} (s : CacheServer C) (turns : list turn) : start_error + processor (T := Z) :=
  match start_connection (cs_port s) (cs_workers s) turns with
  | inl e => inl e
  | inr calls => inr (start_workers (cs_workers s) [calls])
  end.
End start.

(** ** Every connection is served at most once, and not lost *)

(** The connections accepted until the loop sees that it is to stop. *)
Fixpoint connections (turns : list turn) : list Z :=
  match turns with
  | [] => []
  | t :: turns => if is_running t then option_list (accepted t) ++ connections turns else []
  end.
Lemma to_push_loop n turns : to_push [accept_loop n turns] = connections turns.
Proof.
  unfold to_push. rewrite bind_cons, app_nil_r. induction turns as [|[r a] turns IH]; [done|]. simpl.
  destruct r; [|done]. destruct a as [c|]; [|done]. simpl. f_equal. rewrite bind_app, IH.
  assert (E : (Notify <$> seq 0 n : list (call (T := Z))) ≫= pushed = []) by (by induction (seq 0 n)).
  by rewrite E.
Qed.

Section served.
Context `{Clk : Clock, Hp : Heap, Blk : BlockLib, Lib : K2Lib, Ssl : OpenSSL, Prt : Protobuf, Ind : Indeterminate}.
Context {C : Type} `{!FullyIndexedCache C PredicatesIndexCacheMD, !FullyIndexedCache C (PCMWithLog C)}.

(** A server starts when the three calls succeed, and otherwise reports the first that does
    not; once it has started, however its threads move, the connections that have run, that
    run, that wait in the queue and that are still to be accepted are those that are accepted
    until the loop is told to stop, each of them once. *)
Theorem connections_kept `{Listening} (s : CacheServer C) turns :
  match start s turns with
  | inl (CantEstablishSocket port) => port = cs_port s ∧ socket_opens = false
  | inl (CantBindToPort port) => port = cs_port s ∧ socket_opens = true ∧ binds port = false
  | inl (CantStartListening port) => port = cs_port s ∧ socket_opens = true ∧ binds port = true ∧ listens = false
  | inr p0 => ∀ p, rtc any_step p0 p →
      tasks p ++ (workers p ≫= held) ++ executed p ++ to_push (callers p) ≡ₚ connections turns
  end.
Proof.
  unfold start, start_connection. destruct socket_opens; [|done]. destruct (binds (cs_port s)) eqn:Eb; [|done].
  destruct listens; [|done]. cbn [negb]. intros p Hr. rewrite <-(to_push_loop (cs_workers s)). by eapply tasks_kept.
Qed.
End served.

(** The loop sees that it is told to stop only before it accepts: a client that comes
    after that, and before the loop looks, is still served. *)
Example stopped_late : accept_loop 1 [mkTurn true (Some 4); mkTurn true None; mkTurn true (Some 5); mkTurn false (Some 6)] =
  process_request 1 4 ++ process_request 1 5.
Proof. reflexivity. Qed.
