(* ===== verification/Tools.v ===== *)
(** * scripts: the tools that print what a server holds

    The programs that read the files of a server and print them: the triples of an index
    file, the ids, the number of triples, some paths; and those that make files for tests. *)
From Stdlib Require Import Ascii.
From stdpp Require Import strings.
From S2P Require Import Prelude Streams Memory Blocks K2Tree Scanners Fetcher Hashing Replacement.
From S2P Require Import NodeIds UpdatesLog PredicatesIndex Fic Manager ParallelWorker PriorityQueue TripleSort ExternalSort.
From S2P Require Import Builder Server SearchPaths Ingest Startup RandomData.

Local Open Scope Z_scope.

(** ** print_k2tree_index.cpp *)
Section print_index.
Context `{Hst : Host, Hp : Heap, Blk : BlockLib, Lib : K2Lib, Ssl : OpenSSL}.
Notation index := PredicatesIndexCacheMD.

Record DataHolder := mkHolder { dh_ofs : ostream; dh_predicate_id : Z; dh_total_triples : Z }.

(** The callback of the scan. *)
Definition print_point (dh : outcome DataHolder) (p : Z * Z) : outcome DataHolder :=
  dh ← dh;
  let '(col, row) := p in
  '(_, ofs) ← write_to_file (mkTriple col (dh_predicate_id dh) row) (dh_ofs dh);
  Ret (mkHolder ofs (dh_predicate_id dh) (u64 (dh_total_triples dh + 1))).
Definition print_predicate (acc : index * Z) (predicate_id : Z) : wr (index * Z) := λ ofs,
  let '(pc, total_triples) := acc in
  '(fetch_result, pc) ← index_fetch_k2tree predicate_id pc;
  t ← fetch_get fetch_result;
  dh ← scan_points t print_point (Ret (mkHolder ofs predicate_id total_triples));
  data_holder ← dh;
  Ret ((discard_in_memory_predicate predicate_id pc, dh_total_triples data_holder), dh_ofs data_holder).
(** The number of triples is written once they are counted, over a zero. *)
Definition print_index (pc : index) : wr () :=
  start ← tellp;
  write_u64 0;;
  acc ← loop print_predicate (pc, 0) (get_predicates_ids pc);
  seekp start;;
  write_u64 acc.2.
(** The output is another file than the index. *)
Definition print_k2tree_index (input_file output_file : string) (mm : MemoryManager) : st files () := λ fs,
  if decide (fs !! input_file = None) then Throw RuntimeError
  else
    pc ← new_PredicatesIndexCacheMD (fs !! input_file) mm;
    write_out output_file (print_index pc) (open_out output_file fs).
Definition print_index_main (opts : options) (mm : MemoryManager) : st files () :=
  parsed ← lift (io_parse opts); print_k2tree_index (io_input_file parsed) (io_output_file parsed) mm.

(** ** debug_read_k2trees_metadata.cpp: the number it prints *)

Definition count_points (acc : index * Z) (predicate_id : Z) : outcome (index * Z) :=
  '(fetch_result, predicates_manager) ← index_fetch_k2tree predicate_id acc.1;
  t ← fetch_get fetch_result;
  Ret (predicates_manager, u64 (acc.2 + size t)).
Definition total_points (input_file : option (list Z)) (mm : MemoryManager) : outcome Z :=
  if decide (input_file = None) then Throw RuntimeError
  else
    predicates_manager ← new_PredicatesIndexCacheMD input_file mm;
    '(_, total_points) ← foldM count_points (predicates_manager, 0) (get_predicates_ids predicates_manager);
    Ret total_points.
Definition metadata_step (s : string * seen) (o : ascii * option string) : outcome (string * seen) :=
  let '(i, has) := s in let '(opt, optarg) := o in
  if decide (opt = "i"%char) then v ← string_arg optarg; Ret (v, opt :: has) else Ret s.
Definition metadata_parse : options → outcome string := parse_options metadata_step "" ["i"%char].
Definition metadata_main (opts : options) (fs : files) (mm : MemoryManager) : outcome Z :=
  input_file ← metadata_parse opts; total_points (fs !! input_file) mm.
End print_index.

(** ** print_nodeids.cpp *)
Section print_ids.
Context `{Hst : Host}.

Definition id_line (nodeid : Z) : list Z := decimal_u64 nodeid ++ [newline].
Definition print_id (ifs : istream) (_ : nat) : wr istream :=
  r ← lift (read_u64 ifs); let '(nodeid, ifs) := r in os_write (id_line nodeid);; mret ifs.
Definition print_ids (total_nodes : Z) (ifs : istream) : wr istream :=
  loop print_id ifs (seq 0 (Z.to_nat total_nodes)).
Definition print_nodeids (input_file output_file : string) : st files () := λ fs,
  let fs := open_out output_file fs in
  '(total_nodes, ifs) ← read_u64 (get_reader (fs !! input_file));
  write_out output_file (print_ids total_nodes ifs;; mret ()) fs.
Definition print_ids_main (opts : options) : st files () :=
  parsed ← lift (io_parse opts); print_nodeids (io_input_file parsed) (io_output_file parsed).
End print_ids.

(** ** build_k2tree_index_debug.cpp *)
Section build_debug.
Context `{Hst : Host, Hp : Heap, Blk : BlockLib, Lib : K2Lib, Ssl : OpenSSL}.

Record debug_options := mkDebug { do_build : build_options; do_exhaustive_check : bool }.
Definition debug_options_step (s : debug_options * seen) (o : ascii * option string)
    : outcome (debug_options * seen) :=
  let '(mkDebug b e, has) := s in
  if decide (o.1 = "E"%char) then Ret (mkDebug b true, has)
  else '(b, has) ← build_step (b, has) o; Ret (mkDebug b e, has).
Definition debug_parse : options → outcome debug_options :=
  parse_options debug_options_step (mkDebug (mkBuild "" "" 0 0 0) false) ["i"; "o"; "N"; "C"; "T"]%char.
Definition build_k2tree_index_debug (fuel : nat) (input_file output_file : string) (config : K2TreeConfig)
    (exhaustive_check : bool) : st files (option ()) := λ fs,
  match fs !! input_file with
  | None => Throw RuntimeError
  | Some _ =>
      let tmp_fname := output_file +:+ ".tmp" in
      let fs := open_out output_file fs in
      '(m, bytes) ← file_of (build_debug exhaustive_check fuel (get_reader (fs !! input_file)) (os_end []) config);
      match m with
      | None => Ret (None, fs)
      | Some _ =>
          '(_, fs) ← write_out output_file (os_write bytes) fs;
          Ret (Some (), delete tmp_fname fs)
      end
  end.
Definition build_debug_main (fuel : nat) (opts : options) : st files (option ()) :=
  parsed ← lift (debug_parse opts);
  let b := do_build parsed in
  build_k2tree_index_debug fuel (bo_input_file b) (bo_output_file b)
    (mkConfig (bo_tree_depth b) (bo_max_node_count b) (bo_cut_depth b)) (do_exhaustive_check parsed).
End build_debug.

(** ** random_dataset_gen.cpp and random_nt_dataset_generate.cpp *)
Section random_programs.
Context {R : Type} `{RandomSource R} `{Hst : Host, Blk : BlockLib, Lib : K2Lib, Ssl : OpenSSL}.

Record random_options := mkRandom { ro_triples_num : Z; ro_resources_num : Z; ro_dataset_name : string }.
Definition random_step (s : random_options * seen) (o : ascii * option string) : outcome (random_options * seen) :=
  let '(mkRandom t r d, has) := s in let '(opt, optarg) := o in
  if decide (opt = "t"%char) then v ← stoul_arg optarg; Ret (mkRandom v r d, opt :: has)
  else if decide (opt = "r"%char) then v ← stoul_arg optarg; Ret (mkRandom t v d, opt :: has)
  else if decide (opt = "d"%char) then v ← string_arg optarg; Ret (mkRandom t r v, opt :: has)
  else Ret s.
Definition random_parse : options → outcome random_options :=
  parse_options random_step (mkRandom 0 0 "") ["t"; "r"; "d"]%char.

(** The checks of both programs; the exit code of a number out of range. *)
Definition numbers_ok (opts : random_options) : bool :=
  bool_decide (0 < ro_resources_num opts) && bool_decide (ro_resources_num opts < Z.shiftl 1 32) &&
  bool_decide (0 < ro_triples_num opts).
Definition random_config : K2TreeConfig := mkConfig 32 128 10.
(** The temporary file is one that can be opened; [None]: out of fuel. *)
Definition random_dataset_gen (fuel : nat) (opts : random_options) (r : R) : st files (option Z) := λ fs,
  if negb (numbers_ok opts) then Ret (Some 1, fs)
  else
    let node_ids_file := ro_dataset_name opts +:+ ".nodeids.bin" in
    let fs := open_out node_ids_file (open_out (ro_dataset_name opts) fs) in
    m ← generate_random_dataset fuel random_config (ro_triples_num opts) (ro_resources_num opts) r;
    match m with
    | None => Ret (None, fs)
    | Some (trees, nodeids) =>
        '(_, fs) ← write_out (ro_dataset_name opts) (os_write trees) fs;
        '(_, fs) ← write_out node_ids_file (os_write nodeids) fs;
        Ret (Some 0, delete (ro_dataset_name opts +:+ ".tmp") fs)
    end.
Definition random_dataset_main (fuel : nat) (opts : options) (r : R) : st files (option Z) :=
  opts ← lift (random_parse opts); random_dataset_gen fuel opts r.

Definition random_nt_dataset_generate (fuel : nat) (opts : random_options) (r : R) : st files (option Z) := λ fs,
  if negb (numbers_ok opts) then Ret (Some 1, fs)
  else
    let fs := open_out (ro_dataset_name opts) fs in
    m ← random_nt_data_generate fuel (ro_triples_num opts) (ro_resources_num opts)
          (bytes_of "http://example.com/resource/") r;
    match m with
    | None => Ret (None, fs)
    | Some output => '(_, fs) ← write_out (ro_dataset_name opts) (os_write output) fs; Ret (Some 0, fs)
    end.
Definition random_nt_main (fuel : nat) (opts : options) (r : R) : st files (option Z) :=
  opts ← lift (random_parse opts); random_nt_dataset_generate fuel opts r.
End random_programs.

(** ** search_paths.cpp *)
Section search_program.
Context `{Hst : Host, Hp : Heap, Blk : BlockLib, Lib : K2Lib, Ssl : OpenSSL}.

Record search_options := mkSearchOptions {
  sp_k2tree_file : string; sp_node_ids_file : string; sp_mapped_node_ids_file : string; sp_output_file : string;
  sp_path_size : Z; sp_max_number_paths : Z
}.
Definition search_step (s : search_options * seen) (o : ascii * option string) : outcome (search_options * seen) :=
  let '(mkSearchOptions k n m f z c, has) := s in let '(opt, optarg) := o in
  if decide (opt = "k"%char) then v ← string_arg optarg; Ret (mkSearchOptions v n m f z c, opt :: has)
  else if decide (opt = "N"%char) then v ← string_arg optarg; Ret (mkSearchOptions k v m f z c, opt :: has)
  else if decide (opt = "M"%char) then v ← string_arg optarg; Ret (mkSearchOptions k n v f z c, opt :: has)
  else if decide (opt = "o"%char) then v ← string_arg optarg; Ret (mkSearchOptions k n m v z c, opt :: has)
  else if decide (opt = "s"%char) then v ← stoi_arg optarg; Ret (mkSearchOptions k n m f v c, opt :: has)
  else if decide (opt = "n"%char) then v ← stoi_arg optarg; Ret (mkSearchOptions k n m f z v, opt :: has)
  else Ret s.
Definition search_parse : options → outcome search_options :=
  parse_options search_step (mkSearchOptions "" "" "" "" 0 0) ["k"; "N"; "M"; "o"; "s"; "n"]%char.

(** Only the three names are read of these arguments. *)
Definition search_args (parsed : search_options) : CacheArgs :=
  mkArgs "" 0 NO_CACHING "" (sp_node_ids_file parsed) (sp_mapped_node_ids_file parsed)
    (sp_node_ids_file parsed +:+ ".logs_search_path.log") false false 0.
(** The ids manager opens its log to append to it and its counter anew. *)
Definition open_append (name : string) (fs : files) : files :=
  if writable name then <[name := get_writer true (fs !! name)]> fs else fs.
Definition open_ids_logs (args : CacheArgs) (fs : files) : files :=
  open_out (node_ids_logs_filename args +:+ ".counter") (open_append (node_ids_logs_filename args) fs).

(** [err_code] keeps its value when the manager does not write to it. *)
Definition real_id (nim : NodeIdsManagerImpl) (err_code : NidsErrCode) (id : Z) : Z * NidsErrCode :=
  let '(v, e) := get_real_id id nim in (v, default err_code e).
Definition print_edge (nim : NodeIdsManagerImpl) (err_code : NidsErrCode) (t : RDFTriple) : wr NidsErrCode :=
  let '(s, err_code) := real_id nim err_code (subject t) in
  if decide (err_code ≠ SUCCESS_ERR_CODE) then mret err_code else
  let '(p, err_code) := real_id nim err_code (Scanners.predicate t) in
  if decide (err_code ≠ SUCCESS_ERR_CODE) then mret err_code else
  let '(o, err_code) := real_id nim err_code (object t) in
  if decide (err_code ≠ SUCCESS_ERR_CODE) then mret err_code else
  os_write ([40] ++ decimal_u64 s ++ [comma] ++ decimal_u64 p ++ [comma] ++ decimal_u64 o ++ [41; 59]);;
  mret err_code.
Definition print_path (nim : NodeIdsManagerImpl) (err_code : NidsErrCode) (p : DirectedPath) : wr NidsErrCode :=
  err_code ← loop (print_edge nim) err_code (edges p);
  os_write [newline];; mret err_code.
Definition search_paths (fuel : nat) (parsed : search_options) (mm : MemoryManager) : st files (option ()) := λ fs,
  pcm ← PCMFactory_open (fs !! sp_k2tree_file parsed) mm;
  nim ← NodeIdsManagerFactory_create (search_args parsed) fs;
  let fs := open_ids_logs (search_args parsed) fs in
  found ← find_n_paths fuel (sp_path_size parsed) (sp_max_number_paths parsed) (predicates_index pcm);
  match found with
  | None => Ret (None, fs)
  | Some (paths, _) =>
      '(_, fs) ← write_out (sp_output_file parsed)
        (_ ← loop (print_path nim) SUCCESS_ERR_CODE paths; mret ()) (open_out (sp_output_file parsed) fs);
      Ret (Some (), fs)
  end.
Definition search_main (fuel : nat) (opts : options) (mm : MemoryManager) : st files (option ()) :=
  parsed ← lift (search_parse opts); search_paths fuel parsed mm.
End search_program.

(** ** What is printed *)

Definition triples_of (p : Z) (l : list (Z * Z)) : list TripleValue := (λ q, mkTriple q.1 p q.2) <$> l.

Section printed.
Context `{Hst : Host, Hp : Heap, Blk : BlockLib, !BlockLibLaws, Lib : K2Lib, !K2LibLaws, Ssl : OpenSSL}.
Notation index := PredicatesIndexCacheMD.
Implicit Types i : index.

Lemma discard_ok d p i : index_ok d i → index_ok d (discard_in_memory_predicate p i).
Proof.
  intros [Hf His Hc Hids Hst' Htr Hcl Hdi Hne Hkn].
  assert (Hok : index_ok d (set_predicates i (delete p (predicates i)) (dirty_predicates i ∖ {[ p ]})
                            (new_predicates i ∖ {[ p ]}))).
  { constructor; simpl; try done; intros q; rewrite ?lookup_delete.
    - intros o. case_decide; [done|]. apply Htr.
    - intros t. case_decide; [done|]. intros Hq Hd. apply Hcl; set_solver.
    - intros [Hq Hne']%elem_of_difference. rewrite decide_False by set_solver. by apply Hdi.
    - intros [Hq Hne']%elem_of_difference. apply Hne in Hq as [? ?]. by split; [set_solver|].
    - case_decide; [by intros []|]. intros Hq. destruct (Hkn q Hq); [left; set_solver|by right]. }
  unfold discard_in_memory_predicate. case_match; [|done]. destruct Hok. by constructor.
Qed.

(** An index without a log whose trees in memory are those of the file. *)
Definition stored_points (d : list Z) i (p : Z) : option (gset (Z * Z)) :=
  stored_pts d <$> metadata_map (metadata i) !! p.
Definition unchanged (d : list Z) i : Prop :=
  index_ok d i ∧ ∀ p, index_points d i p = stored_points d i p.

Lemma fetch_unchanged d p P i : unchanged d i → stored_points d i p = Some P → ∃ t i',
  index_fetch_k2tree p i = Ret (mkFetch true (Some t), i') ∧ tm_ok t ∧ pts t = P ∧
  unchanged d (discard_in_memory_predicate p i') ∧ unchanged d i' ∧ metadata i' = metadata i.
Proof.
  intros [Hi Hpts] HP. pose proof (fetch_spec d p i (conj I Hi)) as Hf. rewrite Hpts, HP in Hf.
  destruct Hf as (i' & t & E & ([_ Hi'] & Hlog & Hb) & Ht & HPt). exists t, i'.
  pose proof Hb as (Hq & Hm & _). change (metadata i' = metadata i) in Hm. assert (Hpts' : ∀ q, index_points d i' q = stored_points d i' q).
  { intros q. unfold stored_points. rewrite Hm. fold (stored_points d i q). destruct (decide (q = p)) as [->|Hne].
    - unfold index_points. rewrite Ht, HPt, HP. done.
    - by rewrite <-Hpts; apply (same_points d p). }
  split_and!; [done| |done| |by split|done].
  - destruct (ix_trees d _ Hi' p _ Ht) as (t' & [= <-] & [Hok _]). done.
  - split; [by apply discard_ok|]. intros q. specialize (Hpts' q). revert Hpts'.
    unfold index_points, stored_points, is_stored_in_updates_log, logged, discard_in_memory_predicate, index_of, NoUpdate.
    destruct (memory_segments_map _ !! p); simpl; rewrite lookup_delete, !andb_false_r; case_decide; try done;
      intros _; unfold is_stored_in_updates_log; simpl; rewrite !andb_false_r; by case_match.
Qed.

(** Scanning a tree writes its points, as triples of the predicate. *)
Lemma print_points_at l : ∀ p n d,
  fold_left print_point l (Ret (mkHolder (os_end d) p n)) =
  Ret (mkHolder (os_end (d ++ (triples_of p l ≫= triple_bytes))) p
         (match l with [] => n | _ => u64 (n + Z.of_nat (length l)) end)).
Proof.
  induction l as [|q l IH]; intros p n d; [by rewrite app_nil_r|]. destruct q as [col row].
  cbn [fold_left print_point mbind outcome_bind dh_predicate_id dh_ofs dh_total_triples].
  rewrite (emits_at _ _ _ _ (emits_triple _)). cbn [mbind outcome_bind]. rewrite IH. f_equal. f_equal.
  - unfold triples_of. by rewrite fmap_cons, bind_cons, <-(assoc_L (++)).
  - destruct l; simpl length; [done|]. rewrite u64_add_l. f_equal. lia.
Qed.
Lemma scan_order t : tm_ok t → ∃ l, l ≡ₚ elements (pts t) ∧
  ∀ S (f : S → Z * Z → S) s, scan_points t f s = Ret (fold_left f l s).
Proof.
  intros Hok. destruct (interactive_law _ _ (proj1 Hok)) as (l & Hl & Hperm). exists l.
  split; [by rewrite Hperm, <-get_all_points_perm|]. intros. unfold scan_points, report. by rewrite Hl.
Qed.
Lemma print_predicate_spec d p P i n : unchanged d i → stored_points d i p = Some P → in_u 64 n → ∃ l i',
  emits (print_predicate (i, n) p) (triples_of p l ≫= triple_bytes) (i', u64 (n + Z.of_nat (length l))) ∧
  l ≡ₚ elements P ∧ unchanged d i' ∧ metadata i' = metadata i.
Proof.
  intros Hi HP Hn. destruct (fetch_unchanged d p P i Hi HP) as (t & i' & E & Ht & HPt & Hi' & _ & Hm).
  destruct (scan_order t Ht) as (l & Hl & El). exists l, (discard_in_memory_predicate p i').
  split_and!; [|by rewrite <-HPt|done|].
  - apply emits_intro. intros d'. unfold print_predicate. rewrite E. cbn [mbind outcome_bind fetch_get deref fetch_result].
    rewrite El. cbn [mbind outcome_bind]. rewrite print_points_at. cbn [mbind outcome_bind dh_total_triples dh_ofs].
    do 3 f_equal. destruct l; [by rewrite Z.add_0_r, u64_id|done].
  - rewrite <-Hm. unfold discard_in_memory_predicate. by case_match.
Qed.

(** The triples of some predicates, one after the other. *)
Definition all_triples (points : Z → option (gset (Z * Z))) (ids : list Z) : list TripleValue :=
  ids ≫= λ p, triples_of p (elements (default ∅ (points p))).
Lemma print_predicates_spec d i0 ids : ∀ i n, unchanged d i → metadata i = metadata i0 → in_u 64 n →
  (∀ p, p ∈ ids → is_Some (stored_points d i0 p)) → ∃ l i',
  emits (loop print_predicate (i, n) ids) (l ≫= triple_bytes) (i', u64 (n + Z.of_nat (length l))) ∧
  l ≡ₚ all_triples (stored_points d i0) ids.
Proof.
  induction ids as [|p ids IH]; intros i n Hi Hm Hn Hids.
  - exists [], i. split; [|done]. rewrite Z.add_0_r, u64_id by done. apply emits_ret.
  - destruct (Hids p) as [P HP]; [by left|].
    destruct (print_predicate_spec d p P i n) as (l & i1 & E & Hl & Hi1 & Hm1); [done| |done|].
    { unfold stored_points in *. by rewrite Hm. }
    destruct (IH i1 (u64 (n + Z.of_nat (length l)))) as (l' & i2 & E' & Hl'); [done|congruence|apply u64_range| |].
    { intros q Hq. apply Hids. by right. }
    exists (triples_of p l ++ l'), i2. split.
    + rewrite bind_app. eapply emits_eq; [eapply emits_bind; [exact E|exact E']|done|].
      rewrite u64_add_l, length_app. unfold triples_of. rewrite length_fmap. do 2 f_equal. lia.
    + unfold all_triples in *. rewrite bind_cons, HP, Hl'. simpl. f_equiv. unfold triples_of. by rewrite Hl.
Qed.

Lemma print_index_spec d i : unchanged d i →
  let total := Z.of_nat (length (all_triples (stored_points d i) (get_predicates_ids i))) in in_u 64 total → ∃ l,
  (∃ o, print_index i (OStream [] 0) = Ret ((), o) ∧ os_data o = triples_file l) ∧
  l ≡ₚ all_triples (stored_points d i) (get_predicates_ids i).
Proof.
  intros Hi total Htotal. destruct (print_predicates_spec d i (get_predicates_ids i) i 0) as (l & i' & E & Hl);
    [done|done|done| |].
  { intros p Hin. unfold stored_points. apply fmap_is_Some. by apply (ix_ids d i (proj1 Hi)). }
  exists l. split; [|done]. eexists. unfold print_index. unfold mbind at 1, st_bind at 1, tellp. cbn [os_pos].
  change (OStream [] 0) with (os_end []). unfold mbind at 1, st_bind at 1.
  rewrite (emits_at _ _ _ _ (emits_u64 0)). unfold mbind at 1, st_bind at 1. rewrite (emits_at _ _ _ _ E).
  unfold mbind, st_bind, seekp. cbn [snd os_data os_end app].
  pose proof (overwrites_write (be_encode 8 (u64 (0 + Z.of_nat (length l)))) [] (be_encode 8 0) (l ≫= triple_bytes)) as Hov.
  cbn [app length] in Hov. unfold write_u64.
  split; [apply Hov; by rewrite !length_be_encode|]. unfold triples_file. simpl. f_equal. f_equal. rewrite Z.add_0_l. rewrite Hl. apply u64_id, Htotal.
Qed.
End printed.

Section roundtrip.
Context `{Hst : Host, Hp : Heap, Blk : BlockLib, !BlockLibLaws, Lib : K2Lib, !K2LibLaws, !MeasureLaws,
          Ssl : OpenSSL, !OpenSSLLaws}.

Lemma opened_unchanged data file mm i : new_PredicatesIndexCacheMD file mm = Ret i → index_ok data i →
  unchanged data i ∧ ∀ p, stored_points data i p = main_points data i p.
Proof.
  intros E Hi. unfold new_PredicatesIndexCacheMD in E. destruct (cache_metadata_read _) as [[m s]| |]; [|done..].
  injection E as <-. split; [split; [done|]|].
  - intros p. unfold index_points, stored_points, logged, is_stored_in_updates_log. simpl. rewrite lookup_empty.
    by destruct (metadata_map m !! p).
  - intros p. unfold main_points, stored_points. simpl. by rewrite lookup_empty.
Qed.

Lemma all_triples_ext points points' ids : (∀ p, points p = points' p) →
  all_triples points ids = all_triples points' ids.
Proof. intros Hp'. apply list_bind_ext; [|done]. intros p. by rewrite Hp'. Qed.
Lemma elem_of_all_triples points ids s p o : mkTriple s p o ∈ all_triples points ids ↔
  p ∈ ids ∧ (s, o) ∈ default ∅ (points p).
Proof.
  unfold all_triples, triples_of. rewrite list_elem_of_bind. split.
  - intros (q & ([a b] & [= -> -> ->] & Hin)%list_elem_of_fmap & Hq). split; [done|]. by apply elem_of_elements.
  - intros [Hin Hso]. exists p. split; [|done]. apply list_elem_of_fmap. exists (s, o). split; [done|].
    by apply elem_of_elements.
Qed.
Lemma NoDup_all_triples points ids : NoDup ids → NoDup (all_triples points ids).
Proof.
  intros Hnd. unfold all_triples, triples_of. apply NoDup_bind; [|intros; apply NoDup_fmap_2|done].
  - intros p p' t _ _ (q & -> & _)%list_elem_of_fmap (q' & E & _)%list_elem_of_fmap. by injection E.
  - intros [a b] [a' b'] E. by injection E as -> ->.
  - apply NoDup_elements.
Qed.

(** In an index that was just opened, the predicates are those that have points. *)
Lemma elem_of_ids data file mm i p : new_PredicatesIndexCacheMD file mm = Ret i → index_ok data i →
  p ∈ get_predicates_ids i ↔ is_Some (main_points data i p).
Proof.
  intros Ei Hi. destruct (opened_unchanged data file mm i Ei Hi) as [_ Hpts].
  rewrite <-Hpts. unfold stored_points. rewrite fmap_is_Some. apply (ix_ids data i Hi).
Qed.
Lemma elem_of_some_points (l : list TripleValue) s p o :
  let P := if decide (p ∈ second <$> l) then Some (points_of p l) else None in
  is_Some P ∧ (s, o) ∈ default ∅ P ↔ mkTriple s p o ∈ l.
Proof.
  cbv zeta. unfold points_of. split.
  - intros [[P E] Hin]. case_decide; [|done]. simpl in Hin.
    apply elem_of_list_to_set, list_elem_of_fmap in Hin as ([a b c] & [= -> ->] & [<- Ht]%list_elem_of_filter). done.
  - intros Hin. rewrite decide_True by by apply (list_elem_of_fmap_2 second) in Hin. split; [by eexists|]. simpl.
    apply elem_of_list_to_set, list_elem_of_fmap. exists (mkTriple s p o). split; [done|]. by apply list_elem_of_filter.
Qed.

(** Printing an index: its triples, each of them once. *)
Lemma print_spec input output mm data i fs : fs !! input = Some data →
  writable output = true → new_PredicatesIndexCacheMD (Some data) mm = Ret i → index_ok data i →
  let triples := all_triples (main_points data i) (get_predicates_ids i) in
  in_u 64 (Z.of_nat (length triples)) → ∃ l,
    print_k2tree_index input output mm fs = Ret ((), <[output := triples_file l]> fs) ∧ l ≡ₚ triples.
Proof.
  intros Hin Hw Ei Hi triples Hlen. destruct (opened_unchanged data _ mm i Ei Hi) as [Hu Hpts].
  assert (Et : all_triples (stored_points data i) (get_predicates_ids i) = triples).
  { by apply all_triples_ext. }
  destruct (print_index_spec data i Hu) as (l & (o & E & Eo) & Hl); [by rewrite Et|].
  exists l. split; [|by rewrite <-Et]. unfold print_k2tree_index. rewrite Hin, decide_False by done.
  rewrite Ei. cbn [mbind outcome_bind]. unfold write_out, file_of, open_out. rewrite E. cbn [mbind outcome_bind].
  by rewrite Eo, Hw, insert_insert_eq.
Qed.

(** C17: Printing an index file gives back the triples it was made of. When the builder has
    made an index of a sorted file of triples, print_k2tree_index writes a file of exactly
    those triples, each of them once, with their number before them. *)
Theorem index_roundtrip fuel input index output config l fs :
  fs !! input = Some (triples_file l) → input ≠ index → index ≠ output →
  writable index = true → writable output = true → build_input config l → (length l ≤ fuel)%nat →
  ∃ data fs', build_k2tree_index fuel input index config fs = Ret (Some (), fs') ∧
    fs' !! index = Some data ∧
    (Z.of_nat (length data) < 2 ^ 63 → ∀ mm, ∃ l',
       print_k2tree_index index output mm fs' = Ret ((), <[output := triples_file l']> fs') ∧
       NoDup l' ∧ ∀ t, t ∈ l' ↔ t ∈ l).
Proof.
  intros Hin Hne1 Hne2 Hw1 Hw2 Hb Hf. destruct (build_index_spec fuel input index config l fs) as (data & E & Hopen);
    [done..|]. exists data. eexists. split; [exact E|].
  assert (Hd : delete (index +:+ ".tmp") (<[index := data]> fs) !! index = Some data).
  { rewrite lookup_delete_ne by by apply longer_name. apply lookup_insert_eq. }
  split; [exact Hd|]. intros HD mm. destruct (Hopen HD mm) as (i & Ei & Hi & Hnd & Hpts).
  assert (Hall : ∀ t, t ∈ all_triples (main_points data i) (get_predicates_ids i) ↔ t ∈ l).
  { intros [s p o]. rewrite elem_of_all_triples, elem_of_ids, Hpts by done. apply elem_of_some_points. }
  pose proof (NoDup_all_triples (main_points data i) _ Hnd) as Hnd'.
  destruct (print_spec index output mm data i _ Hd Hw2 Ei Hi) as (l' & El & Hl').
  - pose proof (bi_count config l Hb). pose proof (submseteq_length _ _ (NoDup_submseteq _ l Hnd' (λ t, proj1 (Hall t)))).
    unfold in_u in *. lia.
  - exists l'. split; [exact El|]. split; [by rewrite Hl'|]. intros t. by rewrite Hl', Hall.
Qed.

(** The number of triples that debug_read_k2trees_metadata prints. *)
Lemma size_spec t : tm_ok t → size t = u64 (Z.of_nat (base.size (pts t))).
Proof. intros Ht. apply Ht. Qed.
Lemma count_points_spec d i0 ids : ∀ i n, unchanged d i → metadata i = metadata i0 → in_u 64 n →
  (∀ p, p ∈ ids → is_Some (stored_points d i0 p)) → ∃ i',
  foldM count_points (i, n) ids = Ret (i', u64 (n + Z.of_nat (length (all_triples (stored_points d i0) ids)))).
Proof.
  induction ids as [|p ids IH]; intros i n Hi Hm Hn Hids.
  - exists i. simpl. by rewrite Z.add_0_r, u64_id.
  - destruct (Hids p) as [P HP]; [by left|].
    destruct (fetch_unchanged d p P i Hi) as (t & i1 & E & Ht & HPt & _ & Hi1 & Hm1).
    { unfold stored_points in *. by rewrite Hm. }
    destruct (IH i1 (u64 (n + size t))) as (i2 & E2); [done|congruence|apply u64_range| |].
    { intros q Hq. apply Hids. by right. }
    assert (Ec : count_points (i, n) p = Ret (i1, u64 (n + size t)))
      by (unfold count_points; cbn [fst snd]; by rewrite E).
    exists i2. cbn [foldM]. rewrite Ec. cbn [mbind outcome_bind]. rewrite E2, u64_add_l. do 2 f_equal.
    rewrite size_spec, HPt by done. unfold all_triples. rewrite bind_cons, length_app, HP. unfold triples_of.
    rewrite length_fmap. simpl. rewrite (Z.add_comm n), <-Z.add_assoc, u64_add_l. f_equal. unfold base.size, set_size. simpl. lia.
Qed.
Theorem total_points_correct data mm i : new_PredicatesIndexCacheMD (Some data) mm = Ret i → index_ok data i →
  let triples := all_triples (main_points data i) (get_predicates_ids i) in
  total_points (Some data) mm = Ret (u64 (Z.of_nat (length triples))).
Proof.
  intros Ei Hi triples. destruct (opened_unchanged data _ mm i Ei Hi) as [Hu Hpts].
  destruct (count_points_spec data i (get_predicates_ids i) i 0) as [i' E]; [done..| |].
  { intros p Hin. unfold stored_points. apply fmap_is_Some. by apply (ix_ids data i Hi). }
  unfold total_points. rewrite decide_False, Ei by done. cbn [mbind outcome_bind]. rewrite E. unfold triples.
  by rewrite (all_triples_ext _ _ _ Hpts).
Qed.
End roundtrip.

(** ** The ids that print_nodeids prints *)
Section printed_ids.
Context `{Hst : Host}.

Definition ids_text (l : list Z) : list Z := l ≫= id_line.
Lemma print_id_spec x pre rest k : in_u 64 x →
  emits (print_id (stream_at pre (be_encode 8 x ++ rest)) k) (id_line x) (stream_at (pre ++ be_encode 8 x) rest).
Proof.
  intros Hx. apply emits_intro. intros d. unfold print_id. unfold mbind at 1, st_bind at 1, lift.
  rewrite (parses_at _ _ _ _ _ (parses_u64 _ Hx)). cbn [fmap outcome_fmap]. unfold mbind, st_bind.
  by rewrite (emits_at _ _ _ _ (emits_write _)).
Qed.
Lemma print_ids_spec l : ∀ k pre, Forall (in_u 64) l →
  emits (loop print_id (stream_at pre (l ≫= be_encode 8)) (seq k (length l)))
    (ids_text l) (stream_at (pre ++ (l ≫= be_encode 8)) []).
Proof.
  induction l as [|x l IH]; intros k pre Hl.
  - simpl. rewrite !app_nil_r. apply emits_ret.
  - apply Forall_cons in Hl as [Hx Hl]. unfold ids_text. cbn [length seq loop]. rewrite !bind_cons.
    eapply emits_bind; [by apply print_id_spec|]. rewrite (assoc_L (++)). by apply IH.
Qed.

Lemma id_lines l : Forall (in_u 64) l → getlines newline (ids_text l) = decimal_u64 <$> l.
Proof.
  induction 1 as [|x l Hx _ IH]; [done|]. unfold ids_text, id_line. rewrite bind_cons, <-app_assoc. cbn [app].
  unfold getlines. rewrite getlines_line by by apply decimal_no. cbn [app fmap list_fmap]. by f_equal.
Qed.

(** The ids of a file are printed one to a line, from which they can be read again. *)
Theorem print_nodeids_correct input output l fs : fs !! input = Some (ids_file l) → input ≠ output →
  writable output = true → Forall (in_u 64) l → in_u 64 (Z.of_nat (length l)) →
  print_nodeids input output fs = Ret ((), <[output := ids_text l]> fs) ∧
  Forall2 (λ line x, stoul line = Ret x) (getlines newline (ids_text l)) l.
Proof.
  intros Hin Hne Hw Hl Hlen. split.
  - unfold print_nodeids, open_out. rewrite Hw, lookup_insert_ne, Hin by done. unfold ids_file.
    change (get_reader (Some (?a ++ ?b))) with (stream_at [] (a ++ b)).
    rewrite (parses_at _ _ _ _ _ (parses_u64 _ Hlen)). cbn [mbind outcome_bind]. unfold print_ids. rewrite Nat2Z.id.
    rewrite (write_out_emits _ _ (ids_text l ++ [])); [by rewrite app_nil_r, insert_insert_eq|done|].
    eapply emits_bind; [by apply print_ids_spec|apply emits_ret].
  - rewrite id_lines by done. clear -Hl. induction Hl as [|x l Hx _ IH]; [constructor|].
    rewrite fmap_cons. constructor; [by apply stoul_decimal|done].
Qed.
End printed_ids.

(** ** The programs that make files *)
Section made.
Context `{Hst : Host, Hp : Heap, Blk : BlockLib, !BlockLibLaws, Lib : K2Lib, !K2LibLaws, !MeasureLaws,
          Ssl : OpenSSL, !OpenSSLLaws}.

(** Without the exhaustive check the debug program makes the files of the other. *)
Theorem index_debug_same fuel input index config l fs : fs !! input = Some (triples_file l) → input ≠ index →
  build_input config l → (length l ≤ fuel)%nat →
  build_k2tree_index_debug fuel input index config false fs = build_k2tree_index fuel input index config fs.
Proof.
  intros Hin Hne Hb Hf. unfold build_k2tree_index_debug, build_k2tree_index, open_out. rewrite Hin.
  assert (E : (if writable index then <[index := []]> fs else fs) !! input = Some (triples_file l)).
  { case_match; [by rewrite lookup_insert_ne|done]. }
  rewrite E. unfold file_of. change (OStream [] 0) with (os_end []).
  by rewrite (proj2 (builders_eq config l fuel (os_end []) Hb Hf)).
Qed.

Context {R : Type} `{RandomSource R, !RandomSourceLaws R}.

(** A random dataset: numbers out of range are refused and leave no file; otherwise the
    two files are those of [generate_random_dataset]. *)
Theorem random_dataset_gen_correct fuel opts r fs :
  let name := ro_dataset_name opts in let nodeids := name +:+ ".nodeids.bin" in
  (numbers_ok opts = false → random_dataset_gen fuel opts r fs = Ret (Some 1, fs)) ∧
  (numbers_ok opts = true → random_input (R := R) fuel random_config (ro_triples_num opts) (ro_resources_num opts) →
   writable name = true → writable nodeids = true → ∃ trees ids,
     random_dataset_gen fuel opts r fs =
       Ret (Some 0, delete (name +:+ ".tmp") (<[nodeids := ids_file ids]> (<[name := trees]> fs))) ∧
     sorted_ids ids ∧ Z.of_nat (length ids) = ro_resources_num opts ∧
     (Z.of_nat (length trees) < 2 ^ 63 → ∀ mm, ∃ i,
        new_PredicatesIndexCacheMD (Some trees) mm = Ret i ∧ index_ok trees i)).
Proof.
  intros name nodeids. unfold random_dataset_gen. fold name nodeids. split; intros Hok; rewrite Hok; [done|].
  intros Hin Hw1 Hw2. destruct (generate_random_dataset_spec fuel random_config _ _ r Hin)
    as (trees & ids & sel & E & Hs & Hlen & _ & _ & _ & _ & Hopen).
  exists trees, ids. split_and!; [|done|done|].
  - cbn [negb]. rewrite E. cbn [mbind outcome_bind]. unfold open_out. rewrite Hw1, Hw2.
    rewrite (write_out_emits name _ trees) by (done || apply emits_write). cbn [mbind outcome_bind].
    rewrite (write_out_emits nodeids _ (ids_file ids)) by (done || apply emits_write). cbn [mbind outcome_bind]. do 3 f_equal. assert (nodeids ≠ name) by by apply longer_name.
    rewrite (insert_insert_ne _ nodeids name), insert_insert_eq by done.
    by rewrite (insert_insert_ne _ name nodeids), insert_insert_eq by done.
  - intros HD mm. destruct (Hopen HD mm) as (i & Ei & Hi & _). by exists i.
Qed.
End made.

(** ** The paths that are printed *)
Section printed_paths.
Context `{Hst : Host, Hp : Heap, Blk : BlockLib, !BlockLibLaws, Lib : K2Lib, !K2LibLaws, Ssl : OpenSSL}.

(** A path as text: the terms at the positions of its edges. *)
Definition term (ids : list Z) (x : Z) : Z := default 0 (ids !! Z.to_nat x).
Definition edge_text (ids : list Z) (t : RDFTriple) : list Z :=
  [40] ++ decimal_u64 (term ids (subject t)) ++ [comma] ++ decimal_u64 (term ids (Scanners.predicate t)) ++ [comma] ++
  decimal_u64 (term ids (object t)) ++ [41; 59].
Definition path_text (ids : list Z) (p : DirectedPath) : list Z := (edges p ≫= edge_text ids) ++ [newline].

(** The ids of an edge are positions of the sequence. *)
Definition known (ids : list Z) (t : RDFTriple) : Prop :=
  let n := Z.of_nat (length ids) in
  0 ≤ subject t < n ∧ 0 ≤ Scanners.predicate t < n ∧ 0 ≤ object t < n.
Lemma found_real_id ids e x : 0 ≤ x < Z.of_nat (length ids) →
  real_id (fresh_ids ids) e x = (term ids x, SUCCESS_ERR_CODE).
Proof.
  intros Hx. unfold real_id, get_real_id, seq_get_real_id, fresh_ids. cbn [nodes_sequence].
  by rewrite decide_False by lia.
Qed.
Lemma print_edge_known ids t : known ids t →
  emits (print_edge (fresh_ids ids) SUCCESS_ERR_CODE t) (edge_text ids t) SUCCESS_ERR_CODE.
Proof.
  intros (Hs & Hp' & Ho). unfold print_edge. rewrite !found_real_id by done.
  rewrite !decide_False by by intros []. unfold edge_text.
  eapply emits_eq; [eapply emits_bind; [apply emits_write|apply emits_ret]|by rewrite app_nil_r|done].
Qed.
Lemma print_edges_known ids l : Forall (known ids) l →
  emits (loop (print_edge (fresh_ids ids)) SUCCESS_ERR_CODE l) (l ≫= edge_text ids) SUCCESS_ERR_CODE.
Proof.
  induction 1 as [|t l Ht _ IH]; [apply emits_ret|]. cbn [loop]. rewrite bind_cons.
  eapply emits_bind; [by apply print_edge_known|exact IH].
Qed.
Lemma print_paths_known ids l : Forall (λ p, Forall (known ids) (edges p)) l →
  emits (loop (print_path (fresh_ids ids)) SUCCESS_ERR_CODE l) (l ≫= path_text ids) SUCCESS_ERR_CODE.
Proof.
  induction 1 as [|p l Hp' _ IH]; [apply emits_ret|]. cbn [loop]. rewrite bind_cons.
  eapply emits_bind; [|exact IH]. unfold print_path, path_text.
  eapply emits_bind; [by apply print_edges_known|].
  eapply emits_eq; [eapply emits_bind; [apply emits_write|apply emits_ret]|by rewrite app_nil_r|done].
Qed.

Lemma walk_edges Pt ids s l : walk Pt ids s l → Forall (edge Pt ids) l.
Proof. revert s. induction l as [|t l IH]; intros s; [constructor|]. intros (He & _ & Hw). constructor; [done|by eapply IH]. Qed.
Lemma is_path_ext Pt Pt' ids n x : (∀ p, Pt p = Pt' p) → is_path Pt ids n x → is_path Pt' ids n x.
Proof.
  intros HPt (Hl & Hnd & s & Hw). split; [done|]. split; [done|]. exists s. clear Hl Hnd. revert s Hw.
  induction (edges x) as [|t l IH]; intros s; [done|]. intros ([Hin HP] & Hs & Hw).
  split; [split; [done|by rewrite <-HPt]|]. split; [done|by apply IH].
Qed.

(** What the program is given: an index, the ids of its terms, to which none were added,
    and enough fuel for the points of each predicate. *)
Record search_input (fuel : nat) (parsed : search_options) (n max_number : nat) (data ids : list Z)
    (mm : MemoryManager) (i : PredicatesIndexCacheMD) (fs : files) : Prop := {
  si_size : sp_path_size parsed = Z.of_nat n;
  si_max : sp_max_number_paths parsed = Z.of_nat max_number;
  si_n : (0 < n < fuel)%nat;
  si_int : Z.of_nat max_number < 2 ^ 31;
  si_index : fs !! sp_k2tree_file parsed = Some data;
  si_opens : new_PredicatesIndexCacheMD (Some data) mm = Ret i;
  si_ok : index_ok data i;
  si_predicates : NoDup (get_predicates_ids i);
  si_ids : fs !! sp_node_ids_file parsed = Some (ids_file ids);
  si_range : Forall (in_u 64) ids;
  si_few : in_u 64 (Z.of_nat (length ids));
  si_mapped : fs !! sp_mapped_node_ids_file parsed = None;
  si_log : fs !! node_ids_logs_filename (search_args parsed) = None;
  si_counter : fs !! (node_ids_logs_filename (search_args parsed) +:+ ".counter") = None;
  si_known t : edge (main_points data i) (get_predicates_ids i) t → known ids t;
  si_fuel p P : main_points data i p = Some P → (base.size P + n < fuel)%nat;
  si_output : writable (sp_output_file parsed) = true
}.

(** search_paths prints paths of the graph of the index: the file it writes has a line
    for each of at most as many different paths as asked for, of the length asked for, with
    the terms of their edges; and all the paths there are, when they are fewer. *)
Theorem search_paths_correct fuel parsed n max_number data ids mm i fs :
  search_input fuel parsed n max_number data ids mm i fs →
  let Pt := main_points data i in let predicates := get_predicates_ids i in ∃ found,
    search_paths fuel parsed mm fs =
      Ret (Some (), <[sp_output_file parsed := found ≫= path_text ids]> (open_ids_logs (search_args parsed) fs)) ∧
    NoDup found ∧ (length found ≤ max_number)%nat ∧ (∀ x, x ∈ found → is_path Pt predicates n x) ∧
    ((length found < max_number)%nat → ∀ x, is_path Pt predicates n x → x ∈ found).
Proof.
  intros [Hsize Hmax Hn Hint Hidx Ei Hi Hnd Hids Hrange Hfew Hmap Hlog Hcnt Hknown Hfuel Hw] Pt predicates.
  set (j := set_update_logger i). assert (Hj : index_ok data j) by (destruct Hi; by constructor).
  assert (HPt : ∀ p, Fetcher.points_of j p = Pt p).
  { intros p. change (index_points (default [] (index_file i)) j p = Pt p). rewrite (ix_file data i Hi).
    cbn [default from_option id]. unfold Pt.
    destruct (opened_unchanged data _ mm i Ei Hi) as [[_ Hpts] Hmp]. rewrite <-Hmp, <-Hpts.
    unfold index_points, logged, is_stored_in_updates_log. simpl. by rewrite !andb_false_r. }
  destruct (find_n_paths_spec j n max_number fuel) as (found & h' & E & _ & _ & Hnd' & Hlen & Hin & Hall);
    [split; [done|by exists data]|done|lia|done|lia|intros p P; rewrite HPt; apply Hfuel|].
  assert (Hpaths : ∀ x, x ∈ found → is_path Pt predicates n x).
  { intros x Hx. by eapply is_path_ext, Hin. }
  assert (Enim : NodeIdsManagerFactory_create (search_args parsed) fs = Ret (fresh_ids ids)).
  { unfold NodeIdsManagerFactory_create. rewrite Hlog, Hcnt. unfold search_args.
    cbn [node_ids_filename mapped_node_ids_filename]. by rewrite Hids, Hmap, new_fresh_ids. }
  exists found. split_and!; [|done|done|exact Hpaths|].
  - unfold search_paths. rewrite Hidx. unfold PCMFactory_open. rewrite Ei. cbn [mbind outcome_bind log_recover_all NoUpdate].
    rewrite Enim. cbn [predicates_index].
    cbn [mbind outcome_bind]. rewrite Hsize, Hmax. fold j. rewrite E. cbn [mbind outcome_bind].
    rewrite (write_out_emits _ _ (found ≫= path_text ids)); [|done|].
    + cbn [mbind outcome_bind]. unfold open_out at 1. by rewrite Hw, insert_insert_eq.
    + eapply emits_eq; [eapply emits_bind; [apply print_paths_known|apply emits_ret]|by rewrite app_nil_r|done].
      apply Forall_forall. intros x Hx. destruct (Hpaths x Hx) as (_ & _ & s & Hwalk).
      apply (Forall_impl _ _ _ (walk_edges _ _ _ _ Hwalk)), Hknown.
  - intros Hlt x Hx. apply Hall; [done|]. by eapply is_path_ext, Hx.
Qed.
End printed_paths.

(** ** Instances of the theorems *)
Section witnesses.
#[local] Existing Instance toy_block_lib.
#[local] Existing Instance toy_block_laws.
#[local] Existing Instance Toy.toy_k2_lib.
#[local] Existing Instance toy_measure_laws.
#[local] Existing Instance toy_openssl.
#[local] Existing Instance toy_openssl_laws.
#[local] Existing Instance toy_heap.

Lemma index_roundtrip_witness : ∃ data fs',
  build_k2tree_index 3 "in" "index" (mkConfig 8 256 1) {[ "in" := triples_file two_predicates ]} = Ret (Some (), fs') ∧
  fs' !! "index" = Some data ∧
  (Z.of_nat (length data) < 2 ^ 63 → ∀ mm, ∃ l',
     print_k2tree_index "index" "out" mm fs' = Ret ((), <["out" := triples_file l']> fs') ∧
     NoDup l' ∧ ∀ t, t ∈ l' ↔ t ∈ two_predicates).
Proof.
  apply (index_roundtrip 3 "in" "index" "out" (mkConfig 8 256 1) two_predicates {[ "in" := triples_file two_predicates ]});
    [done..|exact two_predicates_input|simpl; lia].
Defined.

Example printed_ids : ids_text [7; 120] = [55; 10; 49; 50; 48; 10].
Proof. reflexivity. Qed.

(** An id that the map finds does not reset the code of an earlier error: the edge that
    comes after an unknown id is left out. *)
Definition two_known : NodeIdsManagerImpl :=
  mkManager [100; 200] (map_add 300 2 (new_NodesMapImpl ∅)) 2 1 [] (OStream [] 0).
Example stale_error :
  print_edge two_known SUCCESS_ERR_CODE (Scanners.mkTriple 2 0 1) (os_end []) =
    Ret (SUCCESS_ERR_CODE, os_end (bytes_of "(300,100,200);")) ∧
  print_edge two_known SUCCESS_ERR_CODE (Scanners.mkTriple 9 0 1) (os_end []) = Ret (NOT_FOUND_ERR_CODE, os_end []) ∧
  print_edge two_known NOT_FOUND_ERR_CODE (Scanners.mkTriple 2 0 1) (os_end []) = Ret (NOT_FOUND_ERR_CODE, os_end []).
Proof. by vm_compute. Qed.

(** The toy index of PredicatesIndex.v, as a program finds it that opens the file: its
    predicate 4 has the points (3, 5) and (7, 2). *)
Definition opened_toy : PredicatesIndexCacheMD :=
  mkIndex (Some toy_file) (stream_at (header_bytes toy_meta) toy_bytes) toy_meta ∅ ∅ ∅ (mkConfig 8 256 1)
    ∅ None false empty_manager.
Lemma opened_toy_eq : new_PredicatesIndexCacheMD (Some toy_file) empty_manager = Ret opened_toy.
Proof. vm_compute. reflexivity. Qed.
Lemma opened_toy_ok : index_ok toy_file opened_toy.
Proof.
  destruct toy_index_ok as [_ _ Hc Hids Hst _ _ _ _ _]. constructor; simpl; try done.
  - by eexists.
  - by intros p [].
Qed.
Lemma opened_toy_points p : main_points toy_file opened_toy p = if decide (p = 4) then Some (pts toy_tree) else None.
Proof.
  unfold main_points, opened_toy. cbn [predicates metadata metadata_map toy_meta]. rewrite lookup_empty, lookup_singleton.
  repeat case_decide; try congruence; [|done]. simpl. by rewrite (stored_pts_spec _ _ _ _ toy_stored).
Qed.

Definition some_ids : list Z := Z.of_nat <$> seq 100 16.
Definition search_files : files := {[ "index" := toy_file; "ids" := ids_file some_ids ]}.
Definition toy_search : search_options := mkSearchOptions "index" "ids" "mapped" "out" 1 5.
Lemma toy_search_input : search_input 20 toy_search 1 5 toy_file some_ids empty_manager opened_toy search_files.
Proof.
  constructor; try done; try (simpl; lia); try exact opened_toy_eq; try exact opened_toy_ok.
  - apply NoDup_singleton.
  - apply (bool_decide_unpack _); by vm_compute.
  - intros [s p o] (_ & P & HP & Hin). simpl in HP, Hin. rewrite opened_toy_points in HP.
    case_decide as Ep; [|done]. injection HP as <-. subst p.
    assert (Hall : Forall (λ q, known some_ids (Scanners.mkTriple q.1 4 q.2)) (elements (pts toy_tree))).
    { assert (E : elements (pts toy_tree) = [(3, 5); (7, 2)] ∨ elements (pts toy_tree) = [(7, 2); (3, 5)]).
      { by vm_compute; (left + right). }
      destruct E as [-> | ->]; repeat constructor; simpl; lia. }
    rewrite Forall_forall in Hall. by apply (Hall (s, o)), elem_of_elements.
  - intros p P. rewrite opened_toy_points. case_decide; [|done]. intros [= <-].
    change (base.size (pts toy_tree)) with 2%nat. lia.
Qed.
Lemma search_paths_correct_witness :
  let Pt := main_points toy_file opened_toy in let predicates := get_predicates_ids opened_toy in ∃ found,
    search_paths 20 toy_search empty_manager search_files =
      Ret (Some (), <["out" := found ≫= path_text some_ids]> (open_ids_logs (search_args toy_search) search_files)) ∧
    NoDup found ∧ (length found ≤ 5)%nat ∧ (∀ x, x ∈ found → is_path Pt predicates 1 x) ∧
    ((length found < 5)%nat → ∀ x, is_path Pt predicates 1 x → x ∈ found).
Proof. exact (search_paths_correct 20 toy_search 1 5 toy_file some_ids empty_manager opened_toy search_files toy_search_input). Defined.
End witnesses.
