(* ===== verification/SyncClient.v ===== *)
(** * scripts/trigger_logs_sync.cpp: a client of the server

    The program that asks a server to write its logged updates to the index file: it sends
    two requests and checks what it is answered. *)
From Stdlib Require Import Ascii.
From stdpp Require Import strings.
From S2P Require Import Prelude Streams Memory Blocks K2Tree Scanners Fetcher Hashing Replacement CachedSource.
From S2P Require Import NodeIds BGPOps BGPIterator BGPProcessor UpdatesLog PredicatesIndex Fic Manager Session.
From S2P Require Import Streaming BgpStreamer Channels Server Connection Ingest Startup.

Local Open Scope Z_scope.

(** ** The system and the generated code *)

(** [send] says how many bytes it took, or is negative. *)
Class SendSocket (K : Type) := send : list Z → K → Z * K.
(** [socket], [inet_pton] and [connect], which may fail. *)
Class Network (K : Type) := connect : string → Z → option K.
Class ClientProtobuf := {
  RequestAsString : CacheRequest → list Z;
  ParseResponse : list Z → CacheResponse
}.

(** A connection that takes what it is given, and remembers it. *)
Class SendSocketLaws (K : Type) `{Socket K, !SocketLaws K, !SendSocket K} := {
  outgoing : K → list Z;
  send_law bytes s : ∃ s', send bytes s = (Z.of_nat (length bytes), s') ∧
    outgoing s' = outgoing s ++ bytes ∧ incoming s' = incoming s ∧ patience s' = patience s;
  recv_outgoing n s : outgoing (recv n s).2 = outgoing s
}.

(** ** send_request *)

(** What it reports of a request. *)
Inductive report :=
  | NotSent
  | SizeNotRead
  | InvalidSize (msg_sz : Z)
  | HashNotRead
  | MessageNotRead
  | Answered (hashes_match : bool) (r : CacheResponse).

Definition read_response `{Ssl : OpenSSL, Cli : ClientProtobuf} {K : Type} `{Sock : !Socket K} (fuel : nat) (s : K)
    : option (report * K) :=
  '(was_read, s) ← read_nbytes_from_socket fuel 8 [] s;
  match was_read with
  | None => Some (SizeNotRead, s)
  | Some bytes =>
      let msg_sz := be_decode bytes in
      if decide (65000 < msg_sz ∨ msg_sz ≤ 0) then Some (InvalidSize msg_sz, s)
      else
        '(was_read, s) ← read_nbytes_from_socket fuel 16 [] s;
        match was_read with
        | None => Some (HashNotRead, s)
        | Some md5_received_hash =>
            '(was_read, s) ← read_nbytes_from_socket fuel msg_sz [] s;
            match was_read with
            | None => Some (MessageNotRead, s)
            | Some buf => Some (Answered (bool_decide (md5calc buf = md5_received_hash)) (ParseResponse buf), s)
            end
        end
  end.

Section client.
Context `{Ssl : OpenSSL, Cli : ClientProtobuf} {K : Type} `{Sock : !Socket K, Snd : !SendSocket K}.

(** What has been sent is not looked at, unless it is negative. *)
Definition send_request (fuel : nat) (request : CacheRequest) (s : K) : outcome (option (report * K)) :=
  let serialized := RequestAsString request in
  '(_, result) ← file_of (write_u32 (u32 (Z.of_nat (length serialized)));; os_write serialized);
  let '(bytes_sent, s) := send result s in
  if decide (bytes_sent < 0) then Ret (Some (NotSent, s)) else Ret (read_response fuel s).

(** ** main *)

Record client_options := mkClient { cl_hostname : string; cl_port : Z }.
Definition client_step (s : client_options * seen) (o : ascii * option string) : outcome (client_options * seen) :=
  let '(mkClient h p, has) := s in let '(opt, optarg) := o in
  if decide (opt = "h"%char) then v ← string_arg optarg; Ret (mkClient v p, opt :: has)
  else if decide (opt = "p"%char) then v ← stoi_arg optarg; Ret (mkClient h v, opt :: has)
  else Ret s.
Definition read_server_options : options → outcome client_options :=
  parse_options client_step (mkClient "" 0) ["h"; "p"]%char.
(** [htons] takes sixteen bits of the port. *)
Definition connect_to_server `{Network K} (o : client_options) : option K := connect (cl_hostname o) (u16 (cl_port o)).

Definition sync_request : CacheRequest := mkRequest SYNC_LOGS_WITH_INDEXES_REQUEST RequestNotSet.
Definition end_request : CacheRequest := mkRequest CONNECTION_END RequestNotSet.
Definition send_requests (fuel : nat) (s : K) : outcome (option (report * report * K)) :=
  m ← send_request fuel sync_request s;
  match m with
  | None => Ret None
  | Some (r1, s) =>
      m ← send_request fuel end_request s;
      match m with None => Ret None | Some (r2, s) => Ret (Some (r1, r2, s)) end
  end.
(** The exit code, with what was reported. *)
Definition trigger_main `{Network K} (fuel : nat) (opts : options) : outcome (option (Z * option (report * report))) :=
  server_options ← read_server_options opts;
  match connect_to_server server_options with
  | None => Ret (Some (1, None))
  | Some s =>
      m ← send_requests fuel s;
      match m with None => Ret None | Some (r1, r2, _) => Ret (Some (0, Some (r1, r2))) end
  end.
End client.

(** ** What it reads *)
Section reading.
Context `{Ssl : OpenSSL, !OpenSSLLaws, Cli : ClientProtobuf} {K : Type}.
Context `{Sock : !Socket K, !SocketLaws K, Snd : !SendSocket K, !SendSocketLaws K}.
Implicit Type s : K.

Lemma read_nbytes_outgoing n : ∀ fuel buffer s r s', read_nbytes_from_socket fuel n buffer s = Some (r, s') →
  outgoing s' = outgoing s.
Proof.
  induction fuel as [|fuel IH]; intros buffer s r s'; [done|]. cbn [read_nbytes_from_socket].
  pose proof (recv_outgoing (n - Z.of_nat (length buffer)) s) as Ho.
  destruct (recv _ s) as [[[|x bytes]|b] s1]; simpl in Ho; [by intros [= _ <-]| |].
  - case_decide; [by intros [= _ <-]|]. intros E. by rewrite (IH _ _ _ _ E).
  - case_match; [by intros [= _ <-]|]. intros E. by rewrite (IH _ _ _ _ E).
Qed.

(** A frame of the server is read whole, however it arrives. *)
Lemma read_response_spec fuel body rest s : incoming s = frame body ++ rest →
  0 < Z.of_nat (length body) ≤ 65000 → (length (incoming s) + patience s < fuel)%nat → ∃ s',
  read_response fuel s = Some (Answered true (ParseResponse body), s') ∧
  incoming s' = rest ∧ (patience s' ≤ patience s)%nat ∧ outgoing s' = outgoing s.
Proof.
  unfold frame. rewrite <-!app_assoc. intros Hin Hlen Hf. rewrite Hin, !length_app, length_be_encode in Hf.
  destruct (MD5_digest body) as [Hmd _]. fold (md5calc body) in Hmd. unfold read_response.
  destruct (read_nbytes_spec 8 (md5calc body ++ body ++ rest) fuel (be_encode 8 (Z.of_nat (length body))) [] s)
    as (s1 & E1 & Hs1 & Hp1); [done|done|by rewrite length_be_encode|rewrite length_be_encode; lia|].
  pose proof (read_nbytes_outgoing _ _ _ _ _ _ E1) as Ho1. rewrite E1. cbn [mbind option_bind app].
  rewrite be_decode_encode by (unfold in_u; simpl; lia). rewrite decide_False by lia.
  destruct (read_nbytes_spec 16 (body ++ rest) fuel (md5calc body) [] s1) as (s2 & E2 & Hs2 & Hp2);
    [done|by intros E; rewrite E in Hmd|simpl; lia|lia|].
  pose proof (read_nbytes_outgoing _ _ _ _ _ _ E2) as Ho2. rewrite E2. cbn [mbind option_bind app].
  destruct (read_nbytes_spec (Z.of_nat (length body)) rest fuel body [] s2) as (s3 & E3 & Hs3 & Hp3);
    [done|by intros E; subst body; simpl in Hlen; lia|done|lia|].
  pose proof (read_nbytes_outgoing _ _ _ _ _ _ E3) as Ho3. rewrite E3. cbn [mbind option_bind app].
  rewrite bool_decide_true by done. exists s3. split; [done|]. split; [done|]. split; [lia|congruence].
Qed.
Lemma send_request_spec fuel m body rest s : incoming s = frame body ++ rest →
  0 < Z.of_nat (length body) ≤ 65000 → (length (incoming s) + patience s < fuel)%nat →
  Z.of_nat (length (RequestAsString m)) < 2 ^ 32 → ∃ s',
  send_request fuel m s = Ret (Some (Answered true (ParseResponse body), s')) ∧
  incoming s' = rest ∧ (patience s' ≤ patience s)%nat ∧ outgoing s' = outgoing s ++ request_frame (RequestAsString m).
Proof.
  intros Hin Hlen Hf Hm. unfold send_request. rewrite u32_id by (unfold in_u; lia).
  rewrite (file_of_emits _ (request_frame (RequestAsString m)) ()) by (eapply emits_bind; [apply emits_write|apply emits_write]).
  cbn [mbind outcome_bind]. destruct (send_law (request_frame (RequestAsString m)) s) as (s1 & -> & Ho & Hi & Hp').
  rewrite decide_False by lia. destruct (read_response_spec fuel body rest s1) as (s2 & -> & Hi2 & Hp2 & Ho2);
    [by rewrite Hi|done|by rewrite Hi, Hp'|]. exists s2. split; [done|]. split; [done|]. split; [lia|by rewrite Ho2].
Qed.
End reading.

(** ** The client and the server together *)
Section session.
Context `{Clk : Clock, Hp : Heap, Blk : BlockLib, Lib : K2Lib, Ssl : OpenSSL, !OpenSSLLaws, Prt : Protobuf, Ind : Indeterminate}.
Context {W G : Type} `{Pcm : !PredicatesCacheManager W} `{Nis : !NodeIdsManager G}.
Context `{Parser : ProtobufParser, Cli : ClientProtobuf}.
Notation tasks := (CacheServerTaskProcessor (W := W) (G := G)).

Definition sync_response : CacheResponse := mkResponse SYNC_LOGS_WITH_INDEXES_RESPONSE ResponseNotSet.
Definition end_response : CacheResponse := mkResponse CONNECTION_END (ConnectionEndResponse true).
(** The two ends agree on the bytes of the messages of this session. *)
Definition request_agreed (m : CacheRequest) : Prop :=
  ParseFromArray (RequestAsString m) = m ∧ 0 < Z.of_nat (length (RequestAsString m)) < 2 ^ 32.
Definition response_agreed (r : CacheResponse) : Prop :=
  ParseResponse (SerializeAsString r) = r ∧ 0 < Z.of_nat (length (SerializeAsString r)) ≤ 65000.

Lemma sync_process fuel step_fuel readings (p p' : tasks) :
  process_sync_logs_with_indexes fuel p = Ret (Some (p', sync_response)) →
  process fuel step_fuel readings [sync_request; end_request] (mkServerTask false []) p =
  Ret (Some (mkServerTask true [frame (SerializeAsString sync_response); frame (SerializeAsString end_response)], p')).
Proof.
  intros E.
  assert (E1 : process_next fuel step_fuel readings (Some sync_request) (mkServerTask false []) p =
    Ret (Some (mkServerTask false [frame (SerializeAsString sync_response)], p'))).
  { unfold process_next, handle. cbn [request_type sync_request]. rewrite E. cbn [mbind outcome_bind].
    by rewrite send_response_spec. }
  cbn [process finished head]. rewrite E1. cbn [mbind outcome_bind finished].
  unfold process_next at 2, handle. cbn [request_type end_request].
  unfold process_connection_end, answer_with. cbn [mbind outcome_bind]. by rewrite send_response_spec.
Qed.

(** C23: A session of trigger_logs_sync, both ends of it. However the bytes arrive at either
    end, a server whose synchronisation succeeds answers the two requests of the client,
    ends in the state that the synchronisation leaves, and the client reads back both of the
    answers, with their digests, and nothing is left unread. *)
Theorem sync_session {K1 K2 : Type} `{!Socket K1, !SocketLaws K1, !Socket K2, !SocketLaws K2, !SendSocket K2, !SendSocketLaws K2}
    (sock : K1) (client : K2) n sock_fuel fuel step_fuel readings (p p' : tasks) :
  request_agreed sync_request → request_agreed end_request →
  response_agreed sync_response → response_agreed end_response →
  process_sync_logs_with_indexes fuel p = Ret (Some (p', sync_response)) →
  let requests := request_frame (RequestAsString sync_request) ++ request_frame (RequestAsString end_request) in
  incoming sock = requests → (3 < n)%nat → (length requests + patience sock < sock_fuel)%nat →
  ∃ task, (m ← serve n sock_fuel fuel step_fuel readings sock (mkServerTask false []) p; Ret (option_map snd m)) =
      Ret (Some (task, p')) ∧
    (incoming client = concat (sent task) → (length (concat (sent task)) + patience client < sock_fuel)%nat →
     ∃ client', send_requests sock_fuel client =
         Ret (Some (Answered true sync_response, Answered true end_response, client')) ∧
       outgoing client' = outgoing client ++ requests ∧ incoming client' = []).
Proof.
  intros [Hq1 Hl1] [Hq2 Hl2] [Hr1 Hm1] [Hr2 Hm2] Hsync requests Hin Hn Hf.
  exists (mkServerTask true [frame (SerializeAsString sync_response); frame (SerializeAsString end_response)]). split.
  - rewrite <-(sync_process fuel step_fuel readings p p' Hsync). rewrite <-Hq1 at 1. rewrite <-Hq2 at 1.
    apply (connection_spec sock [RequestAsString sync_request; RequestAsString end_request] []).
    + rewrite app_nil_r. simpl. by rewrite app_nil_r.
    + right. exists [], 0%nat. split; [done|]. split; [by vm_compute; lia|done].
    + repeat constructor; try lia; intros E; rewrite E in *; simpl in *; lia.
    + done.
    + by rewrite Hin.
  - cbn [sent concat]. rewrite app_nil_r. intros Hc Hfc. unfold send_requests.
    destruct (send_request_spec sock_fuel sync_request (SerializeAsString sync_response)
      (frame (SerializeAsString end_response)) client Hc Hm1) as (c1 & -> & Hc1 & Hp1 & Ho1); [by rewrite Hc|lia|].
    cbn [mbind outcome_bind].
    destruct (send_request_spec sock_fuel end_request (SerializeAsString end_response) [] c1)
      as (c2 & -> & Hc2 & Hp2 & Ho2); [by rewrite app_nil_r|done|rewrite Hc1; rewrite length_app in Hfc; lia|lia|].
    cbn [mbind outcome_bind]. exists c2. rewrite Hr1, Hr2. split; [done|]. split; [|done].
    rewrite Ho2, Ho1. by rewrite <-(assoc_L (++)).
Qed.
End session.

(** ** An instance of the theorem *)
Section witnesses.
#[local] Existing Instance toy_block_lib.
#[local] Existing Instance Toy.toy_k2_lib.
#[local] Existing Instance toy_openssl.
#[local] Existing Instance toy_openssl_laws.
#[local] Existing Instance toy_heap.
#[local] Existing Instance frozen_clock.
#[local] Existing Instance toy_indeterminate.
#[local] Existing Instance Server.toy_trees.

(** Messages of one byte, their type. *)
#[local] Instance sync_protobuf : Protobuf := λ r, [if decide (response_type r = CONNECTION_END) then 1 else 29].
#[local] Instance sync_parser : ProtobufParser := λ bytes,
  match bytes with [28] => sync_request | _ => end_request end.
#[local] Instance sync_codec : ClientProtobuf := {|
  RequestAsString m := [if decide (request_type m = CONNECTION_END) then 1 else 28];
  ParseResponse bytes := match bytes with [29] => sync_response | _ => end_response end
|}.

(** A socket that keeps what is sent. *)
#[local] Instance client_socket : Socket (arrivals * list Z) := {|
  recv n s := let '(r, pieces) := recv n s.1 in (r, (pieces, s.2))
|}.
#[local, refine] Instance client_socket_laws : SocketLaws (arrivals * list Z) := {|
  incoming s := incoming s.1; patience s := patience s.1
|}.
Proof.
  intros n [s o] Hn. destruct (recv_law n s Hn) as (r & s' & E & Hr). exists r, (s', o).
  cbn [recv client_socket fst snd] in *. by rewrite E.
Defined.
#[local] Instance client_send : SendSocket (arrivals * list Z) := λ bytes s, (Z.of_nat (length bytes), (s.1, s.2 ++ bytes)).
#[local, refine] Instance client_send_laws : SendSocketLaws (arrivals * list Z) := {| outgoing s := s.2 |}.
Proof.
  - intros bytes [s o]. by eexists.
  - intros n [s o]. cbn [recv client_socket fst snd]. by destruct (recv n s).
Defined.

Definition sync_bytes : list Z := frame [29] ++ frame [1].
Definition sync_client : arrivals * list Z := ([Some (take 20 sync_bytes); None; Some (drop 20 sync_bytes)], []).
Definition sync_pieces : arrivals := [Some [0; 0; 0; 1]; None; Some [28; 0; 0; 0]; Some [1; 1]].
Lemma sync_session_witness :
  let requests := request_frame (RequestAsString sync_request) ++ request_frame (RequestAsString end_request) in ∃ task,
  (m ← serve 5 100 0 0 0 sync_pieces (mkServerTask false []) toy_server; Ret (option_map snd m)) =
    Ret (Some (task, toy_server)) ∧
  (incoming sync_client = concat (sent task) → (length (concat (sent task)) + patience sync_client < 100)%nat →
   ∃ client', send_requests 100 sync_client = Ret (Some (Answered true sync_response, Answered true end_response, client')) ∧
     outgoing client' = outgoing sync_client ++ requests ∧ incoming client' = []).
Proof.
  refine (sync_session sync_pieces sync_client 5 100 0 0 0 toy_server toy_server _ _ _ _ _ _ _ _).
  - by split.
  - by split.
  - by split.
  - by split.
  - reflexivity.
  - reflexivity.
  - lia.
  - vm_compute. lia.
Defined.
Example whole_session : fmap (option_map fst) (send_requests 100 sync_client) =
  Ret (Some (Answered true sync_response, Answered true end_response)).
Proof. reflexivity. Qed.
(** A response that is too long for the client is refused before it is read. *)
Example too_long : option_map fst (read_response 10 ([Some (be_encode 8 65001)], [])) = Some (InvalidSize 65001).
Proof. reflexivity. Qed.
End witnesses.
