(* ===== verification/Validate.v ===== *)
(** * experiments/validate_k2tree_correctness.cpp: the check of random trees

    An experiment draws points at random, inserts them into a tree, and checks that every
    scanner of the tree, and of the tree written and read again, finds them. *)
From S2P Require Import Prelude Streams Memory Blocks K2Tree Scanners Fetcher Hashing BGPOps UpdatesLog PredicatesIndex SearchPaths.
From S2P Require Import PriorityQueue TripleSort Builder RandomData.

Local Open Scope Z_scope.

(** ** validate *)

(** What is reported, by the file it is written to. *)
Inductive failure :=
  | missing_from_input (p : Z * Z)
  | missing_from_tree (p : Z * Z)
  | missing_from_col_scan (p : Z * Z)
  | missing_from_row_scan (p : Z * Z)
  | missing_from_des_full_scan (p : Z * Z)
  | missing_from_des_output_fscan (p : Z * Z).

(** The order of std::set. *)
Definition pair_le (p q : Z * Z) : Prop := p.1 < q.1 ∨ (p.1 = q.1 ∧ p.2 ≤ q.2).
#[export] Instance pair_le_dec p q : Decision (pair_le p q).
Proof. unfold pair_le. apply _. Defined.
Definition in_order (set : gset (Z * Z)) : list (Z * Z) := merge_sort pair_le (elements set).
Definition ascending (set : gset Z) : list Z := merge_sort Z.le (elements set).
(** The elements of a set that another does not have. *)
Definition not_found (set scanned : gset (Z * Z)) : list (Z * Z) := filter (λ p, p ∉ scanned) (in_order set).

Record scan_state := mkSeen { missing : option (Z * Z); columns : gset Z; rows : gset Z; scanned : gset (Z * Z) }.
Definition check_point (set : gset (Z * Z)) (s : scan_state) (p : Z * Z) : outcome (option (bool * scan_state)) :=
  let columns := {[ p.1 ]} ∪ columns s in
  let rows := {[ p.2 ]} ∪ rows s in
  Ret (Some (if decide (p ∉ set) then (true, mkSeen (Some p) columns rows (scanned s))
             else (false, mkSeen None columns rows ({[ p ]} ∪ scanned s)))).
Definition report_missing (set : gset (Z * Z)) (failure_of : Z * Z → failure) (out : list failure) (p : Z * Z)
    : list failure := if decide (p ∉ set) then out ++ [failure_of p] else out.

Section validate.
Context `{Heap, BlockLib, K2Lib}.

Fixpoint check_bands (fuel : nat) (tree : K2TreeMixed) (set : gset (Z * Z)) (band_type : BandType)
    (failure_of : Z * Z → failure) (out : list failure) (bands : list Z) : outcome (option (list failure)) :=
  match bands with
  | [] => Ret (Some out)
  | band :: bands =>
      m ← while_scan fuel (λ out p, Ret (report_missing set failure_of out p)) out
            (create_band_scanner band band_type tree);
      match m with
      | None => Ret None
      | Some out => check_bands fuel tree set band_type failure_of out bands
      end
  end.
(** The tree as it is read after it is written. *)
Definition check_serialized (fuel : nat) (tree : K2TreeMixed) (set : gset (Z * Z)) (out : list failure)
    : outcome (option (list failure)) :=
  '(_, ss) ← file_of (write_to_ostream tree);
  '(des_tree, _) ← read_from_istream (get_reader (Some ss));
  m ← while_scan fuel (λ acc p, Ret (report_missing set missing_from_des_full_scan acc.1 p, {[ p ]} ∪ acc.2))
        (out, ∅) (create_full_scanner des_tree);
  match m with
  | None => Ret None
  | Some (out, scanned_des) => Ret (Some (out ++ (missing_from_des_output_fscan <$> not_found set scanned_des)))
  end.
(** What is reported, in order; [None]: out of fuel. *)
Definition validate (fuel : nat) (tree : K2TreeMixed) (data : list (Z * Z)) : outcome (option (list failure)) :=
  let set := list_to_set data in
  m ← scan_until fuel (check_point set) (mkSeen None ∅ ∅ ∅) (create_full_scanner tree);
  match m with
  | None => Ret None
  | Some s =>
      match missing s, not_found set (scanned s) with
      | Some p, _ => Ret (Some [missing_from_input p])
      | None, p :: _ => Ret (Some [missing_from_tree p])
      | None, [] =>
          m ← check_bands fuel tree set COLUMN_BAND_TYPE missing_from_col_scan [] (ascending (columns s));
          match m with
          | None => Ret None
          | Some out =>
              m ← check_bands fuel tree set ROW_BAND_TYPE missing_from_row_scan out (ascending (rows s));
              match m with
              | None => Ret None
              | Some out => check_serialized fuel tree set out
              end
          end
      end
  end.
End validate.

(** ** build_rand_tree *)

(** [random_int] draws a real number between one and its argument, and rounds it down. *)
Class RandomReal (R : Type) := random_int : Z → R → Z * R.
Class RandomRealLaws (R : Type) `{RandomReal R} : Prop := random_int_range max_val r :
  1 ≤ max_val → 1 ≤ (random_int max_val r).1 ≤ max_val.

Section draw.
Context {R : Type} `{RandomSource R, RandomReal R} `{K2Lib}.
Notation state := (K2TreeMixed * list (Z * Z) * R)%type.

(** The loops of [draw_square_randomly] and of [draw_square], over what [draw] does at a
    point; a [break] ends the loop it is in. *)
Fixpoint draw_column (draw : Z → Z → state → state) (start_pos max_side col : Z) (js : list Z) (s : state) : state :=
  match js with
  | [] => s
  | j :: js =>
      let row := u64 (start_pos + j) in
      if decide (max_side ≤ row) then s else draw_column draw start_pos max_side col js (draw col row s)
  end.
Fixpoint draw_columns (draw : Z → Z → state → state) (start_pos max_side : Z) (cols js : list Z) (s : state) : state :=
  match cols with
  | [] => s
  | i :: cols =>
      let col := u64 (start_pos + i) in
      if decide (max_side ≤ col) then s
      else draw_columns draw start_pos max_side cols js (draw_column draw start_pos max_side col js s)
  end.
Definition draw_point (st : K2QStateWrapper) (col row : Z) (s : state) : state :=
  let '(tree, data, r) := s in (insert_with st col row tree, data ++ [(col, row)], r).
Definition draw_randomly (st : K2QStateWrapper) (col row : Z) (s : state) : state :=
  let '(tree, data, r) := s in
  let '(v, r) := random_int 10 r in
  if decide (v < 7) then (tree, data, r) else draw_point st col row (tree, data, r).
Definition sides (side : Z) : list Z := Z.of_nat <$> seq 0 (Z.to_nat side).
Definition draw_square (st : K2QStateWrapper) (start_pos side max_side : Z) : state → state :=
  draw_columns (draw_point st) start_pos max_side (sides side) (sides side).
Definition draw_square_randomly (st : K2QStateWrapper) (start_pos side max_side : Z) : state → state :=
  draw_columns (draw_randomly st) start_pos max_side (sides side) (sides side).

Definition draw_rand_square (st : K2QStateWrapper) (max_side : Z) (s : state) (v : Z) : state :=
  let '(tree, data, r) := s in
  let '(n, r) := random_int 1024 r in
  let n := if decide (n < 20) then n + 32 else n in
  draw_square_randomly st v n max_side (tree, data, r).
Definition build_rand_tree (config : K2TreeConfig) (r : R) : outcome (K2TreeMixed * list (Z * Z) * R) :=
  let t := new_K2TreeMixed config in
  '(fy_set, r) ← fisher_yates 128 (Z.shiftl 1 32) r;
  Ret (fold_left (draw_rand_square (create_k2qw t) (u64 (Z.shiftl 1 (treedepth config)))) fy_set (t, [], r)).

(** [wanted_config_validations_squares]: what each attempt reports. *)
Definition wanted_config : K2TreeConfig := mkConfig 32 128 10.
Fixpoint validate_attempts `{Heap, BlockLib} (fuel attempts : nat) (r : R) : outcome (option (list (list failure))) :=
  match attempts with
  | O => Ret (Some [])
  | S attempts =>
      '(t, data, r) ← build_rand_tree wanted_config r;
      m ← validate fuel t data;
      match m with
      | None => Ret None
      | Some out => l ← validate_attempts fuel attempts r; Ret (option_map (cons out) l)
      end
  end.
End draw.

(** [compact_data], which nothing calls. *)
Fixpoint unlike_previous (prev : Z * Z) (l : list (Z * Z)) : list (Z * Z) :=
  match l with
  | [] => []
  | curr :: l => if decide (curr ≠ prev) then curr :: unlike_previous curr l else unlike_previous curr l
  end.
Definition compact_data (data : list (Z * Z)) : list (Z * Z) :=
  match merge_sort pair_le data with [] => [] | first :: l => unlike_previous first l end.

(** ** What is reported *)
Section checks.
Context `{Hp : Heap, Blk : BlockLib, Lib : K2Lib, Ssl : OpenSSL}.

Lemma elem_of_in_order p set : p ∈ in_order set ↔ p ∈ set.
Proof. unfold in_order. by rewrite merge_sort_Permutation, elem_of_elements. Qed.
Lemma not_found_nil set scanned : not_found set scanned = [] ↔ set ⊆ scanned.
Proof.
  unfold not_found. split.
  - intros E p Hin. destruct (decide (p ∈ scanned)) as [|Hn]; [done|].
    assert (Hf : p ∈ filter (λ p, p ∉ scanned) (in_order set)) by (apply list_elem_of_filter; by rewrite elem_of_in_order).
    rewrite E in Hf. by apply not_elem_of_nil in Hf.
  - intros Hsub. destruct (filter _ _) as [|p l] eqn:E; [done|].
    assert (Hf : p ∈ filter (λ p, p ∉ scanned) (in_order set)) by (rewrite E; by left).
    apply list_elem_of_filter in Hf as [Hn Hin]. rewrite elem_of_in_order in Hin. by apply Hsub in Hin.
Qed.

Lemma elem_of_not_found p set scanned : p ∈ not_found set scanned ↔ p ∈ set ∧ p ∉ scanned.
Proof. unfold not_found. rewrite list_elem_of_filter, elem_of_in_order. tauto. Qed.
Lemma elem_of_ascending b set : b ∈ ascending set ↔ b ∈ set.
Proof. unfold ascending. by rewrite merge_sort_Permutation, elem_of_elements. Qed.

(** The first scan stops at a point that is not in the set. *)
Lemma check_points_spec set l : ∀ s, missing s = None → ∃ s', for_until (check_point set) s l = Ret (Some s') ∧
  (Forall (λ p, p ∈ set) l →
     s' = mkSeen None (list_to_set l.*1 ∪ columns s) (list_to_set l.*2 ∪ rows s) (list_to_set l ∪ scanned s)) ∧
  (¬ Forall (λ p, p ∈ set) l → ∃ p, missing s' = Some p ∧ p ∈ l ∧ p ∉ set).
Proof.
  induction l as [|p l IH]; intros s Hs; cbn [for_until].
  - exists s. split; [done|]. split; [|intros Hn; by destruct Hn].
    intros _. destruct s. simpl in *. subst. f_equal; set_solver.
  - change (check_point set s p) with (Ret (Some (
      if decide (p ∉ set) then (true, mkSeen (Some p) ({[ p.1 ]} ∪ columns s) ({[ p.2 ]} ∪ rows s) (scanned s))
      else (false, mkSeen None ({[ p.1 ]} ∪ columns s) ({[ p.2 ]} ∪ rows s) ({[ p ]} ∪ scanned s))))).
    cbn [mbind outcome_bind]. case_decide as Hp'.
    + eexists. split; [done|]. split; [by intros [? _]%Forall_cons|]. intros _. exists p. split_and!; [done|by left|done].
    + destruct (IH (mkSeen None ({[ p.1 ]} ∪ columns s) ({[ p.2 ]} ∪ rows s) ({[ p ]} ∪ scanned s)))
        as (s' & E & Hall & Hnot); [done|]. exists s'. split; [exact E|]. split.
      * intros [_ Hl]%Forall_cons. rewrite (Hall Hl). simpl. f_equal; set_solver.
      * intros Hn. destruct Hnot as (q & ? & ? & ?); [intros Hl; apply Hn; by constructor|].
        exists q. split_and!; [done|by right|done].
Qed.

(** What a scan reports: the points that are not in the set, in its order. *)
Definition reports_of (set : gset (Z * Z)) (failure_of : Z * Z → failure) (l : list (Z * Z)) : list failure :=
  failure_of <$> filter (λ p, p ∉ set) l.
Lemma elem_of_reports set failure_of l f : f ∈ reports_of set failure_of l ↔ ∃ p, f = failure_of p ∧ p ∈ l ∧ p ∉ set.
Proof. unfold reports_of. rewrite list_elem_of_fmap. setoid_rewrite list_elem_of_filter. naive_solver. Qed.
Lemma reports_nil set failure_of l : Forall (λ p, p ∈ set) l → reports_of set failure_of l = [].
Proof.
  intros Hl. unfold reports_of. induction Hl as [|p l Hp' _ IH]; [done|].
  rewrite filter_cons, decide_False by tauto. exact IH.
Qed.
Lemma report_loop set failure_of l : ∀ out,
  foldM (λ out p, Ret (report_missing set failure_of out p)) out l = Ret (out ++ reports_of set failure_of l).
Proof.
  unfold reports_of. induction l as [|p l IH]; intros out; [by rewrite app_nil_r|].
  cbn [foldM mbind outcome_bind]. rewrite IH, filter_cons. unfold report_missing.
  case_decide; [|done]. by rewrite fmap_cons, <-app_assoc.
Qed.
Lemma check_bands_spec fuel t set ty failure_of band bands : ∀ out,
  Forall (λ b, delivers (create_band_scanner b ty t) (band b) ∧ (length (band b) < fuel)%nat) bands →
  check_bands fuel t set ty failure_of out bands =
    Ret (Some (out ++ (bands ≫= λ b, reports_of set failure_of (band b)))).
Proof.
  induction bands as [|b bands IH]; intros out Hb; [by rewrite app_nil_r|].
  apply Forall_cons in Hb as [[Hd Hlen] Hb]. cbn [check_bands].
  rewrite (while_scan_delivers _ _ _ (band b)) by done. rewrite report_loop.
  cbn [fmap outcome_fmap mbind outcome_bind]. rewrite IH by done. by rewrite bind_cons, <-app_assoc.
Qed.

(** The tree that is read from what is written of one. *)
Definition reread (t : K2TreeMixed) : outcome K2TreeMixed :=
  '(_, ss) ← file_of (write_to_ostream t);
  '(t', _) ← read_from_istream (get_reader (Some ss)); Ret t'.
Lemma check_serialized_spec fuel t t' set out back : reread t = Ret t' →
  delivers (create_full_scanner t') back → (length back < fuel)%nat →
  check_serialized fuel t set out = Ret (Some (out ++ reports_of set missing_from_des_full_scan back ++
    (missing_from_des_output_fscan <$> not_found set (list_to_set back)))).
Proof.
  unfold reread, check_serialized. intros Hr Hd Hlen.
  apply bind_inv in Hr as ([n ss] & Ew & Hr). rewrite Ew. cbn [mbind outcome_bind].
  apply bind_inv in Hr as ([t2 rest] & Er & Hr). rewrite Er. cbn [mbind outcome_bind].
  injection Hr as ->. rewrite (while_scan_delivers _ _ _ back) by done.
  assert (Ef : ∀ l acc (s : gset (Z * Z)), foldM (λ acc p, Ret (report_missing set missing_from_des_full_scan acc.1 p, {[ p ]} ∪ acc.2))
                      (acc, s) l = Ret (acc ++ reports_of set missing_from_des_full_scan l, list_to_set l ∪ s)).
  { unfold reports_of. induction l as [|p l IH]; intros acc s;
      [simpl; by rewrite (left_id_L ∅ (∪)), app_nil_r|].
    cbn [foldM mbind outcome_bind fst snd]. rewrite IH. f_equal. f_equal; [|set_solver].
    rewrite filter_cons. unfold report_missing. case_decide; [|done]. by rewrite fmap_cons, <-app_assoc. }
  rewrite Ef. cbn [fmap outcome_fmap mbind outcome_bind]. by rewrite (right_id_L ∅ (∪)), <-app_assoc.
Qed.

(** ** Any tree, right or wrong

    What the scanners of a tree deliver: all of it, its columns and rows, and all of the
    tree that is read from what is written of it. *)
Record scans_as (fuel : nat) (t : K2TreeMixed) (full back : list (Z * Z)) (col row : Z → list (Z * Z)) : Prop := {
  as_full : delivers (create_full_scanner t) full ∧ (length full < fuel)%nat;
  as_col : Forall (λ b, delivers (create_band_scanner b COLUMN_BAND_TYPE t) (col b) ∧ (length (col b) < fuel)%nat) full.*1;
  as_row : Forall (λ b, delivers (create_band_scanner b ROW_BAND_TYPE t) (row b) ∧ (length (row b) < fuel)%nat) full.*2;
  as_back : ∃ t', reread t = Ret t' ∧ delivers (create_full_scanner t') back ∧ (length back < fuel)%nat
}.
(** The differences there are between the scans and the points wanted. *)
Definition differs (set : gset (Z * Z)) (full back : list (Z * Z)) (col row : Z → list (Z * Z)) (f : failure) : Prop :=
  match f with
  | missing_from_input p => p ∈ full ∧ p ∉ set
  | missing_from_tree p => p ∈ set ∧ p ∉ full
  | missing_from_col_scan p => ∃ c, c ∈ full.*1 ∧ p ∈ col c ∧ p ∉ set
  | missing_from_row_scan p => ∃ r, r ∈ full.*2 ∧ p ∈ row r ∧ p ∉ set
  | missing_from_des_full_scan p => p ∈ back ∧ p ∉ set
  | missing_from_des_output_fscan p => p ∈ set ∧ p ∉ back
  end.

Lemma elem_of_band_reports set failure_of (band : Z → list (Z * Z)) (bands : gset Z) f :
  f ∈ (ascending bands ≫= λ b, reports_of set failure_of (band b)) ↔
  ∃ p, f = failure_of p ∧ ∃ b, b ∈ bands ∧ p ∈ band b ∧ p ∉ set.
Proof.
  rewrite list_elem_of_bind. setoid_rewrite elem_of_reports. setoid_rewrite elem_of_ascending. naive_solver.
Qed.
Lemma ascending_forall (P : Z → Prop) (l : list Z) : Forall P l → Forall P (ascending (list_to_set l)).
Proof.
  rewrite !Forall_forall. intros Hl b. rewrite elem_of_ascending, elem_of_list_to_set. apply Hl.
Qed.

(** The check of any tree: a scan with a point too many, or too few, ends it; else it reports
    every difference there is. *)
Lemma validate_reports fuel t data full back col row : scans_as fuel t full back col row →
  let set := list_to_set data : gset (Z * Z) in
  ∃ out, validate fuel t data = Ret (Some out) ∧
    (list_to_set full ≠ set ∧ (∃ f, out = [f] ∧ differs set full back col row f) ∨
     list_to_set full = set ∧ ∀ f, f ∈ out ↔ differs set full back col row f).
Proof.
  intros [[Hd Hlen] Hcol Hrow (t' & Hre & Hback & Hlb)] set. unfold validate. fold set.
  rewrite (scan_until_delivers _ _ _ full) by done.
  destruct (check_points_spec set full (mkSeen None ∅ ∅ ∅)) as (s & E & Hall & Hnot); [done|].
  rewrite E. cbn [mbind outcome_bind]. destruct (decide (Forall (λ p, p ∈ set) full)) as [Hsub|Hn].
  2: { destruct (Hnot Hn) as (p & -> & Hin & Hnin). eexists. split; [done|]. left. split; [|by eexists].
       intros Heq. apply Hnin. rewrite <-Heq. by apply elem_of_list_to_set. }
  rewrite (Hall Hsub). cbn [missing scanned columns rows]. rewrite !(right_id_L ∅ (∪)).
  destruct (not_found set (list_to_set full)) as [|p ps] eqn:En.
  2: { assert (Hp' : p ∈ not_found set (list_to_set full)) by (rewrite En; by left).
       apply elem_of_not_found in Hp' as [Hin Hnin]. eexists. split; [done|]. left. split; [congruence|].
       eexists. split; [done|]. split; [done|]. by rewrite elem_of_list_to_set in Hnin. }
  assert (Heq : list_to_set full = set).
  { apply not_found_nil in En. apply set_eq. intros p. split; [|apply En]. rewrite elem_of_list_to_set.
    rewrite Forall_forall in Hsub. apply Hsub. }
  rewrite (check_bands_spec _ _ _ _ _ col) by by apply ascending_forall. cbn [mbind outcome_bind].
  rewrite (check_bands_spec _ _ _ _ _ row) by by apply ascending_forall. cbn [mbind outcome_bind].
  rewrite (check_serialized_spec _ _ _ _ _ _ Hre Hback Hlb). eexists. split; [done|]. right. split; [done|].
  intros f. rewrite !elem_of_app, !elem_of_band_reports, elem_of_reports, list_elem_of_fmap, elem_of_nil.
  setoid_rewrite elem_of_not_found. setoid_rewrite elem_of_list_to_set.
  assert (Hfull : ∀ p, p ∈ full ↔ p ∈ set) by (intros p; by rewrite <-Heq, elem_of_list_to_set).
  destruct f as [p|p|p|p|p|p]; simpl; try rewrite Hfull; naive_solver.
Qed.

End checks.

Section well_formed.
Context `{Hp : Heap, Blk : BlockLib, !BlockLibLaws, Lib : K2Lib, !K2LibLaws, Ssl : OpenSSL}.

(** A well-formed tree delivers its points, and so does the tree that is read back. *)
Lemma scans_delivers fresh s l : scans fresh s l → delivers s l.
Proof.
  induction 1 as [s Hn _|s s' p l Hn _ Hx _ IH].
  - apply (delivers_nil _ s). simpl. by rewrite Hn.
  - eapply (delivers_cons _ s); [simpl; by rewrite Hn|exact Hx|exact IH].
Qed.
Lemma good_scans fuel t : tm_ok t → tm_wf t → (base.size (pts t) < fuel)%nat →
  ∃ full back, scans_as fuel t full back (BGPOps.band_points t COLUMN_BAND_TYPE) (BGPOps.band_points t ROW_BAND_TYPE) ∧
    full ≡ₚ elements (pts t) ∧ back ≡ₚ elements (pts t) ∧
    (∀ ty b p, b ∈ (if decide (ty = COLUMN_BAND_TYPE) then full.*1 else full.*2) → p ∈ BGPOps.band_points t ty b → p ∈ pts t).
Proof.
  intros Ht Hw Hf. destruct (full_scanner_spec t Ht) as (full & Hd & Hl).
  destruct (tree_codec create_null t Hw) as (bytes & _ & He & _).
  set (c := mkConfig (tree_depth t) (max_nodes_count t) (cut_depth t)).
  destruct (encodes_heap c t bytes Hw) as (t' & Hr & [Ht' _] & Hpts); [by split|exact He|].
  destruct (full_scanner_spec t' Ht') as (back & Hd' & Hl').
  assert (Hre : reread t = Ret t').
  { unfold reread. rewrite (file_of_emits _ _ _ He). cbn [mbind outcome_bind].
    change (get_reader (Some bytes)) with (stream_at [] bytes).
    pose proof (parses_at _ _ _ [] [] Hr) as E. rewrite app_nil_r in E. by rewrite E. }
  assert (Hrange : Forall (λ p, 0 ≤ p.1 < 2 ^ tree_depth t ∧ 0 ≤ p.2 < 2 ^ tree_depth t) full).
  { apply Forall_forall. intros p. rewrite Hl, elem_of_elements. intros Hp'%elem_of_pts.
    pose proof (scan_range _ _ (proj1 Ht)) as Hr'. rewrite Forall_forall in Hr'. by apply Hr' in Hp'. }
  assert (Hband : ∀ ty b, 0 ≤ b < 2 ^ tree_depth t →
    delivers (create_band_scanner b ty t) (BGPOps.band_points t ty b) ∧ (length (BGPOps.band_points t ty b) < fuel)%nat).
  { intros ty b Hb. destruct (band_points_spec t ty b Ht Hb) as [Hs Hp']. split; [by eapply scans_delivers|].
    rewrite Hp'. eapply Nat.le_lt_trans; [apply length_filter|done]. }
  exists full, back. split; [split|split; [done|split; [by rewrite Hl', Hpts|]]].
  - split; [done|]. rewrite Hl. exact Hf.
  - rewrite Forall_fmap. weaken Hrange. intros [? _]. by apply Hband.
  - rewrite Forall_fmap. weaken Hrange. intros [_ ?]. by apply Hband.
  - exists t'. split_and!; [done|done|]. rewrite Hl', Hpts. exact Hf.
  - intros ty b p Hb Hp'. rewrite Forall_forall in Hrange.
    assert (Hb' : 0 ≤ b < 2 ^ tree_depth t).
    { case_decide; apply list_elem_of_fmap in Hb as (q & -> & Hq); by apply Hrange. }
    destruct (band_points_spec t ty b Ht Hb') as [_ E]. rewrite E in Hp'.
    apply list_elem_of_filter in Hp' as [_ ?]. by apply elem_of_elements.
Qed.

Lemma validate_spec fuel t data : tm_ok t → tm_wf t → (base.size (pts t) < fuel)%nat →
  ∃ out, validate fuel t data = Ret (Some out) ∧ (out = [] ↔ pts t = list_to_set data).
Proof.
  intros Ht Hw Hf. destruct (good_scans fuel t Ht Hw Hf) as (full & back & Hs & Hl & Hl' & Hband).
  destruct (validate_reports fuel t data _ _ _ _ Hs) as (out & E & Hout). exists out. split; [exact E|].
  assert (Hpts : (list_to_set full : gset (Z * Z)) = pts t) by by rewrite Hl, list_to_set_elements_L.
  rewrite Hpts in Hout. destruct Hout as [[Hne (f & -> & _)]|[Heq Hout]]; [by split|].
  split; [done|]. intros _. destruct out as [|f out]; [done|]. exfalso.
  assert (Hf' : differs (list_to_set data) full back (BGPOps.band_points t COLUMN_BAND_TYPE) (BGPOps.band_points t ROW_BAND_TYPE) f)
    by (apply Hout; by left).
  rewrite <-Heq in Hf'. destruct f as [p|p|p|p|p|p]; simpl in Hf'.
  - destruct Hf' as [Hp' Hn]. apply Hn. rewrite Hl in Hp'. by apply elem_of_elements.
  - destruct Hf' as [Hp' Hn]. apply Hn. rewrite Hl. by apply elem_of_elements.
  - destruct Hf' as (b & Hb & Hp' & Hn). apply Hn. by apply (Hband COLUMN_BAND_TYPE b).
  - destruct Hf' as (b & Hb & Hp' & Hn). apply Hn. by apply (Hband ROW_BAND_TYPE b).
  - destruct Hf' as [Hp' Hn]. apply Hn. rewrite Hl' in Hp'. by apply elem_of_elements.
  - destruct Hf' as [Hp' Hn]. apply Hn. rewrite Hl'. by apply elem_of_elements.
Qed.

End well_formed.

Section any_library.
Context `{Hp : Heap, Blk : BlockLib, Lib : K2Lib, Ssl : OpenSSL}.
End any_library.

(** ** The trees that are drawn have the points that are kept of them *)
Section drawn.
Context {R : Type} `{RandomSource R, !RandomSourceLaws R, RandomReal R}.
Context `{Hp : Heap, Blk : BlockLib, !BlockLibLaws, Lib : K2Lib, !K2LibLaws, Ssl : OpenSSL}.
Context (config : K2TreeConfig) (depth : 0 ≤ treedepth config < 64).
Notation st := (create_k2qw (new_K2TreeMixed config)).
Notation side := (2 ^ treedepth config).

Definition drawn (s : K2TreeMixed * list (Z * Z) * R) : Prop :=
  tm_ok s.1.1 ∧ create_k2qw s.1.1 = st ∧ pts s.1.1 = list_to_set s.1.2.
Lemma draw_point_drawn col row s : 0 ≤ col < side → 0 ≤ row < side → drawn s → drawn (draw_point st col row s).
Proof.
  destruct s as [[t data] r]. intros Hc Hr (Ht & Hq & Hpts). simpl in *.
  assert (Hin : in_coords (create_k2qw t) (col, row)) by (rewrite Hq; by split).
  pose proof (insert_spec col row t Ht Hin) as Hs. unfold insert_was_inserted in Hs. rewrite Hq in Hs.
  unfold draw_point, drawn, insert_with. simpl. destruct (insert_was_inserted_with st col row t) as [b t'].
  destruct Hs as (Ht' & Hq' & _ & Hpts'). split; [done|]. split; [done|]. simpl. rewrite Hpts', Hpts. set_solver.
Qed.
Lemma draw_randomly_drawn col row s : 0 ≤ col < side → 0 ≤ row < side → drawn s → drawn (draw_randomly st col row s).
Proof.
  intros Hc Hr Hs. destruct s as [[t data] r]. unfold draw_randomly. destruct (random_int 10 r) as [v r'].
  case_decide; [exact Hs|]. by apply draw_point_drawn.
Qed.

Lemma draw_columns_drawn draw start_pos cols js :
  (∀ col row s, 0 ≤ col < side → 0 ≤ row < side → drawn s → drawn (draw col row s)) →
  ∀ s, drawn s → drawn (draw_columns draw start_pos side cols js s).
Proof.
  intros Hd. assert (Hj : ∀ col js s, 0 ≤ col < side → drawn s → drawn (draw_column draw start_pos side col js s)).
  { clear cols js. intros col js s Hc. revert s. induction js as [|j js IH]; intros s Hs; [done|]. cbn [draw_column].
    pose proof (u64_range (start_pos + j)). case_decide; [done|]. apply IH, Hd; [done|unfold in_u in *; lia|done]. }
  induction cols as [|i cols IH]; intros s Hs; [done|]. cbn [draw_columns].
  pose proof (u64_range (start_pos + i)). case_decide; [done|]. apply IH, Hj; [unfold in_u in *; lia|done].
Qed.
Lemma draw_rand_squares_drawn l : ∀ s, drawn s → drawn (fold_left (draw_rand_square st side) l s).
Proof.
  induction l as [|v l IH]; intros s Hs; [done|]. apply IH. destruct s as [[t data] r]. unfold draw_rand_square.
  destruct (random_int 1024 r) as [n r']. apply (draw_columns_drawn _ v); [apply draw_randomly_drawn|exact Hs].
Qed.

(** A tree that is drawn has the points that are returned with it. *)
Theorem build_rand_tree_correct r : ∃ t data r', build_rand_tree config r = Ret (t, data, r') ∧
  tm_ok t ∧ pts t = list_to_set data.
Proof.
  unfold build_rand_tree. destruct (fisher_yates_spec 128 (Z.shiftl 1 32) r) as (l & r1 & -> & _); [done|done|].
  cbn [mbind outcome_bind]. rewrite Z.shiftl_1_l, u64_id by (unfold in_u; split; [lia|apply Z.pow_lt_mono_r; lia]).
  pose proof (draw_rand_squares_drawn l (new_K2TreeMixed config, [], r1)) as Hd.
  destruct (new_tree_ok config) as [Hok Hnew]. destruct (fold_left _ l _) as [[t data] r2].
  destruct Hd as (Ht & _ & Hpts); [by split|]. by exists t, data, r2.
Qed.
End drawn.

(** The whole experiment reports nothing, when the trees it draws fit the format. *)
Theorem validate_attempts_nothing {R : Type} `{RandomSource R, !RandomSourceLaws R, RandomReal R}
    `{Heap, BlockLib, !BlockLibLaws, K2Lib, !K2LibLaws, OpenSSL} fuel attempts (r : R) :
  (∀ r t data r', build_rand_tree (R := R) wanted_config r = Ret (t, data, r') →
     tm_wf t ∧ (base.size (pts t) < fuel)%nat) →
  validate_attempts fuel attempts r = Ret (Some (replicate attempts [])).
Proof.
  intros Hfit. revert r. induction attempts as [|n IH]; intros r; [done|]. cbn [validate_attempts].
  destruct (build_rand_tree_correct wanted_config ltac:(done) r) as (t & data & r' & E & Ht & Hpts). rewrite E.
  cbn [mbind outcome_bind]. destruct (Hfit _ _ _ _ E) as [Hw Hf].
  destruct (validate_spec fuel t data Ht Hw Hf) as (out & -> & Hout). cbn [mbind outcome_bind].
  rewrite (proj2 Hout Hpts), IH. done.
Qed.

(** ** Instances of the theorems *)
Section witnesses.
#[local] Existing Instance toy_block_lib.
#[local] Existing Instance toy_block_laws.
#[local] Existing Instance Toy.toy_k2_lib.
#[local] Existing Instance toy_openssl.
#[local] Existing Instance toy_heap.

Example reported :
  validate 3 toy_tree [(7, 2); (3, 5); (7, 2)] = Ret (Some []) ∧
  validate 3 toy_tree [(7, 2)] = Ret (Some [missing_from_input (3, 5)]) ∧
  validate 3 toy_tree [(7, 2); (3, 5); (3, 4); (9, 9)] = Ret (Some [missing_from_tree (3, 4)]).
Proof. by vm_compute. Qed.
(** The first of the points is lost. *)
Example compacted : compact_data [(7, 2); (3, 5); (7, 2)] = [(7, 2)].
Proof. reflexivity. Qed.
End witnesses.
